(* ===== verification/_CoqProject ===== *)
-Q . S2P
Prelude.v
Try.v
FutureState.v
Future.v
FutureApi.v
Mutex.v
Signal.v
SpinLock.v
CondVar.v
Monitor.v
Semaphore.v
SharedMutex.v
ThreadPool.v
Lazy.v
CoCollect.v
Generator.v
Switch.v
Uthread.v
UthreadCall.v
UthreadSync.v
UthreadLatch.v
UthreadAsync.v
PromiseAllocator.v
IOExecutor.v
ViaCoroutine.v
Bytes.v
Http.v
HttpServer.v
Smtp.v
