(* ===== verification/Prelude.v ===== *)
(** * async_simple: a verification development

    async_simple is a C++ library for asynchronous programming: futures and
    promises, stackless coroutines ([Lazy]), locks and other synchronisation for
    coroutines, cancellation by signals, and executors that run the coroutines on
    a pool of threads.  A [Lazy] suspends at a [co_await] and is resumed by
    whoever completes what it waits for: another coroutine, a promise, the holder
    of a lock, or an executor.  This development models those parts and two of
    the programs under demo_example/ that are built on them.  Paths below are
    relative to src/async_simple/, for the examples to src/demo_example/.

    ** The files

    - Prelude.v: this file.  [outcome] (a value, a C++ exception, or undefined
      behaviour), machine integers, transition systems with invariants and
      simulations, counting in lists; [logicAssert] of Common.h.
    - Try.v: Try.h, the result of a computation.
    - FutureState.v: FutureState.h, what a promise and its future share.
      [set_step] and [cont_step] are [setResult] and [setContinuation] one atomic
      access at a time, [race] their interleavings.
    - Future.v, FutureApi.v: Promise.h, Future.h, LocalState.h and Collect.h.
      Future.v has the heap of state objects, the closures and the machine that
      runs them; FutureApi.v the member functions and [collectAll].
    - Mutex.v: coro/Mutex.h.
    - Signal.v: Signal.h, signals, slots and their handlers.
    - SpinLock.v: coro/SpinLock.h.
    - CondVar.v: coro/ConditionVariable.h, and the Notifier of that file.
    - Monitor.v: code that runs under a lock and waits on condition variables, the
      interface for Semaphore.v (coro/Semaphore.h, coro/Latch.h) and
      SharedMutex.v (coro/SharedMutex.h).  That a [SpinLock] is such a lock and a
      [ConditionVariable] such a stack of waiters is what SpinLock.v and CondVar.v
      prove.
    - ThreadPool.v: util/Queue.h, util/ThreadPool.h, executors/SimpleExecutor.h.
    - Lazy.v: coro/Lazy.h with LazyLocalBase.h, DetachedCoroutine.h, Sleep.h,
      Dispatch.h, FutureAwaiter.h, ResumeBySchedule.h and SyncAwait.h, and the
      timer of Executor.h.
    - CoCollect.v: coro/CountEvent.h and coro/Collect.h.
    - Generator.v: coro/Generator.h, recursive synchronous generators.
    - Switch.v: uthread/internal/thread_impl.h and the switching half of thread.cc,
      stackful coroutines (uthreads) as chains of saved stack pointers, and the
      interface [Switching] with its laws, which says that they are call stacks.
    - Uthread.v: uthread/Uthread.h, Async.h and Await.h with the other half of
      thread.cc, proved against that interface; [a_lts] is its specification,
      threads that block.
    - UthreadCall.v: programs of that machine beside an object of the library; for
      UthreadSync.v, UthreadLatch.v and UthreadAsync.v, which have uthread/Collect.h,
      uthread/Latch.h and the [async] of uthread/Async.h that gives a future as such
      programs, proved on the specification.
    - PromiseAllocator.v: coro/PromiseAllocator.h, where the frame of a coroutine
      is in memory, with the allocator behind it.
    - IOExecutor.v: executors/SimpleIOExecutor.h.
    - ViaCoroutine.v: coro/ViaCoroutine.h, awaiters that are not of the library.
    - Bytes.v, Http.v, HttpServer.v: the example http/, its strings
      ([std::string] as a list of characters), the parser of http_request.hpp with
      http_response.hpp, and coroutine_http/connection.hpp.
    - Smtp.v: the example smtp/smtp_client.cpp.

    Definitions keep the names of the code.  Where one C++ function is several
    atomic steps, the step function has the suffix [_step] and its program
    counter names the point in the function.

    ** What is proved

    - Futures (C1, C4-C6): the continuation runs exactly once in every
      interleaving of the promise's and the future's thread; every operation ends;
      a result goes through a chain of [thenTry] and through [collectAll].  (Where
      a continuation runs: [scheduleContinuation_spec].  The 8-bit counter of promises wraps:
      [detachOne_deletes_iff]; [wait] with a forced schedule meets a null executor:
      [wait_after_forceSched].)
    - Uthreads (C2, C3, C10, C14, C18, C21, C30): the switches refine call stacks; a
      program of uthreads does what the same functions do as blocking threads, the
      destruction of what they have captured included; no wake-up is lost and no
      uthread leaks; [collectAll] returns the results of all its tasks once they
      have ended, returns when they do, and drops the exceptions of those that
      throw; the latch opens at its count; the future of [async] gets the value of
      the function, or a broken promise when it throws.  (A stack is freed after its
      last switch: [uthread_freed_after_end]; the slot of a task that throws:
      [collectAll_drops_exceptions]; a latch that is counted down by two at once can
      stay closed: [latch_two_at_once_blocks].)
    - Generators (C7, C27): a loop over a generator sees the elements its body
      means, through any depth of nesting and with exceptions; no dangling handle
      is used and no frame leaks, wherever the loop is left.
    - Locks for coroutines (C8, C9, C15, C16, C19, C20, C22-C24): Mutex refines a
      FIFO lock, SpinLock an atomic one, ConditionVariable a stack; the semaphore,
      the latch and the shared mutex lose no wake-up, count exactly and exclude,
      for any number of coroutines.  ([unlock] ends in a bounded number of steps:
      [unlock_hands_over]; the Notifier: [notifier_no_lost_wakeup].)  A race of two notifications and
      a cancelled wait that break them are lemmas ([notifyOne_race],
      [cancelled_wait_breaks_lock]).
    - Signals (C11-C13): one winner per signal, a handler is used at most once and
      no signal is lost.  (The use of a deleted handler of a signal with many
      triggers: [multi_trigger_use_after_free].)
    - Executors (C25, C26, C28, C40): the pool runs each item once, and its
      destructor ends; contexts; each request to the kernel has its callback
      called once.  (An item that is accepted late is dropped:
      [pool_drops_late_item]; requests in flight at the end are:
      [destroy_drops_requests].)
    - Coroutines (C17, C29, C31-C34): a [Lazy] computes what the direct call of its
      body computes, whichever executors it moves between; [collectAll] resumes once
      with all results, [collectAny] with the first, [collectAllWindowed] covers
      its inputs; the memory of a frame is given back as it was allocated; a
      foreign awaiter's continuation goes on once, in its context.  (A
      refused schedule loses a coroutine: [refused_schedule_loses_coroutine]; and
      a filtered signal a result: [collectAny_filtered_cancel].)
    - HTTP (C35-C38): the parser reads back every printed request, accepts only
      valid ones and can go wrong only by overflow of a version number; a
      connection answers a request the same however it is cut into reads; no
      request reads a file outside the document root.
    - SMTP (C39): Base64 is that of RFC 4648 and is inverted.  (The end of an
      attachment is not sent: [attachment_truncated].)

    ** Choices and bounds

    Atomic accesses are sequentially consistent: the acquire and release orders
    of the code are taken to be enough for its one-word protocols.  The concurrent
    theorems are for any number of threads and any length of run; nothing is
    bounded but by the width of integers, which are at the width of the code where
    their overflow can matter ([uint8_t] and [size_t] counters, the 32-bit word of
    SharedMutex, 64-bit signals, [int] in the examples).

    Recursion that is not structural has fuel, with a theorem that it is enough.
    [Future.run] uses [fuel_for], a bound on the tasks that the tasks of a state
    can still start ([run_terminates]).  [resumeWaiters] needs as many steps as
    there are waiters, [window_loop] as many as there are inputs, [read_file] as
    many as there are bytes, [Smtp.rows] one for each row, [dec_fuel] one for each
    binary digit, [Generator.destroy] one for each frame made so far.

    User code is a parameter: callbacks, coroutine bodies and the functions of
    uthreads are data (trees of the operations that the library offers), executors
    are functions that accept or refuse, allocators functions that give an address
    or throw, files functions from paths, a socket is the list of the results of
    its reads, and what libaio answers is in the labels of the steps.

    ** Not modelled

    - Of uthread/: [Launch::Prompt], [join] without an executor, [await] of a Lazy.
      The systems of UthreadSync.v and UthreadAsync.v have one call of [collectAll]
      or [async], in a build without the assertions of debug builds, and the
      functions that it gets own nothing.
    - experimental/coroutine.h, the [Traits.h] files, util/move_only_function.h, MoveWrapper.h: template metaprogramming.
    - util/Condition.h: a wrapper of the standard library.
    - The values of a [Lazy] and of a [Future] are of one type; moved-from objects
      are left out except where the code can reach them.
    - demo_example/asio/ is third-party code; the other examples are calls to it. *)

From stdpp Require Export functions base tactics relations list gmap strings.
From Stdlib Require Export ZArith Lia.

#[global] Open Scope Z_scope.

(** ** Exceptions and outcomes *)

(** The exceptions the library itself throws, and user exceptions.  A C++
    [std::exception_ptr] is either null ([None]) or refers to one of them. *)
Inductive exn :=
  | LogicError (msg : string)
  | RuntimeError (msg : string)
  | SignalError (sig : Z) (msg : string)
  | BadFunctionCall
  | UserError (n : Z).

#[export] Instance exn_eq_dec : EqDecision exn.
Proof. solve_decision. Defined.

Abbreviation exception_ptr := (option exn).

(** What running a piece of C++ code gives: a value, a thrown exception, or
    undefined behaviour (a null dereference, an index out of range, reading
    the wrong variant alternative), which no theorem may rely on. *)
Inductive outcome (A : Type) :=
  | Ret (a : A)
  | Throw (e : exn)
  | Undef (why : string).
Arguments Ret {A} a.
Arguments Throw {A} e.
Arguments Undef {A} why.

#[export] Instance outcome_eq_dec {A} `{EqDecision A} : EqDecision (outcome A).
Proof. solve_decision. Defined.

#[export] Instance outcome_ret : MRet outcome := fun A a => Ret a.
#[export] Instance outcome_bind : MBind outcome := fun A B f m =>
  match m with Ret a => f a | Throw e => Throw e | Undef w => Undef w end.
#[export] Instance outcome_fmap : FMap outcome := fun A B f m =>
  match m with Ret a => Ret (f a) | Throw e => Throw e | Undef w => Undef w end.

(** [try { m } catch (...) { h(current_exception) }] *)
Definition try_catch {A} (m : outcome A) (h : exn -> outcome A) : outcome A :=
  match m with Throw e => h e | r => r end.

(** [logicAssert] (Common.h): throws [std::logic_error] when the condition
    fails, in release builds too. *)
Definition logicAssert (x : bool) (errorMsg : string) : outcome unit :=
  if x then Ret tt else Throw (LogicError errorMsg).

Lemma logicAssert_Ret b msg : logicAssert b msg = Ret tt <-> b = true.
Proof. destruct b; simpl; naive_solver. Qed.

Lemma bind_Ret {A B} (m : outcome A) (f : A -> outcome B) b :
  (m ≫= f) = Ret b <-> exists a, m = Ret a /\ f a = Ret b.
Proof. destruct m; simpl; naive_solver. Qed.

(** ** Machine integers *)

Definition u8 (z : Z) : Z := z mod 2 ^ 8.
Definition u32 (z : Z) : Z := z mod 2 ^ 32.
Definition u64 (z : Z) : Z := z mod 2 ^ 64.
(** Two's complement reading of a 32-bit and a 64-bit pattern, and of a byte
    as a (signed) [char]. *)
Definition s32 (z : Z) : Z := (z + 2 ^ 31) mod 2 ^ 32 - 2 ^ 31.
Definition s64 (z : Z) : Z := (z + 2 ^ 63) mod 2 ^ 64 - 2 ^ 63.
Definition s8 (z : Z) : Z := (z + 2 ^ 7) mod 2 ^ 8 - 2 ^ 7.

Lemma u8_range z : 0 <= u8 z < 256.
Proof. apply Z.mod_pos_bound. lia. Qed.
Lemma u8_small z : 0 <= z < 256 -> u8 z = z.
Proof. apply Z.mod_small. Qed.
Lemma u32_range z : 0 <= u32 z < 2 ^ 32.
Proof. apply Z.mod_pos_bound. lia. Qed.
Lemma u32_small z : 0 <= z < 2 ^ 32 -> u32 z = z.
Proof. apply Z.mod_small. Qed.
Lemma u64_range z : 0 <= u64 z < 2 ^ 64.
Proof. apply Z.mod_pos_bound. lia. Qed.
Lemma u64_small z : 0 <= z < 2 ^ 64 -> u64 z = z.
Proof. apply Z.mod_small. Qed.
Lemma s32_small z : - 2 ^ 31 <= z < 2 ^ 31 -> s32 z = z.
Proof. intros. unfold s32. rewrite Z.mod_small; lia. Qed.
Lemma s64_small z : - 2 ^ 63 <= z < 2 ^ 63 -> s64 z = z.
Proof. intros. unfold s64. rewrite Z.mod_small; lia. Qed.

(** ** Transition systems

    The concurrent components are step relations.  An atomic step is one
    access to a shared atomic, or one region the code runs under a lock; the
    memory model is sequential consistency. *)

Record lts := LTS {
  lts_state : Type;
  lts_init : lts_state -> Prop;
  lts_step : lts_state -> lts_state -> Prop;
}.

Definition reachable (M : lts) (s : lts_state M) : Prop :=
  exists s0, lts_init M s0 /\ rtc (lts_step M) s0 s.

Definition invariant (M : lts) (I : lts_state M -> Prop) : Prop :=
  forall s, reachable M s -> I s.

Lemma reachable_init M s : lts_init M s -> reachable M s.
Proof. exists s. split; [done | constructor]. Qed.

Lemma reachable_step M s s' :
  reachable M s -> lts_step M s s' -> reachable M s'.
Proof. intros (s0 & ? & ?) ?. exists s0. eauto using rtc_r. Qed.

Lemma invariant_ind M (I : lts_state M -> Prop) :
  (forall s, lts_init M s -> I s) ->
  (forall s s', I s -> lts_step M s s' -> I s') ->
  invariant M I.
Proof.
  intros Hi Hs s (s0 & H0 & Hrtc). apply Hi in H0. revert H0.
  induction Hrtc; eauto.
Qed.

Lemma invariant_strengthen M (J I : lts_state M -> Prop) :
  invariant M J ->
  (forall s, lts_init M s -> I s) ->
  (forall s s', J s -> I s -> lts_step M s s' -> I s') ->
  invariant M I.
Proof.
  intros HJ Hi Hs s (s0 & H0 & Hrtc).
  assert (HR : reachable M s0) by (by apply reachable_init).
  apply Hi in H0. revert H0 HR.
  induction Hrtc; eauto using reachable_step.
Qed.

(** Forward simulation: every step of [M] is matched by zero or more steps of
    [N]. *)
Record simulation (M N : lts) (R : lts_state M -> lts_state N -> Prop) : Prop := {
  sim_init : forall s, lts_init M s -> exists a, lts_init N a /\ R s a;
  sim_step : forall s s' a,
    reachable M s -> R s a -> lts_step M s s' ->
    exists a', rtc (lts_step N) a a' /\ R s' a';
}.

Lemma simulation_reachable M N R :
  simulation M N R ->
  forall s, reachable M s -> exists a, reachable N a /\ R s a.
Proof.
  intros [Hi Hs] s (s0 & H0 & Hrtc).
  destruct (Hi _ H0) as (a0 & Ha0 & HR).
  assert (reachable M s0) as Hr by (by apply reachable_init).
  assert (reachable N a0) as HaN by (by apply reachable_init).
  clear H0 Ha0. revert a0 HR HaN.
  induction Hrtc as [|s1 s2 s3 H12 _ IH]; intros a0 HR HaN; [eauto |].
  destruct (Hs _ _ _ Hr HR H12) as (a' & Hrtc' & HR').
  apply (IH (reachable_step _ _ _ Hr H12) a' HR').
  destruct HaN as (b & Hb & Hba). exists b. split; [done |]. by etrans.
Qed.

(** A measure that every step decreases bounds the length of every run. *)
Lemma nsteps_measure {A} (R : relation A) (I : A -> Prop) (m : A -> nat) :
  (forall x y, I x -> R x y -> I y /\ (m y < m x)%nat) ->
  forall n x y, I x -> nsteps R n x y -> (n <= m x)%nat.
Proof.
  intros H n x y HI Hn. revert HI.
  induction Hn as [|n x y z Hxy _ IH]; intros HI; [lia |].
  destruct (H _ _ HI Hxy) as [HIy Hlt]. specialize (IH HIy). lia.
Qed.

(** ... and, when enabledness is decidable, every state runs to one where no
    step is possible. *)
Lemma measure_normalises {A} (R : relation A) (I : A -> Prop) (m : A -> nat) :
  (forall x, I x -> Decision (red R x)) ->
  (forall x y, I x -> R x y -> I y /\ (m y < m x)%nat) ->
  forall x, I x -> exists y, rtc R x y /\ nf R y /\ I y.
Proof.
  intros Hdec H x. remember (m x) as k eqn:Hk. revert x Hk.
  induction (lt_wf k) as [k _ IH]. intros x -> HI.
  destruct (Hdec x HI) as [[y Hy] | Hn].
  - destruct (H _ _ HI Hy) as [HIy Hlt].
    destruct (IH (m y) Hlt y eq_refl HIy) as (z & ? & ? & ?).
    exists z. eauto using rtc_l.
  - exists x. eauto using rtc_refl.
Qed.

(** Executable steps: a label says which thread moves (and how a
    nondeterministic primitive behaves); a schedule is a list of labels. *)
Definition fstep {S L} (f : L -> S -> option S) : relation S :=
  fun s s' => exists l, f l s = Some s'.

Fixpoint run_schedule {S L} (f : L -> S -> option S) (sched : list L) (s : S)
    : option S :=
  match sched with
  | [] => Some s
  | l :: sched => match f l s with
                  | Some s' => run_schedule f sched s'
                  | None => None
                  end
  end.

Lemma run_schedule_rtc {S L} (f : L -> S -> option S) sched s s' :
  run_schedule f sched s = Some s' -> rtc (fstep f) s s'.
Proof.
  revert s. induction sched as [|l sched IH]; intros s; simpl.
  - intros [= ->]. done.
  - destruct (f l s) as [s1|] eqn:E; [|done]. intros H.
    eapply rtc_l; [by exists l | by apply IH].
Qed.

Lemma fstep_nf {S L} (f : L -> S -> option S) s :
  nf (fstep f) s <-> forall l, f l s = None.
Proof.
  split.
  - intros Hnf l. destruct (f l s) as [s'|] eqn:E; [|done].
    destruct Hnf. by exists s', l.
  - intros H [s' [l Hl]]. by rewrite H in Hl.
Qed.

(** The transition system of an executable step function. *)
Definition flts {S L} (init : S -> Prop) (f : L -> S -> option S) : lts :=
  LTS S init (fstep f).

Lemma flts_reachable {S L} (init : S -> Prop) (f : L -> S -> option S) sched s s' :
  init s -> run_schedule f sched s = Some s' -> reachable (flts init f) s'.
Proof. intros Hi Hr. exists s. split; [done | by eapply run_schedule_rtc]. Qed.

(** An example run: the schedule is possible, and its end is reachable. *)
Definition run_end {S L} (f : L -> S -> option S) (sched : list L) (s : S) : S :=
  default s (run_schedule f sched s).

Lemma run_end_reachable {S L} (init : S -> Prop) (f : L -> S -> option S) sched s :
  init s -> bool_decide (is_Some (run_schedule f sched s)) = true ->
  reachable (flts init f) (run_end f sched s).
Proof.
  intros Hi [s' Hs']%bool_decide_eq_true. unfold run_end. rewrite Hs'.
  by eapply flts_reachable.
Qed.

(** ** Linked lists and updates of functions *)

(** [p] points to the list [l] linked by [nxt]. *)
Fixpoint chain (nxt : nat -> option nat) (p : option nat) (l : list nat) : Prop :=
  match l with
  | [] => p = None
  | x :: l => p = Some x /\ chain nxt (nxt x) l
  end.

Lemma fn_insert_case `{EqDecision K} {A} (t t' : K) (x : A) f :
  (<[t := x]> f) t' = if decide (t' = t) then x else f t'.
Proof.
  case_decide as H; [subst; by rewrite fn_lookup_insert | by rewrite fn_lookup_insert_ne].
Qed.

Lemma chain_insert nxt t n p l :
  t ∉ l -> chain nxt p l -> chain (<[t := n]> nxt) p l.
Proof.
  revert p. induction l as [|x l IH]; intros p Hn Hc; simpl in *; [done |].
  destruct Hc as [-> Hc]. apply not_elem_of_cons in Hn as [Hx Hn]. split; [done |].
  rewrite fn_lookup_insert_ne by done. by apply IH.
Qed.

Lemma chain_unique nxt p l l' : chain nxt p l -> chain nxt p l' -> l = l'.
Proof.
  revert p l'. induction l as [|x l IH]; intros p [|y l'] H1 H2; simpl in *; try naive_solver.
Qed.

(** ** Counting *)

Definition count_if {A} (f : A -> bool) (ts : list A) : Z :=
  foldr (fun t n => (if f t then 1 else 0) + n) 0 ts.

Lemma count_if_insert {A} (f : A -> bool) ts i t t' :
  ts !! i = Some t ->
  count_if f (<[i := t']> ts) =
  count_if f ts - (if f t then 1 else 0) + (if f t' then 1 else 0).
Proof.
  revert i. induction ts as [|x ts IH]; intros [|i] Hi; simplify_eq/=; [lia |].
  rewrite (IH i) by done. lia.
Qed.

Lemma count_if_nonneg {A} (f : A -> bool) ts : 0 <= count_if f ts.
Proof. induction ts as [|x ts IH]; simpl; [lia | case_match; lia]. Qed.

Lemma count_if_le_length {A} (f : A -> bool) ts : count_if f ts <= Z.of_nat (length ts).
Proof. induction ts as [|x ts IH]; simpl; [lia | case_match; lia]. Qed.

Lemma count_if_pos {A} (f : A -> bool) ts i t : ts !! i = Some t -> f t = true -> 0 < count_if f ts.
Proof.
  revert i. induction ts as [|x ts IH]; intros [|i] Hi Hf; simplify_eq/=.
  - rewrite Hf. pose proof (count_if_nonneg f ts). lia.
  - specialize (IH i Hi Hf). case_match; lia.
Qed.

Lemma count_if_zero {A} (f : A -> bool) ts i t : ts !! i = Some t -> count_if f ts = 0 -> f t = false.
Proof.
  intros Hi Hc. destruct (f t) eqn:Hf; [|done].
  pose proof (count_if_pos f ts i t Hi Hf). lia.
Qed.

Lemma count_replicate {A} (f : A -> bool) k x :
  count_if f (replicate k x) = if f x then Z.of_nat k else 0.
Proof. induction k as [|k IH]; simpl; [by destruct (f x)|]. rewrite IH. destruct (f x); lia. Qed.

Lemma count_if_all_false {A} (f : A -> bool) l :
  (forall i x, l !! i = Some x -> f x = false) -> count_if f l = 0.
Proof.
  induction l as [|x l IH]; intros H; simpl; [done|].
  rewrite (H 0%nat x eq_refl), IH; [done|]. intros i y Hy. by apply (H (S i)).
Qed.

Lemma count_if_all_true {A} (f : A -> bool) l :
  (forall i x, l !! i = Some x -> f x = true) -> count_if f l = Z.of_nat (length l).
Proof.
  induction l as [|x l IH]; intros H; simpl; [done|].
  rewrite (H 0%nat x eq_refl), IH; [lia|]. intros i y Hy. by apply (H (S i)).
Qed.

Lemma count_if_lt {A} (f : A -> bool) l i x :
  l !! i = Some x -> f x = false -> count_if f l < Z.of_nat (length l).
Proof.
  revert i. induction l as [|y l IH]; intros [|i] Hi Hf; simplify_eq/=.
  - rewrite Hf. pose proof (count_if_le_length f l). lia.
  - specialize (IH i Hi Hf). destruct (f y); lia.
Qed.

(** ** Automation *)

Create HintDb asimple discriminated.
#[export] Hint Resolve reachable_init reachable_step : asimple.
#[export] Hint Resolve u8_range u32_range u64_range : asimple.

(** Split records and conjunctions of hypotheses, then rewrite. *)
Ltac simplify := repeat (destruct_and? || simplify_eq/=).

(** Read off the successful steps of a monadic computation. *)
Ltac inv_ret :=
  repeat match goal with
    | H : (_ ≫= _) = Ret _ |- _ => apply bind_Ret in H; destruct H as (? & ? & ?)
    | H : logicAssert _ _ = Ret _ |- _ => apply logicAssert_Ret in H
    | H : Ret _ = Ret _ |- _ => injection H as H
    end; simplify_eq/=.

(** Case analysis on every [match] of the goal or the hypotheses. *)
Ltac case_all :=
  repeat first [progress simplify_eq/= | case_decide | case_match].
