(* ===== verification/Try.v ===== *)
(** * Try: the result of an asynchronous computation

    Models src/async_simple/Try.h: [Try<T>] over the three alternatives of its
    [std::variant], the specialisation [Try<void>], the conversions between
    [Try<Unit>] and [Try<void>], and [makeTryCall].  Moves leave the moved-from
    object out of the model: [Try] is a value. *)

From S2P Require Import Prelude.

(** [std::rethrow_exception]: undefined on a null pointer. *)
Definition rethrow_exception {A} (e : exception_ptr) : outcome A :=
  match e with
  | Some x => Throw x
  | None => Undef "rethrow_exception on a null exception_ptr"
  end.

(** [std::variant<std::monostate, T, std::exception_ptr> _value] *)
Inductive Try (T : Type) :=
  | TNothing
  | TValue (v : T)
  | TError (e : exception_ptr).
Arguments TNothing {T}.
Arguments TValue {T} v.
Arguments TError {T} e.

#[export] Instance Try_eq_dec {T} `{EqDecision T} : EqDecision (Try T).
Proof. solve_decision. Defined.

(** [Try<void>] keeps only an exception pointer. *)
Record TryVoid := mkTryVoid { _error : exception_ptr }.

Section Try.
Context {T : Type}.
Implicit Types t : Try T.

Definition available t : bool :=
  match t with TNothing => false | _ => true end.

Definition hasError t : bool :=
  match t with TError _ => true | _ => false end.

Definition checkHasTry t : outcome unit :=
  match t with
  | TValue _ => Ret tt
  | TError e => rethrow_exception e
  | TNothing => Throw (LogicError "Try object is empty")
  end.

Definition std_get_value t : outcome T :=
  match t with TValue v => Ret v | _ => Undef "bad variant access" end.

(** [Try::value]: all four overloads check first and then read the value. *)
Definition value t : outcome T :=
  checkHasTry t ≫= fun _ => std_get_value t.

Definition emplace (v : T) t : Try T := TValue v.

Definition setException (error : exception_ptr) t : Try T :=
  match t with
  | TError e => if decide (e = error) then t else TError error
  | _ => TError error
  end.

(** [operator=(std::exception_ptr)] *)
Definition assign_exception (error : exception_ptr) t : Try T :=
  match t with
  | TError e => if decide (e = error) then t else TError error
  | _ => TError error
  end.

Definition getException t : outcome exception_ptr :=
  logicAssert (hasError t) "Try object do not has an error" ≫= fun _ =>
  match t with TError e => Ret e | _ => Undef "bad variant access" end.

(** [makeTryCall] for a callable that returns a value. *)
Definition makeTryCall (call : outcome T) : outcome (Try T) :=
  match call with
  | Ret v => Ret (TValue v)
  | Throw e => Ret (TError (Some e))
  | Undef w => Undef w
  end.

(** [operator Try<void>()] *)
Definition to_TryVoid t : outcome TryVoid :=
  if hasError t then e ← getException t; Ret (mkTryVoid e)
  else Ret (mkTryVoid None).
End Try.

Definition TryVoid_hasError (t : TryVoid) : bool :=
  match _error t with Some _ => true | None => false end.

Definition TryVoid_value (t : TryVoid) : outcome unit :=
  if TryVoid_hasError t then rethrow_exception (_error t) else Ret tt.

Definition TryVoid_setException (e : exception_ptr) (t : TryVoid) : TryVoid :=
  mkTryVoid e.

Definition TryVoid_getException (t : TryVoid) : exception_ptr := _error t.

(** [makeTryCall] for a callable that returns void. *)
Definition makeTryCall_void (call : outcome unit) : outcome TryVoid :=
  match call with
  | Ret _ => Ret (mkTryVoid None)
  | Throw e => Ret (mkTryVoid (Some e))
  | Undef w => Undef w
  end.

(** The converting constructor [Try<Unit>(const Try<void>&)]. *)
Definition Try_of_void (other : TryVoid) : Try unit :=
  if TryVoid_hasError other then TError (_error other) else TValue tt.

(** ** Lemmas *)

Lemma value_Ret {T} (t : Try T) v : value t = Ret v <-> t = TValue v.
Proof. destruct t as [| |[]]; cbn; naive_solver. Qed.

Lemma value_Throw {T} (t : Try T) e :
  value t = Throw e <->
  t = TError (Some e) \/ (t = TNothing /\ e = LogicError "Try object is empty").
Proof. destruct t as [| |[]]; cbn; naive_solver. Qed.

Lemma makeTryCall_Ret {T} (m : outcome T) t :
  makeTryCall m = Ret t ->
  available t = true /\ (hasError t = true <-> exists e, m = Throw e).
Proof. destruct m; cbn; naive_solver. Qed.


(** The observations of a [Try] after [setException]. *)
Lemma setException_TError {T} e (t : Try T) : setException e t = TError e.
Proof. unfold setException. destruct t; try case_decide; congruence. Qed.

(** [makeTryCall] followed by [value] is the call itself: a result is returned
    and an exception is rethrown unchanged, for value and void callables. *)
Lemma makeTryCall_spec {T} (m : outcome T) :
  (makeTryCall m ≫= value) = m.
Proof. destruct m; done. Qed.

Lemma makeTryCall_void_spec (m : outcome unit) :
  (makeTryCall_void m ≫= TryVoid_value) = m.
Proof. destruct m as [[]| |]; done. Qed.

(** What [Try<void>] cannot represent: "nothing yet" and "error with a null
    pointer" both become a plain success. *)
Definition void_representable (t : Try unit) : Prop :=
  t <> TNothing /\ t <> TError None.

#[export] Instance void_representable_dec t : Decision (void_representable t).
Proof. unfold void_representable. apply _. Defined.

Lemma to_TryVoid_total (t : Try unit) : exists tv, to_TryVoid t = Ret tv.
Proof. destruct t; cbn; eauto. Qed.

(** Converting [Try<Unit>] to [Try<void>] and back is the identity exactly on
    the representable values. *)
Theorem Try_void_roundtrip (t : Try unit) :
  (to_TryVoid t ≫= fun tv => Ret (Try_of_void tv)) = Ret t
  <-> void_representable t.
Proof.
  unfold void_representable.
  destruct t as [|[]|[]]; cbn; naive_solver.
Qed.

(** The other direction is always the identity. *)
Theorem TryVoid_roundtrip (tv : TryVoid) : to_TryVoid (Try_of_void tv) = Ret tv.
Proof. destruct tv as [[]]; done. Qed.
