(* ===== verification/FutureState.v ===== *)
(** * FutureState: the shared state between a Promise and a Future

    Models src/async_simple/FutureState.h.  [fstate] is the object;
    [set_step] and [cont_step] run [setResult] and [setContinuation] one
    atomic access at a time, so that the race between the promise's thread and
    the future's thread is a transition system ([race]); [setResult] and
    [setContinuation] are the same programs run without interference.
    [scheduleContinuation] decides where the continuation runs, the executor
    being a parameter.  The reference counters are kept at their C++ widths
    ([std::atomic<uint8_t>] and [size_t]). *)

From S2P Require Import Prelude Try.

Inductive State := START | ONLY_RESULT | ONLY_CONTINUATION | DONE.

#[export] Instance State_eq_dec : EqDecision State.
Proof. solve_decision. Defined.

(** The [uint8_t] values of the enumerators. *)
Definition State_bits (s : State) : Z :=
  match s with
  | START => 0
  | ONLY_RESULT => Z.shiftl 1 0
  | ONLY_CONTINUATION => Z.shiftl 1 1
  | DONE => Z.shiftl 1 5
  end.

(** Where [scheduleContinuation] sends the continuation: executed in place,
    given to [Executor::schedule] or to [Executor::checkin] with the context
    and the [prompt] option, or executed in place after the executor refused
    it. *)
Inductive dispatch := BySchedule | ByCheckin (ctx : Z) (prompt : bool).
Inductive sched_result := RanInplace | FallbackInplace | Queued (d : dispatch).

Section FutureState.
Context {V C : Type}.

Record fstate := mkFState {
  _state : State;
  _attached : Z;
  _continuationRef : Z;
  _try_value : Try V;
  _continuation : option C;
  _executor : option nat;
  _context : option Z;
  _promiseRef : Z;
  _forceSched : bool;
}.

(** The constructor. *)
Definition FutureState_init : fstate :=
  mkFState START 0 0 TNothing None None None 0 false.

Definition upd_state x (s : fstate) := mkFState x (_attached s)
  (_continuationRef s) (_try_value s) (_continuation s) (_executor s)
  (_context s) (_promiseRef s) (_forceSched s).
Definition upd_attached x (s : fstate) := mkFState (_state s) x
  (_continuationRef s) (_try_value s) (_continuation s) (_executor s)
  (_context s) (_promiseRef s) (_forceSched s).
Definition upd_continuationRef x (s : fstate) := mkFState (_state s)
  (_attached s) x (_try_value s) (_continuation s) (_executor s)
  (_context s) (_promiseRef s) (_forceSched s).
Definition upd_try_value x (s : fstate) := mkFState (_state s) (_attached s)
  (_continuationRef s) x (_continuation s) (_executor s)
  (_context s) (_promiseRef s) (_forceSched s).
Definition upd_continuation x (s : fstate) := mkFState (_state s)
  (_attached s) (_continuationRef s) (_try_value s) x (_executor s)
  (_context s) (_promiseRef s) (_forceSched s).
Definition upd_executor x (s : fstate) := mkFState (_state s) (_attached s)
  (_continuationRef s) (_try_value s) (_continuation s) x
  (_context s) (_promiseRef s) (_forceSched s).
Definition upd_context x (s : fstate) := mkFState (_state s) (_attached s)
  (_continuationRef s) (_try_value s) (_continuation s) (_executor s)
  x (_promiseRef s) (_forceSched s).
Definition upd_promiseRef x (s : fstate) := mkFState (_state s) (_attached s)
  (_continuationRef s) (_try_value s) (_continuation s) (_executor s)
  (_context s) x (_forceSched s).
Definition upd_forceSched x (s : fstate) := mkFState (_state s) (_attached s)
  (_continuationRef s) (_try_value s) (_continuation s) (_executor s)
  (_context s) (_promiseRef s) x.

Definition state_allows (allow : Z) (s : fstate) : bool :=
  negb (Z.land (State_bits (_state s)) allow =? 0).

Definition hasResult (s : fstate) : bool :=
  state_allows (Z.lor (State_bits DONE) (State_bits ONLY_RESULT)) s.

Definition hasContinuation (s : fstate) : bool :=
  state_allows (Z.lor (State_bits DONE) (State_bits ONLY_CONTINUATION)) s.

(** ** Reference counts *)

Definition attachOne (s : fstate) : fstate :=
  upd_attached (u8 (_attached s + 1)) s.

(** The flag says whether this call executes [delete this]. *)
Definition detachOne (s : fstate) : fstate * bool :=
  let old := _attached s in
  (upd_attached (u8 (old - 1)) s, old =? 1).

Definition attachPromise (s : fstate) : fstate :=
  attachOne (upd_promiseRef (u64 (_promiseRef s + 1)) s).

(** The decrement of [detachPromise]; the flag says whether the promise is
    broken, that is whether [setResult] is called with the
    "Promise is broken" error before [detachOne]. *)
Definition detachPromise (s : fstate) : fstate * bool :=
  let old := _promiseRef s in
  (upd_promiseRef (u64 (old - 1)) s, negb (hasResult s) && (old =? 1)).

Definition refContinuation (s : fstate) : fstate :=
  upd_continuationRef (u8 (_continuationRef s + 1)) s.

(** The flag says whether the stored continuation is destroyed. *)
Definition derefContinuation (s : fstate) : fstate * bool :=
  let old := _continuationRef s in
  let s' := upd_continuationRef (u8 (old - 1)) s in
  if old =? 1 then (upd_continuation None s', true) else (s', false).

(** [ContinuationReference::attach] and [::detach]. *)
Definition ContinuationReference_attach (s : fstate) : fstate :=
  refContinuation (attachOne s).

Definition ContinuationReference_detach (s : fstate) : fstate * bool :=
  detachOne (fst (derefContinuation s)).

(** ** Executor and context *)

Definition setExecutor (ex : option nat) (s : fstate) : fstate :=
  upd_executor ex s.

Definition checkout (ctx_of : nat -> option Z) (s : fstate) : fstate :=
  match _executor s with
  | Some ex => upd_context (ctx_of ex) s
  | None => s
  end.

(** The flag is the message on [std::cerr]. *)
Definition setForceSched (force : bool) (s : fstate) : fstate * bool :=
  match _executor s with
  | None => if force then (s, true) else (upd_forceSched force s, false)
  | Some _ => (upd_forceSched force s, false)
  end.

Definition currentThreadInExecutor (in_exec : nat -> outcome bool)
    (s : fstate) : outcome bool :=
  match _executor s with None => Ret false | Some ex => in_exec ex end.

(** [scheduleContinuation].  [in_exec] answers
    [Executor::currentThreadInExecutor], [submit] is the call of [schedule] or
    [checkin]: it returns whether the function was accepted, or throws. *)
Definition scheduleContinuation (in_exec : nat -> outcome bool)
    (submit : nat -> dispatch -> outcome bool) (triggerByContinuation : bool)
    (s : fstate) : outcome sched_result :=
  _ ← logicAssert (bool_decide (_state s = DONE)) "FutureState is not DONE";
  inplace ← (if _forceSched s then Ret false
             else if bool_decide (_executor s = None) then Ret true
             else if triggerByContinuation then Ret true
             else currentThreadInExecutor in_exec s);
  if (inplace : bool) then Ret RanInplace
  else match _executor s with
  | None => Undef "null executor"
  | Some ex =>
      let d := match _context s with
               | None => BySchedule
               | Some ctx => ByCheckin ctx (negb (_forceSched s))
               end in
      match submit ex d with
      | Ret true => Ret (Queued d)
      | Ret false | Throw _ => Ret FallbackInplace
      | Undef w => Undef w
      end
  end.

(** ** setResult and setContinuation, one atomic access per step *)

Inductive set_pc :=
  | SAssert (v : Try V)
  | SStore (v : Try V)
  | SLoad
  | SCasStart
  | SCasDone (expected : State)
  | SSched
  | SReturn
  | SThrow (e : exn).

(** [checked] is false when compiled with GCC 12 or later, where the first
    assertion is compiled out.  A step of [SSched] is the call of
    [scheduleContinuation(false)]. *)
Definition set_step (checked : bool) (pc : set_pc) (s : fstate)
    : option (set_pc * fstate) :=
  match pc with
  | SAssert v =>
      Some (if checked && hasResult s
            then SThrow (LogicError "FutureState already has a result")
            else SStore v, s)
  | SStore v => Some (SLoad, upd_try_value v s)
  | SLoad =>
      Some (match _state s with
            | START => SCasStart
            | ONLY_CONTINUATION => SCasDone ONLY_CONTINUATION
            | _ => SThrow (LogicError "State Transfer Error")
            end, s)
  | SCasStart =>
      if decide (_state s = START) then Some (SReturn, upd_state ONLY_RESULT s)
      else Some (SCasDone (_state s), s)
  | SCasDone expected =>
      if decide (_state s = expected) then Some (SSched, upd_state DONE s)
      else Some (SThrow (LogicError "State Transfer Error"), s)
  | SSched => Some (SReturn, s)
  | SReturn | SThrow _ => None
  end.

Inductive cont_pc :=
  | CAssert (k : C)
  | CStore (k : C)
  | CLoad
  | CCasStart
  | CCasDone (expected : State)
  | CSched
  | CReturn
  | CThrow (e : exn).

Definition cont_step (pc : cont_pc) (s : fstate) : option (cont_pc * fstate) :=
  match pc with
  | CAssert k =>
      Some (if hasContinuation s
            then CThrow (LogicError "FutureState already has a continuation")
            else CStore k, s)
  | CStore k => Some (CLoad, upd_continuation (Some k) s)
  | CLoad =>
      Some (match _state s with
            | START => CCasStart
            | ONLY_RESULT => CCasDone ONLY_RESULT
            | _ => CThrow (LogicError "State Transfer Error")
            end, s)
  | CCasStart =>
      if decide (_state s = START)
      then Some (CReturn, upd_state ONLY_CONTINUATION s)
      else Some (CCasDone (_state s), s)
  | CCasDone expected =>
      if decide (_state s = expected) then Some (CSched, upd_state DONE s)
      else Some (CThrow (LogicError "State Transfer Error"), s)
  | CSched => Some (CReturn, s)
  | CReturn | CThrow _ => None
  end.

(** The two programs run alone.  Five accesses are enough to reach the call of
    [scheduleContinuation] or the end; the flag says whether it is called. *)
Fixpoint set_run (fuel : nat) (checked : bool) (pc : set_pc) (s : fstate)
    : outcome (fstate * bool) :=
  match pc with
  | SReturn => Ret (s, false)
  | SSched => Ret (s, true)
  | SThrow e => Throw e
  | _ => match fuel, set_step checked pc s with
         | S n, Some (pc', s') => set_run n checked pc' s'
         | _, _ => Undef "out of fuel"
         end
  end.

Fixpoint cont_run (fuel : nat) (pc : cont_pc) (s : fstate)
    : outcome (fstate * bool) :=
  match pc with
  | CReturn => Ret (s, false)
  | CSched => Ret (s, true)
  | CThrow e => Throw e
  | _ => match fuel, cont_step pc s with
         | S n, Some (pc', s') => cont_run n pc' s'
         | _, _ => Undef "out of fuel"
         end
  end.

Definition setResult (checked : bool) (v : Try V) (s : fstate) :=
  set_run 5 checked (SAssert v) s.
Definition setContinuation (k : C) (s : fstate) := cont_run 5 (CAssert k) s.

(** ** The race *)

(** [w_runs] records the calls of [scheduleContinuation]: the value and the
    continuation it finds, and its argument. *)
Record world := mkWorld {
  w_fs : fstate;
  w_set : set_pc;
  w_cont : cont_pc;
  w_runs : list (Try V * option C * bool);
}.

Inductive racer := Setter | Continuer.

Definition race_do (checked : bool) (who : racer) (w : world) : option world :=
  match who with
  | Setter =>
      match set_step checked (w_set w) (w_fs w) with
      | Some (pc', s') => Some (mkWorld s' pc' (w_cont w)
          (match w_set w with
           | SSched => w_runs w ++
               [(_try_value (w_fs w), _continuation (w_fs w), false)]
           | _ => w_runs w
           end))
      | None => None
      end
  | Continuer =>
      match cont_step (w_cont w) (w_fs w) with
      | Some (pc', s') => Some (mkWorld s' (w_set w) pc'
          (match w_cont w with
           | CSched => w_runs w ++
               [(_try_value (w_fs w), _continuation (w_fs w), true)]
           | _ => w_runs w
           end))
      | None => None
      end
  end.

(** One promise sets [v] while one future registers [k], from a state object
    that has neither. *)
Definition race_init (v : Try V) (k : C) (w : world) : Prop :=
  _state (w_fs w) = START /\ w_set w = SAssert v /\ w_cont w = CAssert k /\
  w_runs w = [].

Definition race (checked : bool) (v : Try V) (k : C) : lts :=
  flts (race_init v k) (race_do checked).
End FutureState.
#[global] Arguments hasResult : simpl never.
#[global] Arguments hasContinuation : simpl never.
Arguments fstate : clear implicits.
Arguments set_pc : clear implicits.
Arguments cont_pc : clear implicits.
Arguments world : clear implicits.

(** ** Lemmas *)

Lemma hasResult_eq {V C} (s : fstate V C) :
  hasResult s = match _state s with DONE | ONLY_RESULT => true | _ => false end.
Proof. unfold hasResult, state_allows. by destruct (_state s). Qed.

Lemma hasContinuation_eq {V C} (s : fstate V C) :
  hasContinuation s =
  match _state s with DONE | ONLY_CONTINUATION => true | _ => false end.
Proof. unfold hasContinuation, state_allows. by destruct (_state s). Qed.

(** ** The race: proofs *)

Ltac race_solve :=
  repeat first
    [ done
    | progress destruct_and?
    | progress simplify_eq/=
    | progress destruct_or?
    | case_decide
    | match goal with H : _state ?s = _ |- context [_state ?s] => rewrite H end ];
  simpl in *;
  repeat match goal with H : _continuation _ = Some _ |- _ => rewrite H end;
  eauto 10.

Section RaceProofs.
Context {V C : Type} (checked : bool) (v : Try V) (k : C).
Implicit Types w : world V C.

(** The setter before it has done anything visible, and the value it has
    stored once it is past [SStore]. *)
Definition set_pending (pc : set_pc V) (s : fstate V C) : Prop :=
  match pc with
  | SAssert v' | SStore v' => v' = v
  | SLoad | SCasStart => _try_value s = v
  | _ => False
  end.

Definition cont_pending (pc : cont_pc C) (s : fstate V C) : Prop :=
  match pc with
  | CAssert k' | CStore k' => k' = k
  | CLoad | CCasStart => _continuation s = Some k
  | _ => False
  end.

Definition race_inv w : Prop :=
  let s := w_fs w in
  match _state s with
  | START => set_pending (w_set w) s /\ cont_pending (w_cont w) s /\ w_runs w = []
  | ONLY_RESULT =>
      w_set w = SReturn /\ _try_value s = v /\ w_runs w = [] /\
      (cont_pending (w_cont w) s \/
       (w_cont w = CCasDone ONLY_RESULT /\ _continuation s = Some k))
  | ONLY_CONTINUATION =>
      w_cont w = CReturn /\ _continuation s = Some k /\ w_runs w = [] /\
      (set_pending (w_set w) s \/
       (w_set w = SCasDone ONLY_CONTINUATION /\ _try_value s = v))
  | DONE =>
      _try_value s = v /\ _continuation s = Some k /\
      ((w_set w = SSched /\ w_cont w = CReturn /\ w_runs w = []) \/
       (w_set w = SReturn /\ w_cont w = CSched /\ w_runs w = []) \/
       (w_set w = SReturn /\ w_cont w = CReturn /\
        exists b, w_runs w = [(v, Some k, b)]))
  end.

Lemma race_inv_init w : race_init v k w -> race_inv w.
Proof.
  intros (Hs & Hp & Hc & Hr). unfold race_inv.
  rewrite Hs, Hp, Hc, Hr. done.
Qed.

Lemma race_inv_set w pc' s' :
  race_inv w -> set_step checked (w_set w) (w_fs w) = Some (pc', s') ->
  race_inv (mkWorld s' pc' (w_cont w)
    (match w_set w with
     | SSched => w_runs w ++ [(_try_value (w_fs w), _continuation (w_fs w), false)]
     | _ => w_runs w
     end)).
Proof.
  destruct w as [s pc pc2 runs]; unfold race_inv; simpl. intros HI Hstep.
  destruct (_state s) eqn:Hst, pc; simpl in *;
    rewrite ?hasResult_eq, ?Hst, ?andb_false_r in Hstep; race_solve.
Qed.

Lemma race_inv_cont w pc' s' :
  race_inv w -> cont_step (w_cont w) (w_fs w) = Some (pc', s') ->
  race_inv (mkWorld s' (w_set w) pc'
    (match w_cont w with
     | CSched => w_runs w ++ [(_try_value (w_fs w), _continuation (w_fs w), true)]
     | _ => w_runs w
     end)).
Proof.
  destruct w as [s pc pc2 runs]; unfold race_inv; simpl. intros HI Hstep.
  destruct (_state s) eqn:Hst, pc2; simpl in *;
    rewrite ?hasContinuation_eq, ?Hst in Hstep; race_solve.
Qed.

Lemma race_inv_step w w' :
  race_inv w -> fstep (race_do checked) w w' -> race_inv w'.
Proof.
  intros HI [[] Hs]; unfold race_do in Hs.
  - destruct (set_step _ _ _) as [[]|] eqn:E; simplify_eq. by apply race_inv_set.
  - destruct (cont_step _ _) as [[]|] eqn:E; simplify_eq. by apply race_inv_cont.
Qed.

Lemma race_invariant : invariant (race checked v k) race_inv.
Proof. apply invariant_ind; simpl; eauto using race_inv_init, race_inv_step. Qed.

(** The remaining accesses of each program. *)
Definition set_left (pc : set_pc V) : nat :=
  match pc with
  | SAssert _ => 6 | SStore _ => 5 | SLoad => 4 | SCasStart => 3
  | SCasDone _ => 2 | SSched => 1 | SReturn | SThrow _ => 0
  end%nat.
Definition cont_left (pc : cont_pc C) : nat :=
  match pc with
  | CAssert _ => 6 | CStore _ => 5 | CLoad => 4 | CCasStart => 3
  | CCasDone _ => 2 | CSched => 1 | CReturn | CThrow _ => 0
  end%nat.
Definition race_left w : nat := (set_left (w_set w) + cont_left (w_cont w))%nat.

Lemma race_step_left w w' :
  fstep (race_do checked) w w' -> (race_left w' < race_left w)%nat.
Proof.
  unfold race_left. intros [who H]. destruct w as [s pc pc2 r], who; simpl in *.
  - destruct pc; simpl in H; repeat case_match; simplify_eq/=; lia.
  - destruct pc2; simpl in H; repeat case_match; simplify_eq/=; lia.
Qed.

Lemma race_runs w :
  race_inv w -> w_runs w = [] \/ exists b, w_runs w = [(v, Some k, b)].
Proof. unfold race_inv. intros HI. destruct (_state (w_fs w)); race_solve. Qed.

Lemma race_nf_returned w :
  race_inv w -> nf (fstep (race_do checked)) w ->
  w_set w = SReturn /\ w_cont w = CReturn.
Proof.
  destruct w as [s pc pc2 runs]. intros HI Hnf. pose proof (proj1 (fstep_nf (race_do checked) _) Hnf) as Hn.
  pose proof (Hn Setter) as Hp. pose proof (Hn Continuer) as Hc.
  unfold race_do in Hp, Hc; simpl in Hp, Hc.
  destruct (set_step checked pc s) as [[]|] eqn:Es; [done |].
  destruct (cont_step pc2 s) as [[]|] eqn:Ec; [done |]. clear Hp Hc Hn Hnf.
  unfold race_inv in HI; simpl in *.
  destruct pc, pc2, (_state s) eqn:Hst; simpl in *; race_solve.
Qed.
End RaceProofs.

(** ** Reference counts: lemmas *)

Lemma attached_attachOne {V C} (s : fstate V C) n :
  _attached s = u8 n -> _attached (attachOne s) = u8 (n + 1).
Proof. simpl. intros ->. unfold u8. by rewrite Zplus_mod_idemp_l. Qed.

Lemma attached_detachOne {V C} (s : fstate V C) n :
  _attached s = u8 n -> _attached (fst (detachOne s)) = u8 (n - 1).
Proof. simpl. intros ->. unfold u8. by rewrite Zminus_mod_idemp_l. Qed.

Lemma attached_iter {V C} (n : nat) (s : fstate V C) :
  _attached s = 0 -> _attached (Nat.iter n attachOne s) = u8 (Z.of_nat n).
Proof.
  intros H0. induction n as [|n IH]; [done |].
  rewrite Nat.iter_succ, (attached_attachOne _ _ IH). f_equal. lia.
Qed.

(** ** Running alone *)

(** With the field [_state] known, a program run alone computes. *)
Ltac run_alone s := destruct s; simpl in *; simplify_eq/=; try done.

Lemma setResult_START {V C} checked (v : Try V) (s : fstate V C) :
  _state s = START ->
  setResult checked v s = Ret (upd_state ONLY_RESULT (upd_try_value v s), false).
Proof. intros Hs. destruct checked; run_alone s. Qed.

Lemma setResult_ONLY_CONTINUATION {V C} checked (v : Try V) (s : fstate V C) :
  _state s = ONLY_CONTINUATION ->
  setResult checked v s = Ret (upd_state DONE (upd_try_value v s), true).
Proof. intros Hs. destruct checked; run_alone s. Qed.

Lemma setResult_twice {V C} checked (v : Try V) (s : fstate V C) :
  hasResult s = true ->
  exists msg, setResult checked v s = Throw (LogicError msg).
Proof.
  rewrite hasResult_eq. intros Hr.
  destruct checked, (_state s) eqn:Hs; run_alone s; eexists; reflexivity.
Qed.

Lemma setContinuation_START {V C} (k : C) (s : fstate V C) :
  _state s = START ->
  setContinuation k s =
  Ret (upd_state ONLY_CONTINUATION (upd_continuation (Some k) s), false).
Proof. intros Hs. run_alone s. Qed.

Lemma setContinuation_ONLY_RESULT {V C} (k : C) (s : fstate V C) :
  _state s = ONLY_RESULT ->
  setContinuation k s = Ret (upd_state DONE (upd_continuation (Some k) s), true).
Proof. intros Hs. run_alone s. Qed.

Lemma setContinuation_twice {V C} (k : C) (s : fstate V C) :
  hasContinuation s = true ->
  setContinuation k s =
  Throw (LogicError "FutureState already has a continuation").
Proof.
  rewrite hasContinuation_eq. intros Hc. destruct (_state s) eqn:Hs; run_alone s.
Qed.

(** The two ways each operation can succeed. *)
Lemma setResult_Ret {V C} checked (v : Try V) (s s' : fstate V C) b :
  setResult checked v s = Ret (s', b) ->
  (_state s = START /\ b = false /\ s' = upd_state ONLY_RESULT (upd_try_value v s)) \/
  (_state s = ONLY_CONTINUATION /\ b = true /\
   s' = upd_state DONE (upd_try_value v s)).
Proof.
  intros H. destruct (_state s) eqn:Hs.
  - rewrite setResult_START in H by done. naive_solver.
  - destruct (setResult_twice checked v s); [by rewrite hasResult_eq, Hs | congruence].
  - rewrite setResult_ONLY_CONTINUATION in H by done. naive_solver.
  - destruct (setResult_twice checked v s); [by rewrite hasResult_eq, Hs | congruence].
Qed.

Lemma setContinuation_Ret {V C} (k : C) (s s' : fstate V C) b :
  setContinuation k s = Ret (s', b) ->
  (_state s = START /\ b = false /\
   s' = upd_state ONLY_CONTINUATION (upd_continuation (Some k) s)) \/
  (_state s = ONLY_RESULT /\ b = true /\
   s' = upd_state DONE (upd_continuation (Some k) s)).
Proof.
  intros H. destruct (_state s) eqn:Hs.
  - rewrite setContinuation_START in H by done. naive_solver.
  - rewrite setContinuation_ONLY_RESULT in H by done. naive_solver.
  - rewrite setContinuation_twice in H by (by rewrite hasContinuation_eq, Hs). done.
  - rewrite setContinuation_twice in H by (by rewrite hasContinuation_eq, Hs). done.
Qed.

(** ** Properties *)

(** C1.  The promise's [setResult] and the future's [setContinuation] race on
    the state object in any interleaving of their atomic accesses.  Neither
    can throw; every interleaving is finite; and when both have returned,
    [scheduleContinuation] has been called exactly once, at a moment when the
    state object held the value the promise set and the continuation the future
    registered. *)
Theorem race_continuation_exactly_once {V C} checked (v : Try V) (k : C)
    (w : world V C) :
  reachable (race checked v k) w ->
  (forall e, w_set w <> SThrow e) /\ (forall e, w_cont w <> CThrow e) /\
  (length (w_runs w) <= 1)%nat /\
  (forall r, r ∈ w_runs w -> exists b, r = (v, Some k, b)) /\
  (forall n w', nsteps (fstep (race_do checked)) n w w' -> (n <= 12)%nat) /\
  (nf (fstep (race_do checked)) w ->
     w_set w = SReturn /\ w_cont w = CReturn /\
     exists b, w_runs w = [(v, Some k, b)]).
Proof.
  intros HR. pose proof (race_invariant checked v k w HR) as HI.
  split_and!.
  - intros e He. unfold race_inv in HI.
    rewrite He in HI; cbn in HI. destruct (_state (w_fs w)); race_solve.
  - intros e He. unfold race_inv in HI.
    rewrite He in HI; cbn in HI. destruct (_state (w_fs w)); race_solve.
  - destruct (race_runs _ _ _ HI) as [-> | [b ->]]; simpl; lia.
  - intros r Hr. destruct (race_runs _ _ _ HI) as [Hw | [b Hw]]; rewrite Hw in Hr;
      [by apply not_elem_of_nil in Hr | apply list_elem_of_singleton in Hr; eauto].
  - intros n w' Hn.
    assert (n <= race_left w)%nat.
    { eapply (nsteps_measure _ (fun _ => True)); eauto.
      intros x y _ Hs. split; [done |]. by eapply race_step_left. }
    assert (race_left w <= 12)%nat; [|lia].
    unfold race_left. destruct (w_set w), (w_cont w); simpl; lia.
  - intros Hnf. destruct (race_nf_returned _ _ _ _ HI Hnf) as [Hs Hc].
    split_and!; [done | done |].
    unfold race_inv in HI. rewrite Hs, Hc in HI; cbn in HI.
    destruct (_state (w_fs w)); race_solve.
Qed.

Definition race_example_start : world Z nat :=
  mkWorld FutureState_init (SAssert (TValue 7)) (CAssert 3%nat) [].
Definition race_example_schedule : list racer :=
  [Continuer; Setter; Setter; Continuer; Continuer; Setter; Continuer; Setter;
   Setter; Setter].
Definition race_example_end : world Z nat :=
  default race_example_start
    (run_schedule (race_do true) race_example_schedule race_example_start).

Lemma race_continuation_exactly_once_witness :
  w_runs race_example_end = [(TValue 7, Some 3%nat, false)] /\
  (length (w_runs race_example_end) <= 1)%nat.
Proof.
  split; [vm_compute; reflexivity |].
  apply (race_continuation_exactly_once true (TValue 7) 3%nat race_example_end).
  eapply (flts_reachable _ _ race_example_schedule race_example_start).
  - repeat split.
  - vm_compute. reflexivity.
Defined.

(** [scheduleContinuation] on a state object that is [DONE]: it runs the
    continuation in place exactly when scheduling is not forced and there is no
    executor, or the future's side triggered it, or the caller is already in
    the executor; otherwise it submits it to the executor ([checkin] when a
    context was checked out, [schedule] otherwise), and it falls back to running
    in place when the executor refuses or throws.  With forced scheduling and no
    executor, which [Future::wait] can produce, it dereferences null. *)
Theorem scheduleContinuation_spec {V C} in_exec submit trigger (s : fstate V C) :
  _state s = DONE ->
  (forall ex, exists b, in_exec ex = Ret b) ->
  (forall ex d w, submit ex d <> Undef w) ->
  scheduleContinuation in_exec submit trigger s =
  match _executor s with
  | None => if _forceSched s then Undef "null executor" else Ret RanInplace
  | Some ex =>
      if negb (_forceSched s) && (trigger || bool_decide (in_exec ex = Ret true))
      then Ret RanInplace
      else
        let d := match _context s with
                 | None => BySchedule
                 | Some ctx => ByCheckin ctx (negb (_forceSched s)) end in
        if bool_decide (submit ex d = Ret true) then Ret (Queued d)
        else Ret FallbackInplace
  end.
Proof.
  intros Hs Hin Hsub. unfold scheduleContinuation, currentThreadInExecutor.
  rewrite Hs; cbn.
  assert (forall ex d, match submit ex d with
    | Ret true => Ret (Queued d)
    | Ret false | Throw _ => Ret FallbackInplace
    | Undef w => Undef w end =
    if bool_decide (submit ex d = Ret true) then Ret (Queued d)
    else Ret FallbackInplace)
    as Hd.
  { intros ex d. case_bool_decide as Hb; [by rewrite Hb |].
    destruct (submit ex d) as [[]| |w] eqn:E; try done. by destruct (Hsub ex d w). }
  destruct (_executor s) as [ex|], (_forceSched s), trigger; cbn; rewrite ?Hd; try done.
  destruct (Hin ex) as [[] ->]; cbn; by rewrite ?Hd.
Qed.

Lemma scheduleContinuation_spec_witness :
  let s := mkFState (V := Z) (C := nat) DONE 1 1 (TValue 7) (Some 3%nat)
             (Some 0%nat) (Some 5) 0 true in
  scheduleContinuation (fun _ => Ret true) (fun _ _ => Ret true) false s =
  Ret (Queued (ByCheckin 5 false)).
Proof.
  intros s.
  rewrite (scheduleContinuation_spec (fun _ => Ret true) (fun _ _ => Ret true) false s);
    [reflexivity | reflexivity | intros; eexists; reflexivity | discriminate].
Defined.

(** The reference counter is a [uint8_t]: after [n] handles have attached
    to a fresh state object, releasing one of them deletes the object exactly
    when [n mod 256 = 1].  With at most 256 handles that is the last one; with
    257 handles the first release deletes the object under the other 256. *)
Theorem detachOne_deletes_iff {V C} (n : nat) (s : fstate V C) :
  _attached s = 0 ->
  snd (detachOne (Nat.iter n attachOne s)) = true <-> Z.of_nat n mod 256 = 1.
Proof.
  intros H0. simpl. rewrite (attached_iter n s H0), Z.eqb_eq. done.
Qed.

Lemma detachOne_deletes_iff_witness :
  snd (detachOne (Nat.iter 257 attachOne (FutureState_init (V := Z) (C := nat)))) = true.
Proof. apply (detachOne_deletes_iff 257 FutureState_init); reflexivity. Defined.
