(* ===== verification/Future.v ===== *)
(** * Promise, Future, LocalState and collectAll

    Models src/async_simple/Promise.h, Future.h, LocalState.h and Collect.h on
    a heap of [FutureState] objects.  The closures the C++ code stores in a
    [FutureState] are the constructors of [cont]; what a call does is a list of
    [task]s, executed depth first by [run] in the order the C++ statements and
    the destructors of their local objects execute.  Objects whose reference
    count reaches zero leave the heap, and touching them afterwards is [Undef].

    User callbacks are functions of the model ([callback]): they return a value,
    throw, or return a future that exists already.  Executors are parameters:
    whether the current thread is in the executor, whether a submission is
    accepted, and the context [checkout] returns. *)

From S2P Require Import Prelude Try FutureState.

Abbreviation loc := nat.

(** The values: [Unit], scalars, and the vectors of [collectAll]. *)
#[warnings="-register-all"]
Inductive val :=
  | VUnit
  | VInt (z : Z)
  | VVec (l : list (Try val)).

(** [Future<T>]: [_sharedState] and the two fields of its [LocalState]. *)
Record future := mkFuture {
  f_shared : option loc;
  f_try : Try val;
  f_exec : option nat;
}.

Record promise := mkPromise { p_shared : option loc; p_hasFuture : bool }.

Definition null_promise : promise := mkPromise None false.

(** A callback of [thenTry]: it returns a value or a future
    ([R::ReturnsFuture::value]). *)
Inductive callback :=
  | CbValue (f : Try val -> outcome val)
  | CbFuture (f : Try val -> outcome future).

(** The closures passed to [setContinuation], with their captures. *)
Inductive cont :=
  | KThen (isTry : bool) (f : callback) (p : promise)
  | KForward (pm : promise)
  | KCollect (ctx : nat) (i : nat)
  | KWait (p : promise)
  | KUser (id : nat).

(** The [Context] of [collectAll], shared by [std::shared_ptr]. *)
Record collect_ctx := mkCtx {
  c_refs : nat;
  c_results : list (Try val);
  c_promise : promise;
}.

Record st := mkSt {
  heap : gmap loc (fstate val cont);
  next_loc : loc;
  ctxs : gmap nat collect_ctx;
  next_ctx : nat;
  exec_queue : list (nat * dispatch * loc);
  user_log : list (nat * Try val);
  woken : list loc;
}.

Definition st_init : st := mkSt ∅ 0 ∅ 0 [] [] [].

Definition upd_heap h (s : st) := mkSt h (next_loc s) (ctxs s) (next_ctx s)
  (exec_queue s) (user_log s) (woken s).
Definition upd_ctxs c (s : st) := mkSt (heap s) (next_loc s) c (next_ctx s)
  (exec_queue s) (user_log s) (woken s).
Definition upd_queue q (s : st) := mkSt (heap s) (next_loc s) (ctxs s)
  (next_ctx s) q (user_log s) (woken s).
Definition upd_log l (s : st) := mkSt (heap s) (next_loc s) (ctxs s)
  (next_ctx s) (exec_queue s) l (woken s).
Definition upd_woken l (s : st) := mkSt (heap s) (next_loc s) (ctxs s)
  (next_ctx s) (exec_queue s) (user_log s) l.

(** [->] on a [FutureState] pointer. *)
Definition deref (l : loc) (s : st) : outcome (fstate val cont) :=
  match heap s !! l with
  | Some fs => Ret fs
  | None => Undef "use after free"
  end.

Definition put (l : loc) (fs : fstate val cont) (s : st) : st :=
  upd_heap (<[l := fs]> (heap s)) s.

Inductive task :=
  | TSetResult (l : loc) (t : Try val)
  | TSetContinuation (f : future) (k : cont)
  | TSchedule (l : loc) (triggerByContinuation : bool)
  | TInvoke (l : loc)
  | TGuardDtor (l : loc)
  | TDetachOne (l : loc)
  | TPromiseDtor (p : promise)
  | TFutureDtor (f : future)
  | TDestroyCont (k : cont)
  | TCtxRelease (c : nat).

(** [Promise::setValue(Try&&)] and [setException]. *)
Definition Promise_setTry (p : promise) (t : Try val) : outcome (list task) :=
  match p_shared p with
  | Some l => Ret [TSetResult l t]
  | None => Throw (LogicError "Promise is broken")
  end.

(** Running the body of a closure: the tasks it starts, the closure as it is
    left (its promise may have been moved out), and the new state. *)
Definition call_body (k : cont) (t : Try val) (s : st)
    : outcome (list task * cont * st) :=
  match k with
  | KThen isTry cb p =>
      if negb isTry && hasError t then
        e ← getException t;
        ts ← Promise_setTry p (TError e);
        Ret (ts, k, s)
      else
        match cb with
        | CbFuture f =>
            match f t with
            | Ret f2 =>
                Ret ([TSetContinuation f2 (KForward p); TFutureDtor f2],
                     KThen isTry cb null_promise, s)
            | Throw e =>
                ts ← Promise_setTry p (TError (Some e));
                Ret (ts, k, s)
            | Undef w => Undef w
            end
        | CbValue f =>
            t' ← makeTryCall (f t);
            ts ← Promise_setTry p t';
            Ret (ts, k, s)
        end
  | KForward pm =>
      ts ← Promise_setTry pm t;
      Ret (ts, k, s)
  | KCollect c i =>
      match ctxs s !! c with
      | Some cx =>
          if decide (i < length (c_results cx))%nat then
            Ret ([], k, upd_ctxs (<[c := mkCtx (c_refs cx)
                  (<[i := t]> (c_results cx)) (c_promise cx)]> (ctxs s)) s)
          else Undef "index out of range"
      | None => Undef "use after free"
      end
  | KWait p =>
      ts ← Promise_setTry p t;
      Ret (ts, k, match p_shared p with
                  | Some l => upd_woken (woken s ++ [l]) s
                  | None => s
                  end)
  | KUser id => Ret ([], k, upd_log (user_log s ++ [(id, t)]) s)
  end.

Section Machine.
(** The executors, and the compiler: [checked] as in [set_step]. *)
Context (checked : bool).
Context (in_exec : nat -> outcome bool).
Context (submit : nat -> dispatch -> outcome bool).

Definition step_task (tk : task) (s : st) : outcome (list task * st) :=
  match tk with
  | TSetResult l t =>
      fs ← deref l s;
      r ← setResult checked t fs;
      Ret (if snd r : bool then [TSchedule l false] else [], put l (fst r) s)
  | TSetContinuation f k =>
      match f_shared f with
      | Some l =>
          fs ← deref l s;
          r ← setContinuation k fs;
          Ret (if snd r : bool then [TSchedule l true] else [], put l (fst r) s)
      | None =>
          r ← call_body k (f_try f) s;
          Ret (fst (fst r) ++ [TDestroyCont (snd (fst r))], snd r)
      end
  | TSchedule l trigger =>
      fs ← deref l s;
      r ← scheduleContinuation in_exec submit trigger fs;
      let guarded := ContinuationReference_attach fs in
      match r with
      | RanInplace => Ret ([TInvoke l; TGuardDtor l], put l guarded s)
      | FallbackInplace =>
          Ret ([TGuardDtor l; TInvoke l; TGuardDtor l],
               put l (ContinuationReference_attach guarded) s)
      | Queued d =>
          Ret ([TGuardDtor l],
               upd_queue (exec_queue s ++ [(default 0%nat (_executor fs), d, l)])
                 (put l (ContinuationReference_attach guarded) s))
      end
  | TInvoke l =>
      fs ← deref l s;
      match _continuation fs with
      | None => Undef "no continuation"
      | Some k =>
          r ← call_body k (_try_value fs) s;
          Ret (fst (fst r), put l (upd_continuation (Some (snd (fst r))) fs) (snd r))
      end
  | TGuardDtor l =>
      fs ← deref l s;
      let r := derefContinuation fs in
      Ret ((if snd r : bool
            then match _continuation fs with
                 | Some k => [TDestroyCont k] | None => [] end
            else []) ++ [TDetachOne l], put l (fst r) s)
  | TDetachOne l =>
      fs ← deref l s;
      let r := detachOne fs in
      Ret ([], if snd r : bool then upd_heap (delete l (heap s)) s
               else put l (fst r) s)
  | TPromiseDtor p =>
      match p_shared p with
      | None => Ret ([], s)
      | Some l =>
          fs ← deref l s;
          let r := detachPromise fs in
          Ret ((if snd r : bool
                then [TSetResult l (TError (Some (RuntimeError "Promise is broken")))]
                else []) ++ [TDetachOne l], put l (fst r) s)
      end
  | TFutureDtor f =>
      match f_shared f with
      | None => Ret ([], s)
      | Some l => Ret ([TDetachOne l], s)
      end
  | TDestroyCont k =>
      match k with
      | KThen _ _ p | KForward p | KWait p => Ret ([TPromiseDtor p], s)
      | KCollect c _ => Ret ([TCtxRelease c], s)
      | KUser _ => Ret ([], s)
      end
  | TCtxRelease c =>
      match ctxs s !! c with
      | None => Undef "use after free"
      | Some cx =>
          match c_refs cx with
          | S (S n) =>
              Ret ([], upd_ctxs (<[c := mkCtx (S n) (c_results cx) (c_promise cx)]>
                                   (ctxs s)) s)
          | _ =>
              ts ← Promise_setTry (c_promise cx) (TValue (VVec (c_results cx)));
              Ret (ts ++ [TPromiseDtor (c_promise cx)],
                   upd_ctxs (delete c (ctxs s)) s)
          end
      end
  end.

(** [None] when the fuel does not suffice. *)
Fixpoint run (fuel : nat) (ts : list task) (s : st) : option (outcome st) :=
  match ts with
  | [] => Some (Ret s)
  | tk :: ts' =>
      match fuel with
      | O => None
      | S n =>
          match step_task tk s with
          | Ret r => run n (fst r ++ ts') (snd r)
          | Throw e => Some (Throw e)
          | Undef w => Some (Undef w)
          end
      end
  end.
End Machine.

(** ** A bound on the number of tasks

    [pending h] counts the state objects that are not [DONE]; a task's [weight]
    bounds the tasks it can start without completing another state object. *)

Definition not_done (c : loc * fstate val cont) : Prop := _state (snd c) <> DONE.
#[export] Instance not_done_dec c : Decision (not_done c).
Proof. unfold not_done. apply _. Defined.

Definition pending (h : gmap loc (fstate val cont)) : nat := size (filter not_done h).

Definition body_weight (k : cont) : nat :=
  match k with KThen _ _ _ => 10 | _ => 1 end.

Definition weight (tk : task) : nat :=
  match tk with
  | TSetResult _ _ => 1
  | TSetContinuation _ k => 7 + body_weight k
  | TSchedule _ _ => 28
  | TInvoke _ => 11
  | TGuardDtor _ => 8
  | TDetachOne _ => 1
  | TPromiseDtor _ => 3
  | TFutureDtor _ => 2
  | TDestroyCont _ => 6
  | TCtxRelease _ => 5
  end.

Definition weights (ts : list task) : nat := sum_list_with weight ts.

Definition fuel_for (ts : list task) (s : st) : nat :=
  (weights ts + 28 * pending (heap s))%nat.

Lemma pending_put_same h l fs fs' :
  h !! l = Some fs -> (_state fs = DONE <-> _state fs' = DONE) ->
  pending (<[l := fs']> h) = pending h.
Proof.
  intros Hl Hiff. unfold pending. destruct (decide (not_done (l, fs'))) as [Hn|Hn].
  - rewrite map_filter_insert_True by done.
    rewrite map_size_insert_Some; [done |].
    exists fs. apply map_lookup_filter_Some. split; [done |].
    unfold not_done in *; simpl in *; tauto.
  - rewrite map_filter_insert_False by done.
    rewrite map_filter_delete, delete_id; [done |].
    apply map_lookup_filter_None. right. intros x Hx Hnx. simplify_eq.
    unfold not_done in *; simpl in *; tauto.
Qed.

Lemma pending_put_done h l fs fs' :
  h !! l = Some fs -> _state fs <> DONE -> _state fs' = DONE ->
  S (pending (<[l := fs']> h)) = pending h.
Proof.
  intros Hl Hn Hd. unfold pending.
  rewrite map_filter_insert_False by (unfold not_done; simpl; tauto).
  rewrite map_filter_delete.
  assert (filter not_done h !! l = Some fs) as Hf
    by (by apply map_lookup_filter_Some).
  rewrite map_size_delete_Some by eauto.
  assert (size (filter not_done h) <> 0%nat); [|lia].
  intros H0%map_size_empty_inv. by rewrite H0 in Hf.
Qed.

Lemma pending_delete h l : (pending (delete l h) <= pending h)%nat.
Proof.
  unfold pending. rewrite map_filter_delete.
  destruct (filter not_done h !! l) eqn:E.
  - rewrite map_size_delete_Some by eauto. lia.
  - by rewrite delete_id.
Qed.

Lemma weights_app ts ts' : weights (ts ++ ts') = (weights ts + weights ts')%nat.
Proof. unfold weights. by rewrite sum_list_with_app. Qed.

Lemma weights_cons tk ts : weights (tk :: ts) = (weight tk + weights ts)%nat.
Proof. done. Qed.

Lemma Promise_setTry_weight p t ts :
  Promise_setTry p t = Ret ts -> weights ts = 1%nat.
Proof. unfold Promise_setTry. destruct (p_shared p); naive_solver. Qed.

(** Running a closure's body leaves the heap alone. *)
Lemma call_body_weight k t s ts k' s' :
  call_body k t s = Ret (ts, k', s') ->
  heap s' = heap s /\ (weights ts <= body_weight k)%nat.
Proof.
  unfold call_body. intros H.
  assert (forall (m : outcome (list task)) (g : list task -> outcome (list task * cont * st)),
    (m ≫= g) = Ret (ts, k', s') -> exists ts0, m = Ret ts0 /\ g ts0 = Ret (ts, k', s'))
    as Hb by (intros; by apply bind_Ret).
  destruct k as [isTry cb p|p|c i|p|id]; simpl in *.
  - destruct (negb isTry && hasError t).
    + apply bind_Ret in H as (e & _ & H). apply Hb in H as (ts0 & H & ?).
      apply Promise_setTry_weight in H. simplify_eq. split; [done | lia].
    + destruct cb as [f|f].
      * apply bind_Ret in H as (t' & _ & H). apply Hb in H as (ts0 & H & ?).
        apply Promise_setTry_weight in H. simplify_eq. split; [done | lia].
      * destruct (f t) as [f2|e|]; simplify_eq; [split; [done | simpl; lia] |].
        apply Hb in H as (ts0 & H & ?).
        apply Promise_setTry_weight in H. simplify_eq. split; [done | lia].
  - apply Hb in H as (ts0 & H & ?). apply Promise_setTry_weight in H.
    simplify_eq. split; [done | lia].
  - case_match; [case_decide|]; simplify_eq. split; [done | simpl; lia].
  - apply Hb in H as (ts0 & H & ?). apply Promise_setTry_weight in H.
    simplify_eq. split; [by case_match | lia].
  - simplify_eq. split; [done | simpl; lia].
Qed.

(** Updates that keep [_state] keep [pending]. *)
Lemma pending_put s l fs fs' :
  heap s !! l = Some fs -> _state fs' = _state fs ->
  pending (heap (put l fs' s)) = pending (heap s).
Proof. intros Hl He. simpl. apply (pending_put_same _ _ fs); [done | by rewrite He]. Qed.

Lemma derefContinuation_state (fs : fstate val cont) :
  _state (fst (derefContinuation fs)) = _state fs.
Proof. unfold derefContinuation. by destruct (_ =? 1). Qed.

Lemma pending_put_to_done s l fs fs' :
  heap s !! l = Some fs -> _state fs <> DONE -> _state fs' = DONE ->
  S (pending (heap (put l fs' s))) = pending (heap s).
Proof. intros. simpl. by apply (pending_put_done _ _ fs). Qed.

Lemma deref_Ret l s fs : deref l s = Ret fs -> heap s !! l = Some fs.
Proof. unfold deref. by destruct (heap s !! l); intros [= ->]. Qed.

#[local] Arguments Nat.mul : simpl never.

Section Termination.
Context (checked : bool) (in_exec : nat -> outcome bool).
Context (submit : nat -> dispatch -> outcome bool).
Let step := step_task checked in_exec submit.

(** What a task adds to the work that is left. *)
Definition costs_less (tk : task) (ts : list task) (s s' : st) : Prop :=
  (weights ts + 28 * pending (heap s') < weight tk + 28 * pending (heap s))%nat.

Lemma cost_TSetResult l t s ts s' :
  step (TSetResult l t) s = Ret (ts, s') -> costs_less (TSetResult l t) ts s s'.
Proof.
  unfold step, costs_less. intros H; simpl in H. inv_ret.
  rename select (deref _ _ = _) into Hl. apply deref_Ret in Hl.
  rename select (setResult _ _ _ = _) into Hr. destruct x0 as [fs' b].
  apply setResult_Ret in Hr as [(Hs & -> & ->)|(Hs & -> & ->)]; simpl weight.
  - pose proof (pending_put_same _ l x (upd_state ONLY_RESULT (upd_try_value t x)) Hl
      ltac:(simpl; rewrite Hs; done)) as Hp.
    simpl in *. lia.
  - pose proof (pending_put_to_done s l x (upd_state DONE (upd_try_value t x)) Hl
      ltac:(by rewrite Hs) eq_refl). simpl in *. lia.
Qed.

Lemma cost_TSetContinuation f k s ts s' :
  step (TSetContinuation f k) s = Ret (ts, s') ->
  costs_less (TSetContinuation f k) ts s s'.
Proof.
  unfold step, costs_less. intros H; simpl in H. destruct (f_shared f) as [l|].
  - inv_ret. rename select (deref _ _ = _) into Hl. apply deref_Ret in Hl.
    rename select (setContinuation _ _ = _) into Hr. destruct x0 as [fs' b].
    apply setContinuation_Ret in Hr as [(Hs & -> & ->)|(Hs & -> & ->)]; simpl weight.
    + pose proof (pending_put_same _ l x
        (upd_state ONLY_CONTINUATION (upd_continuation (Some k) x)) Hl
        ltac:(simpl; rewrite Hs; done)) as Hp. simpl in *. lia.
    + pose proof (pending_put_to_done s l x
        (upd_state DONE (upd_continuation (Some k) x)) Hl ltac:(by rewrite Hs) eq_refl).
      simpl in *. lia.
  - inv_ret. destruct x as [[ts0 k'] s0]. simpl in *.
    rename select (call_body _ _ _ = _) into Hb.
    apply call_body_weight in Hb as [-> Hw]. rewrite weights_app. simpl. lia.
Qed.

Lemma cost_TSchedule l tr s ts s' :
  step (TSchedule l tr) s = Ret (ts, s') -> costs_less (TSchedule l tr) ts s s'.
Proof.
  unfold step, costs_less. intros H; simpl in H. inv_ret.
  rename select (deref _ _ = _) into Hl. apply deref_Ret in Hl.
  assert (forall fs' s0, heap s0 = heap s -> _state fs' = _state x ->
    pending (heap (put l fs' s0)) = pending (heap s)) as Hp.
  { intros fs' s0 Hh He. simpl. rewrite Hh. apply (pending_put_same _ _ x); [done|].
    by rewrite He. }
  case_match; simplify_eq/=; unfold put, upd_heap in Hp; simpl in Hp;
    (erewrite Hp; [lia | done | done]).
Qed.

Lemma cost_TInvoke l s ts s' :
  step (TInvoke l) s = Ret (ts, s') -> costs_less (TInvoke l) ts s s'.
Proof.
  unfold step, costs_less. intros H; simpl in H. inv_ret.
  rename select (deref _ _ = _) into Hl. apply deref_Ret in Hl.
  case_match; [|done]. inv_ret. destruct x0 as [[ts0 k'] s0]. simpl in *.
  rename select (call_body _ _ _ = _) into Hb.
  apply call_body_weight in Hb as [-> Hw].
  rewrite (pending_put_same _ _ x) by done.
  assert (body_weight c <= 10)%nat by (destruct c; simpl; lia). lia.
Qed.

Lemma cost_TGuardDtor l s ts s' :
  step (TGuardDtor l) s = Ret (ts, s') -> costs_less (TGuardDtor l) ts s s'.
Proof.
  unfold step, costs_less. intros H; simpl in H. inv_ret.
  rename select (deref _ _ = _) into Hl. apply deref_Ret in Hl.
  rewrite (pending_put_same _ _ x) by (by rewrite ?derefContinuation_state).
  rewrite weights_app. repeat case_match; simpl; lia.
Qed.

Lemma cost_TDetachOne l s ts s' :
  step (TDetachOne l) s = Ret (ts, s') -> costs_less (TDetachOne l) ts s s'.
Proof.
  unfold step, costs_less. intros H; simpl in H. inv_ret.
  rename select (deref _ _ = _) into Hl. apply deref_Ret in Hl.
  case_match; simpl.
  - pose proof (pending_delete (heap s) l). lia.
  - rewrite (pending_put_same _ _ x) by done. lia.
Qed.

Lemma cost_TPromiseDtor p s ts s' :
  step (TPromiseDtor p) s = Ret (ts, s') -> costs_less (TPromiseDtor p) ts s s'.
Proof.
  unfold step, costs_less. intros H; simpl in H.
  case_match; inv_ret; [|simpl; lia].
  rename select (deref _ _ = _) into Hl. apply deref_Ret in Hl.
  rewrite (pending_put_same _ _ x) by done.
  rewrite weights_app. case_match; simpl; lia.
Qed.

Lemma cost_TCtxRelease c s ts s' :
  step (TCtxRelease c) s = Ret (ts, s') -> costs_less (TCtxRelease c) ts s s'.
Proof.
  unfold step, costs_less. intros H; simpl in H.
  repeat case_match; inv_ret; simpl; try lia;
    rename select (Promise_setTry _ _ = _) into Hb;
    apply Promise_setTry_weight in Hb; rewrite weights_app; simpl; lia.
Qed.

Lemma step_task_cost tk s ts s' :
  step tk s = Ret (ts, s') -> costs_less tk ts s s'.
Proof.
  destruct tk; eauto using cost_TSetResult, cost_TSetContinuation, cost_TSchedule,
    cost_TInvoke, cost_TGuardDtor, cost_TDetachOne, cost_TPromiseDtor,
    cost_TCtxRelease.
  - unfold step, costs_less; simpl. case_match; intros; simplify_eq/=; lia.
  - unfold step, costs_less; simpl. case_match; intros; simplify_eq/=; lia.
Qed.

Lemma run_fuel n ts s :
  (fuel_for ts s <= n)%nat -> run checked in_exec submit n ts s <> None.
Proof.
  unfold fuel_for. revert ts s.
  induction n as [|n IH]; intros [|tk ts] s Hn; simpl; try done.
  - rewrite weights_cons in Hn. destruct tk; simpl in Hn; lia.
  - fold step. destruct (step tk s) as [[ts' s']|e|w] eqn:E; [|done|done].
    apply IH. apply step_task_cost in E. unfold costs_less in E.
    rewrite weights_app, weights_cons in *. cbn [fst snd]. lia.
Qed.

Lemma run_more n m ts s r :
  run checked in_exec submit n ts s = Some r -> (n <= m)%nat ->
  run checked in_exec submit m ts s = Some r.
Proof.
  revert m ts s. induction n as [|n IH]; intros m [|tk ts] s; simpl; try done.
  - by destruct m.
  - by destruct m.
  - intros H Hm. destruct m as [|m]; [lia |]. simpl.
    destruct (step_task _ _ _ tk s); try done. intros. apply IH; [done | lia].
Qed.
End Termination.

Section Exec.
Context (checked : bool) (in_exec : nat -> outcome bool).
Context (submit : nat -> dispatch -> outcome bool).

(** Run to the end. *)
Definition exec (ts : list task) (s : st) : outcome st :=
  default (Undef "out of fuel") (run checked in_exec submit (fuel_for ts s) ts s).

Lemma exec_run n ts s r :
  run checked in_exec submit n ts s = Some r -> exec ts s = r.
Proof.
  intros H. unfold exec.
  destruct (run checked in_exec submit (fuel_for ts s) ts s) as [r'|] eqn:E.
  - simpl. destruct (decide (n <= fuel_for ts s)%nat).
    + apply (run_more _ _ _ n (fuel_for ts s)) in H; [|lia]. congruence.
    + apply (run_more _ _ _ (fuel_for ts s) n) in E; [|lia]. congruence.
  - exfalso. by apply (run_fuel checked in_exec submit (fuel_for ts s) ts s).
Qed.

Lemma exec_nil s : exec [] s = Ret s.
Proof. by apply (exec_run 0). Qed.

(** The equation the proofs use: no fuel is left in it. *)
Lemma exec_cons tk ts s :
  exec (tk :: ts) s =
  (step_task checked in_exec submit tk s ≫= fun r => exec (fst r ++ ts) (snd r)).
Proof.
  set (n := fuel_for (tk :: ts) s).
  destruct (run checked in_exec submit n (tk :: ts) s) as [r|] eqn:E;
    [| by apply run_fuel in E].
  rewrite (exec_run _ _ _ _ E). destruct n as [|n]; [done |]. simpl in E.
  destruct (step_task _ _ _ tk s) as [[ts' s']|e|w] eqn:Es; cbn in *; [|congruence..].
  symmetry. by apply (exec_run n).
Qed.

Lemma exec_app ts ts' s : exec (ts ++ ts') s = (exec ts s ≫= exec ts').
Proof.
  remember (fuel_for ts s) as n eqn:Hn.
  assert (run checked in_exec submit n ts s <> None) as Hr by (apply run_fuel; lia).
  clear Hn. revert ts s Hr.
  induction n as [|n IH]; intros [|tk ts] s Hr; simpl in *; try done;
    rewrite ?exec_nil; try done.
  rewrite !exec_cons. destruct (step_task _ _ _ tk s) as [[ts1 s1]|e|w]; cbn; try done.
  rewrite (assoc_L app). by apply IH.
Qed.
End Exec.

(** ** Termination *)

(** C4.  Every operation on promises and futures ends, whatever the callbacks,
    the executors and the sharing of state objects: the tasks that are started
    (setting results, scheduling, running and destroying continuations,
    detaching) are exhausted within the bound [fuel_for], because each state
    object that is not yet [DONE] runs its continuation at most once. *)
Theorem run_terminates checked in_exec submit ts s n :
  (weights ts + 28 * pending (heap s) <= n)%nat ->
  exists r, run checked in_exec submit n ts s = Some r /\
    forall m, (n <= m)%nat -> run checked in_exec submit m ts s = Some r.
Proof.
  intros Hn. destruct (run checked in_exec submit n ts s) as [r|] eqn:E.
  - exists r. split; [done |]. intros m Hm. by eapply run_more.
  - by apply run_fuel in E.
Qed.

(** A promise of object 0 with the continuation of [thenTry] waiting, whose
    result goes to object 1. *)
Definition run_example : st :=
  upd_heap
    {[ 0%nat := mkFState ONLY_CONTINUATION 1 0 TNothing
         (Some (KThen true (CbValue (fun t => value t)) (mkPromise (Some 1%nat) true)))
         None None 1 false;
       1%nat := mkFState START 2 0 TNothing None None None 1 false ]} st_init.

Lemma run_terminates_witness :
  exists r, run true (fun _ => Ret true) (fun _ _ => Ret true) 57
    [TSetResult 0 (TValue (VInt 3))] run_example = Some r.
Proof.
  destruct (run_terminates true (fun _ => Ret true) (fun _ _ => Ret true)
    [TSetResult 0 (TValue (VInt 3))] run_example 57) as (r & Hr & _).
  - vm_compute. lia.
  - by exists r.
Defined.
