(* ===== verification/FutureApi.v ===== *)
(** * The operations of Promise and Future, and collectAll

    The member functions of src/async_simple/Promise.h and Future.h and the
    [collectAll] of Collect.h, as programs over the machine of [Future.v]: each
    ends by running the tasks it has started.  The theorems follow a result
    through a chain of [thenTry]/[thenValue] and through [collectAll]. *)

From S2P Require Import Prelude Try FutureState Future.

#[local] Arguments Future.exec : simpl never.
#[local] Arguments upd_heap : simpl never.
#[local] Arguments put : simpl never.
#[local] Arguments deref : simpl never.
#[local] Arguments setResult : simpl never.
#[local] Arguments setContinuation : simpl never.

Section Api.
Context (checked : bool) (in_exec : nat -> outcome bool).
Context (submit : nat -> dispatch -> outcome bool).
Context (ctx_of : nat -> option Z).

#[local] Abbreviation exec := (exec checked in_exec submit).

(** ** Promise *)

Definition Promise_new (s : st) : promise * st :=
  let l := next_loc s in
  (mkPromise (Some l) false,
   mkSt (<[l := attachPromise FutureState_init]> (heap s)) (S l) (ctxs s)
     (next_ctx s) (exec_queue s) (user_log s) (woken s)).

Definition Promise_dtor (p : promise) (s : st) : outcome st :=
  exec [TPromiseDtor p] s.

(** The copy constructor dereferences without a check. *)
Definition Promise_copy (p : promise) (s : st) : outcome (promise * st) :=
  match p_shared p with
  | None => Undef "null shared state"
  | Some l =>
      fs ← deref l s;
      Ret (p, put l (attachPromise fs) s)
  end.

(** [operator=(const Promise&)] on distinct objects. *)
Definition Promise_assign (this other : promise) (s : st) : outcome (promise * st) :=
  s1 ← Promise_dtor this s; Promise_copy other s1.

Definition Promise_getFuture (p : promise) (s : st)
    : outcome (future * promise * st) :=
  match p_shared p with
  | None => Throw (LogicError "Promise is broken")
  | Some l =>
      _ ← logicAssert (negb (p_hasFuture p)) "Promise already has a future";
      fs ← deref l s;
      Ret (mkFuture (Some l) TNothing None, mkPromise (Some l) true,
           put l (attachOne fs) s)
  end.

Definition Promise_checkout (p : promise) (s : st) : outcome st :=
  match p_shared p with
  | None => Ret s
  | Some l => fs ← deref l s; Ret (put l (checkout ctx_of fs) s)
  end.

Definition Promise_forceSched (p : promise) (s : st) : outcome st :=
  match p_shared p with
  | None => Ret s
  | Some l => fs ← deref l s; Ret (put l (fst (setForceSched true fs)) s)
  end.

Definition Promise_setValue (p : promise) (t : Try val) (s : st) : outcome st :=
  ts ← Promise_setTry p t; exec ts s.

(** ** Future *)

Definition makeReadyFuture (t : Try val) : future := mkFuture None t None.

Definition Future_dtor (f : future) (s : st) : outcome st := exec [TFutureDtor f] s.

Definition Future_valid (f : future) : bool :=
  bool_decide (f_shared f <> None) || available (f_try f).

Definition Future_hasResult (f : future) (s : st) : outcome bool :=
  if available (f_try f) then Ret true
  else match f_shared f with
       | None => Undef "null shared state"
       | Some l => fs ← deref l s; Ret (hasResult fs)
       end.

Definition Future_getTry (f : future) (s : st) : outcome (Try val) :=
  _ ← logicAssert (Future_valid f) "Future is broken";
  r ← Future_hasResult f s;
  _ ← logicAssert r "Future is not ready";
  match f_shared f with
  | Some l => fs ← deref l s; Ret (_try_value fs)
  | None => Ret (f_try f)
  end.

Definition Future_value (f : future) (s : st) : outcome val :=
  t ← Future_getTry f s; value t.

Definition Future_setExecutor (ex : option nat) (f : future) (s : st)
    : outcome (future * st) :=
  match f_shared f with
  | Some l => fs ← deref l s; Ret (f, put l (setExecutor ex fs) s)
  | None => Ret (mkFuture None (f_try f) ex, s)
  end.

Definition Future_getExecutor (f : future) (s : st) : outcome (option nat) :=
  match f_shared f with
  | Some l => fs ← deref l s; Ret (_executor fs)
  | None => Ret (f_exec f)
  end.

(** [via]: the returned future is the moved-from one. *)
Definition Future_via (ex : option nat) (f : future) (s : st)
    : outcome (future * st) := Future_setExecutor ex f s.

Definition Future_setContinuation (f : future) (k : cont) (s : st) : outcome st :=
  exec [TSetContinuation f k] s.

Definition Future_thenImpl (isTry : bool) (cb : callback) (f : future) (s : st)
    : outcome (future * st) :=
  _ ← logicAssert (Future_valid f) "Future is broken";
  match f_shared f with
  | None =>
      match cb with
      | CbFuture g =>
          match g (f_try f) with
          | Ret f2 =>
              ex ← Future_getExecutor f2 s;
              if bool_decide (ex = None) then Future_setExecutor (f_exec f) f2 s
              else Ret (f2, s)
          | Throw e => Ret (makeReadyFuture (TError (Some e)), s)
          | Undef w => Undef w
          end
      | CbValue g =>
          t ← makeTryCall (g (f_try f));
          Future_setExecutor (f_exec f) (makeReadyFuture t) s
      end
  | Some _ =>
      let '(p, s1) := Promise_new s in
      '(newFuture, p, s2) ← Promise_getFuture p s1;
      ex ← Future_getExecutor f s2;
      '(newFuture, s3) ← Future_setExecutor ex newFuture s2;
      s4 ← Future_setContinuation f (KThen isTry cb p) s3;
      Ret (newFuture, s4)
  end.

(** [thenTry] passes the callback on; [thenValue] wraps it in a lambda that
    calls [t.value()] first and is itself a callback on a [Try]. *)
Definition Future_thenTry (cb : callback) := Future_thenImpl true cb.

Definition thenValue_lambda (g : val -> outcome val) : callback :=
  CbValue (fun t => value t ≫= g).

Definition Future_thenValue (g : val -> outcome val) :=
  Future_thenImpl true (thenValue_lambda g).

(** [wait] up to the blocking [cv.wait], and from there on.  The first part
    returns [None] when the result is already there, else the inner future. *)
Definition Future_wait_begin (f : future) (s : st)
    : outcome (option (future * promise) * st) :=
  _ ← logicAssert (Future_valid f) "Future is broken";
  r ← Future_hasResult f s;
  if (r : bool) then Ret (None, s)
  else
    let '(p, s1) := Promise_new s in
    '(future, p, s2) ← Promise_getFuture p s1;
    '(_, s3) ← Future_setExecutor None f s2;
    s4 ← Future_setContinuation f (KWait p) s3;
    Ret (Some (future, p), s4).

(** [done] is set: the promise of the inner future has been given its value. *)
Definition wait_done (inner : future * promise) (s : st) : bool :=
  match p_shared (snd inner) with
  | Some l => bool_decide (l ∈ woken s)
  | None => false
  end.

(** [*this = std::move(future)], and the destructor of the local. *)
Definition Future_wait_end (f : future) (inner : future * promise) (s : st)
    : outcome (future * st) :=
  s1 ← Future_dtor f s; Ret (fst inner, s1).

(** [get]: [wait], and then the value is moved out. *)
Definition Future_get (f : future) (inner : option (future * promise)) (s : st) : outcome (val * st) :=
  '(f, s1) ← match inner with Some i => Future_wait_end f i s | None => Ret (f, s) end;
  v ← Future_value f s1;
  Ret (v, s1).

(** *** Moves

    The result of a move, and the object that was moved from: a [Try] keeps its
    alternative. *)
Definition moved_from (t : Try val) : Try val :=
  match t with
  | TValue (VVec _) => TValue (VVec [])
  | TError _ => TError None
  | t => t
  end.

Definition Future_move (other : future) : future * future :=
  (other, mkFuture None (moved_from (f_try other)) None).

(** [operator=(Future&&)] of two objects swaps them, the [LocalState]s too; gives
    what the left and the right one are afterwards. *)
Definition Future_assign (this other : future) : future * future :=
  (mkFuture (f_shared other) (f_try other) (f_exec other), mkFuture (f_shared this) (f_try this) (f_exec this)).

Definition Promise_move (other : promise) : promise * promise := (other, null_promise).
Definition Promise_move_assign (this other : promise) : promise * promise :=
  (mkPromise (p_shared other) (p_hasFuture other), mkPromise (p_shared this) (p_hasFuture this)).

(** The executor runs one of the functions it has accepted. *)
Definition Executor_run (q : nat) (s : st) : outcome st :=
  match exec_queue s !! q with
  | None => Ret s
  | Some (_, _, l) => exec [TInvoke l; TGuardDtor l] (upd_queue (delete q (exec_queue s)) s)
  end.

(** ** collectAll *)

Fixpoint all_ready (fs : list future) (s : st) : outcome bool :=
  match fs with
  | [] => Ret true
  | f :: fs => r ← Future_hasResult f s;
               if (r : bool) then all_ready fs s else Ret false
  end.

Fixpoint ready_results (fs : list future) (s : st) : outcome (list (Try val)) :=
  match fs with
  | [] => Ret []
  | f :: fs => t ← Future_getTry f s; ts ← ready_results fs s; Ret (t :: ts)
  end.

(** The loop over the futures; the lambda copies [ctx]. *)
Fixpoint collect_loop (c : nat) (i : nat) (fs : list future) (s : st) : outcome st :=
  match fs with
  | [] => Ret s
  | f :: fs =>
      r ← Future_hasResult f s;
      cx ← match ctxs s !! c with Some cx => Ret cx | None => Undef "use after free" end;
      s1 ← (if (r : bool) then
              t ← Future_getTry f s;
              Ret (upd_ctxs (<[c := mkCtx (c_refs cx) (<[i := t]> (c_results cx))
                                     (c_promise cx)]> (ctxs s)) s)
            else
              Future_setContinuation f (KCollect c i)
                (upd_ctxs (<[c := mkCtx (S (c_refs cx)) (c_results cx)
                                    (c_promise cx)]> (ctxs s)) s));
      collect_loop c (S i) fs s1
  end.

Definition collectAll (fs : list future) (s : st) : outcome (future * st) :=
  allReady ← all_ready fs s;
  if (allReady : bool) then
    ts ← ready_results fs s;
    Ret (makeReadyFuture (TValue (VVec ts)), s)
  else
    let '(p, s1) := Promise_new s in
    '(future, p, s2) ← Promise_getFuture p s1;
    let c := next_ctx s2 in
    let s3 := mkSt (heap s2) (next_loc s2)
                (<[c := mkCtx 1 (replicate (length fs) TNothing) p]> (ctxs s2))
                (S c) (exec_queue s2) (user_log s2) (woken s2) in
    s4 ← collect_loop c 0 fs s3;
    s5 ← exec [TCtxRelease c] s4;
    Ret (future, s5).
End Api.

(** ** Moves *)

Section moves.
Context (checked : bool) (in_exec : nat -> outcome bool) (submit : nat -> dispatch -> outcome bool).

(** Moving gives a reference on, it does not make or drop one: destroying what was
    moved from does nothing. *)
Lemma moved_dtor_nothing f p s :
  Future_dtor checked in_exec submit (snd (Future_move f)) s = Ret s /\
  Promise_dtor checked in_exec submit (snd (Promise_move p)) s = Ret s.
Proof. done. Qed.

(** The end of [wait] is the move assignment with the destructor of the local
    future. *)
Lemma wait_end_assigns f inner s :
  Future_wait_end checked in_exec submit f inner s =
  (let '(this, other) := Future_assign f (fst inner) in
   s1 ← Future_dtor checked in_exec submit other s; Ret (this, s1)).
Proof. destruct inner as [[? ? ?] p], f. done. Qed.

(** [valid] cannot tell a ready future that was moved from: it says that it has a
    result, which is the moved-from one. *)
Lemma moved_ready_valid t :
  available t = true -> Future_valid (snd (Future_move (makeReadyFuture t))) = true.
Proof. by destruct t as [|[]|]. Qed.
End moves.

(** ** Chains of [then] *)

Section Chain.
Context (checked : bool) (in_exec : nat -> outcome bool).
Context (submit : nat -> dispatch -> outcome bool).
#[local] Abbreviation exec := (exec checked in_exec submit).

(** What a chain of callbacks computes: each is called on the [Try] of the one
    before, and what it throws becomes the next [Try]. *)
Fixpoint chain_result (cbs : list (Try val -> outcome val)) (t : Try val)
    : outcome (Try val) :=
  match cbs with
  | [] => Ret t
  | cb :: cbs => t' ← makeTryCall (cb t); chain_result cbs t'
  end.

(** [f = std::move(f).thenTry(cb)] for each callback in turn, the future it is
    called on being destroyed. *)
Fixpoint then_chain (cbs : list (Try val -> outcome val)) (f : future) (s : st)
    : outcome (future * st) :=
  match cbs with
  | [] => Ret (f, s)
  | cb :: cbs =>
      '(f', s1) ← Future_thenTry checked in_exec submit (CbValue cb) f s;
      s2 ← Future_dtor checked in_exec submit f s1;
      then_chain cbs f' s2
  end.

(** A fresh promise and its future, on executor [ex]. *)
Definition promise_future (ex : option nat) (s : st)
    : outcome (promise * future * st) :=
  let '(p, s1) := Promise_new s in
  '(f, p, s2) ← Promise_getFuture p s1;
  '(f, s3) ← Future_setExecutor ex f s2;
  Ret (p, f, s3).

(** Fulfil the promise, or leave it broken, and destroy it. *)
Definition resolve (p : promise) (t : option (Try val)) (s : st) : outcome st :=
  s1 ← match t with
       | Some t => Promise_setValue checked in_exec submit p t s
       | None => Ret s
       end;
  Promise_dtor checked in_exec submit p s1.

Definition then_before_set ex cbs (t : option (Try val)) (s : st) : outcome (future * st) :=
  '(p, f, s1) ← promise_future ex s;
  '(f, s2) ← then_chain cbs f s1;
  s3 ← resolve p t s2; Ret (f, s3).

Definition then_after_set ex cbs (t : option (Try val)) (s : st) : outcome (future * st) :=
  '(p, f, s1) ← promise_future ex s;
  s2 ← resolve p t s1;
  then_chain cbs f s2.

Definition broken : Try val := TError (Some (RuntimeError "Promise is broken")).

(** The objects that occur: [r] is the number of promises. *)
Definition start_obj (ex : option nat) (r a : Z) : fstate val cont :=
  mkFState START a 0 TNothing None ex None r false.
Definition ready_obj (ex : option nat) (r a : Z) (t : Try val) : fstate val cont :=
  mkFState ONLY_RESULT a 0 t None ex None r false.
Definition done_obj (ex : option nat) (r a : Z) (t : Try val) : fstate val cont :=
  mkFState DONE a 0 t None ex None r false.
Definition then_k (cb : Try val -> outcome val) (l : loc) : cont :=
  KThen true (CbValue cb) (mkPromise (Some l) true).
Definition then_obj (ex : option nat) (r a : Z) cb (l : loc) : fstate val cont :=
  mkFState ONLY_CONTINUATION a 0 TNothing (Some (then_k cb l)) ex None r false.

(** The continuation runs in place when the result arrives. *)
Definition inplace (ex : option nat) : Prop :=
  match ex with None => True | Some e => in_exec e = Ret true end.

Definition fresh (s : st) : Prop := forall x, (next_loc s <= x)%nat -> heap s !! x = None.

Lemma put_heap l fs s h : put l fs (upd_heap h s) = upd_heap (<[l := fs]> h) s.
Proof. done. Qed.
Lemma upd_heap_twice h h' s : upd_heap h (upd_heap h' s) = upd_heap h s.
Proof. done. Qed.
Lemma heap_upd h s : heap (upd_heap h s) = h.
Proof. done. Qed.
Lemma upd_heap_id s : upd_heap (heap s) s = s.
Proof. by destruct s. Qed.

Lemma deref_insert l fs h s : deref l (upd_heap (<[l := fs]> h) s) = Ret fs.
Proof. unfold deref. simpl. by rewrite lookup_insert_eq. Qed.
Lemma deref_insert_ne l l' fs h s :
  l <> l' -> deref l (upd_heap (<[l' := fs]> h) s) = deref l (upd_heap h s).
Proof. intros. unfold deref. simpl. by rewrite lookup_insert_ne. Qed.

(** One task at a time; the heap of the state is an explicit chain of inserts. *)
Ltac exec_one :=
  rewrite exec_cons; cbn [step_task p_shared f_shared];
  rewrite ?deref_insert_ne by lia; rewrite ?deref_insert; cbn.

Lemma exec_schedule_then ex r b cb l l' t t' ts h s :
  inplace ex -> makeTryCall (cb t) = Ret t' ->
  exec (TSchedule l b :: ts)
    (upd_heap (<[l := mkFState DONE 1 0 t (Some (then_k cb l')) ex None r false]> h) s) =
  exec (TSetResult l' t' :: TGuardDtor l :: ts)
    (upd_heap (<[l := mkFState DONE 2 1 t (Some (then_k cb l')) ex None r false]> h) s).
Proof.
  intros Hex Hcb. exec_one.
  assert (scheduleContinuation in_exec submit b
    (mkFState DONE 1 0 t (Some (then_k cb l')) ex None r false) = Ret RanInplace) as ->.
  { unfold scheduleContinuation, currentThreadInExecutor. cbn.
    destruct ex as [e|]; cbn; [|done]. destruct b; cbn; [done |]. by rewrite Hex. }
  cbn. rewrite put_heap, insert_insert_eq. exec_one.
  rewrite Hcb. cbn. by rewrite put_heap, insert_insert_eq.
Qed.

Lemma exec_guard_then ex r cb l l' t ts h s :
  exec (TGuardDtor l :: ts)
    (upd_heap (<[l := mkFState DONE 2 1 t (Some (then_k cb l')) ex None r false]> h) s) =
  exec (TPromiseDtor (mkPromise (Some l') true) :: TDetachOne l :: ts)
    (upd_heap (<[l := done_obj ex r 2 t]> h) s).
Proof. exec_one. rewrite put_heap, insert_insert_eq. by exec_one. Qed.

Lemma exec_detach_keep l st_ t ex r ts h s :
  exec (TDetachOne l :: ts) (upd_heap (<[l := mkFState st_ 2 0 t None ex None r false]> h) s) =
  exec ts (upd_heap (<[l := mkFState st_ 1 0 t None ex None r false]> h) s).
Proof. exec_one. by rewrite put_heap, insert_insert_eq. Qed.

Lemma exec_detach_last l st_ t ex r ts h s :
  exec (TDetachOne l :: ts) (upd_heap (<[l := mkFState st_ 1 0 t None ex None r false]> h) s) =
  exec ts (upd_heap (delete l h) s).
Proof. exec_one. by rewrite upd_heap_twice, heap_upd, delete_insert_eq. Qed.

(** A promise that has been fulfilled is destroyed quietly. *)
Lemma exec_promise_dtor l st_ a t ex b ts h s :
  st_ = ONLY_RESULT \/ st_ = DONE ->
  exec (TPromiseDtor (mkPromise (Some l) b) :: ts)
    (upd_heap (<[l := mkFState st_ a 0 t None ex None 1 false]> h) s) =
  exec (TDetachOne l :: ts)
    (upd_heap (<[l := mkFState st_ a 0 t None ex None 0 false]> h) s).
Proof.
  intros [-> | ->]; exec_one; unfold hasResult; cbn; by rewrite put_heap, insert_insert_eq.
Qed.
(** [n] objects waiting for their predecessor, from [l] on; the last one waits
    for its value. *)
Fixpoint chain_heap (ex : option nat) (r : Z) (l : loc)
    (cbs : list (Try val -> outcome val)) (h : gmap loc (fstate val cont))
    : gmap loc (fstate val cont) :=
  match cbs with
  | [] => <[l := start_obj ex r 2]> h
  | cb :: cbs => <[l := then_obj ex r 1 cb (S l)]> (chain_heap ex 1 (S l) cbs h)
  end.

(** ... after the value has gone through: only the first one, which its
    promise still refers to, and the last one are left. *)
Definition settled_heap (ex : option nat) (r : Z) (l n : nat) (t t' : Try val)
    (h : gmap loc (fstate val cont)) : gmap loc (fstate val cont) :=
  match n with
  | O => <[l := ready_obj ex r 2 t']> h
  | S _ => <[l := done_obj ex r 1 t]> (<[(l + n)%nat := ready_obj ex 0 1 t']> h)
  end.

Lemma chain_heap_insert ex r l cbs l0 o h :
  (l0 < l)%nat ->
  chain_heap ex r l cbs (<[l0 := o]> h) = <[l0 := o]> (chain_heap ex r l cbs h).
Proof.
  revert r l. induction cbs as [|cb cbs IH]; intros r l Hl; simpl.
  - by rewrite insert_insert_ne by lia.
  - rewrite IH by lia. by rewrite insert_insert_ne by lia.
Qed.

Lemma exec_set_start a l t k ex r ts h s :
  exec (TSetResult l t :: ts)
    (upd_heap (<[l := mkFState START a 0 TNothing k ex None r false]> h) s) =
  exec ts (upd_heap (<[l := mkFState ONLY_RESULT a 0 t k ex None r false]> h) s).
Proof.
  exec_one. rewrite setResult_START by done. cbn. by rewrite put_heap, insert_insert_eq.
Qed.

Lemma exec_set_waiting a l t k ex r ts h s :
  exec (TSetResult l t :: ts)
    (upd_heap (<[l := mkFState ONLY_CONTINUATION a 0 TNothing k ex None r false]> h) s) =
  exec (TSchedule l false :: ts)
    (upd_heap (<[l := mkFState DONE a 0 t k ex None r false]> h) s).
Proof.
  exec_one. rewrite setResult_ONLY_CONTINUATION by done. cbn.
  by rewrite put_heap, insert_insert_eq.
Qed.

(** The result goes through the whole chain. *)
Lemma exec_deliver ex r l cbs t t' ts h s :
  inplace ex -> chain_result cbs t = Ret t' ->
  (forall x, (l <= x)%nat -> h !! x = None) ->
  exec (TSetResult l t :: ts) (upd_heap (chain_heap ex r l cbs h) s) =
  exec ts (upd_heap (settled_heap ex r l (length cbs) t t' h) s).
Proof.
  intros Hex. revert r l t ts h.
  induction cbs as [|cb cbs IH]; intros r l t ts h Hr Hh; simpl in *.
  - injection Hr as ->. unfold start_obj. by rewrite exec_set_start.
  - apply bind_Ret in Hr as (t1 & Hcb & Hr).
    unfold then_obj. rewrite exec_set_waiting.
    rewrite (exec_schedule_then _ _ _ _ _ _ _ _ _ _ _ Hex Hcb).
    rewrite <- chain_heap_insert by lia.
    rewrite (IH _ _ _ _ _ Hr) by (intros; rewrite lookup_insert_ne by lia; apply Hh; lia).
    destruct cbs as [|cb2 cbs]; simpl.
    + rewrite insert_insert_ne by lia.
      rewrite exec_guard_then, insert_insert_ne by lia. unfold ready_obj.
      rewrite exec_promise_dtor by eauto.
      rewrite exec_detach_keep, insert_insert_ne by lia.
      unfold done_obj. rewrite exec_detach_keep.
      by rewrite Nat.add_1_r.
    + rewrite 2!(insert_insert_ne _ _ l) by lia.
      rewrite exec_guard_then, (insert_insert_ne _ l (S l)) by lia. unfold done_obj.
      rewrite exec_promise_dtor by eauto. rewrite exec_detach_last.
      rewrite delete_insert_ne by lia. rewrite delete_insert_ne by lia.
      rewrite delete_id; [|apply Hh; lia].
      rewrite exec_detach_keep. by rewrite <- Nat.add_succ_r.
Qed.
Definition upd_next n (s : st) : st :=
  mkSt (heap s) n (ctxs s) (next_ctx s) (exec_queue s) (user_log s) (woken s).

(** The state with its heap and its next location replaced. *)
Definition at_state (h : gmap loc (fstate val cont)) (n : loc) (s : st) : st :=
  upd_next n (upd_heap h s).

Lemma at_state_upd h n s : at_state h n s = upd_heap h (upd_next n s).
Proof. done. Qed.

Definition fut (l : loc) : future := mkFuture (Some l) TNothing None.

(** Compute an operation down to its lookups in the heap. *)
Ltac open_api :=
  unfold promise_future, Promise_new, Promise_getFuture, Future_getExecutor,
    Future_setExecutor, Future_setContinuation, at_state, upd_next, deref, put,
    upd_heap; cbn.

Lemma promise_future_eq ex n s h :
  promise_future ex (at_state h n s) =
  Ret (mkPromise (Some n) true, fut n, at_state (<[n := start_obj ex 1 2]> h) (S n) s).
Proof.
  open_api.
  rewrite lookup_insert_eq; cbn. rewrite lookup_insert_eq; cbn.
  by rewrite !insert_insert_eq.
Qed.

(** [thenTry] on a future whose object has its reference only ([a] = 1) or is
    shared with the promise ([a] = 2). *)
Lemma Future_thenTry_eq cb l n s h st_ r a t ex :
  (l < n)%nat -> st_ = START \/ st_ = ONLY_RESULT ->
  Future_thenTry checked in_exec submit (CbValue cb) (fut l)
    (at_state (<[l := mkFState st_ a 0 t None ex None r false]> h) n s) =
  (s' ← exec (if decide (st_ = START) then [] else [TSchedule l true])
    (at_state (<[l := mkFState (if decide (st_ = START) then ONLY_CONTINUATION else DONE)
                        a 0 t (Some (then_k cb n)) ex None r false]>
                 (<[n := start_obj ex 1 2]> h)) (S n) s);
   Ret (fut n, s')).
Proof.
  intros Hl Hst. unfold Future_thenTry, Future_thenImpl. open_api.
  rewrite lookup_insert_eq. open_api.
  rewrite (insert_insert_ne _ _ l) by lia.
  rewrite (lookup_insert_ne _ n l), lookup_insert_eq by lia. cbn.
  rewrite lookup_insert_eq. cbn.
  rewrite !insert_insert_eq, (insert_insert_ne _ n l) by lia.
  rewrite exec_cons; cbn [step_task f_shared fut]. open_api.
  rewrite lookup_insert_eq. cbn.
  destruct Hst as [-> | ->];
    [rewrite setContinuation_START by done | rewrite setContinuation_ONLY_RESULT by done];
    open_api; by rewrite !insert_insert_eq.
Qed.

Lemma then_chain_pending ex cbs l h s :
  then_chain cbs (fut l) (at_state (<[l := start_obj ex 1 2]> h) (S l) s) =
  Ret (fut (l + length cbs), at_state (chain_heap ex 1 l cbs h) (S (l + length cbs)) s).
Proof.
  revert l h. induction cbs as [|cb cbs IH]; intros l h; cbn [then_chain].
  - cbn. by rewrite Nat.add_0_r.
  - unfold start_obj at 1. rewrite Future_thenTry_eq by eauto with lia.
    cbn. rewrite exec_nil. cbn.
    unfold Future_dtor. rewrite exec_cons. cbn. rewrite exec_cons. cbn [step_task].
    rewrite at_state_upd, deref_insert. cbn. rewrite put_heap, insert_insert_eq, exec_nil.
    cbn. rewrite insert_insert_ne, <- at_state_upd by lia. rewrite IH.
    rewrite chain_heap_insert by lia. by rewrite Nat.add_succ_r.
Qed.

(** [thenTry] on a ready future, whose destructor follows. *)
Lemma exec_then_ready cb l t t1 ex ts h s :
  inplace ex -> makeTryCall (cb t) = Ret t1 -> h !! l = None ->
  h !! S l = None ->
  exec (TSchedule l true :: TDetachOne l :: ts)
    (upd_heap (<[l := mkFState DONE 1 0 t (Some (then_k cb (S l))) ex None 0 false]>
       (<[S l := start_obj ex 1 2]> h)) s) =
  exec ts (upd_heap (<[S l := ready_obj ex 0 1 t1]> h) s).
Proof.
  intros Hex Hcb Hl Hl'.
  rewrite (exec_schedule_then _ _ _ _ _ _ _ _ _ _ _ Hex Hcb).
  rewrite insert_insert_ne by lia. unfold start_obj.
  rewrite exec_set_start, insert_insert_ne by lia.
  rewrite exec_guard_then, insert_insert_ne by lia.
  rewrite exec_promise_dtor by eauto.
  rewrite exec_detach_keep, insert_insert_ne by lia.
  unfold done_obj. rewrite exec_detach_keep, exec_detach_last.
  by rewrite delete_insert_ne, delete_id by (done || lia).
Qed.

Lemma exec_future_dtor m l s {B} (k : future -> st -> outcome B) f' :
  ((s' ← exec m s; Ret (f', s')) ≫= fun '(f', s1) =>
   s2 ← exec [TFutureDtor (fut l)] s1; k f' s2) =
  (exec (m ++ [TDetachOne l]) s ≫= k f').
Proof.
  rewrite exec_app. destruct (exec m s) as [s1| |]; cbn; [|done..]. by rewrite exec_cons.
Qed.

Lemma then_chain_ready ex cbs l t t' h s :
  inplace ex -> chain_result cbs t = Ret t' ->
  (forall x, (l <= x)%nat -> h !! x = None) ->
  then_chain cbs (fut l) (at_state (<[l := ready_obj ex 0 1 t]> h) (S l) s) =
  Ret (fut (l + length cbs),
       at_state (<[(l + length cbs)%nat := ready_obj ex 0 1 t']> h) (S (l + length cbs)) s).
Proof.
  intros Hex. revert l t. induction cbs as [|cb cbs IH]; intros l t Hr Hh; cbn in Hr.
  - injection Hr as ->. cbn. by rewrite Nat.add_0_r.
  - apply bind_Ret in Hr as (t1 & Hcb & Hr). cbn [then_chain].
    unfold ready_obj at 1. rewrite Future_thenTry_eq by eauto with lia.
    unfold Future_dtor.
    rewrite (exec_future_dtor _ _ _ (then_chain cbs)).
    rewrite !decide_False by done. cbn [app].
    rewrite at_state_upd.
    rewrite (exec_then_ready _ _ _ _ _ _ _ _ Hex Hcb) by (apply Hh; lia).
    rewrite exec_nil. cbn. rewrite <- at_state_upd, (IH _ _ Hr) by (intros; apply Hh; lia).
    by rewrite Nat.add_succ_r.
Qed.

(** Both orders end here: only the last future's object is left. *)
Definition chain_end (ex : option nat) (n : nat) (t' : Try val) (s : st) : future * st :=
  (fut (next_loc s + n),
   at_state (<[(next_loc s + n)%nat := ready_obj ex 0 1 t']> (heap s))
     (S (next_loc s + n)) s).

Lemma exec_promise_dtor_settled ex l n t t' ts h s :
  exec (TPromiseDtor (mkPromise (Some l) true) :: ts)
    (upd_heap (settled_heap ex 1 l n t t' h) s) =
  exec (TDetachOne l :: ts) (upd_heap (settled_heap ex 0 l n t t' h) s).
Proof.
  destruct n; cbn [settled_heap]; unfold ready_obj, done_obj;
    by rewrite exec_promise_dtor by eauto.
Qed.

Lemma exec_detach_settled ex l n t t' ts h s :
  (forall x, (l <= x)%nat -> h !! x = None) ->
  exec (TDetachOne l :: ts) (upd_heap (settled_heap ex 0 l n t t' h) s) =
  exec ts (upd_heap (<[(l + n)%nat := ready_obj ex 0 1 t']> h) s).
Proof.
  intros Hh. destruct n; cbn [settled_heap].
  - unfold ready_obj. by rewrite exec_detach_keep, Nat.add_0_r.
  - unfold done_obj. rewrite exec_detach_last.
    rewrite delete_insert_ne by lia. rewrite delete_id; [done | apply Hh; lia].
Qed.

Lemma exec_promise_broken ex l cbs ts h s :
  exec (TPromiseDtor (mkPromise (Some l) true) :: ts)
    (upd_heap (chain_heap ex 1 l cbs h) s) =
  exec (TSetResult l broken :: TDetachOne l :: ts)
    (upd_heap (chain_heap ex 0 l cbs h) s).
Proof.
  destruct cbs; cbn [chain_heap]; unfold start_obj, then_obj; exec_one;
    unfold hasResult; cbn; by rewrite put_heap, insert_insert_eq.
Qed.

Lemma resolve_chain ex cbs l t t' h s :
  inplace ex -> chain_result cbs (default broken t) = Ret t' ->
  (forall x, (l <= x)%nat -> h !! x = None) ->
  resolve (mkPromise (Some l) true) t (upd_heap (chain_heap ex 1 l cbs h) s) =
  Ret (upd_heap (<[(l + length cbs)%nat := ready_obj ex 0 1 t']> h) s).
Proof.
  intros Hex Hr Hh. unfold resolve, Promise_dtor, Promise_setValue, Promise_setTry.
  destruct t as [t|]; cbn in *.
  - rewrite (exec_deliver _ _ _ _ _ _ _ _ _ Hex Hr Hh), exec_nil. cbn.
    by rewrite exec_promise_dtor_settled, exec_detach_settled, exec_nil.
  - rewrite exec_promise_broken, (exec_deliver _ _ _ _ _ _ _ _ _ Hex Hr Hh).
    by rewrite exec_detach_settled, exec_nil.
Qed.

Lemma at_state_id s : at_state (heap s) (next_loc s) s = s.
Proof. by destruct s. Qed.

Lemma then_before_set_eq ex cbs t t' s :
  inplace ex -> fresh s -> chain_result cbs (default broken t) = Ret t' ->
  then_before_set ex cbs t s = Ret (chain_end ex (length cbs) t' s).
Proof.
  intros Hex Hf Hr. unfold then_before_set. rewrite <- (at_state_id s) at 1.
  rewrite promise_future_eq. cbn. rewrite then_chain_pending. cbn.
  rewrite at_state_upd, (resolve_chain _ _ _ _ _ _ _ Hex Hr Hf). done.
Qed.

Lemma then_after_set_eq ex cbs t t' s :
  inplace ex -> fresh s -> chain_result cbs (default broken t) = Ret t' ->
  then_after_set ex cbs t s = Ret (chain_end ex (length cbs) t' s).
Proof.
  intros Hex Hf Hr. unfold then_after_set. rewrite <- (at_state_id s) at 1.
  rewrite promise_future_eq. cbn.
  pose proof (resolve_chain ex [] (next_loc s) t (default broken t) (heap s)
    (upd_next (S (next_loc s)) s) Hex eq_refl Hf) as H. cbn in H.
  rewrite at_state_upd, H. cbn. rewrite <- at_state_upd, Nat.add_0_r.
  by rewrite (then_chain_ready _ _ _ _ _ _ _ Hex Hr Hf).
Qed.
End Chain.

#[local] Arguments Future_getTry : simpl never.
#[local] Arguments Future_hasResult : simpl never.
#[local] Arguments Future_setContinuation : simpl never.

(** ** collectAll: the invariant *)

Section Collect.
Context (checked : bool) (in_exec : nat -> outcome bool).
Context (submit : nat -> dispatch -> outcome bool).
Context (ex : option nat) (Hex : inplace in_exec ex).
#[local] Abbreviation exec := (exec checked in_exec submit).

(** The inputs: the location of each future, and its result when it has one. *)
Definition input_ok (h : gmap loc (fstate val cont)) (x : loc * option (Try val)) : Prop :=
  match snd x with
  | None => h !! fst x = Some (start_obj ex 1 2)
  | Some t => exists fs, h !! fst x = Some fs /\ _state fs = ONLY_RESULT /\ _try_value fs = t
  end.

Fixpoint pending_from (i : nat) (inputs : list (loc * option (Try val))) : list nat :=
  match inputs with
  | [] => []
  | (_, None) :: inputs => i :: pending_from (S i) inputs
  | (_, Some _) :: inputs => pending_from (S i) inputs
  end.

Definition first_results (inputs : list (loc * option (Try val))) : list (Try val) :=
  (fun x => default TNothing (snd x)) <$> inputs.

Definition collect_obj (c i : nat) : fstate val cont :=
  mkFState ONLY_CONTINUATION 2 0 TNothing (Some (KCollect c i)) ex None 1 false.

(** Context [c], with [n] references, waits for the inputs in [todo]; [R] is
    the object of the resulting future. *)
Record collecting (inputs : list (loc * option (Try val))) (c R n : nat)
    (todo : list nat) (results : list (Try val)) (s : st) : Prop := {
  col_ctx : ctxs s !! c = Some (mkCtx n results (mkPromise (Some R) true));
  col_res : heap s !! R = Some (start_obj None 1 2);
  col_wait : forall i, i ∈ todo -> exists l, fst <$> inputs !! i = Some l /\
    heap s !! l = Some (collect_obj c i);
  col_len : length results = length inputs;
  col_todo : NoDup todo;
}.

(** Every promise of [order] is given its value, in that order. *)
Fixpoint set_all (inputs : list (loc * option (Try val))) (order : list (nat * Try val))
    (s : st) : outcome st :=
  match order with
  | [] => Ret s
  | (i, t) :: order =>
      match inputs !! i with
      | Some (l, _) =>
          s1 ← Promise_setValue checked in_exec submit (mkPromise (Some l) true) t s;
          set_all inputs order s1
      | None => Undef "no such input"
      end
  end.

Definition write_all (order : list (nat * Try val)) (rs : list (Try val)) : list (Try val) :=
  foldl (fun rs x => <[fst x := snd x]> rs) rs order.

Context (inputs : list (loc * option (Try val))) (R c : nat).
Context (Hnd : NoDup (fst <$> inputs)) (HR : R ∉ fst <$> inputs).

Lemma collecting_perm n todo todo' results s :
  todo ≡ₚ todo' -> collecting inputs c R n todo results s ->
  collecting inputs c R n todo' results s.
Proof.
  intros Hp [H1 H2 H3 H4 H5]. split; try done.
  - intros i Hi. apply H3. by rewrite Hp.
  - by rewrite <- Hp.
Qed.

Lemma input_inj i j l : fst <$> inputs !! i = Some l -> fst <$> inputs !! j = Some l -> i = j.
Proof. rewrite <- !list_lookup_fmap. intros. by eapply NoDup_lookup. Qed.

Lemma input_not_R i l : fst <$> inputs !! i = Some l -> l <> R.
Proof.
  rewrite <- list_lookup_fmap. intros Hl%list_elem_of_lookup_2 ->. done.
Qed.

(** One input arrives: the closure runs, and its reference to the context is
    dropped. *)
Lemma exec_collect_one n i l t todo results ts s :
  collecting inputs c R n (i :: todo) results s -> fst <$> inputs !! i = Some l ->
  exists s', exec (TSetResult l t :: ts) s = exec (TCtxRelease c :: TDetachOne l :: ts) s' /\
    collecting inputs c R n todo (<[i := t]> results) s' /\
    heap s' = <[l := mkFState DONE 3 0 t None ex None 1 false]> (heap s).
Proof.
  intros HC Hi. destruct HC as [H1 H2 H3 H4 H5].
  destruct (H3 i) as (l' & Hi' & Hl); [left|]. rewrite Hi in Hi'. simplify_eq.
  exists (upd_ctxs (<[c := mkCtx n (<[i := t]> results) (mkPromise (Some R) true)]> (ctxs s))
    (upd_heap (<[l' := mkFState DONE 3 0 t None ex None 1 false]> (heap s)) s)).
  split_and!; [| | done].
  - rewrite <- (upd_heap_id s) at 1. rewrite <- (insert_id _ _ _ Hl) at 1.
    unfold collect_obj. rewrite exec_set_waiting.
    rewrite exec_cons; cbn [step_task]. rewrite deref_insert. cbn.
    assert (scheduleContinuation in_exec submit false
      (mkFState DONE 2 0 t (Some (KCollect c i)) ex None 1 false) = Ret RanInplace) as ->.
    { unfold scheduleContinuation, currentThreadInExecutor. cbn.
      destruct ex; cbn in *; [by rewrite Hex | done]. }
    cbn. rewrite put_heap, insert_insert_eq.
    rewrite exec_cons; cbn [step_task]. rewrite deref_insert. cbn.
    unfold upd_heap at 1; cbn. rewrite H1. cbn. rewrite decide_True.
    2:{ rewrite H4.
        apply fmap_Some in Hi as (y & Hy & _). by apply lookup_lt_Some in Hy. }
    cbn. rewrite exec_cons; cbn [step_task].
    unfold deref, put, upd_heap, upd_ctxs; cbn. rewrite lookup_insert_eq. cbn.
    rewrite !insert_insert_eq. etrans; [apply exec_cons | done].
  - assert (l' <> R) by (by eapply input_not_R).
    split; unfold upd_ctxs, upd_heap; cbn; rewrite ?length_insert, ?lookup_insert_eq; try done.
    + by rewrite lookup_insert_ne.
    + intros j Hj. destruct (H3 j) as (lj & Hlj & Hh); [by right |].
      exists lj. split; [done |]. rewrite lookup_insert_ne; [done |].
      intros ->. apply (input_inj i j) in Hlj; [|done]. subst.
      by apply NoDup_cons in H5 as [? _].
    + by apply NoDup_cons in H5 as [_ ?].
Qed.

Lemma collecting_put n todo results l o s :
  l <> R -> (forall i, i ∈ todo -> fst <$> inputs !! i <> Some l) ->
  collecting inputs c R n todo results s ->
  collecting inputs c R n todo results (upd_heap (<[l := o]> (heap s)) s).
Proof.
  intros Hl Ht [H1 H2 H3 H4 H5]. split; unfold upd_heap; cbn; try done.
  - by rewrite lookup_insert_ne.
  - intros i Hi. destruct (H3 i Hi) as (l' & Hl' & Hh). exists l'. split; [done |].
    rewrite lookup_insert_ne; [done |]. intros ->. by destruct (Ht i Hi).
Qed.

Lemma exec_release_more n todo results ts s :
  collecting inputs c R (S (S n)) todo results s ->
  exists s', exec (TCtxRelease c :: ts) s = exec ts s' /\
    collecting inputs c R (S n) todo results s' /\ heap s' = heap s.
Proof.
  intros [H1 H2 H3 H4 H5].
  exists (upd_ctxs (<[c := mkCtx (S n) results (mkPromise (Some R) true)]> (ctxs s)) s).
  split_and!; [| split; cbn; by rewrite ?lookup_insert_eq | done].
  rewrite exec_cons; cbn. by rewrite H1.
Qed.

Lemma exec_release_last todo results ts s :
  collecting inputs c R 1 todo results s ->
  exists s', exec (TCtxRelease c :: ts) s = exec ts s' /\
    heap s' = <[R := ready_obj None 0 1 (TValue (VVec results))]> (heap s).
Proof.
  intros [H1 H2 H3 H4 H5]. eexists. split.
  - rewrite exec_cons; cbn. rewrite H1. cbn.
    set (s0 := upd_ctxs _ s). rewrite <- (upd_heap_id s0) at 1.
    rewrite <- (insert_id (heap s0) R _ H2) at 1. unfold start_obj.
    rewrite exec_set_start, exec_promise_dtor, exec_detach_keep by eauto. done.
  - done.
Qed.

(** One promise is fulfilled. *)
Lemma set_one i l o t todo results s :
  collecting inputs c R (length (i :: todo)) (i :: todo) results s ->
  inputs !! i = Some (l, o) ->
  exists s', Promise_setValue checked in_exec submit (mkPromise (Some l) true) t s = Ret s' /\
    match todo with
    | [] => heap s' !! R = Some (ready_obj None 0 1 (TValue (VVec (<[i := t]> results))))
    | _ => collecting inputs c R (length todo) todo (<[i := t]> results) s'
    end.
Proof.
  intros HC Hi. unfold Promise_setValue, Promise_setTry. cbn.
  assert (fst <$> inputs !! i = Some l) as Hil by (by rewrite Hi).
  assert (forall j, j ∈ todo -> fst <$> inputs !! j <> Some l) as Hj.
  { intros j Hj Hl'. apply (input_inj i j) in Hl'; [|done]. subst.
    destruct HC as [_ _ _ _ H5]. apply NoDup_cons in H5 as [? _]. done. }
  destruct (exec_collect_one _ _ _ t _ _ [] _ HC Hil) as (s1 & -> & HC1 & Hh1).
  assert (l <> R) as HlR by (by eapply input_not_R).
  assert (forall s2, heap s2 !! l = Some (mkFState DONE 3 0 t None ex None 1 false) ->
    exec [TDetachOne l] s2 =
    Ret (upd_heap (<[l := mkFState DONE 2 0 t None ex None 1 false]> (heap s2)) s2)) as Hd.
  { intros s2 Hl2. rewrite exec_cons. cbn. unfold deref. rewrite Hl2. cbn. by rewrite exec_nil. }
  destruct todo as [|j todo].
  - destruct (exec_release_last _ _ [TDetachOne l] _ HC1) as (s2 & -> & Hh2).
    rewrite Hd by (rewrite Hh2, Hh1, lookup_insert_ne, lookup_insert_eq by done; done).
    eexists. split; [done |]. unfold upd_heap; cbn.
    by rewrite lookup_insert_ne, Hh2, lookup_insert_eq.
  - destruct (exec_release_more _ _ _ [TDetachOne l] _ HC1) as (s2 & -> & HC2 & Hh2).
    rewrite Hd by (by rewrite Hh2, Hh1, lookup_insert_eq).
    eexists. split; [done |]. by apply collecting_put.
Qed.

(** What a prefix of the arrivals leaves. *)
Lemma set_all_prefix order todo results s :
  collecting inputs c R (length order + length todo) ((fst <$> order) ++ todo) results s ->
  (forall i, i ∈ (fst <$> order) -> is_Some (inputs !! i)) ->
  order <> [] ->
  exists s', set_all inputs order s = Ret s' /\
    match todo with
    | [] => heap s' !! R = Some (ready_obj None 0 1 (TValue (VVec (write_all order results))))
    | _ => collecting inputs c R (length todo) todo (write_all order results) s'
    end.
Proof.
  revert results s.
  induction order as [|[i t] order IH]; intros results s HC Hin Hne; [done |].
  destruct (Hin i) as [[l o] Hi]; [left|]. cbn [set_all].
  rewrite Hi. destruct (set_one i l o t ((fst <$> order) ++ todo) results s) as (s1 & -> & H1).
  { cbn in HC |- *. by rewrite length_app, length_fmap. }
  { done. }
  cbn. destruct order as [|[j t'] order].
  - cbn in *. exists s1. by destruct todo.
  - apply IH; [| intros; apply Hin; by right | done].
    cbn in H1 |- *. by rewrite length_app, length_fmap in H1.
Qed.

Lemma Future_hasResult_input s l o :
  input_ok (heap s) (l, o) -> Future_hasResult (fut l) s = Ret (bool_decide (o <> None)).
Proof.
  unfold input_ok, Future_hasResult, deref. cbn. destruct o as [t|]; cbn.
  - intros (fs & -> & Hs & _). cbn. by rewrite hasResult_eq, Hs.
  - intros ->. cbn. by rewrite hasResult_eq.
Qed.

Lemma Future_getTry_input s l t :
  input_ok (heap s) (l, Some t) -> Future_getTry (fut l) s = Ret t.
Proof.
  intros Hx. unfold Future_getTry. rewrite (Future_hasResult_input _ _ _ Hx). cbn.
  destruct Hx as (fs & Hl & _ & <-). cbn in Hl. unfold deref. by rewrite Hl.
Qed.

Lemma exec_register l k s :
  heap s !! l = Some (start_obj ex 1 2) ->
  exec [TSetContinuation (fut l) k] s =
  Ret (upd_heap (<[l := mkFState ONLY_CONTINUATION 2 0 TNothing (Some k) ex None 1 false]>
                   (heap s)) s).
Proof.
  intros Hl. rewrite exec_cons. cbn. unfold deref. rewrite Hl. cbn.
  rewrite setContinuation_START by done. cbn. by rewrite exec_nil.
Qed.

(** The results after the first inputs have been looked at. *)
Definition loop_results (dn rest : list (loc * option (Try val))) : list (Try val) :=
  first_results dn ++ replicate (length rest) TNothing.

Lemma loop_results_length dn rest :
  inputs = dn ++ rest -> length (loop_results dn rest) = length inputs.
Proof.
  intros ->. unfold loop_results, first_results.
  by rewrite !length_app, length_fmap, length_replicate.
Qed.

Lemma loop_results_insert dn l o rest :
  <[length dn := default TNothing o]> (loop_results dn ((l, o) :: rest)) =
  loop_results (dn ++ [(l, o)]) rest.
Proof.
  unfold loop_results, first_results. rewrite fmap_app. cbn.
  rewrite <- (assoc_L app). cbn.
  rewrite insert_app_r_alt by (by rewrite length_fmap).
  by rewrite length_fmap, Nat.sub_diag.
Qed.

Lemma loop_results_pending dn l rest :
  loop_results dn ((l, None) :: rest) = loop_results (dn ++ [(l, None)]) rest.
Proof.
  unfold loop_results, first_results. rewrite fmap_app. cbn. by rewrite <- (assoc_L app).
Qed.

Lemma input_other dn l o rest l2 o2 :
  inputs = dn ++ (l, o) :: rest -> (l2, o2) ∈ rest -> l2 <> l.
Proof.
  intros Hi Hin ->. rewrite Hi, fmap_app in Hnd. cbn in Hnd.
  apply NoDup_app in Hnd as (_ & _ & Hnd'). apply NoDup_cons in Hnd' as [Hnd' _].
  apply Hnd'. by apply (list_elem_of_fmap_2 fst rest (l, o2)).
Qed.

(** The loop body on an input that is not ready. *)
Lemma loop_pending dn l rest todo s :
  inputs = dn ++ (l, None) :: rest -> (forall j, j ∈ todo -> (j < length dn)%nat) ->
  collecting inputs c R (S (length todo)) todo (loop_results dn ((l, None) :: rest)) s ->
  let s1 := upd_ctxs (<[c := mkCtx (S (S (length todo))) (loop_results dn ((l, None) :: rest))
                              (mkPromise (Some R) true)]> (ctxs s)) s in
  collecting inputs c R (S (length (todo ++ [length dn]))) (todo ++ [length dn])
    (loop_results (dn ++ [(l, None)]) rest)
    (upd_heap (<[l := collect_obj c (length dn)]> (heap s)) s1).
Proof.
  intros Hi Ht [H1 H2 H3 H4 H5]. cbn zeta.
  assert (fst <$> inputs !! length dn = Some l) as Hnth by (by rewrite Hi, list_lookup_middle).
  assert (l <> R) by (by eapply input_not_R).
  split; unfold upd_heap, upd_ctxs; cbn.
  - rewrite lookup_insert_eq, length_app, loop_results_pending. cbn. by rewrite Nat.add_1_r.
  - by rewrite lookup_insert_ne.
  - intros j [Hj | ->%list_elem_of_singleton]%elem_of_app.
    + destruct (H3 j Hj) as (lj & Hlj & Hh). exists lj. split; [done |].
      rewrite lookup_insert_ne; [done |]. intros <-.
      specialize (Ht j Hj). pose proof (input_inj _ _ _ Hnth Hlj). lia.
    + exists l. by rewrite lookup_insert_eq.
  - by rewrite <- loop_results_pending.
  - apply NoDup_app. split_and!; [done | | apply NoDup_singleton].
    intros j Hj ->%list_elem_of_singleton. specialize (Ht _ Hj). lia.
Qed.

(** The loop of [collectAll]. *)
Lemma collect_loop_collecting rest dn todo s :
  inputs = dn ++ rest -> (forall j, j ∈ todo -> (j < length dn)%nat) ->
  Forall (input_ok (heap s)) rest ->
  collecting inputs c R (S (length todo)) todo (loop_results dn rest) s ->
  exists s', collect_loop checked in_exec submit c (length dn)
      ((fun x => fut (fst x)) <$> rest) s = Ret s' /\
    collecting inputs c R (S (length (todo ++ pending_from (length dn) rest)))
      (todo ++ pending_from (length dn) rest) (first_results inputs) s'.
Proof.
  revert dn todo s. induction rest as [|[l o] rest IH]; intros dn todo s Hi Ht Hok HC.
  - exists s. unfold loop_results in HC. cbn in *. rewrite !app_nil_r in *. by subst.
  - apply Forall_cons in Hok as [Hx Hok].
    assert (inputs = (dn ++ [(l, o)]) ++ rest) as Hi' by (by rewrite <- (assoc_L app)).
    assert (length (dn ++ [(l, o)]) = S (length dn)) as Hlen by (rewrite length_app; cbn; lia).
    cbn [collect_loop fmap list_fmap fst]. rewrite (Future_hasResult_input _ _ _ Hx). cbn.
    rewrite (col_ctx _ _ _ _ _ _ _ HC). cbn. destruct o as [t|]; cbn.
    + rewrite (Future_getTry_input _ _ _ Hx). cbn.
      change t with (default TNothing (Some t)) at 1.
      rewrite loop_results_insert.
      set (s1 := upd_ctxs _ s). destruct (IH (dn ++ [(l, Some t)]) todo s1) as (s' & ? & ?).
      * done.
      * intros j Hj. rewrite Hlen. specialize (Ht j Hj). lia.
      * done.
      * destruct HC. split; try done; cbn; [by rewrite lookup_insert_eq |].
        by rewrite (loop_results_length _ _ Hi').
      * rewrite Hlen in *. by exists s'.
    + unfold Future_setContinuation. rewrite exec_register by apply Hx. cbn.
      set (s1 := upd_heap _ _).
      destruct (IH (dn ++ [(l, None)]) (todo ++ [length dn]) s1) as (s' & ? & HC').
      * done.
      * intros j [Hj | ->%list_elem_of_singleton]%elem_of_app; rewrite Hlen; [|lia].
        specialize (Ht j Hj). lia.
      * apply Forall_forall. intros [l2 o2] Hin.
        rewrite Forall_forall in Hok. specialize (Hok _ Hin).
        assert (l2 <> l) by (by eapply input_other).
        unfold input_ok in *. cbn in *. unfold s1, upd_heap; cbn; by rewrite lookup_insert_ne.
      * by apply loop_pending.
      * rewrite Hlen, <- (assoc_L app) in *. by exists s'.
Qed.
End Collect.

(** ** collectAll: the entry *)

Section CollectEntry.
Context (checked : bool) (in_exec : nat -> outcome bool).
Context (submit : nat -> dispatch -> outcome bool).
Context (ex : option nat) (Hex : inplace in_exec ex).

Lemma pending_from_lookup k inputs i :
  i ∈ pending_from k inputs -> (k <= i)%nat /\ is_Some (inputs !! (i - k)%nat).
Proof.
  revert k. induction inputs as [|[l [t|]] inputs IH]; intros k Hi; cbn in Hi.
  - by apply not_elem_of_nil in Hi.
  - apply IH in Hi as [? ?]. split; [lia |].
    by replace (i - k)%nat with (S (i - S k)) by lia.
  - apply elem_of_cons in Hi as [-> | Hi].
    + rewrite Nat.sub_diag. split; [lia | by eexists].
    + apply IH in Hi as [? ?]. split; [lia |].
      by replace (i - k)%nat with (S (i - S k)) by lia.
Qed.

Lemma all_ready_eq s k inputs :
  Forall (input_ok ex (heap s)) inputs ->
  all_ready ((fun x => fut (fst x)) <$> inputs) s =
  Ret (bool_decide (pending_from k inputs = [])).
Proof.
  revert k. induction inputs as [|[l o] inputs IH]; intros k Hok; [done |].
  apply Forall_cons in Hok as [Hx Hok]. cbn.
  rewrite (Future_hasResult_input _ _ _ _ Hx). destruct o; cbn; [by apply IH | done].
Qed.

Lemma ready_results_eq s k inputs :
  Forall (input_ok ex (heap s)) inputs -> pending_from k inputs = [] ->
  ready_results ((fun x => fut (fst x)) <$> inputs) s = Ret (first_results inputs).
Proof.
  revert k. induction inputs as [|[l [t|]] inputs IH]; intros k Hok Hp; [done | | done].
  apply Forall_cons in Hok as [Hx Hok]. cbn in Hp |- *.
  rewrite (Future_getTry_input _ _ _ _ Hx). cbn. by rewrite (IH (S k)).
Qed.

(** When [collectAll] returns, its context waits for the inputs that are not
    ready, holding no other reference. *)
Lemma collectAll_collecting inputs s :
  fresh s -> NoDup (fst <$> inputs) -> Forall (input_ok ex (heap s)) inputs ->
  pending_from 0 inputs <> [] ->
  exists s', collectAll checked in_exec submit ((fun x => fut (fst x)) <$> inputs) s =
      Ret (fut (next_loc s), s') /\ (next_loc s ∉ (fst <$> inputs)) /\
    collecting ex inputs (next_ctx s) (next_loc s) (length (pending_from 0 inputs))
      (pending_from 0 inputs) (first_results inputs) s'.
Proof.
  intros Hf Hnd Hok Hp.
  assert (next_loc s ∉ fst <$> inputs) as HR.
  { intros ((l & o) & Hl & Hin)%list_elem_of_fmap. cbn in Hl. subst l.
    rewrite Forall_forall in Hok. specialize (Hok _ Hin). unfold input_ok in Hok. cbn in Hok.
    rewrite (Hf (next_loc s)) in Hok by lia. destruct o; naive_solver. }
  unfold collectAll. rewrite (all_ready_eq s 0) by done. rewrite bool_decide_false by done. cbn.
  rewrite deref_insert || unfold deref; cbn. rewrite lookup_insert_eq. cbn.
  unfold put, upd_heap; cbn. rewrite insert_insert_eq, length_fmap.
  match goal with |- context [collect_loop _ _ _ _ _ _ ?x] => set (s3 := x) end.
  destruct (collect_loop_collecting checked in_exec submit ex inputs (next_loc s) (next_ctx s)
    Hnd HR inputs [] [] s3) as (s4 & Hs4 & HC); try done.
  { by intros j Hj%not_elem_of_nil. }
  { rewrite Forall_forall in Hok |- *. intros [l o] Hin. specialize (Hok _ Hin).
    assert (l <> next_loc s).
    { intros ->. apply HR. by apply (list_elem_of_fmap_2 fst inputs (next_loc s, o)). }
    unfold input_ok in *. cbn in *. by rewrite lookup_insert_ne. }
  { split; cbn.
    - by rewrite lookup_insert_eq.
    - by rewrite lookup_insert_eq.
    - by intros i Hi%not_elem_of_nil.
    - by rewrite length_replicate.
    - constructor. }
  cbn in Hs4. rewrite Hs4. cbn in HC |- *.
  destruct (pending_from 0 inputs) as [|i todo]; [done |].
  destruct (exec_release_more checked in_exec submit ex inputs _ _ _ _ _ [] _ HC)
    as (s5 & Hs5 & HC5 & _).
  rewrite Hs5, exec_nil. by exists s5.
Qed.
End CollectEntry.

(** ** Properties *)

Definition example_add (n : Z) : Try val -> outcome val :=
  fun t => value t ≫= fun v =>
    match v with VInt z => Ret (VInt (z + n)) | _ => Throw BadFunctionCall end.
Definition example_throw : Try val -> outcome val := fun _ => Throw (UserError 9).
Definition example_recover : Try val -> outcome val :=
  fun t => if hasError t then Ret (VInt 0) else Ret (VInt 1).




Definition collect_inputs : list (loc * option (Try val)) :=
  [(0%nat, None); (1%nat, Some (TValue (VInt 5))); (2%nat, None)].
Definition collect_start : st :=
  mkSt (<[0%nat := start_obj None 1 2]> (<[1%nat := ready_obj None 0 1 (TValue (VInt 5))]>
          {[2%nat := start_obj None 1 2]})) 3 ∅ 0 [] [] [].


(** [Future::wait] resets the executor of the state object but not the
    forced scheduling that [Promise::forceSched] has asked for: when the promise
    is fulfilled afterwards, [scheduleContinuation] calls the executor through
    the null pointer. *)
Theorem wait_after_forceSched checked in_exec submit e v :
  ('(p, f, s1) ← promise_future (Some e) st_init;
   s2 ← Promise_forceSched p s1;
   '(_, s3) ← Future_wait_begin checked in_exec submit f s2;
   Promise_setValue checked in_exec submit p v s3) = Undef "null executor".
Proof. by destruct checked. Qed.
