(* ===== verification/Mutex.v ===== *)
(** * The coroutine Mutex

    Models src/async_simple/coro/Mutex.h: the atomic word [_state] (unlocked,
    or a LIFO list of new waiters), the FIFO list [_waiters] of the holder, and
    the [_next] fields of the awaiters, one atomic access per step, for any
    number of coroutines.  [fifo] is the abstract lock, an owner and a queue;
    the theorems are that the pointer structure refines it. *)

From S2P Require Import Prelude.

(** A coroutine has one [LockAwaiter], identified with the coroutine. *)
Abbreviation coro := nat.

(** [_state]: [this], or a pointer (null for [None]). *)
Inductive lock_word := Unlocked | Waiters (p : option coro).

#[export] Instance lock_word_eq_dec : EqDecision lock_word.
Proof. solve_decision. Defined.

Inductive mpc :=
  | Idle
  | TryCas
  | ReadyCas
  | LockLoad
  | LockCas
  | EnqueueCas (oldValue : option coro)
  | Suspended
  | Holding
  | ReadWaiters
  | ReadState
  | UnlockCas
  | Exchange
  | Reverse (waiter : coro) (waitersHead : option coro)
  | Resume (waitersHead : coro)
  | Broken.

#[export] Instance mpc_eq_dec : EqDecision mpc.
Proof. solve_decision. Defined.

Record mutex := mkMutex {
  _state : lock_word;
  _waiters : option coro;
  _next : coro -> option coro;
  pc : coro -> mpc;
}.

Definition Mutex_init : mutex :=
  mkMutex Unlocked None (fun _ => None) (fun _ => Idle).

Definition at_pc (t : coro) (p : mpc) (s : mutex) : mutex :=
  mkMutex (_state s) (_waiters s) (_next s) (<[t := p]> (pc s)).
Definition set_state (w : lock_word) (s : mutex) : mutex :=
  mkMutex w (_waiters s) (_next s) (pc s).
Definition set_waiters (w : option coro) (s : mutex) : mutex :=
  mkMutex (_state s) w (_next s) (pc s).
Definition set_next (t : coro) (n : option coro) (s : mutex) : mutex :=
  mkMutex (_state s) (_waiters s) (<[t := n]> (_next s)) (pc s).

(** [tryLock] and the [tryLock] of [await_ready]. *)
Definition tryLock (t : coro) (fail : mpc) (s : mutex) : mutex :=
  if decide (_state s = Unlocked)
  then at_pc t Holding (set_state (Waiters None) s)
  else at_pc t fail s.

(** The loop of [lockAsyncImpl]: where the value just read leads. *)
Definition lock_loop (w : lock_word) : mpc :=
  match w with Unlocked => LockCas | Waiters p => EnqueueCas p end.

(** [compare_exchange_weak] may fail although the values agree: [spurious]. *)
Definition lockAsyncImpl_step (t : coro) (spurious : bool) (s : mutex) : option mutex :=
  match pc s t with
  | LockLoad => Some (at_pc t (lock_loop (_state s)) s)
  | LockCas =>
      if negb spurious && bool_decide (_state s = Unlocked)
      then Some (at_pc t Holding (set_state (Waiters None) s))
      else Some (at_pc t (lock_loop (_state s)) s)
  | EnqueueCas oldValue =>
      let s := set_next t oldValue s in
      if negb spurious && bool_decide (_state s = Waiters oldValue)
      then Some (at_pc t Suspended (set_state (Waiters (Some t)) s))
      else Some (at_pc t (lock_loop (_state s)) s)
  | _ => None
  end.

Definition unlock_step (t : coro) (s : mutex) : option mutex :=
  match pc s t with
  | ReadWaiters =>
      Some (at_pc t (match _waiters s with
                     | None => ReadState
                     | Some w => Resume w
                     end) s)
  | ReadState =>
      Some (at_pc t (if decide (_state s = Waiters None) then UnlockCas else Exchange) s)
  | UnlockCas =>
      if decide (_state s = Waiters None)
      then Some (at_pc t Idle (set_state Unlocked s))
      else Some (at_pc t Exchange s)
  | Exchange =>
      Some (at_pc t (match _state s with
                     | Waiters (Some w) => Reverse w None
                     | _ => Broken
                     end) (set_state (Waiters None) s))
  | Reverse waiter waitersHead =>
      let s' := set_next waiter waitersHead s in
      Some (at_pc t (match _next s waiter with
                     | Some temp => Reverse temp (Some waiter)
                     | None => Resume waiter
                     end) s')
  | Resume waitersHead =>
      Some (at_pc waitersHead Holding
              (at_pc t Idle (set_waiters (_next s waitersHead) s)))
  | _ => None
  end.

Inductive mlabel :=
  | CallLock (t : coro)
  | CallTryLock (t : coro)
  | CallUnlock (t : coro)
  | Go (t : coro) (spurious : bool).

Definition mutex_step (l : mlabel) (s : mutex) : option mutex :=
  match l with
  | CallLock t => if decide (pc s t = Idle) then Some (at_pc t ReadyCas s) else None
  | CallTryLock t => if decide (pc s t = Idle) then Some (at_pc t TryCas s) else None
  | CallUnlock t => if decide (pc s t = Holding) then Some (at_pc t ReadWaiters s) else None
  | Go t spurious =>
      match pc s t with
      | TryCas => Some (tryLock t Idle s)
      | ReadyCas => Some (tryLock t LockLoad s)
      | LockLoad | LockCas | EnqueueCas _ => lockAsyncImpl_step t spurious s
      | _ => unlock_step t s
      end
  end.

Definition mutex_lts : lts := flts (fun s => s = Mutex_init) mutex_step.

(** ** The abstract lock *)

Record fifo := mkFifo { owner : option coro; queue : list coro }.

Inductive fifo_step : fifo -> fifo -> Prop :=
  | fifo_acquire t : fifo_step (mkFifo None []) (mkFifo (Some t) [])
  | fifo_enqueue o q t : t ∉ q -> t <> o ->
      fifo_step (mkFifo (Some o) q) (mkFifo (Some o) (q ++ [t]))
  | fifo_release o : fifo_step (mkFifo (Some o) []) (mkFifo None [])
  | fifo_handover o t q : fifo_step (mkFifo (Some o) (t :: q)) (mkFifo (Some t) q).

Definition fifo_lts : lts := LTS fifo (fun a => a = mkFifo None []) fifo_step.

(** ** The refinement *)

(** The coroutine is between acquiring and releasing the lock. *)
Definition owns (p : mpc) : bool :=
  match p with
  | Holding | ReadWaiters | ReadState | UnlockCas | Exchange | Reverse _ _
  | Resume _ => true
  | _ => false
  end.

(** The waiters that have left [_state], in the order they will be served;
    [fs] is the list [_waiters] points to, [ns] the one in [_state]. *)
Definition served (nxt : coro -> option coro) (p : mpc) (fs ns mid : list coro) : Prop :=
  match p with
  | ReadState | UnlockCas => fs = [] /\ mid = []
  | Exchange => fs = [] /\ mid = [] /\ ns <> []
  | Reverse w hd => fs = [] /\ exists ws hs, chain nxt (Some w) ws /\
      chain nxt hd hs /\ mid = reverse ws ++ hs
  | Resume hd => chain nxt (Some hd) mid /\ (fs = [] \/ fs = mid)
  | _ => mid = fs
  end.

Record mutex_rel (s : mutex) (a : fifo) : Prop := {
  rel_owner : forall t, owns (pc s t) = true <-> owner a = Some t;
  rel_queue : forall t, pc s t = Suspended <-> t ∈ queue a;
  rel_nodup : NoDup (queue a);
  rel_ok : forall t, pc s t <> Broken;
  rel_lists : match owner a with
    | None => _state s = Unlocked /\ _waiters s = None /\ queue a = []
    | Some o => exists p ns fs mid,
        _state s = Waiters p /\ chain (_next s) p ns /\ chain (_next s) (_waiters s) fs /\
        served (_next s) (pc s o) fs ns mid /\ queue a = mid ++ reverse ns
    end;
}.

Lemma served_insert nxt t n p fs ns mid :
  t ∉ mid -> served nxt p fs ns mid -> served (<[t := n]> nxt) p fs ns mid.
Proof.
  intros Hn. destruct p; simpl; try done.
  - intros (? & ws & hs & Hw & Hh & ->). split; [done |]. exists ws, hs.
    apply not_elem_of_app in Hn as [Hn Hn']. rewrite elem_of_reverse in Hn.
    split_and!; [by apply chain_insert | by apply chain_insert | done].
  - intros [? ?]. split; [by apply chain_insert | done].
Qed.

(** A step of [t] that changes only its own program counter, and neither whether
    it owns the lock nor whether it is suspended. *)
Lemma rel_at_pc t p s a :
  mutex_rel s a -> owns p = owns (pc s t) -> pc s t <> Suspended ->
  p <> Suspended -> p <> Broken ->
  (owns p = true -> forall fs ns mid,
     chain (_next s) (_waiters s) fs -> (exists q, _state s = Waiters q /\ chain (_next s) q ns) ->
     served (_next s) (pc s t) fs ns mid -> served (_next s) p fs ns mid) ->
  mutex_rel (at_pc t p s) a.
Proof.
  intros [Ho Hq Hn Hk Hl] Hp Hs Hps Hpb Hserved.
  split; simpl.
  - intros t'. rewrite fn_insert_case. case_decide; [subst; rewrite Hp |]; apply Ho.
  - intros t'. rewrite fn_insert_case. case_decide; [subst | apply Hq].
    rewrite <- Hq. tauto.
  - done.
  - intros t'. rewrite fn_insert_case. by case_decide.
  - destruct (owner a) as [o|] eqn:Eo; [| by rewrite ?Eo].
    destruct Hl as (q & ns & fs & mid & H1 & H2 & H3 & H4 & H5).
    exists q, ns, fs, mid. split_and!; try done.
    rewrite fn_insert_case. case_decide; [subst t | done].
    apply Hserved; eauto. rewrite Hp. by apply Ho.
Qed.

(** The lists together are the queue. *)
Lemma served_incl nxt p fs ns mid t :
  served nxt p fs ns mid -> t ∈ fs -> t ∈ mid.
Proof.
  destruct p; simpl; try (by intros ->); try (by intros (-> & _) ?%not_elem_of_nil).
  intros [_ [-> | ->]] Ht; [by apply not_elem_of_nil in Ht | done].
Qed.

Lemma rel_set_next t n s a :
  mutex_rel s a -> pc s t <> Suspended -> mutex_rel (set_next t n s) a.
Proof.
  intros [Ho Hq Hn Hk Hl] Ht. split; simpl; try done.
  destruct (owner a) as [o|] eqn:Eo; [| done].
  destruct Hl as (q & ns & fs & mid & H1 & H2 & H3 & H4 & H5).
  rewrite Hq, H5 in Ht. apply not_elem_of_app in Ht as [Ht Ht'].
  rewrite elem_of_reverse in Ht'.
  exists q, ns, fs, mid. split_and!; try done.
  - by apply chain_insert.
  - apply chain_insert; [|done]. intros Hin. apply Ht. by eapply served_incl.
  - by apply served_insert.
Qed.

Lemma rel_acquire t s a :
  mutex_rel s a -> _state s = Unlocked -> pc s t <> Suspended ->
  exists a', rtc fifo_step a a' /\
    mutex_rel (at_pc t Holding (set_state (Waiters None) s)) a'.
Proof.
  intros [Ho Hq Hn Hk Hl] Hs Ht. destruct a as [[o|] q]; simpl in *.
  { destruct Hl as (? & _ & _ & _ & Hl & _). congruence. }
  destruct Hl as (_ & Hw & ->). exists (mkFifo (Some t) []).
  split; [apply rtc_once; constructor |]. split; simpl.
  - intros t'. rewrite fn_insert_case. case_decide; [subst; done |].
    rewrite Ho. split; congruence.
  - intros t'. rewrite fn_insert_case. case_decide; [|done]. subst.
    split; [done | by intros ?%not_elem_of_nil].
  - done.
  - intros t'. rewrite fn_insert_case. by case_decide.
  - exists None, [], [], []. rewrite fn_lookup_insert. split_and!; try done.
Qed.

Lemma rel_enqueue t n s a :
  mutex_rel s a -> _state s = Waiters n -> owns (pc s t) = false -> pc s t <> Suspended ->
  _next s t = n ->
  exists a', rtc fifo_step a a' /\
    mutex_rel (at_pc t Suspended (set_state (Waiters (Some t)) s)) a'.
Proof.
  intros [Ho Hq Hn Hk Hl] Hs Hto Ht Hnx. destruct a as [[o|] q]; simpl in *.
  2:{ destruct Hl as (? & _). congruence. }
  destruct Hl as (p & ns & fs & mid & H1 & H2 & H3 & H4 & ->).
  rewrite Hs in H1. injection H1 as <-.
  assert (t ∉ mid ++ reverse ns) as Hnq by (by rewrite <- Hq).
  assert (t <> o). { intros ->. destruct (Ho o) as [_ H]. rewrite H in Hto by done. done. }
  exists (mkFifo (Some o) ((mid ++ reverse ns) ++ [t])). split.
  { apply rtc_once. by constructor. }
  split; simpl.
  - intros t'. rewrite fn_insert_case. case_decide; [subst t' | apply Ho].
    split; [done | congruence].
  - intros t'. rewrite fn_insert_case, elem_of_app, list_elem_of_singleton.
    case_decide; [by subst; split; auto |]. rewrite Hq. naive_solver.
  - apply NoDup_app. split_and!; [done | | apply NoDup_singleton].
    by intros x Hx ->%list_elem_of_singleton.
  - intros t'. rewrite fn_insert_case. by case_decide.
  - exists (Some t), (t :: ns), fs, mid. split_and!; try done.
    + simpl. rewrite Hnx. done.
    + rewrite fn_insert_case. rewrite decide_False by done.
      destruct (pc s o); simpl in *; naive_solver.
    + by rewrite reverse_cons, (assoc_L app).
Qed.

Lemma rel_unlock_cas t s a :
  mutex_rel s a -> pc s t = UnlockCas -> _state s = Waiters None ->
  exists a', rtc fifo_step a a' /\ mutex_rel (at_pc t Idle (set_state Unlocked s)) a'.
Proof.
  intros [Ho Hq Hn Hk Hl] Hp Hs.
  assert (owner a = Some t) as Hown by (apply Ho; by rewrite Hp).
  destruct a as [o q]; simpl in *. subst o.
  destruct Hl as (p & ns & fs & mid & H1 & H2 & H3 & H4 & ->).
  rewrite Hp in H4. destruct H4 as [-> ->]. rewrite Hs in H1. injection H1 as <-.
  destruct ns; [|by destruct H2]. simpl in *.
  exists (mkFifo None []). split; [apply rtc_once; constructor |]. split; simpl.
  - intros t'. rewrite fn_insert_case. case_decide; [done |].
    rewrite Ho. split; congruence.
  - intros t'. rewrite fn_insert_case. case_decide; [subst | apply Hq].
    split; [done | by intros ?%not_elem_of_nil].
  - done.
  - intros t'. rewrite fn_insert_case. by case_decide.
  - by split_and!.
Qed.

Lemma rel_exchange t s a :
  mutex_rel s a -> pc s t = Exchange ->
  mutex_rel (at_pc t (match _state s with
                      | Waiters (Some w) => Reverse w None
                      | _ => Broken
                      end) (set_state (Waiters None) s)) a.
Proof.
  intros [Ho Hq Hn Hk Hl] Hp.
  assert (owner a = Some t) as Hown by (apply Ho; by rewrite Hp).
  rewrite Hown in Hl.
  destruct Hl as (p & ns & fs & mid & -> & H2 & H3 & H4 & H5).
  rewrite Hp in H4. destruct H4 as (-> & -> & Hns).
  destruct ns as [|w ns]; [done |]. destruct H2 as [-> H2]. split; simpl.
  - intros t'. rewrite fn_insert_case. case_decide; [|apply Ho]. by subst.
  - intros t'. rewrite fn_insert_case. case_decide; [|apply Hq]. subst.
    rewrite <- Hq, Hp. done.
  - done.
  - intros t'. rewrite fn_insert_case. by case_decide.
  - rewrite Hown. exists None, [], [], (reverse (w :: ns)). rewrite fn_lookup_insert.
    split_and!; try done.
    + simpl. split; [done |]. exists (w :: ns), []. by rewrite app_nil_r.
    + by rewrite H5, app_nil_r.
Qed.

Lemma rel_reverse t w hd s a :
  mutex_rel s a -> pc s t = Reverse w hd ->
  mutex_rel (at_pc t (match _next s w with
                      | Some temp => Reverse temp (Some w)
                      | None => Resume w
                      end) (set_next w hd s)) a.
Proof.
  intros [Ho Hq Hn Hk Hl] Hp.
  assert (owner a = Some t) as Hown by (apply Ho; by rewrite Hp).
  rewrite Hown in Hl.
  destruct Hl as (p & ns & fs & mid & H1 & H2 & H3 & H4 & H5).
  rewrite Hp in H4. destruct H4 as (-> & ws & hs & Hws & Hhs & ->).
  destruct ws as [|w' ws]; [done |]. destruct Hws as [[= <-] Hws].
  rewrite H5, reverse_cons, <- !(assoc_L app) in Hn.
  assert ((w ∉ ns) /\ (w ∉ ws) /\ (w ∉ hs)) as (Hw1 & Hw2 & Hw3).
  { apply NoDup_app in Hn as (_ & Hd & Hn). simpl in Hn. apply NoDup_cons in Hn as [Hn _].
    apply not_elem_of_app in Hn as [Hh Hr]. rewrite elem_of_reverse in Hr.
    split_and!; try done. intros Hw. apply (Hd w); [by apply elem_of_reverse | by left]. }
  assert (chain (<[w := hd]> (_next s)) (Some w) (w :: hs)) as Hch.
  { split; [done |]. rewrite fn_lookup_insert. by apply chain_insert. }
  split; simpl.
  - intros t'. rewrite fn_insert_case. case_decide; [subst | apply Ho].
    split; [done |]. by case_match.
  - intros t'. rewrite fn_insert_case. case_decide; [subst | apply Hq].
    rewrite <- Hq, Hp. by case_match.
  - by rewrite H5, reverse_cons, <- !(assoc_L app).
  - intros t'. rewrite fn_insert_case. case_decide; [|done]. by case_match.
  - rewrite Hown. exists p, ns, [], (reverse ws ++ w :: hs). rewrite fn_lookup_insert.
    split_and!; [done | by apply chain_insert | done | |].
    + destruct (_next s w) as [temp|] eqn:Enx; simpl.
      * split; [done |]. exists ws, (w :: hs). split_and!; [| done | done].
        by apply chain_insert.
      * destruct ws; [| by destruct Hws]. split; [done | by left].
    + rewrite H5, reverse_cons. by rewrite <- !(assoc_L app).
Qed.

Lemma rel_resume t hd s a :
  mutex_rel s a -> pc s t = Resume hd ->
  exists a', rtc fifo_step a a' /\
    mutex_rel (at_pc hd Holding (at_pc t Idle (set_waiters (_next s hd) s))) a'.
Proof.
  intros [Ho Hq Hn Hk Hl] Hp.
  assert (owner a = Some t) as Hown by (apply Ho; by rewrite Hp).
  destruct a as [o q]; simpl in *. subst o.
  destruct Hl as (p & ns & fs & mid & H1 & H2 & H3 & H4 & ->).
  rewrite Hp in H4. destruct H4 as [Hc Hfs]. destruct mid as [|x mid]; [done |].
  destruct Hc as [[= <-] Hc]. simpl in *. apply NoDup_cons in Hn as [Hx Hn].
  assert (hd <> t).
  { intros ->. assert (pc s t = Suspended) by (apply Hq; by left). congruence. }
  exists (mkFifo (Some hd) (mid ++ reverse ns)). split; [apply rtc_once; constructor |].
  split; simpl.
  - intros t'. rewrite !fn_insert_case. repeat case_decide; subst; try done.
    + simpl; split; congruence.
    + rewrite Ho. split; congruence.
  - intros t'. rewrite !fn_insert_case. repeat case_decide; subst.
    + split; [done |]. by intros.
    + split; [done |]. intros Hin. assert (pc s t = Suspended); [|congruence].
      apply Hq. by right.
    + rewrite Hq, elem_of_cons. naive_solver.
  - done.
  - intros t'. rewrite !fn_insert_case. by repeat case_decide.
  - exists p, ns, mid, mid. rewrite fn_lookup_insert. by split_and!.
Qed.

(** A coroutine that moves inside the code before the lock is acquired. *)
Lemma rel_move t p s a :
  mutex_rel s a -> owns p = false -> owns (pc s t) = false -> pc s t <> Suspended ->
  p <> Suspended -> p <> Broken ->
  exists a', rtc fifo_step a a' /\ mutex_rel (at_pc t p s) a'.
Proof.
  intros HR Hp Ht Hs Hps Hpb. exists a. split; [done |].
  apply rel_at_pc; [done | by rewrite Hp, Ht | done..| by rewrite Hp].
Qed.

Lemma lock_loop_owns w : owns (lock_loop w) = false.
Proof. by destruct w. Qed.

Lemma rel_tryLock t fail s a :
  mutex_rel s a -> owns (pc s t) = false -> pc s t <> Suspended ->
  fail = Idle \/ fail = LockLoad ->
  exists a', rtc fifo_step a a' /\ mutex_rel (tryLock t fail s) a'.
Proof.
  intros HR Ht Hs Hf. unfold tryLock. case_decide.
  - by apply rel_acquire.
  - apply rel_move; destruct Hf as [-> | ->]; done.
Qed.

Lemma rel_lockAsync t sp s s' a :
  mutex_rel s a -> lockAsyncImpl_step t sp s = Some s' ->
  exists a', rtc fifo_step a a' /\ mutex_rel s' a'.
Proof.
  intros HR Hstep. unfold lockAsyncImpl_step in Hstep.
  assert (forall w s0, mutex_rel s0 a -> owns (pc s0 t) = false -> pc s0 t <> Suspended ->
    exists a', rtc fifo_step a a' /\ mutex_rel (at_pc t (lock_loop w) s0) a') as Hloop.
  { intros w s0 ???. apply rel_move; rewrite ?lock_loop_owns; try done; by destruct w. }
  destruct (pc s t) as [| | | | |old| | | | | | | | |] eqn:Hp; simplify_eq.
  - apply Hloop; by rewrite ?Hp.
  - case_match eqn:Hc; simplify_eq.
    + apply andb_true_iff in Hc as [_ Hc%bool_decide_eq_true].
      apply rel_acquire; by rewrite ?Hp.
    + apply Hloop; by rewrite ?Hp.
  - assert (mutex_rel (set_next t old s) a) as HR' by (apply rel_set_next; by rewrite ?Hp).
    case_match eqn:Hc; simplify_eq.
    + apply andb_true_iff in Hc as [_ Hc%bool_decide_eq_true].
      apply (rel_enqueue t old (set_next t old s)); simpl; rewrite ?Hp, ?fn_lookup_insert; done.
    + apply Hloop; simpl; by rewrite ?Hp.
Qed.

(** The steps of [unlock] that only read. *)
Lemma rel_read_waiters t s a :
  mutex_rel s a -> pc s t = ReadWaiters ->
  mutex_rel (at_pc t (match _waiters s with None => ReadState | Some w => Resume w end) s) a.
Proof.
  intros HR Hp. apply rel_at_pc; rewrite ?Hp; try done; try by case_match.
  intros _ fs ns mid Hfs _ ->. destruct (_waiters s) as [w|]; simpl.
  - split; [done | by right].
  - by destruct fs as [|? ?]; [| destruct Hfs].
Qed.

Lemma rel_to_exchange t s a :
  mutex_rel s a -> pc s t = ReadState \/ pc s t = UnlockCas -> _state s <> Waiters None ->
  mutex_rel (at_pc t Exchange s) a.
Proof.
  intros HR Hp Hs. apply rel_at_pc; try (by destruct Hp as [-> | ->]); try done.
  intros _ fs ns mid _ (q & Hq & Hc) Hserved.
  assert (fs = [] /\ mid = []) as [-> ->] by (by destruct Hp as [Hp | Hp]; rewrite Hp in Hserved).
  split_and!; try done. intros ->. simpl in Hc. congruence.
Qed.

Lemma rel_to_cas t s a :
  mutex_rel s a -> pc s t = ReadState -> mutex_rel (at_pc t UnlockCas s) a.
Proof. intros HR Hp. by apply rel_at_pc; rewrite ?Hp. Qed.

Lemma rel_unlock t s s' a :
  mutex_rel s a -> unlock_step t s = Some s' ->
  exists a', rtc fifo_step a a' /\ mutex_rel s' a'.
Proof.
  intros HR Hstep. unfold unlock_step in Hstep.
  assert (mutex_rel s' a -> exists a', rtc fifo_step a a' /\ mutex_rel s' a') as Hsame
    by (intros; by exists a).
  destruct (pc s t) eqn:Hp; try done; try case_decide; simplify_eq.
  - by apply Hsame, rel_read_waiters.
  - by apply Hsame, rel_to_cas.
  - apply Hsame, rel_to_exchange; auto.
  - by apply rel_unlock_cas.
  - apply Hsame, rel_to_exchange; auto.
  - by apply Hsame, rel_exchange.
  - by apply Hsame, rel_reverse.
  - by apply rel_resume.
Qed.

Lemma mutex_rel_step l s s' a :
  mutex_rel s a -> mutex_step l s = Some s' ->
  exists a', rtc fifo_step a a' /\ mutex_rel s' a'.
Proof.
  intros HR. destruct l as [t|t|t|t sp]; simpl; try case_decide as Hp; intros; simplify_eq.
  - apply rel_move; by rewrite ?Hp.
  - apply rel_move; by rewrite ?Hp.
  - exists a. split; [done |]. apply rel_at_pc; by rewrite ?Hp.
  - destruct (pc s t) eqn:Hp; simplify_eq;
      try (apply rel_tryLock; rewrite ?Hp; by auto);
      first [ by eapply rel_lockAsync | by eapply rel_unlock ].
Qed.

Lemma mutex_rel_init : mutex_rel Mutex_init (mkFifo None []).
Proof.
  split; simpl; try done.
  - intros t. split; [done |]. by intros ?%not_elem_of_nil.
  - constructor.
Qed.

(** ** Unlocking alone *)

(** What [t] running alone for at most [n] steps achieves: the lock is free if
    nobody waited, and otherwise the first in the queue has it. *)
Definition unlocks (t : coro) (n : nat) (s : mutex) (a : fifo) : Prop :=
  exists k s', (k <= n)%nat /\
    run_schedule mutex_step (replicate k (Go t false)) s = Some s' /\
    match queue a with
    | [] => _state s' = Unlocked
    | h :: _ => pc s' h = Holding
    end.

Lemma unlocks_step t n s s' a :
  mutex_step (Go t false) s = Some s' -> unlocks t n s' a -> unlocks t (S n) s a.
Proof.
  intros Hs (k & s2 & Hk & Hrun & Hend). exists (S k), s2.
  split; [lia |]. split; [|done]. cbn [replicate run_schedule]. by rewrite Hs.
Qed.

Lemma unlocks_le t n m s a : (n <= m)%nat -> unlocks t n s a -> unlocks t m s a.
Proof. intros Hnm (k & s2 & Hk & ?). exists k, s2. split; [lia | done]. Qed.

(** One step of [t] in [unlock]. *)
Ltac unlock_go Hp :=
  eapply unlocks_step; [unfold mutex_step, unlock_step; rewrite Hp; reflexivity |].

Lemma unlocks_resume t h s a : mutex_rel s a -> pc s t = Resume h -> unlocks t 1 s a.
Proof.
  intros HR Hp. unlock_go Hp. eexists 0%nat, _. split; [lia |]. split; [done |].
  destruct HR as [Ho Hq Hn Hk Hl].
  assert (owner a = Some t) as Hown by (apply Ho; by rewrite Hp). rewrite Hown in Hl.
  destruct Hl as (p & ns & fs & mid & _ & _ & _ & H4 & ->). rewrite Hp in H4.
  destruct H4 as [Hc _]. destruct mid; [done |]. destruct Hc as [[= <-] _]. simpl.
  by rewrite fn_lookup_insert.
Qed.

(** The reversal loop makes one iteration per waiter. *)
Lemma unlocks_reverse t ws w hd s a :
  mutex_rel s a -> pc s t = Reverse w hd -> chain (_next s) (Some w) ws -> NoDup ws ->
  unlocks t (S (length ws)) s a.
Proof.
  revert w hd s. induction ws as [|w' ws IH]; intros w hd s HR Hp Hc Hnd; [done |].
  destruct Hc as [[= <-] Hc]. apply NoDup_cons in Hnd as [Hw Hnd].
  pose proof (rel_reverse _ _ _ _ _ HR Hp) as HR'. unlock_go Hp.
  destruct (_next s w) as [temp|] eqn:En.
  - apply (IH temp (Some w)); [done | by simpl; rewrite fn_lookup_insert | | done].
    simpl. by apply chain_insert.
  - destruct ws; [|by destruct Hc]. apply (unlocks_resume t w); [done |].
    by simpl; rewrite fn_lookup_insert.
Qed.

Lemma unlocks_exchange t s a :
  mutex_rel s a -> pc s t = Exchange -> unlocks t (S (S (length (queue a)))) s a.
Proof.
  intros HR Hp. pose proof (rel_exchange _ _ _ HR Hp) as HR'. unlock_go Hp.
  pose proof (rel_lists _ _ HR) as Hl.
  assert (owner a = Some t) as Hown by (apply (rel_owner _ _ HR); by rewrite Hp).
  rewrite Hown in Hl. destruct Hl as (p & ns & fs & mid & H1 & H2 & H3 & H4 & H5).
  rewrite Hp in H4. destruct H4 as (-> & -> & Hns). rewrite H1 in *.
  destruct ns as [|w ns]; [done |]. pose proof H2 as [-> _].
  rewrite H5. simpl app. rewrite length_reverse.
  apply (unlocks_reverse t (w :: ns) w None); [done | by simpl; rewrite fn_lookup_insert | done |].
  pose proof (rel_nodup _ _ HR) as Hnd. rewrite H5 in Hnd. simpl app in Hnd.
  by rewrite reverse_Permutation in Hnd.
Qed.

Lemma unlocks_state t s a :
  mutex_rel s a -> pc s t = ReadState -> unlocks t (3 + length (queue a)) s a.
Proof.
  intros HR Hp. unlock_go Hp. destruct (decide (_state s = Waiters None)) as [Hs|Hs].
  - pose proof (rel_to_cas _ _ _ HR Hp) as HR'. apply (unlocks_le _ 1); [lia |].
    set (s1 := at_pc t UnlockCas s) in *.
    assert (pc s1 t = UnlockCas) as Hp1 by (simpl; apply fn_lookup_insert).
    eapply unlocks_step.
    { unfold mutex_step, unlock_step. rewrite Hp1, decide_True by done. reflexivity. }
    eexists 0%nat, _. split; [lia |]. split; [done |].
    pose proof (rel_lists _ _ HR') as Hl.
    assert (owner a = Some t) as Hown by (apply (rel_owner _ _ HR'); by rewrite Hp1).
    rewrite Hown in Hl. destruct Hl as (p & ns & fs & mid & H1 & H2 & H3 & H4 & H5).
    rewrite Hp1 in H4. destruct H4 as [_ ->]. simpl in H1. rewrite Hs in H1. simplify_eq.
    destruct ns; [|by destruct H2]. by rewrite H5.
  - apply unlocks_exchange; [apply rel_to_exchange; auto |].
    by simpl; rewrite fn_lookup_insert.
Qed.

Lemma unlocks_waiters t s a :
  mutex_rel s a -> pc s t = ReadWaiters -> unlocks t (4 + length (queue a)) s a.
Proof.
  intros HR Hp. pose proof (rel_read_waiters _ _ _ HR Hp) as HR'. unlock_go Hp.
  destruct (_waiters s) as [w|].
  - apply (unlocks_le _ 1); [lia |]. apply (unlocks_resume t w); [done |].
    by simpl; rewrite fn_lookup_insert.
  - apply unlocks_state; [done |]. by simpl; rewrite fn_lookup_insert.
Qed.

(** ** Properties *)

Lemma mutex_simulation : simulation mutex_lts fifo_lts mutex_rel.
Proof.
  split.
  - intros s ->. exists (mkFifo None []). split; [done | apply mutex_rel_init].
  - intros s s' a _ HR [l Hl]. by eapply mutex_rel_step.
Qed.


(** C9.  At most one coroutine is between acquiring and releasing the mutex; a
    suspended coroutine is never forgotten: it waits behind a coroutine that
    owns the mutex; and the assertions of [unlock] hold (no null waiter is
    dereferenced). *)
Theorem mutex_exclusive s :
  reachable mutex_lts s ->
  (forall t t', owns (pc s t) = true -> owns (pc s t') = true -> t = t') /\
  (forall t, pc s t = Suspended -> exists o, owns (pc s o) = true) /\
  (forall t, pc s t <> Broken).
Proof.
  intros (a & _ & [Ho Hq Hn Hk Hl])%(simulation_reachable _ _ _ mutex_simulation).
  split_and!; [| | done].
  - intros t t' H1%Ho H2%Ho. congruence.
  - intros t Ht%Hq. destruct (owner a) as [o|] eqn:Eo.
    + exists o. by apply Ho.
    + destruct Hl as (_ & _ & Hl). rewrite Hl in Ht. by apply not_elem_of_nil in Ht.
Qed.

(** [unlock] is wait-free apart from reversing the list: alone, it needs
    at most four atomic accesses and one iteration per waiter, and it leaves the
    mutex unlocked when nobody waits, and otherwise owned by the waiter that
    came first. *)
Theorem unlock_hands_over s t :
  reachable mutex_lts s -> pc s t = Holding ->
  exists a s1 k s', mutex_rel s a /\ mutex_step (CallUnlock t) s = Some s1 /\
    (k <= 4 + length (queue a))%nat /\
    run_schedule mutex_step (replicate k (Go t false)) s1 = Some s' /\
    match queue a with [] => _state s' = Unlocked | h :: _ => pc s' h = Holding end.
Proof.
  intros (a & _ & HR)%(simulation_reachable _ _ _ mutex_simulation) Hp.
  exists a, (at_pc t ReadWaiters s).
  destruct (unlocks_waiters t (at_pc t ReadWaiters s) a) as (k & s' & ?).
  - apply rel_at_pc; by rewrite ?Hp.
  - by simpl; rewrite fn_lookup_insert.
  - exists k, s'. simpl. by rewrite decide_True.
Qed.

(** Coroutine 1 acquires the lock, 2 and 3 queue up behind it. *)
Definition mutex_example : list mlabel :=
  [CallLock 1; Go 1 false; CallLock 2; Go 2 false; CallLock 3; Go 2 false;
   Go 2 true; Go 2 false; Go 3 false; Go 3 false; Go 3 false].
Definition mutex_example_end : mutex :=
  run_end mutex_step mutex_example Mutex_init.

Lemma mutex_example_reachable : reachable mutex_lts mutex_example_end.
Proof. apply run_end_reachable; [done | vm_compute; reflexivity]. Qed.

Lemma mutex_exclusive_witness :
  pc mutex_example_end 3 = Suspended /\ exists o, owns (pc mutex_example_end o) = true.
Proof.
  assert (pc mutex_example_end 3 = Suspended) as H by reflexivity. split; [exact H |].
  destruct (mutex_exclusive mutex_example_end mutex_example_reachable) as (_ & H2 & _).
  exact (H2 3%nat H).
Defined.

Lemma unlock_hands_over_witness :
  pc mutex_example_end 1 = Holding /\
  exists a s1, mutex_rel mutex_example_end a /\
    mutex_step (CallUnlock 1) mutex_example_end = Some s1.
Proof.
  assert (pc mutex_example_end 1 = Holding) as H by reflexivity. split; [exact H |].
  destruct (unlock_hands_over mutex_example_end 1 mutex_example_reachable H)
    as (a & s1 & k & s' & H1 & H2 & _).
  by exists a, s1.
Defined.
