(* ===== verification/Signal.v ===== *)
(** * Signal and Slot

    Models src/async_simple/Signal.h: any number of threads emit signals
    ([Signal::emits], with the compare-exchange loop of [UpdateState] and the
    walk over the handler managers of a slot), while the owner of the slot
    emplaces and clears handlers and sets filters.  Each step is one atomic
    access.  Handlers are heap objects, identified by numbers: calling or
    deleting one that has been deleted is [EBroken] or [SBroken].  Signal types
    are 64-bit words. *)

From S2P Require Import Prelude.

(** ** Signal types *)

Definition Terminate : Z := 1.
Definition All : Z := 2 ^ 64 - 1.
Definition high32bits_mask : Z := Z.shiftl (2 ^ 32 - 1) 32.
Definition MinMultiTriggerSignal : Z := Z.shiftl 1 32.

Definition isMultiTriggerSignal (type : Z) : bool := MinMultiTriggerSignal <=? type.

(** The positions of the bits that are set, lowest first: [std::popcount] is
    their number and [std::countr_zero] the first. *)
Definition bits (type : Z) : list nat :=
  filter (fun i => Z.testbit type (Z.of_nat i) = true) (seq 0 64).
Definition popcount (type : Z) : nat := length (bits type).
Definition countr_zero (type : Z) : nat := default 64%nat (head (bits type)).

(** The conversion [type & state] to [bool]. *)
Definition meets (a b : Z) : bool := negb (Z.land a b =? 0).

(** The result of [UpdateState] once the loop has ended. *)
Definition validSignal (expected type : Z) : Z := Z.lxor (Z.lor expected type) expected.
Definition emitted (valid type : Z) : Z := Z.lor valid (Z.land type high32bits_mask).

(** ** State *)

(** The atomic [Handler*] of a [HandlerManager]. *)
Inductive cell := Empty | Handler (h : nat) | EmittedTag.

#[export] Instance cell_eq_dec : EqDecision cell.
Proof. solve_decision. Defined.

Inductive mem := Unborn | Alive | Deleted.

#[export] Instance mem_eq_dec : EqDecision mem.
Proof. solve_decision. Defined.

(** A thread in [emits]: [v] is the result of [UpdateState], [state] the bits
    the slot still has to serve, [ms] the managers left. *)
Inductive epc :=
  | EIdle
  | ELoad (type : Z)
  | ECas (type expected : Z)
  | EFilter (v : Z)
  | EManagers (v state : Z)
  | EChained (v state : Z) (ms : list nat)
  | EWalk (v state : Z) (ms : list nat)
  | ECall (v state rest : Z) (h : nat) (ms : list nat)
  | EDone (v : Z)
  | EBroken (v : Z).

(** The owner of the slot. *)
Inductive spc :=
  | SIdle
  | SLoadHandler (h : nat) (type : Z)
  | SState (h : nat) (type : Z)
  | SRead (h : nat) (type : Z)
  | SCas (h : nat) (type : Z) (oldHandler : cell)
  | SClearFind (type : Z)
  | SClearRead (type : Z)
  | SClearCas (type : Z) (oldHandler : nat)
  | SBroken.

Record sig := mkSig {
  _state : Z;
  _filter : Z;
  managers : list nat;
  cells : nat -> cell;
  chained : option nat;
  handlers : nat -> mem;
  calls : list (nat * Z);
  forwarded : list (nat * Z);
  answers : list (nat * bool);
  cleared : list nat;
  emitter : nat -> epc;
  slot : spc;
}.

Definition sig_init : sig :=
  mkSig 0 All [] (fun _ => Empty) None (fun _ => Unborn) [] [] [] [] (fun _ => EIdle) SIdle.

Definition upd_emitter e p s := mkSig (_state s) (_filter s) (managers s) (cells s)
  (chained s) (handlers s) (calls s) (forwarded s) (answers s) (cleared s)
  (<[e := p]> (emitter s)) (slot s).
Definition upd_slot p s := mkSig (_state s) (_filter s) (managers s) (cells s)
  (chained s) (handlers s) (calls s) (forwarded s) (answers s) (cleared s)
  (emitter s) p.
Definition upd_sig_state w s := mkSig w (_filter s) (managers s) (cells s)
  (chained s) (handlers s) (calls s) (forwarded s) (answers s) (cleared s)
  (emitter s) (slot s).
Definition upd_filter w s := mkSig (_state s) w (managers s) (cells s)
  (chained s) (handlers s) (calls s) (forwarded s) (answers s) (cleared s)
  (emitter s) (slot s).
Definition upd_managers w s := mkSig (_state s) (_filter s) w (cells s)
  (chained s) (handlers s) (calls s) (forwarded s) (answers s) (cleared s)
  (emitter s) (slot s).
Definition upd_cell i c s := mkSig (_state s) (_filter s) (managers s) (<[i := c]> (cells s))
  (chained s) (handlers s) (calls s) (forwarded s) (answers s) (cleared s)
  (emitter s) (slot s).
Definition upd_chained c s := mkSig (_state s) (_filter s) (managers s) (cells s)
  c (handlers s) (calls s) (forwarded s) (answers s) (cleared s) (emitter s) (slot s).
Definition upd_handler h m s := mkSig (_state s) (_filter s) (managers s) (cells s)
  (chained s) (<[h := m]> (handlers s)) (calls s) (forwarded s) (answers s) (cleared s)
  (emitter s) (slot s).
Definition log_call c s := mkSig (_state s) (_filter s) (managers s) (cells s)
  (chained s) (handlers s) (calls s ++ [c]) (forwarded s) (answers s) (cleared s)
  (emitter s) (slot s).
Definition log_forward c s := mkSig (_state s) (_filter s) (managers s) (cells s)
  (chained s) (handlers s) (calls s) (forwarded s ++ [c]) (answers s) (cleared s)
  (emitter s) (slot s).
Definition log_answer c s := mkSig (_state s) (_filter s) (managers s) (cells s)
  (chained s) (handlers s) (calls s) (forwarded s) (answers s ++ [c]) (cleared s)
  (emitter s) (slot s).
Definition log_cleared c s := mkSig (_state s) (_filter s) (managers s) (cells s)
  (chained s) (handlers s) (calls s) (forwarded s) (answers s) (cleared s ++ [c])
  (emitter s) (slot s).

(** ** emits *)

(** One turn of the loop of [operator()], at a manager of index [i]. *)
Definition invoke (e : nat) (v state : Z) (i : nat) (ms : list nat) (s : sig) : sig :=
  let nowSignal := Z.shiftl 1 (Z.of_nat i) in
  let rest := Z.lxor state nowSignal in
  if isMultiTriggerSignal nowSignal then
    match cells s i with
    | Handler h => upd_emitter e (ECall v state rest h ms) s
    | _ => upd_emitter e (EWalk v rest ms) s
    end
  else
    match cells s i with
    | Handler h =>
        match handlers s h with
        | Alive => upd_emitter e (EWalk v rest ms)
                     (upd_handler h Deleted (log_call (h, state) (upd_cell i EmittedTag s)))
        | _ => upd_emitter e (EBroken v) s
        end
    | _ => upd_emitter e (EWalk v rest ms) (upd_cell i EmittedTag s)
    end.

Definition emit_step (e : nat) (spurious : bool) (s : sig) : option sig :=
  match emitter s e with
  | ELoad type =>
      Some (upd_emitter e (ECas type (_state s)) s)
  | ECas type expected =>
      let valid := validSignal expected type in
      if valid =? 0 then
        let v := emitted valid type in
        Some (upd_emitter e (if v =? 0 then EDone v else EFilter v) s)
      else if negb spurious && (_state s =? expected) then
        Some (upd_emitter e (EFilter (emitted valid type))
                (upd_sig_state (Z.lor expected type) s))
      else Some (upd_emitter e (ECas type (_state s)) s)
  | EFilter v => Some (upd_emitter e (EManagers v (Z.land v (_filter s))) s)
  | EManagers v state => Some (upd_emitter e (EChained v state (managers s)) s)
  | EChained v state ms =>
      Some (upd_emitter e (EWalk v state ms)
        (match chained s with
         | Some c => if state =? 0 then s else log_forward (c, state) s
         | None => s
         end))
  | EWalk v state ms =>
      if state =? 0 then Some (upd_emitter e (EDone v) s)
      else match ms with
           | [] => Some (upd_emitter e (EDone v) s)
           | i :: ms =>
               if meets (Z.shiftl 1 (Z.of_nat i)) state
               then Some (invoke e v state i ms s)
               else Some (upd_emitter e (EWalk v state ms) s)
           end
  | ECall v state rest h ms =>
      match handlers s h with
      | Alive => Some (upd_emitter e (EWalk v rest ms) (log_call (h, state) s))
      | _ => Some (upd_emitter e (EBroken v) s)
      end
  | EIdle | EDone _ | EBroken _ => None
  end.

(** ** Slot *)

(** [emplace] fails: the new handler, if it has been allocated, is deleted. *)
Definition reject (h : nat) (s : sig) : sig :=
  upd_slot SIdle (log_answer (h, false) (upd_handler h Deleted s)).

Definition slot_step (s : sig) : option sig :=
  match slot s with
  | SLoadHandler h type =>
      let i := countr_zero type in
      Some (upd_slot (SState h type)
        (if decide (i ∈ managers s) then s else upd_managers (i :: managers s) s))
  | SState h type =>
      Some (if negb (isMultiTriggerSignal type) && meets (_state s) type
            then reject h s else upd_slot (SRead h type) s)
  | SRead h type =>
      let old := cells s (countr_zero type) in
      Some (if decide (old = EmittedTag) then reject h s else upd_slot (SCas h type old) s)
  | SCas h type old =>
      let i := countr_zero type in
      if decide (cells s i = old) then
        let s1 := upd_slot SIdle (log_answer (h, true) (upd_cell i (Handler h) s)) in
        Some (match old with
              | Handler h0 =>
                  match handlers s h0 with
                  | Alive => log_cleared h0 (upd_handler h0 Deleted s1)
                  | _ => upd_slot SBroken s1
                  end
              | _ => s1
              end)
      else Some (reject h s)
  | SClearFind type =>
      Some (upd_slot (if decide (countr_zero type ∈ managers s)
                      then SClearRead type else SIdle) s)
  | SClearRead type =>
      Some (upd_slot (match cells s (countr_zero type) with
                      | Handler h => SClearCas type h
                      | _ => SIdle
                      end) s)
  | SClearCas type old =>
      let i := countr_zero type in
      Some (if decide (cells s i = Handler old) then
              match handlers s old with
              | Alive => upd_slot SIdle
                  (log_cleared old (upd_handler old Deleted (upd_cell i Empty s)))
              | _ => upd_slot SBroken s
              end
            else upd_slot SIdle s)
  | SIdle | SBroken => None
  end.

Inductive slabel :=
  | CallEmits (e : nat) (type : Z)
  | GoEmitter (e : nat) (spurious : bool)
  | CallEmplace (h : nat) (type : Z)
  | CallClear (type : Z)
  | CallSetFilter (filter : Z)
  | CallChainedSignal (c : option nat)
  | GoSlot.

(** Words are 64 bits wide. *)
Definition is_word (z : Z) : bool := (0 <=? z) && (z <? 2 ^ 64).

(** [emplace] and [clear] are called with a type below [limit], and the filters
    the owner sets include the signals of [keep].  [emplace] and [clear] throw
    without effect when the type is not one bit. *)
Definition sig_step (limit keep : Z) (l : slabel) (s : sig) : option sig :=
  match l with
  | CallEmits e type =>
      match emitter s e with
      | EIdle => if is_word type
                 then Some (upd_emitter e (if type =? 0 then EDone 0 else ELoad type) s)
                 else None
      | _ => None
      end
  | GoEmitter e spurious => emit_step e spurious s
  | CallEmplace h type =>
      match slot s, handlers s h with
      | SIdle, Unborn =>
          if is_word type && (type <? limit) then
            if decide (popcount type = 1%nat)
            then Some (upd_slot (SLoadHandler h type) (upd_handler h Alive s))
            else Some s
          else None
      | _, _ => None
      end
  | CallClear type =>
      match slot s with
      | SIdle =>
          if is_word type && (type <? limit) then
            if decide (popcount type = 1%nat)
            then Some (upd_slot (SClearFind type) s) else Some s
          else None
      | _ => None
      end
  | CallSetFilter f =>
      match slot s with
      | SIdle => if is_word f && (Z.land f keep =? keep)
               then Some (upd_filter f s) else None
      | _ => None
      end
  | CallChainedSignal c =>
      match slot s with SIdle => Some (upd_chained c s) | _ => None end
  | GoSlot => slot_step s
  end.

Definition sig_lts (limit keep : Z) : lts :=
  flts (fun s => s = sig_init) (sig_step limit keep).

(** [Slot::hasTriggered], [canceled], and the filter of a [FilterGuard]. *)
Definition hasTriggered (type : Z) (s : sig) : bool :=
  meets (Z.land (_state s) type) (_filter s).
Definition canceled (s : sig) : bool := hasTriggered Terminate s.
Definition FilterGuard_filter (oldFilter newFilter : Z) : Z := Z.land oldFilter newFilter.

(** ** Bits *)

Lemma meets_bit i s : 0 <= i -> meets (Z.shiftl 1 i) s = Z.testbit s i.
Proof.
  intros Hi. unfold meets. destruct (Z.testbit s i) eqn:E.
  - apply negb_true_iff, Z.eqb_neq. intros H0.
    assert (Z.testbit (Z.land (Z.shiftl 1 i) s) i = false) as Hb by (by rewrite H0, Z.bits_0).
    rewrite Z.land_spec, E, Z.shiftl_spec, Z.sub_diag in Hb by done. done.
  - apply negb_false_iff, Z.eqb_eq. apply Z.bits_inj'. intros n Hn.
    rewrite Z.land_spec, Z.bits_0. destruct (decide (n = i)) as [->|Hne].
    + by rewrite E, andb_false_r.
    + rewrite Z.shiftl_1_l, Z.pow2_bits_false by done. done.
Qed.

Lemma meets_comm a b : meets a b = meets b a.
Proof. unfold meets. by rewrite Z.land_comm. Qed.

Lemma bits_spec type i :
  i ∈ bits type <-> (i < 64)%nat /\ Z.testbit type (Z.of_nat i) = true.
Proof. unfold bits. rewrite list_elem_of_filter, elem_of_seq. naive_solver lia. Qed.

(** A type of one bit is that bit. *)
Lemma one_bit type :
  is_word type = true -> popcount type = 1%nat ->
  (countr_zero type < 64)%nat /\ type = Z.shiftl 1 (Z.of_nat (countr_zero type)).
Proof.
  unfold is_word, popcount, countr_zero. intros [H0 H64]%andb_true_iff Hp.
  apply Z.leb_le in H0. apply Z.ltb_lt in H64.
  destruct (bits type) as [|b [|]] eqn:E; try done. simpl.
  assert (forall i, i ∈ bits type <-> i = b) as Hb.
  { intros i. by rewrite E, list_elem_of_singleton. }
  assert ((b < 64)%nat /\ Z.testbit type (Z.of_nat b) = true) as [Hlt Hbit]
    by (apply bits_spec, Hb; done).
  split; [done |]. apply Z.bits_inj'. intros n Hn. rewrite Z.shiftl_1_l.
  destruct (decide (n = Z.of_nat b)) as [->|Hne].
  - by rewrite Z.pow2_bits_true by lia.
  - rewrite Z.pow2_bits_false by done. destruct (Z.testbit type n) eqn:En; [|done].
    destruct (decide (n < 64)) as [Hn64|Hn64].
    + exfalso. apply Hne. rewrite <- (Z2Nat.id n) in En |- * by done. f_equal.
      apply Hb, bits_spec. split; [lia | done].
    + rewrite Z.bits_above_log2 in En; [done | lia |].
      destruct (decide (type = 0)) as [->|]; [rewrite Z.testbit_0_l in Hbit; done |].
      apply Z.log2_lt_pow2; [lia |]. apply Z.lt_le_trans with (2 ^ 64); [done |].
      apply Z.pow_le_mono_r; lia.
Qed.

Lemma validSignal_bit expected type n :
  0 <= n -> Z.testbit (validSignal expected type) n =
  Z.testbit type n && negb (Z.testbit expected n).
Proof.
  intros. unfold validSignal. rewrite Z.lxor_spec, Z.lor_spec.
  by destruct (Z.testbit expected n), (Z.testbit type n).
Qed.

Lemma high32_bit n : 0 <= n < 32 -> Z.testbit high32bits_mask n = false.
Proof. intros. unfold high32bits_mask. by rewrite Z.shiftl_spec_low by lia. Qed.

Lemma emitted_bit valid type n :
  0 <= n < 32 -> Z.testbit (emitted valid type) n = Z.testbit valid n.
Proof.
  intros. unfold emitted. rewrite Z.lor_spec, Z.land_spec, high32_bit by done.
  by rewrite andb_false_r, orb_false_r.
Qed.

(** ** Who has won a signal *)

(** What [UpdateState] returned to a thread. *)
Definition got (p : epc) : option Z :=
  match p with
  | EFilter v | EManagers v _ | EChained v _ _ | EWalk v _ _ | ECall v _ _ _ _
  | EDone v | EBroken v => Some v
  | EIdle | ELoad _ | ECas _ _ => None
  end.

(** The steps, as far as [UpdateState] is concerned: nothing changes; a thread
    gets a result without a low bit; or it sets the bits of [type] and gets
    those that were missing. *)
Inductive upd_view (s s' : sig) : Prop :=
  | upd_same : _state s' = _state s -> (forall e, got (emitter s' e) = got (emitter s e)) ->
      upd_view s s'
  | upd_none e v : got (emitter s e) = None -> _state s' = _state s -> (forall n, 0 <= n < 32 -> Z.testbit v n = false) ->
      (forall e', got (emitter s' e') = if decide (e' = e) then Some v else got (emitter s e')) ->
      upd_view s s'
  | upd_won e type v : got (emitter s e) = None -> _state s' = Z.lor (_state s) type ->
      (forall n, 0 <= n < 32 ->
         Z.testbit v n = Z.testbit type n && negb (Z.testbit (_state s) n)) ->
      (forall e', got (emitter s' e') = if decide (e' = e) then Some v else got (emitter s e')) ->
      upd_view s s'.

Lemma upd_same_emitter e p s0 s :
  _state s0 = _state s -> (forall e', emitter s0 e' = emitter s e') ->
  got p = got (emitter s e) -> upd_view s (upd_emitter e p s0).
Proof.
  intros Hs He Hp. apply upd_same; [done |]. intros e'. simpl.
  rewrite fn_insert_case. case_decide; subst; by rewrite ?He.
Qed.

Lemma invoke_view e v state i ms s :
  got (emitter s e) = Some v -> upd_view s (invoke e v state i ms s).
Proof. intros Hv. unfold invoke. repeat case_match; by apply upd_same_emitter. Qed.

Lemma emit_step_view e sp s s' : emit_step e sp s = Some s' -> upd_view s s'.
Proof.
  unfold emit_step. intros H. destruct (emitter s e) eqn:Ee; simplify_eq.
  - by apply upd_same_emitter; rewrite ?Ee.
  - destruct (validSignal expected type =? 0) eqn:Hv.
    + apply Z.eqb_eq in Hv. simplify_eq.
      apply (upd_none _ _ e (emitted (validSignal expected type) type)); [by rewrite Ee | done | |].
      * intros n Hn. rewrite emitted_bit by done. by rewrite Hv, Z.bits_0.
      * intros e'. simpl. rewrite fn_insert_case. case_decide; [|done]. by case_match.
    + case_match eqn:Hc; simplify_eq; [|by apply upd_same_emitter; rewrite ?Ee].
      apply andb_true_iff in Hc as [_ Hc%Z.eqb_eq].
      apply (upd_won _ _ e type (emitted (validSignal expected type) type)); [by rewrite Ee | | |].
      * simpl. by rewrite Hc.
      * intros n Hn. rewrite emitted_bit, validSignal_bit by lia. by rewrite Hc.
      * intros e'. simpl. rewrite fn_insert_case. by case_decide.
  - by apply upd_same_emitter; rewrite ?Ee.
  - by apply upd_same_emitter; rewrite ?Ee.
  - repeat case_match; by apply upd_same_emitter; rewrite ?Ee.
  - repeat case_match; simplify_eq; try (by apply upd_same_emitter; rewrite ?Ee).
    apply invoke_view. by rewrite Ee.
  - repeat case_match; simplify_eq; by apply upd_same_emitter; rewrite ?Ee.
Qed.

Lemma slot_step_emitter s s' :
  slot_step s = Some s' -> _state s' = _state s /\ emitter s' = emitter s.
Proof. unfold slot_step, reject. intros. repeat case_match; simplify_eq; done. Qed.

Lemma sig_step_view limit keep l s s' : sig_step limit keep l s = Some s' -> upd_view s s'.
Proof.
  intros H. destruct l; simpl in H.
  - destruct (emitter s e) eqn:Ee; try done. case_match; simplify_eq. case_match.
    + apply (upd_none _ _ e 0); [by rewrite Ee | done | by intros; rewrite Z.bits_0 |].
      intros e'. simpl. rewrite fn_insert_case. by case_decide.
    + by apply upd_same_emitter; rewrite ?Ee.
  - by eapply emit_step_view.
  - repeat case_match; simplify_eq; by apply upd_same.
  - repeat case_match; simplify_eq; by apply upd_same.
  - repeat case_match; simplify_eq; by apply upd_same.
  - repeat case_match; simplify_eq; by apply upd_same.
  - apply slot_step_emitter in H as [Hs He]. apply upd_same; [done |]. by rewrite He.
Qed.

Definition winner (s : sig) (n : Z) (e : nat) : Prop :=
  exists v, got (emitter s e) = Some v /\ Z.testbit v n = true.

Definition inv_win (s : sig) : Prop :=
  forall n, 0 <= n < 32 ->
    (Z.testbit (_state s) n = true <-> exists e, winner s n e) /\
    (forall e e', winner s n e -> winner s n e' -> e = e').

(** The winners after a thread [e], which had no result, has got [v]. *)
Lemma winner_view s s' e v n :
  got (emitter s e) = None ->
  (forall e', got (emitter s' e') = if decide (e' = e) then Some v else got (emitter s e')) ->
  forall e', winner s' n e' <-> winner s n e' \/ (e' = e /\ Z.testbit v n = true).
Proof.
  intros Hn Hg e'. unfold winner. rewrite Hg. case_decide; [subst; rewrite Hn | ]; naive_solver.
Qed.

Lemma inv_win_view s s' : inv_win s -> upd_view s s' -> inv_win s'.
Proof.
  intros HI HV n Hn. destruct (HI n Hn) as [H1 H2].
  destruct HV as [Hs Hg|e v Hno Hs Hv Hg|e ty v Hno Hs Hv Hg].
  - unfold winner in *. setoid_rewrite Hg. by rewrite Hs.
  - assert (forall e', winner s' n e' <-> winner s n e') as Hw.
    { intros e'. rewrite (winner_view _ _ _ _ _ Hno Hg), (Hv n Hn). naive_solver. }
    setoid_rewrite Hw. by rewrite Hs.
  - setoid_rewrite (winner_view _ _ _ _ _ Hno Hg). rewrite Hs, Z.lor_spec, orb_true_iff.
    rewrite (Hv n Hn). destruct (Z.testbit (_state s) n) eqn:Eb.
    + rewrite andb_false_r. naive_solver.
    + assert (forall e', ~ winner s n e') as Hno' by (intros e' He'; naive_solver).
      rewrite andb_true_r. naive_solver.
Qed.

Lemma sig_winners limit keep : invariant (sig_lts limit keep) inv_win.
Proof.
  apply invariant_ind.
  - intros s -> n Hn. simpl. rewrite Z.bits_0. split.
    + split; [done |]. by intros (e & v & Hv & _).
    + by intros e e' (v & Hv & _).
  - intros s s' HI [l Hl]. eapply inv_win_view; [done |]. by eapply sig_step_view.
Qed.

(** ** The life of a one-shot handler *)

(** The handler an [emplace] in progress has allocated, and the type it or a
    [clear] is about. *)
Definition held (p : spc) : option nat :=
  match p with
  | SLoadHandler h _ | SState h _ | SRead h _ | SCas h _ _ => Some h
  | _ => None
  end.

Definition about (p : spc) : option Z :=
  match p with
  | SLoadHandler _ t | SState _ t | SRead _ t | SCas _ t _
  | SClearFind t | SClearRead t | SClearCas t _ => Some t
  | _ => None
  end.

Definition called (s : sig) : list nat := fst <$> calls s.

Definition emitter_ok (p : epc) : Prop :=
  match p with ECall _ _ _ _ _ | EBroken _ => False | _ => True end.

Definition slot_ok (p : spc) : Prop :=
  match p with SBroken => False | SCas _ _ old => old <> EmittedTag | _ => True end.

(** What the invariant says of the fields that hold handlers. *)
Record mem_ok (cl : nat -> cell) (hs : nat -> mem) (cd : list nat)
    (an : list (nat * bool)) (cr : list nat) (hd : option nat) : Prop := {
  mem_cell : forall i h, cl i = Handler h -> hs h = Alive /\ (i < 32)%nat;
  mem_inj : forall i j h, cl i = Handler h -> cl j = Handler h -> i = j;
  mem_held : forall h, hd = Some h -> hs h = Alive /\ (forall i, cl i <> Handler h) /\
    h ∉ an.*1;
  mem_called : NoDup cd /\ forall h, h ∈ cd -> hs h = Deleted;
  mem_dead : forall h, h ∈ cr \/ (h, false) ∈ an -> hs h = Deleted /\ h ∉ cd;
  mem_live : forall h, (h, true) ∈ an -> (exists i, cl i = Handler h) \/ h ∈ cd \/ h ∈ cr;
  mem_answers : NoDup an.*1 /\ forall h, h ∈ an.*1 -> hs h <> Unborn;
  mem_cleared : forall h, h ∈ cr -> (h, true) ∈ an;
  mem_cells_answered : forall i h, cl i = Handler h -> (h, true) ∈ an;
  mem_called_answered : forall h, h ∈ cd -> (h, true) ∈ an;
}.

Record inv_mem (s : sig) : Prop := {
  im_mem : mem_ok (cells s) (handlers s) (called s) (answers s) (cleared s) (held (slot s));
  im_about : forall t, about (slot s) = Some t -> (countr_zero t < 32)%nat;
  im_emitter : forall e, emitter_ok (emitter s e);
  im_slot : slot_ok (slot s);
}.

Ltac mem_split H := destruct H as [M1 M2 M3 [M4 M5] M6 M7 [M8 M9] M10 M11 M12].

Lemma not_alive_deleted (m : mem) : m = Alive -> m = Deleted -> False.
Proof. congruence. Qed.

Lemma mem_alloc cl hs cd an cr h :
  mem_ok cl hs cd an cr None -> hs h = Unborn -> mem_ok cl (<[h := Alive]> hs) cd an cr (Some h).
Proof.
  intros H Hh. mem_split H. split.
  - intros i h' Hi. rewrite fn_insert_case. case_decide; [split; [done |]|];
      destruct (M1 i h' Hi); done.
  - done.
  - intros h' [= <-]. rewrite fn_lookup_insert. split; [done |]. split.
    + intros i Hi. destruct (M1 i h Hi). congruence.
    + intros Hin. by apply (M9 h).
  - split; [done |]. intros h' Hin. rewrite fn_insert_case. case_decide; [|by apply M5].
    subst. specialize (M5 h Hin). congruence.
  - intros h' Hin. destruct (M6 h' Hin) as [Hd Hnc]. rewrite fn_insert_case.
    case_decide; [subst; congruence | done].
  - done.
  - split; [done |]. intros h' Hin. rewrite fn_insert_case. case_decide; [done | by apply M9].
  - done.
  - done.
  - done.
Qed.

Lemma mem_reject cl hs cd an cr h :
  mem_ok cl hs cd an cr (Some h) ->
  mem_ok cl (<[h := Deleted]> hs) cd (an ++ [(h, false)]) cr None.
Proof.
  intros H. mem_split H. destruct (M3 h eq_refl) as (Ha & Hc & Han). split.
  - intros i h' Hi. rewrite fn_insert_case. case_decide; [subst; by destruct (Hc i) | by apply M1].
  - done.
  - done.
  - split; [done |]. intros h' Hin. rewrite fn_insert_case. case_decide; [done | by apply M5].
  - intros h' Hin. rewrite elem_of_app, list_elem_of_singleton in Hin. rewrite fn_insert_case.
    case_decide as Hd; [subst | naive_solver].
    split; [done |]. intros Hin'. specialize (M5 h Hin'). congruence.
  - intros h'. rewrite elem_of_app, list_elem_of_singleton. naive_solver.
  - rewrite fmap_app. split.
    + apply NoDup_app. split_and!; [done | | apply NoDup_singleton].
      by intros x Hx ->%list_elem_of_singleton.
    + intros h' Hin. rewrite fn_insert_case. case_decide; [done |]. apply M9.
      apply elem_of_app in Hin as [Hin | Hin]; [done |]. by apply list_elem_of_singleton in Hin.
  - intros h' Hin. apply elem_of_app. left. by apply M10.
  - intros i h' Hi. apply elem_of_app. left. by eapply M11.
  - intros h' Hin. apply elem_of_app. left. by apply M12.
Qed.

(** Any change of a cell that holds no handler to one that holds none. *)
Lemma mem_cell_drop cl hs cd an cr hd i c :
  mem_ok cl hs cd an cr hd -> (forall h, cl i <> Handler h) -> (forall h, c <> Handler h) ->
  mem_ok (<[i := c]> cl) hs cd an cr hd.
Proof.
  intros H Hi Hc. mem_split H.
  assert (forall j h, (<[i := c]> cl) j = Handler h -> cl j = Handler h) as Hj.
  { intros j h. rewrite fn_insert_case. case_decide; [subst; intros; by destruct (Hc h) | done]. }
  split; try done; eauto.
  - intros h Hh. destruct (M3 h Hh) as (? & Hn & ?). split_and!; try done.
    intros j Hj'. by apply Hj, Hn in Hj'.
  - intros h Hin. destruct (M7 h Hin) as [[j Hj'] | ?]; [|by right].
    left. exists j. rewrite fn_insert_case. case_decide; [subst; by destruct (Hi h) | done].
Qed.

(** A handler leaves its cell: it is called, or it is cleared. *)
Lemma mem_call cl hs cd an cr hd i c h :
  mem_ok cl hs cd an cr hd -> cl i = Handler h -> (forall h, c <> Handler h) ->
  mem_ok (<[i := c]> cl) (<[h := Deleted]> hs) (cd ++ [h]) an cr hd.
Proof.
  intros H Hi Hc. mem_split H. destruct (M1 i h Hi) as [Ha _].
  assert (forall j h', (<[i := c]> cl) j = Handler h' -> cl j = Handler h' /\ h' <> h) as Hj.
  { intros j h'. rewrite fn_insert_case. case_decide; [intros; by destruct (Hc h') |].
    intros Hj. split; [done |]. intros ->. by rewrite (M2 i j h Hi Hj) in *. }
  split.
  - intros j h' [Hj' Hne]%Hj. rewrite fn_lookup_insert_ne by done. by apply M1.
  - intros j k h' [Hj' _]%Hj [Hk' _]%Hj. by eapply M2.
  - intros h' Hh'. destruct (M3 h' Hh') as (? & Hn & ?).
    rewrite fn_insert_case. case_decide; [subst; by destruct (Hn i) |].
    split_and!; try done. intros j [Hj' _]%Hj. by destruct (Hn j).
  - split.
    + apply NoDup_app. split_and!; [done | | apply NoDup_singleton].
      intros x Hx ->%list_elem_of_singleton. specialize (M5 h Hx). congruence.
    + intros h'. rewrite elem_of_app, list_elem_of_singleton, fn_insert_case.
      case_decide; [done |]. intros [? | ?]; [by apply M5 | done].
  - intros h' Hin. destruct (M6 h' Hin) as [Hd Hnc]. rewrite fn_insert_case.
    assert (h' <> h) by congruence. rewrite decide_False by done. split; [done |].
    rewrite elem_of_app, list_elem_of_singleton. tauto.
  - intros h' Hin. rewrite elem_of_app, list_elem_of_singleton.
    destruct (M7 h' Hin) as [[j Hj'] | [? | ?]]; auto.
    destruct (decide (h' = h)); [auto |]. left. exists j. rewrite fn_insert_case.
    case_decide; [subst; congruence | done].
  - split; [done |]. intros h' Hin. rewrite fn_insert_case. case_decide; [done | by apply M9].
  - done.
  - intros j h' [Hj' _]%Hj. by eapply M11.
  - intros h'. rewrite elem_of_app, list_elem_of_singleton. intros [? | ->]; [by apply M12 |].
    by eapply M11.
Qed.

Lemma mem_clear cl hs cd an cr hd i c h :
  mem_ok cl hs cd an cr hd -> cl i = Handler h -> (forall h, c <> Handler h) ->
  mem_ok (<[i := c]> cl) (<[h := Deleted]> hs) cd an (cr ++ [h]) hd.
Proof.
  intros H Hi Hc. mem_split H. destruct (M1 i h Hi) as [Ha _].
  assert (forall j h', (<[i := c]> cl) j = Handler h' -> cl j = Handler h' /\ h' <> h) as Hj.
  { intros j h'. rewrite fn_insert_case. case_decide; [intros; by destruct (Hc h') |].
    intros Hj. split; [done |]. intros ->. by rewrite (M2 i j h Hi Hj) in *. }
  assert (h ∉ cd) as Hncd by (intros Hin; specialize (M5 h Hin); congruence).
  split.
  - intros j h' [Hj' Hne]%Hj. rewrite fn_lookup_insert_ne by done. by apply M1.
  - intros j k h' [Hj' _]%Hj [Hk' _]%Hj. by eapply M2.
  - intros h' Hh'. destruct (M3 h' Hh') as (? & Hn & ?).
    rewrite fn_insert_case. case_decide; [subst; by destruct (Hn i) |].
    split_and!; try done. intros j [Hj' _]%Hj. by destruct (Hn j).
  - split; [done |]. intros h' Hin. rewrite fn_insert_case. case_decide; [done | by apply M5].
  - intros h'. rewrite elem_of_app, list_elem_of_singleton, fn_insert_case.
    intros Hin. case_decide; [by subst |]. apply M6. tauto.
  - intros h' Hin. rewrite elem_of_app, list_elem_of_singleton.
    destruct (M7 h' Hin) as [[j Hj'] | [? | ?]]; auto.
    destruct (decide (h' = h)); [auto |]. left. exists j. rewrite fn_insert_case.
    case_decide; [subst; congruence | done].
  - split; [done |]. intros h' Hin. rewrite fn_insert_case. case_decide; [done | by apply M9].
  - intros h'. rewrite elem_of_app, list_elem_of_singleton. intros [? | ->]; [by apply M10 |].
    by eapply M11.
  - intros j h' [Hj' _]%Hj. by eapply M11.
  - done.
Qed.

(** A new handler is installed in a cell that holds none. *)
Lemma mem_install cl hs cd an cr i h :
  mem_ok cl hs cd an cr (Some h) -> (forall h, cl i <> Handler h) -> (i < 32)%nat ->
  mem_ok (<[i := Handler h]> cl) hs cd (an ++ [(h, true)]) cr None.
Proof.
  intros H Hi Hlt. mem_split H. destruct (M3 h eq_refl) as (Ha & Hn & Han).
  assert (forall j h', (<[i := Handler h]> cl) j = Handler h' ->
    (j = i /\ h' = h) \/ (cl j = Handler h' /\ h' <> h /\ j <> i)) as Hj.
  { intros j h'. rewrite fn_insert_case. case_decide; [naive_solver |].
    intros Hj. right. split_and!; [done | | done]. intros ->. by destruct (Hn j). }
  split.
  - intros j h' [[-> ->] | (Hj' & _)]%Hj; [done | by apply M1].
  - intros j k h' Hj1 Hk1. apply Hj in Hj1. apply Hj in Hk1. naive_solver.
  - done.
  - done.
  - intros h'. rewrite elem_of_app, list_elem_of_singleton. naive_solver.
  - intros h'. rewrite elem_of_app, list_elem_of_singleton.
    intros [Hin | [= ->]]; [|left; exists i; by rewrite fn_lookup_insert].
    destruct (M7 h' Hin) as [[j Hj'] | ?]; [|auto]. left. exists j.
    rewrite fn_insert_case. case_decide; [subst; by destruct (Hi h') | done].
  - rewrite fmap_app. split.
    + apply NoDup_app. split_and!; [done | | apply NoDup_singleton].
      by intros x Hx ->%list_elem_of_singleton.
    + intros h' Hin. apply elem_of_app in Hin as [Hin | ->%list_elem_of_singleton];
        [by apply M9 | simpl; congruence].
  - intros h' Hin. apply elem_of_app. left. by apply M10.
  - intros j h' [[-> ->] | (Hj' & _)]%Hj; apply elem_of_app; [right; by left |].
    left. by eapply M11.
  - intros h' Hin. apply elem_of_app. left. by apply M12.
Qed.

Lemma mem_ok_ext cl cl' hs cd an cr hd :
  (forall i, cl' i = cl i) -> mem_ok cl hs cd an cr hd -> mem_ok cl' hs cd an cr hd.
Proof.
  intros He H. mem_split H. split; repeat setoid_rewrite He; done.
Qed.

(** The new handler replaces the one that was there. *)
Lemma mem_replace cl hs cd an cr i h h0 :
  mem_ok cl hs cd an cr (Some h) -> cl i = Handler h0 -> (i < 32)%nat ->
  mem_ok (<[i := Handler h]> cl) (<[h0 := Deleted]> hs) cd (an ++ [(h, true)]) (cr ++ [h0]) None.
Proof.
  intros H Hi Hlt.
  apply (mem_ok_ext (<[i := Handler h]> (<[i := Empty]> cl))).
  { intros j. rewrite !fn_insert_case. by case_decide. }
  apply mem_install; [by apply mem_clear | | done].
  intros h'. by rewrite fn_lookup_insert.
Qed.

(** [invoke] at a manager of a one-shot signal. *)
Lemma shift_not_multi i : (i < 32)%nat -> isMultiTriggerSignal (Z.shiftl 1 (Z.of_nat i)) = false.
Proof.
  intros Hi. unfold isMultiTriggerSignal, MinMultiTriggerSignal. rewrite !Z.shiftl_1_l.
  apply Z.leb_gt. apply Z.pow_lt_mono_r; lia.
Qed.

Lemma inv_mem_emitter e p s :
  emitter_ok p -> inv_mem s -> inv_mem (upd_emitter e p s).
Proof.
  intros Hp [H1 H2 H3 H4]. split; try done. intros e'. simpl. rewrite fn_insert_case.
  by case_decide.
Qed.

Lemma inv_mem_invoke e v state i ms s : inv_mem s -> inv_mem (invoke e v state i ms s).
Proof.
  intros HI. pose proof HI as [H1 H2 H3 H4]. unfold invoke.
  destruct (cells s i) as [|h|] eqn:Ei.
  - case_match; [by apply inv_mem_emitter |]. apply inv_mem_emitter; [done |].
    split; try done. by apply mem_cell_drop; [| intros; congruence |].
  - destruct (mem_cell _ _ _ _ _ _ H1 i h Ei) as [Ha Hi]. rewrite shift_not_multi, Ha by done.
    apply inv_mem_emitter; [done |]. split; try done. simpl. unfold called. simpl.
    rewrite fmap_app. by apply mem_call.
  - case_match; [by apply inv_mem_emitter |]. apply inv_mem_emitter; [done |].
    split; try done. by apply mem_cell_drop; [| intros; congruence |].
Qed.

Lemma inv_mem_emit e sp s s' : inv_mem s -> emit_step e sp s = Some s' -> inv_mem s'.
Proof.
  intros HI. unfold emit_step. destruct (emitter s e) eqn:Ee; intros; simplify_eq.
  - by apply inv_mem_emitter.
  - repeat case_match; simplify_eq; apply inv_mem_emitter; try done;
      by destruct HI; split.
  - by apply inv_mem_emitter.
  - by apply inv_mem_emitter.
  - repeat case_match; apply inv_mem_emitter; try done; by destruct HI; split.
  - repeat case_match; simplify_eq; try (by apply inv_mem_emitter). by apply inv_mem_invoke.
  - pose proof (im_emitter _ HI e) as Hok. by rewrite Ee in Hok.
Qed.

(** The owner moves without touching a handler. *)
Lemma inv_mem_slot p s :
  inv_mem s -> held p = held (slot s) -> about p = about (slot s) \/ about p = None ->
  slot_ok p -> inv_mem (upd_slot p s).
Proof.
  intros [H1 H2 H3 H4] Hh Ha Hp. split; try done; simpl; [by rewrite Hh |].
  intros t Ht. destruct Ha as [Ha | Ha]; apply H2; congruence.
Qed.

Lemma inv_mem_reject h t s :
  inv_mem s -> held (slot s) = Some h -> about (slot s) = Some t -> inv_mem (reject h s).
Proof.
  intros [H1 H2 H3 H4] Hh Ha. rewrite Hh in H1. split; try done. by apply mem_reject.
Qed.

Lemma inv_mem_install h t old s :
  inv_mem s -> slot s = SCas h t old -> cells s (countr_zero t) = old ->
  match slot_step s with Some s' => inv_mem s' | None => False end.
Proof.
  intros [H1 H2 H3 H4] Hs Hc. unfold slot_step. rewrite Hs, Hc in *. rewrite decide_True by done.
  assert (countr_zero t < 32)%nat as Hlt by (by apply H2).
  destruct old as [|h0|]; [| |done].
  - split; try done. apply mem_install; [done | | done]. intros. congruence.
  - destruct (mem_cell _ _ _ _ _ _ H1 _ h0 Hc) as [-> _]. split; try done.
    by apply mem_replace.
Qed.

Lemma inv_mem_slot_step s s' : inv_mem s -> slot_step s = Some s' -> inv_mem s'.
Proof.
  intros HI Hstep. pose proof HI as [H1 H2 H3 H4].
  destruct (slot s) as [|h t|h t|h t|h t old|t|t|t old|] eqn:Es.
  - by unfold slot_step in Hstep; rewrite Es in Hstep.
  - unfold slot_step in Hstep. rewrite Es in Hstep. simplify_eq.
    case_decide; (apply inv_mem_slot; simpl; rewrite ?Es; [| done | auto | done]);
      [done | split; simpl; rewrite ?Es; done].
  - unfold slot_step in Hstep. rewrite Es in Hstep. simplify_eq. case_match.
    + eapply inv_mem_reject; by rewrite ?Es.
    + apply inv_mem_slot; rewrite ?Es; auto.
  - unfold slot_step in Hstep. rewrite Es in Hstep. simplify_eq. case_decide.
    + eapply inv_mem_reject; by rewrite ?Es.
    + apply inv_mem_slot; rewrite ?Es; auto.
  - destruct (decide (cells s (countr_zero t) = old)) as [Hc|Hc].
    + pose proof (inv_mem_install h t old s HI Es Hc) as Hi. by rewrite Hstep in Hi.
    + unfold slot_step in Hstep. rewrite Es, decide_False in Hstep by done. simplify_eq.
      eapply inv_mem_reject; by rewrite ?Es.
  - unfold slot_step in Hstep. rewrite Es in Hstep. simplify_eq.
    case_decide; apply inv_mem_slot; rewrite ?Es; auto.
  - unfold slot_step in Hstep. rewrite Es in Hstep. simplify_eq.
    case_match; apply inv_mem_slot; rewrite ?Es; auto; done.
  - unfold slot_step in Hstep. rewrite Es in Hstep. simplify_eq.
    case_decide as Hc; [| apply inv_mem_slot; rewrite ?Es; auto].
    destruct (mem_cell _ _ _ _ _ _ H1 _ old Hc) as [-> _]. split; try done.
    by apply mem_clear.
  - done.
Qed.

Lemma below_limit t :
  is_word t = true -> popcount t = 1%nat -> t < 2 ^ 32 -> (countr_zero t < 32)%nat.
Proof.
  intros Hw Hp Hlt. destruct (one_bit t Hw Hp) as [_ Ht]. rewrite Ht in Hlt.
  rewrite Z.shiftl_1_l in Hlt. apply Z.pow_lt_mono_r_iff in Hlt; lia.
Qed.

Lemma inv_mem_step keep l s s' :
  inv_mem s -> sig_step (2 ^ 32) keep l s = Some s' -> inv_mem s'.
Proof.
  intros HI Hstep. pose proof HI as [H1 H2 H3 H4]. destruct l; simpl in Hstep.
  - repeat case_match; simplify_eq; by apply inv_mem_emitter.
  - by eapply inv_mem_emit.
  - destruct (slot s) eqn:Es; try done. destruct (handlers s h) eqn:Eh; try done.
    case_match eqn:Hc; [|done]. apply andb_true_iff in Hc as [Hw Hlt%Z.ltb_lt].
    case_decide as Hp; simplify_eq; [|by rewrite ?Es].
    split; simpl; try done; [by apply mem_alloc | intros t [= <-]; by apply below_limit].
  - destruct (slot s) eqn:Es; try done. case_match eqn:Hc; [|done].
    apply andb_true_iff in Hc as [Hw Hlt%Z.ltb_lt].
    case_decide as Hp; simplify_eq; [|by rewrite ?Es].
    split; simpl; try done. intros t [= <-]. by apply below_limit.
  - repeat case_match; simplify_eq. split; simpl; try done; by rewrite Heqs0 || rewrite ?H.
  - repeat case_match; simplify_eq. split; simpl; try done; by rewrite Heqs0 || rewrite ?H.
  - by eapply inv_mem_slot_step.
Qed.

Lemma sig_mem keep : invariant (sig_lts (2 ^ 32) keep) inv_mem.
Proof.
  apply invariant_ind.
  - intros s ->. split; try done. split; try done; simpl; try set_solver.
    + split; [constructor | set_solver].
    + split; [constructor | set_solver].
  - intros s s' HI [l Hl]. by eapply inv_mem_step.
Qed.

(** ** No signal is lost *)

Section Coverage.
Context (keep : Z) (b : nat) (Hb : (b < 32)%nat) (Hkeep : Z.testbit keep (Z.of_nat b) = true).
#[local] Abbreviation bit z := (Z.testbit z (Z.of_nat b)).

(** The thread is going to visit the handler of signal [b]. *)
Definition covers (p : epc) : Prop :=
  match p with
  | EFilter v => bit v = true
  | EManagers _ state => bit state = true
  | EChained _ state ms | EWalk _ state ms => bit state = true /\ b ∈ ms
  | _ => False
  end.

(** A handler for [b] is installed, or an [emplace] that has passed the check of
    the signal's state may install one. *)
Definition exposed (s : sig) : Prop :=
  (exists h, cells s b = Handler h) \/
  match slot s with
  | SRead _ t | SCas _ t _ => countr_zero t = b
  | _ => False
  end.

Record inv_cov (s : sig) : Prop := {
  cov_filter : bit (_filter s) = true;
  cov_managers : forall i h, cells s i = Handler h -> i ∈ managers s;
  cov_slot : match slot s with
    | SState _ t | SRead _ t | SCas _ t _ => countr_zero t ∈ managers s
    | _ => True
    end;
  cov_type : forall t, about (slot s) = Some t ->
    t = Z.shiftl 1 (Z.of_nat (countr_zero t)) /\ (countr_zero t < 32)%nat;
  cov_covered : bit (_state s) = true -> exposed s ->
    cells s b = EmittedTag \/ exists e, covers (emitter s e);
}.

Lemma exposed_managers s : inv_cov s -> exposed s -> b ∈ managers s.
Proof.
  intros [_ H2 H3 _ _] [[h Hh] | Hs]; [by eapply H2 |]. destruct (slot s); try done; by subst.
Qed.

Lemma lxor_other i state :
  i <> b -> bit (Z.lxor state (Z.shiftl 1 (Z.of_nat i))) = bit state.
Proof.
  intros Hi. rewrite Z.lxor_spec, Z.shiftl_1_l, Z.pow2_bits_false by lia.
  by rewrite xorb_false_r.
Qed.

(** A turn of the walk: the thread still covers [b], or it has marked it. *)
Lemma invoke_covers e v state i ms s :
  inv_mem s -> bit state = true -> b ∈ i :: ms ->
  covers (emitter (invoke e v state i ms s) e) \/
  cells (invoke e v state i ms s) b = EmittedTag.
Proof.
  intros HI Hs Hin. unfold invoke. destruct (decide (i = b)) as [->|Hne].
  - rewrite shift_not_multi by done. right. destruct (cells s b) as [|h|] eqn:Ec.
    + simpl. by rewrite fn_lookup_insert.
    + destruct (mem_cell _ _ _ _ _ _ (im_mem _ HI) _ _ Ec) as [-> _]. simpl.
      by rewrite fn_lookup_insert.
    + simpl. by rewrite fn_lookup_insert.
  - apply elem_of_cons in Hin as [? | Hin]; [done |]. left.
    destruct (cells s i) as [|h|] eqn:Ec.
    + case_match; simpl; rewrite fn_lookup_insert; simpl; by rewrite lxor_other.
    + destruct (mem_cell _ _ _ _ _ _ (im_mem _ HI) _ _ Ec) as [-> Hi].
      rewrite shift_not_multi by done. simpl. rewrite fn_lookup_insert. simpl.
      by rewrite lxor_other.
    + case_match; simpl; rewrite fn_lookup_insert; simpl; by rewrite lxor_other.
Qed.

Lemma emit_step_covers e sp s s' :
  inv_mem s -> bit (_filter s) = true -> b ∈ managers s -> emit_step e sp s = Some s' ->
  covers (emitter s e) -> covers (emitter s' e) \/ cells s' b = EmittedTag.
Proof.
  intros HI Hf Hm. unfold emit_step. destruct (emitter s e) eqn:Ee; simpl; intros Hstep Hc;
    simplify_eq; try done.
  - left. simpl. rewrite fn_lookup_insert. simpl. by rewrite Z.land_spec, Hc, Hf.
  - left. simpl. rewrite fn_lookup_insert. simpl. done.
  - left. simpl. rewrite fn_lookup_insert. simpl. done.
  - destruct Hc as [Hbit Hin].
    destruct (state =? 0) eqn:E0; [apply Z.eqb_eq in E0; subst; by rewrite Z.bits_0 in Hbit |].
    destruct ms as [|i ms]; [by apply not_elem_of_nil in Hin |].
    destruct (meets _ _) eqn:Hmt; simplify_eq; [by apply invoke_covers |].
    left. simpl. rewrite fn_lookup_insert. split; [done |].
    apply elem_of_cons in Hin as [<- | ?]; [|done].
    rewrite meets_bit in Hmt by lia. congruence.
Qed.

(** What a step of [emits] changes besides: cells may be marked, and bits set by
    a thread that then covers them. *)
Lemma emit_step_rest e sp s s' :
  emit_step e sp s = Some s' ->
  _filter s' = _filter s /\ managers s' = managers s /\ slot s' = slot s /\
  (forall i h, cells s' i = Handler h -> cells s i = Handler h) /\
  (cells s b = EmittedTag -> cells s' b = EmittedTag) /\
  (forall e', e' <> e -> emitter s' e' = emitter s e') /\
  (bit (_state s') = true -> bit (_state s) = true \/ covers (emitter s' e)).
Proof.
  assert (forall i, (forall j h, (<[i := EmittedTag]> (cells s)) j = Handler h ->
    cells s j = Handler h) /\
    (cells s b = EmittedTag -> (<[i := EmittedTag]> (cells s)) b = EmittedTag)) as Hcell.
  { intros i. split; [intros j h|]; rewrite fn_insert_case; by case_decide. }
  unfold emit_step, invoke. intros Hstep.
  destruct (emitter s e) eqn:Ee; repeat case_match; simplify_eq; simpl;
    split_and!; try done; try (by apply Hcell); try (by left);
    try (by intros; rewrite fn_lookup_insert_ne); try tauto.
  rewrite fn_lookup_insert. simpl. rewrite Z.lor_spec, emitted_bit, validSignal_bit by lia.
  destruct (bit expected) eqn:E1; [|by rewrite andb_true_r; auto]. intros _. left. rename select (negb sp && _ = true) into Hs.
  apply andb_true_iff in Hs as [_ Hs%Z.eqb_eq]. by rewrite Hs.
Qed.

Lemma inv_cov_emit e sp s s' :
  inv_mem s -> inv_cov s -> emit_step e sp s = Some s' -> inv_cov s'.
Proof.
  intros HM HC Hstep.
  destruct (emit_step_rest _ _ _ _ Hstep) as (Hf & Hm & Hs & Hcl & Htag & He & Hst).
  pose proof (exposed_managers _ HC) as Hexp. pose proof HC as [H1 H2 H3 H4 H5].
  split; rewrite ?Hf, ?Hm, ?Hs; try done; eauto.
  intros Hbit Hex.
  assert (exposed s) as Hex0.
  { destruct Hex as [[h Hh%Hcl] | Hex]; [left; eauto | right; by rewrite <- Hs]. }
  destruct (Hst Hbit) as [Hbit0 | Hcov]; [|by right; exists e].
  destruct (H5 Hbit0 Hex0) as [Htag0 | [e' He']]; [left; auto |].
  destruct (decide (e' = e)) as [->|Hne]; [|right; exists e'; by rewrite He].
  destruct (emit_step_covers _ _ _ _ HM H1 (Hexp Hex0) Hstep He'); [right; by exists e | by left].
Qed.

(** A move of the owner that installs nothing. *)
Lemma inv_cov_move p s s' :
  inv_cov s -> slot s' = p -> _state s' = _state s -> bit (_filter s') = true ->
  emitter s' = emitter s ->
  (forall i, i ∈ managers s -> i ∈ managers s') ->
  (forall i h, cells s' i = Handler h -> cells s i = Handler h) ->
  (cells s b = EmittedTag -> cells s' b = EmittedTag) ->
  match p with
  | SState _ t | SRead _ t | SCas _ t _ => countr_zero t ∈ managers s'
  | _ => True
  end ->
  (forall t, about p = Some t ->
    t = Z.shiftl 1 (Z.of_nat (countr_zero t)) /\ (countr_zero t < 32)%nat) ->
  (bit (_state s) = true -> exposed s' -> exposed s) ->
  inv_cov s'.
Proof.
  intros [H1 H2 H3 H4 H5] Hp Hst Hf He Hm Hcl Htag Hpm Hpt Hex.
  split; rewrite ?Hp, ?Hst, ?He; try done; eauto.
  intros Hbit Hx. destruct (H5 Hbit (Hex Hbit Hx)); auto.
Qed.

Lemma inv_cov_idle s s' :
  inv_cov s -> about (slot s') = None -> _state s' = _state s -> _filter s' = _filter s ->
  emitter s' = emitter s -> managers s' = managers s ->
  (forall i h, cells s' i = Handler h -> cells s i = Handler h) ->
  (cells s b = EmittedTag -> cells s' b = EmittedTag) ->
  inv_cov s'.
Proof.
  intros HC Hp Hst Hf He Hm Hcl Htag. pose proof HC as [H1 H2 H3 H4 H5].
  apply (inv_cov_move (slot s') s); try done.
  - by rewrite Hf.
  - by rewrite Hm.
  - by destruct (slot s').
  - by rewrite Hp.
  - intros _ [[h Hh%Hcl] | Hx]; [left; by exists h |]. by destruct (slot s').
Qed.

(** [emplace] installs its handler in a cell that it has read before. *)
Lemma inv_cov_install h t old s s' :
  inv_cov s -> slot s = SCas h t old -> old <> EmittedTag ->
  cells s (countr_zero t) = old -> slot s' = SIdle ->
  _state s' = _state s -> _filter s' = _filter s -> emitter s' = emitter s ->
  managers s' = managers s ->
  cells s' = <[countr_zero t := Handler h]> (cells s) ->
  inv_cov s'.
Proof.
  intros [H1 H2 H3 H4 H5] Es Hold Hc Hs' Hst Hf He Hm Hcl.
  unfold exposed in H5. rewrite Es in *. unfold exposed.
  split; unfold exposed; rewrite ?Hs', ?Hst, ?Hf, ?He, ?Hm, ?Hcl; try done.
  - intros i h'. rewrite fn_insert_case. case_decide; [by subst | apply H2].
  - intros Hbit [[h' Hh'] | []]. revert Hh'. rewrite fn_insert_case.
    case_decide as Hi; intros Hh'; [|destruct (H5 Hbit); [by left; exists h' | | by right]; congruence].
    destruct (H5 Hbit) as [Htag | ?]; [by right | congruence | by right].
Qed.

Lemma inv_cov_slot s s' :
  inv_mem s -> inv_cov s -> slot_step s = Some s' -> inv_cov s'.
Proof.
  intros HM HC Hstep. pose proof HC as [H1 H2 H3 H4 H5]. pose proof (im_slot _ HM) as Hok.
  unfold slot_step, reject in Hstep.
  assert (forall i, (forall j h, (<[i := Empty]> (cells s)) j = Handler h -> cells s j = Handler h))
    as Hempty by (intros i j h; rewrite fn_insert_case; by case_decide).
  destruct (slot s) as [|h t|h t|h t|h t old|t|t|t old|] eqn:Es; simplify_eq.
  - apply (inv_cov_move (SState h t) s); try done; try (by case_decide); simpl;
      case_decide; simpl; try done; try (by left); try (intros; by right).
    all: intros _ [?|[]]; by left.
  - destruct (H4 t eq_refl) as [Ht Hlt].
    assert (isMultiTriggerSignal t = false) as -> by (rewrite Ht; by apply shift_not_multi).
    cbn [negb andb]. case_match eqn:Hmt; [by eapply inv_cov_idle |].
    apply (inv_cov_move (SRead h t) s); try done. intros Hbit [?|Hx]; [by left |].
    simpl in Hx. rewrite meets_comm, Ht, meets_bit, Hx in Hmt by lia. congruence.
  - case_decide; [by eapply inv_cov_idle |].
    apply (inv_cov_move (SCas h t (cells s (countr_zero t))) s); try done.
    intros _ [?|Hx]; [by left | right; by rewrite Es].
  - case_decide as Hc; simplify_eq; [|by eapply inv_cov_idle].
    destruct (cells s (countr_zero t)) as [|h0|] eqn:Ec; [| |done].
    + by eapply inv_cov_install.
    + destruct (mem_cell _ _ _ _ _ _ (im_mem _ HM) _ _ Ec) as [-> _].
      by eapply inv_cov_install.
  - case_decide; [|by eapply inv_cov_idle].
    apply (inv_cov_move (SClearRead t) s); try done. intros _ [?|[]]; by left.
  - case_match; try (by eapply inv_cov_idle).
    apply (inv_cov_move (SClearCas t h) s); try done. intros _ [?|[]]; by left.
  - case_decide as Hc; [|by eapply inv_cov_idle].
    destruct (mem_cell _ _ _ _ _ _ (im_mem _ HM) _ _ Hc) as [-> _].
    eapply inv_cov_idle; simpl; try done; [apply Hempty |].
    intros Htag. rewrite fn_insert_case. case_decide; [congruence | done].
Qed.

Lemma inv_cov_step l s s' :
  inv_mem s -> inv_cov s -> sig_step (2 ^ 32) keep l s = Some s' -> inv_cov s'.
Proof.
  intros HM HC Hstep. pose proof HC as [H1 H2 H3 H4 H5].
  destruct l as [e type|e sp|h type|type|f|c|]; simpl in Hstep.
  - destruct (emitter s e) eqn:Ee; try done. destruct (is_word type); simplify_eq.
    split; try done. intros Hbit Hex. destruct (H5 Hbit Hex) as [? | [e' He']]; [by left |].
    right. exists e'. simpl. rewrite fn_insert_case. case_decide; [subst; by rewrite Ee in He' | done].
  - by eapply inv_cov_emit.
  - destruct (slot s) eqn:Es; try done. destruct (handlers s h) eqn:Eh; try done.
    case_match eqn:Hc; [|done]. apply andb_true_iff in Hc as [Hw Hlt%Z.ltb_lt].
    case_decide as Hp; simplify_eq; [|done].
    apply (inv_cov_move (SLoadHandler h type) s); try done.
    + intros t [= <-]. split; [by apply one_bit | by apply below_limit].
    + intros _ [?|[]]; by left.
  - destruct (slot s) eqn:Es; try done. case_match eqn:Hc; [|done].
    apply andb_true_iff in Hc as [Hw Hlt%Z.ltb_lt]. case_decide as Hp; simplify_eq; [|done].
    apply (inv_cov_move (SClearFind type) s); try done.
    + intros t [= <-]. split; [by apply one_bit | by apply below_limit].
    + intros _ [?|[]]; by left.
  - destruct (slot s) eqn:Es; try done. case_match eqn:Hc; [|done].
    apply andb_true_iff in Hc as [_ Hc%Z.eqb_eq]. simplify_eq.
    assert (bit (Z.land f keep) = true) as Hl by (by rewrite Hc).
    rewrite Z.land_spec in Hl. apply andb_true_iff in Hl as [Hl _].
    by apply (inv_cov_move SIdle s).
  - destruct (slot s) eqn:Es; try done. simplify_eq. by apply (inv_cov_move SIdle s).
  - by eapply inv_cov_slot.
Qed.

Lemma sig_covered : invariant (sig_lts (2 ^ 32) keep) inv_cov.
Proof.
  apply (invariant_strengthen (sig_lts (2 ^ 32) keep) inv_mem); [apply sig_mem | |].
  - intros s ->. split; simpl; try done.
    + unfold All. change (2 ^ 64 - 1) with (Z.pred (2 ^ 64)).
      rewrite <- Z.ones_equiv, Z.ones_spec_low by lia. done.
    + rewrite Z.bits_0. done.
  - intros s s' HM HC [l Hl]. by eapply inv_cov_step.
Qed.
End Coverage.

(** ** Properties *)

(** C11.  Of all the threads that emit a one-shot signal, in any interleaving
    and with any spurious failures, exactly one gets it from [UpdateState] once
    the signal is in the state, and none before. *)
Theorem signal_one_winner limit keep s n :
  reachable (sig_lts limit keep) s -> 0 <= n < 32 ->
  if Z.testbit (_state s) n
  then exists e, winner s n e /\ forall e', winner s n e' -> e' = e
  else forall e, ~ winner s n e.
Proof.
  intros HR Hn. destruct (sig_winners limit keep s HR n Hn) as [H1 H2].
  destruct (Z.testbit (_state s) n); [|naive_solver].
  destruct H1 as [H1 _]. destruct (H1 eq_refl) as [e He]. exists e. split; [done |].
  intros e' He'. by apply H2.
Qed.



(** A handler of a signal that may be emitted several times is loaded by
    [invoke] and then called; if the owner of the slot clears it in between, the
    call uses a deleted object. *)
Theorem multi_trigger_use_after_free :
  exists s, reachable (sig_lts (2 ^ 64) 0) s /\ exists e v, emitter s e = EBroken v.
Proof.
  exists (run_end (sig_step (2 ^ 64) 0)
    ([CallEmplace 7 (2 ^ 32); GoSlot; GoSlot; GoSlot; GoSlot; CallEmits 0 (2 ^ 32)] ++
     replicate 6 (GoEmitter 0 false) ++
     [CallClear (2 ^ 32); GoSlot; GoSlot; GoSlot; GoEmitter 0 false]) sig_init).
  split; [apply run_end_reachable; [done | vm_compute; reflexivity] |].
  exists 0%nat, (2 ^ 32). vm_compute. reflexivity.
Qed.

(** Two threads emit [Terminate] while the owner emplaces handler 7. *)
Definition signal_example : list slabel :=
  [CallEmplace 7 1; GoSlot; CallEmits 0 1; CallEmits 1 1; GoSlot; GoEmitter 0 false;
   GoEmitter 1 false; GoSlot; GoSlot; GoEmitter 0 true; GoEmitter 0 false] ++
  replicate 2 (GoEmitter 1 false) ++ replicate 5 (GoEmitter 0 false).
Definition signal_example_end : sig := run_end (sig_step (2 ^ 32) 1) signal_example sig_init.

Lemma signal_example_reachable : reachable (sig_lts (2 ^ 32) 1) signal_example_end.
Proof. apply run_end_reachable; [done | vm_compute; reflexivity]. Qed.

Lemma signal_one_winner_witness :
  exists e, winner signal_example_end 0 e /\ forall e', winner signal_example_end 0 e' -> e' = e.
Proof.
  exact (signal_one_winner _ _ signal_example_end 0 signal_example_reachable
    (conj (Z.le_refl 0) eq_refl)).
Defined.


