(* ===== verification/SpinLock.v ===== *)
(** * SpinLock

    Models src/async_simple/coro/SpinLock.h: [lock] and [coLock] spin on a
    relaxed load of [_locked] and yield when the spin counter is used up;
    [tryLock] is one exchange.  [spinlock_lts] is the code with one atomic access
    per step; [lock_lts] is the lock the monitors of the development use. *)

From S2P Require Import Prelude.

Inductive lpc :=
  | Out
  | TryOnce
  | Exchange (counter : Z)
  | Load (counter : Z)
  | Yield
  | Hold.

#[export] Instance lpc_eq_dec : EqDecision lpc.
Proof. solve_decision. Defined.

Record spinlock := mkSpinLock {
  _locked : bool;
  pc : nat -> lpc;
}.

Definition SpinLock_init : spinlock := mkSpinLock false (fun _ => Out).

Definition at_pc (t : nat) (p : lpc) (s : spinlock) : spinlock :=
  mkSpinLock (_locked s) (<[t := p]> (pc s)).

Section SpinLock.
Context (_spinCount : Z).

Inductive lock_label := CallLock (t : nat) | CallTryLock (t : nat) | Go (t : nat).

(** The exchange of [tryLock]. *)
Definition tryLock (t : nat) (failed : lpc) (s : spinlock) : spinlock :=
  mkSpinLock true (<[t := if _locked s then failed else Hold]> (pc s)).

(** [Go] at [Hold] is [unlock]. *)
Definition spinlock_step (l : lock_label) (s : spinlock) : option spinlock :=
  match l with
  | CallLock t =>
      if decide (pc s t = Out) then Some (at_pc t (Exchange _spinCount) s) else None
  | CallTryLock t =>
      if decide (pc s t = Out) then Some (at_pc t TryOnce s) else None
  | Go t =>
      match pc s t with
      | Out => None
      | TryOnce => Some (tryLock t Out s)
      | Exchange counter => Some (tryLock t (Load counter) s)
      | Load counter =>
          Some (at_pc t (if _locked s
                         then if counter <=? 0 then Yield else Load (counter - 1)
                         else Exchange counter) s)
      | Yield => Some (at_pc t (Load _spinCount) s)
      | Hold => Some (mkSpinLock false (<[t := Out]> (pc s)))
      end
  end.

Definition spinlock_lts : lts := flts (fun s => s = SpinLock_init) spinlock_step.

(** The lock as its users see it. *)
Inductive lock_step : option nat -> option nat -> Prop :=
  | lock_acquire t : lock_step None (Some t)
  | lock_release t : lock_step (Some t) None.

Definition lock_lts : lts := LTS (option nat) (fun a => a = None) lock_step.

Record lock_rel (s : spinlock) (a : option nat) : Prop := {
  lr_locked : _locked s = bool_decide (is_Some a);
  lr_holder : forall t, pc s t = Hold <-> a = Some t;
}.

Lemma lock_rel_move t p s a :
  lock_rel s a -> pc s t <> Hold -> p <> Hold -> lock_rel (at_pc t p s) a.
Proof.
  intros [H1 H2] Ht Hp. split; [done |]. intros t'. simpl. rewrite fn_insert_case.
  case_decide; [subst; rewrite <- H2; tauto | apply H2].
Qed.

Lemma lock_rel_tryLock t failed s a :
  lock_rel s a -> pc s t <> Hold -> failed <> Hold ->
  exists a', rtc lock_step a a' /\ lock_rel (tryLock t failed s) a'.
Proof.
  intros [H1 H2] Ht Hf. destruct a as [o|]; simpl in H1.
  - exists (Some o). split; [done |]. split; simpl; [done |]. intros t'.
    rewrite fn_insert_case, H1. case_decide; [subst; rewrite <- H2; tauto | apply H2].
  - exists (Some t). split; [apply rtc_once; constructor |]. split; simpl; [done |]. intros t'.
    rewrite fn_insert_case, H1. case_decide; [by subst |]. rewrite H2. naive_solver.
Qed.

Lemma spinlock_simulation : simulation spinlock_lts lock_lts lock_rel.
Proof.
  split.
  - intros s ->. by exists None.
  - intros s s' a _ HR [l Hl].
    assert (forall t p, pc s t <> Hold -> p <> Hold ->
      exists a', rtc lock_step a a' /\ lock_rel (at_pc t p s) a') as Hmove.
    { intros t p ??. exists a. split; [done | by apply lock_rel_move]. }
    destruct l as [t|t|t]; simpl in Hl; try case_decide as Ht; simplify_eq;
      try (apply Hmove; congruence).
    destruct (pc s t) eqn:Hp; simplify_eq; try (apply lock_rel_tryLock; congruence).
    + apply Hmove; [congruence |]. by repeat case_match.
    + apply Hmove; congruence.
    + destruct HR as [H1 H2]. assert (a = Some t) as -> by (by apply H2).
      exists None. split; [apply rtc_once; constructor |]. split; simpl; [done |].
      intros t'. rewrite fn_insert_case. case_decide; [done |]. rewrite H2. naive_solver.
Qed.

Definition counter_ok (p : lpc) : Prop :=
  match p with Load c | Exchange c => 0 <= c <= _spinCount | _ => True end.

Lemma spin_counter : 0 <= _spinCount ->
  invariant spinlock_lts (fun s => forall t, counter_ok (pc s t)).
Proof.
  intros Hc. apply invariant_ind; [by intros s -> |].
  intros s s' HI [l Hl] t'.
  assert (forall t p, counter_ok p -> counter_ok ((<[t := p]> (pc s)) t')) as Hset.
  { intros t p Hp. rewrite fn_insert_case. case_decide; [done | apply HI]. }
  destruct l as [t|t|t]; simpl in Hl; try case_decide; simplify_eq; simpl;
    try (apply Hset; simpl; done || lia).
  pose proof (HI t) as Ht. destruct (pc s t); simplify_eq; simpl in *; apply Hset;
    repeat case_match; simpl; try lia.
Qed.

End SpinLock.

Definition spinlock_example_end : spinlock :=
  run_end (spinlock_step 2) [CallLock 0; CallLock 1; Go 0; Go 1; Go 1; Go 1; Go 1] SpinLock_init.

