(* ===== verification/CondVar.v ===== *)
(** * ConditionVariable and Notifier

    Models src/async_simple/coro/ConditionVariable.h.  [ConditionVariable<Lock>]
    is a LIFO list of awaiters linked by [_next]; its users call it with the lock
    held, and the first part gives its operations as functions on that list, and
    [notifyOne] step by step for the callers that do not hold the lock.  The
    second part is [ConditionVariable<void>], the [Notifier], which needs no
    lock: one atomic access per step, any number of coroutines. *)

From S2P Require Import Prelude.

(** ** ConditionVariable<Lock> *)

Record condvar := mkCondVar {
  cv_awaiters : option nat;
  cv_next : nat -> option nat;
}.

Definition ConditionVariable_init : condvar := mkCondVar None (fun _ => None).

(** [await_suspend] up to the release of the lock. *)
Definition await_suspend (t : nat) (c : condvar) : condvar :=
  mkCondVar (Some t) (<[t := cv_awaiters c]> (cv_next c)).

(** The awaiters [resumeWaiters] resumes, in order.  [_next] is read before the
    awaiter is resumed.  [None] when the fuel, a bound on the length of the
    list, does not suffice. *)
Fixpoint resumeWaiters (fuel : nat) (next : nat -> option nat) (awaiters : option nat)
    : option (list nat) :=
  match awaiters with
  | None => Some []
  | Some prev =>
      match fuel with
      | O => None
      | S fuel =>
          match resumeWaiters fuel next (next prev) with
          | Some l => Some (prev :: l)
          | None => None
          end
      end
  end.

Definition notifyAll (fuel : nat) (c : condvar) : option (list nat * condvar) :=
  match resumeWaiters fuel (cv_next c) (cv_awaiters c) with
  | Some l => Some (l, mkCondVar None (cv_next c))
  | None => None
  end.

Definition notifyOne (fuel : nat) (c : condvar) : option (list nat * condvar) :=
  match cv_awaiters c with
  | None => Some ([], c)
  | Some a =>
      let next := <[a := None]> (cv_next c) in
      match resumeWaiters fuel next (Some a) with
      | Some l => Some (l, mkCondVar (cv_next c a) next)
      | None => None
      end
  end.

(** The list of awaiters, the latest first. *)
Definition cv_list (c : condvar) (l : list nat) : Prop :=
  chain (cv_next c) (cv_awaiters c) l /\ NoDup l.

Lemma resumeWaiters_chain n next p l :
  chain next p l -> (length l <= n)%nat -> resumeWaiters n next p = Some l.
Proof.
  revert n p. induction l as [|x l IH]; intros n p Hc Hn; simpl in *.
  - subst. by destruct n.
  - destruct Hc as [-> Hc]. destruct n as [|n]; [lia |]. simpl.
    by rewrite (IH n (next x) Hc) by lia.
Qed.

(** C16.  With the lock held, the linked awaiters behave as a stack of suspended
    coroutines: waiting pushes, [notifyOne] takes and resumes the latest and
    leaves the others, [notifyAll] resumes all of them, the latest first, and
    leaves none; the traversal visits each awaiter once. *)
Theorem condvar_refines_stack c l n :
  cv_list c l -> (length l <= n)%nat ->
  (forall t, t ∉ l -> cv_list (await_suspend t c) (t :: l)) /\
  (exists c', notifyAll n c = Some (l, c') /\ cv_list c' []) /\
  (exists c', notifyOne (S n) c = Some (take 1 l, c') /\ cv_list c' (drop 1 l)).
Proof.
  intros [Hc Hnd] Hn. split_and!.
  - intros t Ht. split; simpl; [|by constructor].
    split; [done |]. rewrite fn_lookup_insert. by apply chain_insert.
  - unfold notifyAll. rewrite (resumeWaiters_chain _ _ _ _ Hc Hn). eexists.
    split; [done |]. split; [done | constructor].
  - unfold notifyOne. destruct l as [|x l]; simpl in Hc.
    + rewrite Hc. exists c. split; [done |]. split; [done | constructor].
    + destruct Hc as [-> Hc]. apply NoDup_cons in Hnd as [Hx Hnd].
      rewrite (resumeWaiters_chain (S n) _ (Some x) [x]).
      * eexists. split; [done |]. split; [|done]. simpl. by apply chain_insert.
      * simpl. by rewrite fn_lookup_insert.
      * simpl. lia.
Qed.

Lemma condvar_refines_stack_witness :
  let c := await_suspend 2 (await_suspend 1 ConditionVariable_init) in
  exists c', notifyAll 2 c = Some ([2; 1]%nat, c') /\ cv_list c' [].
Proof.
  intros c. apply (condvar_refines_stack c [2; 1]%nat 2).
  - split; [vm_compute; auto |]. repeat constructor; set_solver.
  - simpl. lia.
Defined.

(** [notifyOne] without the lock, two atomic accesses: a second notifier may
    empty the list in between; the compare-exchange then reloads a null pointer
    and evaluates [awaitings->_next] on it. *)
Inductive one_pc := OneLoad | OneCas (awaitings : nat) (next : option nat) | OneDone | OneNull.

Definition notifyOne_step (pc : one_pc) (c : condvar) : one_pc * condvar :=
  match pc with
  | OneLoad =>
      (match cv_awaiters c with
       | None => OneDone
       | Some a => OneCas a (cv_next c a)
       end, c)
  | OneCas a next =>
      if decide (cv_awaiters c = Some a) then (OneDone, mkCondVar next (cv_next c))
      else (match cv_awaiters c with
            | None => OneNull
            | Some a' => OneCas a' (cv_next c a')
            end, c)
  | _ => (pc, c)
  end.

(** Two [notifyOne] calls that race on one awaiter without the lock: the
    slower one dereferences a null pointer. *)
Theorem notifyOne_race t :
  let c := await_suspend t ConditionVariable_init in
  let '(pc1, c) := notifyOne_step OneLoad c in
  let '(pc2, c) := notifyOne_step OneLoad c in
  let '(pc1, c) := notifyOne_step pc1 c in
  let '(pc2, c) := notifyOne_step pc2 c in
  pc1 = OneDone /\ pc2 = OneNull.
Proof.
  simpl. rewrite decide_True by done. simpl. rewrite fn_lookup_insert. done.
Qed.

(** ** Notifier *)

(** [_awaiters]: null or an awaiter, or the notifier itself once it has been
    notified. *)
Inductive notifier_word := Self | Awaiters (p : option nat).

#[export] Instance notifier_word_eq_dec : EqDecision notifier_word.
Proof. solve_decision. Defined.

Inductive npc :=
  | NIdle
  | WaitReady
  | WaitLoad
  | WaitCas (awaitings : notifier_word)
  | NSuspended
  | NotifyExchange
  | ResumeNext (awaiters : option nat)
  | ResetCas
  | NBroken.

Record notifier := mkNotifier {
  _awaiters : notifier_word;
  _next : nat -> option nat;
  pc : nat -> npc;
}.

Definition Notifier_init : notifier :=
  mkNotifier (Awaiters None) (fun _ => None) (fun _ => NIdle).

Definition at_pc (t : nat) (p : npc) (s : notifier) : notifier :=
  mkNotifier (_awaiters s) (_next s) (<[t := p]> (pc s)).
Definition set_awaiters (w : notifier_word) (s : notifier) : notifier :=
  mkNotifier w (_next s) (pc s).
Definition set_next (t : nat) (n : option nat) (s : notifier) : notifier :=
  mkNotifier (_awaiters s) (<[t := n]> (_next s)) (pc s).

Inductive nlabel :=
  | CallWait (t : nat)
  | CallNotify (t : nat)
  | CallReset (t : nat)
  | Go (t : nat) (spurious : bool).

Definition notifier_go (t : nat) (spurious : bool) (s : notifier) : option notifier :=
  match pc s t with
  | WaitReady =>
      Some (at_pc t (if decide (_awaiters s = Self) then NIdle else WaitLoad) s)
  | WaitLoad => Some (at_pc t (WaitCas (_awaiters s)) s)
  | WaitCas Self => Some (at_pc t NIdle s)
  | WaitCas (Awaiters p) =>
      let s := set_next t p s in
      if negb spurious && bool_decide (_awaiters s = Awaiters p)
      then Some (at_pc t NSuspended (set_awaiters (Awaiters (Some t)) s))
      else Some (at_pc t (WaitCas (_awaiters s)) s)
  | NotifyExchange =>
      Some (at_pc t (match _awaiters s with
                     | Self => NIdle
                     | Awaiters p => ResumeNext p
                     end) (set_awaiters Self s))
  | ResumeNext None => Some (at_pc t NIdle s)
  | ResumeNext (Some prev) =>
      let s' := at_pc t (ResumeNext (_next s prev)) s in
      Some (match pc s prev with
            | NSuspended => at_pc prev NIdle s'
            | _ => at_pc t NBroken s
            end)
  | ResetCas =>
      Some (at_pc t NIdle (if decide (_awaiters s = Self)
                           then set_awaiters (Awaiters None) s else s))
  | NIdle | NSuspended | NBroken => None
  end.

Definition notifier_step (l : nlabel) (s : notifier) : option notifier :=
  match l with
  | CallWait t => match pc s t with NIdle => Some (at_pc t WaitReady s) | _ => None end
  | CallNotify t => match pc s t with NIdle => Some (at_pc t NotifyExchange s) | _ => None end
  | CallReset t => match pc s t with NIdle => Some (at_pc t ResetCas s) | _ => None end
  | Go t spurious => notifier_go t spurious s
  end.

Definition notifier_lts : lts := flts (fun s => s = Notifier_init) notifier_step.

(** Where the awaiters are: [L None] is the list in [_awaiters], [L (Some t)]
    the one that notifier [t] is resuming. *)
Definition list_of (s : notifier) (o : option nat) : option (option nat) :=
  match o with
  | None => match _awaiters s with Awaiters p => Some p | Self => None end
  | Some t => match pc s t with ResumeNext p => Some p | _ => None end
  end.

Record notifier_inv (s : notifier) (L : option nat -> list nat) : Prop := {
  ni_chain : forall o, match list_of s o with
                       | Some p => chain (_next s) p (L o)
                       | None => L o = []
                       end;
  ni_nodup : forall o, NoDup (L o);
  ni_disj : forall o o' x, x ∈ L o -> x ∈ L o' -> o = o';
  ni_susp : forall x, pc s x = NSuspended <-> exists o, x ∈ L o;
  ni_ok : forall x, pc s x <> NBroken;
}.

(** A move of [t] that concerns no list. *)
Lemma ni_move t p s L :
  notifier_inv s L -> list_of s (Some t) = None -> pc s t <> NSuspended ->
  match p with ResumeNext _ | NSuspended | NBroken => False | _ => True end ->
  notifier_inv (at_pc t p s) L.
Proof.
  intros [H1 H2 H3 H4 H5] Hl Ht Hp. split; try done.
  - intros [t'|]; [|apply (H1 None)]. specialize (H1 (Some t')). simpl in *.
    rewrite fn_insert_case. case_decide; [subst t' | done]. rewrite Hl in H1. by destruct p.
  - intros x. simpl. rewrite fn_insert_case. case_decide; [subst x | apply H4].
    rewrite <- H4. split; [by intros -> | done].
  - intros x. simpl. rewrite fn_insert_case. case_decide; [|done]. by intros ->.
Qed.

Lemma ni_set_next t n s L :
  notifier_inv s L -> pc s t <> NSuspended -> notifier_inv (set_next t n s) L.
Proof.
  intros [H1 H2 H3 H4 H5] Ht. split; try done. intros o. specialize (H1 o).
  change (list_of (set_next t n s) o) with (list_of s o).
  destruct (list_of s o) as [p|]; [|done]. simpl. apply chain_insert; [|done].
  intros Hin. apply Ht, H4. by exists o.
Qed.

Lemma ni_push t s L p :
  notifier_inv s L -> _awaiters s = Awaiters p -> _next s t = p ->
  list_of s (Some t) = None -> pc s t <> NSuspended ->
  notifier_inv (at_pc t NSuspended (set_awaiters (Awaiters (Some t)) s))
    (<[None := t :: L None]> L).
Proof.
  intros [H1 H2 H3 H4 H5] Ha Hn Hl Ht.
  assert (forall o, t ∉ L o) as Hnot by (intros o Hin; apply Ht, H4; by exists o).
  split.
  - intros [t'|].
    + rewrite fn_lookup_insert_ne by done. specialize (H1 (Some t')). simpl in *.
      rewrite fn_insert_case. case_decide; [subst t'; by rewrite Hl in H1 | done].
    + rewrite fn_lookup_insert. specialize (H1 None). simpl in *. rewrite Ha in H1.
      split; [done |]. by rewrite Hn.
  - intros o. rewrite fn_insert_case. case_decide; [by constructor | done].
  - intros o o' x. rewrite !fn_insert_case. repeat case_decide; subst; try done.
    + intros [-> | Hx]%elem_of_cons Hx'; [by destruct (Hnot o') |]. by apply (H3 None o' x).
    + intros Hx [-> | Hx']%elem_of_cons; [by destruct (Hnot o) |]. by apply (H3 o None x).
    + apply H3.
  - intros x. simpl. rewrite fn_insert_case. case_decide.
    + subst x. split; [|done]. intros _. exists None. rewrite fn_lookup_insert. by left.
    + rewrite H4. split; intros [o Ho]; exists o; revert Ho; rewrite fn_insert_case;
        case_decide; subst; try done; intros Ho; [by right |].
      by apply elem_of_cons in Ho as [? | ?].
  - intros x. simpl. rewrite fn_insert_case. by case_decide.
Qed.

Lemma ni_take t s L p :
  notifier_inv s L -> pc s t = NotifyExchange -> _awaiters s = Awaiters p ->
  notifier_inv (at_pc t (ResumeNext p) (set_awaiters Self s))
    (<[Some t := L None]> (<[None := []]> L)).
Proof.
  intros [H1 H2 H3 H4 H5] Hp Ha.
  assert (L (Some t) = []) as Hempty.
  { specialize (H1 (Some t)). simpl in H1. by rewrite Hp in H1. }
  assert (forall o x, x ∈ (<[Some t := L None]> (<[None := []]> L)) o <->
    (o = Some t /\ x ∈ L None) \/ (o <> Some t /\ o <> None /\ x ∈ L o)) as HL.
  { intros o x. rewrite !fn_insert_case. case_decide as Ho; [|case_decide as Hn].
    - split; [intros; by left | by intros [[_ ?] | (? & _)]].
    - rewrite elem_of_nil. split; [done | by intros [[? _] | (_ & ? & _)]].
    - split; [intros; by right | by intros [[? _] | (_ & _ & ?)]]. }
  split.
  - intros [t'|]; simpl.
    + rewrite !fn_insert_case. case_decide as Ht.
      * subst t'. rewrite decide_True by done. specialize (H1 None). simpl in H1.
        by rewrite Ha in H1.
      * rewrite !decide_False by congruence. apply (H1 (Some t')).
    + by rewrite fn_lookup_insert_ne, fn_lookup_insert by done.
  - intros o. rewrite !fn_insert_case. repeat case_decide; [apply H2 | constructor | apply H2].
  - intros o o' x Ho%HL Ho'%HL.
    destruct Ho as [[-> Hx] | (Hne & Hnn & Hx)], Ho' as [[-> Hx'] | (Hne' & Hnn' & Hx')]; try done.
    + destruct Hnn'. by rewrite (H3 None o' x).
    + destruct Hnn. by rewrite (H3 None o x).
    + by apply (H3 o o' x).
  - intros x. simpl. rewrite fn_insert_case. setoid_rewrite HL.
    case_decide as Hx; [subst x | rewrite H4].
    + split; [done |]. intros [o Ho]. exfalso.
      assert (pc s t = NSuspended); [|congruence]. apply H4. naive_solver.
    + split; [|naive_solver]. intros [[t'|] Ho]; [|by exists (Some t); left].
      exists (Some t'). right. split_and!; [|done..].
      intros [= ->]. rewrite Hempty in Ho. by apply not_elem_of_nil in Ho.
  - intros x. simpl. rewrite fn_insert_case. by case_decide.
Qed.

Lemma ni_resume t prev s L :
  notifier_inv s L -> pc s t = ResumeNext (Some prev) ->
  exists l, L (Some t) = prev :: l /\ pc s prev = NSuspended /\
    notifier_inv (at_pc prev NIdle (at_pc t (ResumeNext (_next s prev)) s)) (<[Some t := l]> L).
Proof.
  intros [H1 H2 H3 H4 H5] Hp. pose proof (H1 (Some t)) as Hc. simpl in Hc. rewrite Hp in Hc.
  destruct (L (Some t)) as [|x l] eqn:EL; [done |]. destruct Hc as [[= <-] Hc].
  assert (pc s prev = NSuspended) as Hs by (apply H4; exists (Some t); rewrite EL; by left).
  assert (prev <> t) as Hne by congruence.
  pose proof (H2 (Some t)) as Hnd. rewrite EL in Hnd. apply NoDup_cons in Hnd as [Hpl Hnd].
  assert (forall o x, x ∈ (<[Some t := l]> L) o <-> x ∈ L o /\ x <> prev) as HL.
  { intros o x. rewrite fn_insert_case. case_decide as Ho.
    - subst o. rewrite EL, elem_of_cons. naive_solver.
    - split; [|tauto]. intros Hx. split; [done |]. intros ->. apply Ho.
      apply (H3 o (Some t) prev); [done | rewrite EL; by left]. }
  exists l. split; [done |]. split; [done |]. split.
  - intros [t'|]; simpl.
    + rewrite !fn_insert_case. case_decide as Hx.
      { subst t'. rewrite decide_False by congruence.
        specialize (H1 (Some prev)). simpl in H1. by rewrite Hs in H1. }
      case_decide as Ht; [subst; by rewrite decide_True | ].
      rewrite decide_False by congruence. apply (H1 (Some t')).
    + rewrite fn_lookup_insert_ne by done. apply (H1 None).
  - intros o. rewrite fn_insert_case. by case_decide.
  - intros o o' x [Hx _]%HL [Hx' _]%HL. by apply (H3 o o' x).
  - intros x. simpl. rewrite !fn_insert_case. setoid_rewrite HL.
    repeat case_decide; subst; [naive_solver | | rewrite H4; naive_solver].
    split; [done |]. intros (o & Ho & _). assert (pc s t = NSuspended) by (apply H4; eauto).
    congruence.
  - intros x. simpl. rewrite !fn_insert_case. by repeat case_decide.
Qed.

Lemma notifier_inv_go t sp s s' L :
  notifier_inv s L -> notifier_go t sp s = Some s' -> exists L', notifier_inv s' L'.
Proof.
  intros HI Hstep. unfold notifier_go in Hstep.
  destruct (pc s t) as [| | |[|p]| | |[prev|]| |] eqn:Hp; simplify_eq.
  - exists L. apply ni_move; simpl; rewrite ?Hp; try done. by case_decide.
  - exists L. apply ni_move; simpl; by rewrite ?Hp.
  - exists L. apply ni_move; simpl; by rewrite ?Hp.
  - assert (notifier_inv (set_next t p s) L) as HI' by (apply ni_set_next; by rewrite ?Hp).
    case_match eqn:Hc; simplify_eq.
    + apply andb_true_iff in Hc as [_ Hc%bool_decide_eq_true].
      eexists. apply (ni_push t (set_next t p s) L p); simpl; rewrite ?Hp, ?fn_lookup_insert; done.
    + exists L. apply ni_move; simpl; by rewrite ?Hp.
  - destruct (_awaiters s) as [|p] eqn:Ha.
    + exists L. assert (set_awaiters Self s = s) as -> by (destruct s; simpl in *; by subst).
      apply ni_move; simpl; by rewrite ?Hp.
    + eexists. by apply ni_take.
  - destruct (ni_resume t prev s L HI Hp) as (l & _ & Hs & HI'). rewrite Hs. by eexists.
  - exists L. destruct HI as [H1 H2 H3 H4 H5]. split; try done.
    + intros [t'|]; [|apply (H1 None)]. specialize (H1 (Some t')). simpl in *.
      rewrite fn_insert_case. case_decide; [subst t' | done]. rewrite Hp in H1.
      destruct (L (Some t)); [done | by destruct H1].
    + intros x. simpl. rewrite fn_insert_case. case_decide; [subst x | apply H4].
      rewrite <- H4. split; [done | congruence].
    + intros x. simpl. rewrite fn_insert_case. by case_decide.
  - exists L. apply ni_move; [|case_decide; simpl; by rewrite ?Hp..| done].
    case_decide as Ha; [|done]. destruct HI as [H1 H2 H3 H4 H5]. split; try done.
    intros [t'|]; [apply (H1 (Some t')) |]. specialize (H1 None). simpl in *.
    rewrite Ha in H1. by rewrite H1.
Qed.

Lemma notifier_invariant : invariant notifier_lts (fun s => exists L, notifier_inv s L).
Proof.
  apply invariant_ind.
  - intros s ->. exists (fun _ => []). split; simpl; try done.
    + by intros [t|].
    + intros. constructor.
    + by intros o o' x ?%not_elem_of_nil.
    + intros x. split; [done |]. by intros [o ?%not_elem_of_nil].
  - intros s s' [L HI] [l Hl]. destruct l as [t|t|t|t sp]; simpl in Hl.
    4:{ by eapply notifier_inv_go. }
    all: destruct (pc s t) eqn:Hp; simplify_eq; exists L; apply ni_move; simpl; by rewrite ?Hp.
Qed.

(** ** Properties *)

(** The [Notifier] forgets nobody and resumes nobody twice, for any number
    of coroutines that wait, notify and reset in any interleaving, with any
    spurious failures: only suspended coroutines are resumed, and a suspended
    coroutine is in the list of [_awaiters] or in the list a running [notify] is
    resuming; hence none is suspended once the notifier is in the notified state
    and no [notify] is running. *)
Theorem notifier_no_lost_wakeup s :
  reachable notifier_lts s ->
  (forall t, pc s t <> NBroken) /\
  (forall x, pc s x = NSuspended ->
     (exists p l, _awaiters s = Awaiters p /\ chain (_next s) p l /\ x ∈ l) \/
     (exists t p l, pc s t = ResumeNext p /\ chain (_next s) p l /\ x ∈ l)) /\
  (_awaiters s = Self -> (forall t p, pc s t <> ResumeNext p) ->
     forall x, pc s x <> NSuspended).
Proof.
  intros [L [H1 H2 H3 H4 H5]]%notifier_invariant.
  assert (forall x, pc s x = NSuspended ->
     (exists p l, _awaiters s = Awaiters p /\ chain (_next s) p l /\ x ∈ l) \/
     (exists t p l, pc s t = ResumeNext p /\ chain (_next s) p l /\ x ∈ l)) as Hx.
  { intros x [[t|] Ho]%H4.
    - right. specialize (H1 (Some t)). simpl in H1. destruct (pc s t) eqn:Hp;
        try (rewrite H1 in Ho; by apply not_elem_of_nil in Ho). eauto 10.
    - left. specialize (H1 None). simpl in H1. destruct (_awaiters s) as [|p] eqn:Ha;
        [rewrite H1 in Ho; by apply not_elem_of_nil in Ho |]. eauto 10. }
  split_and!; [done | done |]. intros Hself Hno x Hs.
  destruct (Hx x Hs) as [(p & l & Ha & _) | (t & p & l & Hp & _)]; [congruence |].
  by apply Hno in Hp.
Qed.

(** Coroutines 1 and 2 wait, 3 notifies. *)
Definition notifier_example_end : notifier :=
  run_end notifier_step
    [CallWait 1; Go 1 false; CallWait 2; Go 2 false; Go 1 false; Go 1 false;
     Go 2 false; Go 2 true; Go 2 false; CallNotify 3; Go 3 false; Go 3 false] Notifier_init.

Lemma notifier_no_lost_wakeup_witness :
  pc notifier_example_end 1 = NSuspended /\
  (exists t p l, pc notifier_example_end t = ResumeNext p /\
     chain (_next notifier_example_end) p l /\ 1%nat ∈ l).
Proof.
  split; [reflexivity |].
  assert (reachable notifier_lts notifier_example_end) as HR
    by (apply run_end_reachable; [reflexivity | vm_compute; reflexivity]).
  destruct (proj1 (proj2 (notifier_no_lost_wakeup notifier_example_end HR)) 1%nat eq_refl)
    as [(p & l & Ha & _) | H]; [vm_compute in Ha; discriminate | exact H].
Defined.
