(* ===== verification/Monitor.v ===== *)
(** * Monitors: a lock and condition variables

    Semaphore.h, Latch.h and SharedMutex.h of src/async_simple/coro/ run all
    their operations under a [SpinLock] and wait on [ConditionVariable]s.  This
    file is what they share: threads that take the lock ([SpinLock.v]: the atomic
    lock), run code segments, and in [ConditionVariable::wait] leave the lock
    and join the stack of a gate ([CondVar.v]: the stack of awaiters), to be woken
    by [notifyOne] or [notifyAll], take the lock again and test the predicate
    again.  A client gives its program points; its theorems are proved against
    this interface. *)

From S2P Require Import Prelude.

Inductive wake := WakeOne (gate : nat) | WakeAll (gate : nat).

(** A client: [P] are its program points, [D] the data the lock protects, [H]
    what a thread holds between operations.  At a point the code waits at [gate]
    until [pred] holds, then runs [act], still under the lock, and goes on at
    [next]; without a next point the operation ends and the lock is released. *)
Class Client (P D H : Type) := {
  gate : P -> nat;
  pred : P -> D -> bool;
  act : P -> D -> H -> D * H * list wake;
  next : P -> option P;
  enabled : P -> H -> bool;
}.

(** [Want p relock]: the thread waits for the lock, for the first time or in
    [ConditionVariable::wait]. *)
Inductive tstat (P : Type) :=
  | Out
  | Want (p : P) (relock : bool)
  | Inside (p : option P)
  | Waiting (p : P).
Arguments Out {P}.
Arguments Want {P}.
Arguments Inside {P}.
Arguments Waiting {P}.

Record thread (P H : Type) := Thread { hold : H; stat : tstat P }.
Arguments Thread {P H}.
Arguments hold {P H}.
Arguments stat {P H}.

Section Monitor.
Context {P D H : Type} `{Client P D H}.

Record monitor := mkMonitor {
  data : D;
  owner : option nat;
  gates : nat -> list nat;
  threads : list (thread P H);
  done_log : list (nat * P * D);
}.

Definition wake_one (i : nat) (ts : list (thread P H)) : list (thread P H) :=
  match ts !! i with
  | Some (Thread h (Waiting p)) => <[i := Thread h (Want p true)]> ts
  | _ => ts
  end.

Definition apply_wake (m : monitor) (w : wake) : monitor :=
  let '(woken, g, rest) := match w with
    | WakeOne g => (take 1 (gates m g), g, drop 1 (gates m g))
    | WakeAll g => (gates m g, g, [])
    end in
  mkMonitor (data m) (owner m) (<[g := rest]> (gates m))
    (foldr wake_one (threads m) woken) (done_log m).

Definition set_thread (i : nat) (t : thread P H) (m : monitor) : monitor :=
  mkMonitor (data m) (owner m) (gates m) (<[i := t]> (threads m)) (done_log m).
Definition set_owner (o : option nat) (m : monitor) : monitor :=
  mkMonitor (data m) o (gates m) (threads m) (done_log m).

(** The thread runs the code at point [p]. *)
Definition run_point (i : nat) (h : H) (p : P) (m : monitor) : monitor :=
  if pred p (data m) then
    let '(d, h', ws) := act p (data m) h in
    foldl apply_wake
      (mkMonitor d (owner m) (gates m) (<[i := Thread h' (Inside (next p))]> (threads m))
         (done_log m ++ [(i, p, data m)])) ws
  else
    mkMonitor (data m) None (<[gate p := i :: gates m (gate p)]> (gates m))
      (<[i := Thread h (Waiting p)]> (threads m)) (done_log m).

Inductive mon_label := Start (i : nat) (p : P) | Acquire (i : nat) | Run (i : nat) | Cancel (i : nat).

(** [Cancel]: a cancelled [SpinLock::coLock] throws.  In [wait] the exception
    leaves the scope of the caller's [std::unique_lock], which still believes it
    owns the lock and releases it. *)
Definition mon_step (cancellable : bool) (l : mon_label) (m : monitor) : option monitor :=
  match l with
  | Start i p =>
      match threads m !! i with
      | Some (Thread h Out) =>
          if enabled p h then Some (set_thread i (Thread h (Want p false)) m) else None
      | _ => None
      end
  | Acquire i =>
      match owner m, threads m !! i with
      | None, Some (Thread h (Want p _)) =>
          Some (set_owner (Some i) (set_thread i (Thread h (Inside (Some p))) m))
      | _, _ => None
      end
  | Run i =>
      match threads m !! i with
      | Some (Thread h (Inside (Some p))) => Some (run_point i h p m)
      | Some (Thread h (Inside None)) =>
          Some (set_owner None (set_thread i (Thread h Out) m))
      | _ => None
      end
  | Cancel i =>
      match cancellable, threads m !! i with
      | true, Some (Thread h (Want p relock)) =>
          let m' := set_thread i (Thread h Out) m in
          Some (if relock then set_owner None m' else m')
      | _, _ => None
      end
  end.

Definition mon_init (d : D) (hs : list H) (m : monitor) : Prop :=
  m = mkMonitor d None (fun _ => []) ((fun h => Thread h Out) <$> hs) [].

Definition mon_lts (cancellable : bool) (d : D) (hs : list H) : lts :=
  flts (mon_init d hs) (mon_step cancellable).

(** ** The invariant of the lock and the gates *)

Record mon_wf (m : monitor) : Prop := {
  wf_owner : forall i, owner m = Some i <->
    exists h p, threads m !! i = Some (Thread h (Inside p));
  wf_gate : forall i p h, threads m !! i = Some (Thread h (Waiting p)) -> i ∈ gates m (gate p);
  wf_waiting : forall i g, i ∈ gates m g ->
    exists p h, threads m !! i = Some (Thread h (Waiting p)) /\ gate p = g;
  wf_nodup : forall g, NoDup (gates m g);
}.

(** Waking keeps what each thread holds and where it is in its operation. *)
Lemma wake_one_lookup i ts j :
  wake_one i ts !! j =
  match ts !! j with
  | Some (Thread h (Waiting p)) =>
      Some (Thread h (if decide (j = i) then Want p true else Waiting p))
  | o => o
  end.
Proof.
  unfold wake_one. destruct (decide (j = i)) as [->|Hne].
  - destruct (ts !! i) as [[h [| | |p]]|] eqn:E; try done.
    rewrite list_lookup_insert_eq; [done |]. by eapply lookup_lt_Some.
  - assert (forall t, <[i := t]> ts !! j = ts !! j) as Hn
      by (intros; by apply list_lookup_insert_ne).
    destruct (ts !! i) as [[h [| | |p]]|]; rewrite ?Hn; by destruct (ts !! j) as [[? []]|].
Qed.

Lemma wake_all_lookup l ts j :
  foldr wake_one ts l !! j =
  match ts !! j with
  | Some (Thread h (Waiting p)) =>
      Some (Thread h (if decide (j ∈ l) then Want p true else Waiting p))
  | o => o
  end.
Proof.
  induction l as [|i l IH]; simpl.
  - by destruct (ts !! j) as [[h []]|].
  - rewrite wake_one_lookup, IH. destruct (ts !! j) as [[h [| | |p]]|]; try done.
    destruct (decide (j ∈ l)) as [Hl|Hl].
    + rewrite decide_True; [done | by right].
    + destruct (decide (j = i)) as [->|Hji]; [rewrite decide_True; [done | by left] |].
      rewrite decide_False; [done |]. by intros [?|?]%elem_of_cons.
Qed.

Lemma apply_wake_split (m : monitor) w :
  exists g woken rest, gates m g = woken ++ rest /\
    apply_wake m w = mkMonitor (data m) (owner m) (<[g := rest]> (gates m))
      (foldr wake_one (threads m) woken) (done_log m) /\
    (match w with WakeOne g' | WakeAll g' => g' = g end) /\
    (match w with WakeOne _ => woken = take 1 (gates m g) | WakeAll _ => rest = [] end).
Proof.
  destruct w as [g|g]; unfold apply_wake.
  - exists g, (take 1 (gates m g)), (drop 1 (gates m g)). by rewrite take_drop.
  - exists g, (gates m g), []. by rewrite app_nil_r.
Qed.

Lemma wf_apply_wake m w : mon_wf m -> mon_wf (apply_wake m w).
Proof.
  intros [H1 H2 H3 H4]. destruct (apply_wake_split m w) as (g & woken & rest & Hg & -> & _).
  assert (forall i, i ∈ woken -> i ∉ rest) as Hdis.
  { intros i Hw Hr. specialize (H4 g). rewrite Hg in H4.
    apply NoDup_app in H4 as (_ & Hd & _). by apply (Hd i). }
  split; simpl.
  - intros i. rewrite H1, wake_all_lookup. split; intros (h & p & Hi).
    + exists h, p. by rewrite Hi.
    + destruct (threads m !! i) as [[h' []]|]; simplify_eq; try (by eauto). by case_decide.
  - intros i p h. rewrite wake_all_lookup.
    destruct (threads m !! i) as [[h' [| | |p']]|] eqn:Ei; intros; simplify_eq.
    case_decide as Hw; simplify_eq. rewrite fn_insert_case. apply H2 in Ei.
    case_decide as Hgp; [|done]. rewrite Hgp, Hg in Ei. by apply elem_of_app in Ei as [?|?].
  - intros i g'. rewrite fn_insert_case. intros Hi.
    assert (i ∈ gates m g' /\ i ∉ woken) as [Hin Hnw].
    { case_decide as Hgg; [subst g'|].
      - rewrite Hg. split; [apply elem_of_app; by right | intros Hw; by apply (Hdis i)].
      - split; [done |]. intros Hw. destruct (H3 i g') as (p & h & Hp & Hgp); [done |].
        destruct (H3 i g) as (p' & h' & Hp' & Hgp'); [rewrite Hg; apply elem_of_app; by left |].
        congruence. }
    destruct (H3 i g' Hin) as (p & h & Hp & Hgp). exists p, h.
    rewrite wake_all_lookup, Hp, decide_False by done. done.
  - intros g'. rewrite fn_insert_case. case_decide; [|done].
    specialize (H4 g). rewrite Hg in H4. by apply NoDup_app in H4 as (_ & _ & ?).
Qed.

Lemma wf_apply_wakes m ws : mon_wf m -> mon_wf (foldl apply_wake m ws).
Proof. revert m. induction ws as [|w ws IH]; intros m Hm; [done |]. by apply IH, wf_apply_wake. Qed.

(** A thread moves between states that are not [Waiting]. *)
Lemma wf_move m i t t' d o lg :
  mon_wf m -> threads m !! i = Some t ->
  (forall p, stat t <> Waiting p) -> (forall p, stat t' <> Waiting p) ->
  (forall j, o = Some j <-> if decide (j = i) then exists p, stat t' = Inside p
                            else owner m = Some j) ->
  mon_wf (mkMonitor d o (gates m) (<[i := t']> (threads m)) lg).
Proof.
  intros [H1 H2 H3 H4] Hi Ht Ht' Ho.
  assert (i < length (threads m))%nat as Hlt by (by eapply lookup_lt_Some).
  split; simpl.
  - intros j. rewrite Ho. case_decide as Hj.
    + subst j. rewrite list_lookup_insert_eq by done. destruct t' as [h' s']; simpl.
      split; [intros [p ->]; eauto | intros (h & p & Hp); simplify_eq; eauto].
    + rewrite list_lookup_insert_ne by done. apply H1.
  - intros j p h. destruct (decide (j = i)) as [->|Hj].
    + rewrite list_lookup_insert_eq by done. intros [= ->]. by destruct (Ht' p).
    + rewrite list_lookup_insert_ne by done. apply H2.
  - intros j g Hj. destruct (H3 j g Hj) as (p & h & Hp & Hg).
    assert (j <> i) by (intros ->; simplify_eq; by destruct (Ht p)).
    exists p, h. by rewrite list_lookup_insert_ne by done.
  - done.
Qed.

Lemma wf_wait m i h p o :
  mon_wf m -> threads m !! i = Some (Thread h (Inside o)) ->
  mon_wf (mkMonitor (data m) None (<[gate p := i :: gates m (gate p)]> (gates m))
            (<[i := Thread h (Waiting p)]> (threads m)) (done_log m)).
Proof.
  intros [H1 H2 H3 H4] Hi.
  assert (i < length (threads m))%nat as Hlt by (by eapply lookup_lt_Some).
  assert (forall g, i ∉ gates m g) as Hng.
  { intros g Hin. destruct (H3 i g Hin) as (p' & h' & Hp' & _). congruence. }
  split; simpl.
  - intros j. split; [done |]. intros (h' & p' & Hj).
    assert (owner m = Some i) as Hio by (apply H1; eauto).
    destruct (decide (j = i)) as [->|Hne].
    + by rewrite list_lookup_insert_eq in Hj by done.
    + rewrite list_lookup_insert_ne in Hj by done.
      assert (owner m = Some j) by (apply H1; eauto). congruence.
  - intros j p' h'. rewrite fn_insert_case. destruct (decide (j = i)) as [->|Hne].
    + rewrite list_lookup_insert_eq by done. intros [= <- <-]. rewrite decide_True by done. by left.
    + rewrite list_lookup_insert_ne by done. intros Hj%H2. case_decide as Hg; [|done].
      rewrite <- Hg. by right.
  - intros j g. rewrite fn_insert_case. intros Hj.
    destruct (decide (j = i)) as [->|Hne].
    + exists p, h. rewrite list_lookup_insert_eq by done. split; [done |].
      case_decide; [done |]. by apply Hng in Hj.
    + rewrite list_lookup_insert_ne by done. apply H3.
      case_decide; [subst; by apply elem_of_cons in Hj as [?|?] | done].
  - intros g. rewrite fn_insert_case. case_decide; [constructor; [apply Hng | done] | done].
Qed.

Lemma wf_owner_other m i j h p :
  mon_wf m -> threads m !! i = Some (Thread h (Inside p)) -> owner m = Some j -> j = i.
Proof. intros [H1 _ _ _] Hi Hj. assert (owner m = Some i) by (apply H1; eauto). congruence. Qed.

Lemma wf_step l m m' : mon_wf m -> mon_step false l m = Some m' -> mon_wf m'.
Proof.
  intros Hwf Hstep. destruct l as [i p|i|i|i]; simpl in Hstep.
  - destruct (threads m !! i) as [[h [| | |]]|] eqn:Hi; try done. case_match; simplify_eq.
    apply (wf_move m i (Thread h Out)); try done. intros j. case_decide; [subst|done].
    split; [|by intros [? ?]]. intros (h' & p' & Hp')%(wf_owner _ Hwf). congruence.
  - destruct (owner m) eqn:Ho; [done |].
    destruct (threads m !! i) as [[h [|p r| |]]|] eqn:Hi; simplify_eq.
    apply (wf_move m i (Thread h (Want p r))); try done. intros j.
    rewrite Ho. case_decide; [subst; simpl; naive_solver | split; congruence].
  - destruct (threads m !! i) as [[h [| |[p|]|]]|] eqn:Hi; simplify_eq.
    + unfold run_point. destruct (pred p (data m)); [|by eapply wf_wait].
      destruct (act p (data m) h) as [[d h'] ws]. apply wf_apply_wakes.
      apply (wf_move m i (Thread h (Inside (Some p)))); try done. intros j.
      case_decide; [subst|done]. split; [eauto |]. intros _. apply (wf_owner _ Hwf). eauto.
    + apply (wf_move m i (Thread h (Inside None))); try done. intros j.
      case_decide as Hj; [split; [done | by intros [? ?]] |]. split; [done |].
      intros Ho. by destruct Hj; eapply wf_owner_other.
  - done.
Qed.

Lemma mon_wf_invariant d hs : invariant (mon_lts false d hs) mon_wf.
Proof.
  apply invariant_ind.
  - intros m ->. split; simpl.
    + intros i. split; [done |]. intros (h & p & Hi).
      rewrite list_lookup_fmap in Hi. by destruct (hs !! i).
    + intros i p h Hi. rewrite list_lookup_fmap in Hi. by destruct (hs !! i).
    + by intros i g ?%not_elem_of_nil.
    + constructor.
  - intros m m' Hwf [l Hl]. by eapply wf_step.
Qed.

(** Counting threads after a wake-up. *)
Lemma count_wake_one f i ts :
  count_if f (wake_one i ts) =
  count_if f ts +
  match ts !! i with
  | Some (Thread h (Waiting p)) =>
      (if f (Thread h (Want p true)) then 1 else 0) - (if f (Thread h (Waiting p)) then 1 else 0)
  | _ => 0
  end.
Proof.
  unfold wake_one. destruct (ts !! i) as [[h [| | |p]]|] eqn:E; try lia.
  rewrite (count_if_insert _ _ _ _ _ E). lia.
Qed.

Lemma count_wake_same f l ts :
  (forall h p, f (Thread h (Want p true)) = f (Thread h (Waiting p))) ->
  count_if f (foldr wake_one ts l) = count_if f ts.
Proof.
  intros Hf. induction l as [|i l IH]; [done |]. simpl. rewrite count_wake_one, IH.
  destruct (foldr wake_one ts l !! i) as [[h []]|]; rewrite ?Hf; lia.
Qed.

Lemma apply_wake_data m w : data (apply_wake m w) = data m.
Proof. by destruct w. Qed.
Lemma apply_wake_log m w : done_log (apply_wake m w) = done_log m.
Proof. by destruct w. Qed.
Lemma wake_all_length l ts : length (foldr wake_one ts l) = length ts.
Proof.
  induction l as [|i l IH]; [done |]. simpl. unfold wake_one at 1.
  repeat case_match; by rewrite ?length_insert.
Qed.
Lemma apply_wake_length m w : length (threads (apply_wake m w)) = length (threads m).
Proof.
  destruct (apply_wake_split m w) as (g & woken & rest & _ & -> & _). apply wake_all_length.
Qed.

Lemma wakes_data m ws : data (foldl apply_wake m ws) = data m.
Proof. revert m. induction ws as [|w ws IH]; intros m; simpl; [done |]. by rewrite IH, apply_wake_data. Qed.
Lemma wakes_log m ws : done_log (foldl apply_wake m ws) = done_log m.
Proof. revert m. induction ws as [|w ws IH]; intros m; simpl; [done |]. by rewrite IH, apply_wake_log. Qed.
Lemma wakes_length m ws : length (threads (foldl apply_wake m ws)) = length (threads m).
Proof. revert m. induction ws as [|w ws IH]; intros m; simpl; [done |]. by rewrite IH, apply_wake_length. Qed.

(** The steps of a run. *)
Inductive run_view (m : monitor) : monitor -> Prop :=
  | rv_start i h p m' :
      threads m !! i = Some (Thread h Out) -> enabled p h = true ->
      m' = set_thread i (Thread h (Want p false)) m -> run_view m m'
  | rv_acquire i h p r m' :
      threads m !! i = Some (Thread h (Want p r)) -> owner m = None ->
      m' = set_owner (Some i) (set_thread i (Thread h (Inside (Some p))) m) -> run_view m m'
  | rv_act i h p d h' ws m' :
      threads m !! i = Some (Thread h (Inside (Some p))) -> pred p (data m) = true ->
      act p (data m) h = (d, h', ws) ->
      m' = foldl apply_wake
        (mkMonitor d (owner m) (gates m) (<[i := Thread h' (Inside (next p))]> (threads m))
           (done_log m ++ [(i, p, data m)])) ws -> run_view m m'
  | rv_wait i h p m' :
      threads m !! i = Some (Thread h (Inside (Some p))) -> pred p (data m) = false ->
      m' = mkMonitor (data m) None (<[gate p := i :: gates m (gate p)]> (gates m))
        (<[i := Thread h (Waiting p)]> (threads m)) (done_log m) -> run_view m m'
  | rv_release i h m' :
      threads m !! i = Some (Thread h (Inside None)) ->
      m' = set_owner None (set_thread i (Thread h Out) m) -> run_view m m'.

Lemma mon_step_view l m m' : mon_step false l m = Some m' -> run_view m m'.
Proof.
  intros Hstep. destruct l as [i p|i|i|i]; simpl in Hstep.
  - destruct (threads m !! i) as [[h [| | |]]|] eqn:Hi; try done. case_match eqn:He; simplify_eq.
    by eapply rv_start.
  - destruct (owner m) eqn:Ho; [done |].
    destruct (threads m !! i) as [[h [|p r| |]]|] eqn:Hi; simplify_eq. by eapply rv_acquire.
  - destruct (threads m !! i) as [[h [| |[p|]|]]|] eqn:Hi; simplify_eq; [|by eapply rv_release].
    unfold run_point. destruct (pred p (data m)) eqn:Hp; [|by eapply rv_wait].
    destruct (act p (data m) h) as [[d h'] ws] eqn:Ha. by eapply rv_act.
  - done.
Qed.

(** Proving an invariant of a monitor. *)
Lemma mon_invariant d hs (I : monitor -> Prop) :
  (forall m, mon_init d hs m -> I m) ->
  (forall m m', mon_wf m -> I m -> run_view m m' -> I m') ->
  invariant (mon_lts false d hs) I.
Proof.
  intros Hi Hs. apply (invariant_strengthen (mon_lts false d hs) mon_wf);
    [apply mon_wf_invariant | done |].
  intros m m' Hwf HI [l Hl]. eapply Hs; [done | done | by eapply mon_step_view].
Qed.
End Monitor.
Arguments monitor : clear implicits.
