(* ===== verification/Semaphore.v ===== *)
(** * CountingSemaphore and Latch

    Models src/async_simple/coro/Semaphore.h and Latch.h as clients of
    [Monitor.v].  The counters are 64-bit words. *)

From S2P Require Import Prelude Monitor.

(** ** CountingSemaphore *)

Module Semaphore.

Inductive point := PAcquire | PRelease (update : N) | PTryAcquire.

#[export] Instance point_eq_dec : EqDecision point.
Proof. solve_decision. Defined.

(** [count_] is the data; nothing is held. *)
#[export] Instance semaphore : Client point Z unit := {
  gate _ := 0%nat;
  pred p count := match p with PAcquire => 0 <? count | _ => true end;
  act p count h :=
    match p with
    | PAcquire => (u64 (count - 1), h, [])
    | PRelease update =>
        (u64 (count + Z.of_N update), h, [if (1 <? update)%N then WakeAll 0 else WakeOne 0])
    | PTryAcquire => (if count =? 0 then count else u64 (count - 1), h, [])
    end;
  next _ := None;
  enabled p _ := true;
}.

(** The change of the counter by an operation that found [count]; the assertion
    of [release] for the template argument [LeastMaxValue]. *)
Definition delta (p : point) (count : Z) : Z :=
  match p with
  | PAcquire => -1
  | PRelease update => Z.of_N update
  | PTryAcquire => if count =? 0 then 0 else -1
  end.

Definition release_ok (LeastMaxValue : Z) (e : nat * point * Z) : Prop :=
  match e with
  | (_, PRelease update, count) =>
      update <> 0%N /\ count <= LeastMaxValue - Z.of_N update
  | _ => True
  end.

Definition total (lg : list (nat * point * Z)) : Z :=
  foldr (fun '(_, p, count) n => delta p count + n) 0 lg.

Lemma total_app l1 l2 : total (l1 ++ l2) = total l1 + total l2.
Proof. induction l1 as [|[[i p] c] l1 IH]; simpl; [done | rewrite IH; lia]. Qed.

(** Threads on their way to testing the counter in [acquire]. *)
Definition acquiring (t : thread point unit) : bool :=
  match stat t with Want PAcquire _ | Inside (Some PAcquire) => true | _ => false end.

Definition count_ok (LeastMaxValue desired : Z) (m : monitor point Z unit) : Prop :=
  Forall (release_ok LeastMaxValue) (done_log m) ->
  data m = desired + total (done_log m) /\ 0 <= data m <= LeastMaxValue.

Lemma count_invariant LeastMaxValue desired hs :
  0 <= desired <= LeastMaxValue -> LeastMaxValue < 2 ^ 64 ->
  invariant (mon_lts false desired hs) (count_ok LeastMaxValue desired).
Proof.
  intros Hd Hmax. apply mon_invariant; [intros m -> _; simpl; lia |].
  intros m m' Hwf HI Hv. destruct Hv as [i h p m' Hi He ->|i h p r m' Hi Ho ->
    |i h p d h' ws m' Hi Hp Ha ->|i h p m' Hi Hp ->|i h m' Hi ->]; try exact HI.
  unfold count_ok in *. rewrite wakes_data, wakes_log. simpl.
  rewrite Forall_app, Forall_singleton. intros [Hf Hl]. destruct (HI Hf) as [H1 H2].
  rewrite total_app. simpl. destruct p as [|update|]; simpl in *; simplify_eq.
  - apply Z.ltb_lt in Hp. rewrite u64_small by lia. lia.
  - rewrite u64_small by lia. lia.
  - destruct (data m =? 0) eqn:E; [lia |]. apply Z.eqb_neq in E. rewrite u64_small by lia. lia.
Qed.

(** ... and nobody sleeps on a positive counter that no thread on its way will
    take. *)
Record wake_ok (m : monitor point Z unit) : Prop := {
  wo_nonneg : 0 <= data m;
  wo_point : forall i h p, threads m !! i = Some (Thread h (Waiting p)) -> p = PAcquire;
  wo_count : gates m 0 <> [] -> data m <= count_if acquiring (threads m);
}.

Lemma wake_ok_move m i t t' d :
  wake_ok m -> threads m !! i = Some t -> (forall p, stat t' <> Waiting p) -> 0 <= d ->
  (gates m 0 <> [] -> d - data m <=
     (if acquiring t' then 1 else 0) - (if acquiring t then 1 else 0)) ->
  forall o lg, wake_ok (mkMonitor d o (gates m) (<[i := t']> (threads m)) lg).
Proof.
  intros [H1 H2 H3] Hi Ht' Hd Hc o lg. split; simpl; [done | |].
  - intros j h p. destruct (decide (j = i)) as [->|Hne].
    + rewrite list_lookup_insert_eq by (by eapply lookup_lt_Some).
      intros [= ->]. by destruct (Ht' p).
    + rewrite list_lookup_insert_ne by done. apply H2.
  - intros Hg. rewrite (count_if_insert _ _ _ _ _ Hi). specialize (H3 Hg). specialize (Hc Hg). lia.
Qed.

(** [release] after the counter has been raised by [update]. *)
Lemma wake_ok_release m i h update :
  mon_wf m -> wake_ok m -> threads m !! i = Some (Thread h (Inside (Some (PRelease update)))) ->
  forall lg, wake_ok (apply_wake (mkMonitor (u64 (data m + Z.of_N update)) (owner m) (gates m)
    (<[i := Thread h (Inside None)]> (threads m)) lg)
    (if (1 <? update)%N then WakeAll 0 else WakeOne 0)).
Proof.
  intros Hwf [H1 H2 H3] Hi lg.
  set (m1 := mkMonitor _ _ _ _ _).
  destruct (apply_wake_split m1 (if (1 <? update)%N then WakeAll 0 else WakeOne 0))
    as (g & woken & rest & Hg & Heq & Hg0 & Hw).
  rewrite Heq. assert (g = 0%nat) as -> by (by destruct (1 <? update)%N).
  assert (forall j h p, <[i := Thread h (Inside None)]> (threads m) !! j =
      Some (Thread h (Waiting p)) -> p = PAcquire) as Hpt.
  { intros j h' p. destruct (decide (j = i)) as [->|Hne].
    - by rewrite list_lookup_insert_eq by (by eapply lookup_lt_Some).
    - rewrite list_lookup_insert_ne by done. apply H2. }
  split; simpl.
  - apply u64_range.
  - intros j h' p. rewrite wake_all_lookup. destruct h.
    destruct (_ !! j) as [[h2 [| | |p']]|] eqn:Ej; intros; simplify_eq.
    case_decide; simplify_eq. destruct h'. by eapply Hpt.
  - rewrite fn_lookup_insert. intros Hrest. destruct (1 <? update)%N eqn:E; [done |].
    apply N.ltb_ge in E. simpl in Hg, Hw. rewrite Hg in Hw.
    destruct woken as [|w [|]]; simpl in Hw; simplify_eq;
      [by destruct rest |].
    simpl. rewrite count_wake_one.
    assert (count_if acquiring (<[i := Thread h (Inside None)]> (threads m)) =
      count_if acquiring (threads m)) as Hcnt.
    { rewrite (count_if_insert _ _ _ _ _ Hi). simpl. lia. }
    rewrite Hcnt.
    destruct (wf_waiting _ Hwf w 0) as (p & h' & Hp & _); [rewrite Hg; by left |].
    assert (w <> i) by congruence.
    rewrite list_lookup_insert_ne, Hp by done. rewrite (H2 _ _ _ Hp). simpl.
    assert (gates m 0 <> []) as Hne by (by rewrite Hg). specialize (H3 Hne).
    assert (u64 (data m + Z.of_N update) <= data m + Z.of_N update); [|lia].
    apply Z.mod_le; lia.
Qed.

Lemma wake_invariant desired hs :
  0 <= desired -> invariant (mon_lts false desired hs) wake_ok.
Proof.
  intros Hd. apply mon_invariant.
  - intros m ->. split; simpl; [lia | | done]. intros i h p Hi.
    rewrite list_lookup_fmap in Hi. by destruct (hs !! i).
  - intros m m' Hwf HI Hv. pose proof HI as [H1 H2 H3].
    destruct Hv as [i h p m' Hi He ->|i h p r m' Hi Ho ->
      |i h p d h' ws m' Hi Hp Ha ->|i h p m' Hi Hp ->|i h m' Hi ->].
    + unfold set_owner, set_thread; simpl. eapply wake_ok_move; try done. intros _. destruct p; simpl; lia.
    + unfold set_owner, set_thread; simpl. eapply wake_ok_move; try done. intros _. destruct p; simpl; lia.
    + assert (forall z, 0 <= z -> u64 z <= z) as Hle by (intros; apply Z.mod_le; lia).
      destruct p as [|update|]; simpl in *; simplify_eq; simpl.
      * apply Z.ltb_lt in Hp. eapply wake_ok_move; try done; [apply u64_range |].
        intros _. simpl. specialize (Hle (data m - 1)). lia.
      * by apply wake_ok_release.
      * eapply wake_ok_move; try done; [case_match; [done | apply u64_range] |].
        intros _. simpl. destruct (data m =? 0) eqn:E; [lia |]. apply Z.eqb_neq in E. specialize (Hle (data m - 1)). lia.
    + simpl in Hp. destruct p; try done. apply Z.ltb_ge in Hp.
      split; simpl; [done | |].
      * intros j h' p. destruct (decide (j = i)) as [->|Hne].
        -- rewrite list_lookup_insert_eq by (by eapply lookup_lt_Some). congruence.
        -- rewrite list_lookup_insert_ne by done. apply H2.
      * intros _. pose proof (count_if_nonneg acquiring (<[i := Thread h (Waiting PAcquire)]> (threads m))).
        lia.
    + unfold set_owner, set_thread; simpl. eapply wake_ok_move; try done. intros _. simpl. lia.
Qed.

(** C19.  The counter is exact: as long as each [release] respects its
    assertion (a positive update that does not exceed [LeastMaxValue]), the
    counter is the initial value plus what was released minus what was acquired,
    it stays between 0 and [LeastMaxValue] and the 64-bit arithmetic never wraps,
    however the operations interleave and whoever waits. *)
Theorem semaphore_count LeastMaxValue desired hs m :
  0 <= desired <= LeastMaxValue -> LeastMaxValue < 2 ^ 64 ->
  reachable (mon_lts false desired hs) m ->
  Forall (release_ok LeastMaxValue) (done_log m) ->
  data m = desired + total (done_log m) /\ 0 <= data m <= LeastMaxValue.
Proof. intros Hd Hm HR Hf. by apply (count_invariant LeastMaxValue desired hs Hd Hm m HR). Qed.

(** C20.  No wake-up is lost, although [release(1)] wakes only one coroutine:
    if a coroutine is suspended in [acquire] while the counter is positive, some
    other coroutine is on its way to the counter in its own [acquire]; so when
    none is, the counter is zero. *)
Theorem semaphore_no_lost_wakeup desired hs m i h p :
  0 <= desired -> reachable (mon_lts false desired hs) m ->
  threads m !! i = Some (Thread h (Waiting p)) ->
  0 <= data m <= count_if acquiring (threads m) /\
  ((forall j t, threads m !! j = Some t -> acquiring t = false) -> data m = 0).
Proof.
  intros Hd HR Hi.
  pose proof (wake_invariant desired hs Hd m HR) as [H1 H2 H3].
  pose proof (mon_wf_invariant desired hs m HR) as Hwf.
  assert (gates m 0 <> []) as Hg.
  { intros Hg. pose proof (wf_gate _ Hwf _ _ _ Hi) as Hin. simpl in Hin. rewrite Hg in Hin.
    by apply not_elem_of_nil in Hin. }
  split; [auto |]. intros Hno. specialize (H3 Hg).
  assert (count_if acquiring (threads m) = 0); [|lia]. clear -Hno.
  induction (threads m) as [|t ts IH]; [done |]. simpl.
  rewrite (Hno 0%nat t eq_refl), IH; [lia |]. intros j t' Hj. by apply (Hno (S j)).
Qed.

(** A cancelled [SpinLock::coLock] throws; inside [ConditionVariable::wait]
    the exception unwinds the caller's [std::unique_lock], which releases a lock
    the coroutine does not own.  Mutual exclusion then fails: two coroutines are
    in the critical section of one semaphore. *)
Theorem cancelled_wait_breaks_lock :
  exists m : monitor point Z unit, reachable (mon_lts true 0 [tt; tt; tt; tt]) m /\
    exists i j h h' p p', i <> j /\
      threads m !! i = Some (Thread h (Inside (Some p))) /\
      threads m !! j = Some (Thread h' (Inside (Some p'))).
Proof.
  exists (run_end (mon_step true)
    [Start 0 PAcquire; Acquire 0; Run 0; Start 1 (PRelease 1); Acquire 1; Run 1; Run 1;
     Start 2 (PRelease 1); Acquire 2; Cancel 0; Start 3 PTryAcquire; Acquire 3]
    (mkMonitor 0 None (fun _ => []) ((fun h => Thread h Out) <$> [tt; tt; tt; tt]) [])).
  split; [apply run_end_reachable; [done | vm_compute; reflexivity] |].
  exists 2%nat, 3%nat, tt, tt, (PRelease 1), PTryAcquire. by split_and!.
Qed.

(** Two acquirers wait, one permit is released. *)
Definition sem_example_end : monitor point Z unit :=
  run_end (mon_step false)
    [Start 0 PAcquire; Acquire 0; Run 0; Start 1 PAcquire; Acquire 1; Run 1;
     Start 2 (PRelease 1); Acquire 2; Run 2; Run 2]
    (mkMonitor 0 None (fun _ => []) ((fun h => Thread h Out) <$> [tt; tt; tt]) []).

Lemma sem_example_reachable : reachable (mon_lts false 0 [tt; tt; tt]) sem_example_end.
Proof. apply run_end_reachable; [reflexivity | vm_compute; reflexivity]. Qed.

Lemma semaphore_count_witness :
  data sem_example_end = 0 + total (done_log sem_example_end) /\ 0 <= data sem_example_end <= 1.
Proof.
  apply (semaphore_count 1 0 [tt; tt; tt]).
  - lia.
  - lia.
  - exact sem_example_reachable.
  - vm_compute. repeat constructor; discriminate.
Defined.

Lemma semaphore_no_lost_wakeup_witness :
  threads sem_example_end !! 0%nat = Some (Thread tt (Waiting PAcquire)) /\
  0 <= data sem_example_end <= count_if acquiring (threads sem_example_end).
Proof.
  assert (threads sem_example_end !! 0%nat = Some (Thread tt (Waiting PAcquire))) as H
    by (vm_compute; reflexivity).
  split; [exact H |].
  refine (proj1 (semaphore_no_lost_wakeup 0 [tt; tt; tt] sem_example_end 0 tt PAcquire _ _ H)).
  - lia.
  - exact sem_example_reachable.
Defined.

End Semaphore.

(** ** Latch *)

Module Latch.

Inductive point := PCountDown (update : N) | PTryWait | PWait.

#[export] Instance latch : Client point Z unit := {
  gate _ := 0%nat;
  pred p count := match p with PWait => count =? 0 | _ => true end;
  act p count h :=
    match p with
    | PCountDown update =>
        let count := u64 (count - Z.of_N update) in
        (count, h, if count =? 0 then [WakeAll 0] else [])
    | PTryWait | PWait => (count, h, [])
    end;
  next _ := None;
  enabled _ _ := true;
}.

(** What has been counted down; the assertion of [count_down]. *)
Definition arrived (lg : list (nat * point * Z)) : Z :=
  foldr (fun '(_, p, _) n => match p with PCountDown update => Z.of_N update | _ => 0 end + n) 0 lg.

Definition down_ok (e : nat * point * Z) : Prop :=
  match e with (_, PCountDown update, count) => Z.of_N update <= count | _ => True end.

Lemma arrived_app l1 l2 : arrived (l1 ++ l2) = arrived l1 + arrived l2.
Proof. induction l1 as [|[[i p] c] l1 IH]; simpl; [done | rewrite IH; lia]. Qed.

Record latch_ok (count : Z) (m : monitor point Z unit) : Prop := {
  lo_point : forall i h p, threads m !! i = Some (Thread h (Waiting p)) -> p = PWait;
  lo_asleep : gates m 0 <> [] -> data m <> 0;
  lo_log : Forall (fun e => match e with (_, PWait, c) => c = 0 | _ => True end) (done_log m);
  lo_count : Forall down_ok (done_log m) ->
    data m = count - arrived (done_log m) /\ 0 <= data m < 2 ^ 64;
}.

Lemma latch_points_insert (ts : list (thread point unit)) i t' :
  (forall i h p, ts !! i = Some (Thread h (Waiting p)) -> p = PWait) ->
  (forall p, stat t' = Waiting p -> p = PWait) ->
  forall j h p, <[i := t']> ts !! j = Some (Thread h (Waiting p)) -> p = PWait.
Proof.
  intros H1 Ht j h p. destruct (decide (j = i)) as [->|Hne].
  - destruct (decide (i < length ts)%nat).
    + rewrite list_lookup_insert_eq by done. intros [= ->]. by apply Ht.
    + rewrite list_insert_ge by lia. apply H1.
  - rewrite list_lookup_insert_ne by done. apply H1.
Qed.

Lemma latch_ok_move count m i t' o :
  latch_ok count m -> (forall p, stat t' <> Waiting p) ->
  latch_ok count (mkMonitor (data m) o (gates m) (<[i := t']> (threads m)) (done_log m)).
Proof.
  intros [H1 H2 H3 H4] Ht. split; simpl; try done.
  apply latch_points_insert; [done |]. intros p Hp. by destruct (Ht p).
Qed.

Lemma latch_ok_act count m i h p d h' ws :
  latch_ok count m -> pred p (data m) = true -> act p (data m) h = (d, h', ws) ->
  latch_ok count (foldl apply_wake
    (mkMonitor d (owner m) (gates m) (<[i := Thread h' (Inside None)]> (threads m))
       (done_log m ++ [(i, p, data m)])) ws).
Proof.
  intros [H1 H2 H3 H4] Hp Ha.
  assert (forall d' p', (match p' with PWait => data m = 0 | _ => True end) ->
    (gates m 0 <> [] -> d' <> 0) ->
    (Forall down_ok (done_log m ++ [(i, p', data m)]) ->
     d' = count - arrived (done_log m ++ [(i, p', data m)]) /\ 0 <= d' < 2 ^ 64) ->
    latch_ok count (mkMonitor d' (owner m) (gates m) (<[i := Thread h' (Inside None)]> (threads m))
       (done_log m ++ [(i, p', data m)]))) as Hbase.
  { intros d' p' Hp' Hg Hc. split; simpl; try done.
    - by apply latch_points_insert.
    - apply Forall_app. split; [done |]. apply Forall_singleton. by destruct p'. }
  destruct p as [update| |]; simpl in *; simplify_eq; simpl.
  - assert (Forall down_ok (done_log m ++ [(i, PCountDown update, data m)]) ->
      u64 (data m - Z.of_N update) =
        count - arrived (done_log m ++ [(i, PCountDown update, data m)]) /\
      0 <= u64 (data m - Z.of_N update) < 2 ^ 64) as Hcount.
    { rewrite Forall_app, Forall_singleton, arrived_app. simpl. intros [Hf Hd].
      destruct (H4 Hf) as [He Hr]. rewrite u64_small by lia. lia. }
    destruct (u64 (data m - Z.of_N update) =? 0) eqn:E; simpl.
    + apply Z.eqb_eq in E.
      split; simpl; try done.
      * intros j h2 p. rewrite wake_all_lookup.
        destruct (_ !! j) as [[h3 [| | |p']]|] eqn:Ej; intros; simplify_eq.
        case_decide; simplify_eq. by eapply (latch_points_insert _ i _ H1) in Ej.
      * apply Forall_app. split; [done |]. by apply Forall_singleton.
    + apply Hbase; try done. by apply Z.eqb_neq in E.
  - apply Hbase; try done. rewrite Forall_app, arrived_app. simpl. intros [Hf _].
    specialize (H4 Hf). lia.
  - apply Z.eqb_eq in Hp. apply Hbase; try done. rewrite Forall_app, arrived_app. simpl.
    intros [Hf _]. specialize (H4 Hf). lia.
Qed.

Lemma latch_invariant count hs :
  0 <= count < 2 ^ 64 -> invariant (mon_lts false count hs) (latch_ok count).
Proof.
  intros Hc. apply mon_invariant.
  - intros m ->. split; simpl; [| by intros [] | constructor | lia].
    intros i h p Hi. rewrite list_lookup_fmap in Hi. by destruct (hs !! i).
  - intros m m' Hwf HI Hv. destruct Hv as [i h p m' Hi He ->|i h p r m' Hi Ho ->
      |i h p d h' ws m' Hi Hp Ha ->|i h p m' Hi Hp ->|i h m' Hi ->];
      unfold set_owner, set_thread; simpl; try (by apply latch_ok_move).
    + by eapply latch_ok_act.
    + destruct HI as [H1 H2 H3 H4]. simpl in Hp. destruct p; try done. apply Z.eqb_neq in Hp.
      split; simpl; try done. apply latch_points_insert; [done |]. simpl. congruence.
Qed.

(** C22.  A latch of [count]: [wait] returns only when the counter is zero, which
    is when exactly [count] arrivals have been counted down (each within its
    assertion); and nobody is left asleep once the counter is zero. *)
Theorem latch_correct count hs m :
  0 <= count < 2 ^ 64 -> reachable (mon_lts false count hs) m ->
  (forall i c, (i, PWait, c) ∈ done_log m -> c = 0) /\
  (Forall down_ok (done_log m) -> data m = count - arrived (done_log m)) /\
  (forall i h p, threads m !! i = Some (Thread h (Waiting p)) -> data m <> 0).
Proof.
  intros Hc HR. pose proof (latch_invariant count hs Hc m HR) as [H1 H2 H3 H4].
  split_and!.
  - intros i c Hin. rewrite Forall_forall in H3. by apply (H3 _ Hin).
  - intros Hf. by apply H4.
  - intros i h p Hi. apply H2. intros Hg.
    pose proof (wf_gate _ (mon_wf_invariant count hs m HR) _ _ _ Hi) as Hin. simpl in Hin.
    rewrite Hg in Hin. by apply not_elem_of_nil in Hin.
Qed.

Definition latch_example_end : monitor point Z unit :=
  run_end (mon_step false)
    [Start 0 PWait; Acquire 0; Run 0; Start 1 (PCountDown 2); Acquire 1; Run 1; Run 1;
     Acquire 0; Run 0]
    (mkMonitor 2 None (fun _ => []) ((fun h => Thread h Out) <$> [tt; tt]) []).

Lemma latch_correct_witness :
  (0%nat, PWait, 0) ∈ done_log latch_example_end /\
  forall i c, (i, PWait, c) ∈ done_log latch_example_end -> c = 0.
Proof.
  split; [vm_compute; right; left |].
  apply (latch_correct 2 [tt; tt] latch_example_end); [lia |].
  apply run_end_reachable; [reflexivity | vm_compute; reflexivity].
Defined.

End Latch.
