(* ===== verification/SharedMutex.v ===== *)
(** * SharedMutex

    Models src/async_simple/coro/SharedMutex.h as a client of [Monitor.v]: one
    32-bit word holds the write-entered flag and the number of readers; gate 1
    blocks whoever must wait for the flag (or for a reader slot), gate 2 the
    writer that waits for the readers to leave. *)

From S2P Require Import Prelude Monitor.

Definition write_entered_flag : Z := Z.shiftl 1 (4 * 8 - 1).
Definition max_readers : Z := u32 (Z.lnot write_entered_flag).

Definition write_entered (state : Z) : bool := negb (Z.land state write_entered_flag =? 0).
Definition readers (state : Z) : Z := Z.land state max_readers.

Inductive point :=
  | PLock | PLockReaders | PTryLock | PUnlock | PLockShared | PTryLockShared | PUnlockShared.

Inductive holding := HNone | HRead | HWrite.

#[export] Instance holding_eq_dec : EqDecision holding.
Proof. solve_decision. Defined.

(** [coLock] has two waits; everything else is one segment. *)
#[export] Instance shared_mutex : Client point Z holding := {
  gate p := match p with PLockReaders => 2%nat | _ => 1%nat end;
  pred p state :=
    match p with
    | PLock => negb (write_entered state)
    | PLockReaders => readers state =? 0
    | PLockShared => state <? max_readers
    | _ => true
    end;
  act p state h :=
    match p with
    | PLock => (Z.lor state write_entered_flag, h, [])
    | PLockReaders => (state, HWrite, [])
    | PTryLock => if state =? 0 then (write_entered_flag, HWrite, []) else (state, h, [])
    | PUnlock => (0, HNone, [WakeAll 1])
    | PLockShared => (u32 (state + 1), HRead, [])
    | PTryLockShared =>
        if state <? max_readers then (u32 (state + 1), HRead, []) else (state, h, [])
    | PUnlockShared =>
        let prev := state in
        let state := u32 (state - 1) in
        (state, HNone,
         if write_entered state then (if readers state =? 0 then [WakeOne 2] else [])
         else if prev =? max_readers then [WakeOne 1] else [])
    end;
  next p := match p with PLock => Some PLockReaders | _ => None end;
  enabled p h :=
    match p with
    | PLockReaders => false
    | PUnlock => bool_decide (h = HWrite)
    | PUnlockShared => bool_decide (h = HRead)
    | _ => bool_decide (h = HNone)
    end;
}.

(** ** The word *)

Lemma flag_value : write_entered_flag = 2 ^ 31.
Proof. reflexivity. Qed.
Lemma max_value : max_readers = 2 ^ 31 - 1.
Proof. reflexivity. Qed.

(** A word with the flag [w] and [r] readers. *)
Definition word (w r : Z) : Z := 2 ^ 31 * w + r.

Lemma readers_word w r : 0 <= r < 2 ^ 31 -> readers (word w r) = r.
Proof.
  intros Hr. unfold readers. rewrite max_value.
  change (2 ^ 31 - 1) with (Z.ones 31). rewrite Z.land_ones by lia.
  unfold word. rewrite Z.add_comm, Z.mul_comm, Z.mod_add by lia. by apply Z.mod_small.
Qed.

Lemma word_bit31 w r : 0 <= r < 2 ^ 31 -> 0 <= w <= 1 -> Z.testbit (word w r) 31 = (w =? 1).
Proof.
  intros Hr Hw. rewrite Z.testbit_odd, Z.shiftr_div_pow2 by lia. unfold word.
  rewrite Z.add_comm, Z.mul_comm, Z.div_add by lia. rewrite Z.div_small by lia.
  assert (w = 0 \/ w = 1) as [-> | ->] by lia; reflexivity.
Qed.

Lemma write_entered_word w r :
  0 <= r < 2 ^ 31 -> 0 <= w <= 1 -> write_entered (word w r) = (w =? 1).
Proof.
  intros Hr Hw. rewrite <- (word_bit31 w r) by done. unfold write_entered.
  rewrite flag_value. destruct (Z.testbit (word w r) 31) eqn:E.
  - apply negb_true_iff, Z.eqb_neq. intros H0.
    assert (Z.testbit (Z.land (word w r) (2 ^ 31)) 31 = false) as Hb by (by rewrite H0).
    by rewrite Z.land_spec, E, Z.pow2_bits_true in Hb by lia.
  - apply negb_false_iff, Z.eqb_eq. apply Z.bits_inj'. intros n Hn.
    rewrite Z.land_spec, Z.bits_0. destruct (decide (n = 31)) as [->|Hne]; [by rewrite E |].
    rewrite Z.pow2_bits_false by done. apply andb_false_r.
Qed.

Lemma lor_flag_word r : 0 <= r < 2 ^ 31 -> Z.lor (word 0 r) write_entered_flag = word 1 r.
Proof.
  intros Hr. rewrite flag_value. pose proof (Z.add_lor_land (word 0 r) (2 ^ 31)) as Hadd.
  assert (Z.land (word 0 r) (2 ^ 31) = 0) as Hland; [|rewrite Hland in Hadd; unfold word in *; lia].
  pose proof (write_entered_word 0 r Hr ltac:(lia)) as H. unfold write_entered in H.
  rewrite flag_value in H. apply negb_false_iff, Z.eqb_eq in H. done.
Qed.

(** ** The invariant *)

Abbreviation rwthread := (thread point holding).

Definition is_reader (t : rwthread) : bool := bool_decide (hold t = HRead).
(** A writer: it holds the lock, or it has set the flag and waits for readers. *)
Definition is_writer (t : rwthread) : bool := bool_decide (hold t = HWrite).
Definition is_entered (t : rwthread) : bool :=
  match stat t with
  | Want PLockReaders _ | Inside (Some PLockReaders) | Waiting PLockReaders => true
  | _ => false
  end.

Definition hold_ok (t : rwthread) : Prop :=
  match stat t with
  | Want p _ | Inside (Some p) | Waiting p =>
      match p with PLockReaders => hold t = HNone | _ => enabled p (hold t) = true end
  | _ => True
  end.

Section Counts.
Implicit Types ts : list rwthread.
Definition num_readers ts : Z := count_if is_reader ts.
Definition num_writers ts : Z := count_if is_writer ts + count_if is_entered ts.
End Counts.

Record rw_ok (m : monitor point Z holding) : Prop := {
  rw_word : data m = word (num_writers (threads m)) (num_readers (threads m));
  rw_writers : num_writers (threads m) <= 1;
  rw_readers : num_readers (threads m) <= max_readers;
  rw_excl : 0 < count_if is_writer (threads m) -> num_readers (threads m) = 0;
  rw_hold : forall i t, threads m !! i = Some t -> hold_ok t;
  rw_gate2 : gates m 2 <> [] -> num_readers (threads m) <> 0;
  rw_gate1 : Z.of_nat (length (threads m)) < max_readers -> gates m 1 <> [] ->
    num_writers (threads m) = 1;
}.

Lemma num_nonneg (ts : list rwthread) :
  0 <= num_readers ts /\ 0 <= count_if is_writer ts /\ 0 <= count_if is_entered ts.
Proof. split_and!; apply count_if_nonneg. Qed.

(** The word read back. *)
Lemma rw_read m : rw_ok m ->
  readers (data m) = num_readers (threads m) /\
  write_entered (data m) = (num_writers (threads m) =? 1) /\
  0 <= num_readers (threads m) < 2 ^ 31 /\ 0 <= num_writers (threads m) <= 1.
Proof.
  intros [H1 H2 H3 _ _ _ _]. pose proof (num_nonneg (threads m)) as (Hr & Hw & He).
  rewrite max_value in H3. unfold num_writers in *.
  split_and!; try lia; rewrite H1; [apply readers_word | apply write_entered_word]; lia.
Qed.

(** The contribution of one thread. *)
Definition reader_n (t : rwthread) : Z := match hold t with HRead => 1 | _ => 0 end.
Definition writer_n (t : rwthread) : Z := match hold t with HWrite => 1 | _ => 0 end.
Definition entered_n (t : rwthread) : Z :=
  match stat t with
  | Want PLockReaders _ | Inside (Some PLockReaders) | Waiting PLockReaders => 1
  | _ => 0
  end.

Lemma num_insert (m : monitor point Z holding) i t t' :
  threads m !! i = Some t ->
  num_readers (<[i := t']> (threads m)) =
    num_readers (threads m) - reader_n t + reader_n t' /\
  count_if is_writer (<[i := t']> (threads m)) =
    count_if is_writer (threads m) - writer_n t + writer_n t' /\
  count_if is_entered (<[i := t']> (threads m)) =
    count_if is_entered (threads m) - entered_n t + entered_n t'.
Proof.
  assert (forall t, (if is_reader t then 1 else 0) = reader_n t) as Hr by (by intros [[] ?]).
  assert (forall t, (if is_writer t then 1 else 0) = writer_n t) as Hw by (by intros [[] ?]).
  assert (forall t, (if is_entered t then 1 else 0) = entered_n t) as He
    by (by intros [? [|[]|[[]|]|[]]]).
  intros Hi. unfold num_readers. by rewrite !(count_if_insert _ _ _ _ _ Hi), !Hr, !Hw, !He.
Qed.

Lemma hold_insert (m : monitor point Z holding) i t' :
  (forall j t, threads m !! j = Some t -> hold_ok t) -> hold_ok t' ->
  forall j t, <[i := t']> (threads m) !! j = Some t -> hold_ok t.
Proof.
  intros H1 Ht j t. destruct (decide (j = i)) as [->|Hne].
  - destruct (decide (i < length (threads m))%nat).
    + rewrite list_lookup_insert_eq by done. by intros [= <-].
    + rewrite list_insert_ge by lia. apply H1.
  - rewrite list_lookup_insert_ne by done. apply H1.
Qed.

(** A thread moves without changing the word or what is counted. *)
Lemma rw_move m i t t' o lg :
  rw_ok m -> threads m !! i = Some t -> hold t' = hold t -> entered_n t' = entered_n t ->
  hold_ok t' ->
  rw_ok (mkMonitor (data m) o (gates m) (<[i := t']> (threads m)) lg).
Proof.
  intros [H1 H2 H3 H4 H5 H6 H7] Hi Hh He Hok.
  destruct (num_insert m i t t' Hi) as (Hr & Hw & Hn).
  unfold reader_n in Hr. unfold writer_n in Hw. rewrite Hh in Hr, Hw. rewrite He in Hn.
  assert (num_readers (<[i := t']> (threads m)) = num_readers (threads m)) as HR by lia.
  assert (count_if is_writer (<[i := t']> (threads m)) = count_if is_writer (threads m)) as HW by lia.
  assert (num_writers (<[i := t']> (threads m)) = num_writers (threads m)) as HN
    by (unfold num_writers; lia).
  split; simpl; rewrite ?HR, ?HN, ?HW, ?length_insert; try done.
  by apply hold_insert.
Qed.

(** ... or joins a gate. *)
Lemma rw_wait m i h p :
  rw_ok m -> threads m !! i = Some (Thread h (Inside (Some p))) -> pred p (data m) = false ->
  rw_ok (mkMonitor (data m) None (<[gate p := i :: gates m (gate p)]> (gates m))
           (<[i := Thread h (Waiting p)]> (threads m)) (done_log m)).
Proof.
  intros HI Hi Hp. pose proof (rw_read m HI) as (Hrd & Hwe & Hrr & Hww).
  assert (rw_ok (mkMonitor (data m) None (gates m) (<[i := Thread h (Waiting p)]> (threads m))
    (done_log m))) as [G1 G2 G3 G4 G5 G6 G7].
  { eapply rw_move; [done | done | done | by destruct p |].
    exact (rw_hold _ HI _ _ Hi). }
  simpl in *.
  destruct (num_insert m i _ (Thread h (Waiting p)) Hi) as (Hr & Hw & Hn).
  split; simpl; try done.
  - rewrite fn_insert_case. case_decide as Hg; [|done]. intros _.
    destruct p; try done. simpl in Hp. apply Z.eqb_neq in Hp.
    change (reader_n (Thread h (Waiting PLockReaders)))
      with (reader_n (Thread h (Inside (Some PLockReaders)))) in Hr. lia.
  - intros Hlen. rewrite fn_insert_case. case_decide as Hg; [|by apply G7]. intros _.
    rewrite length_insert in Hlen.
    assert (num_writers (<[i := Thread h (Waiting p)]> (threads m)) = num_writers (threads m)) as ->.
    { unfold num_writers.
      change (writer_n (Thread h (Waiting p))) with (writer_n (Thread h (Inside (Some p)))) in Hw.
      assert (entered_n (Thread h (Waiting p)) = entered_n (Thread h (Inside (Some p)))) as He
        by (by destruct p). rewrite He in Hn. lia. }
    destruct p; simpl in *; try done.
    + apply negb_false_iff in Hp. rewrite Hp in Hwe. by symmetry in Hwe; apply Z.eqb_eq in Hwe.
    + apply Z.ltb_ge in Hp. pose proof (count_if_le_length is_reader (threads m)) as Hle.
      pose proof (rw_word _ HI) as Hword. unfold num_readers in *.
      rewrite max_value in *. unfold word in Hword. lia.
Qed.

(** Waking changes no count. *)
Lemma rw_counts_wake l (ts : list rwthread) :
  num_readers (foldr wake_one ts l) = num_readers ts /\
  count_if is_writer (foldr wake_one ts l) = count_if is_writer ts /\
  num_writers (foldr wake_one ts l) = num_writers ts.
Proof.
  unfold num_readers, num_writers. by rewrite !count_wake_same.
Qed.

Lemma hold_wake l (ts : list rwthread) :
  (forall j t, ts !! j = Some t -> hold_ok t) ->
  forall j t, foldr wake_one ts l !! j = Some t -> hold_ok t.
Proof.
  intros H1 j t. rewrite wake_all_lookup.
  destruct (ts !! j) as [[h [| | |p]]|] eqn:E; intros; simplify_eq; try (by eapply H1).
  apply H1 in E. by case_decide.
Qed.

(** Two waiters at gate 2 would be two writers. *)
Lemma gate2_single m i j (l : list nat) :
  mon_wf m -> num_writers (threads m) <= 1 ->
  gates m 2 = i :: j :: l -> False.
Proof.
  intros Hwf Hn Hg. pose proof (wf_nodup _ Hwf 2) as Hnd. rewrite Hg in Hnd.
  apply NoDup_cons in Hnd as [Hij _].
  destruct (wf_waiting _ Hwf i 2) as (p & h & Hp & Hgp); [rewrite Hg; by left |].
  destruct (wf_waiting _ Hwf j 2) as (p' & h' & Hp' & Hgp'); [rewrite Hg; right; by left |].
  assert (p = PLockReaders) as -> by (by destruct p).
  assert (p' = PLockReaders) as -> by (by destruct p').
  assert (i <> j) by (intros ->; apply Hij; by left).
  pose proof (count_if_insert is_entered _ i _ (Thread h Out) Hp) as Hc. simpl in Hc.
  assert (0 < count_if is_entered (<[i := Thread h Out]> (threads m))) as Hpos.
  { apply (count_if_pos _ _ j (Thread h' (Waiting PLockReaders))); [|done].
    by rewrite list_lookup_insert_ne. }
  unfold num_writers in Hn. pose proof (num_nonneg (threads m)). lia.
Qed.

(** A segment that notifies nobody. *)
Lemma rw_act_silent m i t t' d lg :
  rw_ok m -> threads m !! i = Some t -> hold_ok t' ->
  let ts := <[i := t']> (threads m) in
  d = word (num_writers ts) (num_readers ts) -> num_writers ts <= 1 ->
  num_readers ts <= max_readers ->
  (0 < count_if is_writer ts -> num_readers ts = 0) ->
  num_readers (threads m) <= num_readers ts -> num_writers (threads m) <= num_writers ts ->
  rw_ok (mkMonitor d (owner m) (gates m) ts lg).
Proof.
  intros [H1 H2 H3 H4 H5 H6 H7] Hi Hok ts Hd Hw Hr Hx Hrm Hwm.
  pose proof (num_nonneg (threads m)) as (Hn1 & Hn2 & Hn3).
  split; simpl; try done.
  - by apply hold_insert.
  - intros Hg. specialize (H6 Hg). lia.
  - unfold ts. rewrite length_insert. intros Hl Hg. specialize (H7 Hl Hg). fold ts. lia.
Qed.

(** The effect of an update on the three counts, by cases. *)
Ltac rw_counts Hi t' :=
  let Hr := fresh "Hr" in let Hw := fresh "Hw" in let Hn := fresh "Hn" in
  destruct (num_insert _ _ _ t' Hi) as (Hr & Hw & Hn);
  cbn [reader_n hold] in Hr; cbn [writer_n hold] in Hw; cbn [entered_n stat] in Hn.

Section Act.
Context (m : monitor point Z holding) (Hwf : mon_wf m) (HI : rw_ok m).
Context (i : nat) (lg : list (nat * point * Z)).

Lemma rw_PLock h :
  threads m !! i = Some (Thread h (Inside (Some PLock))) -> write_entered (data m) = false ->
  rw_ok (mkMonitor (Z.lor (data m) write_entered_flag) (owner m) (gates m)
    (<[i := Thread h (Inside (Some PLockReaders))]> (threads m)) lg).
Proof.
  intros Hi Hp. pose proof (rw_read m HI) as (Hrd & Hwe & Hrr & Hww).
  pose proof (rw_hold _ HI _ _ Hi) as Hh%bool_decide_eq_true. simpl in Hh. subst h.
  rewrite Hp in Hwe. symmetry in Hwe. apply Z.eqb_neq in Hwe.
  pose proof (num_nonneg (threads m)) as (Hn1 & Hn2 & Hn3).
  rw_counts Hi (Thread HNone (Inside (Some PLockReaders)) : rwthread).
  unfold num_writers in Hww, Hwe. eapply rw_act_silent; unfold num_writers; try done; try lia.
  - rewrite (rw_word _ HI). unfold num_writers.
    replace (count_if is_writer (threads m) + count_if is_entered (threads m)) with 0 by lia.
    rewrite lor_flag_word by lia. f_equal; lia.
  - rewrite max_value. lia.
Qed.

Lemma rw_PLockReaders h :
  threads m !! i = Some (Thread h (Inside (Some PLockReaders))) -> readers (data m) = 0 ->
  rw_ok (mkMonitor (data m) (owner m) (gates m) (<[i := Thread HWrite (Inside None)]> (threads m)) lg).
Proof.
  intros Hi Hp. pose proof (rw_read m HI) as (Hrd & Hwe & Hrr & Hww).
  pose proof (rw_hold _ HI _ _ Hi) as Hh. unfold hold_ok in Hh. simpl in Hh. subst h.
  pose proof (num_nonneg (threads m)) as (Hn1 & Hn2 & Hn3).
  rw_counts Hi (Thread HWrite (Inside None) : rwthread).
  unfold num_writers in Hww. eapply rw_act_silent; unfold num_writers; try done; try lia.
  - rewrite (rw_word _ HI). unfold num_writers. f_equal; lia.
  - rewrite max_value. lia.
Qed.

Lemma rw_PTryLock h :
  threads m !! i = Some (Thread h (Inside (Some PTryLock))) -> data m = 0 ->
  rw_ok (mkMonitor write_entered_flag (owner m) (gates m)
    (<[i := Thread HWrite (Inside None)]> (threads m)) lg).
Proof.
  intros Hi Hp. pose proof (rw_read m HI) as (Hrd & Hwe & Hrr & Hww).
  pose proof (rw_hold _ HI _ _ Hi) as Hh%bool_decide_eq_true. simpl in Hh. subst h.
  pose proof (num_nonneg (threads m)) as (Hn1 & Hn2 & Hn3).
  pose proof (rw_word _ HI) as Hword. rewrite Hp in Hword. unfold word in Hword.
  rw_counts Hi (Thread HWrite (Inside None) : rwthread).
  unfold num_writers in Hww, Hword.
  assert (count_if is_writer (threads m) = 0 /\ count_if is_entered (threads m) = 0 /\
    num_readers (threads m) = 0) as (Hz1 & Hz2 & Hz3) by lia.
  eapply rw_act_silent; unfold num_writers; try done; try lia.
  - rewrite flag_value. unfold word. lia.
  - rewrite max_value. lia.
Qed.

Lemma rw_read_lock h p :
  threads m !! i = Some (Thread h (Inside (Some p))) -> p = PLockShared \/ p = PTryLockShared ->
  data m < max_readers ->
  rw_ok (mkMonitor (u32 (data m + 1)) (owner m) (gates m)
    (<[i := Thread HRead (Inside None)]> (threads m)) lg).
Proof.
  intros Hi Hpp Hp. pose proof (rw_read m HI) as (Hrd & Hwe & Hrr & Hww).
  assert (h = HNone) as ->.
  { pose proof (rw_hold _ HI _ _ Hi) as Hh. destruct Hpp as [-> | ->];
      by apply bool_decide_eq_true in Hh. }
  pose proof (num_nonneg (threads m)) as (Hn1 & Hn2 & Hn3).
  pose proof (rw_word _ HI) as Hword. rewrite max_value in Hp. unfold word in Hword.
  rw_counts Hi (Thread HRead (Inside None) : rwthread).
  assert (entered_n (Thread HNone (Inside (Some p))) = 0) as He by (by destruct Hpp as [-> | ->]).
  unfold entered_n in He. simpl in He. rewrite He in Hn.
  unfold num_writers in Hww, Hword.
  assert (count_if is_writer (threads m) = 0 /\ count_if is_entered (threads m) = 0) as [Hz1 Hz2] by lia.
  eapply rw_act_silent; unfold num_writers; rewrite ?max_value; try done; try lia.
  rewrite u32_small by lia. unfold word. lia.
Qed.

Lemma rw_PUnlock h :
  threads m !! i = Some (Thread h (Inside (Some PUnlock))) ->
  rw_ok (apply_wake (mkMonitor 0 (owner m) (gates m)
    (<[i := Thread HNone (Inside None)]> (threads m)) lg) (WakeAll 1)).
Proof.
  intros Hi. pose proof (rw_read m HI) as (Hrd & Hwe & Hrr & Hww).
  pose proof (rw_hold _ HI _ _ Hi) as Hh%bool_decide_eq_true. simpl in Hh. subst h.
  pose proof (num_nonneg (threads m)) as (Hn1 & Hn2 & Hn3).
  pose proof (count_if_pos is_writer _ _ _ Hi eq_refl) as Hpos.
  pose proof (rw_excl _ HI Hpos) as Hr0.
  rw_counts Hi (Thread HNone (Inside None) : rwthread). unfold num_writers in Hww.
  destruct (rw_counts_wake (gates m 1) (<[i := Thread HNone (Inside None)]> (threads m)))
    as (E1 & E2 & E3).
  unfold apply_wake; simpl. split; simpl; rewrite ?E1, ?E2, ?E3; unfold num_writers; try lia.
  - unfold word. lia.
  - rewrite max_value. lia.
  - apply hold_wake, hold_insert; [apply (rw_hold _ HI) | done].
  - rewrite fn_lookup_insert_ne by done. intros Hg. pose proof (rw_gate2 _ HI Hg). lia.
  - by rewrite fn_lookup_insert.
Qed.

Lemma rw_PUnlockShared h :
  threads m !! i = Some (Thread h (Inside (Some PUnlockShared))) ->
  rw_ok (foldl apply_wake (mkMonitor (u32 (data m - 1)) (owner m) (gates m)
    (<[i := Thread HNone (Inside None)]> (threads m)) lg)
    (snd (act PUnlockShared (data m) h))).
Proof.
  intros Hi. pose proof (rw_read m HI) as (Hrd & Hwe & Hrr & Hww).
  pose proof (rw_hold _ HI _ _ Hi) as Hh%bool_decide_eq_true. simpl in Hh. subst h.
  pose proof (num_nonneg (threads m)) as (Hn1 & Hn2 & Hn3).
  pose proof (count_if_pos is_reader _ _ _ Hi eq_refl) as Hpos. fold (num_readers (threads m)) in Hpos.
  rw_counts Hi (Thread HNone (Inside None) : rwthread).
  set (ts := <[i := Thread HNone (Inside None)]> (threads m)) in *.
  assert (num_writers ts = num_writers (threads m)) as Hnw by (unfold num_writers; lia).
  assert (u32 (data m - 1) = word (num_writers ts) (num_readers ts)) as Hd.
  { rewrite (rw_word _ HI). unfold word. rewrite u32_small by lia. lia. }
  rewrite Hd. cbn [act shared_mutex snd]. rewrite Hd.
  rewrite readers_word, write_entered_word by lia.
  assert (num_readers ts <= max_readers) as Hmax by (rewrite max_value; lia).
  assert (0 < count_if is_writer ts -> num_readers ts = 0) as Hx.
  { intros Hp. pose proof (rw_excl _ HI). lia. }
  assert (forall j t, ts !! j = Some t -> hold_ok t) as Hhold
    by (apply hold_insert; [apply (rw_hold _ HI) | done]).
  destruct (num_writers ts =? 1) eqn:Ew.
  - apply Z.eqb_eq in Ew. destruct (num_readers ts =? 0) eqn:Er; simpl.
    + apply Z.eqb_eq in Er. destruct (rw_counts_wake (take 1 (gates m 2)) ts) as (E1 & E2 & E3).
      split; simpl; rewrite ?E1, ?E2, ?E3; try done; try lia.
      * by apply hold_wake.
      * rewrite fn_lookup_insert. intros Hg. exfalso.
        destruct (gates m 2) as [|x [|y l]] eqn:Eg; try done.
        eapply gate2_single; [done | | done]. lia.
    + apply Z.eqb_neq in Er. split; simpl; try done; lia.
  - apply Z.eqb_neq in Ew.
    assert (Z.of_nat (length ts) < max_readers -> gates m 1 = []) as Hg1.
    { unfold ts. rewrite length_insert. intros Hl. destruct (gates m 1) eqn:Eg; [done |].
      pose proof (rw_gate1 _ HI Hl). rewrite Eg in *. specialize (H ltac:(done)). lia. }
    assert (gates m 2 = []) as Hg2.
    { destruct (gates m 2) as [|x l] eqn:Eg; [done |].
      destruct (wf_waiting _ Hwf x 2) as (p & h & Hp & Hgp); [rewrite Eg; by left |].
      assert (p = PLockReaders) as -> by (by destruct p).
      pose proof (count_if_pos is_entered _ _ _ Hp eq_refl). unfold num_writers in *. lia. }
    destruct (data m =? max_readers); simpl.
    + destruct (rw_counts_wake (take 1 (gates m 1)) ts) as (E1 & E2 & E3).
      split; simpl; rewrite ?E1, ?E2, ?E3; try done; try lia.
      * by apply hold_wake.
      * rewrite fn_lookup_insert, wake_all_length. intros Hl. rewrite Hg1 by done. by intros [].
    + split; simpl; try done; try lia.
      intros Hl Hg. by rewrite Hg1 in Hg.
Qed.
End Act.

Lemma rw_act m i h p d h' ws lg :
  mon_wf m -> rw_ok m -> threads m !! i = Some (Thread h (Inside (Some p))) ->
  pred p (data m) = true -> act p (data m) h = (d, h', ws) ->
  rw_ok (foldl apply_wake
    (mkMonitor d (owner m) (gates m) (<[i := Thread h' (Inside (next p))]> (threads m)) lg) ws).
Proof.
  intros Hwf HI Hi Hp Ha.
  destruct p; simpl in *; simplify_eq; simpl.
  - apply negb_true_iff in Hp. by apply rw_PLock.
  - apply Z.eqb_eq in Hp. by apply rw_PLockReaders with h.
  - destruct (data m =? 0) eqn:E; simplify_eq; simpl.
    + apply Z.eqb_eq in E. by apply rw_PTryLock with h.
    + apply rw_move with (t := Thread h' (Inside (Some PTryLock))); done.
  - by apply rw_PUnlock with h.
  - apply Z.ltb_lt in Hp. apply rw_read_lock with h PLockShared; auto.
  - destruct (data m <? max_readers) eqn:E; simplify_eq; simpl.
    + apply Z.ltb_lt in E. apply rw_read_lock with h PTryLockShared; auto.
    + apply rw_move with (t := Thread h' (Inside (Some PTryLockShared))); done.
  - exact (rw_PUnlockShared m Hwf HI i lg h Hi).
Qed.

Lemma count_if_out (f : rwthread -> bool) n :
  f (Thread HNone Out) = false -> count_if f ((fun h => Thread h Out) <$> replicate n HNone) = 0.
Proof.
  intros Hf. induction n as [|n IH]; [done |].
  change (count_if f ((fun h => Thread h Out) <$> replicate (S n) HNone))
    with ((if f (Thread HNone Out) then 1 else 0)
          + count_if f ((fun h => Thread h Out) <$> replicate n HNone)).
  by rewrite Hf, IH.
Qed.

Lemma rw_invariant n : invariant (mon_lts false 0 (replicate n HNone)) rw_ok.
Proof.
  apply mon_invariant.
  - intros m ->. simpl. set (ts := (fun h => Thread h Out) <$> replicate n HNone).
    assert (forall f : rwthread -> bool, f (Thread HNone Out) = false -> count_if f ts = 0) as Hz.
    { intros f Hf. by apply count_if_out. }
    assert (num_readers ts = 0) as Hr by (by apply Hz).
    assert (num_writers ts = 0) as Hw by (unfold num_writers; by rewrite !Hz).
    split; simpl; rewrite ?Hr, ?Hw; try done; try (by intros; lia).
    intros i t Hi. unfold ts in Hi. rewrite list_lookup_fmap in Hi.
    destruct (replicate n HNone !! i); simplify_eq/=. done.
  - intros m m' Hwf HI Hv. destruct Hv as [i h p m' Hi He ->|i h p r m' Hi Ho ->
      |i h p d h' ws m' Hi Hp Ha ->|i h p m' Hi Hp ->|i h m' Hi ->];
      unfold set_owner, set_thread; simpl.
    + eapply rw_move; try done; destruct p; done.
    + eapply rw_move; try done; try exact (rw_hold _ HI _ _ Hi); by destruct p.
    + by eapply rw_act.
    + by apply rw_wait with (i := i).
    + by eapply rw_move.
Qed.

(** ** Properties *)

(** C23.  The shared mutex excludes: at any moment a coroutine that holds it
    exclusively is the only holder.  The word always consists of the
    write-entered flag, set while a writer holds the lock or waits for the
    readers to leave, and of the exact number of readers, which never overflows
    into the flag. *)
Theorem shared_mutex_exclusive n m :
  reachable (mon_lts false 0 (replicate n HNone)) m ->
  data m = word (num_writers (threads m)) (num_readers (threads m)) /\
  0 <= num_writers (threads m) <= 1 /\ 0 <= num_readers (threads m) <= max_readers /\
  (forall i j s s', threads m !! i = Some (Thread HWrite s) -> i <> j ->
     threads m !! j <> Some (Thread HWrite s') /\ threads m !! j <> Some (Thread HRead s')).
Proof.
  intros HR. pose proof (rw_invariant n m HR) as HI.
  destruct (rw_read m HI) as (_ & _ & Hrr & Hww).
  split_and!; try lia; [apply HI | rewrite max_value; lia |].
  intros i j s s' Hi Hij. pose proof (count_if_pos is_writer _ _ _ Hi eq_refl) as Hpos.
  pose proof (num_nonneg (threads m)) as (Hn1 & Hn2 & Hn3). split; intros Hj.
  - pose proof (count_if_insert is_writer _ _ _ (Thread HNone Out) Hi) as Hc. simpl in Hc.
    assert (0 < count_if is_writer (<[i := Thread HNone Out]> (threads m))) as Hp2.
    { apply (count_if_pos _ _ j (Thread HWrite s')); [|done].
      by rewrite list_lookup_insert_ne. }
    unfold num_writers in Hww. lia.
  - pose proof (rw_excl _ HI Hpos) as Hr0.
    pose proof (count_if_pos is_reader _ _ _ Hj eq_refl). unfold num_readers in Hr0. lia.
Qed.

(** C24.  Nobody is left asleep without a reason: the writer that waits at gate 2
    waits for readers that hold the lock; and, with fewer than [max_readers]
    coroutines, whoever waits at gate 1 waits for a writer that holds the lock
    or has set the flag. *)
Theorem shared_mutex_no_lost_wakeup n m i h p :
  reachable (mon_lts false 0 (replicate n HNone)) m ->
  threads m !! i = Some (Thread h (Waiting p)) ->
  (gate p = 2%nat -> 0 < num_readers (threads m)) /\
  (gate p = 1%nat -> Z.of_nat (length (threads m)) < max_readers ->
   num_writers (threads m) = 1).
Proof.
  intros HR Hi. pose proof (rw_invariant n m HR) as HI.
  pose proof (wf_gate _ (mon_wf_invariant _ _ m HR) _ _ _ Hi) as Hin.
  assert (gates m (gate p) <> []) as Hg.
  { intros Hg. rewrite Hg in Hin. by apply not_elem_of_nil in Hin. }
  pose proof (num_nonneg (threads m)). split; intros Hgp; rewrite Hgp in Hg.
  - pose proof (rw_gate2 _ HI Hg). lia.
  - intros Hl. by apply (rw_gate1 _ HI).
Qed.

(** A reader holds the lock, a writer waits for it, a second reader waits. *)
Definition rw_example_end : monitor point Z holding :=
  run_end (mon_step false)
    [Start 0 PLockShared; Acquire 0; Run 0; Run 0; Start 1 PLock; Acquire 1; Run 1; Run 1;
     Start 2 PLockShared; Acquire 2; Run 2]
    (mkMonitor 0 None (fun _ => []) ((fun h => Thread h Out) <$> replicate 3 HNone) []).

Lemma rw_example_reachable : reachable (mon_lts false 0 (replicate 3 HNone)) rw_example_end.
Proof. apply run_end_reachable; [reflexivity | vm_compute; reflexivity]. Qed.

Lemma shared_mutex_exclusive_witness :
  data rw_example_end = 2 ^ 31 + 1 /\
  data rw_example_end = word (num_writers (threads rw_example_end)) (num_readers (threads rw_example_end)).
Proof.
  split; [vm_compute; reflexivity |].
  exact (proj1 (shared_mutex_exclusive 3 rw_example_end rw_example_reachable)).
Defined.

Lemma shared_mutex_no_lost_wakeup_witness :
  threads rw_example_end !! 1%nat = Some (Thread HNone (Waiting PLockReaders)) /\
  0 < num_readers (threads rw_example_end).
Proof.
  assert (threads rw_example_end !! 1%nat = Some (Thread HNone (Waiting PLockReaders))) as H
    by (vm_compute; reflexivity).
  split; [exact H |].
  exact (proj1 (shared_mutex_no_lost_wakeup 3 rw_example_end 1 HNone PLockReaders
    rw_example_reachable H) eq_refl).
Defined.
