(* ===== verification/ThreadPool.v ===== *)
(** * ThreadPool: util/Queue.h, util/ThreadPool.h and executors/SimpleExecutor.h

    The blocking queue, the thread pool over one queue per worker with optional
    work stealing, and the executor over the pool.  A step of the pool is one
    region under a queue's mutex, one access to [_stop], or one notification;
    a client thread and a task that runs in the pool are lists of
    [scheduleById] calls.  [try_lock] may fail, [rand] and spurious wake-ups
    are choices of the schedule. *)

From S2P Require Import Prelude.

(** ** WorkItem and Queue *)

Record WorkItem := Item { canSteal : bool; fn : option nat }.

(** [q_late] is not in the code: it records what was pushed after [stop]. *)
Record queue := Queue { items : list WorkItem; q_stop : bool; q_late : list WorkItem }.

Definition Queue_init : queue := Queue [] false [].

Definition push (w : WorkItem) (q : queue) : queue :=
  Queue (items q ++ [w]) (q_stop q) (if q_stop q then q_late q ++ [w] else q_late q).

(** [locked] says whether [std::try_to_lock] succeeded. *)
Definition try_push (locked : bool) (w : WorkItem) (q : queue) : option queue :=
  if locked then Some (push w q) else None.

Inductive pop_result :=
  | PopItem (w : WorkItem) (q : queue)
  | PopStopped
  | PopWait.

(** [pop] once the mutex is held: the predicate of the wait, then the queue. *)
Definition pop (q : queue) : pop_result :=
  match items q with
  | w :: ws => PopItem w (Queue ws (q_stop q) (q_late q))
  | [] => if q_stop q then PopStopped else PopWait
  end.

Definition try_pop_if (locked : bool) (predict : option (WorkItem -> bool)) (q : queue)
    : option (WorkItem * queue) :=
  if negb locked then None
  else match items q with
       | [] => None
       | w :: ws =>
           if match predict with Some p => negb (p w) | None => false end then None
           else Some (w, Queue ws (q_stop q) (q_late q))
       end.

Definition try_pop (locked : bool) (q : queue) : option (WorkItem * queue) :=
  try_pop_if locked None q.

Definition size (q : queue) : nat := length (items q).
Definition empty (q : queue) : bool := bool_decide (items q = []).
Definition stop (q : queue) : queue := Queue (items q) true (q_late q).

(** ** The pool *)

Inductive ERROR_TYPE := ERROR_NONE | ERROR_POOL_HAS_STOP | ERROR_POOL_ITEM_IS_NULL.

(** A call [scheduleById(fn, id)]. *)
Record call := ById { c_fn : option nat; c_id : Z }.

Inductive call_pc :=
  | CheckStop                            (** reads [_stop] *)
  | TryPush (n : nat)                    (** the loop over non-blocking queues *)
  | Rand                                 (** [std::rand() % _threadNum] *)
  | Push (id : Z) (cs : bool)            (** [_queues[id].push] *)
  | Notify (id : nat).                   (** [_cond.notify_one] *)

Inductive thread_pc :=
  | Loop                                 (** the top of the worker's loop *)
  | Steal (n : nat)
  | Pop
  | Asleep                               (** waits for [_cond] in [pop] *)
  | StopCheck                            (** [pop] returned false *)
  | Run (f : nat)                        (** has the item, is about to call it *)
  | Calls (cs : list call)               (** in a task, or in client code *)
  | InCall (c : call) (at_ : call_pc) (cs : list call)
  | Exited
  | Broken.                              (** indexed [_queues] out of range *)

Inductive dtor_pc :=
  | DIdle | DStop (i : nat) | DNotify (i : nat) | DJoin (i : nat) | DDone.

(** [accepted], [ran] and [results] are logs: what was pushed, which items
    were called, what the calls returned. *)
Record pool := Pool {
  queues : list queue;
  _stop : bool;
  threads : list thread_pc;
  dtor : dtor_pc;
  accepted : list nat;
  ran : list nat;
  results : list (call * ERROR_TYPE);
}.

Inductive plabel :=
  | T (i : nat) (locked : bool) (r : nat)
  | D
  | Spurious (i : nat).

Definition set_pc (i : nat) (c : thread_pc) (p : pool) : pool :=
  Pool (queues p) (_stop p) (<[i := c]> (threads p)) (dtor p) (accepted p) (ran p) (results p).
Definition set_queue (j : nat) (q : queue) (p : pool) : pool :=
  Pool (<[j := q]> (queues p)) (_stop p) (threads p) (dtor p) (accepted p) (ran p) (results p).
Definition set_dtor (d : dtor_pc) (p : pool) : pool :=
  Pool (queues p) (_stop p) (threads p) d (accepted p) (ran p) (results p).
Definition log_accept (f : nat) (p : pool) : pool :=
  Pool (queues p) (_stop p) (threads p) (dtor p) (accepted p ++ [f]) (ran p) (results p).
Definition log_run (f : nat) (p : pool) : pool :=
  Pool (queues p) (_stop p) (threads p) (dtor p) (accepted p) (ran p ++ [f]) (results p).
Definition log_result (c : call) (e : ERROR_TYPE) (p : pool) : pool :=
  Pool (queues p) (_stop p) (threads p) (dtor p) (accepted p) (ran p)
       (results p ++ [(c, e)]).

(** [notify_one] and [notify_all] on queue [j], whose only waiter is worker [j]. *)
Definition notify (j : nat) (p : pool) : pool :=
  match threads p !! j with Some Asleep => set_pc j Pop p | _ => p end.

Definition getItemCount (p : pool) : nat := sum_list (size <$> queues p).

Section pool.
Context (threadNum : nat) (enableWorkSteal : bool) (body : nat -> list call).

Definition getCurrentId (i : nat) : Z :=
  if (i <? threadNum)%nat then Z.of_nat i else -1.

Definition scheduleById_step (i : nat) (locked : bool) (r : nat) (c : call) (f : nat)
    (at_ : call_pc) (cs : list call) (p : pool) : option pool :=
  match at_ with
  | CheckStop =>
      Some (if _stop p then log_result c ERROR_POOL_HAS_STOP (set_pc i (Calls cs) p)
            else if decide (c_id c = -1) then
              set_pc i (InCall c (if enableWorkSteal then TryPush 0 else Rand) cs) p
            else set_pc i (InCall c (Push (c_id c) false) cs) p)
  | TryPush n =>
      if (n <? threadNum * 2)%nat then
        let j := (n mod threadNum)%nat in
        q ← queues p !! j;
        Some (match try_push locked (Item true (Some f)) q with
              | Some q' => log_accept f (set_queue j q' (set_pc i (InCall c (Notify j) cs) p))
              | None => set_pc i (InCall c (TryPush (S n)) cs) p
              end)
      else Some (set_pc i (InCall c Rand cs) p)
  | Rand => Some (set_pc i (InCall c (Push (Z.of_nat (r mod threadNum)) enableWorkSteal) cs) p)
  | Push id steal =>
      Some (if decide (0 <= id) then
              match queues p !! Z.to_nat id with
              | Some q =>
                  log_accept f (set_queue (Z.to_nat id) (push (Item steal (Some f)) q)
                    (set_pc i (InCall c (Notify (Z.to_nat id)) cs) p))
              | None => set_pc i Broken p
              end
            else set_pc i Broken p)
  | Notify j => Some (log_result c ERROR_NONE (notify j (set_pc i (Calls cs) p)))
  end.

Definition worker_step (i : nat) (locked : bool) (c : thread_pc) (p : pool) : option pool :=
  match c with
  | Loop => Some (set_pc i (if enableWorkSteal then Steal 0 else Pop) p)
  | Steal n =>
      if (n <? threadNum * 2)%nat then
        let j := ((i + n) mod threadNum)%nat in
        q ← queues p !! j;
        Some (match try_pop_if locked (Some canSteal) q with
              | Some (w, q') =>
                  set_queue j q' (set_pc i (match fn w with Some f => Run f | None => Pop end) p)
              | None => set_pc i (Steal (S n)) p
              end)
      else Some (set_pc i Pop p)
  | Pop =>
      q ← queues p !! i;
      Some (match pop q with
            | PopItem w q' =>
                set_queue i q' (set_pc i (match fn w with Some f => Run f | None => Loop end) p)
            | PopStopped => set_pc i StopCheck p
            | PopWait => set_pc i Asleep p
            end)
  | StopCheck => Some (set_pc i (if _stop p then Exited else Loop) p)
  | Run f => Some (log_run f (set_pc i (Calls (body f)) p))
  | _ => None
  end.

Definition thread_step (i : nat) (locked : bool) (r : nat) (p : pool) : option pool :=
  t ← threads p !! i;
  match t with
  | Calls [] => Some (set_pc i (if (i <? threadNum)%nat then Loop else Exited) p)
  | Calls (c :: cs) =>
      Some (match c_fn c with
            | None => log_result c ERROR_POOL_ITEM_IS_NULL (set_pc i (Calls cs) p)
            | Some _ => set_pc i (InCall c CheckStop cs) p
            end)
  | InCall c at_ cs => f ← c_fn c; scheduleById_step i locked r c f at_ cs p
  | _ => worker_step i locked t p
  end.

(** [~ThreadPool]. *)
Definition dtor_step (p : pool) : option pool :=
  match dtor p with
  | DIdle => Some (Pool (queues p) true (threads p) (DStop 0) (accepted p) (ran p) (results p))
  | DStop i =>
      match queues p !! i with
      | Some q => Some (set_queue i (stop q) (set_dtor (DNotify i) p))
      | None => Some (set_dtor (DJoin 0) p)
      end
  | DNotify i => Some (notify i (set_dtor (DStop (S i)) p))
  | DJoin i =>
      if (i <? threadNum)%nat then
        match threads p !! i with
        | Some Exited => Some (set_dtor (DJoin (S i)) p)
        | _ => None
        end
      else Some (set_dtor DDone p)
  | DDone => None
  end.

Definition pool_step (l : plabel) (p : pool) : option pool :=
  match l with
  | T i locked r => thread_step i locked r p
  | D => dtor_step p
  | Spurious i =>
      match threads p !! i with Some Asleep => Some (set_pc i Pop p) | _ => None end
  end.

(** The constructed pool, and the client threads with what they call. *)
Definition pool_init (clients : list (list call)) : pool :=
  Pool (replicate threadNum Queue_init) false
       (replicate threadNum Loop ++ (Calls <$> clients)) DIdle [] [] [].
End pool.

(** ** Invariants of the pool *)

Lemma insert_lookup_cases {A} (l : list A) i j x y :
  <[i := x]> l !! j = Some y -> (j = i /\ y = x) \/ (j <> i /\ l !! j = Some y).
Proof. rewrite list_lookup_insert_Some. naive_solver. Qed.

Lemma bind_insert {A B} (f : A -> list B) (l : list A) i x y :
  l !! i = Some x ->
  exists r, Permutation (l ≫= f) (f x ++ r) /\
            Permutation (<[i := y]> l ≫= f) (f y ++ r).
Proof.
  intros Hl. exists ((take i l ≫= f) ++ (drop (S i) l ≫= f)). split.
  - rewrite <- (take_drop_middle l i x Hl) at 1. rewrite bind_app. simpl. solve_Permutation.
  - rewrite insert_take_drop by (by eapply lookup_lt_Some). rewrite bind_app. simpl.
    solve_Permutation.
Qed.

Section pool_invariants.
Context (threadNum : nat) (steal : bool) (body : nat -> list call).
Context (clients : list (list call)).

(** The ids the caller passes are [-1] or a worker's. *)
Definition call_ok (c : call) : Prop := c_id c = -1 \/ 0 <= c_id c < Z.of_nat threadNum.

Context (Hpos : (0 < threadNum)%nat).
Context (Hbody : forall f, Forall call_ok (body f)) (Hclients : Forall (Forall call_ok) clients).

Abbreviation step := (pool_step threadNum steal body).

Definition pool_lts : lts :=
  flts (fun p => p = pool_init threadNum clients) step.

Definition callpc_ok (at_ : call_pc) : Prop :=
  match at_ with
  | Push id _ => 0 <= id < Z.of_nat threadNum
  | Notify j => (j < threadNum)%nat
  | _ => True
  end.

Definition static_ok (i : nat) (t : thread_pc) : Prop :=
  match t with
  | Calls cs => Forall call_ok cs
  | InCall c at_ cs => call_ok c /\ c_fn c <> None /\ callpc_ok at_ /\ Forall call_ok cs
  | Exited => True
  | Broken => False
  | _ => (i < threadNum)%nat
  end.

Definition has_fn (w : WorkItem) : Prop := fn w <> None.

Record wf (p : pool) : Prop := {
  wf_queues : length (queues p) = threadNum;
  wf_threads : (threadNum <= length (threads p))%nat;
  wf_pcs : forall i t, threads p !! i = Some t -> static_ok i t;
  wf_items : forall j q, queues p !! j = Some q -> Forall has_fn (items q);
}.

Lemma wf_set_pc i t p : static_ok i t -> wf p -> wf (set_pc i t p).
Proof.
  intros Ht [H1 H2 H3 H4]. constructor; simpl; auto.
  - by rewrite length_insert.
  - intros j c [[-> ->] | [_ ?]]%insert_lookup_cases; auto.
Qed.

Lemma wf_set_queue j q p : Forall has_fn (items q) -> wf p -> wf (set_queue j q p).
Proof.
  intros Ht [H1 H2 H3 H4]. constructor; simpl; auto.
  - by rewrite length_insert.
  - intros i c [[-> ->] | [_ ?]]%insert_lookup_cases; eauto.
Qed.

Lemma wf_notify j p : wf p -> wf (notify j p).
Proof.
  intros H. unfold notify. destruct (threads p !! j) as [[]|] eqn:E; try done.
  apply wf_set_pc; [|done]. by apply (wf_pcs _ H) in E.
Qed.

Lemma try_pop_if_Some locked pr q w q' :
  try_pop_if locked pr q = Some (w, q') ->
  items q = w :: items q' /\ q_stop q' = q_stop q /\ q_late q' = q_late q.
Proof.
  unfold try_pop_if. destruct locked; simpl; [|done].
  destruct (items q) as [|w0 ws]; [done|]. case_match; naive_solver.
Qed.

Lemma pop_Item q w q' :
  pop q = PopItem w q' ->
  items q = w :: items q' /\ q_stop q' = q_stop q /\ q_late q' = q_late q.
Proof. unfold pop. repeat case_match; naive_solver. Qed.

Lemma pop_others q :
  (pop q = PopStopped -> items q = [] /\ q_stop q = true) /\
  (pop q = PopWait -> items q = [] /\ q_stop q = false).
Proof. unfold pop. repeat case_match; naive_solver. Qed.

Lemma push_late w q : q_stop (push w q) = q_stop q /\ items (push w q) = items q ++ [w].
Proof. done. Qed.

(** *** The effects of a step *)

Definition hand (t : thread_pc) : list nat :=
  match t with Run f => [f] | _ => [] end.

(** Program points whose entry no invariant has to justify. *)
Definition plain (t : thread_pc) : Prop :=
  match t with
  | Asleep | StopCheck | Exited | Run _ | InCall _ (Notify _) _ => False
  | _ => True
  end.

(** The items of the calls that returned [ERROR_NONE]. *)
Definition oks (rs : list (call * ERROR_TYPE)) : list nat :=
  omap (fun r => match r.2 with ERROR_NONE => c_fn r.1 | _ => None end) rs.

Definition set_results rs (p : pool) : pool :=
  Pool (queues p) (_stop p) (threads p) (dtor p) (accepted p) (ran p) rs.

Inductive effect (p : pool) : pool -> Prop :=
  | E_quiet i t t' rs :
      threads p !! i = Some t -> hand t = [] -> t <> Exited -> static_ok i t' -> plain t' ->
      (forall c j cs, t <> InCall c (Notify j) cs) -> oks rs = oks (results p) ->
      effect p (set_results rs (set_pc i t' p))
  | E_take i t j q w q' f :
      threads p !! i = Some t -> (t = Pop \/ exists n, t = Steal n) ->
      queues p !! j = Some q -> items q = w :: items q' -> fn w = Some f ->
      q_stop q' = q_stop q -> q_late q' = q_late q ->
      effect p (set_queue j q' (set_pc i (Run f) p))
  | E_sleep i q :
      threads p !! i = Some Pop -> queues p !! i = Some q -> items q = [] ->
      q_stop q = false -> effect p (set_pc i Asleep p)
  | E_check i q :
      threads p !! i = Some Pop -> queues p !! i = Some q -> items q = [] ->
      q_stop q = true -> effect p (set_pc i StopCheck p)
  | E_exit i :
      threads p !! i = Some StopCheck -> _stop p = true -> effect p (set_pc i Exited p)
  | E_finish i :
      threads p !! i = Some (Calls []) -> (threadNum <= i)%nat -> effect p (set_pc i Exited p)
  | E_run i f :
      threads p !! i = Some (Run f) -> effect p (log_run f (set_pc i (Calls (body f)) p))
  | E_push i c at_ cs j q w f :
      threads p !! i = Some (InCall c at_ cs) -> (forall k, at_ <> Notify k) ->
      queues p !! j = Some q -> fn w = Some f -> c_fn c = Some f ->
      effect p (log_accept f (set_queue j (push w q) (set_pc i (InCall c (Notify j) cs) p)))
  | E_notify i c j cs :
      threads p !! i = Some (InCall c (Notify j) cs) ->
      effect p (log_result c ERROR_NONE (notify j (set_pc i (Calls cs) p)))
  | E_dtor p' : dtor_step threadNum p = Some p' -> effect p p'.

Lemma set_results_same p : set_results (results p) p = p.
Proof. by destruct p. Qed.

Lemma effect_quiet p i t t' :
  threads p !! i = Some t -> hand t = [] -> t <> Exited -> static_ok i t' -> plain t' ->
  (forall c j cs, t <> InCall c (Notify j) cs) -> effect p (set_pc i t' p).
Proof.
  intros. rewrite <- (set_results_same (set_pc i t' p)). by eapply E_quiet.
Qed.

Lemma mod_lt n : (n mod threadNum < threadNum)%nat.
Proof. apply Nat.mod_upper_bound. lia. Qed.

Lemma effect_result p i t t' c e :
  threads p !! i = Some t -> hand t = [] -> t <> Exited -> static_ok i t' -> plain t' ->
  (forall c j cs, t <> InCall c (Notify j) cs) -> e <> ERROR_NONE ->
  effect p (log_result c e (set_pc i t' p)).
Proof.
  intros. apply (E_quiet p i t t' (results p ++ [(c, e)])); try done.
  unfold oks. rewrite omap_app. simpl. destruct e; try done; by rewrite app_nil_r.
Qed.

Ltac quiet :=
  match goal with
  | |- effect _ (log_result _ _ _) =>
      eapply effect_result; [eassumption | done | done | simpl; auto with lia | done | congruence | done]
  | |- _ =>
      eapply effect_quiet; [eassumption | done | done | simpl; auto with lia | done | congruence]
  end.

Lemma worker_effect i locked t p p' :
  wf p -> threads p !! i = Some t ->
  worker_step threadNum steal body i locked t p = Some p' -> effect p p'.
Proof.
  intros Hwf Ht Hs. pose proof (wf_pcs _ Hwf _ _ Ht) as Hok.
  destruct t; simplify_eq/=.
  - destruct steal; quiet.
  - destruct (_ <? _)%nat; simplify_eq/=; [|quiet].
    destruct (queues p !! _) as [q|] eqn:Hq; simplify_eq/=.
    destruct (try_pop_if _ _ q) as [[w q']|] eqn:Hp; [|quiet].
    apply try_pop_if_Some in Hp as (Hi & Hst & Hl).
    pose proof (wf_items _ Hwf _ _ Hq) as Hfn. rewrite Hi in Hfn.
    inversion Hfn as [|? ? Hw _]; subst. unfold has_fn in Hw.
    destruct (fn w) as [f|] eqn:Hf; [|done]. eapply E_take; eauto.
  - destruct (queues p !! i) as [q|] eqn:Hq; simplify_eq/=.
    destruct (pop q) as [w q'| |] eqn:Hp.
    + apply pop_Item in Hp as (Hi & Hst & Hl).
      pose proof (wf_items _ Hwf _ _ Hq) as Hfn. rewrite Hi in Hfn.
      inversion Hfn as [|? ? Hw _]; subst. unfold has_fn in Hw.
      destruct (fn w) as [f|] eqn:Hf; [|done]. eapply E_take; eauto.
    + apply pop_others in Hp as [??]. by eapply E_check.
    + apply pop_others in Hp as [??]. by eapply E_sleep.
  - destruct (_stop p) eqn:Hst; [by apply E_exit | quiet].
  - by apply E_run.
Qed.

Lemma schedule_effect i locked r c f at_ cs p p' :
  wf p -> threads p !! i = Some (InCall c at_ cs) -> c_fn c = Some f ->
  scheduleById_step threadNum steal i locked r c f at_ cs p = Some p' -> effect p p'.
Proof.
  intros Hwf Ht Hcf Hs. pose proof (wf_pcs _ Hwf _ _ Ht) as (Hc & Hf & Hat & Hcs).
  destruct at_; simplify_eq/=.
  - destruct (_stop p); [quiet |].
    destruct (decide (c_id c = -1)) as [|Hid]; [destruct steal; quiet |].
    eapply effect_quiet; [done .. | | done | congruence]. refine (conj Hc (conj Hf (conj _ Hcs))). by destruct Hc.
  - destruct (_ <? _)%nat; simplify_eq/=; [|quiet].
    destruct (queues p !! _) as [q|] eqn:Hq; simplify_eq/=.
    destruct locked; simpl; [|quiet]. by eapply E_push.
  - eapply effect_quiet; [done .. | | done | congruence].
    pose proof (mod_lt r). refine (conj Hc (conj Hf (conj _ Hcs))). simpl. lia.
  - rewrite decide_True by lia.
    destruct (lookup_lt_is_Some_2 (queues p) (Z.to_nat id)) as [q Hq];
      [rewrite (wf_queues _ Hwf); lia |].
    rewrite Hq. by eapply E_push.
  - by eapply E_notify.
Qed.

Lemma step_effect l p p' : wf p -> step l p = Some p' -> effect p p'.
Proof.
  intros Hwf. destruct l as [i locked r| |i]; simpl.
  - unfold thread_step. destruct (threads p !! i) as [t|] eqn:Ht; simpl; [|done].
    pose proof (wf_pcs _ Hwf _ _ Ht) as Hok.
    destruct t as [| | | | | |[|c cs]|c at_ cs| |];
      try (intros Hs; by eapply worker_effect).
    + intros [= <-]. destruct (Nat.ltb_spec i threadNum); [quiet | by apply E_finish].
    + intros [= <-]. simpl in Hok. apply Forall_cons in Hok as [Hc Hcs].
      destruct (c_fn c) eqn:Hf; [|quiet].
      eapply effect_quiet; [done .. | | done | congruence]. simpl. by rewrite Hf.
    + destruct (c_fn c) as [f|] eqn:Hf; simpl; [|done]. intros Hs. by eapply schedule_effect.
  - intros Hs. by apply E_dtor.
  - destruct (threads p !! i) as [[]|] eqn:Ht; try done. intros [= <-].
    apply (wf_pcs _ Hwf) in Ht as Hok. quiet.
Qed.

Lemma wf_log_accept f p : wf p -> wf (log_accept f p).
Proof. intros []. by constructor. Qed.
Lemma wf_log_run f p : wf p -> wf (log_run f p).
Proof. intros []. by constructor. Qed.
Lemma wf_log_result c e p : wf p -> wf (log_result c e p).
Proof. intros []. by constructor. Qed.
Lemma wf_set_dtor d p : wf p -> wf (set_dtor d p).
Proof. intros []. by constructor. Qed.
Lemma wf_set_results rs p : wf p -> wf (set_results rs p).
Proof. intros []. by constructor. Qed.

Lemma wf_effect p p' : wf p -> effect p p' -> wf p'.
Proof.
  intros Hwf He. pose proof (wf_pcs _ Hwf) as Hpcs. pose proof (wf_items _ Hwf) as Hit.
  destruct He.
  - by apply wf_set_results, wf_set_pc.
  - apply wf_set_queue, wf_set_pc; [| |done].
    + specialize (Hit _ _ H1). rewrite H2 in Hit. by inversion Hit.
    + apply Hpcs in H. destruct H0 as [-> | [? ->]]; done.
  - apply wf_set_pc; [by apply Hpcs in H | done].
  - apply wf_set_pc; [by apply Hpcs in H | done].
  - by apply wf_set_pc.
  - by apply wf_set_pc.
  - apply wf_log_run, wf_set_pc; [apply Hbody | done].
  - apply Hpcs in H as (Hc & Hf & _ & Hcs).
    apply wf_log_accept, wf_set_queue, wf_set_pc; [| |done].
    + simpl. apply Forall_app. split; [by apply Hit in H1|].
      apply Forall_singleton. unfold has_fn. by rewrite H2.
    + refine (conj Hc (conj Hf (conj _ Hcs))). simpl. apply lookup_lt_Some in H1.
      by rewrite <- (wf_queues _ Hwf).
  - apply wf_log_result, wf_notify, wf_set_pc; [|done]. by apply Hpcs in H as (_ & _ & _ & ?).
  - unfold dtor_step in H. repeat case_match; simplify_eq/=;
      try apply wf_notify; try by apply wf_set_dtor.
    + destruct Hwf; by constructor.
    + apply wf_set_queue, wf_set_dtor; [|done]. simpl. eauto.
Qed.

(** *** Sleeping and stopping *)

Definition notifying (p : pool) (j : nat) : Prop :=
  exists k c cs, threads p !! k = Some (InCall c (Notify j) cs).

(** Worker [i] sees that its queue is stopped and that nothing older is left. *)
Definition closed (p : pool) (i : nat) : Prop :=
  exists q, queues p !! i = Some q /\ q_stop q = true /\ items q ⊆+ q_late q.

Definition thread_sync (p : pool) (i : nat) (t : thread_pc) : Prop :=
  match t with
  | Asleep =>
      exists q, queues p !! i = Some q /\ (items q = [] \/ notifying p i) /\
        (q_stop q = false \/ dtor p = DNotify i)
  | StopCheck => closed p i
  | Exited => (i < threadNum)%nat -> closed p i
  | _ => True
  end.

Definition all_stopped (p : pool) (n : nat) : Prop :=
  forall j q, (j < n)%nat -> queues p !! j = Some q -> q_stop q = true.
Definition all_exited (p : pool) (n : nat) : Prop :=
  forall j, (j < n)%nat -> threads p !! j = Some Exited.

Definition dtor_sync (p : pool) : Prop :=
  match dtor p with
  | DIdle => _stop p = false
  | DStop i => _stop p = true /\ all_stopped p i
  | DNotify i => _stop p = true /\ all_stopped p (S i)
  | DJoin i => _stop p = true /\ all_stopped p threadNum /\ all_exited p i
  | DDone => _stop p = true /\ all_stopped p threadNum /\ all_exited p threadNum
  end.

Record sync (p : pool) : Prop := {
  sync_threads : forall i t, threads p !! i = Some t -> thread_sync p i t;
  sync_dtor : dtor_sync p;
  sync_stop : forall j q, queues p !! j = Some q -> q_stop q = true -> _stop p = true;
}.

(** What a step of another thread may do to the queue a thread waits on. *)
Definition queue_after (p' : pool) (j : nat) (q q' : queue) : Prop :=
  (q_stop q = true -> q_stop q' = true) /\
  (q_stop q = true -> items q ⊆+ q_late q -> items q' ⊆+ q_late q') /\
  (items q = [] -> items q' = [] \/ notifying p' j) /\
  (q_stop q = false -> q_stop q' = false \/ dtor p' = DNotify j).

Lemma queue_after_refl p' j q : queue_after p' j q q.
Proof. unfold queue_after. naive_solver. Qed.

Lemma thread_sync_frame p p' i t :
  (forall q, queues p !! i = Some q -> exists q', queues p' !! i = Some q' /\ queue_after p' i q q') ->
  (notifying p i -> notifying p' i \/ t <> Asleep) ->
  (dtor p = DNotify i -> dtor p' = DNotify i \/ t <> Asleep) ->
  thread_sync p i t -> thread_sync p' i t.
Proof.
  intros Hq Hn Hd. unfold thread_sync, closed. destruct t; try done.
  - intros (q & Hqi & He & Hs). destruct (Hq _ Hqi) as (q' & Hq' & _ & _ & H1 & H2).
    exists q'. split; [done|]. split.
    + destruct He as [?|He]; [auto|]. destruct (Hn He); [auto|done].
    + destruct Hs as [?|Hs]; [auto|]. destruct (Hd Hs); [auto|done].
  - intros (q & Hqi & He & Hs). destruct (Hq _ Hqi) as (q' & Hq' & H1 & H2 & _).
    exists q'. auto.
  - intros H Hi. destruct (H Hi) as (q & Hqi & He & Hs).
    destruct (Hq _ Hqi) as (q' & Hq' & H1 & H2 & _). exists q'. auto.
Qed.

Lemma notifying_set_pc p i t t' j :
  threads p !! i = Some t -> (forall c cs, t <> InCall c (Notify j) cs) ->
  notifying p j -> notifying (set_pc i t' p) j.
Proof.
  intros Ht Hn (k & c & cs & Hk). exists k, c, cs. simpl.
  rewrite list_lookup_insert_ne; [done|]. intros ->. simplify_eq. by eapply Hn.
Qed.

Lemma all_exited_set_pc p i t t' n :
  threads p !! i = Some t -> t <> Exited -> all_exited p n -> all_exited (set_pc i t' p) n.
Proof.
  intros Ht He Ha j Hj. simpl. rewrite list_lookup_insert_ne; [by apply Ha|].
  intros ->. specialize (Ha _ Hj). congruence.
Qed.

Lemma dtor_sync_mono p p' :
  dtor p' = dtor p -> _stop p' = _stop p ->
  (forall n, all_stopped p n -> all_stopped p' n) ->
  (forall n, all_exited p n -> all_exited p' n) ->
  dtor_sync p -> dtor_sync p'.
Proof.
  unfold dtor_sync. intros -> -> Hs He. destruct (dtor p); naive_solver.
Qed.

(** A thread that moves without touching the queues or the destructor. *)
Lemma sync_set_pc p i t t' :
  threads p !! i = Some t -> t <> Exited ->
  (forall c j cs, t <> InCall c (Notify j) cs) ->
  thread_sync (set_pc i t' p) i t' -> sync p -> sync (set_pc i t' p).
Proof.
  intros Ht He Hn Ht' [H1 H2 H3]. constructor; [| |done].
  - intros j c [[-> ->] | [Hj Hc]]%insert_lookup_cases; [done|].
    eapply (thread_sync_frame p); eauto using queue_after_refl, notifying_set_pc.
  - revert H2. apply dtor_sync_mono; try done. intros n. by eapply all_exited_set_pc.
Qed.

(** A thread that replaces queue [j]. *)
Lemma sync_set_queue p i t t' j q q' :
  threads p !! i = Some t -> t <> Exited ->
  (forall c j cs, t <> InCall c (Notify j) cs) ->
  t' <> StopCheck /\ t' <> Asleep /\ t' <> Exited ->
  queues p !! j = Some q -> q_stop q' = q_stop q ->
  queue_after (set_queue j q' (set_pc i t' p)) j q q' ->
  sync p -> sync (set_queue j q' (set_pc i t' p)).
Proof.
  intros Ht He Hn Hpt Hq Hst Haf [H1 H2 H3].
  pose proof (lookup_lt_Some _ _ _ Hq) as Hlt. constructor.
  - intros k c [[-> ->] | [Hj Hc]]%insert_lookup_cases.
    { destruct Hpt as (? & ? & ?). by destruct t'. }
    apply (thread_sync_frame p); [| | auto |auto].
    + intros q0 Hq0. simpl. destruct (decide (k = j)) as [->|Hkj].
      * rewrite list_lookup_insert_eq by done. simplify_eq. eauto.
      * rewrite list_lookup_insert_ne by done. eauto using queue_after_refl.
    + left. eapply (notifying_set_pc p); eauto.
  - revert H2. apply dtor_sync_mono; try done.
    + intros n Ha k q0 Hk. simpl. intros [[-> ->] | [_ ?]]%insert_lookup_cases.
      * rewrite Hst. by eapply Ha.
      * by eapply Ha.
    + intros n. by eapply (all_exited_set_pc p).
  - intros k q0. simpl. intros [[-> ->] | [_ ?]]%insert_lookup_cases; [|by eapply H3].
    rewrite Hst. by eapply H3.
Qed.

Lemma sync_results rs p : sync p -> sync (set_results rs p).
Proof. intros []. by constructor. Qed.
Lemma sync_log_run f p : sync p -> sync (log_run f p).
Proof. intros []. by constructor. Qed.
Lemma sync_log_accept f p : sync p -> sync (log_accept f p).
Proof. intros []. by constructor. Qed.
Lemma sync_log_result c e p : sync p -> sync (log_result c e p).
Proof. intros []. by constructor. Qed.

Lemma notify_threads j p k t :
  threads (notify j p) !! k = Some t ->
  (k = j /\ t = Pop /\ threads p !! j = Some Asleep) \/
  (threads p !! k = Some t /\ (k = j -> t <> Asleep)).
Proof.
  unfold notify. destruct (threads p !! j) as [[]|] eqn:E; simpl;
    try by (intros H; right; split; [done|]; intros ->; congruence).
  intros [[-> ->] | [? ?]]%insert_lookup_cases; auto.
Qed.

Lemma notify_keeps j p k t :
  threads p !! k = Some t -> t <> Asleep -> threads (notify j p) !! k = Some t.
Proof.
  intros Hk Ha. unfold notify. destruct (threads p !! j) as [[]|] eqn:E; try done.
  simpl. rewrite list_lookup_insert_ne; [done|]. intros ->. congruence.
Qed.

Lemma notify_fields j p :
  queues (notify j p) = queues p /\ _stop (notify j p) = _stop p /\
  dtor (notify j p) = dtor p /\ accepted (notify j p) = accepted p /\
  ran (notify j p) = ran p.
Proof. unfold notify. by repeat case_match. Qed.

(** Notification of worker [j], where [d] is the destructor's next point:
    what the notification was pending for may be forgotten. *)
Lemma sync_notify j d p p0 :
  queues p = queues p0 -> _stop p = _stop p0 -> dtor p = d ->
  (forall k t, threads p !! k = Some t -> thread_sync p k t \/ threads p0 !! k = Some t) ->
  (forall k, k <> j -> notifying p0 k -> notifying p k) ->
  (forall k, k <> j -> dtor p0 = DNotify k -> d = DNotify k) ->
  sync p0 -> dtor_sync (notify j p) -> sync (notify j p).
Proof.
  intros Hq Hs Hd Ht Hn Hdt [H1 H2 H3] Hds.
  destruct (notify_fields j p) as (Eq & Es & Ed & _).
  constructor; [|done|rewrite Eq, Es, Hq, Hs; done].
  intros k t [(-> & -> & _) | [Hk Hna]]%notify_threads; [done|].
  destruct (Ht _ _ Hk) as [Hsy | Hk0].
  - revert Hsy. apply thread_sync_frame; rewrite ?Eq, ?Ed; eauto using queue_after_refl.
    intros (k' & c & cs & Hk'). left. exists k', c, cs. by apply notify_keeps.
  - generalize (H1 _ _ Hk0). apply thread_sync_frame; rewrite ?Eq, ?Ed, ?Hq, ?Hd.
    + eauto using queue_after_refl.
    + destruct (decide (k = j)) as [->|Hne]; [auto|]. intros (k' & c & cs & Hk')%Hn; [|done].
      left. exists k', c, cs. by apply notify_keeps.
    + destruct (decide (k = j)) as [->|Hne]; auto.
Qed.

Lemma all_exited_notify j p n : all_exited p n -> all_exited (notify j p) n.
Proof. intros Ha k Hk. by apply notify_keeps; [apply Ha|]. Qed.

Lemma sync_dtor_step p p' : wf p -> sync p -> dtor_step threadNum p = Some p' -> sync p'.
Proof.
  intros Hwf Hsy. pose proof Hsy as [H1 H2 H3]. unfold dtor_step, dtor_sync in *.
  destruct (dtor p) as [|i|i|i|] eqn:Hd; [|destruct (queues p !! i) as [q|] eqn:Hq| | |];
    intros; simplify_eq/=.
  - constructor; simpl; [|split; [done|intros ? ?; lia]|done].
    intros i t Ht. generalize (H1 _ _ Ht). apply thread_sync_frame; simpl; auto.
    { eauto using queue_after_refl. } rewrite Hd. done.
  - destruct H2 as [Hst Hall]. pose proof (lookup_lt_Some _ _ _ Hq) as Hlt.
    assert (all_stopped (set_queue i (stop q) (set_dtor (DNotify i) p)) (S i)) as Hall'.
    { intros k q0 Hk. simpl. intros [[-> ->] | [? ?]]%insert_lookup_cases; [done|].
      eapply (Hall k); [lia|done]. }
    constructor; simpl; [|done|done].
    intros k t Ht. generalize (H1 _ _ Ht). apply thread_sync_frame; simpl; auto.
    + intros q0 Hq0. destruct (decide (k = i)) as [->|Hne].
      * rewrite list_lookup_insert_eq by done. simplify_eq. eexists. split; [done|].
        unfold queue_after. simpl. auto.
      * rewrite list_lookup_insert_ne by done. eauto using queue_after_refl.
    + rewrite Hd. done.
  - destruct H2 as [Hst Hall]. constructor; simpl; [| |done].
    + intros k t Ht. generalize (H1 _ _ Ht). apply thread_sync_frame; simpl; auto.
      { eauto using queue_after_refl. } rewrite Hd. done.
    + split; [done|]. split; [|intros ? ?; lia]. intros k q0 _ Hk. eapply Hall; [|done].
      simpl in Hk. apply lookup_lt_Some in Hk. apply lookup_ge_None in Hq. lia.
  - destruct H2 as [Hst Hall]. eapply sync_notify with (p0 := p); simpl; auto.
    + rewrite Hd. naive_solver.
    + unfold dtor_sync. destruct (notify_fields i (set_dtor (DStop (S i)) p)) as (Eq & Es & Ed & _).
      rewrite Ed, Es. simpl. unfold all_stopped. rewrite Eq. done.
  - destruct H2 as (Hst & Hall & Hex).
    destruct (Nat.ltb_spec i threadNum); simplify_eq/=.
    + repeat case_match; simplify_eq/=. constructor; simpl; [| |done].
      * intros k t Ht. generalize (H1 _ _ Ht). apply thread_sync_frame; simpl; auto.
        { eauto using queue_after_refl. } rewrite Hd. done.
      * split; [done|]. split; [done|]. intros j Hj.
        destruct (decide (j = i)) as [->|]; [done|]. apply Hex. lia.
    + constructor; simpl; [| |done].
      * intros k t Ht. generalize (H1 _ _ Ht). apply thread_sync_frame; simpl; auto.
        { eauto using queue_after_refl. } rewrite Hd. done.
      * split; [done|]. split; [done|]. intros j Hj. apply Hex. lia.
Qed.

Lemma sync_notify_step p i c j cs e :
  threads p !! i = Some (InCall c (Notify j) cs) ->
  sync p -> sync (log_result c e (notify j (set_pc i (Calls cs) p))).
Proof.
  intros Hi Hsy. apply sync_log_result. eapply sync_notify with (p0 := p); try done; auto.
  - intros k t [[-> ->] | [_ ?]]%insert_lookup_cases; [by left | by right].
  - intros k Hk. eapply notifying_set_pc; [done|]. congruence.
  - assert (dtor_sync (set_pc i (Calls cs) p)) as Hd.
    { generalize (sync_dtor _ Hsy). apply dtor_sync_mono; try done.
      intros n. by eapply all_exited_set_pc. }
    revert Hd. destruct (notify_fields j (set_pc i (Calls cs) p)) as (Eq & Es & Ed & _).
    apply dtor_sync_mono; [by rewrite Ed | by rewrite Es | | eauto using all_exited_notify].
    unfold all_stopped. by rewrite Eq.
Qed.

Lemma sync_effect p p' : wf p -> sync p -> effect p p' -> sync p'.
Proof.
  intros Hwf Hsy He. pose proof (sync_threads _ Hsy) as Hth. destruct He.
  - apply sync_results. eapply sync_set_pc; eauto. by destruct t'.
  - eapply sync_set_queue; eauto; try by destruct H0 as [-> | [? ->]].
    unfold queue_after. rewrite H2, H4, H5. repeat split; auto; try done.
    intros _ Hs. etrans; [|done]. by apply submseteq_cons.
  - eapply sync_set_pc; eauto; try done. exists q. auto.
  - eapply sync_set_pc; eauto; try done. exists q. rewrite H1. auto using submseteq_nil_l.
  - eapply sync_set_pc; eauto; try done. intros _. by apply Hth in H.
  - eapply sync_set_pc; eauto; try done. intros ?. lia.
  - apply sync_log_run. eapply sync_set_pc; eauto; done.
  - apply sync_log_accept. eapply sync_set_queue; eauto; try done.
    { intros ? ? ? [= _ Hat _]. by eapply H0. }
    unfold queue_after. simpl. repeat split; auto.
    + intros -> Hs. by apply submseteq_app.
    + right. exists i, c, cs. simpl. apply list_lookup_insert_eq. by eapply lookup_lt_Some.
  - by eapply sync_notify_step.
  - by eapply sync_dtor_step.
Qed.

(** *** Conservation of the items *)

Definition item_fns (q : queue) : list nat := omap fn (items q).
Definition in_hand (p : pool) : list nat := threads p ≫= hand.
Definition queued (p : pool) : list nat := queues p ≫= item_fns.

Definition conserved (p : pool) : Prop :=
  Permutation (accepted p) (ran p ++ in_hand p ++ queued p).

Lemma in_hand_set_pc p i t t' :
  threads p !! i = Some t ->
  exists r, Permutation (in_hand p) (hand t ++ r) /\
            Permutation (in_hand (set_pc i t' p)) (hand t' ++ r).
Proof. intros Ht. by apply bind_insert. Qed.

Lemma in_hand_notify j p : Permutation (in_hand (notify j p)) (in_hand p).
Proof.
  unfold notify. destruct (threads p !! j) as [[]|] eqn:E; try done.
  destruct (in_hand_set_pc p j _ Pop E) as (r & H1 & H2). by rewrite H1, H2.
Qed.

Lemma queued_set_queue p j q q' :
  queues p !! j = Some q ->
  exists r, Permutation (queued p) (item_fns q ++ r) /\
            Permutation (queued (set_queue j q' p)) (item_fns q' ++ r).
Proof. intros Hq. by apply bind_insert. Qed.

Lemma conserved_set_pc p i t t' :
  threads p !! i = Some t -> hand t = hand t' -> conserved p -> conserved (set_pc i t' p).
Proof.
  intros Ht Hh. unfold conserved. destruct (in_hand_set_pc p i t t' Ht) as (r & H1 & H2).
  rewrite H1, H2, Hh. done.
Qed.

Lemma conserved_effect p p' : conserved p -> effect p p' -> conserved p'.
Proof.
  intros Hc He. destruct He.
  - eapply conserved_set_pc; [done| |done]. rewrite H0. by destruct t'.
  - unfold conserved in *. simpl.
    destruct (in_hand_set_pc p i t (Run f) H) as (r & Hh & Hh').
    destruct (queued_set_queue (set_pc i (Run f) p) j q q' H1) as (r' & Hq & Hq').
    rewrite Hc, Hq', Hh'. change (queued p) with (queued (set_pc i (Run f) p)).
    rewrite Hh, Hq. unfold item_fns. rewrite H2. simpl. rewrite H3.
    destruct H0 as [-> | [n ->]]; simpl; solve_Permutation.
  - by eapply conserved_set_pc.
  - by eapply conserved_set_pc.
  - by eapply conserved_set_pc.
  - by eapply conserved_set_pc.
  - unfold conserved in *. simpl.
    destruct (in_hand_set_pc p i _ (Calls (body f)) H) as (r & Hh & Hh').
    change (queued (log_run _ _)) with (queued p).
    change (in_hand (log_run ?g ?x)) with (in_hand x).
    rewrite Hc, Hh, Hh'. simpl. solve_Permutation.
  - unfold conserved in *. simpl.
    destruct (in_hand_set_pc p i _ (InCall c (Notify j) cs) H) as (r & Hh & Hh').
    destruct (queued_set_queue (set_pc i (InCall c (Notify j) cs) p) j q (push w q) H1)
      as (r' & Hq & Hq').
    change (queued (log_accept ?g ?x)) with (queued x).
    change (in_hand (log_accept ?g (set_queue ?a ?b ?x))) with (in_hand x).
    rewrite Hc, Hq', Hh'. change (queued p) with (queued (set_pc i (InCall c (Notify j) cs) p)).
    rewrite Hh, Hq. unfold item_fns. simpl. rewrite omap_app. simpl. rewrite H2.
    solve_Permutation.
  - assert (conserved (set_pc i (Calls cs) p)) as Hc' by (by eapply conserved_set_pc).
    revert Hc'. unfold conserved, queued.
    destruct (notify_fields j (set_pc i (Calls cs) p)) as (Eq & _ & _ & Ea & Er).
    simpl. change (in_hand (log_result ?a ?b ?x)) with (in_hand x).
    by rewrite Eq, Ea, Er, in_hand_notify.
  - unfold dtor_step in H. repeat case_match; simplify_eq/=; try done.
    + unfold conserved in *. simpl.
      destruct (queued_set_queue (set_dtor (DNotify i) p) i q (stop q)) as (r & Hq & Hq'); [done|].
      rewrite Hq'. rewrite Hc. by rewrite <- Hq.
    + revert Hc. unfold conserved, queued.
      destruct (notify_fields i (set_dtor (DStop (S i)) p)) as (Eq & _ & _ & Ea & Er).
      by rewrite Eq, Ea, Er, in_hand_notify.
Qed.

(** *** What the calls returned *)

Definition pushed (t : thread_pc) : list nat :=
  match t with InCall c (Notify _) _ => option_list (c_fn c) | _ => [] end.

Definition answered (p : pool) : Prop :=
  Permutation (accepted p) (oks (results p) ++ (threads p ≫= pushed)).

Lemma answered_set_pc p i t t' :
  threads p !! i = Some t -> pushed t = pushed t' -> answered p -> answered (set_pc i t' p).
Proof.
  intros Ht Hh. unfold answered. simpl. destruct (bind_insert pushed _ i t t' Ht) as (r & H1 & H2).
  rewrite H1, H2, Hh. done.
Qed.

Lemma pushed_notify j p : Permutation (threads (notify j p) ≫= pushed) (threads p ≫= pushed).
Proof.
  unfold notify. destruct (threads p !! j) as [[]|] eqn:E; try done.
  destruct (bind_insert pushed _ j _ Pop E) as (r & H1 & H2). simpl. by rewrite H1, H2.
Qed.

Lemma pushed_not_notify t : (forall c j cs, t <> InCall c (Notify j) cs) -> pushed t = [].
Proof. intros H. destruct t as [| | | | | | |c [] cs| |]; try done. by edestruct H. Qed.

Lemma answered_effect p p' : answered p -> effect p p' -> answered p'.
Proof.
  intros Ha He. destruct He.
  - assert (answered (set_pc i t' p)) as Ha'.
    { eapply answered_set_pc; [done| |done]. rewrite pushed_not_notify by done.
      destruct t' as [| | | | | | |? [] ?| |]; done. }
    revert Ha'. unfold answered. simpl. by rewrite H5.
  - eapply (answered_set_pc p); [done| |done]. by destruct H0 as [-> | [? ->]].
  - by eapply answered_set_pc.
  - by eapply answered_set_pc.
  - by eapply answered_set_pc.
  - by eapply answered_set_pc.
  - by eapply (answered_set_pc p).
  - unfold answered in *. simpl.
    destruct (bind_insert pushed _ i _ (InCall c (Notify j) cs) H) as (r & H4 & H5).
    rewrite Ha, H4, H5. simpl. rewrite H3. destruct at_; simpl; try solve_Permutation.
    by edestruct H0.
  - unfold answered in *. simpl.
    destruct (notify_fields j (set_pc i (Calls cs) p)) as (_ & _ & _ & Ea & _).
    rewrite Ea, pushed_notify. simpl.
    destruct (bind_insert pushed _ i _ (Calls cs) H) as (r & H4 & H5).
    rewrite Ha, H4, H5. unfold oks, notify. rewrite omap_app.
    replace (results (match threads (set_pc i (Calls cs) p) !! j with
                      | Some Asleep => set_pc j Pop (set_pc i (Calls cs) p)
                      | _ => set_pc i (Calls cs) p end)) with (results p)
      by (by repeat case_match).
    simpl. destruct (c_fn c); simpl; solve_Permutation.
  - unfold dtor_step in H. repeat case_match; simplify_eq/=; try done.
    unfold answered in *. destruct (notify_fields i (set_dtor (DStop (S i)) p)) as (_ & _ & _ & Ea & _).
    rewrite Ea, pushed_notify. unfold notify. by repeat case_match.
Qed.

Record pool_inv (p : pool) : Prop := {
  inv_wf : wf p; inv_sync : sync p; inv_conserved : conserved p; inv_answered : answered p;
}.

Lemma pool_inv_init : pool_inv (pool_init threadNum clients).
Proof.
  assert (forall n, replicate n Loop ≫= hand = []) as Hh by (intros n; induction n; done).
  assert (forall n, replicate n Loop ≫= pushed = []) as Hp by (intros n; induction n; done).
  assert (forall n, replicate n Queue_init ≫= item_fns = []) as Hq by (intros n; induction n; done).
  assert ((Calls <$> clients) ≫= hand = []) as Hh' by (induction clients; inversion Hclients; auto).
  assert ((Calls <$> clients) ≫= pushed = []) as Hp' by (induction clients; inversion Hclients; auto).
  assert (forall i t, (replicate threadNum Loop ++ (Calls <$> clients)) !! i = Some t ->
    (t = Loop /\ (i < threadNum)%nat) \/ exists cs, t = Calls cs /\ Forall call_ok cs) as Hth.
  { intros i t [H'|[Hi H']]%lookup_app_Some; [left; by apply lookup_replicate in H'|right].
    rewrite list_lookup_fmap in H'.
    destruct (clients !! _) as [cs|] eqn:Hcs; simplify_eq/=. exists cs. split; [done|].
    eapply Forall_lookup_1; [apply Hclients | done]. }
  constructor.
  - constructor; simpl.
    + by rewrite length_replicate.
    + rewrite length_app, length_replicate. lia.
    + intros i t [[-> ?] | (cs & -> & ?)]%Hth; done.
    + intros j q [-> _]%lookup_replicate. constructor.
  - constructor; simpl; [|done|].
    + intros i t [[-> ?] | (cs & -> & ?)]%Hth; done.
    + intros j q [-> _]%lookup_replicate. done.
  - unfold conserved, in_hand, queued. simpl. rewrite bind_app, Hh, Hh', Hq. done.
  - unfold answered. simpl. rewrite bind_app, Hp, Hp'. done.
Qed.

Lemma pool_inv_reachable p : reachable pool_lts p -> pool_inv p.
Proof.
  apply (invariant_ind pool_lts).
  - intros s ->. apply pool_inv_init.
  - intros s s' [Hw Hs Hc Ha] [l Hl]. apply step_effect in Hl; [|done].
    constructor; eauto using wf_effect, sync_effect, conserved_effect, answered_effect.
Qed.
End pool_invariants.

(** ** SimpleExecutor

    [Executor::Context] is a pointer; the executor stores the worker's id in
    it, with bit 30 set so that worker 0 does not yield the null context. *)

Definition kContextMask : Z := 0x40000000.

(** [getCurrentId() | kContextMask], an [int64_t]. *)
Definition checkout (currentId : Z) : Z := Z.lor currentId kContextMask.

(** [id & (~kContextMask)]. *)
Definition context_id (ctx : Z) : Z := Z.land ctx (Z.lnot kContextMask).

(** [checkin] runs [func] in place or calls [scheduleById], whose [id] is an
    [int32_t]. *)
Inductive checkin_action := RunHere | Submit (c : call).

Definition checkin (currentId : Z) (func : option nat) (ctx : Z) (prompt : bool) : checkin_action :=
  if (currentId =? context_id ctx) && prompt then RunHere
  else Submit (ById func (s32 (context_id ctx))).

Definition schedule (func : option nat) : call := ById func (-1).

Definition currentThreadInExecutor (currentId : Z) : bool := negb (currentId =? -1).

(** ** Properties *)

(** The pool can make no step, spurious wake-ups and the start of the
    destructor apart. *)
Definition quiescent threadNum steal body (p : pool) : Prop :=
  (forall i locked r, pool_step threadNum steal body (T i locked r) p = None) /\
  (dtor p = DIdle \/ pool_step threadNum steal body D p = None).

Definition calls_ok threadNum (body : nat -> list call) (clients : list (list call)) : Prop :=
  (forall f, Forall (call_ok threadNum) (body f)) /\ Forall (Forall (call_ok threadNum)) clients.

(** At a quiescent state a thread sleeps in [pop] or has finished. *)
Lemma quiescent_thread threadNum steal body p i t :
  wf threadNum p -> quiescent threadNum steal body p -> threads p !! i = Some t ->
  (t = Asleep /\ (i < threadNum)%nat) \/ t = Exited.
Proof.
  intros Hwf [Hq _] Ht. pose proof (wf_pcs _ _ Hwf _ _ Ht) as Hok.
  specialize (Hq i true 0%nat). simpl in Hq. unfold thread_step in Hq. rewrite Ht in Hq. simpl in Hq.
  assert (forall j, (j < threadNum)%nat -> exists q, queues p !! j = Some q) as Hqs.
  { intros j Hj. apply lookup_lt_is_Some_2. by rewrite (wf_queues _ _ Hwf). }
  destruct t as [|n| | | | |[|c cs]|c at_ cs| |]; simpl in *; auto; try done.
  - destruct (_ <? _)%nat; [|done].
    destruct (Hqs ((i + n) mod threadNum)%nat) as [q Hq'];
      [apply Nat.mod_upper_bound; lia | by rewrite Hq' in Hq].
  - destruct (Hqs i Hok) as [q Hq']. by rewrite Hq' in Hq.
  - destruct Hok as (_ & Hf & _). destruct (c_fn c) as [f|]; [|done]. simpl in Hq.
    destruct at_; simpl in Hq; try done.
    destruct (n <? threadNum * 2)%nat eqn:Hn; [|done]. apply Nat.ltb_lt in Hn.
    destruct (Hqs (n mod threadNum)%nat) as [q Hq']; [apply Nat.mod_upper_bound; lia |].
    by rewrite Hq' in Hq.
Qed.

Lemma quiescent_empty_hands threadNum steal body p :
  wf threadNum p -> quiescent threadNum steal body p ->
  in_hand p = [] /\ (threads p ≫= pushed) = [].
Proof.
  intros Hwf Hq.
  assert (Forall (fun t => t = Asleep \/ t = Exited) (threads p)) as H.
  { apply Forall_lookup. intros i t Ht. by destruct (quiescent_thread _ _ _ _ _ _ Hwf Hq Ht) as [[? _]|]; auto. }
  unfold in_hand. induction H as [|t l [-> | ->] _ [IH1 IH2]]; simpl; auto.
Qed.

Lemma bind_submseteq {A B} (f g : A -> list B) l :
  (forall i x, l !! i = Some x -> f x ⊆+ g x) -> (l ≫= f) ⊆+ (l ≫= g).
Proof.
  induction l as [|x l IH]; intros H; simpl; [done|].
  apply submseteq_app; [by apply (H 0%nat) | apply IH; intros i y Hy; by apply (H (S i))].
Qed.

Lemma omap_submseteq {A B} (f : A -> option B) l k : l ⊆+ k -> omap f l ⊆+ omap f k.
Proof. induction 1; simpl; repeat case_match; eauto using submseteq. Qed.

(** A started destructor that can make no step has finished. *)
Lemma quiescent_dtor threadNum steal body p :
  wf threadNum p -> sync threadNum p -> dtor p <> DIdle -> quiescent threadNum steal body p ->
  dtor p = DDone.
Proof.
  intros Hwf Hsy Hd Hq. pose proof (sync_dtor _ _ Hsy) as Hst. unfold dtor_sync in Hst.
  pose proof Hq as [_ [?|HD]]; [done|]. simpl in HD. unfold dtor_step in HD.
  destruct (dtor p) as [|i|i|i|] eqn:Ed; try done; [by destruct (queues p !! i)|].
  destruct Hst as (_ & Hall & _).
  destruct (Nat.ltb_spec i threadNum) as [Hi|]; [|done].
  destruct (lookup_lt_is_Some_2 (threads p) i) as [t Ht].
  { pose proof (wf_threads _ _ Hwf). lia. }
  rewrite Ht in HD.
  destruct (quiescent_thread _ _ _ _ _ _ Hwf Hq Ht) as [[-> _] | ->]; [|done].
  destruct (sync_threads _ _ Hsy _ _ Ht) as (q & Hqi & _ & [Hs | Hs]); [|congruence].
  rewrite (Hall i q Hi Hqi) in Hs. done.
Qed.

(** What was pushed to a queue after it was stopped. *)
Definition late (p : pool) : list nat := queues p ≫= fun q => omap fn (q_late q).

(** C25.  No item is lost or duplicated: what was pushed is what was called,
    what a worker holds, and what is queued, as multisets; a call returns
    [ERROR_NONE] for exactly the items it pushed; and no queue is indexed out of
    range when the ids are valid.  When every thread of a running pool has
    settled, each worker sleeps and each item whose [scheduleById] returned
    [ERROR_NONE] has been called exactly once: no notification was missed. *)
Theorem pool_runs_each_once threadNum steal body clients p :
  (0 < threadNum)%nat -> calls_ok threadNum body clients ->
  reachable (pool_lts threadNum steal body clients) p ->
  Permutation (accepted p) (ran p ++ in_hand p ++ queued p) /\
  Permutation (accepted p) (oks (results p) ++ (threads p ≫= pushed)) /\
  (forall i, threads p !! i <> Some Broken) /\
  (dtor p = DIdle -> quiescent threadNum steal body p ->
   Permutation (oks (results p)) (ran p) /\
   forall i, (i < threadNum)%nat -> threads p !! i = Some Asleep).
Proof.
  intros Hpos [Hb Hc] Hr.
  destruct (pool_inv_reachable _ _ _ _ Hpos Hb Hc p Hr) as [Hwf Hsy Hco Han].
  split; [done|]. split; [done|]. split; [intros i Hi; by apply (wf_pcs _ _ Hwf) in Hi|].
  intros Hd Hq. destruct (quiescent_empty_hands _ _ _ _ Hwf Hq) as [Hh Hp].
  pose proof (sync_dtor _ _ Hsy) as Hst. unfold dtor_sync in Hst. rewrite Hd in Hst.
  assert (forall i, (i < threadNum)%nat -> threads p !! i = Some Asleep) as Hall.
  { intros i Hi. destruct (lookup_lt_is_Some_2 (threads p) i) as [t Ht].
    { pose proof (wf_threads _ _ Hwf). lia. }
    destruct (quiescent_thread _ _ _ _ _ _ Hwf Hq Ht) as [[-> _] | ->]; [done|].
    destruct (sync_threads _ _ Hsy _ _ Ht Hi) as (q & Hqi & Hs & _).
    rewrite (sync_stop _ _ Hsy _ _ Hqi Hs) in Hst. done. }
  split; [|done].
  assert (queued p = []) as Hqd.
  { unfold queued. assert ((queues p ≫= item_fns) ⊆+ (queues p ≫= fun _ => [])) as Hsub.
    { apply bind_submseteq. intros i q Hqi.
      assert (i < threadNum)%nat as Hi by (rewrite <- (wf_queues _ _ Hwf); by eapply lookup_lt_Some).
      destruct (sync_threads _ _ Hsy _ _ (Hall i Hi)) as (q' & Hq' & [He | (k & c & cs & Hk)] & _).
      - simplify_eq. unfold item_fns. by rewrite He.
      - destruct (quiescent_thread _ _ _ _ _ _ Hwf Hq Hk) as [[? _]|]; done. }
    replace (queues p ≫= (fun _ => [])) with (@nil nat) in Hsub
      by (generalize (queues p); intros l; induction l; done).
    by apply submseteq_nil_r in Hsub. }
  unfold conserved, answered in *. rewrite Hh, Hqd in Hco. rewrite Hp in Han.
  rewrite !app_nil_r in *. by rewrite <- Han.
Qed.

(** Example runs: each thread moves [k] times in turn. *)
Definition turns (l : list (nat * nat)) : list plabel :=
  l ≫= fun '(i, k) => replicate k (T i true 0).

(** Task 0 calls [scheduleById(task 1, 1)]; the client calls
    [scheduleById(task 0, 0)]. *)
Definition ex_body (f : nat) : list call := match f with O => [ById (Some 1%nat) 1] | _ => [] end.
Definition ex_clients : list (list call) := [[ById (Some 0%nat) 0]].
Definition ex_pool : pool := pool_init 2 ex_clients.

Lemma ex_calls_ok : calls_ok 2 ex_body ex_clients.
Proof.
  split; [intros [|f]|]; repeat constructor; unfold call_ok; simpl; lia.
Qed.

Definition ex_settled : pool :=
  run_end (pool_step 2 false ex_body) (turns [(0, 2); (1, 2); (2, 5); (0, 9); (1, 5)]%nat) ex_pool.

Lemma pool_runs_each_once_witness :
  Permutation (oks (results ex_settled)) (ran ex_settled) /\ ran ex_settled = [0; 1]%nat.
Proof.
  split; [|reflexivity].
  eapply (pool_runs_each_once 2 false ex_body ex_clients).
  - lia.
  - apply ex_calls_ok.
  - apply run_end_reachable; [done | vm_compute; reflexivity].
  - reflexivity.
  - split; [|left; reflexivity]. intros [|[|[|i]]] locked r; reflexivity.
Defined.

(** C26.  The destructor does not block: when the pool has settled after it
    started, every worker has exited and been joined.  Each item whose
    [scheduleById] returned [ERROR_NONE] has then been called exactly once,
    unless it was pushed after its queue had been stopped. *)
Theorem pool_destructor threadNum steal body clients p :
  (0 < threadNum)%nat -> calls_ok threadNum body clients ->
  reachable (pool_lts threadNum steal body clients) p ->
  dtor p <> DIdle -> quiescent threadNum steal body p ->
  dtor p = DDone /\ (forall i t, threads p !! i = Some t -> t = Exited) /\
  exists dropped, dropped ⊆+ late p /\ Permutation (oks (results p)) (ran p ++ dropped).
Proof.
  intros Hpos [Hb Hc] Hr Hd Hq.
  destruct (pool_inv_reachable _ _ _ _ Hpos Hb Hc p Hr) as [Hwf Hsy Hco Han].
  destruct (quiescent_empty_hands _ _ _ _ Hwf Hq) as [Hh Hp].
  assert (dtor p = DDone) as Hdone by (by eapply quiescent_dtor).
  pose proof (sync_dtor _ _ Hsy) as Hst. unfold dtor_sync in Hst. rewrite Hdone in Hst.
  destruct Hst as (_ & _ & Hex).
  split; [done|]. split.
  { intros i t Ht. destruct (quiescent_thread _ _ _ _ _ _ Hwf Hq Ht) as [[-> Hi]|]; [|done].
    apply Hex in Hi. congruence. }
  exists (queued p). split.
  - apply bind_submseteq. intros i q Hqi. apply omap_submseteq.
    assert (i < threadNum)%nat as Hi by (rewrite <- (wf_queues _ _ Hwf); by eapply lookup_lt_Some).
    destruct (sync_threads _ _ Hsy _ _ (Hex i Hi) Hi) as (q' & Hq' & _ & ?). by simplify_eq.
  - unfold conserved, answered in *. rewrite Hh in Hco. rewrite Hp, app_nil_r in Han.
    by rewrite <- Han.
Qed.

Definition ex_destroyed : pool :=
  run_end (pool_step 2 false ex_body)
    (turns [(0, 2); (1, 2); (2, 5); (0, 9); (1, 5)]%nat ++ replicate 6 D ++
     turns [(0, 2); (1, 2)]%nat ++ replicate 3 D) ex_pool.

Lemma pool_destructor_witness :
  dtor ex_destroyed = DDone /\ late ex_destroyed = [] /\
  exists dropped, dropped ⊆+ late ex_destroyed /\
    Permutation (oks (results ex_destroyed)) (ran ex_destroyed ++ dropped).
Proof.
  split; [reflexivity|]. split; [reflexivity|].
  eapply (pool_destructor 2 false ex_body ex_clients).
  - lia.
  - apply ex_calls_ok.
  - apply run_end_reachable; [done | vm_compute; reflexivity].
  - vm_compute. discriminate.
  - split; [|right; reflexivity]. intros [|[|[|i]]] locked r; reflexivity.
Defined.

(** [scheduleById] reads [_stop] and pushes later, so a task of the pool
    that schedules another one while the pool is being destroyed can get
    [ERROR_NONE] for an item that no worker will ever call. *)
Theorem pool_drops_late_item :
  exists p, reachable (pool_lts 2 false ex_body ex_clients) p /\
    quiescent 2 false ex_body p /\ dtor p = DDone /\
    (ById (Some 1%nat) 1, ERROR_NONE) ∈ results p /\ 1%nat ∉ ran p.
Proof.
  exists (run_end (pool_step 2 false ex_body)
    (turns [(0, 1); (2, 5); (0, 4)]%nat ++ replicate 6 D ++
     turns [(1, 3); (0, 6)]%nat ++ replicate 3 D) ex_pool).
  split; [apply run_end_reachable; [done | vm_compute; reflexivity]|].
  split; [|split; [reflexivity|]].
  - split; [|right; reflexivity]. intros [|[|[|i]]] locked r; reflexivity.
  - vm_compute. split; [right; left|]. intros H; inversion H as [|? ? ? H']; inversion H'.
Qed.

(** Bit 30 is the only one [checkout] and [checkin] change. *)
Lemma context_id_checkout_bits id :
  - 2 ^ 31 <= id < 2 ^ 31 ->
  context_id (checkout id) = if Z.testbit id 30 then id - 2 ^ 30 else id.
Proof.
  intros Hr. unfold context_id, checkout.
  rewrite Z.land_lor_distr_l, Z.land_lnot_diag, Z.lor_0_r, <- Z.ldiff_land.
  change kContextMask with (2 ^ 30). destruct (Z.testbit id 30) eqn:Hb.
  - assert (Z.land id (2 ^ 30) = 2 ^ 30) as Hl.
    { apply Z.bits_inj'. intros n Hn. rewrite Z.land_spec, Z.pow2_bits_eqb by lia.
      destruct (Z.eqb_spec 30 n) as [<-|]; [by rewrite Hb | by rewrite andb_false_r]. }
    rewrite <- Hl at 2. pose proof (Z.add_nocarry_lxor (Z.ldiff id (2 ^ 30)) (Z.land id (2 ^ 30))).
    assert (Z.land (Z.ldiff id (2 ^ 30)) (Z.land id (2 ^ 30)) = 0) as H0.
    { rewrite Z.ldiff_land. apply Z.bits_inj'. intros n Hn. rewrite !Z.land_spec, Z.lnot_spec, Z.bits_0 by lia.
      destruct (Z.testbit id n), (Z.testbit (2 ^ 30) n); done. }
    rewrite <- (Z.lor_ldiff_and id (2 ^ 30)) at 2.
    rewrite <- Z.lxor_lor, <- H by done. lia.
  - apply Z.bits_inj'. intros n Hn. rewrite Z.ldiff_spec, Z.pow2_bits_eqb by lia.
    destruct (Z.eqb_spec 30 n) as [<-|]; [by rewrite Hb | by rewrite andb_true_r].
Qed.

(** C28.  A context checked out on a worker brings a function back to that
    worker: [checkin] runs it in place on the same thread when prompted, and
    otherwise submits it to the worker's queue.  Outside the pool the context
    loses the thread's id -1, and [checkin] submits to a negative queue index,
    which every pool steps into. *)
Theorem checkin_returns_to_context (i : nat) current f prompt threadNum steal k cs p :
  Z.of_nat i < 2 ^ 30 ->
  checkin current f (checkout (Z.of_nat i)) prompt =
    (if (current =? Z.of_nat i) && prompt then RunHere else Submit (ById f (Z.of_nat i))) /\
  checkin (-1) f (checkout (-1)) prompt = Submit (ById f (-1 - 2 ^ 30)) /\
  scheduleById_step threadNum steal i true k (ById f (-1 - 2 ^ 30)) 0 (Push (-1 - 2 ^ 30) false) cs p
    = Some (set_pc i Broken p).
Proof.
  intros Hi. split; [|split; [|reflexivity]].
  - unfold checkin. rewrite context_id_checkout_bits by lia.
    assert (Z.testbit (Z.of_nat i) 30 = false) as ->.
    { apply Z.testbit_false; [lia|]. rewrite Z.div_small by lia. done. }
    rewrite s32_small by lia. done.
  - destruct prompt; reflexivity.
Qed.

Lemma checkin_returns_to_context_witness :
  checkin 5 None (checkout 5) true = RunHere /\
  checkin 6 None (checkout 5) true = Submit (ById None 5).
Proof.
  split.
  - refine (eq_trans (proj1 (checkin_returns_to_context 5 5 None true 8 false 0 [] ex_pool _)) _);
      [lia | reflexivity].
  - refine (eq_trans (proj1 (checkin_returns_to_context 5 6 None true 8 false 0 [] ex_pool _)) _);
      [lia | reflexivity].
Defined.
