(* ===== verification/Lazy.v ===== *)
(** * Lazy: coroutine frames, awaiters and executors

    Models coro/Lazy.h, coro/LazyLocalBase.h, coro/DetachedCoroutine.h,
    coro/Sleep.h, coro/Dispatch.h, coro/FutureAwaiter.h,
    coro/ResumeBySchedule.h, coro/SyncAwait.h and the timer awaiter of
    Executor.h.  A coroutine body is a tree of the operations a [Lazy] offers;
    the machine keeps the coroutine frames and lazy locals in heaps and moves a
    token: the coroutine that runs, or what a suspended one waits for.  Values
    are integers.  What the environment decides (whether a signal has been
    triggered, whether a future is ready, whether [schedule] accepts) is in the
    label of the step. *)

From S2P Require Import Prelude Try.

(** ** Coroutine bodies *)

(** What a [co_await] expression yields in the body: a value or an exception. *)
Inductive res := Val (v : Z) | Exc (e : exn).

(** [LazyLocalBase]: the type tag and the slot (null after [forbidSignal]). *)
Record LazyLocalBase := Local { _typeinfo : option nat; _slot : option nat }.

Inductive code :=
  | CoReturn (v : Z)                               (** [co_return v] *)
  | CoThrow (e : exn)                              (** an exception leaves the body *)
  | Emit (n : Z) (k : code)                        (** an effect of the user's code *)
  | CoAwait (c : code) (k : res -> code)           (** [co_await lazy] *)
  | CoAwaitTry (c : code) (k : Try Z -> code)      (** [co_await lazy.coAwaitTry()] *)
  | SetLazyLocal (l : LazyLocalBase) (c : code)    (** the body of [setLazyLocalImpl] *)
  | GetExecutor (k : option nat -> code)           (** [co_await CurrentExecutor{}] *)
  | GetLocal (k : option LazyLocalBase -> code)    (** [co_await CurrentLazyLocals{}] *)
  | GetSlot (k : option nat -> code)               (** [co_await CurrentSlot{}] *)
  | DoForbidSignal (k : code)                      (** [co_await ForbidSignal{}] *)
  | DoYield (k : option exn -> code)               (** [co_await Yield{}] *)
  | DoAfter (ex : nat) (slot : option nat) (k : option exn -> code)
                                                   (** [co_await ex->after(dur, hint, slot)] *)
  | DoDispatch (ex : nat) (k : option exn -> code) (** [co_await dispatch(ex)] *)
  | AwaitFuture (by_schedule : bool) (fu : nat) (k : res -> code).
      (** [co_await future] and [co_await ResumeBySchedule(future)] *)

(** [sleep(ex, dur, hint)] and [sleep(dur, hint)]. *)
Definition of_exn (o : option exn) : code :=
  match o with Some e => CoThrow e | None => CoReturn 0 end.
Definition of_res (r : res) : code :=
  match r with Val v => CoReturn v | Exc e => CoThrow e end.
Definition sleep_on (ex : nat) : code := GetSlot (fun slot => DoAfter ex slot of_exn).
Definition sleep : code :=
  GetExecutor (fun ex => match ex with
                         | None => CoReturn 0
                         | Some e => CoAwait (sleep_on e) of_res
                         end).

(** ** Frames *)

(** Where a suspended coroutine will continue; an awaiter of a [Lazy] keeps the
    handle of the child. *)
Inductive point :=
  | Initial (c : code)
  | Running
  | InAwait (child : nat) (k : res -> code)
  | InAwaitTry (child : nat) (k : Try Z -> code)
  | InYield (slot : option nat) (msg : string) (k : option exn -> code)
  | InDispatch (k : option exn -> code)
  | InFuture (k : res -> code) (r : res)
  | InCallback (child : nat)     (** the detached coroutine of [start] *)
  | FinalSuspend.

(** [f_local] is the local that lives in the frame ([setLazyLocalImpl]). *)
Record frame := Frame {
  f_point : point;
  _continuation : option nat;
  _executor : option nat;
  _lazy_local : option nat;
  _value : Try Z;
  f_local : option nat;
}.

Inductive token :=
  | Run (h : nat) (c : code)
  | Resume (h : nat)
  | Scheduled (ex : nat) (h : nat)
  | WaitFuture (fu : nat) (h : nat) (slot : option nat) (k : res -> code)
  | Lost (h : nat)               (** nobody holds the suspended [h] any more *)
  | Finished
  | Crashed (why : string).

Record state := State {
  frames : gmap nat frame;
  locals : gmap nat LazyLocalBase;
  next : nat;
  log : list Z;
  callbacks : list (Try Z);
  tok : token;
}.

(** What the environment answers in a step. *)
Record answer := Answer {
  has_triggered : bool;     (** [slot->hasTriggered(Terminate)] *)
  is_canceled : bool;       (** [slot->canceled()] *)
  future_ready : bool;
  schedule_ok : bool;
}.

Definition set_tok (t : token) (s : state) : state :=
  State (frames s) (locals s) (next s) (log s) (callbacks s) t.
Definition set_frame (h : nat) (f : frame) (s : state) : state :=
  State (<[h := f]> (frames s)) (locals s) (next s) (log s) (callbacks s) (tok s).
Definition emit (n : Z) (s : state) : state :=
  State (frames s) (locals s) (next s) (log s ++ [n]) (callbacks s) (tok s).
Definition call_back (t : Try Z) (s : state) : state :=
  State (frames s) (locals s) (next s) (log s) (callbacks s ++ [t]) (tok s).
Definition set_locals (m : gmap nat LazyLocalBase) (s : state) : state :=
  State (frames s) m (next s) (log s) (callbacks s) (tok s).

Definition with_point (p : point) (f : frame) : frame :=
  Frame p (_continuation f) (_executor f) (_lazy_local f) (_value f) (f_local f).
Definition with_executor (ex : option nat) (f : frame) : frame :=
  Frame (f_point f) (_continuation f) ex (_lazy_local f) (_value f) (f_local f).
Definition with_value (t : Try Z) (f : frame) : frame :=
  Frame FinalSuspend (_continuation f) (_executor f) (_lazy_local f) t (f_local f).
Definition with_local (l : nat) (f : frame) : frame :=
  Frame (f_point f) (_continuation f) (_executor f) (_lazy_local f) (_value f) (Some l).

(** [handle.destroy()]: the frame and the local that lives in it. *)
Definition destroy (h : nat) (s : state) : state :=
  State (delete h (frames s))
        (match frames s !! h with
         | Some f => match f_local f with Some l => delete l (locals s) | None => locals s end
         | None => locals s
         end) (next s) (log s) (callbacks s) (tok s).

(** [LazyPromise::result] and [tryResult]. *)
Definition result (t : Try Z) : option res :=
  match t with
  | TError (Some e) => Some (Exc e)
  | TValue v => Some (Val v)
  | _ => None
  end.
Definition tryResult (t : Try Z) : option (Try Z) :=
  match t with TNothing => None | _ => Some t end.

(** [promise._lazy_local->getSlot()]. *)
Definition slot_of (ll : option nat) (s : state) : option nat :=
  l ← ll; local ← locals s !! l; _slot local.

Definition local_of (ll : option nat) (s : state) : option LazyLocalBase :=
  l ← ll; locals s !! l.

(** [signalHelper{Terminate}.checkHasCanceled(slot, msg)]. *)
Definition cancel_exn (msg : string) : exn := SignalError 1 msg.
Definition checkHasCanceled (a : answer) (slot : option nat) (msg : string) : option exn :=
  match slot with
  | Some _ => if is_canceled a then Some (cancel_exn msg) else None
  | None => None
  end.
Definition hasCanceled (a : answer) (slot : option nat) : bool :=
  match slot with Some _ => has_triggered a | None => false end.

Definition yield_msg : string := "async_simple::Yield/SpinLock is canceled!".
Definition timer_msg : string := "async_simple's timer is canceled!".
Definition future_msg : string := "FutureAwaiter is cancelled by signal".

(** [detail::moveSlotFromContinuation]: the new value of both locals. *)
Definition moveSlotFromContinuation (now : LazyLocalBase) (pre : option LazyLocalBase)
    : option (LazyLocalBase * option LazyLocalBase) :=
  match pre with
  | None => Some (now, None)
  | Some p =>
      match _typeinfo p, _slot p, _slot now with
      | None, Some sl, None => Some (Local (_typeinfo now) (Some sl), Some (Local None None))
      | _, _, _ => None
      end
  end.

(** [detail::ChangeLaziessExecutorTo]: from [h] along the continuations up to
    the detached coroutine, whose continuation is null. *)
Fixpoint ChangeLaziessExecutorTo (fuel : nat) (h : nat) (ex : option nat) (fs : gmap nat frame)
    : gmap nat frame :=
  match fuel with
  | O => fs
  | S n =>
      match fs !! h with
      | Some f =>
          match _continuation f with
          | None => fs
          | Some h' => ChangeLaziessExecutorTo n h' ex (<[h := with_executor ex f]> fs)
          end
      | None => fs
      end
  end.

(** ** Steps *)

(** A coroutine is created suspended ([initial_suspend]); [coAwait] gives it the
    executor of its caller; [await_suspend] makes the caller its continuation
    and lets it inherit the lazy local, unless it has its own. *)
Definition new_frame (own : option nat) (c : code) : frame :=
  Frame (Initial c) None None own TNothing None.
Definition coAwait (ex : option nat) (f : frame) : frame := with_executor ex f.
Definition await_suspend (h : nat) (caller f : frame) : frame :=
  Frame (f_point f) (Some h) (_executor f)
        (match _lazy_local f with Some l => Some l | None => _lazy_local caller end)
        (_value f) (f_local f).

(** [co_await] of a child [Lazy]: control is transferred to it. *)
Definition await_lazy (h : nat) (f : frame) (own : option nat) (c : code)
    (p : nat -> point) (s : state) : state :=
  let child := next s in
  let cf := await_suspend h f (coAwait (_executor f) (new_frame own c)) in
  State (<[child := cf]> (<[h := with_point (p child) f]> (frames s)))
        (locals s) (S child) (log s) (callbacks s) (Resume child).

(** [FinalAwaiter]: control is transferred to the continuation. *)
Definition final_suspend (f : frame) : token :=
  match _continuation f with Some k => Resume k | None => Crashed "no continuation" end.

Section machine.
Context (fut : nat -> res)      (** what each future delivers *)
      (reliable : bool).      (** the executors accept what they are given *)

(** [_executor->schedule(handle)] or [checkin(handle, ctx)], result ignored. *)
Definition schedule (a : answer) (ex h : nat) (s : state) : state :=
set_tok (if reliable || schedule_ok a then Scheduled ex h else Lost h) s.

(** [setLazyLocalImpl]: the local lives in the frame of the coroutine. *)
Definition setLazyLocalImpl (h : nat) (f : frame) (l : LazyLocalBase) (c : code) (s : state)
  : state :=
match moveSlotFromContinuation l (local_of (_lazy_local f) s) with
| None => set_tok (Run h (CoThrow (LogicError "we dont allowed set lazy local twice"))) s
| Some (now, pre) =>
    let lid := next s in
    let m := match _lazy_local f, pre with
             | Some p, Some x => <[p := x]> (locals s) | _, _ => locals s end in
    await_lazy h (with_local lid f) (Some lid) c (fun ch => InAwait ch of_res)
      (State (frames s) (<[lid := now]> m) (S lid) (log s) (callbacks s) (tok s))
end.

(** [promise._lazy_local->forbidSignal()]. *)
Definition forbidSignal (f : frame) (s : state) : state :=
set_locals (match _lazy_local f with
            | Some l => alter (fun x => Local (_typeinfo x) None) l (locals s)
            | None => locals s
            end) s.

(** [YieldAwaiter]. *)
Definition yield (a : answer) (h : nat) (f : frame) (k : option exn -> code) (s : state) : state :=
let slot := slot_of (_lazy_local f) s in
if hasCanceled a slot then set_tok (Run h (k (checkHasCanceled a slot yield_msg))) s
else match _executor f with
     | None => set_tok (Run h (k (Some (LogicError
                 "Yielding is only meaningful with an executor!")))) s
     | Some ex => schedule a ex h (set_frame h (with_point (InYield slot yield_msg k) f) s)
     end.

(** [Executor::TimeAwaiter]; the timer always runs the coroutine later. *)
Definition after (a : answer) (h : nat) (f : frame) (ex : nat) (slot : option nat)
  (k : option exn -> code) (s : state) : state :=
if hasCanceled a slot then set_tok (Run h (k (checkHasCanceled a slot timer_msg))) s
else set_tok (Scheduled ex h) (set_frame h (with_point (InYield slot timer_msg k) f) s).

(** [DispatchAwaiter]. *)
Definition dispatch (a : answer) (h : nat) (f : frame) (ex : nat) (k : option exn -> code)
  (s : state) : state :=
if decide (_executor f = Some ex) then set_tok (Run h (k None)) s
else
  let moved := ChangeLaziessExecutorTo (size (frames s)) h (Some ex) (frames s) in
  let s' := State moved (locals s) (next s) (log s) (callbacks s) (tok s) in
  if schedule_ok a then
    set_tok (Scheduled ex h)
      (set_frame h (with_point (InDispatch k) (with_executor (Some ex) f)) s')
  else
    set_tok (Run h (k (Some (RuntimeError "dispatch to executor failed"))))
      (State (ChangeLaziessExecutorTo (size moved) h (_executor f) moved)
             (locals s) (next s) (log s) (callbacks s) (tok s)).

(** [FutureAwaiter] and [FutureResumeByScheduleAwaiter], which has no slot:
  when [tryEmplace] fails, [await_suspend] returns false. *)
Definition await_future (a : answer) (h : nat) (f : frame) (by_schedule : bool) (fu : nat)
  (k : res -> code) (s : state) : state :=
if future_ready a then set_tok (Run h (k (fut fu))) s
else
  let slot := if by_schedule then None else slot_of (_lazy_local f) s in
  if hasCanceled a slot then set_tok (Run h (k (Exc (cancel_exn future_msg)))) s
  else set_tok (WaitFuture fu h slot k) s.

(** The continuation of the future, or the handler of the signal. *)
Definition future_done (a : answer) (h : nat) (f : frame) (fu : nat) (slot : option nat)
  (k : res -> code) (s : state) : state :=
let r := if hasCanceled a slot then Exc (cancel_exn future_msg) else fut fu in
let s' := set_frame h (with_point (InFuture k r) f) s in
match _executor f with
| Some ex => schedule a ex h s'
| None => set_tok (Resume h) s'
end.

Definition run_code (a : answer) (h : nat) (f : frame) (c : code) (s : state) : state :=
match c with
| CoReturn v => set_tok (final_suspend f) (set_frame h (with_value (TValue v) f) s)
| CoThrow e => set_tok (final_suspend f) (set_frame h (with_value (TError (Some e)) f) s)
| Emit n k => set_tok (Run h k) (emit n s)
| CoAwait c k => await_lazy h f None c (fun ch => InAwait ch k) s
| CoAwaitTry c k => await_lazy h f None c (fun ch => InAwaitTry ch k) s
| SetLazyLocal l c => setLazyLocalImpl h f l c s
| GetExecutor k => set_tok (Run h (k (_executor f))) s
| GetLocal k => set_tok (Run h (k (local_of (_lazy_local f) s))) s
| GetSlot k => set_tok (Run h (k (slot_of (_lazy_local f) s))) s
| DoForbidSignal k => set_tok (Run h k) (forbidSignal f s)
| DoYield k => yield a h f k s
| DoAfter ex slot k => after a h f ex slot k s
| DoDispatch ex k => dispatch a h f ex k s
| AwaitFuture by_schedule fu k => await_future a h f by_schedule fu k s
end.

Definition resume (a : answer) (h : nat) (f : frame) (s : state) : state :=
let s := set_frame h (with_point Running f) s in
match f_point f with
| Initial c => set_tok (Run h c) s
| InAwait child k =>
    match frames s !! child ≫= fun cf => result (_value cf) with
    | Some r => set_tok (Run h (k r)) (destroy child s)
    | None => set_tok (Crashed "no result") s
    end
| InAwaitTry child k =>
    match frames s !! child ≫= fun cf => tryResult (_value cf) with
    | Some t => set_tok (Run h (k t)) (destroy child s)
    | None => set_tok (Crashed "no result") s
    end
| InYield slot msg k => set_tok (Run h (k (checkHasCanceled a slot msg))) s
| InDispatch k => set_tok (Run h (k None)) s
| InFuture k r => set_tok (Run h (k r)) s
| InCallback child =>
    match frames s !! child ≫= fun cf => tryResult (_value cf) with
    | Some t => set_tok Finished (destroy h (call_back t (destroy child s)))
    | None => set_tok (Crashed "no result") s
    end
| Running | FinalSuspend => set_tok (Crashed "resumed twice") s
end.

Definition lazy_step (a : answer) (s : state) : option state :=
match tok s with
| Run h c =>
    Some (match frames s !! h with
          | Some f => run_code a h f c s
          | None => set_tok (Crashed "dangling handle") s
          end)
| Resume h | Scheduled _ h =>
    Some (match frames s !! h with
          | Some f => resume a h f s
          | None => set_tok (Crashed "dangling handle") s
          end)
| WaitFuture fu h slot k =>
    Some (match frames s !! h with
          | Some f => future_done a h f fu slot k s
          | None => set_tok (Crashed "dangling handle") s
          end)
| Lost _ | Finished | Crashed _ => None
end.
End machine.

(** ** Starting *)

(** How the coroutine is started: [start(cb)], [directlyStart(cb, ex)] (or
    [setEx(ex)] and [start]), or [via(ex).start(cb)]. *)
Inductive how := Start | DirectlyStart (ex : option nat) | Via (ex : nat).

(** [Lazy::via], [setEx], [directlyStart]: the executor is stored in the promise. *)
Definition bind_executor (w : how) (f : frame) : frame :=
  with_executor (match w with Start => _executor f | DirectlyStart ex => ex | Via ex => Some ex end) f.

(** [LazyBase::start]: the detached coroutine 1 awaits the [TryAwaiter] of the
    coroutine 0; a [RescheduleLazy] is submitted to its executor. *)
Definition start (w : how) (c : code) : state :=
  let detached := Frame (InCallback 0) None None None TNothing None in
  State {[ 0%nat := await_suspend 1 detached (bind_executor w (new_frame None c));
           1%nat := detached ]}
        ∅ 2 [] []
        (match w with Via ex => Scheduled ex 0 | _ => Resume 0 end).

(** ** Direct-style reference semantics

    [eval ex ll m lg c ex' m' lg' t]: run as an ordinary call under executor
    [ex] with lazy local [ll], [c] ends under [ex'] with the result [t]; [m] and
    [lg] are the lazy locals and the effects.  Exceptions are results, there are
    no frames, continuations or tokens. *)

Definition yield_allows (ex slot : option nat) (o : option exn) : Prop :=
  match o with
  | None => ex <> None \/ slot <> None
  | Some e =>
      (e = cancel_exn yield_msg /\ slot <> None) \/
      (e = LogicError "Yielding is only meaningful with an executor!" /\ ex = None)
  end.

Definition after_allows (slot : option nat) (o : option exn) : Prop :=
  o = None \/ (o = Some (cancel_exn timer_msg) /\ slot <> None).

Definition future_allows (slot : option nat) (r r' : res) : Prop :=
  r' = r \/ (r' = Exc (cancel_exn future_msg) /\ slot <> None).

Abbreviation lmap := (gmap nat LazyLocalBase).
Definition get_local (ll : option nat) (m : lmap) : option LazyLocalBase := l ← ll; m !! l.
Definition get_slot (ll : option nat) (m : lmap) : option nat := l ← get_local ll m; _slot l.
Definition forbid (ll : option nat) (m : lmap) : lmap :=
  match ll with Some l => alter (fun x => Local (_typeinfo x) None) l m | None => m end.
Definition move_out (ll : option nat) (pre : option LazyLocalBase) (m : lmap) : lmap :=
  match ll, pre with Some p, Some x => <[p := x]> m | _, _ => m end.

Inductive eval (fut : nat -> res) : option nat -> option nat -> lmap -> list Z -> code ->
    option nat -> lmap -> list Z -> Try Z -> Prop :=
  | E_return ex ll m lg v : eval fut ex ll m lg (CoReturn v) ex m lg (TValue v)
  | E_throw ex ll m lg e : eval fut ex ll m lg (CoThrow e) ex m lg (TError (Some e))
  | E_emit ex ll m lg n k ex' m' lg' t :
      eval fut ex ll m (lg ++ [n]) k ex' m' lg' t ->
      eval fut ex ll m lg (Emit n k) ex' m' lg' t
  | E_await ex ll m lg c k ex1 m1 lg1 t1 r ex' m' lg' t :
      eval fut ex ll m lg c ex1 m1 lg1 t1 -> result t1 = Some r ->
      eval fut ex1 ll m1 lg1 (k r) ex' m' lg' t ->
      eval fut ex ll m lg (CoAwait c k) ex' m' lg' t
  | E_try ex ll m lg c k ex1 m1 lg1 t1 ex' m' lg' t :
      eval fut ex ll m lg c ex1 m1 lg1 t1 ->
      eval fut ex1 ll m1 lg1 (k t1) ex' m' lg' t ->
      eval fut ex ll m lg (CoAwaitTry c k) ex' m' lg' t
  | E_local ex ll m lg l c now pre lid ex' m' lg' t :
      moveSlotFromContinuation l (get_local ll m) = Some (now, pre) ->
      m !! lid = None ->
      eval fut ex (Some lid) (<[lid := now]> (move_out ll pre m)) lg c ex' m' lg' t ->
      eval fut ex ll m lg (SetLazyLocal l c) ex' (delete lid m') lg' t
  | E_local_twice ex ll m lg l c :
      moveSlotFromContinuation l (get_local ll m) = None ->
      eval fut ex ll m lg (SetLazyLocal l c) ex m lg
        (TError (Some (LogicError "we dont allowed set lazy local twice")))
  | E_executor ex ll m lg k ex' m' lg' t :
      eval fut ex ll m lg (k ex) ex' m' lg' t ->
      eval fut ex ll m lg (GetExecutor k) ex' m' lg' t
  | E_get_local ex ll m lg k ex' m' lg' t :
      eval fut ex ll m lg (k (get_local ll m)) ex' m' lg' t ->
      eval fut ex ll m lg (GetLocal k) ex' m' lg' t
  | E_get_slot ex ll m lg k ex' m' lg' t :
      eval fut ex ll m lg (k (get_slot ll m)) ex' m' lg' t ->
      eval fut ex ll m lg (GetSlot k) ex' m' lg' t
  | E_forbid ex ll m lg k ex' m' lg' t :
      eval fut ex ll (forbid ll m) lg k ex' m' lg' t ->
      eval fut ex ll m lg (DoForbidSignal k) ex' m' lg' t
  | E_yield ex ll m lg k o ex' m' lg' t :
      yield_allows ex (get_slot ll m) o -> eval fut ex ll m lg (k o) ex' m' lg' t ->
      eval fut ex ll m lg (DoYield k) ex' m' lg' t
  | E_after ex ll m lg e slot k o ex' m' lg' t :
      after_allows slot o -> eval fut ex ll m lg (k o) ex' m' lg' t ->
      eval fut ex ll m lg (DoAfter e slot k) ex' m' lg' t
  | E_dispatch ex ll m lg e k ex' m' lg' t :
      eval fut (Some e) ll m lg (k None) ex' m' lg' t ->
      eval fut ex ll m lg (DoDispatch e k) ex' m' lg' t
  | E_dispatch_fails ex ll m lg e k ex' m' lg' t :
      ex <> Some e ->
      eval fut ex ll m lg (k (Some (RuntimeError "dispatch to executor failed"))) ex' m' lg' t ->
      eval fut ex ll m lg (DoDispatch e k) ex' m' lg' t
  | E_future ex ll m lg by_schedule fu k r ex' m' lg' t :
      future_allows (if by_schedule : bool then None else get_slot ll m) (fut fu) r ->
      eval fut ex ll m lg (k r) ex' m' lg' t ->
      eval fut ex ll m lg (AwaitFuture by_schedule fu k) ex' m' lg' t.

(** ** The chain of awaiting coroutines *)

(** [up ex fs k l]: from [k], the continuations lead through the coroutines
    [l], all under executor [ex], to a coroutine without continuation. *)
Fixpoint up (ex : option nat) (fs : gmap nat frame) (k : nat) (l : list nat) : Prop :=
  match l with
  | [] => exists d, fs !! k = Some d /\ _continuation d = None
  | x :: l => k = x /\ exists f k', fs !! x = Some f /\ _executor f = ex /\
                _continuation f = Some k' /\ up ex fs k' l
  end.

Definition set_exec (ex : option nat) (l : list nat) (fs : gmap nat frame) : gmap nat frame :=
  map_imap (fun h f => Some (if bool_decide (h ∈ l) then with_executor ex f else f)) fs.

Lemma lookup_set_exec ex l fs h :
  set_exec ex l fs !! h =
  (fun f => if bool_decide (h ∈ l) then with_executor ex f else f) <$> fs !! h.
Proof. unfold set_exec. rewrite map_lookup_imap. by destruct (fs !! h). Qed.

Lemma with_executor_same ex f : _executor f = ex -> with_executor ex f = f.
Proof. intros <-. by destruct f. Qed.

Lemma set_exec_nil ex fs : set_exec ex [] fs = fs.
Proof. apply map_eq. intros h. rewrite lookup_set_exec. by destruct (fs !! h). Qed.

Lemma set_exec_twice ex1 ex2 l fs : set_exec ex2 l (set_exec ex1 l fs) = set_exec ex2 l fs.
Proof.
  apply map_eq. intros h. rewrite !lookup_set_exec.
  destruct (fs !! h); simpl; [|done]. by case_bool_decide.
Qed.

Lemma set_exec_insert ex l fs h f :
  set_exec ex l (<[h := f]> fs) =
  <[h := if bool_decide (h ∈ l) then with_executor ex f else f]> (set_exec ex l fs).
Proof.
  apply map_eq. intros x. rewrite lookup_set_exec.
  destruct (decide (x = h)) as [->|].
  - by rewrite !lookup_insert_eq.
  - by rewrite !lookup_insert_ne, lookup_set_exec.
Qed.

Lemma set_exec_delete ex l fs h : set_exec ex l (delete h fs) = delete h (set_exec ex l fs).
Proof.
  apply map_eq. intros x. rewrite lookup_set_exec.
  destruct (decide (x = h)) as [->|].
  - by rewrite !lookup_delete_eq.
  - by rewrite !lookup_delete_ne, lookup_set_exec.
Qed.

Lemma set_exec_cons ex x l fs :
  set_exec ex (x :: l) fs = alter (with_executor ex) x (set_exec ex l fs).
Proof.
  apply map_eq. intros h. rewrite lookup_set_exec. destruct (decide (h = x)) as [->|Hne].
  - rewrite lookup_alter_eq, lookup_set_exec. rewrite bool_decide_true by left.
    destruct (fs !! x); simpl; [|done]. by case_bool_decide.
  - rewrite lookup_alter_ne, lookup_set_exec by done.
    destruct (fs !! h) as [f|]; simpl; [|done].
    rewrite (bool_decide_ext (h ∈ x :: l) (h ∈ l)); [done|].
    rewrite elem_of_cons. naive_solver.
Qed.

Lemma up_mono ex fs fs' k l :
  (forall x f, fs !! x = Some f -> x ∈ l \/ _continuation f = None -> fs' !! x = Some f) ->
  up ex fs k l -> up ex fs' k l.
Proof.
  revert k. induction l as [|x l IH]; intros k Hl; simpl.
  - intros (d & Hk & Hc). exists d. split; [apply Hl; auto | done].
  - intros (-> & f & k' & Hx & He & Hc & Hup). split; [done|].
    exists f, k'. split; [apply Hl; [done|left; left]|]. repeat split; auto.
    apply IH; [|done]. intros y g Hy [?|?]; apply Hl; auto. left. by right.
Qed.

Lemma up_set_exec ex ex' fs k l L :
  (forall x, x ∈ l -> x ∈ L) -> (forall d f, d ∈ L -> fs !! d = Some f -> _continuation f <> None) ->
  up ex fs k l -> up ex' (set_exec ex' L fs) k l.
Proof.
  revert k. induction l as [|x l IH]; intros k Hl HL; simpl.
  - intros (d & Hk & Hc). exists d. rewrite lookup_set_exec, Hk. simpl.
    rewrite bool_decide_false; [done|]. intros HkL. by apply (HL _ _ HkL Hk).
  - intros (-> & f & k' & Hx & He & Hc & Hup). split; [done|].
    exists (with_executor ex' f), k'. rewrite lookup_set_exec, Hx. simpl.
    rewrite bool_decide_true by (apply Hl; left). repeat split; auto.
    apply IH; auto. intros y Hy. apply Hl. by right.
Qed.

(** The executors of the chain are the ones [set_exec] would set. *)
Lemma set_exec_same ex fs k l : up ex fs k l -> set_exec ex l fs = fs.
Proof.
  intros Hup. apply map_eq. intros h. rewrite lookup_set_exec.
  destruct (fs !! h) as [f|] eqn:Hf; simpl; [|done]. f_equal. case_bool_decide as Hh; [|done].
  apply with_executor_same. revert k Hup. induction l as [|x l IH]; intros k; simpl.
  - by apply elem_of_nil in Hh.
  - intros (-> & f' & k' & Hx & He & Hc & Hup). apply elem_of_cons in Hh as [->|Hh]; [congruence|].
    by eapply IH.
Qed.

Lemma up_elem ex fs k l x :
  up ex fs k l -> x ∈ l -> exists f, fs !! x = Some f /\ _continuation f <> None.
Proof.
  revert k. induction l as [|y l IH]; intros k; simpl; [by intros _ ?%elem_of_nil|].
  intros (-> & f & k' & Hx & He & Hc & Hup) [->|Hl]%elem_of_cons; [|by eapply IH].
  exists f. by rewrite Hc.
Qed.

Lemma ChangeLaziessExecutorTo_chain fuel ex ex' fs k l :
  up ex fs k l -> NoDup l -> (length l <= fuel)%nat ->
  ChangeLaziessExecutorTo fuel k ex' fs = set_exec ex' l fs.
Proof.
  revert fuel k fs. induction l as [|x l IH]; intros fuel k fs; simpl.
  - intros (d & Hk & Hc) _ _. rewrite set_exec_nil. destruct fuel; simpl; [done|].
    by rewrite Hk, Hc.
  - intros (-> & f & k' & Hx & He & Hc & Hup) [Hn Hnd]%NoDup_cons Hlen.
    destruct fuel as [|fuel]; [lia|]. simpl. rewrite Hx, Hc.
    rewrite IH; [| |done|lia].
    + rewrite set_exec_insert, bool_decide_false by done. rewrite set_exec_cons.
      apply map_eq. intros y. destruct (decide (y = x)) as [->|].
      * rewrite lookup_insert_eq, lookup_alter_eq, lookup_set_exec, Hx. simpl.
        by rewrite bool_decide_false.
      * by rewrite lookup_insert_ne, lookup_alter_ne.
    + revert Hup. apply up_mono. intros y g Hy Hor. rewrite lookup_insert_ne; [done|].
      intros ->. destruct Hor as [?|?]; [done|]. congruence.
Qed.

Lemma up_length ex fs k l : up ex fs k l -> NoDup l -> (length l <= size fs)%nat.
Proof.
  intros Hup Hnd. rewrite <- size_dom, <- (size_list_to_set (C := gset nat) l Hnd).
  apply subseteq_size. intros x Hx%elem_of_list_to_set. apply elem_of_dom.
  destruct (up_elem _ _ _ _ _ Hup Hx) as (f & -> & _). done.
Qed.

(** ** Every run of a coroutine is a run of the reference semantics *)

(** All runs from [s] reach a state in [P]. *)
Inductive must (step : answer -> state -> option state) (P : state -> Prop) (s : state) : Prop :=
  | must_now : P s -> must step P s
  | must_later :
      (exists a, is_Some (step a s)) -> (forall a s', step a s = Some s' -> must step P s') ->
      must step P s.

Definition fresh (s : state) : Prop :=
  forall x, (next s <= x)%nat -> frames s !! x = None /\ locals s !! x = None.

(** Coroutine [h] was entered in the state [s0], where it had the continuation
    [k] and the coroutines [l] waited for it. *)
Record base (s0 : state) (h k : nat) (l : list nat) : Prop := {
  base_up : exists ex, up ex (frames s0) k l;
  base_nodup : NoDup (h :: l);
  base_frame : exists f, frames s0 !! h = Some f /\ _continuation f <> None;
}.

(** It is now at [f] and has changed nothing else, but the executors. *)
Record at_frame (s0 s : state) (h k : nat) (ex ll fl : option nat) (l : list nat) (f : frame)
    : Prop := {
  af_frames : frames s = <[h := f]> (set_exec ex l (frames s0));
  af_cont : _continuation f = Some k;
  af_exec : _executor f = ex;
  af_local : _lazy_local f = ll;
  af_own : f_local f = fl;
  af_calls : callbacks s = callbacks s0;
  af_fresh : fresh s;
  af_next : (next s0 <= next s)%nat;
}.

Definition free_local (fl : option nat) (m : lmap) : lmap :=
  match fl with Some x => delete x m | None => m end.

Record finished (s0 s' : state) (h k : nat) (l : list nat) (ex' : option nat) (m' : lmap)
    (lg' : list Z) (t : Try Z) : Prop := {
  fin_tok : tok s' = Resume k;
  fin_frame : exists f' ll fl, at_frame s0 s' h k ex' ll fl l f' /\ _value f' = t /\
                free_local fl (locals s') = m';
  fin_log : log s' = lg';
}.

Lemma at_frame_lookup s0 s h k ex ll fl l f :
  at_frame s0 s h k ex ll fl l f -> frames s !! h = Some f.
Proof. intros []. by rewrite af_frames0, lookup_insert_eq. Qed.

Lemma at_frame_up s0 s h k ex ll fl l f :
  base s0 h k l -> at_frame s0 s h k ex ll fl l f ->
  up ex (frames s) k l /\ up ex (frames s) h (h :: l).
Proof.
  intros [[ex0 Hup] Hnd (f0 & Hf0 & Hc0)] Haf.
  assert (up ex (frames s) k l) as Hk.
  { rewrite (af_frames _ _ _ _ _ _ _ _ _ Haf).
    apply NoDup_cons in Hnd as [Hh _].
    apply (up_mono ex (set_exec ex l (frames s0))).
    - intros x g Hx Hor. rewrite lookup_insert_ne; [done|]. intros <-.
      destruct Hor as [?|Hc]; [done|]. rewrite lookup_set_exec, Hf0 in Hx. simpl in Hx.
      rewrite bool_decide_false in Hx by done. by simplify_eq.
    - apply (up_set_exec ex0); [done| |done]. intros d g Hd Hg.
      destruct (up_elem _ _ _ _ _ Hup Hd) as (g' & Hg' & ?). by simplify_eq. }
  split; [done|]. simpl. split; [done|]. exists f, k.
  split; [by eapply at_frame_lookup|]. by destruct Haf.
Qed.

Section run.
Context (fut : nat -> res).
Abbreviation step := (lazy_step fut true).
Abbreviation leads := (must step).

Lemma must_run_step P s h c f :
  tok s = Run h c -> frames s !! h = Some f ->
  (forall a, leads P (run_code fut true a h f c s)) -> leads P s.
Proof.
  intros Ht Hf Hm. apply must_later.
  - exists (Answer false false false true). unfold lazy_step. rewrite Ht. eauto.
  - intros a s'. unfold lazy_step. rewrite Ht, Hf. intros [= <-]. apply Hm.
Qed.

Lemma must_resume_step P s h f :
  tok s = Resume h \/ (exists ex, tok s = Scheduled ex h) -> frames s !! h = Some f ->
  (forall a, leads P (resume a h f s)) -> leads P s.
Proof.
  intros Ht Hf Hm. apply must_later.
  - exists (Answer false false false true). unfold lazy_step.
    destruct Ht as [-> | [ex ->]]; eauto.
  - intros a s'. unfold lazy_step.
    destruct Ht as [-> | [ex ->]]; rewrite Hf; intros [= <-]; apply Hm.
Qed.

Lemma eval_result ex ll m lg c ex' m' lg' t :
  eval fut ex ll m lg c ex' m' lg' t ->
  exists r, result t = Some r /\ tryResult t = Some t.
Proof. induction 1; eauto; eexists; simpl; eauto. Qed.

(** Changes that keep [at_frame]. *)
Lemma at_frame_set_tok s0 s h k ex ll fl l f t :
  at_frame s0 s h k ex ll fl l f -> at_frame s0 (set_tok t s) h k ex ll fl l f.
Proof. intros []. by constructor. Qed.

Lemma at_frame_emit s0 s h k ex ll fl l f n :
  at_frame s0 s h k ex ll fl l f -> at_frame s0 (emit n s) h k ex ll fl l f.
Proof. intros []. by constructor. Qed.

Lemma at_frame_set_frame s0 s h k ex ll fl l f g :
  _continuation g = Some k -> _executor g = ex -> _lazy_local g = ll ->
  at_frame s0 s h k ex ll fl l f -> at_frame s0 (set_frame h g s) h k ex ll (f_local g) l g.
Proof.
  intros ? ? ? []. constructor; try done; simpl.
  - by rewrite af_frames0, insert_insert_eq.
  - intros x Hx. simpl. destruct (af_fresh0 x Hx) as [Hn Hl]. split; [|done].
    rewrite lookup_insert_ne; [done|]. intros ->. by rewrite af_frames0, lookup_insert_eq in Hn.
Qed.

Lemma at_frame_locals s0 s h k ex ll fl l f m :
  (forall x, locals s !! x = None -> m !! x = None) ->
  at_frame s0 s h k ex ll fl l f -> at_frame s0 (set_locals m s) h k ex ll fl l f.
Proof.
  intros Hm []. constructor; try done. intros x Hx. simpl.
  destruct (af_fresh0 x Hx). auto.
Qed.

Definition runs_ok (c : code) : Prop :=
  forall s0 s h k l ex ll f P,
    base s0 h k l -> at_frame s0 s h k ex ll None l f -> tok s = Run h c ->
    (forall s' ex' m' lg' t,
       eval fut ex ll (locals s) (log s) c ex' m' lg' t ->
       finished s0 s' h k l ex' m' lg' t -> leads P s') ->
    leads P s.

(** The state after the awaited child has been read and destroyed. *)
Definition back (h child : nat) (f : frame) (s' : state) : state :=
  destroy child (set_frame h (with_point Running f) s').

Lemma must_await c own p s0 s h k l ex ll fl f P :
  runs_ok c -> base s0 h k l -> at_frame s0 s h k ex ll fl l f ->
  (forall s' ex1 t1 child cf g,
     eval fut ex (match own with Some x => Some x | None => ll end)
          (locals s) (log s) c ex1 (locals (back h child g s')) (log s') t1 ->
     tok s' = Resume h -> frames s' !! h = Some g -> f_point g = p child ->
     frames s' !! child = Some cf -> _value cf = t1 -> child <> h ->
     at_frame s0 (back h child g s') h k ex1 ll fl l (with_point Running g) ->
     leads P s') ->
  leads P (await_lazy h f own c p s).
Proof.
  intros Hc Hb Haf HP. pose proof (at_frame_up _ _ _ _ _ _ _ _ _ Hb Haf) as [Hup Huph].
  pose proof (at_frame_lookup _ _ _ _ _ _ _ _ _ Haf) as Hf.
  assert (next s <> h) as Hne.
  { intros <-. destruct (af_fresh _ _ _ _ _ _ _ _ _ Haf (next s)); [lia | congruence]. }
  assert (next s ∉ h :: l) as Hnl.
  { intros Hin. destruct (up_elem _ _ _ _ _ Huph Hin) as (g & Hg & _).
    destruct (af_fresh _ _ _ _ _ _ _ _ _ Haf (next s)); [lia | congruence]. }
  set (s1 := await_lazy h f own c p s).
  set (cf := Frame (Initial c) (Some h) (_executor f)
               (match own with Some l => Some l | None => _lazy_local f end) TNothing None).
  assert (up ex (frames s1) h (h :: l)) as Hup1.
  { simpl. split; [done|]. exists (with_point (p (next s)) f), k.
    rewrite lookup_insert_ne, lookup_insert_eq by done.
    split; [done|]. split; [by destruct Haf|]. split; [by destruct Haf|].
    revert Hup. apply up_mono. intros x g Hx Hor. rewrite !lookup_insert_ne; [done| |].
    - intros <-. pose proof (base_nodup _ _ _ _ Hb) as Hnd. apply NoDup_cons in Hnd as [Hh _].
      destruct Hor as [?|Hcn]; [done|]. rewrite Hf in Hx. simplify_eq.
      destruct Haf. congruence.
    - intros <-. destruct (af_fresh _ _ _ _ _ _ _ _ _ Haf (next s)); [lia | congruence]. }
  assert (frames s1 !! next s = Some cf) as Hcf by (simpl; by rewrite lookup_insert_eq).
  apply (must_resume_step _ _ (next s) cf); [by left | done|]. intros a.
  change (leads P (set_tok (Run (next s) c) (set_frame (next s) (with_point Running cf) s1))).
  assert (base s1 (next s) h (h :: l)) as Hb1.
  { constructor; [by exists ex| |by exists cf].
    apply NoDup_cons. split; [done | by destruct Hb]. }
  assert (at_frame s1 s1 (next s) h ex (_lazy_local cf) None (h :: l) cf) as Haf1.
  { destruct Haf. constructor; try done; simpl.
    - rewrite (set_exec_same ex _ h) by done. simpl. by rewrite insert_insert_eq.
    - intros x Hx. simpl in *. destruct (af_fresh0 x) as [H1 H2]; [lia|]. split; [|done].
      rewrite !lookup_insert_ne; [done| |lia]. intros <-. congruence. }
  eapply Hc; [exact Hb1| |reflexivity|].
  { apply at_frame_set_tok. eapply (at_frame_set_frame _ _ _ _ _ _ _ _ _ (with_point Running cf));
      [.. | exact Haf1]; try done. by destruct Haf. }
  intros s' ex' m' lg' t He [Ht (cf' & ll' & fl' & Haf' & Hv & Hm) Hlg].
  set (g := with_executor ex' (with_point (p (next s)) f)).
  assert (frames s' !! h = Some g) as Hg.
  { destruct Haf'. rewrite af_frames0, lookup_insert_ne, lookup_set_exec by done. simpl.
    rewrite lookup_insert_ne, lookup_insert_eq by done. simpl.
    by rewrite bool_decide_true by left. }
  pose proof (at_frame_lookup _ _ _ _ _ _ _ _ _ Haf') as Hcf'.
  assert (locals (back h (next s) g s') = m') as Hloc.
  { simpl. rewrite lookup_insert_ne, Hcf' by done. destruct Haf'. by rewrite af_own0. }
  eapply (HP s' ex' t (next s) cf' g); try done.
  - rewrite Hloc, Hlg. revert He. simpl. destruct Haf. rewrite af_local0. done.
  - destruct Haf, Haf'. constructor; try done; simpl in *.
    + rewrite af_frames1, af_frames0.
      apply map_eq. intros x. destruct (decide (x = next s)) as [->|Hx].
      * rewrite lookup_delete_eq, lookup_insert_ne, lookup_set_exec by done.
        destruct (af_fresh0 (next s)) as [H1 _]; [lia|].
        rewrite af_frames0, lookup_insert_ne, lookup_set_exec in H1 by done.
        by destruct (frames s0 !! next s).
      * rewrite lookup_delete_ne by done. destruct (decide (x = h)) as [->|Hxh];
          [by rewrite !lookup_insert_eq|].
        rewrite !(lookup_insert_ne _ h), lookup_insert_ne by done.
        rewrite !lookup_set_exec, !lookup_insert_ne, lookup_set_exec by done.
        destruct (frames s0 !! x); simpl; [|done]. f_equal.
        rewrite (bool_decide_ext (x ∈ h :: l) (x ∈ l)) by (rewrite elem_of_cons; naive_solver).
        by case_bool_decide.
    + congruence.
    + intros x Hx. simpl in *. destruct (af_fresh1 x Hx) as [H1 H2].
      assert (x <> h) as Hxh by (intros ->; congruence).
      assert (x <> next s) as Hxn by lia.
      split.
      * by rewrite lookup_delete_ne, lookup_insert_ne by done.
      * rewrite lookup_insert_ne, Hcf' by done. destruct (f_local cf'); [|done].
        by apply lookup_delete_None; right.
    + lia.
Qed.

Lemma slot_of_eq ll s : slot_of ll s = get_slot ll (locals s).
Proof. destruct ll as [l|]; done. Qed.

Lemma at_frame_move s0 s h k ex ll fl l f p :
  at_frame s0 s h k ex ll fl l f ->
  at_frame s0 (set_frame h (with_point p f) s) h k ex ll fl l (with_point p f).
Proof.
  intros Haf. pose proof Haf as []. rewrite <- af_own0.
  change (f_local f) with (f_local (with_point p f)).
  by eapply at_frame_set_frame.
Qed.

(** The body runs on at the same frame. *)
Lemma runs_on c s0 s h k l ex ll f P :
  runs_ok c -> base s0 h k l -> at_frame s0 s h k ex ll None l f ->
  (forall s' ex' m' lg' t, eval fut ex ll (locals s) (log s) c ex' m' lg' t ->
     finished s0 s' h k l ex' m' lg' t -> leads P s') ->
  leads P (set_tok (Run h c) s).
Proof.
  intros Hc Hb Haf HP. eapply Hc; [done| |done|].
  - by apply at_frame_set_tok.
  - simpl. done.
Qed.

(** It suspends, is scheduled on [e], and runs on when it is resumed. *)
Lemma runs_after_schedule e s0 s h k l ex ll f p P :
  base s0 h k l -> at_frame s0 s h k ex ll None l f ->
  (forall s1 f1 a, at_frame s0 s1 h k ex ll None l f1 -> locals s1 = locals s -> log s1 = log s ->
     f1 = with_point p f ->
     leads P (resume a h f1 s1)) ->
  leads P (set_tok (Scheduled e h) (set_frame h (with_point p f) s)).
Proof.
  intros Hb Haf HP. apply (must_resume_step _ _ h (with_point p f)).
  - right. by exists e.
  - simpl. by rewrite lookup_insert_eq.
  - intros a. apply HP; try done. by apply at_frame_set_tok, at_frame_move.
Qed.

Lemma finish_now s0 s h k l ex ll f t :
  at_frame s0 s h k ex ll None l f ->
  finished s0 (set_tok (Resume k) (set_frame h (with_value t f) s)) h k l ex (locals s) (log s) t.
Proof.
  intros Haf. constructor; try done. exists (with_value t f), ll, None. pose proof Haf as [].
  split; [|done]. apply at_frame_set_tok. rewrite <- af_own0.
  by eapply (at_frame_set_frame _ _ _ _ _ _ _ _ _ (with_value t f)).
Qed.

Lemma runs_return t c :
  (c = match t with TValue v => CoReturn v | TError (Some e) => CoThrow e | _ => c end) ->
  (match t with TValue _ | TError (Some _) => True | _ => False end) -> runs_ok c.
Proof.
  intros Hc Ht s0 s h k l ex ll f P Hb Haf Htok HP.
  eapply must_run_step; [done | by eapply at_frame_lookup|]. intros a.
  assert (run_code fut true a h f c s = set_tok (Resume k) (set_frame h (with_value t f) s)) as ->.
  { pose proof Haf as []. destruct t as [|v|[e|]]; try done; rewrite Hc; simpl; unfold final_suspend; by rewrite af_cont0. }
  eapply HP; [|by eapply finish_now].
  destruct t as [|v|[e|]]; try done; rewrite Hc; constructor.
Qed.

Lemma runs_await own_c k0 : runs_ok own_c -> (forall r, runs_ok (k0 r)) -> runs_ok (CoAwait own_c k0).
Proof.
  intros IHc IHk s0 s h k l ex ll f P Hb Haf Htok HP.
  eapply must_run_step; [done | by eapply at_frame_lookup|]. intros a. simpl.
  eapply must_await; [exact IHc|exact Hb|exact Haf|].
  intros s' ex1 t1 child cf g He Ht Hg Hp Hcf Hv Hne Hat.
  destruct (eval_result _ _ _ _ _ _ _ _ _ He) as (r & Hr & _).
  apply (must_resume_step _ _ h g); [by left | done |]. intros a'.
  unfold resume. rewrite Hp. simpl. rewrite lookup_insert_ne, Hcf by done. simpl. rewrite Hv, Hr.
  eapply runs_on; [apply IHk | exact Hb | exact Hat |].
  intros. eapply HP; [|done]. by eapply E_await.
Qed.

Lemma runs_await_try own_c k0 :
  runs_ok own_c -> (forall t, runs_ok (k0 t)) -> runs_ok (CoAwaitTry own_c k0).
Proof.
  intros IHc IHk s0 s h k l ex ll f P Hb Haf Htok HP.
  eapply must_run_step; [done | by eapply at_frame_lookup|]. intros a. simpl.
  eapply must_await; [exact IHc|exact Hb|exact Haf|].
  intros s' ex1 t1 child cf g He Ht Hg Hp Hcf Hv Hne Hat.
  destruct (eval_result _ _ _ _ _ _ _ _ _ He) as (r & _ & Hr).
  apply (must_resume_step _ _ h g); [by left | done |]. intros a'.
  unfold resume. rewrite Hp. simpl. rewrite lookup_insert_ne, Hcf by done. simpl. rewrite Hv, Hr.
  eapply runs_on; [apply IHk | exact Hb | exact Hat |].
  intros. eapply HP; [|done]. by eapply E_try.
Qed.

Lemma runs_yield k0 : (forall o, runs_ok (k0 o)) -> runs_ok (DoYield k0).
Proof.
  intros IHk s0 s h k l ex ll f P Hb Haf Htok HP.
  eapply must_run_step; [done | by eapply at_frame_lookup|]. intros a. simpl. unfold yield.
  pose proof Haf as []. rewrite af_local0, af_exec0, slot_of_eq.
  assert (forall s1 f1 o, at_frame s0 s1 h k ex ll None l f1 -> locals s1 = locals s ->
    log s1 = log s -> yield_allows ex (get_slot ll (locals s)) o ->
    leads P (set_tok (Run h (k0 o)) s1)) as Hgo.
  { intros s1 f1 o Haf1 Hl1 Hg1 Ho. eapply runs_on; [apply IHk|exact Hb|exact Haf1|].
    rewrite Hl1, Hg1. intros. eapply HP; [|done]. by eapply E_yield. }
  assert (forall a' slot, slot <> None \/ ex <> None -> slot = get_slot ll (locals s) ->
    yield_allows ex (get_slot ll (locals s)) (checkHasCanceled a' slot yield_msg)) as Hok.
  { intros a' slot Hor ->. unfold checkHasCanceled, yield_allows.
    destruct (get_slot ll (locals s)); [destruct (is_canceled a'); [left|right]; done|].
    left. by destruct Hor. }
  destruct (hasCanceled a _) eqn:Hh.
  { eapply Hgo; try done. apply Hok; [|done]. left. by destruct (get_slot ll (locals s)). }
  destruct ex as [e|]; [|eapply Hgo; try done; by right].
  eapply runs_after_schedule; [exact Hb|exact Haf|].
  intros s1 f1 a' Haf1 Hl1 Hg1 ->. unfold resume. simpl.
  eapply Hgo; [by eapply at_frame_move|done..|]. apply Hok; [by right|done].
Qed.

Lemma runs_after e slot k0 : (forall o, runs_ok (k0 o)) -> runs_ok (DoAfter e slot k0).
Proof.
  intros IHk s0 s h k l ex ll f P Hb Haf Htok HP.
  eapply must_run_step; [done | by eapply at_frame_lookup|]. intros a. simpl. unfold after.
  assert (forall a' s1 f1, at_frame s0 s1 h k ex ll None l f1 -> locals s1 = locals s ->
    log s1 = log s -> leads P (set_tok (Run h (k0 (checkHasCanceled a' slot timer_msg))) s1)) as Hgo.
  { intros a' s1 f1 Haf1 Hl1 Hg1. eapply runs_on; [apply IHk|exact Hb|exact Haf1|].
    rewrite Hl1, Hg1. intros. eapply HP; [|done]. eapply E_after; [|done].
    unfold checkHasCanceled, after_allows. destruct slot; [|by left].
    destruct (is_canceled a'); [right|left]; done. }
  destruct (hasCanceled a slot); [by eapply Hgo|].
  eapply runs_after_schedule; [exact Hb|exact Haf|].
  intros s1 f1 a' Haf1 Hl1 Hg1 ->. unfold resume. simpl.
  eapply Hgo; [by eapply at_frame_move|done..].
Qed.

Lemma runs_future b fu k0 : (forall r, runs_ok (k0 r)) -> runs_ok (AwaitFuture b fu k0).
Proof.
  intros IHk s0 s h k l ex ll f P Hb Haf Htok HP.
  eapply must_run_step; [done | by eapply at_frame_lookup|]. intros a. simpl. unfold await_future.
  pose proof Haf as []. rewrite af_local0, slot_of_eq.
  set (slot := if b then None else get_slot ll (locals s)).
  assert (forall r s1 f1, at_frame s0 s1 h k ex ll None l f1 -> locals s1 = locals s ->
    log s1 = log s -> future_allows slot (fut fu) r -> leads P (set_tok (Run h (k0 r)) s1)) as Hgo.
  { intros r s1 f1 Haf1 Hl1 Hg1 Hr. eapply runs_on; [apply IHk|exact Hb|exact Haf1|].
    rewrite Hl1, Hg1. intros. eapply HP; [|done]. by eapply E_future. }
  assert (forall a' r, (if hasCanceled a' slot then Exc (cancel_exn future_msg) else fut fu) = r ->
    future_allows slot (fut fu) r) as Hal.
  { intros a' r <-. unfold hasCanceled, future_allows. destruct slot; [|by left].
    destruct (has_triggered a'); [right|left]; done. }
  destruct (future_ready a); [eapply Hgo; try done; by left|].
  destruct (hasCanceled a slot) eqn:Hh; [eapply Hgo; try done; apply (Hal a); by rewrite Hh|].
  apply must_later; [exists a; unfold lazy_step; simpl; eauto|].
  intros a' s'. unfold lazy_step. simpl. rewrite (at_frame_lookup _ _ _ _ _ _ _ _ _ Haf).
  unfold future_done. rewrite af_exec0.
  set (r := if hasCanceled a' slot then Exc (cancel_exn future_msg) else fut fu).
  intros [= <-].
  assert (forall s1 f1 a2, at_frame s0 s1 h k ex ll None l f1 -> locals s1 = locals s ->
    log s1 = log s -> f1 = with_point (InFuture k0 r) f -> leads P (resume a2 h f1 s1)) as Hres.
  { intros s1 f1 a2 Haf1 Hl1 Hg1 ->. unfold resume. simpl.
    eapply Hgo; [by eapply at_frame_move|done|done|by eapply Hal]. }
  destruct ex as [e|].
  - change (leads P (set_tok (Scheduled e h) (set_frame h (with_point (InFuture k0 r) f) (set_tok (WaitFuture fu h slot k0) s)))).
    eapply runs_after_schedule; [exact Hb|by apply at_frame_set_tok|].
    intros s1 f1 a2 Haf1 Hl1 Hg1 Hf1. by eapply Hres.
  - apply (must_resume_step _ _ h (with_point (InFuture k0 r) f)); [by left | by simpl; rewrite lookup_insert_eq|].
    intros a2. eapply Hres; try done. by apply at_frame_set_tok, at_frame_move, at_frame_set_tok.
Qed.

Lemma size_set_exec ex l fs : size (set_exec ex l fs) = size fs.
Proof.
  rewrite <- !size_dom. f_equal. apply set_eq. intros x.
  rewrite !elem_of_dom, lookup_set_exec. by destruct (fs !! x).
Qed.

Lemma change_chain s0 s h k ex ll fl l f ex' :
  base s0 h k l -> at_frame s0 s h k ex ll fl l f ->
  let moved := ChangeLaziessExecutorTo (size (frames s)) h ex' (frames s) in
  moved = set_exec ex' (h :: l) (frames s) /\
  ChangeLaziessExecutorTo (size moved) h ex moved = frames s.
Proof.
  intros Hb Haf moved. destruct (at_frame_up _ _ _ _ _ _ _ _ _ Hb Haf) as [_ Hup].
  pose proof (base_nodup _ _ _ _ Hb) as Hnd.
  pose proof (up_length _ _ _ _ Hup Hnd) as Hlen.
  assert (moved = set_exec ex' (h :: l) (frames s)) as Hm
    by (by apply (ChangeLaziessExecutorTo_chain _ ex)).
  split; [done|]. rewrite Hm, size_set_exec.
  rewrite (ChangeLaziessExecutorTo_chain _ ex' _ _ _ (h :: l)); [|..|done|done].
  - rewrite set_exec_twice. by apply (set_exec_same _ _ h).
  - apply (up_set_exec ex); [done| |done]. intros d g Hd Hg.
    destruct (up_elem _ _ _ _ _ Hup Hd) as (g' & Hg' & ?). by simplify_eq.
Qed.

Lemma at_frame_dispatch s0 s h k ex ll l f ex' :
  base s0 h k l -> at_frame s0 s h k ex ll None l f ->
  at_frame s0 (State (set_exec ex' (h :: l) (frames s)) (locals s) (next s) (log s) (callbacks s) (tok s))
    h k ex' ll None l (with_executor ex' f).
Proof.
  intros Hb []. constructor; try done; simpl.
  - rewrite af_frames0. apply map_eq. intros x.
    rewrite lookup_set_exec. destruct (decide (x = h)) as [->|Hx].
    + rewrite !lookup_insert_eq. simpl. by rewrite bool_decide_true by left.
    + rewrite !lookup_insert_ne, !lookup_set_exec by done.
      destruct (frames s0 !! x); simpl; [|done]. f_equal.
      rewrite (bool_decide_ext (x ∈ h :: l) (x ∈ l)) by (rewrite elem_of_cons; naive_solver).
      by case_bool_decide.
  - intros x Hx. simpl. destruct (af_fresh0 x Hx) as [H1 H2]. split; [|done].
    by rewrite lookup_set_exec, H1.
Qed.

Lemma state_eta s : State (frames s) (locals s) (next s) (log s) (callbacks s) (tok s) = s.
Proof. by destruct s. Qed.

Lemma runs_dispatch e k0 : (forall o, runs_ok (k0 o)) -> runs_ok (DoDispatch e k0).
Proof.
  intros IHk s0 s h k l ex ll f P Hb Haf Htok HP.
  eapply must_run_step; [done | by eapply at_frame_lookup|]. intros a. simpl. unfold dispatch.
  pose proof (af_exec _ _ _ _ _ _ _ _ _ Haf) as Hex. rewrite Hex.
  case_decide as Hd.
  { eapply runs_on; [apply IHk|exact Hb|exact Haf|]. intros. eapply HP; [|done].
    apply E_dispatch. by rewrite <- Hd. }
  destruct (change_chain _ _ _ _ _ _ _ _ _ (Some e) Hb Haf) as [Hm Hback]. simpl in Hback.
  destruct (schedule_ok a).
  - pose proof (at_frame_dispatch _ _ _ _ _ _ _ _ (Some e) Hb Haf) as Haf1. rewrite <- Hm in Haf1.
    eapply runs_after_schedule; [exact Hb|exact Haf1|].
    intros s1 f1 a' Haf2 Hl1 Hg1 ->. unfold resume. simpl.
    eapply runs_on; [apply IHk|exact Hb|by eapply at_frame_move|].
    simpl. rewrite Hl1, Hg1. intros. eapply HP; [|done]. by apply E_dispatch.
  - rewrite Hback, state_eta.
    eapply runs_on; [apply IHk|exact Hb|exact Haf|]. intros. eapply HP; [|done].
    by apply E_dispatch_fails.
Qed.

Lemma local_of_eq ll s : local_of ll s = get_local ll (locals s).
Proof. done. Qed.

(** The lazy local of the frame has been allocated, and the slot moved. *)
Lemma at_frame_set_local s0 s h k ex ll l f now pre :
  at_frame s0 s h k ex ll None l f ->
  moveSlotFromContinuation now (get_local ll (locals s)) = Some pre ->
  at_frame s0
    (State (<[h := with_local (next s) f]> (frames s))
       (<[next s := pre.1]> (move_out ll pre.2 (locals s))) (S (next s)) (log s) (callbacks s) (tok s))
    h k ex ll (Some (next s)) l (with_local (next s) f).
Proof.
  intros [] Hmv. constructor; try done; simpl; [|  |lia].
  - by rewrite af_frames0, insert_insert_eq.
  - intros x Hx. simpl in *. destruct (af_fresh0 x) as [H1 H2]; [lia|].
    split.
    + rewrite lookup_insert_ne; [done|]. intros <-. by rewrite af_frames0, lookup_insert_eq in H1.
    + rewrite lookup_insert_ne by lia. unfold move_out.
      destruct ll as [p|], (pre.2) as [y|] eqn:Hy; try done.
      rewrite lookup_insert_ne; [done|]. intros <-.
      unfold get_local, moveSlotFromContinuation in Hmv. simpl in Hmv. rewrite H2 in Hmv.
      by simplify_eq.
Qed.

Lemma runs_set_local l0 c : runs_ok c -> runs_ok (SetLazyLocal l0 c).
Proof.
  intros IHc s0 s h k l ex ll f P Hb Haf Htok HP.
  eapply must_run_step; [done | by eapply at_frame_lookup|]. intros a. simpl. unfold setLazyLocalImpl.
  rewrite (af_local _ _ _ _ _ _ _ _ _ Haf), local_of_eq.
  destruct (moveSlotFromContinuation l0 (get_local ll (locals s))) as [[now pre]|] eqn:Hmv.
  - pose proof (at_frame_set_local _ _ _ _ _ _ _ _ _ _ Haf Hmv) as Haf1.
    fold (move_out ll pre (locals s)).
    set (s1 := State (<[h := with_local (next s) f]> (frames s)) _ _ _ _ _) in Haf1.
    match goal with |- leads P (await_lazy ?h ?g ?o ?c ?p ?s2) =>
      assert (await_lazy h g o c p s2 = await_lazy h g o c p s1) as -> end.
    { unfold await_lazy, s1. simpl. by rewrite insert_insert_eq. }
    eapply must_await; [exact IHc|exact Hb|exact Haf1|].
    intros s' ex1 t1 child cf g He Ht Hg Hp Hcf Hv Hne Hat.
    destruct (eval_result _ _ _ _ _ _ _ _ _ He) as (r & Hr & _).
    apply (must_resume_step _ _ h g); [by left | done |]. intros a'.
    unfold resume. rewrite Hp. simpl. rewrite lookup_insert_ne, Hcf by done. simpl. rewrite Hv, Hr.
    set (s2 := set_tok (Run h (of_res r)) (back h child g s')).
    change (leads P s2).
    assert (at_frame s0 s2 h k ex1 ll (Some (next s)) l (with_point Running g)) as Haf2
      by (by apply at_frame_set_tok).
    apply (must_run_step _ _ h (of_res r) (with_point Running g)); [done|by eapply at_frame_lookup|].
    intros a2.
    assert (run_code fut true a2 h (with_point Running g) (of_res r) s2 =
      set_tok (Resume k) (set_frame h (with_value t1 (with_point Running g)) s2)) as ->.
    { pose proof Haf2 as []. destruct t1 as [|v|[e|]]; simplify_eq/=;
        unfold final_suspend; simpl; by rewrite af_cont0. }
    eapply HP.
    { eapply (E_local fut ex ll (locals s) (log s) l0 c now pre (next s)); [done| |exact He].
      apply (af_fresh _ _ _ _ _ _ _ _ _ Haf). lia. }
    pose proof Haf2 as []. constructor; [done| |done].
    exists (with_value t1 (with_point Running g)), ll, (Some (next s)).
    split; [|done]. apply at_frame_set_tok. rewrite <- af_own0.
    by eapply (at_frame_set_frame _ _ _ _ _ _ _ _ _ (with_value t1 (with_point Running g))).
  - eapply (runs_return (TError (Some _)) (CoThrow _) eq_refl I);
      [exact Hb|by apply at_frame_set_tok|done|].
    simpl. intros. eapply HP; [|done]. inversion H; subst. by apply E_local_twice.
Qed.

Lemma runs_all c : runs_ok c.
Proof.
  induction c; eauto using runs_await, runs_await_try, runs_set_local, runs_yield, runs_after,
    runs_dispatch, runs_future.
  - by eapply (runs_return (TValue v)).
  - by eapply (runs_return (TError (Some e))).
  - intros s0 s h k0 l ex ll f P Hb Haf Htok HP.
    eapply must_run_step; [done | by eapply at_frame_lookup|]. intros a. simpl.
    eapply runs_on; [done|exact Hb|by apply at_frame_emit|].
    intros. eapply HP; [|done]. by apply E_emit.
  - intros s0 s h k0 l ex ll f P Hb Haf Htok HP.
    eapply must_run_step; [done | by eapply at_frame_lookup|]. intros a. simpl.
    rewrite (af_exec _ _ _ _ _ _ _ _ _ Haf).
    eapply runs_on; [done|exact Hb|exact Haf|]. intros. eapply HP; [|done]. by apply E_executor.
  - intros s0 s h k0 l ex ll f P Hb Haf Htok HP.
    eapply must_run_step; [done | by eapply at_frame_lookup|]. intros a. simpl.
    rewrite (af_local _ _ _ _ _ _ _ _ _ Haf), local_of_eq.
    eapply runs_on; [done|exact Hb|exact Haf|]. intros. eapply HP; [|done]. by apply E_get_local.
  - intros s0 s h k0 l ex ll f P Hb Haf Htok HP.
    eapply must_run_step; [done | by eapply at_frame_lookup|]. intros a. simpl.
    rewrite (af_local _ _ _ _ _ _ _ _ _ Haf), slot_of_eq.
    eapply runs_on; [done|exact Hb|exact Haf|]. intros. eapply HP; [|done]. by apply E_get_slot.
  - intros s0 s h k0 l ex ll f P Hb Haf Htok HP.
    eapply must_run_step; [done | by eapply at_frame_lookup|]. intros a. simpl.
    unfold forbidSignal. rewrite (af_local _ _ _ _ _ _ _ _ _ Haf). fold (forbid ll (locals s)).
    eapply runs_on; [done|exact Hb| |].
    + apply at_frame_locals; [|exact Haf]. intros x Hx. unfold forbid. destruct ll as [l1|]; [|done].
      apply lookup_alter_None. done.
    + intros. eapply HP; [|done]. by apply E_forbid.
Qed.
End run.

(** ** Properties *)

(** [syncAwait]: the check, and what it returns once the callback has run. *)
Definition syncAwait_begin (executor : option nat) (currentThreadInExecutor : bool) : outcome unit :=
  match executor with
  | Some _ => logicAssert (negb currentThreadInExecutor)
                "do not sync await in the same executor with Lazy"
  | None => Ret tt
  end.
Definition syncAwait_end (s : state) : option (outcome Z) :=
  match callbacks s with [t] => Some (value t) | _ => None end.


Lemma must_acc fut b P s :
  (forall x, P x -> tok x = Finished) -> must (lazy_step fut b) P s ->
  Acc (fun s2 s1 => fstep (lazy_step fut b) s1 s2) s.
Proof.
  intros HP Hm. induction Hm as [s Hs|s _ _ IH].
  - constructor. intros s2 [a Ha]. unfold lazy_step in Ha. by rewrite (HP _ Hs) in Ha.
  - constructor. intros s2 [a Ha]. by eapply IH.
Qed.

Lemma must_ends fut b P s s' :
  (forall x, P x -> tok x = Finished) -> must (lazy_step fut b) P s ->
  rtc (fstep (lazy_step fut b)) s s' -> nf (fstep (lazy_step fut b)) s' -> P s'.
Proof.
  intros HP Hm Hr. induction Hr as [s|s s1 s2 [a Ha] _ IH]; intros Hn.
  - destruct Hm as [?|[a [s1 Ha]] _]; [done|]. destruct Hn. by exists s1, a.
  - destruct Hm as [Hs|_ Hm]; [|by eapply IH; [eapply Hm|]].
    unfold lazy_step in Ha. by rewrite (HP _ Hs) in Ha.
Qed.

Lemma eval_dom fut ex ll m lg c ex' m' lg' t :
  eval fut ex ll m lg c ex' m' lg' t -> dom m' = dom m.
Proof.
  induction 1; try done; try congruence.
  - rewrite dom_delete_L, IHeval, dom_insert_L. unfold move_out.
    apply not_elem_of_dom in H0. destruct ll as [p|], pre as [x|]; try set_solver.
    rewrite dom_insert_L. assert (p ∈ dom m); [|set_solver].
    apply elem_of_dom. unfold moveSlotFromContinuation, get_local in H. simpl in H.
    destruct (m !! p); [done|]. by simplify_eq.
  - rewrite IHeval. unfold forbid. destruct ll; [|done]. by rewrite dom_alter_L.
Qed.

(** The end of a run: the callback got [t], nothing is left in the heaps. *)
Definition delivered fut (w : how) (c : code) (s : state) : Prop :=
  exists ex' t,
    eval fut (match w with Start => None | DirectlyStart ex => ex | Via ex => Some ex end)
      None ∅ [] c ex' ∅ (log s) t /\
    tok s = Finished /\ callbacks s = [t] /\ frames s = ∅ /\ locals s = ∅ /\
    syncAwait_end s = Some (value t).

Lemma start_delivers fut w c : must (lazy_step fut true) (delivered fut w c) (start w c).
Proof.
  set (ex := match w with Start => None | DirectlyStart ex => ex | Via ex => Some ex end).
  set (f0 := Frame (Initial c) (Some 1%nat) ex None TNothing None).
  set (s0 := start w c).
  assert (base s0 0 1 []) as Hb.
  { constructor.
    - exists ex. simpl. eexists. by rewrite lookup_insert_ne, lookup_singleton_eq by done.
    - apply NoDup_singleton.
    - exists f0. by split. }
  assert (at_frame s0 s0 0 1 ex None None [] f0) as Haf.
  { constructor; try done.
    - unfold fresh, s0. simpl. intros x Hx. split; [|apply lookup_empty].
      rewrite lookup_insert_ne by lia. apply lookup_singleton_ne. lia. }
  apply (must_resume_step _ _ _ 0 f0); [destruct w; simpl; eauto|done|].
  intros a. change (must (lazy_step fut true) (delivered fut w c)
    (set_tok (Run 0 c) (set_frame 0 (with_point Running f0) s0))).
  eapply runs_on; [apply runs_all|exact Hb|by eapply at_frame_move|].
  intros s' ex' m' lg' t He [Htok (f' & ll & fl & Haf' & Hv & Hm) Hlg].
  pose proof Haf' as []. rewrite set_exec_nil in af_frames0.
  assert (m' = ∅) as Hm0.
  { apply dom_empty_inv_L. rewrite (eval_dom _ _ _ _ _ _ _ _ _ _ He). done. }
  set (d := Frame (InCallback 0) None None None TNothing None).
  assert (frames s' !! 1%nat = Some d) as Hd by (by rewrite af_frames0).
  apply (must_resume_step _ _ _ 1 d); [by left|done|]. intros a'.
  destruct (eval_result _ _ _ _ _ _ _ _ _ _ He) as (r & _ & Ht).
  unfold resume. simpl. rewrite (lookup_insert_ne _ 1%nat 0%nat) by done.
  rewrite af_frames0, lookup_insert_eq. simpl. rewrite Hv, Ht. apply must_now.
  exists ex', t. simpl. rewrite Hlg.
  split; [rewrite Hm0 in He; exact He|]. split; [done|]. split; [by rewrite af_calls0|].
  split.
  { apply map_eq. intros x. rewrite lookup_empty. destruct (decide (x = 1%nat)) as [->|];
      [by rewrite lookup_delete_eq|].
    rewrite lookup_delete_ne by done. destruct (decide (x = 0%nat)) as [->|];
      [by rewrite lookup_delete_eq|].
    rewrite lookup_delete_ne by done. rewrite lookup_insert_ne by done.
    rewrite af_frames0, lookup_insert_ne by done.
    apply (af_fresh _ _ _ _ _ _ _ _ _ Haf x). simpl. lia. }
  split.
  { rewrite lookup_delete_ne, lookup_insert_eq by done. simpl.
    rewrite lookup_insert_ne, af_frames0, lookup_insert_eq by done.
    by rewrite <- Hm0, <- Hm, <- af_own0. }
  unfold syncAwait_end. simpl. by rewrite af_calls0.
Qed.

Lemma must_reach fut b P s :
  must (lazy_step fut b) P s -> exists s', rtc (fstep (lazy_step fut b)) s s' /\ P s'.
Proof.
  induction 1 as [s Hs|s [a [s1 Ha]] _ IH]; [by exists s|].
  destruct (IH a s1 Ha) as (s' & Hr & HP). exists s'. split; [|done].
  eapply rtc_l; [by exists a | done].
Qed.

Lemma must_step fut b P s s' :
  (forall x, P x -> tok x = Finished) -> must (lazy_step fut b) P s ->
  rtc (fstep (lazy_step fut b)) s s' -> must (lazy_step fut b) P s'.
Proof.
  intros HP Hm Hr. induction Hr as [s|s s1 s2 [a Ha] _ IH]; [done|].
  apply IH. destruct Hm as [Hs|_ Hm]; [|by eapply Hm].
  unfold lazy_step in Ha. by rewrite (HP _ Hs) in Ha.
Qed.

Lemma delivered_finished fut w c s : delivered fut w c s -> tok s = Finished.
Proof. intros (ex' & t & H). apply H. Qed.

(** C29.  A [Lazy] behaves like the direct call of its body.  However it is
    started, whatever tree of coroutines it awaits, wherever they are
    rescheduled and whatever signals, futures and dispatches do: every run is
    finite; from every state the callback can still be reached; and when nothing
    can move, the callback of [start] has been called exactly once, with a
    result and effects of the direct-style semantics (exceptions included, each
    [co_await] seeing its child's), every coroutine frame and lazy local has been
    destroyed, and [syncAwait] returns that result.  No handle is resumed twice or
    after its frame is gone. *)
Theorem lazy_runs_as_direct_style fut w c s :
  rtc (fstep (lazy_step fut true)) (start w c) s ->
  Acc (fun s2 s1 => fstep (lazy_step fut true) s1 s2) s /\
  (exists s', rtc (fstep (lazy_step fut true)) s s' /\ delivered fut w c s') /\
  (nf (fstep (lazy_step fut true)) s -> delivered fut w c s).
Proof.
  intros Hr. pose proof (start_delivers fut w c) as Hm. split; [|split].
  - eapply must_acc; [apply delivered_finished|].
    eapply must_step; [apply delivered_finished | exact Hm | done].
  - eapply must_reach, must_step; [apply delivered_finished | exact Hm | done].
  - intros Hn. eapply must_ends; [apply delivered_finished | exact Hm | done | done].
Qed.

(** An example: a child that yields, in a coroutine that sets a lazy local
    bound to a signal, and a handler for the child's exception. *)
Definition ex_lazy : code :=
  CoAwait (SetLazyLocal (Local None (Some 7%nat))
             (Emit 1 (CoAwait (DoYield (fun o => Emit 2 (of_exn o)))
                        (fun r => Emit 3 (CoThrow (UserError 5))))))
    (fun r => match r with Exc (UserError n) => CoReturn n | _ => of_res r end).

Definition ex_answer : answer := Answer false false false true.

Definition ex_done : state :=
  run_end (lazy_step (fun _ => Val 0) true) (replicate 20 ex_answer) (start (Via 3) ex_lazy).

Lemma lazy_runs_as_direct_style_witness :
  delivered (fun _ => Val 0) (Via 3) ex_lazy ex_done /\
  callbacks ex_done = [TValue 5] /\ log ex_done = [1; 2; 3].
Proof.
  split; [|split; vm_compute; reflexivity].
  apply (lazy_runs_as_direct_style (fun _ => Val 0) (Via 3) ex_lazy ex_done).
  - apply (run_schedule_rtc _ (replicate 20 ex_answer)). vm_compute. reflexivity.
  - apply fstep_nf. intros a. vm_compute. reflexivity.
Defined.

(** [Yield] ignores the result of [schedule] ([dispatch] checks it): when
    the executor refuses, the coroutine is never resumed, the callback never called, and
    [syncAwait] blocks for ever. *)
Theorem refused_schedule_loses_coroutine fut ex :
  exists s, rtc (fstep (lazy_step fut false))
              (start (DirectlyStart (Some ex)) (DoYield (fun o => of_exn o))) s /\
    nf (fstep (lazy_step fut false)) s /\
    callbacks s = [] /\ frames s <> ∅ /\ syncAwait_end s = None.
Proof.
  set (s0 := start (DirectlyStart (Some ex)) (DoYield (fun o => of_exn o))).
  set (sched := replicate 2 (Answer false false false false)).
  exists (run_end (lazy_step fut false) sched s0). split; [|split; [|split; [|split]]].
  - apply (run_schedule_rtc _ sched). reflexivity.
  - apply fstep_nf. intros a. reflexivity.
  - reflexivity.
  - intros H. apply (f_equal (fun m => m !! 0%nat)) in H.
    rewrite lookup_empty in H. vm_compute in H. discriminate.
  - reflexivity.
Qed.
