(* ===== verification/CoCollect.v ===== *)
(** * CoCollect: collectAll, collectAny and collectAllWindowed of coroutines

    Models coro/CountEvent.h and coro/Collect.h.  The inputs are tasks that run
    on their own and call back once with a result.  A step is one access to
    shared state of the awaiter, of the event or of a task; the thread that runs
    [await_suspend] interleaves with the callbacks, so a task may complete inside
    [start], at any time later, or while the loop still starts the others.  The
    variadic forms have the same body for each element of the tuple. *)

From S2P Require Import Prelude Try.

(** ** CountEvent *)

Record CountEvent := Event { _count : Z; _awaitingCoro : bool }.

Definition CountEvent_init (count : nat) : CountEvent := Event (Z.of_nat count) false.

(** [down(oldCount, 1)]: the old count, whether the handle was returned. *)
Definition down (e : CountEvent) : Z * bool * CountEvent :=
  let oldCount := _count e in
  if oldCount =? 1
  then (oldCount, _awaitingCoro e, Event (u64 (oldCount - 1)) false)
  else (oldCount, false, Event (u64 (oldCount - 1)) (_awaitingCoro e)).

Definition downCount (e : CountEvent) : Z * CountEvent :=
  (_count e, Event (u64 (_count e - 1)) (_awaitingCoro e)).

Definition setAwaitingCoro (e : CountEvent) : CountEvent := Event (_count e) true.

(** ** CollectAllAwaiter *)

Inductive suspend_pc := SEnter | SLoop (i : nat) | SReturned.

Inductive task_pc :=
  | TIdle                       (** not started *)
  | TQueued                     (** [func] is in the executor's queue *)
  | TBody                       (** runs, or is suspended *)
  | TStored                     (** the callback has stored the result *)
  | TEmit (resume : bool)       (** it was the first: [signal->emits] *)
  | TResume                     (** it was the last: [awaitingCoro.resume()] *)
  | TDone.

(** [broken]: a member of the awaiter was used after the coroutine had been
    resumed, when the awaiter may be gone. *)
Record all_state := All {
  susp : suspend_pc;
  tasks : list task_pc;
  _output : list (Try Z);
  _event : CountEvent;
  emitted : nat;
  resumed : nat;
  broken : bool;
}.

Inductive alabel := LSuspend | LTask (i : nat).

(** An executor of its own, or the one of the awaiting coroutine. *)
Definition child_executor (own : option nat) (executor : option nat) : option nat :=
  match own with Some e => Some e | None => executor end.

Definition touched (s : all_state) : bool := broken s || (0 <? resumed s)%nat.

Section CollectAll.
Context (Para : bool) (n : nat) (own : nat -> option nat) (executor : option nat)
        (res : nat -> Try Z).

Definition all_init : all_state :=
  All SEnter (replicate n TIdle) (replicate n TNothing) (CountEvent_init n) 0 0 false.

Definition set_task (i : nat) (t : task_pc) (s : all_state) : all_state :=
  All (susp s) (<[i := t]> (tasks s)) (_output s) (_event s) (emitted s) (resumed s) (broken s).
Definition touch (s : all_state) : all_state :=
  All (susp s) (tasks s) (_output s) (_event s) (emitted s) (resumed s) (touched s).
Definition set_susp (p : suspend_pc) (s : all_state) : all_state :=
  All p (tasks s) (_output s) (_event s) (emitted s) (resumed s) (broken s).

(** [func] goes to the executor when [Para], several inputs and an executor. *)
Definition start_pc (i : nat) : task_pc :=
  if Para && (1 <? n)%nat && bool_decide (is_Some (child_executor (own i) executor))
  then TQueued else TBody.

(** [await_suspend]. *)
Definition suspend_step (s : all_state) : option all_state :=
  match susp s with
  | SEnter =>
      Some (All (SLoop 0) (tasks s) (_output s) (setAwaitingCoro (_event s))
                (emitted s) (resumed s) (touched s))
  | SLoop i =>
      if (i <? n)%nat
      then Some (touch (set_susp (SLoop (S i)) (set_task i (start_pc i) s)))
      else Some (set_susp SReturned s)
  | SReturned => None
  end.

(** [func] and the callback given to [start]. *)
Definition callback_step (i : nat) (s : all_state) : option all_state :=
  match tasks s !! i with
  | Some TQueued => Some (touch (set_task i TBody s))
  | Some TBody =>
      Some (touch (All (susp s) (<[i := TStored]> (tasks s)) (<[i := res i]> (_output s))
                       (_event s) (emitted s) (resumed s) (broken s)))
  | Some TStored =>
      let '(oldCount, awaitingCoro, e) := down (_event s) in
      let next := if oldCount =? Z.of_nat n then TEmit awaitingCoro
                  else if awaitingCoro then TResume else TDone in
      Some (touch (All (susp s) (<[i := next]> (tasks s)) (_output s) e
                       (emitted s) (resumed s) (broken s)))
  | Some (TEmit r) =>
      Some (All (susp s) (<[i := if r then TResume else TDone]> (tasks s)) (_output s) (_event s)
                (S (emitted s)) (resumed s) (broken s))
  | Some TResume =>
      Some (All (susp s) (<[i := TDone]> (tasks s)) (_output s) (_event s)
                (emitted s) (S (resumed s)) (broken s))
  | _ => None
  end.

Definition all_step (l : alabel) (s : all_state) : option all_state :=
  match l with LSuspend => suspend_step s | LTask i => callback_step i s end.

Definition all_lts : lts := flts (fun s => s = all_init) all_step.

(** *** Invariant *)

Definition pending (t : task_pc) : bool :=
  match t with TIdle | TQueued | TBody | TStored => true | _ => false end.
Definition has_coro (t : task_pc) : bool :=
  match t with TEmit true | TResume => true | _ => false end.
Definition emitting (t : task_pc) : bool :=
  match t with TEmit _ => true | _ => false end.
Definition stored (t : task_pc) : bool :=
  match t with TIdle | TQueued | TBody => false | _ => true end.

(** The tasks the loop has started are the first [started] ones. *)
Definition started (s : all_state) : nat :=
  match susp s with SEnter => 0 | SLoop i => i | SReturned => n end.

Record all_inv (s : all_state) : Prop := {
  ai_tasks : length (tasks s) = n;
  ai_output : length (_output s) = n;
  ai_count : _count (_event s) = count_if pending (tasks s);
  ai_awaiting : _awaitingCoro (_event s) =
    match susp s with SEnter => false | _ => 0 <? _count (_event s) end;
  ai_started : (started s <= n)%nat /\
    forall i t, tasks s !! i = Some t -> t = TIdle <-> (started s <= i)%nat;
  ai_coro : count_if has_coro (tasks s) + Z.of_nat (resumed s) =
    if _count (_event s) =? 0 then 1 else 0;
  ai_emit : count_if emitting (tasks s) + Z.of_nat (emitted s) =
    if _count (_event s) <? Z.of_nat n then 1 else 0;
  ai_results : forall i t, tasks s !! i = Some t ->
    _output s !! i = Some (if stored t then res i else TNothing);
  ai_broken : broken s = false;
}.

Context (Hn : (0 < n)%nat) (Hmax : Z.of_nat n < 2 ^ 64).

Lemma all_inv_init : all_inv all_init.
Proof.
  constructor; simpl; rewrite ?length_replicate, ?count_replicate; simpl; try done.
  - unfold started; simpl. split; [lia|]. intros i t [-> ?]%lookup_replicate. split; [lia|done].
  - destruct (Z.eqb_spec (Z.of_nat n) 0); lia.
  - rewrite Z.ltb_irrefl. done.
  - intros i t [-> Hi]%lookup_replicate. simpl. by apply lookup_replicate.
Qed.

(** A pending task keeps the awaiter alive. *)
Lemma all_inv_untouched s i t :
  all_inv s -> tasks s !! i = Some t -> pending t = true -> touched s = false.
Proof.
  intros Hi Ht Hp. unfold touched. rewrite (ai_broken _ Hi). simpl.
  pose proof (ai_coro _ Hi) as Hc. pose proof (ai_count _ Hi) as Hcount.
  pose proof (count_if_pos _ _ _ _ Ht Hp). pose proof (count_if_nonneg has_coro (tasks s)).
  destruct (Z.eqb_spec (_count (_event s)) 0); [lia|]. apply Nat.ltb_ge. lia.
Qed.

Lemma ai_count_bound s : all_inv s -> 0 <= _count (_event s) <= Z.of_nat n.
Proof.
  intros Hi. rewrite (ai_count _ Hi), <- (ai_tasks _ Hi).
  split; [apply count_if_nonneg | apply count_if_le_length].
Qed.

(** A task that moves between points that count alike. *)
Lemma all_inv_move s i t t' :
  all_inv s -> tasks s !! i = Some t -> t <> TIdle -> t' <> TIdle ->
  pending t' = pending t -> has_coro t' = has_coro t -> emitting t' = emitting t ->
  stored t' = stored t -> all_inv (set_task i t' s).
Proof.
  intros [H1 H2 H3 H4 [H5 H5'] H6 H7 H8 H9] Ht Hn1 Hn2 Hp Hh He Hs. constructor; simpl; try done.
  - by rewrite length_insert.
  - rewrite (count_if_insert _ _ _ _ _ Ht), Hp. rewrite H3. lia.
  - split; [done|]. intros j c Hj. apply list_lookup_insert_Some in Hj as [(<- & <- & _)|[? Hj]].
    + rewrite <- (H5' _ _ Ht). split; done.
    + by apply H5'.
  - rewrite (count_if_insert _ _ _ _ _ Ht), Hh. rewrite <- H6. lia.
  - rewrite (count_if_insert _ _ _ _ _ Ht), He. rewrite <- H7. lia.
  - intros j c Hj. apply list_lookup_insert_Some in Hj as [(<- & <- & _)|[? Hj]].
    + rewrite Hs. by apply H8.
    + by apply H8.
Qed.

Lemma all_inv_touch s : all_inv s -> touched s = false -> all_inv (touch s).
Proof. intros [] Ht. constructor; try done. Qed.

Lemma all_inv_suspend s s' : all_inv s -> suspend_step s = Some s' -> all_inv s'.
Proof.
  intros Hi. pose proof Hi as [H1 H2 H3 H4 [H5 H5'] H6 H7 H8 H9]. unfold suspend_step.
  destruct (susp s) as [|i|] eqn:Hsu; [| |done].
  - intros [= <-].
    assert (exists t, tasks s !! 0%nat = Some t) as [t Ht]
      by (apply lookup_lt_is_Some_2; lia).
    assert (t = TIdle) as -> by (apply (H5' 0%nat); [done|]; unfold started; rewrite Hsu; lia).
    pose proof (all_inv_untouched _ _ _ Hi Ht eq_refl) as Hu.
    pose proof (count_if_pos pending _ _ _ Ht eq_refl).
    constructor; simpl; try done.
    + symmetry. apply Z.ltb_lt. lia.
    + unfold started in *. simpl. rewrite Hsu in H5, H5'. done.
  - destruct (Nat.ltb_spec i n) as [Hlt|Hge]; intros [= <-].
    + assert (exists t, tasks s !! i = Some t) as [t Ht] by (apply lookup_lt_is_Some_2; lia).
      unfold started in H5'. rewrite Hsu in H5'.
      assert (t = TIdle) as -> by (apply (H5' i); [done|lia]).
      pose proof (all_inv_untouched _ _ _ Hi Ht eq_refl) as Hu.
      assert (start_pc i = TQueued \/ start_pc i = TBody) as Hsp
        by (unfold start_pc; destruct (Para && _ && _); auto).
      apply all_inv_touch; [|done].
      constructor; simpl; try done.
      * by rewrite length_insert.
      * rewrite (count_if_insert _ _ _ _ _ Ht), H3. destruct Hsp as [-> | ->]; simpl; lia.
      * unfold started. simpl. split; [lia|]. intros j c Hj.
        apply list_lookup_insert_Some in Hj as [(<- & <- & _)|[? Hj]].
        -- destruct Hsp as [-> | ->]; split; try done; lia.
        -- rewrite (H5' _ _ Hj). lia.
      * rewrite (count_if_insert _ _ _ _ _ Ht), <- H6. destruct Hsp as [-> | ->]; simpl; lia.
      * rewrite (count_if_insert _ _ _ _ _ Ht), <- H7. destruct Hsp as [-> | ->]; simpl; lia.
      * intros j c Hj. apply list_lookup_insert_Some in Hj as [(<- & <- & _)|[? Hj]].
        -- rewrite (H8 _ _ Ht). by destruct Hsp as [-> | ->].
        -- by apply H8.
    + constructor; simpl; try done.
      * unfold started in *. rewrite Hsu in H5, H5'. simpl. split; [lia|].
        intros j c Hj. rewrite (H5' _ _ Hj). apply lookup_lt_Some in Hj. lia.
Qed.

(** The decrement: the last one takes the coroutine. *)
Lemma all_inv_down s i :
  all_inv s -> tasks s !! i = Some TStored ->
  forall old aw e, down (_event s) = (old, aw, e) ->
  all_inv (touch (All (susp s)
    (<[i := if old =? Z.of_nat n then TEmit aw else if aw then TResume else TDone]> (tasks s))
    (_output s) e (emitted s) (resumed s) (broken s))).
Proof.
  intros Hi Ht old aw e Hd. pose proof (all_inv_untouched _ _ _ Hi Ht eq_refl) as Hu.
  pose proof (ai_count_bound _ Hi) as Hb.
  pose proof Hi as [H1 H2 H3 H4 [H5 H5'] H6 H7 H8 H9].
  pose proof (count_if_pos pending _ _ _ Ht eq_refl) as Hpos. rewrite <- H3 in Hpos.
  assert (susp s <> SEnter) as Hse.
  { intros E. unfold started in H5'. rewrite E in H5'.
    destruct (H5' _ _ Ht) as [_ Hid]. discriminate Hid. lia. }
  assert (_awaitingCoro (_event s) = true) as Haw
    by (rewrite H4; destruct (susp s); try done; apply Z.ltb_lt; lia).
  assert (_count e = _count (_event s) - 1 /\ old = _count (_event s) /\
          aw = (_count (_event s) =? 1) /\ _awaitingCoro e = (0 <? _count e)) as (Hce & -> & -> & Hae).
  { unfold down in Hd. rewrite Haw in Hd.
    destruct (Z.eqb_spec (_count (_event s)) 1) as [E|E]; simplify_eq/=;
      rewrite u64_small by lia; rewrite ?E; repeat split; try done.
    symmetry. apply Z.ltb_lt. lia. }
  set (next := if _count (_event s) =? Z.of_nat n then _ else _).
  assert (pending next = false /\ stored next = true /\ next <> TIdle /\
    has_coro next = (_count (_event s) =? 1) /\ emitting next = (_count (_event s) =? Z.of_nat n))
    as (Hnp & Hns & Hni & Hnc & Hne).
  { unfold next. destruct (_ =? Z.of_nat n), (_ =? 1); done. }
  apply all_inv_touch; [|by unfold touched in *].
  constructor; simpl; try done.
  - by rewrite length_insert.
  - rewrite (count_if_insert _ _ _ _ _ Ht), Hnp, Hce. simpl. lia.
  - rewrite Hae. by destruct (susp s).
  - split; [done|]. intros j c Hj. apply list_lookup_insert_Some in Hj as [(<- & <- & _)|[? Hj]].
    + rewrite <- (H5' _ _ Ht). split; done.
    + by apply H5'.
  - rewrite (count_if_insert _ _ _ _ _ Ht), Hnc, Hce. simpl.
    destruct (Z.eqb_spec (_count (_event s)) 0); [lia|].
    destruct (Z.eqb_spec (_count (_event s)) 1), (Z.eqb_spec (_count (_event s) - 1) 0); lia.
  - rewrite (count_if_insert _ _ _ _ _ Ht), Hne, Hce. simpl.
    destruct (Z.ltb_spec (_count (_event s) - 1) (Z.of_nat n)); [|lia].
    destruct (Z.eqb_spec (_count (_event s)) (Z.of_nat n)),
      (Z.ltb_spec (_count (_event s)) (Z.of_nat n)); lia.
  - intros j c Hj. apply list_lookup_insert_Some in Hj as [(<- & <- & _)|[? Hj]].
    + rewrite Hns. apply (H8 _ _ Ht).
    + by apply H8.
Qed.

Lemma all_inv_callback s s' i : all_inv s -> callback_step i s = Some s' -> all_inv s'.
Proof.
  intros Hi. pose proof Hi as [H1 H2 H3 H4 [H5 H5'] H6 H7 H8 H9]. unfold callback_step.
  destruct (tasks s !! i) as [t|] eqn:Ht; [|done]. destruct t as [| | | |r| |]; try done.
  - intros [= <-]. pose proof (all_inv_untouched _ _ _ Hi Ht eq_refl) as Hu.
    apply all_inv_touch; [by eapply all_inv_move | done].
  - intros [= <-]. pose proof (all_inv_untouched _ _ _ Hi Ht eq_refl) as Hu.
    apply all_inv_touch; [|done].
    constructor; simpl; try done.
    + by rewrite length_insert.
    + by rewrite length_insert.
    + rewrite (count_if_insert _ _ _ _ _ Ht), H3. simpl. lia.
    + split; [done|]. intros j c Hj. apply list_lookup_insert_Some in Hj as [(<- & <- & _)|[? Hj]].
      * rewrite <- (H5' _ _ Ht). split; done.
      * by apply H5'.
    + rewrite (count_if_insert _ _ _ _ _ Ht), <- H6. simpl. lia.
    + rewrite (count_if_insert _ _ _ _ _ Ht), <- H7. simpl. lia.
    + intros j c Hj. apply list_lookup_insert_Some in Hj as [(<- & <- & _)|[Hne Hj]].
      * simpl. apply list_lookup_insert_eq. rewrite H2, <- H1. by eapply lookup_lt_Some.
      * rewrite list_lookup_insert_ne by done. by apply H8.
  - destruct (down (_event s)) as [[old aw] e] eqn:Hd. intros [= <-]. by apply all_inv_down.
  - intros [= <-]. set (t' := if r then TResume else TDone).
    assert (pending t' = false /\ stored t' = true /\ has_coro t' = r /\ emitting t' = false /\ t' <> TIdle)
      as (E1 & E2 & E3 & E4 & E5) by (unfold t'; destruct r; done).
    constructor; simpl; try done.
    + by rewrite length_insert.
    + rewrite (count_if_insert _ _ _ _ _ Ht), E1, H3. simpl. lia.
    + split; [done|]. intros j c Hj. apply list_lookup_insert_Some in Hj as [(<- & <- & _)|[? Hj]].
      * rewrite <- (H5' _ _ Ht). split; done.
      * by apply H5'.
    + rewrite (count_if_insert _ _ _ _ _ Ht), E3, <- H6. destruct r; simpl; lia.
    + rewrite (count_if_insert _ _ _ _ _ Ht), E4, <- H7. simpl. lia.
    + intros j c Hj. apply list_lookup_insert_Some in Hj as [(<- & <- & _)|[? Hj]];
        [rewrite E2; apply (H8 _ _ Ht) | by apply H8].
  - intros [= <-]. constructor; simpl; try done.
    + by rewrite length_insert.
    + rewrite (count_if_insert _ _ _ _ _ Ht), H3. simpl. lia.
    + split; [done|]. intros j c Hj. apply list_lookup_insert_Some in Hj as [(<- & <- & _)|[? Hj]].
      * rewrite <- (H5' _ _ Ht). split; done.
      * by apply H5'.
    + rewrite (count_if_insert _ _ _ _ _ Ht), <- H6. simpl. lia.
    + rewrite (count_if_insert _ _ _ _ _ Ht), <- H7. simpl. lia.
    + intros j c Hj. apply list_lookup_insert_Some in Hj as [(<- & <- & _)|[? Hj]];
        [apply (H8 _ _ Ht) | by apply H8].
Qed.

Lemma all_inv_reachable s : reachable all_lts s -> all_inv s.
Proof.
  apply (invariant_ind all_lts).
  - intros x ->. apply all_inv_init.
  - intros x y Hx [[|i] Hl]; [by eapply all_inv_suspend | by eapply all_inv_callback].
Qed.

(** When nothing can move, every task is done and the loop has ended. *)
Lemma all_nf s :
  all_inv s -> nf (fstep all_step) s ->
  susp s = SReturned /\ forall i t, tasks s !! i = Some t -> t = TDone.
Proof.
  intros Hi Hnf. rewrite fstep_nf in Hnf.
  assert (susp s = SReturned) as Hs.
  { specialize (Hnf LSuspend). simpl in Hnf. unfold suspend_step in Hnf.
    destruct (susp s); try done. by destruct (_ <? _)%nat. }
  split; [done|]. intros i t Ht. specialize (Hnf (LTask i)). simpl in Hnf.
  unfold callback_step in Hnf. rewrite Ht in Hnf. destruct t as [| | | |r| |]; try done.
  - destruct (ai_started _ Hi) as [_ Hst]. specialize (Hst _ _ Ht) as [Hst _].
    specialize (Hst eq_refl). unfold started in Hst. rewrite Hs in Hst.
    apply lookup_lt_Some in Ht. rewrite (ai_tasks _ Hi) in Ht. lia.
  - by destruct (down (_event s)) as [[? ?] ?].
Qed.

End CollectAll.

(** [CollectAllVariadicAwaiter] unrolls the same loop and the same callback over
    the elements of the tuple (a fold expression). *)
Definition CollectAllVariadicAwaiter_step (Para : bool) (n : nat) (own : nat -> option nat)
    (executor : option nat) (res : nat -> Try Z) : alabel -> all_state -> option all_state :=
  all_step Para n own executor res.

(** ** CollectAnyAwaiter *)

Inductive any_task :=
  | AIdle | ABody
  | AWon            (** it was the first: it will store the result *)
  | AStored         (** it will emit the signal *)
  | AResume         (** it will resume the coroutine *)
  | ADone.

(** The handler of [Terminate] the awaiter installs when there is a slot. *)
Inductive any_handler := HNone | HInstalled | HResume | HDone.

Inductive any_susp :=
  | AnyEnter | AnyLoop (i : nat) | AnyReturned
  | AnyNotSuspended.    (** [tryEmplace] failed: [await_suspend] returns false *)

Record any_state := Any {
  a_susp : any_susp;
  a_tasks : list any_task;
  a_handler : any_handler;
  a_event : CountEvent;
  a_result : option (nat * Try Z);
  a_emitted : nat;
  a_resumed : nat;
  a_broken : bool;
}.

Inductive any_label := ASuspend (emplaced : bool) | ATask (i : nat) | AHandler.

Section CollectAny.
Context (n : nat) (has_slot : bool) (res : nat -> Try Z).

Definition any_init : any_state :=
  Any AnyEnter (replicate n AIdle) HNone (CountEvent_init (S n)) None 0 0 false.

Definition any_set_task (i : nat) (t : any_task) (s : any_state) : any_state :=
  Any (a_susp s) (<[i := t]> (a_tasks s)) (a_handler s) (a_event s) (a_result s)
      (a_emitted s) (a_resumed s) (a_broken s).
Definition any_set_event (e : CountEvent) (s : any_state) : any_state :=
  Any (a_susp s) (a_tasks s) (a_handler s) e (a_result s) (a_emitted s) (a_resumed s) (a_broken s).
Definition any_resume (s : any_state) : any_state :=
  Any (a_susp s) (a_tasks s) (a_handler s) (a_event s) (a_result s) (a_emitted s)
      (S (a_resumed s)) (a_broken s).

(** [await_suspend]: the handler of the slot first, then the loop, which uses
    only local copies. *)
Definition any_suspend_step (emplaced : bool) (s : any_state) : option any_state :=
  let go p h := Any p (a_tasks s) h (a_event s) (a_result s) (a_emitted s) (a_resumed s) (a_broken s) in
  match a_susp s with
  | AnyEnter =>
      Some (if has_slot then
              if emplaced then go (AnyLoop 0) HInstalled
              else any_resume (go AnyNotSuspended HNone)
            else go (AnyLoop 0) HNone)
  | AnyLoop i =>
      if (i <? n)%nat then Some (any_set_task i ABody (go (AnyLoop (S i)) (a_handler s)))
      else Some (go AnyReturned (a_handler s))
  | AnyReturned | AnyNotSuspended => None
  end.

(** The callback of task [i]: [size + 1] is read first by the winner. *)
Definition any_task_step (i : nat) (s : any_state) : option any_state :=
  match a_tasks s !! i with
  | Some ABody =>
      let '(count, e) := downCount (a_event s) in
      Some (any_set_event e
              (any_set_task i (if count =? Z.of_nat n + 1 then AWon else ADone) s))
  | Some AWon =>
      Some (Any (a_susp s) (<[i := AStored]> (a_tasks s)) (a_handler s) (a_event s)
                (Some (i, res i)) (a_emitted s) (a_resumed s)
                (a_broken s || (0 <? a_resumed s)%nat))
  | Some AStored =>
      Some (Any (a_susp s) (<[i := AResume]> (a_tasks s)) (a_handler s) (a_event s)
                (a_result s) (S (a_emitted s)) (a_resumed s)
                (a_broken s || (0 <? a_resumed s)%nat))
  | Some AResume => Some (any_resume (any_set_task i ADone s))
  | _ => None
  end.

Definition any_handler_step (s : any_state) : option any_state :=
  let go h s := Any (a_susp s) (a_tasks s) h (a_event s) (a_result s) (a_emitted s)
                    (a_resumed s) (a_broken s) in
  match a_handler s with
  | HInstalled =>
      let '(count, e) := downCount (a_event s) in
      Some (go (if count =? Z.of_nat n + 1 then HResume else HDone) (any_set_event e s))
  | HResume => Some (any_resume (go HDone s))
  | _ => None
  end.

Definition any_step (l : any_label) (s : any_state) : option any_state :=
  match l with
  | ASuspend b => any_suspend_step b s
  | ATask i => any_task_step i s
  | AHandler => any_handler_step s
  end.

Definition any_lts : lts := flts (fun s => s = any_init) any_step.

(** [await_resume] of the two awaiters: [canceled] is what [checkHasCanceled]
    finds (the handler cannot be cleared and the slot is canceled). *)
Definition await_resume (canceled : bool) (s : any_state) : outcome (option nat * Try Z) :=
  if has_slot && canceled then Throw (SignalError 1 "async_simple::CollectAny is canceled!")
  else match a_result s with
       | Some (i, r) => Ret (Some i, r)
       | None => Ret (None, TNothing)       (* index -1 *)
       end.
Definition await_resume_variadic (canceled : bool) (s : any_state) : outcome (option nat * Try Z) :=
  if has_slot && canceled then Throw (SignalError 1 "async_simple::CollectAny is canceled!")
  else match a_result s with
       | Some (i, r) => Ret (Some i, r)
       | None => Undef "*_result of a null unique_ptr"
       end.

Definition undowned (t : any_task) : bool := match t with AIdle | ABody => true | _ => false end.
Definition open_task (t : any_task) : Prop := t = AIdle \/ t = ABody.
Definition loser (t : any_task) : Prop := open_task t \/ t = ADone.
Definition any_started (s : any_state) : nat :=
  match a_susp s with AnyEnter | AnyNotSuspended => 0 | AnyLoop i => i | AnyReturned => n end.

Definition log_is (s : any_state) (r : option (nat * Try Z)) (e k : nat) : Prop :=
  a_result s = r /\ a_emitted s = e /\ a_resumed s = k.

(** Who decremented the counter first: nobody, task [i], the handler; or the
    coroutine was not suspended at all. *)
Inductive phase (s : any_state) : Prop :=
  | ph_none :
      a_susp s <> AnyNotSuspended -> log_is s None 0 0 ->
      (forall j t, a_tasks s !! j = Some t -> open_task t) ->
      (a_handler s = HNone \/ a_handler s = HInstalled) -> phase s
  | ph_not_suspended :
      a_susp s = AnyNotSuspended -> has_slot = true -> log_is s None 0 1 ->
      (forall j t, a_tasks s !! j = Some t -> t = AIdle) -> a_handler s = HNone -> phase s
  | ph_task i t :
      a_susp s <> AnyNotSuspended -> a_tasks s !! i = Some t ->
      match t with
      | AWon => log_is s None 0 0
      | AStored => log_is s (Some (i, res i)) 0 0
      | AResume => log_is s (Some (i, res i)) 1 0
      | ADone => log_is s (Some (i, res i)) 1 1
      | _ => False
      end ->
      (forall j t', j <> i -> a_tasks s !! j = Some t' -> loser t') ->
      a_handler s <> HResume -> phase s
  | ph_handler :
      a_susp s <> AnyNotSuspended -> has_slot = true ->
      (a_handler s = HResume /\ log_is s None 0 0 \/ a_handler s = HDone /\ log_is s None 0 1) ->
      (forall j t, a_tasks s !! j = Some t -> loser t) -> phase s.

Definition handler_open (h : any_handler) : Z :=
  match h with HNone | HInstalled => 1 | _ => 0 end.

Record any_inv (s : any_state) : Prop := {
  yi_tasks : length (a_tasks s) = n;
  yi_count : _count (a_event s) = count_if undowned (a_tasks s) + handler_open (a_handler s);
  yi_started : (any_started s <= n)%nat /\
    forall i t, a_tasks s !! i = Some t -> t = AIdle <-> (any_started s <= i)%nat;
  yi_handler : match a_susp s with
               | AnyEnter | AnyNotSuspended => a_handler s = HNone
               | _ => if has_slot then a_handler s <> HNone else a_handler s = HNone
               end;
  yi_phase : phase s;
  yi_broken : a_broken s = false;
}.

Context (Hmax : Z.of_nat n + 1 < 2 ^ 64).

(** The counter is at its initial value as long as nobody was first. *)
Lemma phase_count s :
  any_inv s -> a_susp s <> AnyNotSuspended ->
  0 <= _count (a_event s) <= Z.of_nat n + 1 /\
  (_count (a_event s) = Z.of_nat n + 1 ->
     log_is s None 0 0 /\ (forall j t, a_tasks s !! j = Some t -> open_task t) /\
     (a_handler s = HNone \/ a_handler s = HInstalled)).
Proof.
  intros [H1 H2 H3 H4 H5 H6] Hs.
  pose proof (count_if_nonneg undowned (a_tasks s)).
  pose proof (count_if_le_length undowned (a_tasks s)).
  assert (0 <= handler_open (a_handler s) <= 1) by (destruct (a_handler s); simpl; lia).
  split; [lia|]. intros Hc. destruct H5 as [? Hl Ht Hh|? | i t ? Hi Hm Hj Hh|? ? Hh Hj]; try done.
  - exfalso. assert (undowned t = false) as Hu by (by destruct t).
    pose proof (count_if_lt _ _ _ _ Hi Hu). lia.
  - exfalso. destruct Hh as [[Hh _]|[Hh _]]; rewrite Hh in *; simpl in *; lia.
Qed.

Lemma any_inv_init : any_inv any_init.
Proof.
  constructor; simpl; rewrite ?length_replicate, ?count_replicate; simpl; try done.
  - lia.
  - unfold any_started; simpl. split; [lia|]. intros i t [-> ?]%lookup_replicate. split; [lia|done].
  - apply ph_none; simpl; try done; [|by left]. intros j t [-> ?]%lookup_replicate. by left.
Qed.

(** An open task is not the one that was first. *)
Lemma phase_set_open s i t' :
  (forall t, a_tasks s !! i = Some t -> open_task t) -> open_task t' ->
  a_susp s <> AnyNotSuspended -> phase s -> phase (any_set_task i t' s).
Proof.
  intros Hi Ht Hs [? Hl Hts Hh|? | k t ? Hk Hm Hj Hh|? ? Hh Hj]; try done.
  - apply ph_none; simpl; try done. intros j c Hc.
    apply list_lookup_insert_Some in Hc as [(<- & <- & _)|[? Hc]]; [done | by eapply Hts].
  - assert (k <> i) as Hki.
    { intros ->. apply Hi in Hk as Ho. by destruct Ho as [-> | ->]. }
    apply (ph_task _ k t); simpl; try done.
    + by rewrite list_lookup_insert_ne.
    + intros j c Hjk Hc. apply list_lookup_insert_Some in Hc as [(<- & <- & _)|[? Hc]];
        [by left | by eapply Hj].
  - apply ph_handler; simpl; try done. intros j c Hc.
    apply list_lookup_insert_Some in Hc as [(<- & <- & _)|[? Hc]]; [by left | by eapply Hj].
Qed.

Lemma phase_set_susp s p h :
  a_susp s <> AnyNotSuspended -> p <> AnyNotSuspended ->
  (h = a_handler s \/ a_handler s = HNone /\ h = HInstalled) -> phase s ->
  phase (Any p (a_tasks s) h (a_event s) (a_result s) (a_emitted s) (a_resumed s) (a_broken s)).
Proof.
  intros Hs Hp Hh [? Hl Hts Hh'|? | k t ? Hk Hm Hj Hh'|? ? Hh' Hj]; try done.
  - apply ph_none; simpl; try done. destruct Hh as [-> | [? ->]]; auto.
  - apply (ph_task _ k t); simpl; try done. destruct Hh as [-> | [? ->]]; done.
  - apply ph_handler; simpl; try done.
    destruct Hh as [-> | [Hn _]]; [done|]. destruct Hh' as [[? _]|[? _]]; congruence.
Qed.

Lemma any_inv_suspend b s s' : any_inv s -> any_suspend_step b s = Some s' -> any_inv s'.
Proof.
  intros Hi. pose proof Hi as [H1 H2 [H3 H3'] H4 H5 H6]. unfold any_suspend_step.
  unfold any_started in H3, H3'. destruct (a_susp s) as [|i| |] eqn:Hs; [| |done..].
  - assert (forall p, p <> AnyNotSuspended -> any_started (Any p (a_tasks s) HNone (a_event s)
      (a_result s) (a_emitted s) (a_resumed s) (a_broken s)) = 0%nat -> forall i t,
      a_tasks s !! i = Some t -> t = AIdle) as Hidle
      by (intros _ _ _ i t Ht; apply (H3' _ _ Ht); lia).
    intros [= <-]. destruct has_slot eqn:Hsl; [destruct b|].
    + constructor; simpl; rewrite ?Hsl; try done; [by rewrite H2, H4|].
      apply phase_set_susp; try done; [by rewrite Hs | right; done].
    + constructor; simpl; rewrite ?Hsl; try done; [by rewrite H2, H4|].
      apply ph_not_suspended; simpl; try done.
      * destruct H5 as [? Hl| ? | k t ? Hk Hm Hj Hh|? ? Hh Hj]; try congruence.
        -- unfold log_is in *. simpl. naive_solver.
        -- pose proof (proj2 (H3' _ _ Hk) ltac:(lia)) as ->. done.
        -- rewrite H4 in Hh. naive_solver.
      * intros j t Hj. apply (H3' _ _ Hj). lia.
    + constructor; simpl; rewrite ?Hsl; try done; [by rewrite H2, H4|].
      apply phase_set_susp; try done; [by rewrite Hs | left; done].
  - destruct (Nat.ltb_spec i n) as [Hlt|Hge]; intros [= <-].
    + assert (exists t, a_tasks s !! i = Some t) as [t Ht] by (apply lookup_lt_is_Some_2; lia).
      assert (t = AIdle) as -> by (apply (H3' _ _ Ht); lia).
      constructor; simpl; try done.
      * by rewrite length_insert.
      * rewrite (count_if_insert _ _ _ _ _ Ht), H2. simpl. lia.
      * unfold any_started. simpl. split; [lia|]. intros j c Hj.
        apply list_lookup_insert_Some in Hj as [(<- & <- & _)|[? Hj]].
        -- split; [done|lia].
        -- rewrite (H3' _ _ Hj). lia.
      * apply phase_set_open; simpl; try done; [|by right|].
        -- intros c Hc. simplify_eq. by left.
        -- apply phase_set_susp; try done; [by rewrite Hs | by left].
    + constructor; simpl; try done.
      * unfold any_started. simpl. split; [lia|]. intros j c Hj. rewrite (H3' _ _ Hj).
        apply lookup_lt_Some in Hj. lia.
      * apply phase_set_susp; try done; [by rewrite Hs | by left].
Qed.

(** The decrement by the callback of task [i]. *)
Lemma any_inv_down s i :
  any_inv s -> a_tasks s !! i = Some ABody ->
  forall count e, downCount (a_event s) = (count, e) ->
  any_inv (any_set_event e (any_set_task i (if count =? Z.of_nat n + 1 then AWon else ADone) s)).
Proof.
  intros Hi Ht count e [= <- <-].
  pose proof Hi as [H1 H2 [H3 H3'] H4 H5 H6].
  assert (a_susp s <> AnyNotSuspended) as Hs.
  { intros E. unfold any_started in H3'. rewrite E in H3'.
    pose proof (proj2 (H3' _ _ Ht) ltac:(lia)). done. }
  destruct (phase_count _ Hi Hs) as [Hb Hfirst].
  pose proof (count_if_pos undowned _ _ _ Ht eq_refl) as Hpos.
  assert (0 <= handler_open (a_handler s)) by (destruct (a_handler s); simpl; lia).
  set (t' := if _count (a_event s) =? Z.of_nat n + 1 then AWon else ADone).
  assert (undowned t' = false /\ t' <> AIdle) as [Hu Hni] by (unfold t'; by destruct (_ =? _)).
  constructor; simpl; try done.
  - by rewrite length_insert.
  - rewrite (count_if_insert _ _ _ _ _ Ht), Hu. simpl. rewrite u64_small by lia. lia.
  - split; [done|]. intros j c Hj. apply list_lookup_insert_Some in Hj as [(<- & <- & _)|[? Hj]].
    + split; [done|]. intros Hj. by apply (H3' _ _ Ht) in Hj.
    + by apply H3'.
  - unfold t'. destruct (Z.eqb_spec (_count (a_event s)) (Z.of_nat n + 1)) as [E|E].
    + destruct (Hfirst E) as (Hl & Hts & Hh). apply (ph_task _ i AWon); simpl; try done.
      * apply list_lookup_insert_eq. by eapply lookup_lt_Some.
      * intros j c Hne Hj. rewrite list_lookup_insert_ne in Hj by done. left. by eapply Hts.
      * destruct Hh as [-> | ->]; done.
    + destruct H5 as [? Hl Hts Hh|? | k t ? Hk Hm Hj Hh|? ? Hh Hj]; try done.
      * exfalso. apply E. rewrite H2, (count_if_all_true undowned), H1.
        -- destruct Hh as [-> | ->]; done.
        -- intros j c Hc. by destruct (Hts _ _ Hc) as [-> | ->].
      * assert (k <> i) as Hki by (intros ->; simplify_eq; done).
        apply (ph_task _ k t); simpl; try done.
        -- by rewrite list_lookup_insert_ne.
        -- intros j c Hjk Hc. apply list_lookup_insert_Some in Hc as [(<- & <- & _)|[? Hc]];
             [by right | by eapply Hj].
      * apply ph_handler; simpl; try done. intros j c Hc.
        apply list_lookup_insert_Some in Hc as [(<- & <- & _)|[? Hc]]; [by right | by eapply Hj].
Qed.

(** The task that was first moves on: [f] rewrites the rest of the state. *)
Lemma any_inv_winner s i t t' s' :
  any_inv s -> a_tasks s !! i = Some t -> t' <> AIdle -> t <> AIdle -> t <> ABody -> t <> ADone ->
  undowned t' = false ->
  a_tasks s' = <[i := t']> (a_tasks s) -> a_event s' = a_event s -> a_susp s' = a_susp s ->
  a_handler s' = a_handler s -> a_broken s' = false ->
  match t' with
  | AStored => log_is s' (Some (i, res i)) 0 0
  | AResume => log_is s' (Some (i, res i)) 1 0
  | ADone => log_is s' (Some (i, res i)) 1 1
  | _ => False
  end -> any_inv s'.
Proof.
  intros Hi Ht Ht' Hn1 Hn2 Hn3 Hu Es Ee Eu Eh Eb Hm'.
  pose proof Hi as [H1 H2 [H3 H3'] H4 H5 H6].
  assert (undowned t = false) as Hut by (by destruct t).
  constructor; try done.
  - by rewrite Es, length_insert.
  - rewrite Es, Ee, Eh, (count_if_insert _ _ _ _ _ Ht), Hu, Hut, H2. lia.
  - unfold any_started in *. rewrite Eu, Es. split; [done|]. intros j c Hj.
    apply list_lookup_insert_Some in Hj as [(<- & <- & _)|[? Hj]].
    + split; [done|]. intros Hj. by apply (H3' _ _ Ht) in Hj.
    + by apply H3'.
  - by rewrite Eu, Eh.
  - destruct H5 as [? Hl Hts Hh|? ? ? Hid| k c ? Hk Hm Hj Hh|? ? Hh Hj].
    + destruct (Hts _ _ Ht); done.
    + by apply Hid in Ht.
    + destruct (decide (k = i)) as [->|Hki].
      * apply (ph_task _ i t'); rewrite ?Eu, ?Es, ?Eh; try done.
        -- apply list_lookup_insert_eq. by eapply lookup_lt_Some.
        -- by destruct t'.
        -- intros j d Hne Hd. rewrite list_lookup_insert_ne in Hd by done. by eapply Hj.
      * apply not_eq_sym in Hki. by destruct (Hj _ _ Hki Ht) as [[?|?]|?].
    + by destruct (Hj _ _ Ht) as [[?|?]|?].
Qed.

Lemma any_winner_log s i t :
  any_inv s -> a_tasks s !! i = Some t ->
  match t with
  | AWon => log_is s None 0 0
  | AStored => log_is s (Some (i, res i)) 0 0
  | AResume => log_is s (Some (i, res i)) 1 0
  | _ => True
  end.
Proof.
  intros [H1 H2 H3 H4 H5 H6] Ht.
  destruct H5 as [? Hl Hts Hh|? ? ? Hid| k c ? Hk Hm Hj Hh|? ? Hh Hj].
  - by destruct (Hts _ _ Ht) as [-> | ->].
  - by rewrite (Hid _ _ Ht).
  - destruct (decide (i = k)) as [->|Hki]; [simplify_eq; by destruct c|].
    by destruct (Hj _ _ Hki Ht) as [[-> | ->] | ->].
  - by destruct (Hj _ _ Ht) as [[-> | ->] | ->].
Qed.

Lemma any_inv_task i s s' : any_inv s -> any_task_step i s = Some s' -> any_inv s'.
Proof.
  intros Hi. unfold any_task_step. destruct (a_tasks s !! i) as [t|] eqn:Ht; [|done].
  pose proof (any_winner_log _ _ _ Hi Ht) as Hl. pose proof (yi_broken _ Hi) as Hb.
  destruct t; try done.
  - destruct (downCount (a_event s)) as [c e] eqn:Hd. intros [= <-]. by apply any_inv_down.
  - destruct Hl as (Hr & He & Hk). intros [= <-]. eapply (any_inv_winner s i _ AStored); [done|done|..];
      unfold log_is; simpl; rewrite ?Hb, ?Hr, ?He, ?Hk; done.
  - destruct Hl as (Hr & He & Hk). intros [= <-]. eapply (any_inv_winner s i _ AResume); [done|done|..];
      unfold log_is; simpl; rewrite ?Hb, ?Hr, ?He, ?Hk; done.
  - destruct Hl as (Hr & He & Hk). intros [= <-]. eapply (any_inv_winner s i _ ADone); [done|done|..];
      unfold log_is; simpl; rewrite ?Hb, ?Hr, ?He, ?Hk; done.
Qed.

Lemma any_inv_handler s s' : any_inv s -> any_handler_step s = Some s' -> any_inv s'.
Proof.
  intros Hi. pose proof Hi as [H1 H2 [H3 H3'] H4 H5 H6]. unfold any_handler_step.
  destruct (a_handler s) eqn:Hh; try done.
  - destruct (downCount (a_event s)) as [count e] eqn:Hd. intros [= <-].
    unfold downCount in Hd. injection Hd as <- <-.
    assert (a_susp s <> AnyNotSuspended /\ has_slot = true /\ a_susp s <> AnyEnter) as (Hs & Hsl & Hse).
    { destruct (a_susp s); try done; destruct has_slot; done. }
    destruct (phase_count _ Hi Hs) as [Hb Hfirst].
    pose proof (count_if_nonneg undowned (a_tasks s)).
    set (h := if _count (a_event s) =? Z.of_nat n + 1 then HResume else HDone).
    assert (handler_open h = 0 /\ h <> HNone) as [Ho Hno] by (unfold h; by destruct (_ =? _)).
    constructor; simpl; try done.
    + rewrite Ho. rewrite H2 in *. simpl in *. rewrite u64_small by lia. lia.
    + rewrite Hsl. destruct (a_susp s); done.
    + unfold h. destruct (Z.eqb_spec (_count (a_event s)) (Z.of_nat n + 1)) as [E|E].
      * destruct (Hfirst E) as (Hl & Hts & _). apply ph_handler; simpl; try done; [by left|].
        intros j t Hj. left. by eapply Hts.
      * destruct H5 as [? Hl Hts Hh'|? | k t ? Hk Hm Hj Hh'|? ? Hh' Hj]; try done.
        -- exfalso. apply E. rewrite H2, (count_if_all_true undowned), H1; [done|].
           intros j c Hc. by destruct (Hts _ _ Hc) as [-> | ->].
        -- apply (ph_task _ k t); simpl; done.
        -- rewrite Hh in Hh'. naive_solver.
  - intros [= <-].
    assert (a_susp s <> AnyNotSuspended /\ a_susp s <> AnyEnter) as [Hs Hse]
      by (destruct (a_susp s); done).
    destruct H5 as [? Hl Hts Hh'|? | k t ? Hk Hm Hj Hh'|? Hsl Hh' Hj]; try done.
    + rewrite Hh in Hh'. naive_solver.
    + destruct Hh' as [[_ (Hr & He & Hk)] | [? _]]; [|congruence].
      constructor; simpl; try done.
      * rewrite Hsl. by destruct (a_susp s).
      * apply ph_handler; simpl; try done. right. unfold log_is. simpl. by rewrite Hr, He, Hk.
Qed.

Lemma any_inv_reachable s : reachable any_lts s -> any_inv s.
Proof.
  apply (invariant_ind any_lts).
  - intros x ->. apply any_inv_init.
  - intros x y Hx [[b|i|] Hl];
      [by eapply any_inv_suspend | by eapply any_inv_task | by eapply any_inv_handler].
Qed.
End CollectAny.

(** [CollectAnyVariadicAwaiter]: the same steps for each element of the tuple. *)
Definition CollectAnyVariadicAwaiter_step (n : nat) (has_slot : bool) (res : nat -> Try Z)
    : any_label -> any_state -> option any_state :=
  any_step n has_slot res.

(** ** collectAllWindowed *)

(** What [collectAllWindowedImpl] awaits: the inputs [start, end) as one
    [collectAll], or a [Yield] between two batches. *)
Inductive window_op := Await (start end_ : nat) | YieldOp.

Fixpoint window_loop (fuel maxConcurrency : nat) (yield : bool) (input_size start : nat)
    : list window_op :=
  match fuel with
  | O => []
  | S fuel =>
      if (start <? input_size)%nat then
        let end_ := Nat.min input_size (start + maxConcurrency) in
        Await start end_ :: (if yield then [YieldOp] else []) ++
        window_loop fuel maxConcurrency yield input_size end_
      else []
  end.

Definition collectAllWindowedImpl (maxConcurrency : nat) (yield : bool) (input_size : nat)
    : list window_op :=
  if (maxConcurrency =? 0)%nat || (input_size <=? maxConcurrency)%nat
  then [Await 0 input_size]
  else window_loop input_size maxConcurrency yield input_size 0.

(** The output: the results of the batches, one after the other. *)
Definition window_output (res : nat -> Try Z) (ops : list window_op) : list (Try Z) :=
  ops ≫= fun op => match op with Await s e => res <$> seq s (e - s) | YieldOp => [] end.

(** The [Para] flag of the four entry points. *)
Definition collectAll_Para : bool := false.
Definition collectAllPara_Para : bool := true.
Definition collectAllWindowed_Para : bool := true.
Definition collectAllWindowedPara_Para : bool := false.

Lemma window_loop_output res fuel k y n s :
  (0 < k)%nat -> (s <= n)%nat -> (n - s <= fuel)%nat ->
  window_output res (window_loop fuel k y n s) = res <$> seq s (n - s).
Proof.
  intros Hk. revert s. induction fuel as [|fuel IH]; intros s Hs Hf; simpl.
  - replace (n - s)%nat with 0%nat by lia. done.
  - destruct (Nat.ltb_spec s n); [|by replace (n - s)%nat with 0%nat by lia].
    unfold window_output in *. simpl. rewrite bind_app.
    replace ((if y then [YieldOp] else []) ≫= _) with (@nil (Try Z)) by (by destruct y).
    simpl. rewrite IH by lia. rewrite <- fmap_app. f_equal.
    replace (n - s)%nat with ((Nat.min n (s + k) - s) + (n - Nat.min n (s + k)))%nat by lia.
    rewrite seq_app. f_equal. f_equal; lia.
Qed.

Lemma window_loop_bounded fuel k y n s a b :
  (0 < k)%nat -> Await a b ∈ window_loop fuel k y n s -> (a < b <= n)%nat /\ (b - a <= k)%nat.
Proof.
  intros Hk. revert s. induction fuel as [|fuel IH]; intros s; simpl; [by intros ?%elem_of_nil|].
  destruct (Nat.ltb_spec s n); [|by intros ?%elem_of_nil].
  rewrite elem_of_cons, elem_of_app. intros [[= -> ->]|[Hy|Hw]]; [lia| |by eapply IH].
  destruct y; [|by apply elem_of_nil in Hy]. by apply list_elem_of_singleton in Hy.
Qed.

(** ** Properties *)

Lemma sum_list_insert (l : list nat) i x y :
  l !! i = Some x -> (sum_list (<[i := y]> l) + x = sum_list l + y)%nat.
Proof.
  revert i. induction l as [|z l IH]; intros [|i] H; simplify_eq/=; [lia|].
  specialize (IH i H). lia.
Qed.

(** How many steps a task and the loop can still make. *)
Definition task_weight (t : task_pc) : nat :=
  match t with
  | TIdle => 6 | TQueued => 5 | TBody => 4 | TStored => 3 | TEmit _ => 2 | TResume => 1 | TDone => 0
  end.
Definition all_measure (n : nat) (s : all_state) : nat :=
  sum_list (task_weight <$> tasks s) +
  match susp s with SEnter => n + 2 | SLoop i => S (n - i) | SReturned => 0 end.

Lemma task_weight_insert ts i t t' :
  ts !! i = Some t ->
  (sum_list (task_weight <$> <[i := t']> ts) + task_weight t =
   sum_list (task_weight <$> ts) + task_weight t')%nat.
Proof.
  intros Ht. rewrite list_fmap_insert. apply sum_list_insert.
  by rewrite list_lookup_fmap, Ht.
Qed.

Lemma all_step_measure P n own ex res l s s' :
  all_inv n res s -> all_step P n own ex res l s = Some s' -> (all_measure n s' < all_measure n s)%nat.
Proof.
  intros Hi. unfold all_measure. destruct l as [|i]; simpl.
  - unfold suspend_step. destruct (susp s) as [|i|] eqn:Hs; [| |done].
    + intros [= <-]. simpl. lia.
    + destruct (Nat.ltb_spec i n); intros [= <-]; simpl; [|lia].
      assert (exists t, tasks s !! i = Some t) as [t Ht]
        by (apply lookup_lt_is_Some_2; rewrite (ai_tasks _ _ _ Hi); lia).
      assert (t = TIdle) as ->.
      { apply (ai_started _ _ _ Hi) in Ht. apply Ht. unfold started. by rewrite Hs. }
      pose proof (task_weight_insert _ _ _ (start_pc P n own ex i) Ht) as Hw.
      assert (task_weight (start_pc P n own ex i) <= 5)%nat
        by (unfold start_pc; destruct (P && _ && _); simpl; lia).
      simpl in Hw. lia.
  - unfold callback_step. destruct (tasks s !! i) as [t|] eqn:Ht; [|done].
    destruct t as [| | | |r| |]; try done.
    + intros [= <-]. simpl. pose proof (task_weight_insert _ _ _ TBody Ht). simpl in *. lia.
    + intros [= <-]. simpl. pose proof (task_weight_insert _ _ _ TStored Ht). simpl in *. lia.
    + destruct (down (_event s)) as [[old aw] e]. intros [= <-]. simpl.
      pose proof (task_weight_insert _ _ _ (if old =? Z.of_nat n then TEmit aw
        else if aw then TResume else TDone) Ht).
      destruct (old =? Z.of_nat n), aw; simpl in *; lia.
    + intros [= <-]. simpl.
      pose proof (task_weight_insert _ _ _ (if r then TResume else TDone) Ht).
      destruct r; simpl in *; lia.
    + intros [= <-]. simpl. pose proof (task_weight_insert _ _ _ TDone Ht). simpl in *. lia.
Qed.

Lemma all_measure_bound n s :
  length (tasks s) = n -> (all_measure n s <= 7 * n + 2)%nat.
Proof.
  intros <-. unfold all_measure.
  assert (sum_list (task_weight <$> tasks s) <= 6 * length (tasks s))%nat.
  { induction (tasks s) as [|t l IH]; csimpl; [lia|]. destruct t; csimpl; lia. }
  destruct (susp s); lia.
Qed.

(** C31.  [collectAll] and [collectAllPara]: with the tasks completing inside
    [start], later, in other threads, before or after [await_suspend] returns:
    the awaiting coroutine is resumed at most once, only when every result is
    stored, one [Try] per input in the order of the inputs; the signal is
    emitted at most once; no member of the awaiter is used after the coroutine
    has been resumed; every run is finite ([7 n + 2] steps), and when nothing
    can move the coroutine has been resumed and the signal emitted. *)
Theorem coro_collectAll_once Para n own executor res s :
  (0 < n)%nat -> Z.of_nat n < 2 ^ 64 ->
  reachable (all_lts Para n own executor res) s ->
  broken s = false /\ (resumed s <= 1)%nat /\ (emitted s <= 1)%nat /\
  (resumed s = 1%nat -> _output s = res <$> seq 0 n) /\
  (forall k s', nsteps (fstep (all_step Para n own executor res)) k s s' -> (k <= 7 * n + 2)%nat) /\
  (nf (fstep (all_step Para n own executor res)) s -> resumed s = 1%nat /\ emitted s = 1%nat).
Proof.
  intros Hn Hmax Hr. pose proof (all_inv_reachable _ _ _ _ _ Hn Hmax _ Hr) as Hi.
  pose proof (ai_count_bound _ _ _ Hi) as Hb.
  pose proof (ai_coro _ _ _ Hi) as Hc. pose proof (ai_emit _ _ _ Hi) as He.
  pose proof (count_if_nonneg has_coro (tasks s)). pose proof (count_if_nonneg emitting (tasks s)).
  split; [apply Hi|]. split; [revert Hc; destruct (_ =? _); lia|]. split; [revert He; destruct (_ <? _); lia|].
  split; [|split].
  - intros Hres. assert (_count (_event s) = 0) as Hz.
    { revert Hc. destruct (Z.eqb_spec (_count (_event s)) 0); lia. }
    apply list_eq. intros i. rewrite list_lookup_fmap.
    destruct (decide (i < n)%nat) as [Hlt|Hge].
    + rewrite lookup_seq_lt by done. simpl.
      destruct (lookup_lt_is_Some_2 (tasks s) i) as [t Ht]; [by rewrite (ai_tasks _ _ _ Hi)|].
      rewrite (ai_results _ _ _ Hi _ _ Ht).
      rewrite (ai_count _ _ _ Hi) in Hz. pose proof (count_if_zero _ _ _ _ Ht Hz). by destruct t.
    + rewrite lookup_seq_ge by lia. apply lookup_ge_None. rewrite (ai_output _ _ _ Hi). lia.
  - intros k s' Hk. transitivity (all_measure n s).
    + revert Hk. apply (nsteps_measure _ (all_inv n res)); [|done].
      intros x y Hx [l Hl]. split; [|by eapply all_step_measure].
      destruct l; [by eapply all_inv_suspend | by eapply all_inv_callback].
    + apply all_measure_bound. by eapply ai_tasks.
  - intros Hnf. destruct (all_nf Para _ own executor res Hn _ Hi Hnf) as [_ Hd].
    assert (forall f, f TDone = false -> count_if f (tasks s) = 0) as Hz.
    { intros f Hf. apply count_if_all_false. intros i t Ht. by rewrite (Hd _ _ Ht). }
    rewrite (ai_count _ _ _ Hi), !Hz in *; try done.
    destruct (Z.ltb_spec 0 (Z.of_nat n)); simpl in *; lia.
Qed.

(** Three tasks, submitted to executor 4; the second is last. *)
Definition coro_all_end : all_state :=
  run_end (all_step true 3 (fun _ => None) (Some 4%nat) (fun i => TValue (Z.of_nat i)))
    ([LSuspend; LSuspend; LTask 0; LTask 0; LTask 0] ++ replicate 3 LSuspend ++
     replicate 3 (LTask 2) ++ replicate 4 (LTask 1) ++ [LTask 0])
    (all_init 3).

Lemma coro_collectAll_once_witness :
  resumed coro_all_end = 1%nat /\ _output coro_all_end = [TValue 0; TValue 1; TValue 2].
Proof.
  assert (reachable (all_lts true 3 (fun _ => None) (Some 4%nat) (fun i => TValue (Z.of_nat i)))
    coro_all_end) as Hr by (apply run_end_reachable; [done | vm_compute; reflexivity]).
  destruct (coro_collectAll_once true 3 (fun _ => None) (Some 4%nat) (fun i => TValue (Z.of_nat i))
    coro_all_end ltac:(lia) ltac:(lia) Hr) as (_ & _ & _ & Ho & _).
  split; [vm_compute; reflexivity | apply Ho; vm_compute; reflexivity].
Defined.

Lemma any_logs n has_slot res s :
  any_inv n has_slot res s ->
  (a_resumed s <= 1)%nat /\ (a_emitted s <= 1)%nat /\
  (forall i r, a_result s = Some (i, r) -> (i < n)%nat /\ r = res i) /\
  (a_result s = None -> a_emitted s = 0%nat /\ (has_slot = false -> a_resumed s = 0%nat)).
Proof.
  intros [H1 _ _ _ H5 _].
  destruct H5 as [? Hl ? ?|? Hs Hl ? ?| k t ? Hk Hm ? ?|? Hs Hl ?].
  - destruct Hl as (-> & -> & ->). repeat split; try done; lia.
  - destruct Hl as (-> & -> & ->). rewrite Hs. repeat split; try done; lia.
  - apply lookup_lt_Some in Hk. rewrite H1 in Hk.
    destruct t; try done; destruct Hm as (-> & -> & ->); repeat split; try done; try lia; naive_solver.
  - destruct Hl as [[_ (-> & -> & ->)]|[_ (-> & -> & ->)]]; rewrite Hs; repeat split; try done; lia.
Qed.

Lemma any_settled n has_slot res s :
  any_inv n has_slot res s -> (0 < n)%nat -> a_handler s <> HResume ->
  (forall b, any_step n has_slot res (ASuspend b) s = None) ->
  (forall i, any_step n has_slot res (ATask i) s = None) -> a_resumed s = 1%nat.
Proof.
  intros [H1 _ [H3 H3'] _ H5 _] Hn Hh Hsus Hta.
  assert (a_susp s = AnyReturned \/ a_susp s = AnyNotSuspended) as Hs.
  { specialize (Hsus true). simpl in Hsus. unfold any_suspend_step in Hsus.
    destruct (a_susp s); auto; [done|]. by destruct (_ <? _)%nat. }
  assert (a_susp s <> AnyNotSuspended ->
    forall i t, a_tasks s !! i = Some t -> t = ADone) as Hdone.
  { intros Hne i t Ht. specialize (Hta i). simpl in Hta. unfold any_task_step in Hta.
    rewrite Ht in Hta. destruct t; try done.
    pose proof (proj1 (H3' _ _ Ht) eq_refl) as Hge. unfold any_started in Hge.
    apply lookup_lt_Some in Ht. destruct Hs as [E|E]; [|done]. rewrite E in Hge. lia. }
  destruct H5 as [Hne Hl Hts ?|? ? Hl ? ?| k t Hne Hk Hm ? ?|Hne ? Hl ?].
  - destruct (lookup_lt_is_Some_2 (a_tasks s) 0) as [t Ht]; [lia|].
    pose proof (Hdone Hne _ _ Ht) as ->. by destruct (Hts _ _ Ht).
  - by destruct Hl as (_ & _ & ->).
  - pose proof (Hdone Hne _ _ Hk) as ->. by destruct Hm as (_ & _ & ->).
  - destruct Hl as [[? _]|[_ (_ & _ & ->)]]; done.
Qed.

(** C32.  [collectAny]: of the tasks and the handler of the slot, only the one
    that decrements the counter first resumes the coroutine, so it is resumed at
    most once; the result is the index and the value of that task; the signal is
    emitted at most once, and only with a result; the awaiter is not used once
    the coroutine has been resumed, whatever still runs.  When the tasks have
    finished, and there was at least one, the coroutine has been resumed. *)
Theorem coro_collectAny_first n has_slot res s :
  Z.of_nat n + 1 < 2 ^ 64 -> reachable (any_lts n has_slot res) s ->
  a_broken s = false /\ (a_resumed s <= 1)%nat /\ (a_emitted s <= 1)%nat /\
  (forall i r, a_result s = Some (i, r) -> (i < n)%nat /\ r = res i) /\
  (a_result s = None -> a_emitted s = 0%nat /\ (has_slot = false -> a_resumed s = 0%nat)) /\
  ((0 < n)%nat -> a_handler s <> HResume ->
   (forall b, any_step n has_slot res (ASuspend b) s = None) ->
   (forall i, any_step n has_slot res (ATask i) s = None) -> a_resumed s = 1%nat).
Proof.
  intros Hmax Hr. pose proof (any_inv_reachable _ _ _ Hmax _ Hr) as Hi.
  pose proof (any_logs _ _ _ _ Hi) as (Hk & He & Hres & Hnone).
  split; [apply Hi|]. split; [done|]. split; [done|]. split; [done|]. split; [done|].
  intros Hn Hh Hsus Hta. by eapply any_settled.
Qed.

(** Two tasks under a slot; the second one is first, then the handler runs. *)
Definition coro_any_end : any_state :=
  run_end (any_step 2 true (fun i => TValue (Z.of_nat i)))
    (replicate 4 (ASuspend true) ++ [ATask 1; ATask 1; AHandler; ATask 1; ATask 1; ATask 0])
    (any_init 2).

Lemma coro_collectAny_first_witness :
  a_resumed coro_any_end = 1%nat /\ a_result coro_any_end = Some (1%nat, TValue 1).
Proof.
  assert (reachable (any_lts 2 true (fun i => TValue (Z.of_nat i))) coro_any_end) as Hr
    by (apply run_end_reachable; [done | vm_compute; reflexivity]).
  split; [|vm_compute; reflexivity].
  apply (coro_collectAny_first 2 true (fun i => TValue (Z.of_nat i)) coro_any_end ltac:(lia) Hr).
  - lia.
  - vm_compute. discriminate.
  - intros b. vm_compute. reflexivity.
  - intros [|[|i]]; vm_compute; reflexivity.
Defined.

(** When the slot's filter hides a [Terminate] that has been emitted,
    [await_ready] and [await_resume] do not see it but [tryEmplace] does: the
    coroutine goes on although no task has been started.  [collectAny] of a
    vector then yields the index -1 with an empty [Try]; the variadic form
    dereferences a null pointer. *)
Theorem collectAny_filtered_cancel n res :
  exists s, reachable (any_lts n true res) s /\ a_resumed s = 1%nat /\
    (forall i t, a_tasks s !! i = Some t -> t = AIdle) /\
    await_resume true false s = Ret (None, TNothing) /\
    await_resume_variadic true false s = Undef "*_result of a null unique_ptr".
Proof.
  exists (run_end (any_step n true res) [ASuspend false] (any_init n)).
  split; [apply run_end_reachable; done|]. split; [done|]. split; [|done].
  intros i t [-> _]%lookup_replicate. done.
Qed.


