(* ===== verification/Generator.v ===== *)
(** * Generator: recursive synchronous generators

    Models coro/Generator.h on a heap of coroutine frames: the promise with its
    [top_] and [info_] pointers, the awaiter of a nested generator, the final
    awaiter and the iterator.  The body of a generator is given state by state,
    so that it may be infinite.  A reference to a yielded element is its value;
    [yield_value] of an lvalue, which copies, is the same. *)

From S2P Require Import Prelude.

Abbreviation handle := nat.

Section generator.
(** A state of a generator's body, and what the body does next in it:
    [co_yield] of an element, of the elements of another generator (null when
    it has been moved from), whose exception is rethrown in the body, the end,
    or an exception that leaves the body. *)
Variable St : Type.
Inductive op :=
  | Yield (val : Z) (next_state : St)
  | YieldAll (g : option St) (k : option exn -> St)
  | Return
  | Raise (e : exn).
Variable body : St -> op.

Record NestInfo := Nest { except_ : option exn; parent_ : handle; root_ : handle }.

(** Where a frame is suspended. *)
Inductive point :=
  | Initial (s : St)
  | AtYield (s : St)
  | InNested (nested_ : NestInfo) (gen_ : handle) (k : option exn -> St)
  | Active
  | Final.

(** [info_] points to the [nested_] of an awaiter, in the frame given here. *)
Record frame := Frame {
  pt : point;
  value_ : option Z;
  top_ : handle;
  info_ : option handle;
}.

Definition with_point p f := Frame p (value_ f) (top_ f) (info_ f).
Definition with_value v f := Frame (pt f) (Some v) (top_ f) (info_ f).
Definition with_top t f := Frame (pt f) (value_ f) t (info_ f).
Definition with_info i f := Frame (pt f) (value_ f) (top_ f) i.

(** Control is in a coroutine, or back at the caller of [resume]. *)
Inductive token :=
  | Running (h : handle) (s : St)
  | Caller (r : outcome unit).

Record gstate := GState { heap : gmap handle frame; next : handle; tok : token }.

Definition set_tok t s := GState (heap s) (next s) t.
Definition upd (h : handle) (g : frame -> frame) (s : gstate) : gstate :=
  GState (alter g h (heap s)) (next s) (tok s).
Definition crash (s : gstate) : gstate := set_tok (Caller (Undef "destroyed coroutine")) s.

(** The call of a generator function: a frame at its initial suspend point. *)
Definition new_frame (st : St) (s : gstate) : gstate :=
  GState (<[next s := Frame (Initial st) None (next s) None]> (heap s)) (S (next s)) (tok s).

(** [resume()] of a coroutine. *)
Definition resume (h : handle) (s : gstate) : gstate :=
  match heap s !! h with
  | None => crash s
  | Some f =>
      match pt f with
      | Initial st | AtYield st => set_tok (Running h st) (upd h (with_point Active) s)
      | InNested n c k =>
          (* await_resume; the awaiter is destroyed, and its generator with it *)
          set_tok (Running h (k (except_ n)))
            (upd h (with_point Active) (GState (delete c (heap s)) (next s) (tok s)))
      | Active | Final => set_tok (Caller (Undef "resume of a coroutine that is not suspended")) s
      end
  end.

(** [NestedAwaiter::await_suspend], [c] the nested coroutine. *)
Definition nested_await_suspend (h c : handle) (k : option exn -> St) (s : gstate) : gstate :=
  match heap s !! h with
  | None => crash s
  | Some current =>
      let root :=
        match info_ current with
        | Some p =>
            match heap s !! p with
            | Some (Frame (InNested n _ _) _ _ _) => Some (root_ n)
            | _ => None
            end
        | None => Some h
        end in
      match root with
      | None => crash s
      | Some root =>
          resume c
            (upd c (with_info (Some h))
              (upd root (with_top c)
                (upd h (with_point (InNested (Nest None h root) c k)) s)))
      end
  end.

(** [info_->except_ = e]. *)
Definition set_except (e : exn) (f : frame) : frame :=
  match pt f with
  | InNested n c k => with_point (InNested (Nest (Some e) (parent_ n) (root_ n)) c k) f
  | _ => f
  end.

(** [FinalAwaiter::await_suspend], [r] what [resume] gives when there is no
    coroutine to go on with. *)
Definition final_await_suspend (h : handle) (r : outcome unit) (s : gstate) : gstate :=
  match heap s !! h with
  | None => crash s
  | Some current =>
      match info_ current with
      | None => set_tok (Caller r) s
      | Some p =>
          match heap s !! p with
          | Some (Frame (InNested n _ _) _ _ _) =>
              resume (parent_ n)
                (upd h (with_info None) (upd (root_ n) (with_top (parent_ n)) s))
          | _ => crash s
          end
      end
  end.

(** [unhandled_exception] stores the exception for the parent, or lets it
    leave [resume]; either way the coroutine is at its final suspend point. *)
Definition unhandled_exception (h : handle) (e : exn) (s : gstate) : gstate :=
  match info_ <$> heap s !! h with
  | Some (Some p) => final_await_suspend h (Ret tt) (upd p (set_except e) s)
  | Some None => set_tok (Caller (Throw e)) s
  | None => crash s
  end.

(** What the coroutine that runs does next. *)
Definition gen_step (h : handle) (st : St) (s : gstate) : gstate :=
  match body st with
  | Yield v st' => set_tok (Caller (Ret tt)) (upd h (with_point (AtYield st')) (upd h (with_value v) s))
  | YieldAll (Some st') k => nested_await_suspend h (next s) k (new_frame st' s)
  | YieldAll None k => set_tok (Running h (k None)) s
  | Return => final_await_suspend h (Ret tt) (upd h (with_point Final) s)
  | Raise e => unhandled_exception h e (upd h (with_point Final) s)
  end.

(** ** Generator and iterator *)

(** [_coro.done()]. *)
Definition done (h : handle) (s : gstate) : bool :=
  match pt <$> heap s !! h with Some Final => true | _ => false end.

(** [Generator::begin]: the iterator takes the coroutine. *)
Definition begin (_coro : option handle) (s : gstate) : gstate :=
  match _coro with
  | None => set_tok (Caller (Throw (LogicError "Can't call begin on moved-from generator"))) s
  | Some h => resume h s
  end.

(** [iterator::operator bool]. *)
Definition operator_bool (_coro : option handle) (s : gstate) : bool :=
  match _coro with Some h => negb (done h s) | None => false end.

(** [iterator::operator*]. *)
Definition deref (_coro : option handle) (s : gstate) : outcome Z :=
  match _coro with
  | Some h =>
      if done h s then
        Throw (LogicError "Should have a coroutine handle or the coroutine has not ended")
      else match heap s !! h with
      | None => Undef "destroyed coroutine"
      | Some f =>
          match value_ <$> heap s !! top_ f with
          | Some (Some v) => Ret v
          | Some None => Undef "value pointer is nullptr"
          | None => Undef "destroyed coroutine"
          end
      end
  | None => Throw (LogicError "Should have a coroutine handle or the coroutine has not ended")
  end.

(** [iterator::operator++]. *)
Definition increment (_coro : option handle) (s : gstate) : gstate :=
  match _coro with
  | Some h =>
      if done h s then set_tok (Caller (Throw (LogicError "Can't increment generator end iterator"))) s
      else match heap s !! h with
      | None => crash s
      | Some f => resume (top_ f) s
      end
  | None => set_tok (Caller (Throw (LogicError "Can't increment generator end iterator"))) s
  end.

(** [_coro.destroy()]: the awaiter of a frame owns the generator it waits for.
    [fuel] bounds the depth. *)
Fixpoint destroy (fuel : nat) (h : handle) (m : gmap handle frame) : gmap handle frame :=
  match fuel with
  | O => m
  | S fuel =>
      match pt <$> m !! h with
      | Some (InNested _ c _) => destroy fuel c (delete h m)
      | _ => delete h m
      end
  end.

(** A step of [for (v : gen) log.push_back(v);], where the iterator holds [h]:
    a step of the coroutines, or the test, [*it] and [++it].  [None] when the
    loop has been left, with the outcome in the token. *)
Definition for_step (h : handle) (s : gstate) (log : list Z) : option (gstate * list Z) :=
  match tok s with
  | Running g st => Some (gen_step g st s, log)
  | Caller (Ret _) =>
      if operator_bool (Some h) s then
        match deref (Some h) s with
        | Ret v => Some (increment (Some h) s, log ++ [v])
        | Throw e => Some (set_tok (Caller (Throw e)) s, log)
        | Undef w => Some (set_tok (Caller (Undef w)) s, log)
        end
      else None
  | Caller _ => None
  end.

(** The loop: [None] when it takes more than [fuel] steps. *)
Fixpoint for_each (fuel : nat) (h : handle) (s : gstate) (log : list Z)
    : option (gstate * list Z) :=
  match fuel with
  | O => None
  | S fuel =>
      match for_step h s log with
      | None => Some (s, log)
      | Some (s, log) => for_each fuel h s log
      end
  end.

(** ** What a generator means: the sequence of its elements *)

(** From [st] the body gives the elements [l] and ends, with an exception or
    without: a nested generator contributes its elements in place. *)
Inductive runs : St -> list Z -> option exn -> Prop :=
  | runs_yield st v st' l o :
      body st = Yield v st' -> runs st' l o -> runs st (v :: l) o
  | runs_nested st g k l1 o1 l2 o2 :
      body st = YieldAll (Some g) k -> runs g l1 o1 -> runs (k o1) l2 o2 -> runs st (l1 ++ l2) o2
  | runs_null st k l o :
      body st = YieldAll None k -> runs (k None) l o -> runs st l o
  | runs_return st : body st = Return -> runs st [] None
  | runs_raise st e : body st = Raise e -> runs st [] (Some e).

Definition ends (st : St) (o : option exn) : Prop :=
  body st = match o with None => Return | Some e => Raise e end.

(** ** The frames of a generator that is being iterated *)

(** From the coroutine [h] that is on top, the frames that wait: each is at the
    [co_yield] of the one before. *)
Fixpoint chain (m : gmap handle frame) (root h : handle) (ctx : list (handle * (option exn -> St)))
    : Prop :=
  match ctx with
  | [] => h = root /\ info_ <$> m !! h = Some None
  | (p, k) :: ctx =>
      info_ <$> m !! h = Some (Some p) /\
      pt <$> m !! p = Some (InNested (Nest None p root) h k) /\ chain m root p ctx
  end.

Record live (m0 : gmap handle frame) (root h : handle) (ctx : list (handle * (option exn -> St)))
    (p : point) (s : gstate) : Prop := {
  lv_chain : chain (heap s) root h ctx;
  lv_pt : pt <$> heap s !! h = Some p;
  lv_top : top_ <$> heap s !! root = Some h;
  lv_nodup : NoDup (h :: ctx.*1);
  lv_fresh : forall x, x ∈ h :: ctx.*1 -> m0 !! x = None /\ (x < next s)%nat;
  lv_rest : forall x, x ∉ h :: ctx.*1 -> heap s !! x = m0 !! x;
  lv_next : forall x, (next s <= x)%nat -> m0 !! x = None;
}.

Lemma fmap_alter_same {A} (g : frame -> A) u x y (m : gmap handle frame) :
  (forall f, g (u f) = g f) -> g <$> alter u x m !! y = g <$> m !! y.
Proof.
  intros H. destruct (decide (x = y)) as [->|]; [|by rewrite lookup_alter_ne].
  rewrite lookup_alter_eq. destruct (m !! y); simpl; [by rewrite H|done].
Qed.

Lemma fmap_alter_eq {A} (g : frame -> A) u x (m : gmap handle frame) a :
  (forall f, g (u f) = a) -> is_Some (m !! x) -> g <$> alter u x m !! x = Some a.
Proof. intros H [f Hf]. by rewrite lookup_alter_eq, Hf; simpl; rewrite H. Qed.

Lemma chain_ext m m' root h ctx :
  (forall x, x ∈ h :: ctx.*1 -> info_ <$> m' !! x = info_ <$> m !! x) ->
  (forall x, x ∈ ctx.*1 -> pt <$> m' !! x = pt <$> m !! x) ->
  chain m root h ctx -> chain m' root h ctx.
Proof.
  revert h. induction ctx as [|[p k] ctx IH]; intros h Hi Hp; cbn.
  - intros [-> H]. split; [done|]. rewrite Hi; [done|left].
  - intros (H1 & H2 & H3). rewrite Hi by left. rewrite Hp by left.
    split; [done|]. split; [done|]. apply IH; [|by intros; apply Hp; right|done].
    intros x Hx. apply Hi. by right.
Qed.

Lemma chain_root m root h ctx : chain m root h ctx -> root ∈ h :: ctx.*1.
Proof.
  revert h. induction ctx as [|[p k] ctx IH]; intros h; cbn.
  - intros [-> _]. left.
  - intros (_ & _ & H). right. by apply IH.
Qed.

Lemma lv_lookup m0 root h ctx p s :
  live m0 root h ctx p s -> exists f, heap s !! h = Some f /\ pt f = p.
Proof. intros H. pose proof (lv_pt _ _ _ _ _ _ H) as E. by apply fmap_Some in E as (f & ? & ?); eauto. Qed.

Lemma lv_info m0 root h ctx p s f :
  live m0 root h ctx p s -> heap s !! h = Some f -> info_ f = fst <$> head ctx.
Proof.
  intros H Hf. pose proof (lv_chain _ _ _ _ _ _ H) as Hc.
  destruct ctx as [|[q k] ctx]; cbn in Hc; rewrite Hf in Hc; [destruct Hc as [_ [= ->]]|destruct Hc as [[= ->] _]]; done.
Qed.

(** The frame on top moves to another point, or gets a value. *)
Lemma live_top_upd m0 root h ctx p q u s :
  (forall f, info_ (u f) = info_ f) -> (forall f, top_ (u f) = top_ f) ->
  (forall f, pt f = p -> pt (u f) = q) ->
  live m0 root h ctx p s -> live m0 root h ctx q (upd h u s).
Proof.
  intros Hi Ht Hp H. pose proof (lv_lookup _ _ _ _ _ _ H) as (f & Hf & Hpt).
  destruct H as [Hc _ Htop Hnd Hfr Hrest Hn]. constructor; cbn; try done.
  - revert Hc. apply chain_ext; intros x Hx; [by apply fmap_alter_same|].
    rewrite lookup_alter_ne; [done|]. intros <-. by apply NoDup_cons in Hnd as [? _].
  - rewrite lookup_alter_eq, Hf. cbn. by rewrite Hp.
  - by rewrite fmap_alter_same.
  - intros x Hx. rewrite lookup_alter_ne; [by apply Hrest|]. intros <-. apply Hx. left.
Qed.

Lemma live_set_tok m0 root h ctx p t s : live m0 root h ctx p s -> live m0 root h ctx p (set_tok t s).
Proof. intros []. by constructor. Qed.

(** A coroutine that is suspended in its body, or has not started, goes on. *)
Lemma live_resume m0 root h ctx p st s :
  live m0 root h ctx p s -> p = Initial st \/ p = AtYield st ->
  tok (resume h s) = Running h st /\ live m0 root h ctx Active (resume h s).
Proof.
  intros H Hp. pose proof (lv_lookup _ _ _ _ _ _ H) as (f & Hf & Hpt).
  assert (E : resume h s = set_tok (Running h st) (upd h (with_point Active) s)).
  { unfold resume. rewrite Hf, Hpt. by destruct Hp as [-> | ->]. }
  rewrite E. split; [done|]. apply live_set_tok. by eapply live_top_upd.
Qed.

(** [co_yield] of an element. *)
Lemma live_yield m0 root h ctx st v st' s :
  body st = Yield v st' -> live m0 root h ctx Active s ->
  tok (gen_step h st s) = Caller (Ret tt) /\
  live m0 root h ctx (AtYield st') (gen_step h st s) /\
  value_ <$> heap (gen_step h st s) !! h = Some (Some v).
Proof.
  intros Hb H. unfold gen_step. rewrite Hb. split; [done|]. split.
  - apply live_set_tok. eapply (live_top_upd _ _ _ _ Active); [done..|].
    by eapply (live_top_upd _ _ _ _ Active).
  - pose proof (lv_lookup _ _ _ _ _ _ H) as (f & Hf & _). cbn.
    rewrite !lookup_alter_eq, Hf. done.
Qed.

(** [co_yield] of a nested generator: it is put on top and started. *)
Lemma live_nested m0 root h ctx st g k s :
  body st = YieldAll (Some g) k -> live m0 root h ctx Active s ->
  tok (gen_step h st s) = Running (next s) g /\
  live m0 root (next s) ((h, k) :: ctx) Active (gen_step h st s).
Proof.
  intros Hb H. pose proof (lv_lookup _ _ _ _ _ _ H) as (f & Hf & Hpt).
  pose proof (lv_info _ _ _ _ _ _ _ H Hf) as Hinfo.
  set (c := next s).
  assert (Hlt : forall x, x ∈ h :: ctx.*1 -> (x < c)%nat) by (intros x Hx; by apply (lv_fresh _ _ _ _ _ _ H)).
  assert (Hc : c ∉ h :: ctx.*1) by (intros ?%Hlt; lia).
  set (s1 := upd c (with_info (Some h)) (upd root (with_top c)
              (upd h (with_point (InNested (Nest None h root) c k)) (new_frame g s)))).
  assert (E : gen_step h st s = resume c s1).
  { unfold gen_step, nested_await_suspend. rewrite Hb. fold c. cbn [heap new_frame].
    rewrite lookup_insert_ne by (intros <-; apply Hc; left). rewrite Hf, Hinfo.
    pose proof (lv_chain _ _ _ _ _ _ H) as Hch.
    destruct ctx as [|[q k'] ctx]; cbn in Hch |- *.
    - destruct Hch as [-> _]. done.
    - destruct Hch as (_ & Hq & _). apply fmap_Some in Hq as (fq & Hq & Hpq).
      rewrite lookup_insert_ne by (intros <-; apply Hc; cbn; set_solver).
      rewrite Hq. destruct fq as [pq ? ? ?]. cbn in Hpq. subst pq. done. }
  rewrite E. apply (live_resume _ _ _ _ (Initial g)); [|by left].
  destruct H as [Hch _ Htop Hnd Hfr Hrest Hn].
  pose proof (chain_root _ _ _ _ Hch) as Hroot.
  assert (Hrc : root <> c) by (by intros <-). assert (Hhc : h <> c) by (intros <-; apply Hc; left).
  constructor; cbn.
  - split; [|split].
    + rewrite lookup_alter_eq, lookup_alter_ne, lookup_alter_ne, lookup_insert_eq by done. done.
    + rewrite lookup_alter_ne, fmap_alter_same, lookup_alter_eq, lookup_insert_ne, Hf by done. done.
    + revert Hch. apply chain_ext; intros x Hx.
      * assert (x <> c) by (by intros ->). rewrite lookup_alter_ne by done.
        rewrite !fmap_alter_same by done. by rewrite lookup_insert_ne.
      * assert (x <> c) by (intros ->; apply Hc; by right).
        assert (x <> h) by (intros ->; by apply NoDup_cons in Hnd as [? _]).
        rewrite lookup_alter_ne, fmap_alter_same, lookup_alter_ne, lookup_insert_ne by done. done.
  - rewrite fmap_alter_same, fmap_alter_same, lookup_alter_ne, lookup_insert_eq by done. done.
  - rewrite lookup_alter_ne by done. apply fmap_alter_eq; [done|].
    apply (fmap_is_Some top_). by rewrite fmap_alter_same, lookup_insert_ne, Htop.
  - by apply NoDup_cons.
  - intros x [-> |Hx]%elem_of_cons; [split; [by apply Hn|lia]|].
    destruct (Hfr x Hx). split; [done|lia].
  - intros x Hx. assert (x <> c /\ x <> h /\ x <> root) as (? & ? & ?).
    { repeat split; intros ->; apply Hx; [left|right; left|by right]. }
    rewrite !lookup_alter_ne, lookup_insert_ne by done. apply Hrest. intros ?. apply Hx. by right.
  - intros x Hx. apply Hn. lia.
Qed.

(** What a nested coroutine leaves when its body ends: [s] differs from it at
    [h] and in the awaiter of the parent [p] only. *)
Record ended (h p : handle) (m : gmap handle frame) (s : gstate) : Prop := {
  en_info : forall x, info_ <$> heap s !! x = info_ <$> m !! x;
  en_top : forall x, top_ <$> heap s !! x = top_ <$> m !! x;
  en_same : forall x, x <> h -> x <> p -> heap s !! x = m !! x;
}.

Lemma live_final m0 root h p k ctx o r s s2 :
  live m0 root h ((p, k) :: ctx) Active s ->
  ended h p (heap s) s2 -> next s2 = next s ->
  pt <$> heap s2 !! p = Some (InNested (Nest o p root) h k) ->
  tok (final_await_suspend h r s2) = Running p (k o) /\
  live m0 root p ctx Active (final_await_suspend h r s2).
Proof.
  intros [Hch _ Htop Hnd Hfr Hrest Hn] [Hi Ht Hs] Hnext Hp. cbn in Hch, Hnd.
  destruct Hch as (Hinfo & Hpp & Hch).
  apply NoDup_cons in Hnd as [Hh Hnd]. assert (Hhp : h <> p) by (intros ->; apply Hh; left).
  set (m := delete h (alter (with_info None) h (alter (with_top p) root (heap s2)))).
  assert (E : final_await_suspend h r s2 =
              GState (alter (with_point Active) p m) (next s) (Running p (k o))).
  { unfold final_await_suspend. pose proof (Hi h) as Hih. rewrite Hinfo in Hih.
    apply fmap_Some in Hih as (fh & -> & <-).
    apply fmap_Some in Hp as (fp & Hfp & Hptp). rewrite Hfp. destruct fp as [pp vp tp ip].
    cbn in Hptp. subst pp. cbn [root_ parent_]. unfold resume. cbn [heap upd].
    rewrite lookup_alter_ne by done.
    destruct (decide (root = p)) as [<-|].
    - rewrite lookup_alter_eq, Hfp. cbn. by rewrite Hnext.
    - rewrite lookup_alter_ne, Hfp by done. cbn. by rewrite Hnext. }
  pose proof (chain_root _ _ _ _ Hch) as Hroot.
  assert (Hrh : root <> h) by (by intros ->).
  assert (Hm : forall {A} (g : frame -> A) x, x <> h -> (forall f, g (with_top p f) = g f) ->
                g <$> m !! x = g <$> heap s2 !! x).
  { intros A g x Hx Hg. unfold m. rewrite lookup_delete_ne, lookup_alter_ne by done.
    by apply fmap_alter_same. }
  rewrite E. split; [done|]. constructor; cbn.
  - revert Hch. apply chain_ext; intros x Hx.
    + assert (x <> h) by (by intros ->). rewrite fmap_alter_same, Hm by done. apply Hi.
    + assert (x <> h) by (intros ->; apply Hh; by right).
      assert (x <> p) by (intros ->; by apply NoDup_cons in Hnd as [? _]).
      rewrite lookup_alter_ne, Hm by done. by rewrite Hs.
  - apply fmap_alter_eq; [done|]. apply (fmap_is_Some pt). rewrite Hm by done. by rewrite Hp.
  - rewrite fmap_alter_same by done. unfold m. rewrite lookup_delete_ne, lookup_alter_ne by done.
    apply fmap_alter_eq; [done|]. apply (fmap_is_Some top_). by rewrite Ht, Htop.
  - done.
  - intros x Hx. apply Hfr. by right.
  - intros x Hx. destruct (decide (x = h)) as [->|Hxh].
    + rewrite lookup_alter_ne by (intros ->; apply Hh; left). unfold m.
      rewrite lookup_delete_eq. symmetry. apply Hfr. left.
    + assert (x <> p /\ x <> root) as [? ?] by (split; intros ->; apply Hx; [left|done]).
      rewrite lookup_alter_ne by done. unfold m.
      rewrite lookup_delete_ne, !lookup_alter_ne, Hs by done.
      apply Hrest. cbn. set_solver.
  - done.
Qed.

Lemma set_except_info e f : info_ (set_except e f) = info_ f.
Proof. unfold set_except. by destruct (pt f). Qed.
Lemma set_except_top e f : top_ (set_except e f) = top_ f.
Proof. unfold set_except. by destruct (pt f). Qed.

(** The end of a nested generator: its parent goes on, with its exception. *)
Lemma live_end_nested m0 root h p k ctx st o s :
  ends st o -> live m0 root h ((p, k) :: ctx) Active s ->
  tok (gen_step h st s) = Running p (k o) /\ live m0 root p ctx Active (gen_step h st s).
Proof.
  intros He H. unfold gen_step. rewrite He.
  pose proof (lv_chain _ _ _ _ _ _ H) as (Hinfo & Hp & _).
  assert (Hhp : h <> p).
  { intros ->. pose proof (lv_nodup _ _ _ _ _ _ H) as Hnd. apply NoDup_cons in Hnd as [Hnd _]. apply Hnd. left. }
  destruct o as [e|].
  - unfold unhandled_exception. cbn [heap upd]. rewrite fmap_alter_same, Hinfo by done.
    apply (live_final m0 root h p k ctx (Some e) _ s); [done| |done|].
    + constructor; cbn; intros x.
      * rewrite fmap_alter_same by apply set_except_info. by apply fmap_alter_same.
      * rewrite fmap_alter_same by apply set_except_top. by apply fmap_alter_same.
      * intros ? ?. by rewrite !lookup_alter_ne.
    + cbn. apply fmap_Some in Hp as (f & Hf & Hpt).
      rewrite lookup_alter_eq, lookup_alter_ne, Hf by done. cbn. unfold set_except. by rewrite <- Hpt.
  - apply (live_final m0 root h p k ctx None _ s); [done| |done|].
    + constructor; cbn; intros x; [by apply fmap_alter_same..|]. intros ? ?. by rewrite lookup_alter_ne.
    + cbn. by rewrite lookup_alter_ne.
Qed.

(** The end of the generator itself. *)
Definition result (o : option exn) : outcome unit :=
  match o with None => Ret tt | Some e => Throw e end.

Lemma live_end m0 root h st o s :
  ends st o -> live m0 root h [] Active s ->
  tok (gen_step h st s) = Caller (result o) /\ live m0 root h [] Final (gen_step h st s).
Proof.
  intros He H. pose proof (lv_chain _ _ _ _ _ _ H) as [_ Hinfo].
  pose proof (lv_lookup _ _ _ _ _ _ H) as (f & Hf & _).
  assert (E : gen_step h st s = set_tok (Caller (result o)) (upd h (with_point Final) s)).
  { unfold gen_step. rewrite He. rewrite Hf in Hinfo. injection Hinfo as Hi.
    destruct o as [e|]; unfold unhandled_exception, final_await_suspend; cbn;
      rewrite lookup_alter_eq, Hf; cbn; by rewrite Hi. }
  rewrite E. split; [done|]. apply live_set_tok. by eapply live_top_upd.
Qed.

(** [*it] and [++it] act on the coroutine on top. *)
Lemma live_not_done m0 root h ctx st' s :
  live m0 root h ctx (AtYield st') s -> done root s = false.
Proof.
  intros [Hch Hpt _ _ _ _ _]. unfold done. destruct (decide (root = h)) as [->|Hne].
  - by rewrite Hpt.
  - assert (H : exists n c k, pt <$> heap s !! root = Some (InNested n c k)).
    { clear -Hch Hne. revert h Hch Hne. induction ctx as [|[p k] ctx IH]; intros h; cbn.
      - by intros [-> _].
      - intros (_ & Hp & Hch) _. destruct (decide (root = p)) as [->|]; eauto. }
    destruct H as (n & c & k & ->). done.
Qed.

Lemma live_next m0 root h ctx st' v s log :
  live m0 root h ctx (AtYield st') s -> value_ <$> heap s !! h = Some (Some v) ->
  tok s = Caller (Ret tt) ->
  exists s', for_step root s log = Some (s', log ++ [v]) /\
    tok s' = Running h st' /\ live m0 root h ctx Active s'.
Proof.
  intros H Hv Htok. pose proof (live_not_done _ _ _ _ _ _ H) as Hd.
  pose proof (lv_top _ _ _ _ _ _ H) as Htop. apply fmap_Some in Htop as (f & Hf & ->).
  exists (resume (top_ f) s). split.
  - unfold for_step, operator_bool, deref, increment. rewrite Htok, Hd. cbn. by rewrite Hf, Hv.
  - by apply (live_resume _ _ _ _ (AtYield st')); [|right].
Qed.

(** The loop goes from one state to another. *)
Definition goes (root : handle) (s : gstate) (log : list Z) (s' : gstate) (log' : list Z) : Prop :=
  exists n, forall m, for_each (n + m) root s log = for_each m root s' log'.

Lemma goes_refl root s log : goes root s log s log.
Proof. by exists 0%nat. Qed.

Lemma goes_trans root s1 l1 s2 l2 s3 l3 :
  goes root s1 l1 s2 l2 -> goes root s2 l2 s3 l3 -> goes root s1 l1 s3 l3.
Proof.
  intros [n Hn] [k Hk]. exists (n + k)%nat. intros m. by rewrite <- Nat.add_assoc, Hn, Hk.
Qed.

Lemma goes_step root s log s' log' :
  for_step root s log = Some (s', log') -> goes root s log s' log'.
Proof. intros H. exists 1%nat. intros m. cbn. by rewrite H. Qed.

Lemma goes_run root s log h st : tok s = Running h st -> goes root s log (gen_step h st s) log.
Proof. intros H. apply goes_step. unfold for_step. by rewrite H. Qed.

(** A body that means [l] and [o], running on top of any stack of waiting
    frames, brings the loop to its end with [l] in the log. *)
Lemma runs_goes st l o : runs st l o ->
  forall m0 root h ctx s log, tok s = Running h st -> live m0 root h ctx Active s ->
  exists s' st', goes root s log s' (log ++ l) /\ tok s' = Running h st' /\ ends st' o /\
    live m0 root h ctx Active s'.
Proof.
  induction 1 as [st v st' l o Hb _ IH|st g k l1 o1 l2 o2 Hb _ IH1 _ IH2|st k l o Hb _ IH|st Hb|st e Hb];
    intros m0 root h ctx s log Htok H.
  - destruct (live_yield _ _ _ _ _ _ _ _ Hb H) as (Ht1 & H1 & Hv).
    destruct (live_next _ _ _ _ _ _ _ log H1 Hv Ht1) as (s2 & E2 & Ht2 & H2).
    destruct (IH _ _ _ _ _ (log ++ [v]) Ht2 H2) as (s3 & st3 & G & ? & ? & ?).
    exists s3, st3. split; [|done]. eapply goes_trans; [by apply goes_run|].
    eapply goes_trans; [by apply goes_step|]. by rewrite <- app_assoc in G.
  - destruct (live_nested _ _ _ _ _ _ _ _ Hb H) as (Ht1 & H1).
    destruct (IH1 _ _ _ _ _ log Ht1 H1) as (s2 & st2 & G1 & Ht2 & He2 & H2).
    destruct (live_end_nested _ _ _ _ _ _ _ _ _ He2 H2) as (Ht3 & H3).
    destruct (IH2 _ _ _ _ _ (log ++ l1) Ht3 H3) as (s4 & st4 & G2 & ? & ? & ?).
    exists s4, st4. split; [|done]. eapply goes_trans; [by apply goes_run|].
    eapply goes_trans; [exact G1|]. eapply goes_trans; [by apply goes_run|].
    by rewrite <- app_assoc in G2.
  - assert (E : gen_step h st s = set_tok (Running h (k None)) s) by (unfold gen_step; by rewrite Hb).
    destruct (IH m0 root h ctx (set_tok (Running h (k None)) s) log) as (s2 & st2 & G & ? & ? & ?);
      [done|by apply live_set_tok|].
    exists s2, st2. split; [|done]. eapply goes_trans; [by apply goes_run|]. by rewrite E.
  - exists s, st. rewrite app_nil_r. split; [apply goes_refl|done].
  - exists s, st. rewrite app_nil_r. split; [apply goes_refl|done].
Qed.

(** The frame a generator function makes. *)
Lemma live_new st s :
  (forall x, (next s <= x)%nat -> heap s !! x = None) ->
  live (heap s) (next s) (next s) [] (Initial st) (new_frame st s).
Proof.
  intros H. constructor; cbn; rewrite ?lookup_insert_eq; try done.
  - apply NoDup_singleton.
  - intros x ->%list_elem_of_singleton. split; [by apply H|lia].
  - intros x Hx. rewrite lookup_insert_ne; [done|]. intros <-. apply Hx. left.
  - intros x Hx. apply H. lia.
Qed.

(** *** Destruction *)

(** From [h] up to [b], by the generators that the awaiters own. *)
Fixpoint owned (m : gmap handle frame) (h : handle) (ctx : list (handle * (option exn -> St)))
    (b : handle) : Prop :=
  match ctx with
  | [] => h = b
  | (p, k) :: ctx => (exists n, pt <$> m !! p = Some (InNested n h k)) /\ owned m p ctx b
  end.

Lemma chain_owned m root h ctx : chain m root h ctx -> owned m h ctx root.
Proof.
  revert h. induction ctx as [|[p k] ctx IH]; intros h; cbn; [by intros [-> _]|].
  intros (_ & Hp & H). eauto.
Qed.

Lemma owned_snoc m h ctx p k b :
  owned m h (ctx ++ [(p, k)]) b <->
  b = p /\ exists c n, owned m h ctx c /\ pt <$> m !! p = Some (InNested n c k).
Proof.
  revert h. induction ctx as [|[q k'] ctx IH]; intros h; cbn; [naive_solver|].
  rewrite IH. naive_solver.
Qed.

Lemma owned_ext m m' h ctx b :
  (forall x, x ∈ ctx.*1 -> m' !! x = m !! x) -> owned m h ctx b -> owned m' h ctx b.
Proof.
  revert h. induction ctx as [|[p k] ctx IH]; intros h Hm; cbn; [done|].
  intros [Hp H]. rewrite Hm by left. split; [done|]. apply IH; [|done]. intros. apply Hm. by right.
Qed.

Lemma destroy_owned m0 h ctx b n m :
  owned m h ctx b -> NoDup (h :: ctx.*1) -> (length ctx < n)%nat ->
  (forall i c k, pt <$> m !! h <> Some (InNested i c k)) ->
  (forall x, x ∉ h :: ctx.*1 -> m !! x = m0 !! x) ->
  (forall x, x ∈ h :: ctx.*1 -> m0 !! x = None) ->
  destroy n b m = m0.
Proof.
  revert b n m. induction ctx as [|[p k] ctx IH] using rev_ind; intros b n m Ho Hnd Hn Hh Hout Hin.
  - cbn in Ho. subst b. destruct n as [|n]; [cbn in Hn; lia|].
    assert (E : destroy (S n) h m = delete h m).
    { cbn. destruct (pt <$> m !! h) as [[]|] eqn:E; try done. by destruct (Hh nested_ gen_ k). }
    rewrite E. apply map_eq. intros x. destruct (decide (x = h)) as [->|].
    + rewrite lookup_delete_eq. symmetry. apply Hin. left.
    + rewrite lookup_delete_ne by done. apply Hout. by intros ->%list_elem_of_singleton.
  - apply owned_snoc in Ho as (-> & c & i & Ho & Hp).
    destruct n as [|n]; [lia|]. cbn [destroy]. rewrite Hp.
    rewrite fmap_app in Hnd, Hout, Hin. cbn in Hnd, Hout, Hin.
    rewrite app_comm_cons, NoDup_app in Hnd. destruct Hnd as (Hnd & Hdisj & _).
    assert (Hpc : p ∉ h :: ctx.*1) by (intros ?%Hdisj; set_solver).
    rewrite length_app in Hn. cbn in Hn.
    apply IH; [| done | lia | | |].
    + apply (owned_ext m); [|done]. intros x Hx. apply lookup_delete_ne.
      intros ->. apply Hpc. by right.
    + intros i' c' k'. rewrite lookup_delete_ne; [apply Hh|]. intros ->. apply Hpc. left.
    + intros x Hx. destruct (decide (x = p)) as [->|].
      * rewrite lookup_delete_eq. symmetry. apply Hin. set_solver.
      * rewrite lookup_delete_ne by done. apply Hout. set_solver.
    + intros x Hx. apply Hin. set_solver.
Qed.

Lemma NoDup_below (l : list nat) n : NoDup l -> (forall x, x ∈ l -> (x < n)%nat) -> (length l <= n)%nat.
Proof.
  intros Hnd Hl. rewrite <- (length_seq n 0). apply submseteq_length, NoDup_submseteq; [done|].
  intros x Hx. apply elem_of_seq. specialize (Hl x Hx). lia.
Qed.

Lemma live_destroy m0 root h ctx p s :
  live m0 root h ctx p s -> (forall i c k, p <> InNested i c k) ->
  destroy (next s) root (heap s) = m0.
Proof.
  intros [Hch Hpt _ Hnd Hfr Hrest _] Hp. eapply (destroy_owned m0 h ctx).
  - by apply chain_owned.
  - done.
  - assert (length (h :: ctx.*1) <= next s)%nat as Hlen by (apply NoDup_below; [done|]; intros x Hx; by apply Hfr).
    cbn in Hlen. rewrite length_fmap in Hlen. lia.
  - intros i c k. rewrite Hpt. intros [= ->]. by eapply Hp.
  - done.
  - intros x Hx. by apply Hfr.
Qed.

(** ** Safety of the loop *)

(** At every step the coroutine on top runs, has just yielded, or was the last
    to end. *)
Inductive loop_ok (m0 : gmap handle frame) (root : handle) (s : gstate) : Prop :=
  | ok_running h ctx st : live m0 root h ctx Active s -> tok s = Running h st -> loop_ok m0 root s
  | ok_yielded h ctx st v : live m0 root h ctx (AtYield st) s ->
      value_ <$> heap s !! h = Some (Some v) -> tok s = Caller (Ret tt) -> loop_ok m0 root s
  | ok_ended h o : live m0 root h [] Final s -> tok s = Caller (result o) -> loop_ok m0 root s.

Lemma run_ok m0 root h ctx st s :
  live m0 root h ctx Active s -> tok s = Running h st -> loop_ok m0 root (gen_step h st s).
Proof.
  intros H Htok. destruct (body st) as [v st'|[g|] k| |e] eqn:Hb.
  - destruct (live_yield _ _ _ _ _ _ _ _ Hb H) as (? & ? & ?). by eapply ok_yielded.
  - destruct (live_nested _ _ _ _ _ _ _ _ Hb H). by eapply ok_running.
  - assert (E : gen_step h st s = set_tok (Running h (k None)) s) by (unfold gen_step; by rewrite Hb).
    rewrite E. eapply ok_running; [by apply live_set_tok|done].
  - destruct ctx as [|[p k] ctx].
    + destruct (live_end _ _ _ _ None _ Hb H). by eapply ok_ended.
    + destruct (live_end_nested _ _ _ _ _ _ _ None _ Hb H). by eapply ok_running.
  - destruct ctx as [|[p k] ctx].
    + destruct (live_end _ _ _ _ (Some e) _ Hb H). by eapply ok_ended.
    + destruct (live_end_nested _ _ _ _ _ _ _ (Some e) _ Hb H). by eapply ok_running.
Qed.

Lemma step_loop_ok m0 root s log s' log' :
  loop_ok m0 root s -> for_step root s log = Some (s', log') -> loop_ok m0 root s'.
Proof.
  intros [h ctx st H Htok|h ctx st v H Hv Htok|h o H Htok] Hs.
  - unfold for_step in Hs. rewrite Htok in Hs. injection Hs as <- _. by eapply run_ok.
  - destruct (live_next _ _ _ _ _ _ _ log H Hv Htok) as (s1 & E & ? & ?).
    rewrite E in Hs. injection Hs as <- _. by eapply ok_running.
  - pose proof (lv_chain _ _ _ _ _ _ H) as [-> _]. pose proof (lv_pt _ _ _ _ _ _ H) as Hpt.
    unfold for_step, operator_bool, done in Hs. rewrite Htok, Hpt in Hs. by destruct o.
Qed.

Lemma begin_live st s :
  (forall x, (next s <= x)%nat -> heap s !! x = None) ->
  let s1 := begin (Some (next s)) (new_frame st s) in
  tok s1 = Running (next s) st /\ live (heap s) (next s) (next s) [] Active s1.
Proof. intros H. apply (live_resume _ _ _ _ (Initial st)); [by apply live_new|by left]. Qed.

(** C7.  A generator produces the sequence that its body means, however deep its
    nested generators are: the loop over it ends, has seen exactly those
    elements in that order, an exception that leaves a nested body is rethrown
    in the body that yields from it and one that leaves the outermost body
    leaves the loop; then the coroutine is done, and destroying it leaves no
    frame behind. *)
Theorem generator_elements st l o s :
  runs st l o ->
  (forall x, (next s <= x)%nat -> heap s !! x = None) ->
  let it := next s in
  exists fuel s',
    for_each fuel it (begin (Some it) (new_frame st s)) [] = Some (s', l) /\
    tok s' = Caller (result o) /\ done it s' = true /\
    destroy 1 it (heap s') = heap s.
Proof.
  intros Hr Hs it. destruct (begin_live st s Hs) as (Ht & H). fold it in Ht, H.
  destruct (runs_goes _ _ _ Hr _ _ _ _ _ [] Ht H) as (s1 & st1 & [n Hn] & Ht1 & He & H1).
  destruct (live_end _ _ _ _ _ _ He H1) as (Ht2 & H2). set (s2 := gen_step it st1 s1) in *.
  pose proof (lv_pt _ _ _ _ _ _ H2) as Hpt.
  assert (Hd : done it s2 = true) by (unfold done; by rewrite Hpt).
  exists (n + 2)%nat, s2. split; [|split; [done|split; [done|]]].
  - rewrite Hn. cbn [for_each app]. unfold for_step at 1. rewrite Ht1. fold s2.
    unfold for_step, operator_bool. rewrite Ht2, Hd. by destruct o.
  - destruct H2 as [_ _ _ _ Hfr Hrest _]. cbn [destroy]. rewrite Hpt.
    apply map_eq. intros x. destruct (decide (x = it)) as [->|].
    + rewrite lookup_delete_eq. symmetry. apply Hfr. left.
    + rewrite lookup_delete_ne by done. apply Hrest. by intros ->%list_elem_of_singleton.
Qed.


End generator.

(** *** The example of Generator.h: the nodes of a tree in order *)

Inductive tree := Leaf | Node (l : tree) (v : Z) (r : tree).

Fixpoint inorder (t : tree) : list Z :=
  match t with Leaf => [] | Node l v r => inorder l ++ v :: inorder r end.

(** Where [visit] is: at its start, after the left subtree, after the value, at
    its end; or about to throw on. *)
Inductive visit := Visit (t : tree) | ToValue (v : Z) (r : tree) | ToRight (r : tree) | End | Rethrow (e : exn).

Definition visit_body (s : visit) : op visit :=
  let after s o := match o with None => s | Some e => Rethrow e end in
  match s with
  | Visit Leaf => Return visit
  | Visit (Node l v r) => YieldAll visit (Some (Visit l)) (after (ToValue v r))
  | ToValue v r => Yield visit v (ToRight r)
  | ToRight r => YieldAll visit (Some (Visit r)) (after End)
  | End => Return visit
  | Rethrow e => Raise visit e
  end.

Lemma visit_inorder t : runs visit visit_body (Visit t) (inorder t) None.
Proof.
  induction t as [|l IHl v r IHr]; [by apply runs_return|].
  assert (Hr : runs visit visit_body (ToRight r) (inorder r ++ []) None).
  { eapply runs_nested; [done|exact IHr|]. by apply runs_return. }
  rewrite app_nil_r in Hr. eapply runs_nested; [done|exact IHl|]. by eapply runs_yield.
Qed.

Definition sample_tree : tree := Node (Node Leaf 1 (Node Leaf 2 Leaf)) 3 (Node Leaf 4 Leaf).
Definition no_frames : gstate visit := GState visit ∅ 0 (Caller visit (Ret tt)).

Lemma generator_elements_witness :
  runs visit visit_body (Visit sample_tree) [1; 2; 3; 4] None /\
  exists fuel s',
    for_each visit visit_body fuel 0 (begin visit (Some 0%nat) (new_frame visit (Visit sample_tree) no_frames)) [] =
      Some (s', [1; 2; 3; 4]) /\
    tok visit s' = Caller visit (Ret tt) /\ done visit 0 s' = true /\ destroy visit 1 0 (heap visit s') = ∅.
Proof.
  assert (H : runs visit visit_body (Visit sample_tree) [1; 2; 3; 4] None) by exact (visit_inorder sample_tree).
  split; [exact H|].
  exact (generator_elements visit visit_body (Visit sample_tree) [1; 2; 3; 4] None no_frames H (fun x _ => lookup_empty x)).
Defined.

(** The loop after [n] steps. *)
Definition loop_after {St} (body : St -> op St) (it : handle) (n : nat) (c : gstate St * list Z)
    : gstate St * list Z :=
  Nat.iter n (fun c => default c (for_step St body it c.1 c.2)) c.

Lemma loop_after_rtc {St} (body : St -> op St) it n c :
  rtc (fun c c' => for_step St body it c.1 c.2 = Some c') c (loop_after body it n c).
Proof.
  induction n as [|n IH]; [constructor|]. cbn. fold (loop_after body it n c).
  destruct (for_step _ _ _ _ _) as [c'|] eqn:E; [|done]. eapply rtc_r; [exact IH|exact E].
Qed.

(** A loop that is left at the second element, three generators deep. *)
Definition left_early : gstate visit * list Z :=
  loop_after visit_body 0 9 (begin visit (Some 0%nat) (new_frame visit (Visit sample_tree) no_frames), []).

Lemma left_early_rtc :
  rtc (fun c c' => for_step visit visit_body 0 c.1 c.2 = Some c')
    (begin visit (Some 0%nat) (new_frame visit (Visit sample_tree) no_frames), [])
    (left_early.1, left_early.2).
Proof. rewrite <- surjective_pairing. apply loop_after_rtc. Qed.

