(* ===== verification/Switch.v ===== *)
(** * Switch: the context switches of uthread

    Models uthread/internal/thread_impl.h and the switching half of thread.cc
    with thread_context, on any number of system threads.  A saved stack pointer
    ([fcontext_t]) is an address; [saved] says on which stack the address is and
    which code goes on there, so that jumping to an address twice, or to a stack
    that has been freed, has no result.  What the code that calls a switch does
    next is the parameter [K] of the development.

    [Switching] is the interface for Uthread.v: the operations, and that they
    behave like pushing on, and popping from, the call stack of a system thread.
    [fcontext_switching] proves that of the code. *)

From S2P Require Import Prelude.

(** A [jmp_buf_link]: [g_unthreaded_context] of a system thread, or [context_] of
    a [thread_context].  It also names the stack. *)
Inductive lid := Unthreaded (t : nat) | Context (n : nat).

#[export] Instance lid_eq_dec : EqDecision lid.
Proof. solve_decision. Defined.

(** ** The interface *)

(** The call stacks of the system threads, the context on top first; with each
    context the code that called [switch_in] on it.  The contexts that are
    switched out, with the code that goes on when they are switched in. *)
Record stacks (K : Type) := Stacks {
  stk : nat -> list (nat * K);
  susp : gmap nat K;
}.
Arguments Stacks {K} _ _.
Arguments stk {K} _ _.
Arguments susp {K} _.

Section abstract.
Context {K : Type}.

Definition a_setup (n : nat) (k : K) (a : stacks K) : stacks K :=
  Stacks (stk a) (<[n := k]> (susp a)).

(** The code that goes on is returned. *)
Definition a_switch_in (t n : nat) (k : K) (a : stacks K) : option (K * stacks K) :=
  c ← susp a !! n;
  Some (c, Stacks (<[t := (n, k) :: stk a t]> (stk a)) (delete n (susp a))).

Definition a_switch_out (t : nat) (k : K) (a : stacks K) : option (K * stacks K) :=
  match stk a t with
  | (n, c) :: l => Some (c, Stacks (<[t := l]> (stk a)) (<[n := k]> (susp a)))
  | [] => None
  end.

Definition a_final_switch_out (t : nat) (a : stacks K) : option (K * stacks K) :=
  match stk a t with
  | (_, c) :: l => Some (c, Stacks (<[t := l]> (stk a)) (susp a))
  | [] => None
  end.

Definition a_destroy (n : nat) (a : stacks K) : stacks K :=
  Stacks (stk a) (delete n (susp a)).

(** The context that runs on a thread. *)
Definition top (t : nat) (l : list (nat * K)) : lid :=
  match l with [] => Unthreaded t | (n, _) :: _ => Context n end.

(** A context is on one stack once, or switched out. *)
Record stacks_ok (a : stacks K) : Prop := {
  so_nodup : forall t, NoDup (stk a t).*1;
  so_disjoint : forall t t' n, n ∈ (stk a t).*1 -> n ∈ (stk a t').*1 -> t = t';
  so_susp : forall t n, n ∈ (stk a t).*1 -> susp a !! n = None;
}.
End abstract.

(** The operations on a state [S]; [None] when they are undefined. *)
Class Switching (K S : Type) := {
  sw_init : S;
  setup : nat -> K -> S -> S;
  switch_in : nat -> nat -> K -> S -> option (K * S);
  switch_out : nat -> nat -> K -> S -> option (K * S);
  final_switch_out : nat -> nat -> S -> option (K * S);
  destroy_context : nat -> S -> S;
  get : nat -> S -> option nat;
}.

(** They refine the call stacks. *)
Class SwitchingLaws (K S : Type) `{Switching K S} := {
  rep : S -> stacks K -> Prop;
  rep_init : rep sw_init (Stacks (fun _ => []) ∅);
  rep_ok s a : rep s a -> stacks_ok a;
  rep_setup s a n k :
    rep s a -> (forall t, n ∉ (stk a t).*1) -> rep (setup n k s) (a_setup n k a);
  rep_switch_in s a t n k c a' :
    rep s a -> a_switch_in t n k a = Some (c, a') ->
    exists s', switch_in t n k s = Some (c, s') /\ rep s' a';
  rep_switch_out s a t n k c a' l :
    rep s a -> stk a t = (n, c) :: l -> a_switch_out t k a = Some (c, a') ->
    exists s', switch_out t n k s = Some (c, s') /\ rep s' a';
  rep_final s a t n c a' l :
    rep s a -> stk a t = (n, c) :: l -> a_final_switch_out t a = Some (c, a') ->
    exists s', final_switch_out t n s = Some (c, s') /\ rep s' a';
  rep_destroy s a n :
    rep s a -> (forall t, n ∉ (stk a t).*1) -> rep (destroy_context n s) (a_destroy n a);
  rep_get s a t : rep s a -> get t s = head (stk a t).*1;
}.

(** ** The code *)

Section fcontext.
Context {K : Type}.

(** What goes on at a saved stack pointer: [s_main] of a new context, or the rest
    of one of the functions of [jmp_buf_link], [n] its [this], and then [k]. *)
Inductive point :=
  | Entry (n : nat) (k : K)
  | AfterIn (n : nat) (k : K)
  | AfterOut (n : nat) (k : K)
  | AfterFinal (n : nat).

Record jmp_buf_link := Link { fcontext : nat; link : option lid }.

Record sw := Sw {
  links : lid -> jmp_buf_link;
  g_current_context : nat -> option lid;
  saved : gmap nat (lid * point);
  fresh : nat;
}.

Definition set_fcontext (l : lid) (a : nat) (s : sw) : sw :=
  Sw (<[l := Link a (link (links s l))]> (links s)) (g_current_context s) (saved s) (fresh s).
Definition set_link (l : lid) (o : option lid) (s : sw) : sw :=
  Sw (<[l := Link (fcontext (links s l)) o]> (links s)) (g_current_context s) (saved s) (fresh s).
Definition set_current (t : nat) (l : lid) (s : sw) : sw :=
  Sw (links s) (<[t := Some l]> (g_current_context s)) (saved s) (fresh s).

(** [_fl_jump_fcontext(to, ...)] on the stack [from], [p] the code after the
    call: the registers are saved on [from], those at [to] restored.  Gives the
    address of the saved ones, which the code at [to] gets in its [transfer_t],
    and that code. *)
Definition jump_fcontext (to : nat) (from : lid) (p : point) (s : sw) : option (nat * point * sw) :=
  '(_, q) ← saved s !! to;
  Some (fresh s, q,
    Sw (links s) (g_current_context s) (<[fresh s := (from, p)]> (delete to (saved s))) (S (fresh s))).

(** The code at the target of a jump, with the address it got. *)
Definition continue_at (a : nat) (q : point) (s : sw) : option (K * sw) :=
  match q with
  | Entry n k =>
      (* s_main: q->context_.link->fcontext = t.fctx *)
      l ← link (links s (Context n)); Some (k, set_fcontext l a s)
  | AfterIn n k => Some (k, set_fcontext (Context n) a s)
  | AfterOut n k =>
      l ← link (links s (Context n)); Some (k, set_fcontext l a s)
  | AfterFinal n => None
  end.

(** [jmp_buf_link::switch_in] of context [n] on thread [t]. *)
Definition fc_switch_in (t n : nat) (k : K) (s : sw) : option (K * sw) :=
  let l := default (Unthreaded t) (g_current_context s t) in
  let s := set_current t (Context n) (set_link (Context n) (Some l) s) in
  '(a, q, s) ← jump_fcontext (fcontext (links s (Context n))) l (AfterIn n k) s;
  continue_at a q s.

(** [jmp_buf_link::switch_out]. *)
Definition fc_switch_out (t n : nat) (k : K) (s : sw) : option (K * sw) :=
  l ← link (links s (Context n));
  let s := set_current t l s in
  '(a, q, s) ← jump_fcontext (fcontext (links s l)) (Context n) (AfterOut n k) s;
  continue_at a q s.

(** [jmp_buf_link::final_switch_out]. *)
Definition fc_final_switch_out (t n : nat) (s : sw) : option (K * sw) :=
  l ← link (links s (Context n));
  let s := set_current t l s in
  '(a, q, s) ← jump_fcontext (fcontext (links s l)) (Context n) (AfterFinal n) s;
  continue_at a q s.

(** [thread_context::setup] before its [switch_in]: a stack, and
    [_fl_make_fcontext] on it. *)
Definition fc_setup (n : nat) (k : K) (s : sw) : sw :=
  Sw (<[Context n := Link (fresh s) None]> (links s)) (g_current_context s)
     (<[fresh s := (Context n, Entry n k)]> (saved s)) (S (fresh s)).

(** [~thread_context]: the stack is freed, and what was saved on it is lost. *)
Definition fc_destroy (n : nat) (s : sw) : sw :=
  Sw (links s) (g_current_context s) (filter (fun e => e.2.1 <> Context n) (saved s)) (fresh s).

(** [thread_impl::get]: [None] without a current uthread. *)
Definition fc_get (t : nat) (s : sw) : option nat :=
  match g_current_context s t with Some (Context n) => Some n | _ => None end.

Definition fc_init : sw := Sw (fun _ => Link 0 None) (fun _ => None) ∅ 0.

(** ** The call stacks in the links *)

(** From the top of [l]: each context links to the one that switched it in,
    whose stack is saved in its [fcontext]. *)
Fixpoint linked (s : sw) (t : nat) (l : list (nat * K)) : Prop :=
  match l with
  | [] => True
  | (n, k) :: l =>
      link (links s (Context n)) = Some (top t l) /\
      saved s !! fcontext (links s (top t l)) = Some (top t l, AfterIn n k) /\
      linked s t l
  end.

Definition suspended (s : sw) (n : nat) (k : K) : Prop :=
  exists p, saved s !! fcontext (links s (Context n)) = Some (Context n, p) /\
    (p = Entry n k \/ p = AfterOut n k).

Record fc_rep (s : sw) (a : stacks K) : Prop := {
  fr_ok : stacks_ok a;
  fr_current : forall t, default (Unthreaded t) (g_current_context s t) = top t (stk a t);
  fr_linked : forall t, linked s t (stk a t);
  fr_susp : forall n k, susp a !! n = Some k -> suspended s n k;
  fr_fresh : forall x, (fresh s <= x)%nat -> saved s !! x = None;
}.
End fcontext.

(** ** The code refines the call stacks *)

Section proofs.
Context {K : Type}.
Implicit Types (s : @sw K) (a : stacks K) (l : list (nat * K)).

Lemma linked_ext s s' t l :
  (forall n, n ∈ l.*1 -> link (links s' (Context n)) = link (links s (Context n))) ->
  (forall y, y ∈ Unthreaded t :: (Context <$> (tail l).*1) ->
     fcontext (links s' y) = fcontext (links s y)) ->
  (forall x b n k, n ∈ l.*1 -> saved s !! x = Some (b, AfterIn n k) ->
     saved s' !! x = Some (b, AfterIn n k)) ->
  linked s t l -> linked s' t l.
Proof.
  induction l as [|[n k] l IH]; intros Hl Hf Hs; cbn; [done|].
  intros (H1 & H2 & H3). split; [by rewrite Hl by (cbn; left)|]. split.
  - rewrite Hf; [apply (Hs _ _ n); [left|done]|].
    destruct l as [|[m k'] l]; cbn; [left|right; left].
  - apply IH; [by intros; apply Hl; right| |by intros; eapply Hs; [right|]|done].
    intros y [->|Hy]%elem_of_cons; [apply Hf; left|]. apply Hf. right.
    destruct l as [|[m k'] l]; cbn in *; [by apply elem_of_nil in Hy|by right].
Qed.

(** The saved stack that [switch_out] and [final_switch_out] go back to. *)
Lemma rep_top s a t n c l :
  fc_rep s a -> stk a t = (n, c) :: l ->
  link (links s (Context n)) = Some (top t l) /\
  saved s !! fcontext (links s (top t l)) = Some (top t l, AfterIn n c) /\ linked s t l.
Proof. intros H Hl. pose proof (fr_linked s a H t) as Hk. by rewrite Hl in Hk. Qed.

Lemma top_in t l n : top t l = Context n -> n ∈ l.*1.
Proof. destruct l as [|[m k] l]; [done|]. intros [= ->]. left. Qed.

Lemma top_lids t l y :
  y ∈ Unthreaded t :: (Context <$> (tail l).*1) -> NoDup l.*1 -> y = top t l -> l = [].
Proof.
  destruct l as [|[n k] l]; [done|]. cbn. intros Hy Hnd ->.
  apply NoDup_cons in Hnd as [Hnd _]. rewrite elem_of_cons, list_elem_of_fmap in Hy.
  destruct Hy as [?|(m & [= ->] & ?)]; done.
Qed.

(** The links of different threads are different. *)
Lemma lids_disjoint a t t' y :
  stacks_ok a -> t <> t' -> y ∈ Unthreaded t' :: (Context <$> (stk a t').*1) -> y <> top t (stk a t).
Proof.
  intros Hok Hne Hy ->. rewrite elem_of_cons, list_elem_of_fmap in Hy.
  destruct Hy as [Hy|(n & Hy & Hn)].
  - destruct (stk a t) as [|[m k] l]; cbn in Hy; congruence.
  - apply top_in in Hy. apply Hne. by eapply so_disjoint.
Qed.

Lemma lids_tail t l y :
  y ∈ Unthreaded t :: (Context <$> (tail l).*1) -> y ∈ Unthreaded t :: (Context <$> l.*1).
Proof. destruct l as [|[n k] l]; [done|]. cbn. rewrite !elem_of_cons. tauto. Qed.

Lemma suspended_ext s s' n k :
  fcontext (links s' (Context n)) = fcontext (links s (Context n)) ->
  (forall x p, saved s !! x = Some (Context n, p) -> p = Entry n k \/ p = AfterOut n k ->
     saved s' !! x = Some (Context n, p)) ->
  suspended s n k -> suspended s' n k.
Proof. intros Hf Hs (p & Hp & Hk). exists p. rewrite Hf. eauto. Qed.

(** Bookkeeping of the abstract operations. *)
Lemma a_switch_in_ok a t n k c a' :
  stacks_ok a -> a_switch_in t n k a = Some (c, a') ->
  stacks_ok a' /\ susp a !! n = Some c /\ (forall t', n ∉ (stk a t').*1).
Proof.
  intros [Hnd Hdis Hsu] H. unfold a_switch_in in H.
  destruct (susp a !! n) as [c'|] eqn:Hn; [|done]. cbn in H. injection H as -> <-.
  assert (Hnot : forall t', n ∉ (stk a t').*1) by (intros t' Ht'; apply Hsu in Ht'; congruence).
  split; [|done]. constructor; cbn.
  - intros t'. destruct (decide (t' = t)) as [->|].
    + rewrite fn_lookup_insert. cbn. by apply NoDup_cons.
    + by rewrite fn_lookup_insert_ne.
  - intros t1 t2 m. destruct (decide (t1 = t)) as [->|], (decide (t2 = t)) as [->|];
      rewrite ?fn_lookup_insert, ?fn_lookup_insert_ne by done; cbn; try done; [| |by apply Hdis].
    + intros [->|?]%elem_of_cons ?; [by destruct (Hnot t2)|by eapply Hdis].
    + intros ? [->|?]%elem_of_cons; [by destruct (Hnot t1)|by eapply Hdis].
  - intros t' m Hm. destruct (decide (m = n)) as [->|]; [by rewrite lookup_delete_eq|].
    rewrite lookup_delete_ne by done. destruct (decide (t' = t)) as [->|].
    + rewrite fn_lookup_insert in Hm. cbn in Hm. apply elem_of_cons in Hm as [?|?]; [done|by eapply Hsu].
    + rewrite fn_lookup_insert_ne in Hm by done. by eapply Hsu.
Qed.

Lemma a_pop_ok a t n c l su :
  stacks_ok a -> stk a t = (n, c) :: l ->
  (forall m, m <> n -> su !! m = susp a !! m) ->
  stacks_ok (Stacks (<[t := l]> (stk a)) su).
Proof.
  intros [Hnd Hdis Hsu] Hl Hm.
  assert (Hsub : forall t' x, x ∈ (<[t := l]> (stk a) t').*1 -> x ∈ (stk a t').*1 /\ x <> n).
  { intros t' x Hx. destruct (decide (t' = t)) as [->|].
    - rewrite fn_lookup_insert in Hx. rewrite Hl. split; [by right|]. intros ->.
      specialize (Hnd t). rewrite Hl in Hnd. by apply NoDup_cons in Hnd as [? _].
    - rewrite fn_lookup_insert_ne in Hx by done. split; [done|]. intros ->.
      destruct (Hdis t t' n); [rewrite Hl; left|done|done]. }
  constructor; cbn.
  - intros t'. destruct (decide (t' = t)) as [->|]; [|by rewrite fn_lookup_insert_ne].
    rewrite fn_lookup_insert. specialize (Hnd t). rewrite Hl in Hnd. by apply NoDup_cons in Hnd as [_ ?].
  - intros t1 t2 x [? _]%Hsub [? _]%Hsub. by eapply Hdis.
  - intros t' x [Hx Hne]%Hsub. rewrite Hm by done. by eapply Hsu.
Qed.

Lemma fc_rep_init : fc_rep (@fc_init K) (Stacks (fun _ => []) ∅).
Proof.
  constructor; cbn; try done. constructor; cbn; [intros; apply NoDup_nil_2| |]; set_solver.
Qed.

Lemma fc_rep_setup s a n k :
  fc_rep s a -> (forall t, n ∉ (stk a t).*1) -> fc_rep (fc_setup n k s) (a_setup n k a).
Proof.
  intros [[Hnd Hdis Hsu] Hcur Hlk Hsp Hfr] Hn.
  assert (Hold : forall x v, saved s !! x = Some v -> saved (fc_setup n k s) !! x = Some v).
  { intros x v Hx. cbn. rewrite lookup_insert_ne; [done|]. intros <-. by rewrite Hfr in Hx. }
  constructor; cbn.
  - constructor; cbn; [done..|]. intros t m Hm. rewrite lookup_insert_ne; [by eapply Hsu|].
    intros <-. by eapply Hn.
  - done.
  - intros t. specialize (Hlk t). revert Hlk. apply linked_ext.
    + intros m Hm. cbn. rewrite fn_lookup_insert_ne; [done|]. intros [= ->]. by eapply Hn.
    + intros y Hy. cbn. rewrite fn_lookup_insert_ne; [done|]. intros <-.
      apply lids_tail in Hy. rewrite elem_of_cons, list_elem_of_fmap in Hy.
      destruct Hy as [|(m & [= <-] & ?)]; [done|]. by eapply Hn.
    + eauto.
  - intros m c. destruct (decide (m = n)) as [->|Hne].
    + rewrite lookup_insert_eq. intros [= <-]. exists (Entry n k). cbn.
      rewrite fn_lookup_insert. cbn. rewrite lookup_insert_eq. auto.
    + rewrite lookup_insert_ne by done. intros Hc. apply Hsp in Hc. revert Hc. apply suspended_ext; cbn.
      * rewrite fn_lookup_insert_ne; [done|]. by intros [= ->].
      * intros x p Hx _. by apply Hold.
  - intros x Hx. rewrite lookup_insert_ne by lia. apply Hfr. lia.
Qed.

Lemma fc_rep_switch_in s a t n k c a' :
  fc_rep s a -> a_switch_in t n k a = Some (c, a') ->
  exists s', fc_switch_in t n k s = Some (c, s') /\ fc_rep s' a'.
Proof.
  intros Hrep Ha. pose proof (a_switch_in_ok _ _ _ _ _ _ (fr_ok _ _ Hrep) Ha) as (Hok' & Hn & Hnot).
  unfold a_switch_in in Ha. rewrite Hn in Ha. cbn in Ha. injection Ha as <-.
  destruct Hrep as [Hok Hcur Hlk Hsp Hfr].
  destruct (Hsp n c Hn) as (p & Hp & Hpc).
  set (l := top t (stk a t)).
  set (to := fcontext (links s (Context n))) in *.
  assert (Hln : Context n <> l) by (intros E; symmetry in E; by apply top_in, Hnot in E).
  set (s' := set_fcontext l (fresh s)
    (Sw (links (set_link (Context n) (Some l) s)) (<[t := Some (Context n)]> (g_current_context s))
      (<[fresh s := (l, AfterIn n k)]> (delete to (saved s))) (S (fresh s)))).
  exists s'. assert (E : fc_switch_in t n k s = Some (c, s')).
  { unfold fc_switch_in, jump_fcontext. rewrite Hcur. fold l. cbn [links set_current set_link saved].
    rewrite fn_lookup_insert. cbn [fcontext]. fold to. rewrite Hp. cbn.
    destruct Hpc as [-> | ->]; cbn; rewrite fn_lookup_insert; done. }
  split; [exact E|].
  assert (Hto : to <> fresh s) by (intros Et; rewrite Et, Hfr in Hp by done; done).
  assert (Hold : forall x v, saved s !! x = Some v -> x <> to -> saved s' !! x = Some v).
  { intros x v Hx Hne. cbn. rewrite lookup_insert_ne, lookup_delete_ne; [done|done|].
    intros <-. by rewrite Hfr in Hx. }
  assert (Hfc : forall y, y <> l -> fcontext (links s' y) = fcontext (links s y)).
  { intros y Hy. cbn. rewrite fn_lookup_insert_ne by done.
    destruct (decide (y = Context n)) as [->|]; [by rewrite fn_lookup_insert|].
    by rewrite fn_lookup_insert_ne. }
  assert (Hlink : forall y, y <> Context n -> link (links s' y) = link (links s y)).
  { intros y Hy. cbn. destruct (decide (y = l)) as [->|].
    - rewrite fn_lookup_insert. cbn. by rewrite fn_lookup_insert_ne.
    - by rewrite !fn_lookup_insert_ne. }
  assert (Hkeep : forall t', (forall y, y ∈ Unthreaded t' :: (Context <$> (tail (stk a t')).*1) -> y <> l) ->
                    linked s' t' (stk a t')).
  { intros t' Hy. specialize (Hlk t'). revert Hlk. apply linked_ext.
    - intros m Hm. apply Hlink. intros [= ->]. by eapply Hnot.
    - intros y Hy'. by apply Hfc, Hy.
    - intros x b m k' _ Hx. apply Hold; [done|]. intros ->. rewrite Hp in Hx. by destruct Hpc as [-> | ->]. }
  constructor; cbn [stk susp]; [exact Hok'| | | |].
  - intros t'. cbn. destruct (decide (t' = t)) as [->|]; [by rewrite !fn_lookup_insert|].
    rewrite !fn_lookup_insert_ne by done. apply Hcur.
  - intros t'. destruct (decide (t' = t)) as [->|Hne].
    + rewrite fn_lookup_insert. cbn [linked]. fold l. split; [|split].
      * cbn. rewrite fn_lookup_insert_ne, fn_lookup_insert by done. done.
      * cbn. rewrite fn_lookup_insert. cbn. by rewrite lookup_insert_eq.
      * assert (Hcase : stk a t = [] \/ stk a t <> []) by (destruct (stk a t); auto).
        destruct Hcase as [El|El]; [by rewrite El|]. apply Hkeep. intros y Hy Hyl.
        apply El, (top_lids t _ y Hy); [apply (so_nodup a Hok)|done].
    + rewrite fn_lookup_insert_ne by done. apply Hkeep. intros y Hy.
      apply (lids_disjoint a t t' y Hok); [done|]. by apply lids_tail.
  - intros m c'. destruct (decide (m = n)) as [->|Hne]; [by rewrite lookup_delete_eq|].
    rewrite lookup_delete_ne by done. intros Hm. pose proof (Hsp m c' Hm) as Hs.
    revert Hs. apply suspended_ext.
    + apply Hfc. intros El. symmetry in El. apply top_in in El. by rewrite (so_susp a Hok t m El) in Hm.
    + intros x q Hx _. apply Hold; [done|]. intros ->. rewrite Hp in Hx. congruence.
  - intros x Hx. cbn in *. rewrite lookup_insert_ne by lia.
    apply lookup_delete_None. right. apply Hfr. lia.
Qed.

(** Popping: both ways of leaving a context restore the one below. *)
Lemma fc_rep_pop s a t n c l p su :
  fc_rep s a -> stk a t = (n, c) :: l ->
  (forall m, m <> n -> su !! m = susp a !! m) ->
  (forall k, su !! n = Some k -> p = AfterOut n k) ->
  let a' := Stacks (<[t := l]> (stk a)) su in
  let to := fcontext (links s (top t l)) in
  let s' := Sw (<[Context n := Link (fresh s) (Some (top t l))]> (links s))
    (<[t := Some (top t l)]> (g_current_context s))
    (<[fresh s := (Context n, p)]> (delete to (saved s))) (S (fresh s)) in
  fc_rep s' a'.
Proof.
  intros Hrep Hl Hsu Hp a' to s'.
  pose proof (rep_top s a t n c l Hrep Hl) as (Hlink & Hto & Hlkl). fold to in Hto.
  pose proof (a_pop_ok a t n c l su (fr_ok _ _ Hrep) Hl Hsu) as Hok'.
  destruct Hrep as [Hok Hcur Hlk Hsp Hfr].
  assert (Hn : n ∈ (stk a t).*1) by (rewrite Hl; left).
  assert (Hold : forall x v, saved s !! x = Some v -> x <> to -> saved s' !! x = Some v).
  { intros x v Hx Hne. cbn. rewrite lookup_insert_ne, lookup_delete_ne; [done|done|].
    intros <-. by rewrite Hfr in Hx. }
  assert (Hlinks : forall y, y <> Context n -> links s' y = links s y) by (intros; cbn; by rewrite fn_lookup_insert_ne).
  assert (Hnn : forall t', n ∉ (<[t := l]> (stk a) t').*1).
  { intros t' Hin. destruct (decide (t' = t)) as [->|].
    - rewrite fn_lookup_insert in Hin. pose proof (so_nodup a Hok t) as Hnd. rewrite Hl in Hnd.
      by apply NoDup_cons in Hnd as [? _].
    - rewrite fn_lookup_insert_ne in Hin by done. by destruct (so_disjoint a Hok t t' n). }
  constructor; cbn [stk susp]; [exact Hok'| | | |].
  - intros t'. cbn. destruct (decide (t' = t)) as [->|]; [by rewrite !fn_lookup_insert|].
    rewrite !fn_lookup_insert_ne by done. apply Hcur.
  - intros t'. assert (Hlt : linked s t' (<[t := l]> (stk a) t')).
    { destruct (decide (t' = t)) as [->|]; [by rewrite fn_lookup_insert|by rewrite fn_lookup_insert_ne]. }
    revert Hlt. apply linked_ext.
    + intros m Hm. rewrite Hlinks; [done|]. intros [= ->]. exact (Hnn t' Hm).
    + intros y Hy. rewrite Hlinks; [done|]. intros ->. apply lids_tail in Hy.
      rewrite elem_of_cons, list_elem_of_fmap in Hy. destruct Hy as [|(m & [= <-] & Hy)]; [done|]. exact (Hnn t' Hy).
    + intros x b m k Hm Hx. apply Hold; [done|]. intros ->. rewrite Hto in Hx. injection Hx as _ -> _.
      exact (Hnn t' Hm).
  - intros m k Hm. destruct (decide (m = n)) as [->|Hne].
    + exists p. cbn. rewrite fn_lookup_insert. cbn. rewrite lookup_insert_eq. auto.
    + rewrite Hsu in Hm by done. pose proof (Hsp m k Hm) as Hs. revert Hs. apply suspended_ext.
      * rewrite Hlinks; [done|]. congruence.
      * intros x q Hx Hq. apply Hold; [done|]. intros ->. rewrite Hto in Hx.
        injection Hx as _ <-. by destruct Hq.
  - intros x Hx. cbn in *. rewrite lookup_insert_ne by lia.
    apply lookup_delete_None. right. apply Hfr. lia.
Qed.

Lemma fc_rep_switch_out s a t n k c a' l :
  fc_rep s a -> stk a t = (n, c) :: l -> a_switch_out t k a = Some (c, a') ->
  exists s', fc_switch_out t n k s = Some (c, s') /\ fc_rep s' a'.
Proof.
  intros Hrep Hl Ha. unfold a_switch_out in Ha. rewrite Hl in Ha. injection Ha as <-.
  destruct (rep_top s a t n c l Hrep Hl) as (Hlink & Hto & _).
  eexists. split; [|apply (fc_rep_pop s a t n c l (AfterOut n k)); try done].
  - unfold fc_switch_out, jump_fcontext. rewrite Hlink. cbn. rewrite Hto. cbn.
    unfold set_fcontext. cbn. by rewrite Hlink.
  - intros m Hm. by rewrite lookup_insert_ne.
  - intros k'. rewrite lookup_insert_eq. by intros [= ->].
Qed.

Lemma fc_rep_final s a t n c a' l :
  fc_rep s a -> stk a t = (n, c) :: l -> a_final_switch_out t a = Some (c, a') ->
  exists s', fc_final_switch_out t n s = Some (c, s') /\ fc_rep s' a'.
Proof.
  intros Hrep Hl Ha. unfold a_final_switch_out in Ha. rewrite Hl in Ha. injection Ha as <-.
  destruct (rep_top s a t n c l Hrep Hl) as (Hlink & Hto & _).
  eexists. split; [|apply (fc_rep_pop s a t n c l (AfterFinal n)); try done].
  - unfold fc_final_switch_out, jump_fcontext. rewrite Hlink. cbn. rewrite Hto. cbn.
    unfold set_fcontext. cbn. by rewrite Hlink.
  - intros k. rewrite (so_susp a (fr_ok _ _ Hrep) t n) by (rewrite Hl; left). done.
Qed.

Lemma fc_rep_destroy s a n :
  fc_rep s a -> (forall t, n ∉ (stk a t).*1) -> fc_rep (fc_destroy n s) (a_destroy n a).
Proof.
  intros [[Hnd Hdis Hsu] Hcur Hlk Hsp Hfr] Hn.
  assert (Hold : forall x y p, saved s !! x = Some (y, p) -> y <> Context n ->
                   saved (fc_destroy n s) !! x = Some (y, p)).
  { intros x y p Hx Hy. cbn. by apply map_lookup_filter_Some. }
  assert (Hl : forall t l, (forall m, m ∈ l.*1 -> m <> n) -> linked s t l -> linked (fc_destroy n s) t l).
  { intros t l. induction l as [|[m k] l IH]; cbn; [done|]. intros Hm (? & H2 & ?).
    split; [done|]. split; [|apply IH; [by intros; apply Hm; right|done]].
    apply Hold; [done|]. intros E. apply top_in in E. apply (Hm n); [by right|done]. }
  constructor; cbn.
  - constructor; cbn; [done..|]. intros t m Hm. apply lookup_delete_None. right. by eapply Hsu.
  - done.
  - intros t. apply Hl; [|done]. intros m Hm ->. by eapply Hn.
  - intros m k. rewrite lookup_delete_Some. intros [Hne Hm]. apply Hsp in Hm as (p & Hp & Hk).
    exists p. split; [|done]. apply Hold; [done|]. congruence.
  - intros x Hx. apply map_lookup_filter_None. left. by apply Hfr.
Qed.

Lemma fc_rep_get s a t : fc_rep s a -> fc_get t s = head (stk a t).*1.
Proof.
  intros H. pose proof (fr_current s a H t) as Hc. unfold fc_get.
  destruct (stk a t) as [|[n k] l], (g_current_context s t); cbn in *; by subst.
Qed.
End proofs.

#[export] Instance fcontext_ops K : Switching K (@sw K) := {
  sw_init := fc_init; setup := fc_setup; switch_in := fc_switch_in; switch_out := fc_switch_out;
  final_switch_out := fc_final_switch_out; destroy_context := fc_destroy; get := fc_get;
}.

#[export] Instance fcontext_switching K : SwitchingLaws K (@sw K) := {
  rep := fc_rep; rep_init := fc_rep_init; rep_ok := fr_ok; rep_setup := fc_rep_setup;
  rep_switch_in := fc_rep_switch_in; rep_switch_out := fc_rep_switch_out; rep_final := fc_rep_final;
  rep_destroy := fc_rep_destroy; rep_get := fc_rep_get;
}.

(** ** Runs *)

Section runs.
Context {K : Type}.

Inductive op :=
  | OSetup (n : nat) (k : K)
  | OSwitchIn (t n : nat) (k : K)
  | OSwitchOut (t n : nat) (k : K)
  | OFinal (t n : nat)
  | ODestroy (n : nat).

(** A use of the operations on the call stacks: contexts are made and freed while
    no thread runs them, switched in when they are switched out, and only the one
    on top of a thread switches out.  The code that goes on is the label. *)
Inductive a_step : stacks K -> op -> option K -> stacks K -> Prop :=
  | as_setup a n k : (forall t, n ∉ (stk a t).*1) -> a_step a (OSetup n k) None (a_setup n k a)
  | as_in a t n k c a' :
      a_switch_in t n k a = Some (c, a') -> a_step a (OSwitchIn t n k) (Some c) a'
  | as_out a t n k c l a' :
      stk a t = (n, c) :: l -> a_switch_out t k a = Some (c, a') -> a_step a (OSwitchOut t n k) (Some c) a'
  | as_final a t n c l a' :
      stk a t = (n, c) :: l -> a_final_switch_out t a = Some (c, a') -> a_step a (OFinal t n) (Some c) a'
  | as_destroy a n : (forall t, n ∉ (stk a t).*1) -> a_step a (ODestroy n) None (a_destroy n a).

Inductive a_run : stacks K -> list op -> list K -> stacks K -> Prop :=
  | ar_nil a : a_run a [] [] a
  | ar_cons a o c a1 os cs a2 :
      a_step a o c a1 -> a_run a1 os cs a2 -> a_run a (o :: os) (option_list c ++ cs) a2.

(** The same operations of the code. *)
Definition sw_step (o : op) (s : @sw K) : option (list K * sw) :=
  match o with
  | OSetup n k => Some ([], fc_setup n k s)
  | OSwitchIn t n k => '(c, s) ← fc_switch_in t n k s; Some ([c], s)
  | OSwitchOut t n k => '(c, s) ← fc_switch_out t n k s; Some ([c], s)
  | OFinal t n => '(c, s) ← fc_final_switch_out t n s; Some ([c], s)
  | ODestroy n => Some ([], fc_destroy n s)
  end.

Fixpoint sw_run (os : list op) (s : @sw K) : option (list K * sw) :=
  match os with
  | [] => Some ([], s)
  | o :: os =>
      '(cs, s) ← sw_step o s;
      '(cs', s) ← sw_run os s;
      Some (cs ++ cs', s)
  end.

Lemma sw_step_refines s a o c a' :
  fc_rep s a -> a_step a o c a' -> exists s', sw_step o s = Some (option_list c, s') /\ fc_rep s' a'.
Proof.
  intros H Ha. destruct Ha as [a n k Hn|a t n k c a' Ha|a t n k c l a' Hl Ha|a t n c l a' Hl Ha|a n Hn]; cbn.
  - eauto using fc_rep_setup.
  - destruct (fc_rep_switch_in _ _ _ _ _ _ _ H Ha) as (s' & -> & ?). eauto.
  - destruct (fc_rep_switch_out _ _ _ _ _ _ _ _ H Hl Ha) as (s' & -> & ?). eauto.
  - destruct (fc_rep_final _ _ _ _ _ _ _ H Hl Ha) as (s' & -> & ?). eauto.
  - eauto using fc_rep_destroy.
Qed.

(** C14.  The switches of uthreads refine call stacks, for any number of system
    threads and contexts, contexts moving between threads included: in every
    sequence of operations that the call stacks allow, the chain of [link]
    pointers and saved stack pointers never leads to a stack pointer that has
    been used or freed, each switch goes on with the code that the call stacks say
    ([switch_out] with the caller of the last [switch_in], [switch_in] with what
    followed the last [switch_out]), and [thread_impl::get] is the context on
    top. *)
Theorem switching_refines_call_stacks os cs a :
  a_run (Stacks (fun _ => []) ∅) os cs a ->
  exists s, sw_run os fc_init = Some (cs, s) /\
    forall t, fc_get t s = head (stk a t).*1.
Proof.
  assert (H : fc_rep (@fc_init K) (Stacks (fun _ => []) ∅)) by apply fc_rep_init.
  revert H. generalize (@fc_init K). intros s H Hrun. revert s H.
  induction Hrun as [a|a o c a1 os cs a2 Hstep _ IH]; intros s H.
  - exists s. split; [done|]. intros t. by apply fc_rep_get.
  - destruct (sw_step_refines _ _ _ _ _ H Hstep) as (s1 & E1 & H1).
    destruct (IH s1 H1) as (s2 & E2 & Hget). exists s2. cbn. rewrite E1. cbn. by rewrite E2.
Qed.
End runs.

(** A context is switched in on thread 0, creates another one, and goes on on
    thread 1. *)
Definition sample_ops : list (@op string) :=
  [OSetup 1 "a0"; OSwitchIn 0 1 "worker0"; OSetup 2 "b0"; OSwitchIn 0 2 "a1";
   OSwitchOut 0 2 "b1"; OSwitchOut 0 1 "a2"; OSwitchIn 1 1 "worker1"; OSwitchIn 0 2 "worker0";
   OFinal 0 2; OFinal 1 1]%string.
Definition sample_results : list string :=
  ["a0"; "b0"; "a1"; "worker0"; "a2"; "b1"; "worker0"; "worker1"]%string.

Lemma sample_a_run : exists a, a_run (Stacks (fun _ => []) ∅) sample_ops sample_results a.
Proof.
  eexists. unfold sample_ops, sample_results.
  repeat (first
    [ apply ar_nil
    | eapply (ar_cons _ (OSetup _ _) None); [apply as_setup; intros [|[|t]]; vm_compute; set_solver|]
    | eapply (ar_cons _ (OSwitchIn _ _ _) (Some _)); [apply as_in; reflexivity|]
    | eapply (ar_cons _ (OSwitchOut _ _ _) (Some _)); [eapply as_out; reflexivity|]
    | eapply (ar_cons _ (OFinal _ _) (Some _)); [eapply as_final; reflexivity|] ]).
Qed.

Lemma switching_refines_call_stacks_witness :
  fst <$> sw_run sample_ops fc_init = Some sample_results.
Proof.
  destruct sample_a_run as [a H].
  destruct (switching_refines_call_stacks _ _ _ H) as (s & E & _). rewrite E. reflexivity.
Defined.
