(* ===== verification/Uthread.v ===== *)
(** * Uthread: stackful coroutines on an executor

    Models uthread/Uthread.h, Async.h and Await.h with the part of thread.cc that
    runs the function of a [thread_context], against the interface [Switching] of
    Switch.v.  Worker threads take the tasks of their queues; a uthread runs a
    [prog] until it awaits a future, and goes on when the executor runs the
    continuation that [await] has left.  Other threads set the futures.

    The executor is one whose [checkin] brings a function back to the thread that
    did the [checkout], which ThreadPool.v proves of the library's: its queues
    are the [queue]s here. *)

From S2P Require Import Prelude Try Switch.

Section uthread.
(** The values of the futures, the memory that the functions share, and the
    futures that threads set that are not of the executor. *)
Context {val mem : Type} {external : nat -> bool}.

(** What the destruction of a captured object does, or a callback that is not run
    in a uthread: it changes the memory, and may give a future its result, if it
    has none (a promise is fulfilled, or broken by its last destructor). *)
Definition action : Type := mem -> mem * option (nat * Try val).

(** What a function object has captured: what a copy of it does to the memory, and
    its destruction. *)
Record owned := Owned { copy : mem -> mem; drop : action }.

(** What a function does: it ends with a value or an exception; [await] of a future
    ([fut.value()] goes on with the value or throws); [async<Launch::Current>], and
    [async<Launch::Schedule>] with the callback for [join]; [setValue] on a
    promise, which throws if it has a value; an access to the shared memory, which
    goes on with what it has found. *)
Inductive prog :=
  | End (r : Try val)
  | Await (f : nat) (k : Try val -> prog)
  | Current (b : prog) (o : owned) (k : prog)
  | Schedule (b : prog) (o : owned) (cb : action) (k : prog)
  | SetValue (f : nat) (v : Try val) (k : bool -> prog)
  | Atomic (u : mem -> mem) (k : mem -> prog).

(** [detach] is [join([]() {})]. *)
Definition no_callback : action := fun m => (m, None).

(** What a thread goes on with: the executor's loop; the destruction of the task
    that has been run; a function; [await] before and after its [switch_out];
    [thread_context::main] before its last switch; [join] of a uthread that has
    just been made, and then more. *)
Inductive code :=
  | Loop
  | EndTask (d : action)
  | Exec (b : prog)
  | AwaitSwitch (ctx : nat) (k : Try val -> prog)
  | AwaitLoop (ctx : nat) (k : Try val -> prog)
  | Final (ctx : nat)
  | Join (ctx : nat) (cb : action) (c : code).

(** What [await] waits for: the future [f] to be set, its promise's continuation
    checked out on thread [w]; or the continuation has been scheduled. *)
Inductive awaiting :=
  | Waiting (f w : nat)
  | Ready (f : nat) (v : Try val).

(** A [thread_context]: whether [done_] has a result; where the continuation that
    [join] has set on it was checked out, with the callback; [await]'s local
    promise; what its [func_] has captured. *)
Record thread_context := Ctx {
  done_ : bool;
  callback : option (nat * action);
  aw : option awaiting;
  func_ : action;
}.

(** A function that [async<Launch::Schedule>] has scheduled. *)
Record func := Func { body : prog; owns : owned; on_join : action }.

Inductive task :=
  | TStart (g : func)
  | TResume (n : nat)
  | TDone (n : nat).

Context {S : Type} {switching : Switching code S}.

Record ustate := UState {
  sws : S;
  code_of : nat -> code;
  queue : nat -> list task;
  ctxs : gmap nat thread_context;
  futs : gmap nat (Try val);
  memory : mem;
  next_ctx : nat;
  undefined : bool;
}.

Definition set_code (t : nat) (c : code) (s : ustate) : ustate :=
  UState (sws s) (<[t := c]> (code_of s)) (queue s) (ctxs s) (futs s) (memory s) (next_ctx s) (undefined s).
Definition set_queue (t : nat) (q : list task) (s : ustate) : ustate :=
  UState (sws s) (code_of s) (<[t := q]> (queue s)) (ctxs s) (futs s) (memory s) (next_ctx s) (undefined s).
Definition push (t : nat) (x : task) (s : ustate) : ustate := set_queue t (queue s t ++ [x]) s.
Definition set_ctx (n : nat) (x : thread_context) (s : ustate) : ustate :=
  UState (sws s) (code_of s) (queue s) (<[n := x]> (ctxs s)) (futs s) (memory s) (next_ctx s) (undefined s).
Definition set_fut (f : nat) (v : Try val) (s : ustate) : ustate :=
  UState (sws s) (code_of s) (queue s) (ctxs s) (<[f := v]> (futs s)) (memory s) (next_ctx s) (undefined s).
Definition set_memory (m : mem) (s : ustate) : ustate :=
  UState (sws s) (code_of s) (queue s) (ctxs s) (futs s) m (next_ctx s) (undefined s).
Definition undef (s : ustate) : ustate :=
  UState (sws s) (code_of s) (queue s) (ctxs s) (futs s) (memory s) (next_ctx s) true.

(** The result of an action for the futures. *)
Definition settle (r : option (nat * Try val)) (fu : gmap nat (Try val)) : gmap nat (Try val) :=
  match r with
  | Some (f, v) => match fu !! f with Some _ => fu | None => <[f := v]> fu end
  | None => fu
  end.

Definition act (a : action) (s : ustate) : ustate :=
  let '(m, r) := a (memory s) in
  UState (sws s) (code_of s) (queue s) (ctxs s) (settle r (futs s)) m (next_ctx s) (undefined s).

(** A switch gives the code that the thread goes on with. *)
Definition switched (t : nat) (r : option (code * S)) (s : ustate) : ustate :=
  match r with
  | Some (c, w) =>
      UState w (<[t := c]> (code_of s)) (queue s) (ctxs s) (futs s) (memory s) (next_ctx s) (undefined s)
  | None => undef s
  end.

(** The end of a [Uthread] that owns a context: [func_] and the stack are
    destroyed. *)
Definition destroy_uthread (n : nat) (s : ustate) : ustate :=
  match ctxs s !! n with
  | Some x =>
      act (func_ x)
        (UState (destroy_context n (sws s)) (code_of s) (queue s) (delete n (ctxs s)) (futs s) (memory s)
           (next_ctx s) (undefined s))
  | None => undef s
  end.

(** [Uthread(attr, b).join(cb)], and then [c]: the constructor moves the function
    into the context and switches in. *)
Definition start_uthread (t : nat) (b : prog) (o : owned) (cb : action) (c : code) (s : ustate) : ustate :=
  let n := next_ctx s in
  let s := UState (setup n (Exec b) (sws s)) (code_of s) (queue s) (<[n := Ctx false None None (drop o)]> (ctxs s))
             (futs s) (memory s) (Datatypes.S n) (undefined s) in
  switched t (switch_in t n (Join n cb c) (sws s)) s.

(** [await]: [ready] when the future has its result; otherwise the continuation is
    checked out on this thread and hung on the future. *)
Definition await (t f : nat) (k : Try val -> prog) (s : ustate) : ustate :=
  match futs s !! f with
  | Some v => set_code t (Exec (k v)) s
  | None =>
      match get t (sws s) with
      | Some n =>
          match ctxs s !! n with
          | Some x =>
              set_code t (AwaitSwitch n k)
                (set_ctx n (Ctx (done_ x) (callback x) (Some (Waiting f t)) (func_ x)) s)
          | None => undef s
          end
      | None => undef s
      end
  end.

(** The test of the loop in [await] after a [switch_out]. *)
Definition await_loop (t n : nat) (k : Try val -> prog) (s : ustate) : ustate :=
  match ctxs s !! n with
  | Some x =>
      match aw x with
      | Some (Ready _ v) => set_code t (Exec (k v)) (set_ctx n (Ctx (done_ x) (callback x) None (func_ x)) s)
      | Some (Waiting _ _) => switched t (switch_out t n (AwaitLoop n k) (sws s)) s
      | None => undef s
      end
  | None => undef s
  end.

(** [thread_context::main] after [func_]: [done_] gets a value or the exception,
    which [join] ignores; a continuation on it is scheduled. *)
Definition finish (t : nat) (s : ustate) : ustate :=
  match get t (sws s) with
  | Some n =>
      match ctxs s !! n with
      | Some x =>
          let s := set_code t (Final n) (set_ctx n (Ctx true (callback x) (aw x) (func_ x)) s) in
          match callback x with Some (w, _) => push w (TDone n) s | None => s end
      | None => undef s
      end
  | None => undef s
  end.

(** [Uthread::join], at the end of the scope of the [Uthread]: when the uthread
    has ended the callback is called and the uthread destroyed here, otherwise the
    continuation owns it. *)
Definition join (t m : nat) (cb : action) (c : code) (s : ustate) : ustate :=
  match ctxs s !! m with
  | Some x =>
      if done_ x then set_code t c (destroy_uthread m (act cb s))
      else set_code t c (set_ctx m (Ctx (done_ x) (Some (t, cb)) (aw x) (func_ x)) s)
  | None => undef s
  end.

(** A function's next step on thread [t]; [w] is the thread that the executor
    picks for a scheduled one. *)
Definition exec (t w : nat) (b : prog) (s : ustate) : ustate :=
  match b with
  | End _ => finish t s
  | Await f k => await t f k s
  | Current b o k => start_uthread t b o no_callback (Exec k) s
  | Schedule b o cb k => set_code t (Exec k) (push w (TStart (Func b o cb)) s)
  | SetValue f v k =>
      match futs s !! f with
      | Some _ => set_code t (Exec (k false)) s
      | None => set_code t (Exec (k true)) (set_fut f v s)
      end
  | Atomic u k => set_code t (Exec (k (memory s))) (set_memory (u (memory s)) s)
  end.

(** A task of the executor.  The scheduled lambda copies its function into the
    uthread ([std::move] of a member of a lambda that is not mutable), and its own
    one is destroyed with it ([EndTask]); the callback of [join] is called, and the
    uthread that its continuation owns ends with it. *)
Definition run_task (t : nat) (x : task) (s : ustate) : ustate :=
  match x with
  | TStart g =>
      start_uthread t (body g) (owns g) (on_join g) (EndTask (drop (owns g)))
        (set_memory (copy (owns g) (memory s)) s)
  | TResume n => switched t (switch_in t n Loop (sws s)) s
  | TDone n =>
      match ctxs s !! n with
      | Some x =>
          match callback x with
          | Some (_, cb) => destroy_uthread n (act cb s)
          | None => undef s
          end
      | None => undef s
      end
  end.

(** A step of thread [t]; [None] when it is idle. *)
Definition thread_step (t w : nat) (s : ustate) : option ustate :=
  match code_of s t with
  | Loop =>
      match queue s t with
      | [] => None
      | x :: q => Some (run_task t x (set_queue t q s))
      end
  | EndTask d => Some (set_code t Loop (act d s))
  | Exec b => Some (exec t w b s)
  | AwaitSwitch n k => Some (switched t (switch_out t n (AwaitLoop n k) (sws s)) s)
  | AwaitLoop n k => Some (await_loop t n k s)
  | Final n => Some (switched t (final_switch_out t n (sws s)) s)
  | Join m cb c => Some (join t m cb c s)
  end.

(** The continuation that [thenTry] has hung on the awaited future: it sets the
    promise of [await], whose continuation, [forceSched] and checked out, is
    scheduled.  It runs at any time after the future has its result, wherever:
    on the thread that sets it, on one of the executor, or inside [thenTry]. *)
Definition forward (n : nat) (s : ustate) : option ustate :=
  x ← ctxs s !! n;
  match aw x with
  | Some (Waiting f w) =>
      v ← futs s !! f;
      Some (push w (TResume n) (set_ctx n (Ctx (done_ x) (callback x) (Some (Ready f v)) (func_ x)) s))
  | _ => None
  end.

Inductive ulabel := LThread (t w : nat) | LForward (n : nat) | LSet (f : nat) (v : Try val).

Definition ustep (l : ulabel) (s : ustate) : option ustate :=
  match l with
  | LThread t w => thread_step t w s
  | LForward n => forward n s
  | LSet f v =>
      match futs s !! f with
      | None => if external f then Some (set_fut f v s) else None
      | Some _ => None
      end
  end.

Definition uinit (m : mem) (q : nat -> list func) : ustate :=
  UState sw_init (fun _ => Loop) (fun t => TStart <$> q t) ∅ ∅ m 0 false.

Definition uthread_lts (m : mem) (q : nat -> list func) : lts := flts (fun s => s = uinit m q) ustep.

(** ** The specification

    The same programs on threads of an operating system that block in [await]: no
    contexts, stacks or continuations.  A process that has ended has its callback
    called and its function destroyed; a scheduled function lives on until the
    worker that has started it is done with it ([closing]). *)

Record aproc := AProcess { rest : option prog; captured : action; joined : action }.

Record aspec := ASpec {
  procs : nat -> option aproc;
  pend : nat -> list func;
  closing : nat -> option action;
  a_futs : gmap nat (Try val);
  a_memory : mem;
}.

(** [AProc p w m]: process [p] makes a step; [w] is the queue that a scheduled
    function goes to, [m] the number of a new process. *)
Inductive alabel :=
  | AStart (t m : nat)
  | AClose (t : nat)
  | AProc (p w m : nat)
  | ASet (f : nat) (v : Try val).

Definition a_act (a : action) (A : aspec) : aspec :=
  let '(m, r) := a (a_memory A) in
  ASpec (procs A) (pend A) (closing A) (settle r (a_futs A)) m.

Definition set_proc (p : nat) (x : option aproc) (A : aspec) : aspec :=
  ASpec (<[p := x]> (procs A)) (pend A) (closing A) (a_futs A) (a_memory A).

(** [go b]: the process goes on with [b]. *)
Definition a_exec (p w m : nat) (x : aproc) (b : prog) (A : aspec) : option aspec :=
  let go b := set_proc p (Some (AProcess (Some b) (captured x) (joined x))) in
  match b with
  | End _ => Some (set_proc p (Some (AProcess None (captured x) (joined x))) A)
  | Await f k => v ← a_futs A !! f; Some (go (k v) A)
  | Current b o k =>
      match procs A m with
      | None => Some (set_proc m (Some (AProcess (Some b) (drop o) no_callback)) (go k A))
      | Some _ => None
      end
  | Schedule b o cb k =>
      Some (go k (ASpec (procs A) (<[w := pend A w ++ [Func b o cb]]> (pend A)) (closing A) (a_futs A) (a_memory A)))
  | SetValue f v k =>
      match a_futs A !! f with
      | Some _ => Some (go (k false) A)
      | None => Some (go (k true) (ASpec (procs A) (pend A) (closing A) (<[f := v]> (a_futs A)) (a_memory A)))
      end
  | Atomic u k =>
      Some (go (k (a_memory A)) (ASpec (procs A) (pend A) (closing A) (a_futs A) (u (a_memory A))))
  end.

Definition a_step (l : alabel) (A : aspec) : option aspec :=
  match l with
  | AStart t m =>
      match pend A t, closing A t, procs A m with
      | g :: q, None, None =>
          Some (set_proc m (Some (AProcess (Some (body g)) (drop (owns g)) (on_join g)))
            (ASpec (procs A) (<[t := q]> (pend A)) (<[t := Some (drop (owns g))]> (closing A)) (a_futs A)
               (copy (owns g) (a_memory A))))
      | _, _, _ => None
      end
  | AClose t =>
      d ← closing A t;
      Some (a_act d (ASpec (procs A) (pend A) (<[t := None]> (closing A)) (a_futs A) (a_memory A)))
  | AProc p w m =>
      x ← procs A p;
      match rest x with
      | Some b => a_exec p w m x b A
      | None => Some (a_act (captured x) (a_act (joined x) (set_proc p None A)))
      end
  | ASet f v =>
      match a_futs A !! f with
      | None =>
          if external f then Some (ASpec (procs A) (pend A) (closing A) (<[f := v]> (a_futs A)) (a_memory A))
          else None
      | Some _ => None
      end
  end.

Definition a_init (m : mem) (q : nat -> list func) : aspec := ASpec (fun _ => None) q (fun _ => None) ∅ m.

Definition a_lts (m : mem) (q : nat -> list func) : lts := flts (fun A => A = a_init m q) a_step.

(** ** The invariant

    All that is known of a thread and of the uthreads that were started on it, its
    own, depends on nothing of the other threads. *)

(** What a uthread is doing, with the rest of its function. *)
Inductive phase :=
  | PRun (b : prog)
  | PWait (f : nat) (k : Try val -> prog)
  | PSusp (f : nat) (k : Try val -> prog)
  | PResumed (f : nat) (k : Try val -> prog)
  | PFinal
  | PDone.

Definition remaining (p : phase) : option prog :=
  match p with
  | PRun b => Some b
  | PWait f k | PSusp f k | PResumed f k => Some (Await f k)
  | PFinal | PDone => None
  end.

Definition resumes (q : list task) : list nat :=
  omap (fun x => match x with TResume n => Some n | _ => None end) q.
Definition dones (q : list task) : list nat :=
  omap (fun x => match x with TDone n => Some n | _ => None end) q.
Definition starts (q : list task) : list func :=
  omap (fun x => match x with TStart g => Some g | _ => None end) q.

(** What the thread goes on with, its top context in phase [p]. *)
Definition top_ok (p : phase) (n : nat) (c : code) : Prop :=
  match p with
  | PRun b => c = Exec b \/ exists m cb, c = Join m cb (Exec b)
  | PWait _ k => c = AwaitSwitch n k
  | PResumed _ k => c = AwaitLoop n k
  | PFinal => c = Final n
  | PSusp _ _ | PDone => False
  end.

Definition code_ok (ph : nat -> phase) (st : list (nat * code)) (c : code) : Prop :=
  match st with
  | [] => c = Loop \/ (exists d, c = EndTask d) \/ exists m cb d, c = Join m cb (EndTask d)
  | (n, _) :: _ => top_ok (ph n) n c
  end.

(** The code that goes on when the context on top is left. *)
Fixpoint conts_ok (ph : nat -> phase) (st : list (nat * code)) : Prop :=
  match st with
  | [] => True
  | (n, k) :: st =>
      match st with
      | [] => k = Loop \/ exists cb d, k = Join n cb (EndTask d)
      | (m, _) :: _ => exists b cb, ph m = PRun b /\ k = Join n cb (Exec b)
      end /\ conts_ok ph st
  end.

Definition thread_ok (ph : nat -> phase) (st : list (nat * code)) (c : code) (q : list task) : Prop :=
  code_ok ph st c /\ conts_ok ph st /\ NoDup (resumes q) /\ NoDup (dones q).

Definition ready (f : nat) (x : thread_context) : Prop := exists v, aw x = Some (Ready f v).
Definition awaits (f : nat) (x : thread_context) : Prop :=
  (exists w, aw x = Some (Waiting f w)) \/ ready f x.

(** A uthread's record, whether it is on the stack, and what is switched out. *)
Definition phase_ok (n : nat) (on : Prop) (su : option code) (x : thread_context) (p : phase) : Prop :=
  match p with
  | PRun _ => on /\ done_ x = false /\ aw x = None
  | PWait f _ => on /\ done_ x = false /\ awaits f x
  | PResumed f _ => on /\ done_ x = false /\ ready f x
  | PSusp f k => (~ on) /\ done_ x = false /\ awaits f x /\ su = Some (AwaitLoop n k)
  | PFinal => on /\ done_ x = true /\ aw x = None
  | PDone => (~ on) /\ done_ x = true /\ aw x = None
  end.

(** Its continuation has been scheduled and not run. *)
Definition awake (p : phase) (x : thread_context) : Prop :=
  match p with PWait f _ | PSusp f _ => ready f x | _ => False end.

(** The code has still to join the uthread [n], with the callback [cb]. *)
Definition joining (c : code) (n : nat) (cb : action) : Prop := exists k, c = Join n cb k.

(** The code of a uthread. *)
Definition running (c : code) : Prop :=
  match c with Exec _ | AwaitSwitch _ _ | AwaitLoop _ _ | Final _ => True | _ => False end.

(** A context, and where it is referred to; [g] is the callback of its [join]. *)
Record context_ok (t n : nat) (g : action) (st : list (nat * code)) (su : option code) (det : action -> Prop)
    (q : list task) (fu : gmap nat (Try val)) (x : thread_context) (p : phase) : Prop := {
  co_phase : phase_ok n (n ∈ st.*1) su x p;
  co_resume : n ∈ resumes q <-> awake p x;
  co_done : n ∈ dones q <-> done_ x = true /\ is_Some (callback x);
  co_entry : forall k, (n, k) ∈ st ->
    (k = Loop /\ callback x = Some (t, g)) \/ (exists c, k = Join n g c /\ callback x = None);
  co_join : forall cb, det cb -> (n ∉ st.*1) /\ callback x = None /\ cb = g;
  co_owned : callback x = None -> (exists cb, det cb) \/ n ∈ st.*1;
  co_callback : callback x = None \/ callback x = Some (t, g);
  co_waiting : forall f w, aw x = Some (Waiting f w) -> w = t;
  co_ready : forall f v, aw x = Some (Ready f v) -> fu !! f = Some v;
}.

Definition mentions (st : list (nat * code)) (c : code) (q : list task) (n : nat) : Prop :=
  n ∈ st.*1 \/ n ∈ resumes q \/ n ∈ dones q \/ exists cb, joining c n cb.

Record local (t : nat) (own : nat -> Prop) (gc : nat -> action) (ph : nat -> phase) (st : list (nat * code))
    (su : gmap nat code) (c : code) (q : list task) (cx : gmap nat thread_context)
    (fu : gmap nat (Try val)) : Prop := {
  lc_thread : thread_ok ph st c q;
  lc_mentions : forall n, mentions st c q n -> own n /\ is_Some (cx !! n);
  lc_ctx : forall n x, own n -> cx !! n = Some x ->
    context_ok t n (gc n) st (su !! n) (joining c n) q fu x (ph n);
}.

Lemma conts_ok_ext ph ph' st :
  (forall n, n ∈ st.*1 -> ph' n = ph n) -> conts_ok ph st -> conts_ok ph' st.
Proof.
  induction st as [|[n k] st IH]; intros Hp; [done|]. cbn. intros [H1 H2]. split.
  - destruct st as [|[m k'] st]; [done|]. by rewrite Hp by (cbn; right; left).
  - apply IH; [|done]. intros m Hm. apply Hp. by right.
Qed.

Lemma thread_ok_ext ph ph' st c q :
  (forall n, n ∈ st.*1 -> ph' n = ph n) -> thread_ok ph st c q -> thread_ok ph' st c q.
Proof.
  intros Hp (H1 & H2 & H3 & H4). split; [|split; [by eapply conts_ok_ext|done]].
  revert H1. unfold code_ok. destruct st as [|[n k] st]; [done|]. by rewrite Hp by (cbn; left).
Qed.

Lemma context_ok_ext t n g st st' su det det' q q' fu fu' x p :
  context_ok t n g st su det q fu x p ->
  (forall k, (n, k) ∈ st' <-> (n, k) ∈ st) ->
  (n ∈ resumes q' <-> n ∈ resumes q) -> (n ∈ dones q' <-> n ∈ dones q) -> (forall cb, det' cb <-> det cb) ->
  fu ⊆ fu' -> context_ok t n g st' su det' q' fu' x p.
Proof.
  intros [H1 H2 H3 H4 H5 H6 H7 H8 H9] Hst Hr Hd Hdet Hfu.
  assert (Hon : n ∈ st'.*1 <-> n ∈ st.*1).
  { rewrite !list_elem_of_fmap. split; intros ([n' k] & -> & Hk); exists (n', k); (split; [done|]);
      by apply Hst. }
  constructor; try done; [|by rewrite Hr|by rewrite Hd|..].
  - revert H1. destruct p; cbn; rewrite ?Hon; done.
  - intros k Hk%Hst. auto.
  - intros cb. rewrite Hdet, Hon. apply H5.
  - intros Hcb. rewrite Hon. destruct (H6 Hcb) as [[cb Hd']|]; [|by right]. left. exists cb. by apply Hdet.
  - intros f v Hv. by eapply lookup_weaken; [apply (H9 f v)|].
Qed.

(** What is known of another thread's uthreads does not change. *)
Lemma local_ext t own own' gc gc' ph ph' st su su' c q cx cx' fu fu' :
  local t own gc ph st su c q cx fu ->
  (forall n, own' n -> own n /\ gc' n = gc n /\ ph' n = ph n /\ su' !! n = su !! n /\ cx' !! n = cx !! n) ->
  (forall n, own n -> is_Some (cx !! n) -> own' n) ->
  fu ⊆ fu' -> local t own' gc' ph' st su' c q cx' fu'.
Proof.
  intros [H1 H2 H3] Hown Hback Hfu. constructor.
  - eapply thread_ok_ext; [|done]. intros n Hn.
    destruct (H2 n) as [Ho Hx]; [by left|]. by apply Hown, Hback.
  - intros n Hn. destruct (H2 n Hn) as [Ho Hx]. specialize (Hback n Ho Hx).
    split; [done|]. by destruct (Hown n Hback) as (_ & _ & _ & _ & ->).
  - intros n x Hn Hx. destruct (Hown n Hn) as (Ho & -> & -> & -> & Hc). rewrite Hc in Hx.
    by eapply context_ok_ext; [apply H3|..].
Qed.

(** Only the context [n] of the thread changes. *)
Lemma local_one t n own own' gc gc' ph ph' st st' su su' c c' q q' cx cx' fu fu' :
  local t own gc ph st su c q cx fu ->
  (forall m, m <> n -> (own' m <-> own m) /\ gc' m = gc m /\ ph' m = ph m /\ su' !! m = su !! m /\ cx' !! m = cx !! m) ->
  (forall m, m <> n -> (forall k, (m, k) ∈ st' <-> (m, k) ∈ st) /\ (m ∈ resumes q' <-> m ∈ resumes q) /\
     (m ∈ dones q' <-> m ∈ dones q) /\ (forall cb, joining c' m cb <-> joining c m cb)) ->
  fu ⊆ fu' -> thread_ok ph' st' c' q' ->
  (mentions st' c' q' n -> own' n /\ is_Some (cx' !! n)) ->
  (forall x, own' n -> cx' !! n = Some x -> context_ok t n (gc' n) st' (su' !! n) (joining c' n) q' fu' x (ph' n)) ->
  local t own' gc' ph' st' su' c' q' cx' fu'.
Proof.
  intros [H1 H2 H3] Hctx Hth Hfu Hok Hm Hn. constructor; [done|..].
  - intros m Hme. destruct (decide (m = n)) as [->|Hne]; [by apply Hm|].
    destruct (Hctx m Hne) as (-> & _ & _ & _ & ->). apply H2.
    destruct (Hth m Hne) as (Hst & Hr & Hd & Hdet). destruct Hme as [Hme|[?|[?|H]]].
    + left. apply list_elem_of_fmap in Hme as ([m' k] & -> & Hk). apply list_elem_of_fmap.
      exists (m', k). split; [done|]. by apply Hst.
    + right. left. by apply Hr.
    + right. right. left. by apply Hd.
    + right. right. right. destruct H as [cb Hd']. exists cb. by apply Hdet.
  - intros m x Ho Hx. destruct (decide (m = n)) as [->|Hne]; [by apply Hn|].
    destruct (Hctx m Hne) as (Ho' & -> & -> & -> & Hc). rewrite Hc in Hx. apply Ho' in Ho.
    destruct (Hth m Hne) as (Hst & Hr & Hd & Hdet). by eapply context_ok_ext; [apply H3|..].
Qed.

Context {laws : SwitchingLaws code S}.

Record uinv (s : ustate) (a : stacks code) (home : nat -> nat * action) (ph : nat -> phase) : Prop := {
  ui_rep : rep (sws s) a;
  ui_defined : undefined s = false;
  ui_local : forall t, local t (fun n => (home n).1 = t) (fun n => (home n).2) ph (stk a t) (susp a) (code_of s t) (queue s t)
    (ctxs s) (futs s);
  ui_fresh : forall n, (next_ctx s <= n)%nat -> ctxs s !! n = None;
}.

(** A step of thread [t] that changes its context [n] alone. *)
Lemma uinv_one t n s s' a a' home home' ph ph' :
  uinv s a home ph -> rep (sws s') a' -> undefined s' = false ->
  (forall m, m <> n -> home' m = home m /\ ph' m = ph m /\ susp a' !! m = susp a !! m /\
     ctxs s' !! m = ctxs s !! m) ->
  (home' n).1 = t -> (is_Some (ctxs s !! n) -> (home n).1 = t) ->
  (forall t', t' <> t -> stk a' t' = stk a t' /\ code_of s' t' = code_of s t' /\ queue s' t' = queue s t') ->
  (forall m, m <> n -> (forall k, (m, k) ∈ stk a' t <-> (m, k) ∈ stk a t) /\
     (m ∈ resumes (queue s' t) <-> m ∈ resumes (queue s t)) /\
     (m ∈ dones (queue s' t) <-> m ∈ dones (queue s t)) /\
     (forall cb, joining (code_of s' t) m cb <-> joining (code_of s t) m cb)) ->
  futs s ⊆ futs s' -> (next_ctx s <= next_ctx s')%nat -> (n < next_ctx s')%nat ->
  thread_ok ph' (stk a' t) (code_of s' t) (queue s' t) ->
  (mentions (stk a' t) (code_of s' t) (queue s' t) n -> is_Some (ctxs s' !! n)) ->
  (forall x, ctxs s' !! n = Some x ->
     context_ok t n (home' n).2 (stk a' t) (susp a' !! n) (joining (code_of s' t) n) (queue s' t) (futs s') x (ph' n)) ->
  uinv s' a' home' ph'.
Proof.
  intros [H1 H2 H3 H4] Hrep Hun Hm Hhn Hhome Ht Hme Hfu Hnx Hn Hok Hmn Hcn.
  constructor; [done|done| |].
  - intros t'. destruct (decide (t' = t)) as [->|Hne].
    + eapply (local_one t n); [apply H3|..]; try done.
      * intros m Hne. by destruct (Hm m Hne) as (-> & ? & ? & ?).
      * eauto.
      * eauto.
    + destruct (Ht t' Hne) as (-> & -> & ->). eapply local_ext; [apply H3|..]; [| |done].
      * intros m Hh. assert (m <> n) as Hmn' by (intros ->; congruence).
        destruct (Hm m Hmn') as (<- & ? & ? & ?). done.
      * intros m Hh Hx. assert (m <> n) as Hmn' by (intros ->; by rewrite Hhome in Hh).
        by destruct (Hm m Hmn') as (-> & ? & ? & ?).
  - intros m Hle. destruct (Hm m) as (_ & _ & _ & ->); [lia|]. apply H4. lia.
Qed.

Lemma uinv_ext s s' a home ph :
  uinv s a home ph -> sws s' = sws s -> undefined s' = undefined s -> ctxs s' = ctxs s ->
  next_ctx s' = next_ctx s -> futs s ⊆ futs s' -> (forall t, code_of s' t = code_of s t) ->
  (forall t, resumes (queue s' t) = resumes (queue s t) /\ dones (queue s' t) = dones (queue s t)) ->
  uinv s' a home ph.
Proof.
  intros [H1 H2 H3 H4] E1 E2 E3 E4 Hfu Hc Hq. constructor; [congruence..| |by rewrite E3, E4].
  intros t. rewrite Hc, E3. destruct (Hq t) as [Hr Hd]. destruct (H3 t) as [L1 L2 L3]. constructor.
  - unfold thread_ok. by rewrite Hr, Hd.
  - intros n. unfold mentions. rewrite Hr, Hd. apply L2.
  - intros n x Hn Hx. eapply context_ok_ext; [by apply L3|done|by rewrite Hr|by rewrite Hd|done|done].
Qed.

Lemma running_not_joining c m cb : running c -> ~ joining c m cb.
Proof. by intros Hr [k ->]. Qed.

(** The uthread that runs on a thread. *)
Lemma uinv_top s a home ph t :
  uinv s a home ph -> running (code_of s t) ->
  exists n k st x, stk a t = (n, k) :: st /\ get t (sws s) = Some n /\ (home n).1 = t /\
    ctxs s !! n = Some x /\ top_ok (ph n) n (code_of s t) /\ (n < next_ctx s)%nat /\ (n ∉ st.*1) /\
    context_ok t n (home n).2 (stk a t) (susp a !! n) (joining (code_of s t) n) (queue s t) (futs s) x (ph n).
Proof.
  intros H Hr. pose proof (ui_local _ _ _ _ H t) as Hloc.
  destruct (lc_thread _ _ _ _ _ _ _ _ _ _ Hloc) as (Hc & _). unfold code_ok in Hc.
  destruct (stk a t) as [|[n k] st] eqn:E.
  { destruct Hc as [Hc|[[d Hc]|(m & cb & d & Hc)]]; by rewrite Hc in Hr. }
  destruct (lc_mentions _ _ _ _ _ _ _ _ _ _ Hloc n) as [Hn [x Hx]]; [left; cbn; left|].
  exists n, k, st, x. split_and!; try done.
  - rewrite (rep_get _ a) by apply H. by rewrite E.
  - destruct (decide (n < next_ctx s)%nat); [done|].
    rewrite (ui_fresh _ _ _ _ H) in Hx by lia. done.
  - pose proof (so_nodup _ (rep_ok _ _ (ui_rep _ _ _ _ H)) t) as Hnd. rewrite E in Hnd.
    by apply NoDup_cons in Hnd as [? _].
  - by apply (lc_ctx _ _ _ _ _ _ _ _ _ _ Hloc).
Qed.

(** Its continuation does not change with its phase. *)
Lemma conts_ok_top ph n k st p :
  n ∉ st.*1 -> conts_ok ph ((n, k) :: st) -> conts_ok (<[n := p]> ph) ((n, k) :: st).
Proof.
  intros Hn [H1 H2].
  assert (Hp : forall m, m ∈ st.*1 -> <[n := p]> ph m = ph m).
  { intros m Hm. rewrite fn_lookup_insert_ne; [done|]. by intros ->. }
  split; [|by eapply conts_ok_ext].
  destruct st as [|[m k'] st]; [done|]. by rewrite Hp by (cbn; left).
Qed.

(** The uthread on top goes from a phase to another one. *)
Lemma uinv_advance s a home ph t n k st x x' p q c :
  uinv s a home ph -> stk a t = (n, k) :: st -> (home n).1 = t -> ctxs s !! n = Some x -> n ∉ st.*1 ->
  (n < next_ctx s)%nat -> running (code_of s t) -> running c ->
  callback x' = callback x -> top_ok p n c ->
  (q = queue s t \/ q = queue s t ++ [TDone n]) -> (NoDup (resumes q) /\ NoDup (dones q)) ->
  phase_ok n True (susp a !! n) x' p -> (n ∈ resumes q <-> awake p x') ->
  (n ∈ dones q <-> done_ x' = true /\ is_Some (callback x')) ->
  (forall f w, aw x' = Some (Waiting f w) -> w = t) ->
  (forall f v, aw x' = Some (Ready f v) -> futs s !! f = Some v) ->
  uinv (set_code t c (set_queue t q (set_ctx n x' s))) a home (<[n := p]> ph).
Proof.
  intros H Hst Hh Hx Hnst Hlt Hd Hd' Hcb Htop Hq Hnd Hphase Hr Hdn Hw Hv.
  pose proof (ui_local _ _ _ _ H t) as [(_ & Hconts & _) Hmen Hctx].
  specialize (Hctx n x Hh Hx) as [C1 C2 C3 C4 C5 C6 C7 C8 C9].
  assert (Hon : n ∈ (stk a t).*1) by (rewrite Hst; left).
  eapply (uinv_one t n); [done|..]; cbn; rewrite ?fn_lookup_insert; try done.
  - apply H.
  - apply H.
  - intros m Hm. by rewrite fn_lookup_insert_ne, lookup_insert_ne.
  - intros t' Ht. by rewrite !fn_lookup_insert_ne.
  - intros m Hm. split; [done|]. split; [|split].
    + destruct Hq as [->| ->]; [done|]. unfold resumes. rewrite omap_app. cbn. by rewrite app_nil_r.
    + destruct Hq as [->| ->]; [done|]. unfold dones. rewrite omap_app. cbn.
      rewrite elem_of_app, list_elem_of_singleton. tauto.
    + intros cb. split; intros Hm'; by apply running_not_joining in Hm'.
  - split_and!; [|rewrite Hst in *; by apply conts_ok_top|apply Hnd|apply Hnd].
    rewrite Hst. cbn. by rewrite fn_lookup_insert.
  - intros _. by rewrite lookup_insert_eq.
  - intros y. rewrite lookup_insert_eq. intros [= <-]. constructor; try done.
    + revert Hphase. destruct p; cbn; try done; intros Hp; intuition.
    + by rewrite Hcb.
    + intros cb Hj. by apply running_not_joining in Hj.
    + by right.
    + by rewrite Hcb.
Qed.

(** The code at the bottom of a call stack, that goes on when it is empty. *)
Fixpoint bottom (st : list (nat * code)) (c : code) : code :=
  match st with
  | [] => match c with Join _ _ k => k | _ => c end
  | (_, k) :: st => bottom st k
  end.

Definition closing_of (st : list (nat * code)) (c : code) : option action :=
  match bottom st c with EndTask d => Some d | _ => None end.

(** The state against the specification. *)
Definition proc (home : nat -> nat * action) (ph : nat -> phase) (s : ustate) (n : nat) : option aproc :=
  x ← ctxs s !! n; Some (AProcess (remaining (ph n)) (func_ x) (home n).2).

Record matches (a : stacks code) (home : nat -> nat * action) (ph : nat -> phase) (s : ustate) (A : aspec) :
    Prop := {
  ma_procs : forall n, procs A n = proc home ph s n;
  ma_pend : forall t, pend A t = starts (queue s t);
  ma_closing : forall t, closing A t = closing_of (stk a t) (code_of s t);
  ma_futs : a_futs A = futs s;
  ma_memory : a_memory A = memory s;
}.

Definition refines (s : ustate) (A : aspec) : Prop :=
  exists a home ph, uinv s a home ph /\ matches a home ph s A.

(** A step of the code is zero or one steps of the specification. *)
Definition simulated (s' : ustate) (A : aspec) : Prop :=
  exists A', rtc (fstep a_step) A A' /\ refines s' A'.

Lemma simulated_skip s' a home ph A : uinv s' a home ph -> matches a home ph s' A -> simulated s' A.
Proof. intros H Hm. exists A. split; [constructor|]. by exists a, home, ph. Qed.

Lemma simulated_step l s' a home ph A A' :
  a_step l A = Some A' -> uinv s' a home ph -> matches a home ph s' A' -> simulated s' A.
Proof.
  intros Hl H Hm. exists A'. split; [apply rtc_once; by exists l|]. by exists a, home, ph.
Qed.

Lemma matches_one n a a' home home' ph ph' s s' A A' :
  matches a home ph s A ->
  (forall m, m <> n -> home' m = home m /\ ph' m = ph m /\ ctxs s' !! m = ctxs s !! m) ->
  (forall m, m <> n -> procs A' m = procs A m) -> procs A' n = proc home' ph' s' n ->
  (forall t, pend A' t = starts (queue s' t)) ->
  (forall t, closing A' t = closing_of (stk a' t) (code_of s' t)) ->
  a_futs A' = futs s' -> a_memory A' = memory s' ->
  matches a' home' ph' s' A'.
Proof.
  intros [H1 H2 H3 H4 H5] Hm HA Hn ? ? ? ?. constructor; try done. intros m.
  destruct (decide (m = n)) as [->|Hne]; [done|]. rewrite HA, H1 by done. unfold proc.
  by destruct (Hm m Hne) as (-> & -> & ->).
Qed.

(** The bottom of the stack is not that of the code of a uthread. *)
Lemma closing_running a t n k st s c :
  stk a t = (n, k) :: st -> closing_of (stk a t) (code_of s t) = closing_of (stk a t) c.
Proof. intros E. unfold closing_of. by rewrite E. Qed.

Lemma closing_one a t n k st s c t' :
  stk a t = (n, k) :: st ->
  closing_of (stk a t') (<[t := c]> (code_of s) t') = closing_of (stk a t') (code_of s t').
Proof.
  intros E. rewrite fn_insert_case. case_decide; [subst|done]. symmetry. by eapply closing_running.
Qed.

Lemma starts_app q x : starts (q ++ [x]) = starts q ++ starts [x].
Proof. apply omap_app. Qed.
Lemma resumes_app q x : resumes (q ++ [x]) = resumes q ++ resumes [x].
Proof. apply omap_app. Qed.
Lemma dones_app q x : dones (q ++ [x]) = dones q ++ dones [x].
Proof. apply omap_app. Qed.

(** What a step of the function of the uthread [n] needs, and keeps. *)
Lemma running_exec t b s a home ph A :
  uinv s a home ph -> matches a home ph s A -> code_of s t = Exec b ->
  exists n k st x, stk a t = (n, k) :: st /\ get t (sws s) = Some n /\ (home n).1 = t /\
    ctxs s !! n = Some x /\ (n < next_ctx s)%nat /\ (n ∉ st.*1) /\ ph n = PRun b /\
    done_ x = false /\ aw x = None /\ (n ∉ resumes (queue s t)) /\ (n ∉ dones (queue s t)) /\
    (callback x = None \/ callback x = Some (t, (home n).2)) /\
    procs A n = Some (AProcess (Some b) (func_ x) (home n).2) /\
    NoDup (resumes (queue s t)) /\ NoDup (dones (queue s t)).
Proof.
  intros H Hm Hc.
  destruct (uinv_top s a home ph t H) as (n & k & st & x & Hst & Hg & Hh & Hx & Htop & Hlt & Hnst & Hok);
    [by rewrite Hc|].
  rewrite Hc in Htop.
  assert (Hp : ph n = PRun b).
  { destruct (ph n); cbn in Htop; try done; destruct Htop as [[= ->]|(? & ? & ?)]; done. }
  destruct Hok as [C1 C2 C3 _ _ _ C7 _ _]. rewrite Hp in C1, C2. cbn in C1, C2. destruct C1 as (_ & Cd & Ca).
  exists n, k, st, x. split_and!; try done.
  - tauto.
  - rewrite C3, Cd. by intros [? _].
  - rewrite (ma_procs _ _ _ _ _ Hm). unfold proc. rewrite Hx. cbn. by rewrite Hp.
  - by pose proof (ui_local _ _ _ _ H t) as [(_ & _ & ? & _) _ _].
  - by pose proof (ui_local _ _ _ _ H t) as [(_ & _ & _ & ?) _ _].
Qed.

(** The invariant when the function goes on. *)
Lemma uinv_run t n k st x b b' s a home ph :
  uinv s a home ph -> code_of s t = Exec b -> stk a t = (n, k) :: st -> (home n).1 = t ->
  ctxs s !! n = Some x -> (n < next_ctx s)%nat -> (n ∉ st.*1) -> done_ x = false -> aw x = None ->
  n ∉ resumes (queue s t) -> n ∉ dones (queue s t) ->
  uinv (set_code t (Exec b') (set_queue t (queue s t) (set_ctx n x s))) a home (<[n := PRun b']> ph).
Proof.
  intros H Hc Hst Hh Hx Hlt Hnst Hd Ha Hr Hdn.
  pose proof (ui_local _ _ _ _ H t) as [(_ & _ & ? & ?) _ _].
  eapply (uinv_advance s a home ph t n k st x x); try done.
  - by rewrite Hc.
  - by left.
  - by left.
  - split; [done|]. rewrite Hd. by intros [? _].
  - by rewrite Ha.
  - by rewrite Ha.
Qed.

(** A step of the function of a uthread: the specification's is the same one. *)
Lemma sim_run t b b' s s' a home ph A l :
  uinv s a home ph -> matches a home ph s A -> code_of s t = Exec b ->
  sws s' = sws s -> undefined s' = undefined s -> ctxs s' = ctxs s -> next_ctx s' = next_ctx s ->
  futs s ⊆ futs s' -> (forall t', code_of s' t' = <[t := Exec b']> (code_of s) t') ->
  (forall t, resumes (queue s' t) = resumes (queue s t) /\ dones (queue s' t) = dones (queue s t)) ->
  (forall n x, procs A n = Some x -> rest x = Some b -> exists pd, (forall t, pd t = starts (queue s' t)) /\
     a_step (l n) A = Some (ASpec (<[n := Some (AProcess (Some b') (captured x) (joined x))]> (procs A)) pd
       (closing A) (futs s') (memory s'))) ->
  simulated s' A.
Proof.
  intros H Hm Hc E1 E2 E3 E4 Hfu E5 E6 Hl.
  destruct (running_exec t b s a home ph A H Hm Hc)
    as (n & k & st & x & Hst & _ & Hh & Hx & Hlt & Hnst & Hp & Hd & Ha & Hr & Hdn & _ & HA & _).
  destruct (Hl n _ HA eq_refl) as (pd & Hpd & Hs).
  pose proof (uinv_run t n k st x b b' s a home ph H Hc Hst Hh Hx Hlt Hnst Hd Ha Hr Hdn) as Hu.
  eapply simulated_step; [exact Hs| |].
  - eapply uinv_ext; [exact Hu|..]; cbn; try done; [by rewrite insert_id|].
    intros t'. rewrite fn_insert_case. case_decide; [subst|]; apply E6.
  - eapply (matches_one n); [exact Hm|..]; cbn; try done.
    + intros m Hne. by rewrite fn_lookup_insert_ne, E3.
    + intros m Hne. by rewrite fn_lookup_insert_ne.
    + rewrite fn_lookup_insert. unfold proc. rewrite E3, Hx. cbn. by rewrite fn_lookup_insert.
    + intros t'. rewrite E5, (closing_one a t n k st) by done. apply Hm.
Qed.

Lemma not_in_entry (n : nat) (st : list (nat * code)) k : n ∉ st.*1 -> (n, k) ∉ st.
Proof. intros Hn Hk. apply Hn, list_elem_of_fmap. by exists (n, k). Qed.

(** The context on top is left, and the code below it goes on. *)
Lemma uinv_pop s a home ph t n k st x p w su :
  uinv s a home ph -> stk a t = (n, k) :: st -> (home n).1 = t -> ctxs s !! n = Some x -> n ∉ st.*1 ->
  (n < next_ctx s)%nat -> running (code_of s t) ->
  rep w (Stacks (<[t := st]> (stk a)) su) -> (forall m, m <> n -> su !! m = susp a !! m) ->
  phase_ok n False (su !! n) x p -> (awake p x <-> awake (ph n) x) ->
  uinv (switched t (Some (k, w)) s) (Stacks (<[t := st]> (stk a)) su) home (<[n := p]> ph).
Proof.
  intros H Hst Hh Hx Hnst Hlt Hd Hrep Hsu Hphase Haw.
  pose proof (ui_local _ _ _ _ H t) as [(Hc & Hconts & Hnd) Hmen Hctx].
  specialize (Hctx n x Hh Hx) as [C1 C2 C3 C4 C5 C6 C7 C8 C9].
  rewrite Hst in Hconts, C4. destruct Hconts as [Hk Hconts].
  assert (Hk' : k = Loop \/ exists cb c, k = Join n cb c).
  { destruct st as [|[m k'] st]; [destruct Hk as [->|(cb & d & ->)]; eauto|]. destruct Hk as (b & cb & _ & ->). eauto. }
  eapply (uinv_one t n); [done|..]; cbn; rewrite ?fn_lookup_insert; try done.
  - apply H.
  - intros m Hm. by rewrite fn_lookup_insert_ne, Hsu.
  - intros t' Ht. by rewrite !fn_lookup_insert_ne.
  - intros m Hm. split_and!; try done.
    + intros k'. rewrite Hst, elem_of_cons. split; [by right|]. intros [[= ??]|?]; done.
    + intros cb. split; [|by intros ?%running_not_joining]. intros [c Ec].
      destruct Hk' as [->|(cb' & c' & ->)]; congruence.
  - split_and!; try apply Hnd.
    + destruct st as [|[m k'] st]; [destruct Hk as [->|(cb & d & ->)]; cbn; eauto 10|].
      destruct Hk as (b & cb & Hb & ->). cbn. rewrite fn_lookup_insert_ne, Hb; [cbn; eauto|].
      intros ->. apply Hnst. left.
    + eapply conts_ok_ext; [|done]. intros m Hm. rewrite fn_lookup_insert_ne; [done|]. by intros ->.
  - intros y Hy. replace y with x in * by congruence. clear Hy. constructor; try done.
    + revert Hphase. destruct p; cbn; try done; intros Hp; intuition.
    + by rewrite C2.
    + intros k' Hk''. by destruct (not_in_entry n st k').
    + intros cb [c Ec]. destruct (C4 k) as [[-> _]|(c' & -> & ?)]; [left|done|]. by injection Ec as ->.
    + intros Hcb. left. destruct (C4 k) as [[_ ?]|(c' & -> & _)]; [left|congruence|]. exists (home n).2. by eexists.
Qed.

Lemma closing_pop (a : stacks code) t n k st su (co : nat -> code) t' :
  stk a t = (n, k) :: st ->
  closing_of (stk a t') (co t') =
  closing_of (stk (Stacks (<[t := st]> (stk a)) su) t') (<[t := k]> co t').
Proof.
  intros E. cbn. rewrite !fn_insert_case. case_decide; [subst|done]. unfold closing_of. by rewrite E.
Qed.

(** A context is put on top; what goes on when it is left. *)
Definition entry_ok (t n : nat) (g : action) (x : thread_context) (c k : code) : Prop :=
  (k = Loop /\ c = Loop /\ callback x = Some (t, g)) \/
  (exists d, k = Join n g (EndTask d) /\ c = Loop /\ callback x = None) \/
  (exists b, k = Join n g (Exec b) /\ c = Exec b /\ callback x = None).

Lemma uinv_push s a home ph t n g k su x p q c w nx :
  uinv s a home ph -> entry_ok t n g x (code_of s t) k ->
  rep w (Stacks (<[t := (n, k) :: stk a t]> (stk a)) su) -> (forall m, m <> n -> su !! m = susp a !! m) ->
  n ∉ (stk a t).*1 -> (is_Some (ctxs s !! n) -> (home n).1 = t) -> (next_ctx s <= nx)%nat -> (n < nx)%nat ->
  top_ok p n c -> running c ->
  (forall m, m <> n -> (m ∈ resumes q <-> m ∈ resumes (queue s t)) /\ (m ∈ dones q <-> m ∈ dones (queue s t))) ->
  NoDup (resumes q) -> NoDup (dones q) -> n ∉ resumes q -> n ∉ dones q ->
  done_ x = false -> phase_ok n True (su !! n) x p -> ~ awake p x ->
  (forall f w, aw x = Some (Waiting f w) -> w = t) ->
  (forall f v, aw x = Some (Ready f v) -> futs s !! f = Some v) ->
  uinv (UState w (<[t := c]> (code_of s)) (<[t := q]> (queue s)) (<[n := x]> (ctxs s)) (futs s) (memory s) nx
          (undefined s))
    (Stacks (<[t := (n, k) :: stk a t]> (stk a)) su) (<[n := (t, g)]> home) (<[n := p]> ph).
Proof.
  intros H Hk Hrep Hsu Hn Hh Hnx Hlt Htop Hd Hq Hnr Hnd Hr Hdn Hdone Hphase Haw Hw Hv.
  pose proof (ui_local _ _ _ _ H t) as [(Hc & Hconts & _) _ _].
  assert (Hj : forall m cb, ~ joining (code_of s t) m cb).
  { intros m cb [c' Ec]. destruct Hk as [(_ & E & _)|[(d & _ & E & _)|(b & _ & E & _)]]; congruence. }
  assert (Hph : forall m, m ∈ (stk a t).*1 -> <[n := p]> ph m = ph m).
  { intros m Hm. rewrite fn_lookup_insert_ne; [done|]. by intros ->. }
  eapply (uinv_one t n); [done|..]; cbn; rewrite ?fn_lookup_insert; try done.
  - apply H.
  - intros m Hm. by rewrite !fn_lookup_insert_ne, Hsu, lookup_insert_ne.
  - intros t' Ht. by rewrite !fn_lookup_insert_ne.
  - intros m Hm. split_and!; [|apply Hq; done..|].
    + intros k'. rewrite elem_of_cons. split; [|by right]. intros [[= ??]|?]; done.
    + intros cb. split; [by intros ?%running_not_joining|by intros ?%Hj].
  - split_and!; try done; [cbn; by rewrite fn_lookup_insert|]. cbn. split; [|by eapply conts_ok_ext].
    unfold code_ok in Hc. destruct (stk a t) as [|[m k'] st].
    + destruct Hk as [(-> & _ & _)|[(d & -> & _)|(b & _ & E & _)]]; [by left|by right; eauto|].
      rewrite E in Hc. naive_solver.
    + rewrite Hph by (cbn; left). destruct Hk as [(_ & E & _)|[(d & _ & E & _)|(b & -> & E & _)]];
        rewrite E in Hc; destruct (ph m); cbn in Hc; naive_solver.
  - intros _. by rewrite lookup_insert_eq.
  - intros y. rewrite lookup_insert_eq. intros [= <-]. constructor; try done.
    + revert Hphase. destruct p; cbn; try done; rewrite elem_of_cons; intros Hp; intuition.
    + split; [done|]. rewrite Hdone. by intros [? _].
    + intros k'. rewrite elem_of_cons. intros [[= ->]|Hk']; [|by destruct (not_in_entry n _ _ Hn Hk')].
      destruct Hk as [(-> & _ & ?)|[(d & -> & _ & ?)|(b & -> & _ & ?)]]; eauto.
    + by intros cb ?%running_not_joining.
    + intros _. right. cbn. left.
    + destruct Hk as [(_ & _ & ?)|[(d & _ & _ & ?)|(b & _ & _ & ?)]]; auto.
Qed.

Lemma closing_push (a : stacks code) t n g x k su (co : nat -> code) c t' :
  entry_ok t n g x (co t) k -> (forall d, k <> Join n g (EndTask d)) -> (co t = Loop -> stk a t = []) ->
  closing_of (stk (Stacks (<[t := (n, k) :: stk a t]> (stk a)) su) t') (<[t := c]> co t') =
  closing_of (stk a t') (co t').
Proof.
  intros Hk Hd Hl. cbn. rewrite !fn_insert_case. case_decide; [subst|done]. unfold closing_of. cbn.
  destruct Hk as [(-> & E & _)|[(d & -> & _)|(b & -> & E & _)]]; [|by destruct (Hd d)|].
  - rewrite (Hl E), E. done.
  - rewrite E. by destruct (stk a t) as [|[m k] st].
Qed.

(** ** The steps of a uthread *)

Lemma sim_await t f k s a home ph A :
  uinv s a home ph -> matches a home ph s A -> code_of s t = Exec (Await f k) -> simulated (await t f k s) A.
Proof.
  intros H Hm Hc. unfold await. destruct (futs s !! f) as [v|] eqn:Hf.
  - eapply (sim_run t _ (k v) s _ a home ph A (fun n => AProc n 0 0)); try done.
    intros n x Hn Hb. exists (pend A). split; [apply Hm|]. cbn. rewrite Hn. cbn. rewrite Hb. cbn.
    rewrite (ma_futs _ _ _ _ _ Hm), Hf. cbn. by rewrite <- (ma_futs _ _ _ _ _ Hm), <- (ma_memory _ _ _ _ _ Hm).
  - destruct (running_exec t _ s a home ph A H Hm Hc)
      as (n & k0 & st & x & Hst & -> & Hh & Hx & Hlt & Hnst & Hp & Hd & Ha & Hr & Hdn & _ & HA & Hnr & Hnd).
    rewrite Hx. eapply simulated_skip.
    + eapply uinv_ext; [eapply (uinv_advance s a home ph t n k0 st x
          (Ctx (done_ x) (callback x) (Some (Waiting f t)) (func_ x)) (PWait f k) (queue s t)
          (AwaitSwitch n k)); try done|..]; cbn; try done.
      * by rewrite Hc.
      * by left.
      * cbn. split_and!; try done. left. by eexists.
      * split; [done|]. by intros [v [=]].
      * split; [done|]. rewrite Hd. by intros [? _].
      * by intros f' w [= _ <-].
      * intros t'. rewrite fn_insert_case. by case_decide; subst.
    + eapply (matches_one n); [exact Hm|..]; try done; try apply Hm.
      * intros m Hne. cbn. by rewrite fn_lookup_insert_ne, lookup_insert_ne.
      * rewrite HA. unfold proc. cbn. by rewrite lookup_insert_eq, fn_lookup_insert.
      * intros t'. cbn. rewrite (closing_one a t n k0 st) by done. apply Hm.
Qed.

Lemma sim_switch_out t n k s a home ph A :
  uinv s a home ph -> matches a home ph s A -> code_of s t = AwaitSwitch n k ->
  simulated (switched t (switch_out t n (AwaitLoop n k) (sws s)) s) A.
Proof.
  intros H Hm Hc.
  destruct (uinv_top s a home ph t H) as (n' & k0 & st & x & Hst & _ & Hh & Hx & Htop & Hlt & Hnst & Hok);
    [by rewrite Hc|].
  rewrite Hc in Htop.
  assert (n' = n /\ exists f, ph n = PWait f k) as [-> [f Hp]].
  { destruct (ph n') eqn:E; cbn in Htop; try done; try by (destruct Htop as [?|(?&?&?)]; done).
    injection Htop as -> ->. eauto. }
  destruct Hok as [C1 C2 _ _ _ _ _ _ _]. rewrite Hp in C1. cbn in C1. destruct C1 as (_ & Cd & Ca).
  destruct (rep_switch_out _ _ t n (AwaitLoop n k) k0
    (Stacks (<[t := st]> (stk a)) (<[n := AwaitLoop n k]> (susp a))) st (ui_rep _ _ _ _ H) Hst) as (w & -> & Hrep).
  { unfold a_switch_out. by rewrite Hst. }
  eapply simulated_skip.
  - eapply (uinv_pop s a home ph t n k0 st x (PSusp f k)); try done.
    + by rewrite Hc.
    + intros m Hne. by rewrite lookup_insert_ne.
    + rewrite lookup_insert_eq. cbn. tauto.
    + by rewrite Hp.
  - eapply (matches_one n); [exact Hm|..]; try done; try apply Hm.
    + intros m Hne. by rewrite fn_lookup_insert_ne.
    + rewrite (ma_procs _ _ _ _ _ Hm). unfold proc. cbn. by rewrite Hx, fn_lookup_insert, Hp.
    + intros t'. rewrite (ma_closing _ _ _ _ _ Hm). by apply (closing_pop a t n).
Qed.

(** The loop of [await] goes round once: the future has its result. *)
Lemma sim_await_loop t n k s a home ph A :
  uinv s a home ph -> matches a home ph s A -> code_of s t = AwaitLoop n k -> simulated (await_loop t n k s) A.
Proof.
  intros H Hm Hc.
  destruct (uinv_top s a home ph t H) as (n' & k0 & st & x & Hst & _ & Hh & Hx & Htop & Hlt & Hnst & Hok);
    [by rewrite Hc|].
  rewrite Hc in Htop.
  assert (n' = n /\ exists f, ph n = PResumed f k) as [-> [f Hp]].
  { destruct (ph n') eqn:E; cbn in Htop; try done; try by (destruct Htop as [?|(?&?&?)]; done).
    injection Htop as -> ->. eauto. }
  destruct Hok as [C1 C2 C3 _ _ _ _ C8 C9]. rewrite Hp in C1, C2. cbn in C1, C2.
  destruct C1 as (_ & Cd & [v Ca]). unfold await_loop. rewrite Hx, Ca. specialize (C9 _ _ Ca).
  set (A' := set_proc n (Some (AProcess (Some (k v)) (func_ x) (home n).2)) A).
  eapply (simulated_step (AProc n 0 0) _ _ _ _ A A'); cycle 1.
  - eapply uinv_ext; [eapply (uinv_advance s a home ph t n k0 st x
        (Ctx (done_ x) (callback x) None (func_ x)) (PRun (k v)) (queue s t) (Exec (k v))); try done|..];
      cbn; try done.
    + by rewrite Hc.
    + by left.
    + by left.
    + by pose proof (ui_local _ _ _ _ H t) as [(_ & _ & ?) _ _].
    + intros t'. rewrite fn_insert_case. by case_decide; subst.
  - eapply (matches_one n); [exact Hm|..]; try done; try apply Hm.
    + intros m Hne. cbn. by rewrite fn_lookup_insert_ne, lookup_insert_ne.
    + intros m Hne. cbn. by rewrite fn_lookup_insert_ne.
    + unfold proc. cbn. by rewrite lookup_insert_eq, !fn_lookup_insert.
    + intros t'. cbn. rewrite (closing_one a t n k0 st) by done. apply Hm.
  - cbn. rewrite (ma_procs _ _ _ _ _ Hm). unfold proc. rewrite Hx. cbn. rewrite Hp. cbn.
    by rewrite (ma_futs _ _ _ _ _ Hm), C9.
Qed.

Lemma sim_finish t r s a home ph A :
  uinv s a home ph -> matches a home ph s A -> code_of s t = Exec (End r) -> simulated (finish t s) A.
Proof.
  intros H Hm Hc.
  destruct (running_exec t _ s a home ph A H Hm Hc)
    as (n & k & st & x & Hst & Hget & Hh & Hx & Hlt & Hnst & Hp & Hd & Ha & Hr & Hnot & C7 & HA & Hnr & Hnd).
  unfold finish. rewrite Hget, Hx.
  set (q := match callback x with Some _ => queue s t ++ [TDone n] | None => queue s t end).
  assert (Eq : resumes q = resumes (queue s t) /\ starts q = starts (queue s t)).
  { subst q. destruct (callback x); [|done]. rewrite resumes_app, starts_app. cbn. by rewrite !app_nil_r. }
  set (s' := set_code t (Final n) (set_queue t q (set_ctx n (Ctx true (callback x) (aw x) (func_ x)) s))).
  set (A' := set_proc n (Some (AProcess None (func_ x) (home n).2)) A).
  assert (Hu : uinv s' a home (<[n := PFinal]> ph)).
  { destruct Eq as [Er _]. eapply (uinv_advance s a home ph t n k st x); try done.
    - by rewrite Hc.
    - subst q. destruct (callback x); auto.
    - rewrite Er. split; [done|]. subst q. destruct (callback x); [|done]. rewrite dones_app. cbn.
      apply NoDup_app. split; [done|]. split; [|apply NoDup_singleton].
      intros m Hm' ->%list_elem_of_singleton. done.
    - rewrite Er. cbn. tauto.
    - subst q. cbn. destruct (callback x) as [w|]; [|split; [done|by intros [_ [? [=]]]]].
      rewrite dones_app, elem_of_app. cbn. split; [by eauto|]. intros _. right. left.
    - cbn. by rewrite Ha.
    - cbn. by rewrite Ha. }
  assert (Hm' : matches a home (<[n := PFinal]> ph) s' A').
  { eapply (matches_one n); [exact Hm|..]; try done; try apply Hm.
    - intros m Hne. cbn. by rewrite fn_lookup_insert_ne, lookup_insert_ne.
    - intros m Hne. cbn. by rewrite fn_lookup_insert_ne.
    - unfold proc. cbn. by rewrite lookup_insert_eq, !fn_lookup_insert.
    - intros t'. cbn. rewrite (ma_pend _ _ _ _ _ Hm), fn_insert_case. case_decide; [subst t'|done].
      symmetry. apply Eq.
    - intros t'. cbn. rewrite (closing_one a t n k st) by done. apply Hm. }
  assert (Hs : a_step (AProc n 0 0) A = Some A') by (cbn; by rewrite HA).
  destruct C7 as [E|E]; subst s' q; rewrite E in *.
  - eapply simulated_step; [exact Hs| |].
    + eapply uinv_ext; [exact Hu|..]; cbn; try done. intros t'. rewrite fn_insert_case. by case_decide; subst.
    + destruct Hm' as [M1 M2 M3 M4 M5]. constructor; try done. intros t'. rewrite M2. cbn.
      rewrite fn_insert_case. by case_decide; subst.
  - eapply simulated_step; [exact Hs|exact Hu|exact Hm'].
Qed.

Lemma sim_final t n s a home ph A :
  uinv s a home ph -> matches a home ph s A -> code_of s t = Final n ->
  simulated (switched t (final_switch_out t n (sws s)) s) A.
Proof.
  intros H Hm Hc.
  destruct (uinv_top s a home ph t H) as (n' & k0 & st & x & Hst & _ & Hh & Hx & Htop & Hlt & Hnst & Hok);
    [by rewrite Hc|].
  rewrite Hc in Htop.
  assert (n' = n /\ ph n = PFinal) as [-> Hp].
  { destruct (ph n') eqn:E; cbn in Htop; try done; try by (destruct Htop as [?|(?&?&?)]; done).
    injection Htop as ->. eauto. }
  destruct Hok as [C1 C2 _ _ _ _ _ _ _]. rewrite Hp in C1. cbn in C1. destruct C1 as (_ & Cd & Ca).
  destruct (rep_final _ _ t n k0 (Stacks (<[t := st]> (stk a)) (susp a)) st (ui_rep _ _ _ _ H) Hst)
    as (w & -> & Hrep).
  { unfold a_final_switch_out. by rewrite Hst. }
  eapply simulated_skip.
  - eapply (uinv_pop s a home ph t n k0 st x PDone); try done.
    + by rewrite Hc.
    + cbn. tauto.
    + by rewrite Hp.
  - eapply (matches_one n); [exact Hm|..]; try done; try apply Hm.
    + intros m Hne. by rewrite fn_lookup_insert_ne.
    + rewrite (ma_procs _ _ _ _ _ Hm). unfold proc. cbn. by rewrite Hx, fn_lookup_insert, Hp.
    + intros t'. rewrite (ma_closing _ _ _ _ _ Hm). by apply (closing_pop a t n).
Qed.

(** A new uthread is switched in when it is made. *)
Lemma uinv_start t b o cb c s a home ph :
  uinv s a home ph ->
  (code_of s t = Loop /\ exists d, c = EndTask d) \/ (exists k, c = Exec k /\ code_of s t = Exec k) ->
  exists w su, let n := next_ctx s in
    let s' := UState w (<[t := Exec b]> (code_of s)) (queue s) (<[n := Ctx false None None (drop o)]> (ctxs s))
      (futs s) (memory s) (Datatypes.S n) (undefined s) in
    start_uthread t b o cb c s = s' /\
    uinv s' (Stacks (<[t := (n, Join n cb c) :: stk a t]> (stk a)) su) (<[n := (t, cb)]> home)
      (<[n := PRun b]> ph).
Proof.
  intros H Hc. set (n := next_ctx s). set (x := Ctx false None None (drop o)).
  assert (Hx : ctxs s !! n = None) by (apply (ui_fresh _ _ _ _ H); done).
  assert (Hmen : forall t', mentions (stk a t') (code_of s t') (queue s t') n -> False).
  { intros t' Hm. destruct (lc_mentions _ _ _ _ _ _ _ _ _ _ (ui_local _ _ _ _ H t') n Hm) as [_ [x' Hx']].
    congruence. }
  assert (Hn : forall t', n ∉ (stk a t').*1) by (intros t' Ht'; apply (Hmen t'); by left).
  pose proof (rep_setup _ _ n (Exec b) (ui_rep _ _ _ _ H) Hn) as Hrep1.
  set (su := delete n (<[n := Exec b]> (susp a))).
  destruct (rep_switch_in _ _ t n (Join n cb c) (Exec b)
              (Stacks (<[t := (n, Join n cb c) :: stk a t]> (stk a)) su) Hrep1) as (w & Hw & Hrep).
  { unfold a_switch_in, a_setup. cbn. by rewrite lookup_insert_eq. }
  exists w, su. split.
  { unfold start_uthread. cbn [sws]. fold n. by rewrite Hw. }
  pose proof (ui_local _ _ _ _ H t) as [(_ & _ & Hnr & Hnd) _ _].
  eapply uinv_ext; [eapply (uinv_push s a home ph t n cb (Join n cb c) su x (PRun b)
      (queue s t) (Exec b) w (Datatypes.S n)); try done|..]; cbn; try done.
  - destruct Hc as [[? [d ->]]|[k [-> ?]]]; [right; left|right; right]; eauto.
  - intros m Hm. unfold su. by rewrite lookup_delete_ne, lookup_insert_ne.
  - rewrite Hx. by intros [? ?].
  - subst n. lia.
  - subst n. lia.
  - by left.
  - intros Hr. apply (Hmen t). right. by left.
  - intros Hr. apply (Hmen t). right. right. by left.
  - tauto.
  - intros t'. rewrite fn_insert_case. by case_decide; subst.
Qed.

Lemma proc_fresh s a home ph A : uinv s a home ph -> matches a home ph s A -> procs A (next_ctx s) = None.
Proof.
  intros H Hm. rewrite (ma_procs _ _ _ _ _ Hm). unfold proc. by rewrite (ui_fresh _ _ _ _ H).
Qed.

Lemma sim_current t b o k s a home ph A :
  uinv s a home ph -> matches a home ph s A -> code_of s t = Exec (Current b o k) ->
  simulated (start_uthread t b o no_callback (Exec k) s) A.
Proof.
  intros H Hm Hc.
  destruct (running_exec t _ s a home ph A H Hm Hc)
    as (n & k0 & st & x & Hst & _ & Hh & Hx & Hlt & Hnst & Hp & Hd & Ha & Hr & Hdn & _ & HA & _).
  pose proof (uinv_run t n k0 st x _ k s a home ph H Hc Hst Hh Hx Hlt Hnst Hd Ha Hr Hdn) as Hu.
  destruct (uinv_start t b o no_callback (Exec k) _ _ _ _ Hu) as (w & su & Es & Hu');
    [right; exists k; cbn; by rewrite fn_lookup_insert|].
  pose proof (proc_fresh _ _ _ _ _ H Hm) as Hfr.
  set (m := next_ctx s) in *. cbn [next_ctx set_code set_queue set_ctx] in Hu'. fold m in Hu'.
  assert (Hmn : m <> n) by (subst m; lia).
  unfold start_uthread in Es. cbn in Es. fold m in Es. unfold start_uthread. cbn. fold m.
  destruct (switch_in t m _ _) as [[c' w']|]; [|exfalso].
  2: { apply (f_equal undefined) in Es. cbn in Es. by rewrite (ui_defined _ _ _ _ H) in Es. }
  injection Es as -> Ec.
  apply (f_equal (fun g => g t)) in Ec. rewrite !fn_lookup_insert in Ec. subst c'.
  set (A' := set_proc m (Some (AProcess (Some b) (drop o) no_callback))
    (set_proc n (Some (AProcess (Some k) (func_ x) (home n).2)) A)).
  eapply (simulated_step (AProc n 0 m) _ _ _ _ A A'); cycle 1.
  - eapply uinv_ext; [exact Hu'|..]; cbn; rewrite ?(insert_id _ _ _ Hx); try done.
    + intros t'. cbn. rewrite !fn_insert_case. by case_decide.
    + intros t'. cbn. rewrite !fn_insert_case. case_decide; [by subst|done].
  - destruct Hm as [M1 M2 M3 M4 M5]. constructor; cbn; try done.
    + intros i. unfold proc. cbn.
      destruct (decide (i = m)) as [->|Hi]; [by rewrite lookup_insert_eq, !fn_lookup_insert|].
      rewrite lookup_insert_ne, !(fn_lookup_insert_ne _ m i) by done.
      destruct (decide (i = n)) as [->|Hi']; [by rewrite !fn_lookup_insert, Hx|].
      rewrite !fn_lookup_insert_ne by done. apply M1.
    + intros t'. rewrite M3, <- (closing_one a t n k0 st s (Exec k) t') by done.
      rewrite <- (closing_push a t m no_callback (Ctx false None None (drop o)) (Join m no_callback (Exec k)) su
        (<[t := Exec k]> (code_of s)) (Exec b) t').
      * cbn. rewrite !fn_insert_case. by case_decide.
      * right. right. exists k. by rewrite fn_lookup_insert.
      * done.
      * by rewrite fn_lookup_insert.
  - cbn. rewrite HA. cbn. by rewrite Hfr.
Qed.

Lemma act_eq a s :
  act a s = UState (sws s) (code_of s) (queue s) (ctxs s) (settle (a (memory s)).2 (futs s)) (a (memory s)).1
    (next_ctx s) (undefined s).
Proof. unfold act. by destruct (a (memory s)). Qed.
Lemma a_act_eq a A :
  a_act a A = ASpec (procs A) (pend A) (closing A) (settle (a (a_memory A)).2 (a_futs A)) (a (a_memory A)).1.
Proof. unfold a_act. by destruct (a (a_memory A)). Qed.

Lemma settle_other r f fu : (forall v, r <> Some (f, v)) -> settle r fu !! f = fu !! f.
Proof.
  intros Hf. destruct r as [[g v]|]; [|done]. cbn. destruct (fu !! g); [done|].
  apply lookup_insert_ne. intros ->. by destruct (Hf v).
Qed.

Lemma settle_subseteq r fu : fu ⊆ settle r fu.
Proof.
  destruct r as [[f v]|]; [|done]. cbn. destruct (fu !! f) eqn:E; [done|]. by apply insert_subseteq.
Qed.

(** A uthread is destroyed after its last switch: by [join], or with the
    continuation that owns it. *)
Lemma sim_destroy t n c q s a home ph A x :
  uinv s a home ph -> matches a home ph s A -> (home n).1 = t -> ctxs s !! n = Some x -> done_ x = true ->
  n ∉ (stk a t).*1 -> code_ok ph (stk a t) c -> (forall m cb, ~ joining c m cb) ->
  (forall m cb, joining (code_of s t) m cb -> m = n) -> closing_of (stk a t) c = closing_of (stk a t) (code_of s t) ->
  (forall m, m <> n -> m ∈ dones q <-> m ∈ dones (queue s t)) -> resumes q = resumes (queue s t) ->
  NoDup (dones q) -> n ∉ dones q -> starts q = starts (queue s t) ->
  simulated (set_code t c (set_queue t q (destroy_uthread n (act (home n).2 s)))) A.
Proof.
  intros H Hm Hh Hx Hd Hn Hc Hdc Hdet Hcl Hq Hr Hnd Hnq Hs.
  pose proof (ui_local _ _ _ _ H t) as [(_ & Hconts & Hnr & _) Hmen Hctx].
  destruct (Hctx n x Hh Hx) as [C1 C2 _ _ _ _ _ _ _].
  assert (Hp : ph n = PFinal \/ ph n = PDone).
  { destruct (ph n); cbn in C1; auto; destruct_and?; congruence. }
  assert (Hlt : (n < next_ctx s)%nat).
  { destruct (decide (n < next_ctx s)%nat); [done|]. by rewrite (ui_fresh _ _ _ _ H) in Hx by lia. }
  assert (Hall : forall t', n ∉ (stk a t').*1).
  { intros t' Ht'. destruct (decide (t' = t)) as [->|Hne]; [done|].
    destruct (lc_mentions _ _ _ _ _ _ _ _ _ _ (ui_local _ _ _ _ H t') n) as [E _]; [by left|]. congruence. }
  assert (Hnres : n ∉ resumes (queue s t)) by (intros Hin%C2; by destruct Hp as [E|E]; rewrite E in Hin).
  unfold destroy_uthread. rewrite (act_eq (home n).2). cbn [ctxs]. rewrite Hx, act_eq.
  eapply (simulated_step (AProc n 0 0) _ (a_destroy n a) home ph A
    (a_act (func_ x) (a_act (home n).2 (set_proc n None A)))).
  - cbn. rewrite (ma_procs _ _ _ _ _ Hm). unfold proc. rewrite Hx. cbn. by destruct Hp as [->| ->].
  - eapply (uinv_one t n); [done|..]; cbn -[resumes dones settle]; rewrite ?fn_lookup_insert; try done.
    + by apply rep_destroy; [apply H|].
    + apply H.
    + intros m Hne. by rewrite !lookup_delete_ne.
    + intros t' Ht. by rewrite !fn_lookup_insert_ne.
    + intros m Hne. split_and!; try done; [by rewrite Hr|by apply Hq|].
      intros cb. split; [by intros ?%Hdc|by intros ?%Hdet].
    + etrans; apply settle_subseteq.
    + unfold thread_ok. by rewrite Hr.
    + intros [Hme|[Hme|[Hme|[cb Hme]]]]; [by destruct Hn|rewrite Hr in Hme; done|done|by apply Hdc in Hme].
    + intros y. by rewrite lookup_delete_eq.
  - rewrite !a_act_eq. pose proof (ma_memory _ _ _ _ _ Hm) as Em. pose proof (ma_futs _ _ _ _ _ Hm) as Ef.
    eapply (matches_one n); [exact Hm|..]; cbn -[settle]; rewrite ?Em, ?Ef; try done.
    + intros m Hne. by rewrite lookup_delete_ne.
    + intros m Hne. by rewrite fn_lookup_insert_ne.
    + rewrite fn_lookup_insert. unfold proc. cbn. by rewrite lookup_delete_eq.
    + intros t'. rewrite (ma_pend _ _ _ _ _ Hm), fn_insert_case. by case_decide; subst.
    + intros t'. rewrite (ma_closing _ _ _ _ _ Hm), fn_insert_case. by case_decide; subst.
Qed.

Lemma refines_ext s s' A :
  refines s A -> sws s' = sws s -> undefined s' = undefined s -> ctxs s' = ctxs s ->
  next_ctx s' = next_ctx s -> futs s' = futs s -> memory s' = memory s ->
  (forall t, code_of s' t = code_of s t) -> (forall t, queue s' t = queue s t) -> refines s' A.
Proof.
  intros (a & home & ph & H & Hm) E1 E2 E3 E4 E5 E6 E7 E8. exists a, home, ph. split.
  - eapply uinv_ext; [exact H|..]; try done; [by rewrite E5|]. intros t. by rewrite E8.
  - destruct Hm as [M1 M2 M3 M4 M5]. constructor; try congruence.
    + intros n. rewrite M1. unfold proc. by rewrite E3.
Qed.

Lemma simulated_ext s s' A :
  simulated s A -> sws s' = sws s -> undefined s' = undefined s -> ctxs s' = ctxs s ->
  next_ctx s' = next_ctx s -> futs s' = futs s -> memory s' = memory s ->
  (forall t, code_of s' t = code_of s t) -> (forall t, queue s' t = queue s t) -> simulated s' A.
Proof.
  intros (A' & Hr & H) **. exists A'. split; [done|]. by eapply refines_ext.
Qed.

Lemma refines_simulated s A : refines s A -> simulated s A.
Proof. exists A. split; [constructor|done]. Qed.

(** [join] leaves what the code that made the uthread goes on with. *)
Lemma join_code ph st (m : nat) cb c :
  code_ok ph st (Join m cb c) -> code_ok ph st c /\ (running c \/ exists d, c = EndTask d) /\
  closing_of st c = closing_of st (Join m cb c).
Proof.
  unfold code_ok. destruct st as [|[n k] st].
  - intros [?|[[? ?]|(m' & cb' & d & [= -> -> ->])]]; try done. split_and!; eauto.
  - destruct (ph n); cbn; try done. intros [?|(m' & cb' & [= -> -> ->])]; [done|]. split_and!; eauto.
    by left.
Qed.

Lemma sim_join t m cb c s a home ph A :
  uinv s a home ph -> matches a home ph s A -> code_of s t = Join m cb c -> simulated (join t m cb c s) A.
Proof.
  intros H Hm Hc.
  pose proof (ui_local _ _ _ _ H t) as [(Hco & Hconts & Hnr & Hnd) Hmen Hctx].
  rewrite Hc in Hco. destruct (join_code _ _ _ _ _ Hco) as (Hco' & Hcc & Hcl).
  assert (Hdc : forall m' cb', ~ joining c m' cb').
  { intros m' cb' [k ->]. destruct Hcc as [[]|[d ?]]; done. }
  assert (Hdet : forall m' cb', joining (code_of s t) m' cb' -> m' = m) by (intros m' cb' [k E]; congruence).
  destruct (Hmen m) as [Hh [x Hx]]; [right; right; right; exists cb; by eexists|].
  destruct (Hctx m x Hh Hx) as [C1 C2 C3 C4 C5 C6 C7 C8 C9].
  destruct (C5 cb) as (Hn & Hcb & ->); [by eexists|]. unfold join. rewrite Hx. destruct (done_ x) eqn:Hd.
  - eapply simulated_ext; [eapply (sim_destroy t m c (queue s t) s a home ph A x); try done|..];
      rewrite ?Hc; try done; unfold destroy_uthread; rewrite ?(act_eq (home m).2); cbn; rewrite ?Hx;
      rewrite ?act_eq; try done.
    + rewrite C3, Hcb. by intros [_ [? [=]]].
    + intros t'. cbn. rewrite fn_insert_case. by case_decide; subst.
  - assert (Hlt : (m < next_ctx s)%nat).
    { destruct (decide (m < next_ctx s)%nat); [done|]. by rewrite (ui_fresh _ _ _ _ H) in Hx by lia. }
    apply refines_simulated. exists a, home, ph. split.
    + eapply (uinv_one t m); [done|..]; cbn; rewrite ?fn_lookup_insert; try done.
      * apply H.
      * apply H.
      * intros m' Hne. by rewrite lookup_insert_ne.
      * intros t' Ht. by rewrite !fn_lookup_insert_ne.
      * intros m' Hne. split_and!; try done. intros cb'. split; [by intros ?%Hdc|by intros ?%Hdet].
      * intros _. by rewrite lookup_insert_eq.
      * intros y. rewrite lookup_insert_eq. intros [= <-]. constructor; try done; cbn.
        -- revert C1. by destruct (ph m); cbn; rewrite Hd.
        -- rewrite C3. split; intros [? _]; congruence.
        -- intros k Hk. by destruct (not_in_entry m _ _ Hn Hk).
        -- by intros cb' ?%Hdc.
        -- auto.
    + eapply (matches_one m); [exact Hm|..]; try done; try apply Hm.
      * intros m' Hne. cbn. by rewrite lookup_insert_ne.
      * rewrite (ma_procs _ _ _ _ _ Hm). unfold proc. cbn. by rewrite Hx, lookup_insert_eq.
      * intros t'. cbn. rewrite (ma_closing _ _ _ _ _ Hm), fn_insert_case. case_decide; subst; [|done].
        by rewrite Hc.
Qed.

(** ** The tasks of the executor *)

(** An idle thread has an empty call stack. *)
Lemma idle_stack s a home ph t :
  uinv s a home ph -> code_of s t = Loop \/ (exists d, code_of s t = EndTask d) -> stk a t = [].
Proof.
  intros H Hc. destruct (ui_local _ _ _ _ H t) as [(Hco & _) _ _].
  destruct (stk a t) as [|[n k] st]; [done|]. cbn in Hco.
  destruct Hc as [Hc|[d Hc]]; rewrite Hc in Hco; destruct (ph n); cbn in Hco; naive_solver.
Qed.

(** A task is taken off the queue. *)
Lemma uinv_take t q q' s a home ph :
  uinv s a home ph -> queue s t = q' -> resumes q = resumes q' -> dones q = dones q' -> uinv (set_queue t q s) a home ph.
Proof.
  intros H <- Hr Hd. eapply uinv_ext; [exact H|..]; cbn -[resumes dones]; try done.
  intros t'. rewrite fn_insert_case. case_decide; subst; done.
Qed.

Lemma sim_start t g q s a home ph A :
  uinv s a home ph -> matches a home ph s A -> code_of s t = Loop -> queue s t = TStart g :: q ->
  simulated (run_task t (TStart g) (set_queue t q s)) A.
Proof.
  intros H Hm Hc Hq.
  set (s0 := set_memory (copy (owns g) (memory s)) (set_queue t q s)).
  assert (Hu : uinv s0 a home ph).
  { eapply uinv_ext; [eapply (uinv_take t q); [exact H|exact Hq|done..]|..]; done. }
  destruct (uinv_start t (body g) (owns g) (on_join g) (EndTask (drop (owns g))) _ _ _ _ Hu)
    as (w & su & Es & Hu'); [left; split; [done|by eexists]|].
  pose proof (idle_stack _ _ _ _ t H (or_introl Hc)) as Hst.
  pose proof (proc_fresh _ _ _ _ _ H Hm) as Hfr.
  cbn [next_ctx set_queue set_memory s0] in Hu', Es. set (m := next_ctx s) in *.
  unfold run_task. cbn [memory set_queue]. fold s0. rewrite Es.
  eapply (simulated_step (AStart t m)); [|exact Hu'|].
  - cbn. rewrite (ma_pend _ _ _ _ _ Hm), Hq, (ma_closing _ _ _ _ _ Hm). unfold closing_of.
    rewrite Hst, Hc, Hfr. cbn. done.
  - destruct Hm as [M1 M2 M3 M4 M5]. constructor; cbn; try done.
    + intros i. unfold proc. cbn. destruct (decide (i = m)) as [->|Hi].
      * by rewrite lookup_insert_eq, !fn_lookup_insert.
      * rewrite lookup_insert_ne, !(fn_lookup_insert_ne _ m i) by done. apply M1.
    + intros i. rewrite !fn_insert_case. case_decide; [done|]. apply M2.
    + intros i. rewrite !fn_insert_case. case_decide; [|apply M3]. subst. unfold closing_of.
      by rewrite Hst.
    + by rewrite M5.
Qed.

Lemma sim_end_task t d s a home ph A :
  uinv s a home ph -> matches a home ph s A -> code_of s t = EndTask d ->
  simulated (set_code t Loop (act d s)) A.
Proof.
  intros H Hm Hc. pose proof (idle_stack _ _ _ _ t H (or_intror (ex_intro _ d Hc))) as Hst.
  rewrite act_eq. eapply (simulated_step (AClose t) _ a home ph).
  - cbn. rewrite (ma_closing _ _ _ _ _ Hm). unfold closing_of. rewrite Hst, Hc. cbn. done.
  - destruct H as [H1 H2 H3 H4]. constructor; try done. intros t'. cbn -[settle].
    rewrite fn_insert_case. destruct (H3 t') as [L1 L2 L3]. case_decide; [subst t'|].
    + rewrite Hst, Hc in *. constructor.
      * destruct L1 as (_ & L1). split; [by left|done].
      * intros n [Hn|[Hn|[Hn|[cb [k [=]]]]]]; apply L2; [by left|right; by left|right; right; by left].
      * intros n x Hn Hx. eapply context_ok_ext; [by apply L3|try done..|apply settle_subseteq].
        intros cb. split; by intros [k [=]].
    + constructor; try done. intros n x Hn Hx.
      eapply context_ok_ext; [by apply L3|done..|apply settle_subseteq].
  - rewrite a_act_eq. cbn. destruct Hm as [M1 M2 M3 M4 M5]. constructor; cbn -[settle]; try done.
    + intros t'. rewrite !fn_insert_case. case_decide; [subst|apply M3]. unfold closing_of. by rewrite Hst.
    + by rewrite M4, M5.
    + by rewrite M5.
Qed.

Lemma sim_resume t n q s a home ph A :
  uinv s a home ph -> matches a home ph s A -> code_of s t = Loop -> queue s t = TResume n :: q ->
  simulated (switched t (switch_in t n Loop (sws s)) (set_queue t q s)) A.
Proof.
  intros H Hm Hc Hq. pose proof (idle_stack _ _ _ _ t H (or_introl Hc)) as Hst.
  pose proof (ui_local _ _ _ _ H t) as [(Hco & Hconts & Hnr & Hnd) Hmen Hctx]. rewrite Hq in Hnr, Hnd.
  cbn in Hnr, Hnd. apply NoDup_cons in Hnr as [Hnr Hnr'].
  destruct (Hmen n) as [Hh [x Hx]]; [right; left; rewrite Hq; left|].
  destruct (Hctx n x Hh Hx) as [C1 C2 C3 C4 C5 C6 C7 C8 C9].
  assert (Haw : awake (ph n) x) by (apply C2; rewrite Hq; left).
  assert (exists f k, ph n = PSusp f k) as (f & k & Hp).
  { destruct (ph n); try done; [|eauto]. cbn in C1. rewrite Hst in C1.
    destruct C1 as [Hin _]. by apply elem_of_nil in Hin. }
  rewrite Hp in C1, Haw. cbn in C1, Haw. destruct C1 as (Hn & Cd & _ & Csu).
  assert (Hcb : callback x = Some (t, (home n).2)).
  { destruct C7 as [Hcb|]; [|done]. destruct (C6 Hcb) as [[cb [c E]]|]; [congruence|done]. }
  assert (Hlt : (n < next_ctx s)%nat).
  { destruct (decide (n < next_ctx s)%nat); [done|]. by rewrite (ui_fresh _ _ _ _ H) in Hx by lia. }
  set (su := delete n (susp a)).
  destruct (rep_switch_in _ _ t n Loop (AwaitLoop n k) (Stacks (<[t := (n, Loop) :: stk a t]> (stk a)) su)
    (ui_rep _ _ _ _ H)) as (w & -> & Hrep).
  { unfold a_switch_in. by rewrite Csu. }
  assert (Hu : uinv (UState w (<[t := AwaitLoop n k]> (code_of s)) (<[t := q]> (queue s)) (<[n := x]> (ctxs s))
      (futs s) (memory s) (next_ctx s) (undefined s))
    (Stacks (<[t := (n, Loop) :: stk a t]> (stk a)) su) (<[n := (t, (home n).2)]> home) (<[n := PResumed f k]> ph)).
  { apply uinv_push; try done; auto.
    - by left.
    - intros m Hne. unfold su. by rewrite lookup_delete_ne.
    - intros m Hne. rewrite Hq. cbn -[resumes]. split; [|done].
      change (resumes (TResume n :: q)) with (n :: resumes q). rewrite elem_of_cons. naive_solver.
    - rewrite Hq in C3. change (dones (TResume n :: q)) with (dones q) in C3. rewrite C3, Cd. by intros [? _]. }
  eapply simulated_skip.
  - eapply uinv_ext; [exact Hu|..]; cbn; try done. by rewrite insert_id.
  - eapply (matches_one n); [exact Hm|..]; try done; try apply Hm.
    + intros m Hne. by rewrite !fn_lookup_insert_ne.
    + rewrite (ma_procs _ _ _ _ _ Hm). unfold proc. cbn. by rewrite Hx, !fn_lookup_insert, Hp.
    + intros t'. cbn. rewrite (ma_pend _ _ _ _ _ Hm), fn_insert_case. case_decide; [subst|done]. by rewrite Hq.
    + intros t'. cbn. rewrite (ma_closing _ _ _ _ _ Hm), !fn_insert_case. case_decide; [subst|done].
      unfold closing_of. by rewrite Hst, Hc.
Qed.

Lemma sim_done t n q s a home ph A :
  uinv s a home ph -> matches a home ph s A -> code_of s t = Loop -> queue s t = TDone n :: q ->
  simulated (run_task t (TDone n) (set_queue t q s)) A.
Proof.
  intros H Hm Hc Hq. pose proof (idle_stack _ _ _ _ t H (or_introl Hc)) as Hst.
  pose proof (ui_local _ _ _ _ H t) as [(Hco & Hconts & Hnr & Hnd) Hmen Hctx]. rewrite Hq in Hnr, Hnd.
  cbn in Hnr, Hnd. apply NoDup_cons in Hnd as [Hnd Hnd'].
  destruct (Hmen n) as [Hh [x Hx]]; [right; right; left; rewrite Hq; left|].
  destruct (Hctx n x Hh Hx) as [C1 C2 C3 C4 C5 C6 C7 C8 C9].
  assert (Hd : done_ x = true /\ is_Some (callback x)) by (apply C3; rewrite Hq; left).
  destruct Hd as [Hd [g Hg]]. destruct C7 as [?|Hcb]; [congruence|]. cbn. rewrite Hx, Hcb.
  eapply simulated_ext; [eapply (sim_destroy t n Loop q s a home ph A x); try done|..];
    unfold destroy_uthread; rewrite ?(act_eq (home n).2); cbn; rewrite ?Hx, ?act_eq; try done.
  - rewrite Hst. by intros ?%elem_of_nil.
  - rewrite Hst. by left.
  - by intros m cb [k E].
  - intros m cb [k E]. congruence.
  - by rewrite Hc.
  - intros m Hne. rewrite Hq. change (dones (TDone n :: q)) with (n :: dones q).
    rewrite elem_of_cons. naive_solver.
  - by rewrite Hq.
  - by rewrite Hq.
  - intros t'. cbn. rewrite fn_insert_case. by case_decide; subst.
Qed.

(** The awaited future has its result, and the continuation is scheduled. *)
Lemma sim_forward n s s' a home ph A :
  uinv s a home ph -> matches a home ph s A -> forward n s = Some s' -> refines s' A.
Proof.
  intros H Hm Hf. unfold forward in Hf. destruct (ctxs s !! n) as [x|] eqn:Hx; [|done]. cbn in Hf.
  destruct (aw x) as [[f w|]|] eqn:Ha; try done. destruct (futs s !! f) as [v|] eqn:Hv; [|done].
  cbn in Hf. injection Hf as <-. set (t := (home n).1).
  pose proof (ui_local _ _ _ _ H t) as [(Hco & Hconts & Hnr & Hnd) Hmen Hctx].
  destruct (Hctx n x eq_refl Hx) as [C1 C2 C3 C4 C5 C6 C7 C8 C9]. rewrite (C8 _ _ Ha) in *.
  assert (Hnot : n ∉ resumes (queue s t)).
  { intros Hin%C2. destruct (ph n); try done; destruct Hin as [? ?]; congruence. }
  set (x' := Ctx (done_ x) (callback x) (Some (Ready f v)) (func_ x)).
  assert (Hp : phase_ok n (n ∈ (stk a t).*1) (susp a !! n) x' (ph n) /\ awake (ph n) x').
  { destruct (ph n) as [| | |f' k'| |]; cbn in *; destruct_and?; try congruence;
      try (match goal with H : ready _ x |- _ => destruct H; congruence end);
      match goal with H : awaits _ x |- _ => destruct H as [[? ?]|[? ?]]; [|congruence] end;
      simplify_eq; unfold awaits, ready; cbn; eauto 10. }
  destruct Hp as [Hp Haw].
  assert (Hlt : (n < next_ctx s)%nat).
  { destruct (decide (n < next_ctx s)%nat); [done|]. by rewrite (ui_fresh _ _ _ _ H) in Hx by lia. }
  assert (Er : resumes (queue s t ++ [TResume n]) = resumes (queue s t) ++ [n]) by apply resumes_app.
  assert (Ed : dones (queue s t ++ [TResume n]) = dones (queue s t)).
  { rewrite dones_app. cbn. by rewrite app_nil_r. }
  exists a, home, ph. split.
  - eapply (uinv_one t n); [done|..]; cbn -[resumes dones]; rewrite ?fn_lookup_insert, ?Er, ?Ed; try done.
    + apply H.
    + apply H.
    + intros m Hne. by rewrite lookup_insert_ne.
    + intros t' Ht. by rewrite !fn_lookup_insert_ne.
    + intros m Hne. split_and!; try done. rewrite elem_of_app, list_elem_of_singleton. naive_solver.
    + split_and!; try done; rewrite ?Er, ?Ed; [|done]. apply NoDup_app. split; [done|].
      split; [|apply NoDup_singleton]. intros m Hm' ->%list_elem_of_singleton. done.
    + intros _. by rewrite lookup_insert_eq.
    + intros y. rewrite lookup_insert_eq. intros [= <-]. constructor; try done; rewrite ?Er, ?Ed.
      * split; [done|]. intros _. apply elem_of_app. right. left.
      * exact C3.
      * by intros f' v' [= <- <-].
  - eapply (matches_one n); [exact Hm|..]; try done; try apply Hm.
    + intros m Hne. cbn. by rewrite lookup_insert_ne.
    + rewrite (ma_procs _ _ _ _ _ Hm). unfold proc. cbn. by rewrite Hx, lookup_insert_eq.
    + intros t'. cbn. rewrite (ma_pend _ _ _ _ _ Hm), fn_insert_case. case_decide; [subst t'|done].
      rewrite starts_app. cbn. by rewrite app_nil_r.
Qed.

(** ** Every step *)

Lemma sim_exec t w b s a home ph A :
  uinv s a home ph -> matches a home ph s A -> code_of s t = Exec b -> simulated (exec t w b s) A.
Proof.
  intros H Hm Hc. pose proof (ma_futs _ _ _ _ _ Hm) as Ef. pose proof (ma_memory _ _ _ _ _ Hm) as Em.
  destruct b as [r|f k|b o k|b o cb k|f v k|u k]; cbn.
  - by eapply sim_finish.
  - by eapply sim_await.
  - by eapply sim_current.
  - eapply (sim_run t _ k s _ a home ph A (fun n => AProc n w 0)); try done.
    + intros t'. cbn -[resumes dones]. rewrite fn_insert_case. case_decide; [subst|done].
      rewrite resumes_app, dones_app. cbn. by rewrite !app_nil_r.
    + intros n x Hn Hb. exists (<[w := pend A w ++ [Func b o cb]]> (pend A)). split.
      * intros t'. cbn -[starts]. rewrite !fn_insert_case. case_decide; [|apply Hm].
        rewrite starts_app. subst. by rewrite (ma_pend _ _ _ _ _ Hm).
      * cbn. rewrite Hn. cbn. rewrite Hb. cbn. by rewrite Ef, Em.
  - destruct (futs s !! f) as [v'|] eqn:Hf.
    + eapply (sim_run t _ (k false) s _ a home ph A (fun n => AProc n 0 0)); try done.
      intros n x Hn Hb. exists (pend A). split; [apply Hm|]. cbn. rewrite Hn. cbn. rewrite Hb. cbn.
      by rewrite Ef, Hf, <- Em, <- Ef.
    + eapply (sim_run t _ (k true) s _ a home ph A (fun n => AProc n 0 0)); try done.
      * cbn. by apply insert_subseteq.
      * intros n x Hn Hb. exists (pend A). split; [apply Hm|]. cbn. rewrite Hn. cbn. rewrite Hb. cbn.
        by rewrite Ef, Hf, Em.
  - eapply (sim_run t _ (k (memory s)) s _ a home ph A (fun n => AProc n 0 0)); try done.
    intros n x Hn Hb. exists (pend A). split; [apply Hm|]. cbn. rewrite Hn. cbn. rewrite Hb. cbn. by rewrite Ef, Em.
Qed.

Lemma sim_set f v s a home ph A :
  uinv s a home ph -> matches a home ph s A -> futs s !! f = None -> external f = true ->
  simulated (set_fut f v s) A.
Proof.
  intros H Hm Hf He.
  eapply (simulated_step (ASet f v) _ _ _ _ A
    (ASpec (procs A) (pend A) (closing A) (<[f := v]> (futs s)) (a_memory A))).
  - cbn. by rewrite (ma_futs _ _ _ _ _ Hm), Hf, He.
  - eapply uinv_ext; [exact H|..]; try done. cbn. by apply insert_subseteq.
  - destruct Hm as [M1 M2 M3 M4 M5]. by constructor.
Qed.

Lemma ustep_simulated l s s' A : refines s A -> ustep l s = Some s' -> simulated s' A.
Proof.
  intros (a & home & ph & H & Hm) Hl. destruct l as [t w|n|f v]; cbn in Hl.
  - unfold thread_step in Hl. destruct (code_of s t) as [|d|b|n k|n k|n|m cb c] eqn:Hc.
    + destruct (queue s t) as [|[b|n|n] q] eqn:Hq; [done|injection Hl as <-..].
      * by eapply sim_start.
      * by eapply sim_resume.
      * by eapply sim_done.
    + injection Hl as <-. by eapply sim_end_task.
    + injection Hl as <-. by eapply sim_exec.
    + injection Hl as <-. by eapply sim_switch_out.
    + injection Hl as <-. by eapply sim_await_loop.
    + injection Hl as <-. by eapply sim_final.
    + injection Hl as <-. by eapply sim_join.
  - apply refines_simulated. by eapply sim_forward.
  - destruct (futs s !! f) eqn:Hf; [done|]. destruct (external f) eqn:He; [|done].
    injection Hl as <-. by eapply sim_set.
Qed.

Lemma starts_fmap q : starts (TStart <$> q) = q.
Proof. induction q as [|b q IH]; cbn; [done|]. by f_equal. Qed.
Lemma resumes_fmap q : resumes (TStart <$> q) = [].
Proof. by induction q. Qed.
Lemma dones_fmap q : dones (TStart <$> q) = [].
Proof. by induction q. Qed.

Lemma uinit_refines m q : refines (uinit m q) (a_init m q).
Proof.
  exists (Stacks (fun _ => []) ∅), (fun _ => (0%nat, no_callback)), (fun _ => PDone). split.
  - constructor; try done; [apply rep_init|]. intros t. constructor; cbn -[resumes dones].
    + unfold thread_ok. rewrite resumes_fmap, dones_fmap. split_and!; try done; try constructor; done.
    + intros n. unfold mentions. rewrite resumes_fmap, dones_fmap. cbn. rewrite !elem_of_nil.
      intros [[]|[[]|[[]|[cb [k [=]]]]]].
    + done.
  - constructor; try done. intros t. cbn -[starts]. by rewrite starts_fmap.
Qed.

(** Each uthread on top of a thread and each that is destroyed is one that the
    record says. *)
Lemma uthread_simulation m q : simulation (uthread_lts m q) (a_lts m q) refines.
Proof.
  constructor.
  - intros s ->. exists (a_init m q). split; [done|apply uinit_refines].
  - intros s s' A _ H [l Hl]. by eapply ustep_simulated.
Qed.

Lemma reachable_refines m q s :
  reachable (uthread_lts m q) s -> exists A, reachable (a_lts m q) A /\ refines s A.
Proof. apply (simulation_reachable _ _ _ (uthread_simulation m q)). Qed.


(** Idle threads, and what is left of the specification. *)
Lemma idle_blocked s A :
  refines s A -> (forall t w, thread_step t w s = None) -> (forall n, forward n s = None) ->
  (forall t, pend A t = [] /\ closing A t = None) /\
  (forall n, is_Some (ctxs s !! n) <-> is_Some (procs A n)) /\
  (forall n p, procs A n = Some p -> exists f k x w, rest p = Some (Await f k) /\ a_futs A !! f = None /\
     ctxs s !! n = Some x /\ aw x = Some (Waiting f w)).
Proof.
  intros (a & home & ph & H & Hm) Hidle Hfwd.
  assert (Ht : forall t, code_of s t = Loop /\ queue s t = []).
  { intros t. specialize (Hidle t 0%nat). unfold thread_step in Hidle.
    destruct (code_of s t); try done. by destruct (queue s t). }
  assert (Hn : forall n x, ctxs s !! n = Some x ->
    exists f k w, remaining (ph n) = Some (Await f k) /\ futs s !! f = None /\ aw x = Some (Waiting f w)).
  { intros n x Hx. destruct (Ht (home n).1) as [Hc Hq]. pose proof (idle_stack _ _ _ _ _ H (or_introl Hc)) as Hst.
    destruct (lc_ctx _ _ _ _ _ _ _ _ _ _ (ui_local _ _ _ _ H (home n).1) n x eq_refl Hx)
      as [C1 C2 C3 _ _ C6 _ _ C9].
    rewrite Hst, Hc, Hq in *. cbn in C2, C3, C6. rewrite elem_of_nil in C2, C3, C6.
    assert (Hcb : is_Some (callback x)).
    { destruct (callback x); [by eexists|]. destruct (C6 eq_refl) as [(? & ? & ?)|[]]; done. }
    destruct (ph n) as [b|f k|f k|f k| |] eqn:Hp; cbn in C1; rewrite ?elem_of_nil in C1;
      destruct_and?; try done; [|by destruct C3 as [_ C3]; destruct C3].
    specialize (Hfwd n). unfold forward in Hfwd. rewrite Hx in Hfwd. cbn in Hfwd.
    assert (Ha : awaits f x) by done. destruct Ha as [[w Ha]|Ha]; [|by destruct C2 as [_ C2]; destruct C2].
    exists f, k, w. split; [done|]. split; [|done]. rewrite Ha in Hfwd. by destruct (futs s !! f). }
  destruct Hm as [M1 M2 M3 M4 M5]. split_and!.
  - intros t. rewrite M2, M3. unfold closing_of. destruct (Ht t) as [Hc ->].
    by rewrite (idle_stack _ _ _ _ _ H (or_introl Hc)), Hc.
  - intros n. rewrite M1. unfold proc. destruct (ctxs s !! n); cbn; [split; by eexists|done].
  - intros n p. rewrite M1, M4. unfold proc. destruct (ctxs s !! n) as [x|] eqn:Hx; cbn; [|done].
    destruct (Hn n x Hx) as (f & k & w & -> & ? & ?). intros [= <-].
    exists f, k, x, w. done.
Qed.

(** C21.  No wake-up is lost and no uthread leaks: when the threads are idle with
    empty queues and every continuation of a set future has run, a context that
    is left is switched out in [await] of a future that has no result, as the
    same threads would be blocked; so when all futures are set, every uthread has
    run to its end and its function and stack have been destroyed, as has the task
    that has started it. *)
Theorem uthreads_no_lost_wakeup m q s :
  reachable (uthread_lts m q) s ->
  (forall t w, thread_step t w s = None) -> (forall n, forward n s = None) ->
  exists A, reachable (a_lts m q) A /\ (forall t, pend A t = [] /\ closing A t = None) /\
    (forall n, is_Some (ctxs s !! n) <-> is_Some (procs A n)) /\
    (forall n p, procs A n = Some p -> exists f k, rest p = Some (Await f k) /\ futs s !! f = None).
Proof.
  intros (A & HA & Hr)%reachable_refines Hidle Hfwd. exists A. split; [done|].
  destruct (idle_blocked s A Hr Hidle Hfwd) as (H1 & H2 & H3). destruct Hr as (a & home & ph & _ & Hm).
  split; [done|]. split; [done|]. intros n p Hp. destruct (H3 n p Hp) as (f & k & x & w & ? & Hf & _).
  rewrite (ma_futs _ _ _ _ _ Hm) in Hf. by exists f, k.
Qed.

(** The steps that destroy a context. *)
Lemma destroyed_by l s s' n :
  ustep l s = Some s' -> is_Some (ctxs s !! n) -> ctxs s' !! n = None ->
  exists t, (exists cb c x, code_of s t = Join n cb c /\ ctxs s !! n = Some x /\ done_ x = true) \/
    (code_of s t = Loop /\ exists q, queue s t = TDone n :: q).
Proof.
  intros Hl [x Hx] Hn.
  assert (Hsw : forall t r s0, ctxs (switched t r s0) = ctxs s0) by (by intros t [[c w]|] s0).
  assert (Hk : forall m y, (<[m := y]> (ctxs s)) !! n <> None).
  { intros m y. apply not_eq_None_Some, lookup_insert_is_Some'. right. by eexists. }
  assert (Hno : ctxs s !! n <> None) by congruence.
  assert (Hde : forall m cb, ctxs (destroy_uthread m (act cb s)) !! n = None -> m = n /\ is_Some (ctxs s !! m)).
  { intros m cb. unfold destroy_uthread. rewrite (act_eq cb). cbn. destruct (ctxs s !! m); [|done]. rewrite act_eq.
    cbn. intros [->|?]%lookup_delete_None; [split; [done|by eexists]|done]. }
  destruct l as [t w|m|f v]; cbn in Hl.
  - exists t. unfold thread_step in Hl. destruct (code_of s t) as [|d|b|m k|m k|m|m cb c] eqn:Hc.
    + right. split; [done|]. destruct (queue s t) as [|[b|m|m] q] eqn:Hq; [done|injection Hl as <-..].
      * cbn in Hn. unfold start_uthread in Hn. rewrite Hsw in Hn. by destruct (Hk _ _ Hn).
      * cbn in Hn. by rewrite Hsw in Hn.
      * exists q. cbn in Hn. destruct (ctxs s !! m) as [y|] eqn:Hy; [|by destruct (Hno Hn)].
        destruct (callback y) as [[w' cb]|]; [|by destruct (Hno Hn)]. unfold destroy_uthread in Hn.
        rewrite (act_eq cb) in Hn. cbn in Hn. rewrite Hy, act_eq in Hn. cbn in Hn.
        apply lookup_delete_None in Hn as [->|?]; done.
    + injection Hl as <-. cbn in Hn. by rewrite act_eq in Hn.
    + exfalso. injection Hl as <-. destruct b as [r|f k|b o k|b o cb k|f v k|u k]; cbn in Hn; try done.
      * unfold finish in Hn. destruct (get t (sws s)) as [m|]; [|done].
        destruct (ctxs s !! m) as [y|] eqn:Hy; [|done].
        by destruct (callback y) as [[? ?]|]; destruct (Hk _ _ Hn).
      * unfold await in Hn. destruct (futs s !! f); [done|]. destruct (get t (sws s)) as [m|]; [|done].
        destruct (ctxs s !! m) as [y|] eqn:Hy; [|done]. by destruct (Hk _ _ Hn).
      * unfold start_uthread in Hn. rewrite Hsw in Hn. by destruct (Hk _ _ Hn).
      * by destruct (futs s !! f).
    + injection Hl as <-. by rewrite Hsw in Hn.
    + exfalso. injection Hl as <-. unfold await_loop in Hn. destruct (ctxs s !! m) as [y|] eqn:Hy; [|done].
      destruct (aw y) as [[f w'|f v]|]; [by rewrite Hsw in Hn| |done]. by destruct (Hk _ _ Hn).
    + injection Hl as <-. by rewrite Hsw in Hn.
    + left. injection Hl as <-. unfold join in Hn. destruct (ctxs s !! m) as [y|] eqn:Hy; [|done].
      destruct (done_ y) eqn:Hd; [|by destruct (Hk _ _ Hn)].
      destruct (Hde _ _ Hn) as [-> _]. eauto 6.
  - exfalso. unfold forward in Hl. destruct (ctxs s !! m) as [y|] eqn:Hy; [|done]. cbn in Hl.
    destruct (aw y) as [[f w|]|]; try done. destruct (futs s !! f) as [v|]; [|done]. injection Hl as <-.
    by destruct (Hk _ _ Hn).
  - destruct (futs s !! f); [done|]. destruct (external f); [|done]. by injection Hl as <-.
Qed.

(** The stack of a uthread is freed after its last switch only: a context
    that a step destroys has its result, and is not the current one of any
    thread. *)
Theorem uthread_freed_after_end m q s l s' n :
  reachable (uthread_lts m q) s -> ustep l s = Some s' ->
  is_Some (ctxs s !! n) -> ctxs s' !! n = None ->
  (exists x, ctxs s !! n = Some x /\ done_ x = true) /\ forall t, get t (sws s) <> Some n.
Proof.
  intros (A & HA & a & home & ph & H & Hm)%reachable_refines Hl Hx Hn.
  assert (Hcur : (forall t, n ∉ (stk a t).*1) -> forall t, get t (sws s) <> Some n).
  { intros Hnot t Hg. rewrite (rep_get _ a) in Hg by apply H.
    apply (Hnot t). destruct (stk a t).*1; [done|]. injection Hg as ->. left. }
  destruct (destroyed_by l s s' n Hl Hx Hn) as (t & Hd).
  pose proof (ui_local _ _ _ _ H t) as [_ Hmen Hctx].
  assert (Hh : (home n).1 = t).
  { apply Hmen. destruct Hd as [(cb & c & x & E & _)|(_ & q' & E)]; right; right.
    - right. exists cb. by eexists.
    - left. rewrite E. left. }
  assert (Hoff : n ∉ (stk a t).*1 -> forall t', n ∉ (stk a t').*1).
  { intros Hnot t' Ht'. destruct (lc_mentions _ _ _ _ _ _ _ _ _ _ (ui_local _ _ _ _ H t') n) as [E _]; [by left|].
    congruence. }
  destruct Hx as [x Hx]. destruct (Hctx n x Hh Hx) as [C1 C2 C3 C4 C5 C6 C7 C8 C9].
  destruct Hd as [(cb & c & y & E & Hy & Hd)|(E & q' & Hq)].
  - split; [by eauto|]. apply Hcur, Hoff. apply (C5 cb). by eexists.
  - split; [exists x; split; [done|]; apply C3; rewrite Hq; left|].
    apply Hcur, Hoff. rewrite (idle_stack _ _ _ _ t H (or_introl E)). apply not_elem_of_nil.
Qed.
End uthread.

(** ** A run

    Thread 0 starts a uthread that makes a second one ([async<Launch::Current>])
    and then awaits the future 0; the second one awaits the future 1.  Thread 1 has
    a uthread that sets both, and writes what it finds in the memory, as the
    destruction of its function and the callback of [join] do. *)

Definition no_owned : @owned Z (list Z) := Owned (fun m => m) no_callback.

Definition sample_uthread : @prog Z (list Z) :=
  Current (Await 1 (fun t => match t with
    | TValue v => Atomic (app [v]) (fun _ => End (TValue 0))
    | _ => End (TError (Some (UserError 1)))
    end)) no_owned
  (Await 0 (fun t => match t with
    | TValue v => Atomic (app [v]) (fun _ => End (TValue 0))
    | _ => End (TValue 0)
    end)).
Definition sample_setter : @prog Z (list Z) :=
  SetValue 0 (TValue 7) (fun _ => SetValue 1 (TValue 8) (fun b =>
    Atomic (app [if b then 1 else 2]) (fun _ => End (TValue 0)))).
Definition sample_queues (t : nat) : list (@func Z (list Z)) :=
  match t with
  | 0%nat => [Func sample_uthread no_owned no_callback]
  | 1%nat => [Func sample_setter (Owned (app [3]) (fun m => (4 :: m, None))) (fun m => (5 :: m, None))]
  | _ => []
  end.
Definition sample_external (f : nat) : bool := false.

Definition sample_ustate : Type := ustate (val := Z) (mem := list Z) (S := @sw (@code Z (list Z))).
Definition sample_state : sample_ustate := uinit [] sample_queues.

Definition sample_step : @ulabel Z -> sample_ustate -> option sample_ustate :=
  ustep (external := sample_external).
Definition sample_lts : lts := uthread_lts (external := sample_external) (S := @sw (@code Z (list Z))) [] sample_queues.
Definition sample_spec : lts := a_lts (external := sample_external) [] sample_queues.

Definition sample_schedule : list (@ulabel Z) :=
  (* the uthreads 0 and 1 are started on thread 0 and switch out *)
  replicate 9 (LThread 0 0) ++
  (* uthread 2 is started on thread 1, ends and is joined *)
  replicate 8 (LThread 1 0) ++
  [LForward 1; LForward 0] ++
  (* the two continuations, and the ends of the uthreads *)
  replicate 12 (LThread 0 0).

Definition sample_end : sample_ustate := run_end sample_step sample_schedule sample_state.

Lemma sample_reachable k :
  reachable sample_lts (run_end sample_step (take k sample_schedule) sample_state).
Proof.
  apply run_end_reachable; [done|]. apply bool_decide_eq_true.
  assert (H : is_Some (run_schedule sample_step sample_schedule sample_state)) by (vm_compute; by eexists).
  clear - H. revert k H. generalize sample_state. induction sample_schedule as [|l ls IH]; intros s k H.
  - rewrite take_nil. by eexists.
  - destruct k as [|k]; [by eexists|]. cbn in *. destruct (sample_step l s); [by apply IH|by destruct H].
Qed.

Lemma sample_end_reachable : reachable sample_lts sample_end.
Proof. apply (sample_reachable (length sample_schedule)). Qed.


Lemma sample_end_idle t w : thread_step t w sample_end = None.
Proof. destruct t as [|[|t]]; vm_compute; reflexivity. Qed.

Lemma sample_end_empty : ctxs sample_end = ∅.
Proof. vm_compute. reflexivity. Qed.

Lemma uthreads_no_lost_wakeup_witness :
  exists A, reachable sample_spec A /\ forall n, procs A n = None.
Proof.
  destruct (uthreads_no_lost_wakeup _ _ _ sample_end_reachable sample_end_idle) as (A & HA & _ & Hp & _).
  { intros n. unfold forward. rewrite sample_end_empty, lookup_empty. reflexivity. }
  exists A. split; [exact HA|]. intros n. specialize (Hp n).
  rewrite sample_end_empty, lookup_empty in Hp. destruct (procs A n); [|reflexivity].
  destruct Hp as [_ Hp]. destruct Hp; [by eexists|discriminate].
Defined.

(** The last step destroys the uthread 0. *)
Definition sample_before : sample_ustate := run_end sample_step (take 30 sample_schedule) sample_state.

Lemma uthread_freed_after_end_witness :
  is_Some (ctxs sample_before !! 0%nat) /\ get 0 (sws sample_before) <> Some 0%nat /\
  get 1 (sws sample_before) <> Some 0%nat.
Proof.
  assert (Hx : is_Some (ctxs sample_before !! 0%nat)) by (vm_compute; by eexists).
  destruct (uthread_freed_after_end (external := sample_external) [] sample_queues sample_before (LThread 0 0)
    sample_end 0%nat)
    as [_ Hg]; [apply sample_reachable|vm_compute; reflexivity|exact Hx|vm_compute; reflexivity|].
  split; [exact Hx|]. split; apply Hg.
Defined.
