(* ===== verification/UthreadCall.v ===== *)
(** * UthreadCall: functions of a program beside an object of the library

    What UthreadSync.v, UthreadLatch.v and UthreadAsync.v share: programs of the
    machine of Uthread.v on a memory that is an object of the library, which only
    the library's code uses, and the memory of the program's own functions.  The
    library's promise is that of the future 0, the program's futures are numbered
    from 1. *)

From S2P Require Import Prelude Try Switch Uthread.

(** The memory. *)
Record shared (obj user : Type) := Shared { object : obj; user_mem : user }.
Arguments Shared {obj user} _ _.
Arguments object {obj user} _.
Arguments user_mem {obj user} _.

(** The launch policy; [Prompt] is refused by a [static_assert] of [collectAll] and
    an assertion of [async]. *)
Inductive Policy := Launch_Schedule | Launch_Current.

(** Where a function is that the library has launched: in a queue; or it has a
    process, and a worker that is to destroy its lambda.  Each of them has a copy of
    what the lambda has captured. *)
Inductive status := SNot | SQueued (t : nat) | SLive (p cl : option nat).

Definition queue_of (st : status) : option nat := match st with SQueued t => Some t | _ => None end.
Definition proc_of (st : status) : option nat := match st with SLive p _ => p | _ => None end.
Definition close_of (st : status) : option nat := match st with SLive _ c => c | _ => None end.

Definition held_by (o : option nat) : nat := match o with Some _ => 1 | None => 0 end.
Definition weight (st : status) : nat := held_by (queue_of st) + held_by (proc_of st) + held_by (close_of st).

Lemma weight_zero st : weight st = 0%nat -> queue_of st = None /\ proc_of st = None /\ close_of st = None.
Proof. destruct st as [|t|[p|] [t|]]; done. Qed.

(** ** Occurrences in a list *)

Section occ.
Context `{EqDecision A}.
Implicit Types x y : A.

Fixpoint occ x (l : list A) : nat :=
  match l with [] => 0 | y :: l => (if decide (x = y) then 1 else 0) + occ x l end.

Lemma occ_app x l l' : occ x (l ++ l') = (occ x l + occ x l')%nat.
Proof. induction l as [|y l IH]; cbn; [done|]. rewrite IH. lia. Qed.

Lemma occ_elem x l : x ∈ l -> (0 < occ x l)%nat.
Proof.
  induction 1 as [x l|x y l _ IH]; cbn; [by rewrite decide_True by done; lia|lia].
Qed.

Lemma occ_pos x l : (0 < occ x l)%nat -> x ∈ l.
Proof.
  induction l as [|y l IH]; cbn; [lia|]. case_decide; [subst; left|]. intros Hp. right. apply IH. lia.
Qed.

(** A queue without its head. *)
Lemma occ_take (q : nat -> list A) t x l :
  q t = x :: l ->
  (forall t' y, y <> x -> occ y (<[t := l]> q t') = occ y (q t')) /\
  (forall t', occ x (<[t := l]> q t') = (occ x (q t') - if decide (t' = t) then 1 else 0)%nat) /\
  (0 < occ x (q t))%nat.
Proof.
  intros E. split_and!.
  - intros t' y Hy. rewrite fn_insert_case. case_decide; [subst|done]. rewrite E. cbn. by rewrite decide_False.
  - intros t'. rewrite fn_insert_case. case_decide; [subst|lia]. rewrite E. cbn. rewrite decide_True by done. lia.
  - rewrite E. cbn. rewrite decide_True by done. lia.
Qed.

Lemma occ_other x y l : x <> y -> Forall (fun z => z = y) l -> occ x l = 0%nat.
Proof.
  intros Hx. induction 1 as [|z l -> _ IH]; cbn; [done|]. by rewrite decide_False.
Qed.
End occ.

(** ** Results *)

Section leaf.
Context {val mem : Type}.

(** The results with which a function may end, whatever it is given. *)
Inductive leaf : @prog val mem -> Try val -> Prop :=
  | leaf_end r : leaf (End r) r
  | leaf_await f k t r : leaf (k t) r -> leaf (Await f k) r
  | leaf_current b o k r : leaf k r -> leaf (Current b o k) r
  | leaf_schedule b o cb k r : leaf k r -> leaf (Schedule b o cb k) r
  | leaf_set f v k x r : leaf (k x) r -> leaf (SetValue f v k) r
  | leaf_atomic u k m r : leaf (k m) r -> leaf (Atomic u k) r.
End leaf.

(** Queues and their tags, without their heads. *)
Lemma Forall2_take {A B} (P : A -> B -> Prop) (q : nat -> list A) (q' : nat -> list B) t l l' t' :
  (forall t, Forall2 P (q t) (q' t)) -> Forall2 P l l' -> Forall2 P (<[t := l]> q t') (<[t := l']> q' t').
Proof. intros H Hl. rewrite !fn_insert_case. by case_decide. Qed.

Section call.
Context {val obj user : Type}.

(** A worker has taken [g] from its queue, which has [q] left, into the process [m]. *)
Definition started (t m : nat) (g : @func val (shared obj user)) (q : list (@func val (shared obj user)))
    (A : @aspec val (shared obj user)) : @aspec val (shared obj user) :=
  set_proc m (Some (AProcess (Some (body g)) (drop (owns g)) (on_join g)))
    (ASpec (procs A) (<[t := q]> (pend A)) (<[t := Some (drop (owns g))]> (closing A)) (a_futs A)
       (copy (owns g) (a_memory A))).

(** ** The program's own functions *)

Definition on_user (u : user -> user) (m : shared obj user) : shared obj user := Shared (object m) (u (user_mem m)).
Definition lift_action (a : @action val user) : @action val (shared obj user) := fun m =>
  let '(u, r) := a (user_mem m) in
  (Shared (object m) u, match r with Some (f, v) => Some (S f, v) | None => None end).
Definition lift_owned (o : @owned val user) : @owned val (shared obj user) :=
  Owned (on_user (copy o)) (lift_action (drop o)).

(** A call of a function, and what goes on with its result or its exception. *)
Fixpoint call (b : @prog val user) (k : Try val -> @prog val (shared obj user)) : @prog val (shared obj user) :=
  match b with
  | End r => k r
  | Await f k' => Await (S f) (fun t => call (k' t) k)
  | Current b o k' => Current (call b End) (lift_owned o) (call k' k)
  | Schedule b o cb k' => Schedule (call b End) (lift_owned o) (lift_action cb) (call k' k)
  | SetValue f v k' => SetValue (S f) v (fun x => call (k' x) k)
  | Atomic u k' => Atomic (on_user u) (fun m => call (k' (user_mem m)) k)
  end.

Definition lift_func (g : @func val user) : @func val (shared obj user) :=
  Func (call (body g) End) (lift_owned (owns g)) (lift_action (on_join g)).

(** The futures that other threads set are the program's. *)
Definition lift_external (ext : nat -> bool) (f : nat) : bool := match f with 0%nat => false | S f => ext f end.

(** ** What leaves the object and its promise alone *)

Definition same_object (m m' : shared obj user) : Prop := object m' = object m.

Definition harmless (a : @action val (shared obj user)) : Prop :=
  forall m, same_object m (a m).1 /\ forall v, (a m).2 <> Some (0%nat, v).
Definition owned_ok (o : @owned val (shared obj user)) : Prop :=
  (forall m, same_object m (copy o m)) /\ harmless (drop o).

Definition user_func (g : @func val (shared obj user)) : Prop :=
  (exists b, body g = call b End) /\ owned_ok (owns g) /\ harmless (on_join g).
Definition user_proc (x : @aproc val (shared obj user)) : Prop :=
  (rest x = None \/ exists b, rest x = Some (call b End)) /\ harmless (captured x) /\ harmless (joined x).

Lemma harmless_lift a : harmless (lift_action a).
Proof. intros m. unfold lift_action. by destruct (a (user_mem m)) as [u [[f v]|]]. Qed.

Lemma harmless_none : harmless no_callback.
Proof. by intros m. Qed.

Lemma harmless_twice a b m : harmless a -> harmless b -> same_object m (b (a m).1).1.
Proof. intros Ha Hb. unfold same_object. destruct (Hb (a m).1) as [-> _]. apply Ha. Qed.

Lemma settle_harmless a m fu : harmless a -> settle (a m).2 fu !! 0%nat = fu !! 0%nat.
Proof. intros Ha. apply settle_other, Ha. Qed.

Lemma user_func_lift g : user_func (lift_func g).
Proof. split; [by eexists|]. split; [split; [done|apply harmless_lift]|apply harmless_lift]. Qed.

(** A step of the process [p], which becomes [X], that leaves the object and its
    promise alone, and may start a uthread or schedule one. *)
Record benign (p : nat) (X : option (@aproc val (shared obj user))) (A A' : @aspec val (shared obj user)) : Prop := {
  bn_memory : same_object (a_memory A) (a_memory A');
  bn_fut : a_futs A' !! 0%nat = a_futs A !! 0%nat;
  bn_closing : closing A' = closing A;
  bn_where :
    (procs A' = <[p := X]> (procs A) /\ pend A' = pend A) \/
    (exists m y, procs A m = None /\ user_proc y /\ procs A' = <[m := Some y]> (<[p := X]> (procs A)) /\
       pend A' = pend A) \/
    (exists w g, user_func g /\ procs A' = <[p := X]> (procs A) /\
       pend A' = <[w := pend A w ++ [g]]> (pend A));
}.

(** A step of one of the program's functions: it ends with less to do. *)
Lemma call_step p w m x b k A A' :
  a_exec p w m x (call b k) A = Some A' ->
  (exists r, b = End r) \/
  exists b', (forall r, leaf b' r -> leaf b r) /\
    benign p (Some (AProcess (Some (call b' k)) (captured x) (joined x))) A A'.
Proof.
  intros H. destruct b as [r|f k'|b o k'|b o cb k'|f v k'|u k']; [by eauto|right; revert H; cbn..].
  - destruct (a_futs A !! S f) as [v|]; cbn; [|done]. intros [= <-]. exists (k' v).
    split; [by econstructor|]. constructor; cbn; auto; done.
  - destruct (procs A m) eqn:Hm; [done|]. intros [= <-]. exists k'. split; [by constructor|].
    constructor; cbn; try done. right. left. exists m. eexists. split; [done|]. split; [|by split].
    split; [right; by eexists|]. split; [apply harmless_lift|apply harmless_none].
  - intros [= <-]. exists k'. split; [by constructor|]. constructor; cbn; try done. right. right.
    exists w. eexists. split; [|by split]. apply (user_func_lift (Func b o cb)).
  - destruct (a_futs A !! S f); intros [= <-]; eexists; (split; [by econstructor|]); constructor; cbn;
      auto; try done. by apply lookup_insert_ne.
  - intros [= <-]. exists (k' (user_mem (a_memory A))). split; [by econstructor|].
    constructor; cbn; auto; done.
Qed.

(** The end of a process: its callback and its function are destroyed. *)
Lemma a_act2 c j (p : nat) (A : @aspec val (shared obj user)) :
  let m := (j (a_memory A)).1 in
  a_act c (a_act j (set_proc p None A)) =
  ASpec (<[p := None]> (procs A)) (pend A) (closing A) (settle (c m).2 (settle (j (a_memory A)).2 (a_futs A)))
    (c m).1.
Proof. by rewrite !a_act_eq. Qed.
End call.
