(* ===== verification/UthreadSync.v ===== *)
(** * UthreadSync: collectAll of uthreads

    Models uthread/Collect.h as a program of the machine of Uthread.v: one uthread
    calls [collectAll], and any other uthreads run beside it.  The [Context] that
    the tasks share is in the memory with the count of its [shared_ptr]s; its
    destructor, which the last of them runs, sets the promise that [collectAll]
    awaits.  The theorems are about the machine of contexts, stacks and queues, and
    are proved on its specification, where uthreads are threads that block. *)

From S2P Require Import Prelude Try Switch Uthread UthreadCall.

Section collect.
(** The values of the futures, and the memory of the program's own functions.  A
    [std::vector] of results is a value, of which [pack] says which one (for tasks
    that return nothing, the same one whatever the results); [dflt] is
    [ValueType()]. *)
Context {val user : Type} (pack : list val -> val) (dflt : val).

(** [Context], with the number of the [shared_ptr]s to it; its promise is that of
    the future 0. *)
Record context := mkContext { use_count : nat; result : list val }.

(** The [shared_ptr]'s block; [bad]: the context was used after its end, or its
    result out of bounds. *)
Record cell := Cell { alive : option context; bad : bool }.

#[local] Abbreviation store := (shared cell user).

Definition ctx_ (m : store) : option context := alive (object m).
Definition dangling (m : store) : bool := bad (object m).

Definition set_ctx_ (c : option context) (m : store) : store := Shared (Cell c (dangling m)) (user_mem m).
Definition dangle (m : store) : store := Shared (Cell (ctx_ m) true) (user_mem m).

(** [std::make_shared<Context>(n, pr)] *)
Definition make_context (n : nat) (m : store) : store := set_ctx_ (Some (mkContext 1 (replicate n dflt))) m.

(** A copy of the [shared_ptr], and its destruction: [~Context] sets the promise. *)
Definition copy_ref (m : store) : store :=
  match ctx_ m with
  | Some c => set_ctx_ (Some (mkContext (S (use_count c)) (result c))) m
  | None => dangle m
  end.
Definition drop_ref : @action val store := fun m =>
  match ctx_ m with
  | Some c =>
      match use_count c with
      | S (S n) => (set_ctx_ (Some (mkContext (S n) (result c))) m, None)
      | _ => (set_ctx_ None m, Some (0%nat, TValue (pack (result c))))
      end
  | None => (dangle m, None)
  end.

(** [context->result[i] = v] *)
Definition set_result (i : nat) (v : val) (m : store) : store :=
  match ctx_ m with
  | Some c =>
      if decide (i < length (result c))%nat
      then set_ctx_ (Some (mkContext (use_count c) (<[i := v]> (result c)))) m
      else dangle m
  | None => dangle m
  end.

(** The lambda of [collectAll] for the task [i], and what it has captured. *)
Definition task_body (i : nat) (f : @prog val user) : @prog val store :=
  call f (fun r =>
    match r with
    | TValue v => Atomic (set_result i v) (fun _ => End (TValue v))
    | _ => End r
    end).
Definition task_owned : @owned val store := Owned copy_ref drop_ref.

(** [async<Policy>] of a task, and the loop, which makes a lambda for each. *)
Definition launch (policy : Policy) (i : nat) (f : @prog val user) (k : @prog val store) : @prog val store :=
  match policy with
  | Launch_Schedule => Schedule (task_body i f) task_owned no_callback k
  | Launch_Current => Current (task_body i f) task_owned k
  end.

Fixpoint launch_all (policy : Policy) (i : nat) (fs : list (@prog val user)) (k : @prog val store) :
    @prog val store :=
  match fs with
  | [] => k
  | f :: fs => Atomic copy_ref (fun _ => launch policy i f (launch_all policy (S i) fs k))
  end.

(** The end of the scope of [context]. *)
Definition release (k : @prog val store) : @prog val store :=
  Atomic (fun m => (drop_ref m).1)
    (fun m => match (drop_ref m).2 with Some (f, v) => SetValue f v (fun _ => k) | None => k end).

(** [await<T>(ex, fn)]: [fn] is called with the promise, and its future awaited. *)
Definition await_fn (fn : @prog val store -> @prog val store) (k : Try val -> @prog val store) : @prog val store :=
  fn (Await 0 k).

Definition collectAll (policy : Policy) (fs : list (@prog val user)) (k : Try val -> @prog val store) :
    @prog val store :=
  await_fn (fun rest =>
    Atomic (make_context (length fs)) (fun _ => launch_all policy 0 fs (release rest))) k.

(** A uthread that calls [collectAll] is scheduled on the thread [t0], and others
    wherever they are; other threads set futures of the program's. *)
Context (policy : Policy) (fs : list (@prog val user)) (after : Try val -> @prog val user) (t0 : nat)
  (queues : nat -> list (@func val user)) (m0 : user) (ext : nat -> bool).

Definition caller : @func val store :=
  Func (collectAll policy fs (fun t => call (after t) End)) (Owned (fun m => m) no_callback) no_callback.

Definition collect_queue (t : nat) : list (@func val store) :=
  (if decide (t = t0) then [caller] else []) ++ (lift_func <$> queues t).

Definition collect_external : nat -> bool := lift_external ext.

Definition start_store : store := Shared (Cell None false) m0.

(** What is in the slot of a task that has ended so. *)
Definition slot_value (r : Try val) : val := match r with TValue v => v | _ => dflt end.

Definition slot_done (i : nat) (v : option val) : Prop :=
  exists f r, fs !! i = Some f /\ leaf f r /\ v = Some (slot_value r).

(** ** The invariant, on the specification

    Each of the places where a task is has a [shared_ptr]. *)

(** Where the caller is. *)
Inductive phase :=
  | InQueue
  | Called (p : nat)
  | Launching (p j : nat) (copied : bool)
  | Setting (p : nat)
  | Awaiting (p : nat)
  | Returned.

Inductive tag := TUser | TCaller | TTask (i : nat).

#[export] Instance tag_eq_dec : EqDecision tag.
Proof. solve_decision. Defined.

Record ghost := Ghost {
  gs : list status;
  res : list val;
  ph : phase;
  qt : nat -> list tag;
  cw : nat -> option (option nat);
  who : nat -> option tag;
}.

Definition caller_at (p : phase) : option nat :=
  match p with Called p | Launching p _ _ | Setting p | Awaiting p => Some p | _ => None end.
Definition held (p : phase) : nat :=
  match p with Launching _ _ c => if c then 2 else 1 | _ => 0 end.
Definition launched (p : phase) : nat :=
  match p with InQueue | Called _ => 0 | Launching _ j _ => j | _ => length fs end.
Definition published (p : phase) : bool := match p with Awaiting _ | Returned => true | _ => false end.

Definition count (G : ghost) : nat := held (ph G) + sum_list_with weight (gs G).

Definition func_ok (x : tag) (g : @func val store) : Prop :=
  match x with
  | TUser => user_func g
  | TCaller => g = caller
  | TTask i => exists f, fs !! i = Some f /\ g = Func (task_body i f) task_owned no_callback
  end.

Definition close_ok (x : option (option nat)) (d : option (@action val store)) : Prop :=
  match x, d with
  | None, None => True
  | Some None, Some d => harmless d
  | Some (Some _), Some d => d = drop_ref
  | _, _ => False
  end.

Definition caller_rest (p : phase) (rs : list val) (b : @prog val store) : Prop :=
  let k := Await 0 (fun t => call (after t) End) in
  match p with
  | Called _ => b = collectAll policy fs (fun t => call (after t) End)
  | Launching _ j false => b = launch_all policy j (List.skipn j fs) (release k)
  | Launching _ j true => exists f, fs !! j = Some f /\
      b = launch policy j f (launch_all policy (S j) (List.skipn (S j) fs) (release k))
  | Setting _ => b = SetValue 0 (TValue (pack rs)) (fun _ => k)
  | Awaiting _ => b = k
  | _ => False
  end.

Definition task_rest (i : nat) (slot : option val) (b : option (@prog val store)) : Prop :=
  (exists f b0, fs !! i = Some f /\ (forall r, leaf b0 r -> leaf f r) /\ b = Some (task_body i b0) /\
     slot = Some dflt) \/
  (slot_done i slot /\ (b = None \/ exists v, b = Some (End (TValue v)))).

Definition proc_ok (G : ghost) (w : option tag) (x : option (@aproc val store)) : Prop :=
  match w, x with
  | None, None => True
  | Some TUser, Some x => user_proc x
  | Some TCaller, Some x => (exists b, rest x = Some b /\ caller_rest (ph G) (res G) b) /\
      harmless (captured x) /\ harmless (joined x)
  | Some (TTask i), Some x => task_rest i (res G !! i) (rest x) /\ captured x = drop_ref /\ harmless (joined x)
  | _, _ => False
  end.

(** The slot of a task that has no process. *)
Definition slot_ok (i : nat) (st : status) (slot : option val) : Prop :=
  match st with
  | SNot | SQueued _ => slot = Some dflt
  | SLive (Some _) _ => True
  | SLive None _ => slot_done i slot
  end.

Record consistent (G : ghost) : Prop := {
  cs_queue : forall t i, occ (TTask i) (qt G t) = if decide (gs G !! i ≫= queue_of = Some t) then 1%nat else 0%nat;
  cs_caller_queue : forall t, occ TCaller (qt G t) =
    match ph G with InQueue => if decide (t = t0) then 1%nat else 0%nat | _ => 0%nat end;
  cs_proc : forall p i, who G p = Some (TTask i) <-> gs G !! i ≫= proc_of = Some p;
  cs_caller : forall p, who G p = Some TCaller <-> caller_at (ph G) = Some p;
  cs_close : forall t i, cw G t = Some (Some i) <-> gs G !! i ≫= close_of = Some t;
  cs_gs : length (gs G) = length fs;
  cs_res : length (res G) = length fs;
  cs_launched : forall i st, gs G !! i = Some st -> st = SNot <-> (launched (ph G) <= i)%nat;
  cs_bound : (launched (ph G) <= length fs)%nat;
  cs_slots : forall i st, gs G !! i = Some st -> slot_ok i st (res G !! i);
  cs_setting : forall p, ph G = Setting p -> count G = 0%nat;
}.

Record sinv (G : ghost) (A : @aspec val store) : Prop := {
  si_consistent : consistent G;
  si_funcs : forall t, Forall2 func_ok (qt G t) (pend A t);
  si_close : forall t, close_ok (cw G t) (closing A t);
  si_procs : forall p, proc_ok G (who G p) (procs A p);
  si_ctx : ctx_ (a_memory A) =
    match count G with 0%nat => None | S _ => Some (mkContext (count G) (res G)) end;
  si_dangling : dangling (a_memory A) = false;
  si_fut : a_futs A !! 0%nat =
    if published (ph G) && bool_decide (count G = 0%nat) then Some (TValue (pack (res G))) else None;
}.

(** ** The counts *)

Lemma sum_insert {A} (f : A -> nat) l i x y :
  l !! i = Some x -> (sum_list_with f (<[i := y]> l) + f x = sum_list_with f l + f y)%nat.
Proof.
  revert i. induction l as [|z l IH]; intros i; [done|]. destruct i as [|i]; cbn.
  - intros [= ->]. lia.
  - intros Hi. rewrite <- !Nat.add_assoc. f_equal. by apply IH.
Qed.

Lemma sum_zero {A} (f : A -> nat) l i x : sum_list_with f l = 0%nat -> l !! i = Some x -> f x = 0%nat.
Proof.
  revert i. induction l as [|z l IH]; intros i; [done|]. destruct i as [|i]; cbn.
  - intros H [= ->]. lia.
  - intros H Hi. eapply IH; [lia|done].
Qed.

Lemma sum_all_zero {A} (f : A -> nat) l : (forall x, x ∈ l -> f x = 0%nat) -> sum_list_with f l = 0%nat.
Proof.
  induction l as [|z l IH]; cbn; [done|]. intros H. rewrite H by left. rewrite IH; [done|].
  intros x Hx. apply H. by right.
Qed.

(** ** Changes of the ghost state *)

Lemma consistent_ext G qt' cw' who' :
  consistent G -> (forall t x, x <> TUser -> occ x (qt' t) = occ x (qt G t)) ->
  (forall t i, cw' t = Some (Some i) <-> cw G t = Some (Some i)) ->
  (forall p x, x <> TUser -> who' p = Some x <-> who G p = Some x) ->
  consistent (Ghost (gs G) (res G) (ph G) qt' cw' who').
Proof.
  intros [C1 C2 C3 C4 C5 C6 C7 C8 C9 C10 C11] Hq Hc Hw. constructor; try done; cbn.
  - intros t i. by rewrite Hq.
  - intros t. by rewrite Hq.
  - intros p i. by rewrite Hw.
  - intros p. by rewrite Hw.
  - intros t i. by rewrite Hc.
Qed.

(** The task [i] goes from a status to another one. *)
Lemma consistent_task G i st st' ph' qt' cw' who' :
  consistent G -> gs G !! i = Some st -> st' <> SNot ->
  (ph' = ph G /\ st <> SNot /\ (weight st = 0%nat -> weight st' = 0%nat)) \/
    (exists p, ph G = Launching p i true /\ ph' = Launching p (S i) false) ->
  (forall t x, x <> TUser -> x <> TTask i -> occ x (qt' t) = occ x (qt G t)) ->
  (forall t, occ (TTask i) (qt' t) = if decide (queue_of st' = Some t) then 1%nat else 0%nat) ->
  (forall t j, j <> i -> cw' t = Some (Some j) <-> cw G t = Some (Some j)) ->
  (forall t, cw' t = Some (Some i) <-> close_of st' = Some t) ->
  (forall p x, x <> TUser -> x <> TTask i -> who' p = Some x <-> who G p = Some x) ->
  (forall p, who' p = Some (TTask i) <-> proc_of st' = Some p) ->
  slot_ok i st' (res G !! i) ->
  consistent (Ghost (<[i := st']> (gs G)) (res G) ph' qt' cw' who').
Proof.
  intros [C1 C2 C3 C4 C5 C6 C7 C8 C9 C10 C11] Hi Hst' Hph Hq Hqi Hc Hci Hw Hwi Hslot.
  assert (Hlt : (i < length (gs G))%nat) by by eapply lookup_lt_Some.
  assert (Hcases : forall j y, <[i := st']> (gs G) !! j = Some y ->
    (j = i /\ y = st') \/ (j <> i /\ gs G !! j = Some y)).
  { intros j y. destruct (decide (j = i)) as [->|Hj].
    - rewrite list_lookup_insert_eq by done. intros [= ->]. auto.
    - rewrite list_lookup_insert_ne by done. auto. }
  assert (Hget : forall (B : Type) (f : status -> option B) j,
    <[i := st']> (gs G) !! j ≫= f = if decide (j = i) then f st' else gs G !! j ≫= f).
  { intros B f j. case_decide; [subst; by rewrite list_lookup_insert_eq|by rewrite list_lookup_insert_ne]. }
  constructor; cbn; rewrite ?length_insert; try done.
  - intros t j. rewrite Hget. destruct (decide (j = i)) as [->|Hj]; [apply Hqi|].
    rewrite Hq by congruence. apply C1.
  - intros t. rewrite Hq by done. rewrite C2. destruct Hph as [(-> & _)|(p & -> & ->)]; done.
  - intros p j. rewrite Hget. destruct (decide (j = i)) as [->|Hj]; [apply Hwi|].
    rewrite Hw by congruence. apply C3.
  - intros p. rewrite Hw by done. rewrite C4. destruct Hph as [(-> & _)|(p' & -> & ->)]; done.
  - intros t j. rewrite Hget. destruct (decide (j = i)) as [->|Hj]; [apply Hci|]. by rewrite Hc.
  - intros j y [[-> ->]|[Hj Hy]]%Hcases.
    + destruct Hph as [(-> & Hn & _)|(p & _ & ->)]; cbn; [|split; [done|lia]].
      split; [done|]. intros Hle. by apply (C8 i st Hi) in Hle.
    + rewrite (C8 j y Hy). destruct Hph as [(-> & _)|(p & E & ->)]; [done|]. rewrite E. cbn. lia.
  - destruct Hph as [(-> & _)|(p & E & ->)]; [done|]. cbn. lia.
  - intros j y [[-> ->]|[Hj Hy]]%Hcases; [done|by apply C10].
  - intros p Hp. unfold count in *. cbn. destruct Hph as [(-> & _ & Hwt)|(p' & _ & ->)]; [|done].
    specialize (C11 p Hp). pose proof (sum_insert weight (gs G) i st st' Hi) as Hs.
    pose proof (sum_zero weight (gs G) i st ltac:(lia) Hi). lia.
Qed.

(** The caller goes on. *)
Lemma consistent_phase G ph' qt' who' :
  consistent G -> launched ph' = launched (ph G) ->
  (forall t i, occ (TTask i) (qt' t) = occ (TTask i) (qt G t)) ->
  (forall t, occ TCaller (qt' t) =
     match ph' with InQueue => if decide (t = t0) then 1%nat else 0%nat | _ => 0%nat end) ->
  (forall p i, who' p = Some (TTask i) <-> who G p = Some (TTask i)) ->
  (forall p, who' p = Some TCaller <-> caller_at ph' = Some p) ->
  (forall p, ph' = Setting p -> sum_list_with weight (gs G) = 0%nat) ->
  consistent (Ghost (gs G) (res G) ph' qt' (cw G) who').
Proof.
  intros [C1 C2 C3 C4 C5 C6 C7 C8 C9 C10 C11] Hl Hq Hqc Hw Hwc Hs. constructor; try done; cbn.
  - intros t i. by rewrite Hq.
  - intros p i. by rewrite Hw.
  - intros i st. rewrite Hl. apply C8.
  - by rewrite Hl.
  - intros p ->. unfold count. cbn. by apply (Hs p).
Qed.

Lemma consistent_res G i v p cl :
  consistent G -> gs G !! i = Some (SLive (Some p) cl) ->
  consistent (Ghost (gs G) (<[i := v]> (res G)) (ph G) (qt G) (cw G) (who G)).
Proof.
  intros [C1 C2 C3 C4 C5 C6 C7 C8 C9 C10 C11] Hi. constructor; try done; cbn.
  - by rewrite length_insert.
  - intros j st Hj. destruct (decide (j = i)) as [->|Hne].
    + rewrite Hi in Hj. by injection Hj as <-.
    + rewrite list_lookup_insert_ne by done. by apply C10.
Qed.

Lemma proc_ok_ext G G' w x :
  proc_ok G w x -> (forall i, w = Some (TTask i) -> res G' !! i = res G !! i) ->
  (forall b, w = Some TCaller -> caller_rest (ph G) (res G) b -> caller_rest (ph G') (res G') b) ->
  proc_ok G' w x.
Proof.
  destruct w as [[| |i]|], x as [x|]; cbn; try done.
  - intros ((b & Hb & Hc) & H) _ Hr. split; [|done]. exists b. auto.
  - intros H Hi _. by rewrite Hi.
Qed.

(** ** The steps *)

(** The context and the promise are left alone. *)
Lemma sinv_quiet G A A' qt' cw' who' :
  sinv G A -> same_object (a_memory A) (a_memory A') -> a_futs A' !! 0%nat = a_futs A !! 0%nat ->
  (forall t, Forall2 func_ok (qt' t) (pend A' t)) -> (forall t, close_ok (cw' t) (closing A' t)) ->
  (forall p, proc_ok G (who' p) (procs A' p)) ->
  (forall t x, x <> TUser -> occ x (qt' t) = occ x (qt G t)) ->
  (forall t i, cw' t = Some (Some i) <-> cw G t = Some (Some i)) ->
  (forall p x, x <> TUser -> who' p = Some x <-> who G p = Some x) ->
  sinv (Ghost (gs G) (res G) (ph G) qt' cw' who') A'.
Proof.
  intros [I1 I2 I3 I4 I5 I6 I7] Hm Hf Hq Hc Hp Eq Ec Ew.
  constructor; [by apply consistent_ext|done|done|done|..].
  - unfold ctx_. by rewrite Hm.
  - unfold dangling. by rewrite Hm.
  - by rewrite Hf, I7.
Qed.

(** A process with a tag that is not the user's keeps it. *)
Lemma sinv_benign G A A' p x X :
  sinv G A -> who G p = Some x -> proc_ok G (Some x) X -> benign p X A A' -> exists G', sinv G' A'.
Proof.
  intros H Hp HX [B1 B2 B3 B4].
  assert (Hpx : forall q, proc_ok G (who G q) (<[p := X]> (procs A) q)).
  { intros q. rewrite fn_insert_case. case_decide; [subst; by rewrite Hp|apply H]. }
  destruct B4 as [[E1 E2]|[(m & y & Hm & Hy & E1 & E2)|(w & g & Hg & E1 & E2)]].
  - exists (Ghost (gs G) (res G) (ph G) (qt G) (cw G) (who G)). eapply sinv_quiet; try done.
    + rewrite E2. apply H.
    + rewrite B3. apply H.
    + by rewrite E1.
  - assert (Hw : who G m = None).
    { pose proof (si_procs _ _ H m) as Hok. rewrite Hm in Hok. by destruct (who G m) as [[]|]. }
    exists (Ghost (gs G) (res G) (ph G) (qt G) (cw G) (<[m := Some TUser]> (who G))).
    eapply sinv_quiet; try done.
    + rewrite E2. apply H.
    + rewrite B3. apply H.
    + intros q. rewrite E1, (fn_insert_case m q), (fn_insert_case m q). case_decide; [done|apply Hpx].
    + intros q z Hz. rewrite fn_insert_case. case_decide; [subst|done]. rewrite Hw. split; congruence.
  - exists (Ghost (gs G) (res G) (ph G) (<[w := qt G w ++ [TUser]]> (qt G)) (cw G) (who G)).
    eapply sinv_quiet; try done.
    + intros t. rewrite E2, !fn_insert_case. case_decide; [subst|apply H].
      apply Forall2_app; [apply H|by constructor].
    + rewrite B3. apply H.
    + by rewrite E1.
    + intros t z Hz. rewrite fn_insert_case. case_decide; [subst|done].
      rewrite occ_app, (occ_other z TUser [TUser]); [lia|done|by constructor].
Qed.

(** A [shared_ptr] less. *)
Lemma drop_ctx m c rs :
  ctx_ m = Some (mkContext (S c) rs) ->
  drop_ref m = (set_ctx_ (match c with 0%nat => None | S _ => Some (mkContext c rs) end) m,
                match c with 0%nat => Some (0%nat, TValue (pack rs)) | S _ => None end).
Proof. intros E. unfold drop_ref. rewrite E. by destruct c. Qed.

Lemma sinv_drop G A A' m fu i st st' qt' cw' who' :
  sinv G A -> gs G !! i = Some st -> st <> SNot -> weight st = S (weight st') ->
  same_object (a_memory A) m -> fu !! 0%nat = a_futs A !! 0%nat ->
  a_memory A' = (drop_ref m).1 -> a_futs A' = settle (drop_ref m).2 fu ->
  let G' := Ghost (<[i := st']> (gs G)) (res G) (ph G) qt' cw' who' in
  consistent G' ->
  (forall t, Forall2 func_ok (qt' t) (pend A' t)) -> (forall t, close_ok (cw' t) (closing A' t)) ->
  (forall p, proc_ok G (who' p) (procs A' p)) -> sinv G' A'.
Proof.
  intros [I1 I2 I3 I4 I5 I6 I7] Hi Hst Hw Hm Hfu Em Ef G' HG' Hq Hc Hp.
  assert (Hm1 : ctx_ m = ctx_ (a_memory A)) by (unfold ctx_; by rewrite Hm).
  assert (Hm2 : dangling m = dangling (a_memory A)) by (unfold dangling; by rewrite Hm).
  pose proof (sum_insert weight (gs G) i st st' Hi) as Hsum.
  assert (Hcount : count G = S (count G')) by (unfold count; cbn; lia).
  rewrite I5, Hcount in Hm1. rewrite (drop_ctx m _ _ Hm1) in Em, Ef.
  rewrite I7, Hcount, bool_decide_eq_false_2, andb_false_r in Hfu by done.
  constructor; try done.
  - by rewrite Em.
  - rewrite Em. cbn. by rewrite Hm2.
  - rewrite Ef. destruct (count G') as [|c] eqn:Ec; cbn.
    + rewrite Hfu, lookup_insert_eq.
      assert (published (ph G) = true) as ->; [|done].
      pose proof (cs_setting _ I1) as Hset. pose proof (cs_launched _ I1 i st Hi) as Hl.
      assert (Hh : held (ph G) = 0%nat) by (unfold count in Ec; cbn in Ec; lia).
      destruct (ph G) as [|p|p j [|]|p|p|] eqn:Eph; try done; cbn in Hl.
      * destruct Hst. apply Hl. lia.
      * destruct Hst. apply Hl. lia.
      * specialize (Hset p eq_refl). lia.
    + by rewrite Hfu, andb_false_r.
Qed.

(** A process that has ended is destroyed. *)
Lemma sinv_destroy G A p x :
  sinv G A -> procs A p = Some x -> rest x = None ->
  exists G', sinv G' (a_act (captured x) (a_act (joined x) (set_proc p None A))).
Proof.
  intros H Hp Hx. pose proof (si_procs _ _ H p) as Hok. rewrite Hp in Hok. rewrite a_act2.
  destruct (who G p) as [[| |i]|] eqn:Ew; cbn in Hok; try done.
  - destruct Hok as (_ & Hc & Hj). eexists. eapply (sinv_quiet G A _ (qt G) (cw G) (<[p := None]> (who G)));
      try done; try apply H; cbn.
    + by apply harmless_twice.
    + by rewrite !settle_harmless.
    + intros q. rewrite !fn_insert_case. case_decide; [done|apply H].
    + intros q z Hz. rewrite fn_insert_case. case_decide; [subst|done]. rewrite Ew. split; congruence.
  - destruct Hok as ((b & Hb & _) & _). congruence.
  - destruct Hok as (Hr & Hc & Hj). rewrite Hc.
    pose proof (proj1 (cs_proc _ (si_consistent _ _ H) p i) Ew) as (st & Hst & Hpst)%bind_Some.
    destruct st as [|t|p' cl]; try done. cbn in Hpst. subst p'.
    eexists. eapply (sinv_drop G A _ (joined x (a_memory A)).1 (settle (joined x (a_memory A)).2 (a_futs A))
      i _ (SLive None cl) (qt G) (cw G) (<[p := None]> (who G))); try done; try apply H; try apply Hj.
    + by rewrite settle_harmless.
    + pose proof (si_consistent _ _ H) as HC.
      apply (consistent_task G i (SLive (Some p) cl) (SLive None cl)); try done; cbn.
      * left. split; [done|]. split; [done|]. unfold weight. cbn. lia.
      * intros t. rewrite (cs_queue _ HC), Hst. done.
      * intros t. by rewrite (cs_close _ HC), Hst.
      * intros q z Hz Hzi. rewrite fn_insert_case. case_decide; [subst|done]. rewrite Ew. split; congruence.
      * intros q. rewrite fn_insert_case. case_decide; [by split|]. rewrite (cs_proc _ HC), Hst. cbn.
        split; congruence.
      * destruct Hr as [(f & b0 & _ & _ & E & _)|[Hs _]]; [congruence|done].
    + intros q. cbn. rewrite !fn_insert_case. case_decide; [done|apply H].
Qed.

(** The worker destroys the lambda that it has run. *)
Lemma sinv_close G A t d :
  sinv G A -> closing A t = Some d ->
  exists G', sinv G' (a_act d (ASpec (procs A) (pend A) (<[t := None]> (closing A)) (a_futs A) (a_memory A))).
Proof.
  intros H Hd. pose proof (si_close _ _ H t) as Hok. rewrite Hd in Hok. rewrite a_act_eq. cbn.
  pose proof (si_consistent _ _ H) as HC.
  destruct (cw G t) as [[i|]|] eqn:Ew; cbn in Hok; try done.
  - subst d. pose proof (proj1 (cs_close _ HC t i) Ew) as (st & Hst & Hcl)%bind_Some.
    destruct st as [|w|p cl]; try done. cbn in Hcl. subst cl.
    eexists. eapply (sinv_drop G A _ (a_memory A) (a_futs A)
      i _ (SLive p None) (qt G) (<[t := None]> (cw G)) (who G)); try done; try apply H.
    + unfold weight. cbn. lia.
    + apply (consistent_task G i (SLive p (Some t)) (SLive p None)); try done; cbn.
      * left. split; [done|]. split; [done|]. unfold weight. cbn. lia.
      * intros w. by rewrite (cs_queue _ HC), Hst.
      * intros w j Hj. rewrite fn_insert_case. case_decide; [subst|done]. rewrite Ew. split; congruence.
      * intros w. rewrite fn_insert_case. case_decide; [by split|]. rewrite (cs_close _ HC), Hst. cbn.
        split; congruence.
      * intros q. by rewrite (cs_proc _ HC), Hst.
      * by pose proof (cs_slots _ HC i _ Hst).
    + intros w. cbn. rewrite !fn_insert_case. case_decide; [done|apply H].
  - eexists. eapply (sinv_quiet G A _ (qt G) (<[t := None]> (cw G)) (who G)); try done; try apply H; cbn.
    + apply Hok.
    + by apply settle_harmless.
    + intros w. rewrite !fn_insert_case. case_decide; [done|apply H].
    + intros w i. rewrite fn_insert_case. case_decide; [subst|done]. rewrite Ew. split; congruence.
Qed.

Lemma who_fresh G A m : sinv G A -> procs A m = None -> who G m = None.
Proof.
  intros H Hm. pose proof (si_procs _ _ H m) as Hok. rewrite Hm in Hok. by destruct (who G m) as [[]|].
Qed.

Lemma cw_fresh G A t : sinv G A -> closing A t = None -> cw G t = None.
Proof.
  intros H Ht. pose proof (si_close _ _ H t) as Hok. rewrite Ht in Hok. by destruct (cw G t) as [[]|].
Qed.

(** One more [shared_ptr], for a task that was made. *)
Lemma copy_ctx m c rs :
  ctx_ m = Some (mkContext c rs) -> copy_ref m = set_ctx_ (Some (mkContext (S c) rs)) m.
Proof. intros E. unfold copy_ref. by rewrite E. Qed.

(** A worker takes a function from its queue: one of the program's, *)
Lemma sinv_start_user G A t m g q l :
  sinv G A -> qt G t = TUser :: l -> user_func g -> Forall2 func_ok l q -> closing A t = None -> procs A m = None ->
  exists G', sinv G' (started t m g q A).
Proof.
  intros H Eq ((b & Hb) & (Hcopy & Hd) & Hj) Hl Hcl Hm.
  pose proof (who_fresh G A m H Hm) as Hw. pose proof (cw_fresh G A t H Hcl) as Hc.
  destruct (occ_take _ t _ _ Eq) as (Hocc & _ & _). eexists.
  eapply (sinv_quiet G A _ (<[t := l]> (qt G)) (<[t := Some None]> (cw G)) (<[m := Some TUser]> (who G)));
    try done; cbn.
  - intros t'. by apply Forall2_take; [apply H|].
  - intros t'. rewrite !fn_insert_case. case_decide; [done|apply H].
  - intros p. rewrite !fn_insert_case. case_decide; [|apply H]. split; [|done]. right. exists b. by rewrite <- Hb.
  - intros t' i. rewrite fn_insert_case. case_decide; [subst|done]. rewrite Hc. split; congruence.
  - intros p y Hy. rewrite fn_insert_case. case_decide; [subst|done]. rewrite Hw. split; congruence.
Qed.

(** the caller, *)
Lemma sinv_start_caller G A t m q l :
  sinv G A -> qt G t = TCaller :: l -> Forall2 func_ok l q -> closing A t = None -> procs A m = None ->
  exists G', sinv G' (started t m caller q A).
Proof.
  intros H Eq Hl Hcl Hm. pose proof (si_consistent _ _ H) as HC.
  pose proof (who_fresh G A m H Hm) as Hw. pose proof (cw_fresh G A t H Hcl) as Hc.
  destruct (occ_take _ t _ _ Eq) as (Hocc & Hocc' & Hpos). pose proof (cs_caller_queue _ HC t) as Ho.
  destruct (ph G) as [|p|p j c|p|p|] eqn:Eph; try lia. case_decide as Ht; [|lia].
  assert (HC' : consistent (Ghost (gs G) (res G) (Called m) (<[t := l]> (qt G)) (cw G) (<[m := Some TCaller]> (who G)))).
  { apply consistent_phase; try done.
    - by rewrite Eph.
    - intros t' i. by apply Hocc.
    - intros t'. rewrite Hocc', (cs_caller_queue _ HC), Eph. subst t. case_decide; lia.
    - intros p i. rewrite fn_insert_case. case_decide; [subst|done]. rewrite Hw. split; congruence.
    - intros p. cbn. rewrite fn_insert_case. case_decide; [subst; done|].
      rewrite (cs_caller _ HC), Eph. cbn. split; congruence. }
  set (G' := Ghost (gs G) (res G) (Called m) (<[t := l]> (qt G)) (<[t := Some None]> (cw G)) (<[m := Some TCaller]> (who G))).
  assert (Hcount : count G' = count G) by (unfold count; cbn; by rewrite Eph).
  exists G'. constructor; rewrite ?Hcount; try apply H; try done; cbn.
  - apply (consistent_ext _ (<[t := l]> (qt G)) (<[t := Some None]> (cw G)) (<[m := Some TCaller]> (who G)) HC');
      try done. intros t' i. cbn. rewrite fn_insert_case. case_decide; [subst|done]. rewrite Hc. split; congruence.
  - intros t'. by apply Forall2_take; [apply H|].
  - intros t'. rewrite !fn_insert_case. case_decide; [apply harmless_none|apply H].
  - intros p. rewrite !fn_insert_case. case_decide.
    + split; [by eexists|]. split; apply harmless_none.
    + eapply proc_ok_ext; [apply H|done|]. by rewrite Eph.
  - rewrite (si_fut _ _ H), Eph. done.
Qed.

(** or a task, whose lambda is copied. *)
Lemma sinv_start_task G A t m i f q l :
  sinv G A -> qt G t = TTask i :: l -> fs !! i = Some f -> Forall2 func_ok l q -> closing A t = None ->
  procs A m = None -> exists G', sinv G' (started t m (Func (task_body i f) task_owned no_callback) q A).
Proof.
  intros H Eq Hf Hl Hcl Hm. pose proof (si_consistent _ _ H) as HC.
  pose proof (who_fresh G A m H Hm) as Hw. pose proof (cw_fresh G A t H Hcl) as Hc.
  destruct (occ_take _ t _ _ Eq) as (Hocc & Hocc' & Hpos).
  assert (Hst : gs G !! i = Some (SQueued t)).
  { pose proof (cs_queue _ HC t i) as Ho. case_decide as Hb; [|lia]. apply bind_Some in Hb as (st & Hst & Hqs).
    destruct st; try done. cbn in Hqs. congruence. }
  pose proof (sum_insert weight (gs G) i _ (SLive (Some m) (Some t)) Hst) as Hsum.
  set (G' := Ghost (<[i := SLive (Some m) (Some t)]> (gs G)) (res G) (ph G) (<[t := l]> (qt G))
    (<[t := Some (Some i)]> (cw G)) (<[m := Some (TTask i)]> (who G))).
  assert (Hcount : count G' = S (count G) /\ count G <> 0%nat).
  { unfold count. subst G'. cbn [gs ph]. change (weight (SQueued t)) with 1%nat in Hsum.
    change (weight (SLive (Some m) (Some t))) with 2%nat in Hsum. split; [lia|]. intros Hz.
    by pose proof (sum_zero weight (gs G) i _ ltac:(lia) Hst). }
  destruct Hcount as [Hcount Hpos'].
  assert (Hctx : ctx_ (a_memory A) = Some (mkContext (count G) (res G))) by (rewrite (si_ctx _ _ H); by destruct (count G)).
  exists G'. constructor; try done; cbn [a_memory a_futs started set_proc owns copy task_owned].
  - apply (consistent_task G i (SQueued t)); try done; cbn.
    + left. by split.
    + intros t' y Hy Hyi. by apply Hocc.
    + intros t'. rewrite Hocc', (cs_queue _ HC), Hst. cbn. repeat case_decide; try lia; congruence.
    + intros t' j Hj. rewrite fn_insert_case. case_decide; [subst|done]. rewrite Hc. split; congruence.
    + intros t'. rewrite fn_insert_case. case_decide; [subst; done|].
      rewrite (cs_close _ HC), Hst. cbn. split; congruence.
    + intros p y Hy Hyi. rewrite fn_insert_case. case_decide; [subst|done]. rewrite Hw. split; congruence.
    + intros p. rewrite fn_insert_case. case_decide; [subst; done|].
      rewrite (cs_proc _ HC), Hst. cbn. split; congruence.
  - intros t'. by apply Forall2_take; [apply H|].
  - intros t'. cbn. rewrite !fn_insert_case. case_decide; [done|apply H].
  - intros p. cbn. rewrite !fn_insert_case. case_decide; [|apply H].
    split; [|split; [done|apply harmless_none]]. left. exists f, f. split_and!; try done.
    apply (cs_slots _ HC i _ Hst).
  - rewrite (copy_ctx _ _ _ Hctx), Hcount. done.
  - rewrite (copy_ctx _ _ _ Hctx). apply H.
  - rewrite (si_fut _ _ H), Hcount. rewrite !bool_decide_eq_false_2 by done. by rewrite !andb_false_r.
Qed.

Lemma sinv_start G A t m g q :
  sinv G A -> pend A t = g :: q -> closing A t = None -> procs A m = None -> exists G', sinv G' (started t m g q A).
Proof.
  intros H Hp Hcl Hm. pose proof (si_funcs _ _ H t) as Hq. rewrite Hp in Hq.
  apply Forall2_cons_inv_r in Hq as (x & l & Hg & Hl & Eq). destruct x as [| |i]; cbn in Hg.
  - by eapply sinv_start_user.
  - subst g. by eapply sinv_start_caller.
  - destruct Hg as (f & Hf & ->). by eapply sinv_start_task.
Qed.

(** A step of a task. *)
Lemma sinv_task G A A' p w m x i b :
  sinv G A -> procs A p = Some x -> who G p = Some (TTask i) -> rest x = Some b ->
  a_exec p w m x b A = Some A' -> exists G', sinv G' A'.
Proof.
  intros H Hp Hw Hb Hs. pose proof (si_consistent _ _ H) as HC.
  pose proof (si_procs _ _ H p) as Hok. rewrite Hp, Hw in Hok. destruct Hok as (Hr & Hc & Hj). rewrite Hb in Hr.
  assert (Hend : forall r, b = End r -> slot_done i (res G !! i) -> exists G', sinv G' A').
  { intros r -> Hd. cbn in Hs. injection Hs as <-.
    eapply (sinv_benign G A _ p (TTask i)); [done|done| |constructor; cbn; auto; done].
    split; [|done]. right. split; [done|by left]. }
  destruct Hr as [(f & b0 & Hf & Hl & [= ->] & Hslot)|[Hd [Hn|[v Ev]]]]; [|done|].
  2: { injection Ev as ->. by eapply Hend. }
  unfold task_body in Hs.
  destruct (call_step _ _ _ _ _ _ _ _ Hs) as [[r ->]|(b' & Hl' & Hbn)].
  - destruct r as [|v|e]; cbn in Hs;
      [by eapply Hend; [done|exists f, TNothing; split; [done|]; split; [apply Hl; constructor|done]]| |].
    2: { eapply Hend; [done|]. exists f, (TError e). split; [done|]. split; [apply Hl; constructor|done]. }
    injection Hs as <-. pose proof (proj1 (cs_proc _ HC p i) Hw) as (st & Hst & Hpst)%bind_Some.
    destruct st as [|t|p' cl]; try done. cbn in Hpst. subst p'.
    assert (Hlt : (i < length (res G))%nat) by by eapply lookup_lt_Some.
    assert (Hcount : count G <> 0%nat).
    { unfold count. intros Hz. by pose proof (sum_zero weight (gs G) i _ ltac:(lia) Hst). }
    assert (Hctx : ctx_ (a_memory A) = Some (mkContext (count G) (res G))) by (rewrite (si_ctx _ _ H); by destruct (count G)).
    assert (Em : set_result i v (a_memory A) = set_ctx_ (Some (mkContext (count G) (<[i := v]> (res G)))) (a_memory A)).
    { unfold set_result. rewrite Hctx. cbn. by rewrite decide_True. }
    exists (Ghost (gs G) (<[i := v]> (res G)) (ph G) (qt G) (cw G) (who G)).
    constructor; try apply H; cbn; rewrite ?Em.
    + by eapply consistent_res.
    + intros q. rewrite fn_insert_case. case_decide.
      * subst q. rewrite Hw. split; [|done]. right. split; [|eauto]. cbn. rewrite list_lookup_insert_eq by done.
        exists f, (TValue v). split; [done|]. split; [apply Hl; constructor|done].
      * eapply proc_ok_ext; [apply H|..].
        -- intros j Hj'. cbn. rewrite list_lookup_insert_ne; [done|]. intros <-.
           rewrite (cs_proc _ HC), Hst in Hj'. cbn in Hj'. congruence.
        -- cbn. intros b _. destruct (ph G) eqn:Eph; try done. pose proof (cs_setting _ HC _ Eph). done.
    + change (count (Ghost (gs G) (<[i:=v]> (res G)) (ph G) (qt G) (cw G) (who G))) with (count G).
      by destruct (count G).
    + apply (si_dangling _ _ H).
    + change (count (Ghost (gs G) (<[i:=v]> (res G)) (ph G) (qt G) (cw G) (who G))) with (count G).
      pose proof (si_fut _ _ H) as Hfut. rewrite bool_decide_eq_false_2, andb_false_r in * by done. exact Hfut.
  - eapply sinv_benign; [done|done| |done]. split; [|done]. left. exists f, b'. split; [done|]. auto.
Qed.

(** The caller goes on: what changes is the context, the promise and its process. *)
Lemma sinv_caller G A A' p x b ph' qt' who' :
  sinv G A -> who G p = Some TCaller -> harmless (captured x) -> harmless (joined x) ->
  let G' := Ghost (gs G) (res G) ph' qt' (cw G) who' in
  consistent G' -> (forall t, Forall2 func_ok (qt' t) (pend A' t)) -> closing A' = closing A ->
  (forall q, q <> p -> who' q = who G q) ->
  procs A' = <[p := Some (AProcess (Some b) (captured x) (joined x))]> (procs A) ->
  (who' p = Some TCaller /\ caller_rest ph' (res G) b) \/ (who' p = Some TUser /\ exists b0, b = call b0 End) ->
  ctx_ (a_memory A') = match count G' with 0%nat => None | S _ => Some (mkContext (count G') (res G)) end ->
  dangling (a_memory A') = dangling (a_memory A) ->
  a_futs A' !! 0%nat =
    (if published ph' && bool_decide (count G' = 0%nat) then Some (TValue (pack (res G))) else None) ->
  sinv G' A'.
Proof.
  intros H Hp Hc Hj G' HC Hq Hcl Hwho Hprocs Hrest Hctx Hd Hf.
  constructor; try done.
  - intros t. rewrite Hcl. apply H.
  - intros q. rewrite Hprocs, fn_insert_case. change (who G' q) with (who' q). destruct (decide (q = p)) as [->|Hqp].
    + destruct Hrest as [[-> Hr]|[-> [b0 ->]]].
      * split; [by eexists|done].
      * split; [right; by eexists|done].
    + rewrite Hwho by done. eapply proc_ok_ext; [apply H|done|]. intros b' Hq' _. exfalso.
      pose proof (si_consistent _ _ H) as HC0. rewrite (cs_caller _ HC0) in Hq', Hp. congruence.
  - by rewrite Hd, (si_dangling _ _ H).
Qed.

Lemma caller_consistent G ph' p :
  consistent G -> caller_at (ph G) = Some p -> caller_at ph' = Some p -> launched ph' = launched (ph G) ->
  (forall p, ph' = Setting p -> sum_list_with weight (gs G) = 0%nat) ->
  consistent (Ghost (gs G) (res G) ph' (qt G) (cw G) (who G)).
Proof.
  intros HC Hp Hp' Hl Hs. apply consistent_phase; try done.
  - intros t. rewrite (cs_caller_queue _ HC). by destruct (ph G), ph'.
  - intros q. rewrite (cs_caller _ HC). by rewrite Hp, Hp'.
Qed.

Lemma unlaunched_sum G : consistent G -> launched (ph G) = 0%nat -> sum_list_with weight (gs G) = 0%nat.
Proof.
  intros HC Hl. apply sum_all_zero. intros st (i & Hi)%list_elem_of_lookup.
  apply (cs_launched _ HC) in Hi as Hn. rewrite Hl in Hn. rewrite (proj2 Hn) in * by lia. done.
Qed.

Lemma unlaunched_res G : consistent G -> launched (ph G) = 0%nat -> res G = replicate (length fs) dflt.
Proof.
  intros HC Hl. apply list_eq. intros i. destruct (decide (i < length fs)%nat) as [Hi|Hi].
  - rewrite lookup_replicate_2 by done. destruct (gs G !! i) as [st|] eqn:Hst.
    + pose proof (cs_slots _ HC i st Hst) as Hs. apply (cs_launched _ HC) in Hst as Hn. rewrite Hl in Hn.
      rewrite (proj2 Hn) in * by lia. done.
    + apply lookup_ge_None in Hst. rewrite (cs_gs _ HC) in Hst. lia.
  - rewrite !lookup_ge_None_2; [done|rewrite length_replicate; lia|rewrite (cs_res _ HC); lia].
Qed.

(** The caller makes a task, which goes to a queue or runs in a process. *)
Lemma sinv_launch G A p j x f (st' : status) X pend' procs' qt' who' :
  sinv G A -> ph G = Launching p j true -> who G p = Some TCaller -> harmless (captured x) -> harmless (joined x) ->
  fs !! j = Some f -> weight st' = 1%nat -> close_of st' = None ->
  X = AProcess (Some (launch_all policy (S j) (List.skipn (S j) fs) (release (Await 0 (fun t => call (after t) End)))))
        (captured x) (joined x) ->
  (forall t, Forall2 func_ok (qt' t) (pend' t)) ->
  (forall t y, y <> TTask j -> occ y (qt' t) = occ y (qt G t)) ->
  (forall t, occ (TTask j) (qt' t) = if decide (queue_of st' = Some t) then 1%nat else 0%nat) ->
  (forall q, who' q = if decide (proc_of st' = Some q) then Some (TTask j) else who G q) ->
  (forall q, proc_of st' = Some q -> procs A q = None) ->
  (forall q, procs' q = if decide (proc_of st' = Some q) then
       Some (AProcess (Some (task_body j f)) drop_ref no_callback)
     else if decide (q = p) then Some X else procs A q) ->
  exists G', sinv G' (ASpec procs' pend' (closing A) (a_futs A) (a_memory A)).
Proof.
  intros H Eph Hp Hc Hj Hf Hwt Hcl -> Hq Hocc Hoj Hwho Hfresh Hprocs.
  pose proof (si_consistent _ _ H) as HC.
  assert (Hst : gs G !! j = Some SNot).
  { destruct (gs G !! j) as [st|] eqn:E.
    - apply (cs_launched _ HC) in E as Hn. rewrite Eph in Hn. cbn in Hn. by rewrite (proj2 Hn) by lia.
    - apply lookup_ge_None in E. rewrite (cs_gs _ HC) in E. apply lookup_lt_Some in Hf. lia. }
  assert (Hnp : proc_of st' <> Some p).
  { intros E. specialize (Hfresh p E). pose proof (si_procs _ _ H p) as Hok. by rewrite Hfresh, Hp in Hok. }
  assert (Hfr : forall q, proc_of st' = Some q -> who G q = None).
  { intros q E. by apply (who_fresh G A); [|apply Hfresh]. }
  set (G' := Ghost (<[j := st']> (gs G)) (res G) (Launching p (S j) false) qt' (cw G) who').
  assert (Hcount : count G' = count G).
  { unfold count, G'. cbn [gs ph]. rewrite Eph. cbn [held].
    pose proof (sum_insert weight (gs G) j _ st' Hst) as Hs. rewrite Hwt in Hs.
    change (weight SNot) with 0%nat in Hs. lia. }
  assert (Hslot : res G !! j = Some dflt) by apply (cs_slots _ HC j _ Hst).
  exists G'. constructor; try done; rewrite ?Hcount; try apply H.
  - apply (consistent_task G j SNot st'); try done.
    + by intros ->.
    + right. by exists p.
    + intros t y _. apply Hocc.
    + intros t. by rewrite (cs_close _ HC), Hst, Hcl.
    + intros q y Hy Hyj. rewrite Hwho. case_decide as E; [|done]. rewrite (Hfr q E). split; congruence.
    + intros q. rewrite Hwho. case_decide as E; [done|]. rewrite (cs_proc _ HC), Hst. cbn. by split.
    + destruct st' as [|w|[q|] cl]; cbn; try done. cbn in Hcl. by subst cl.
  - intros q. cbn [who G' procs]. rewrite Hwho, Hprocs. case_decide as E; [|case_decide as E'].
    + split; [|split; [done|apply harmless_none]]. left. exists f, f. by split_and!.
    + subst q. rewrite Hp. split; [|done]. cbn. eexists. by split.
    + eapply proc_ok_ext; [apply H|done|]. intros b Hb _. exfalso.
      rewrite (cs_caller _ HC), Eph in Hb. injection Hb as ->. done.
  - pose proof (si_fut _ _ H) as Hfut. by rewrite Eph in Hfut.
Qed.

(** The step that launches a task. *)
Lemma sinv_launch_step G A A' p w m j x b :
  sinv G A -> ph G = Launching p j true -> who G p = Some TCaller -> harmless (captured x) -> harmless (joined x) ->
  caller_rest (ph G) (res G) b -> a_exec p w m x b A = Some A' -> exists G', sinv G' A'.
Proof.
  intros H Eph Hw Hc Hj Hr Hs. pose proof (si_consistent _ _ H) as HC. rewrite Eph in Hr.
  destruct Hr as (f & Hf & ->).
  assert (Hno : forall t, gs G !! j ≫= queue_of <> Some t).
  { intros t (st & Hst & Hqs)%bind_Some. apply (cs_launched _ HC) in Hst as Hn. rewrite Eph in Hn. cbn in Hn.
    by rewrite (proj2 Hn) in Hqs by lia. }
  assert (Hpol : policy = Launch_Schedule \/ policy = Launch_Current) by (destruct policy; auto).
  destruct Hpol as [Epol|Epol]; unfold launch in Hs; rewrite Epol in Hs at 1; cbn in Hs.
  - injection Hs as <-.
    eapply (sinv_launch G A p j x f (SQueued w) _ _ _ (<[w := qt G w ++ [TTask j]]> (qt G)) (who G)); try done; cbn.
    + intros t. rewrite !fn_insert_case. case_decide; [subst|apply H].
      apply Forall2_app; [apply H|]. constructor; [|done]. by exists f.
    + intros t y Hy. rewrite fn_insert_case. case_decide; [subst|done]. rewrite occ_app. cbn.
      rewrite decide_False by done. lia.
    + intros t. pose proof (cs_queue _ HC t j) as E. rewrite decide_False in E by apply Hno.
      rewrite fn_insert_case. destruct (decide (t = w)) as [->|Ht].
      * rewrite occ_app, E. cbn. by rewrite !decide_True.
      * rewrite E, decide_False; [done|congruence].
    + intros q. rewrite ?fn_insert_case. repeat case_decide; congruence.
  - destruct (procs A m) eqn:Hm; [done|]. injection Hs as <-.
    eapply (sinv_launch G A p j x f (SLive (Some m) None) _ _ _ (qt G) (<[m := Some (TTask j)]> (who G))); try done; cbn.
    + apply H.
    + intros t. rewrite (cs_queue _ HC), !decide_False; [done|done|apply Hno].
    + intros q. rewrite fn_insert_case. repeat case_decide; congruence.
    + intros q [= <-]. done.
    + intros q. rewrite !fn_insert_case. repeat case_decide; congruence.
Qed.

(** The step of the loop: it makes a lambda, or it is over and [context] goes. *)
Lemma sinv_loop_step G A A' p w m j x b :
  sinv G A -> ph G = Launching p j false -> who G p = Some TCaller -> harmless (captured x) -> harmless (joined x) ->
  caller_rest (ph G) (res G) b -> a_exec p w m x b A = Some A' -> exists G', sinv G' A'.
Proof.
  intros H Eph Hw Hc Hj Hr Hs. pose proof (si_consistent _ _ H) as HC. rewrite Eph in Hr. cbn in Hr.
  pose proof (si_ctx _ _ H) as Hctx. pose proof (si_fut _ _ H) as Hfut. rewrite Eph in Hfut. cbn in Hfut.
  assert (Hcount : count G = S (sum_list_with weight (gs G))) by (unfold count; by rewrite Eph).
  rewrite Hcount in Hctx. destruct (fs !! j) as [f|] eqn:Hf.
  - rewrite (drop_S _ _ _ Hf) in Hr. subst b. injection Hs as <-.
    eexists. eapply (sinv_caller G A _ p x _ (Launching p j true) (qt G) (who G)); try done; cbn.
    + apply (caller_consistent G (Launching p j true) p); try done; by rewrite Eph.
    + apply H.
    + left. split; [done|]. exists f. by split.
    + by rewrite (copy_ctx _ _ _ Hctx).
    + by rewrite (copy_ctx _ _ _ Hctx).
  - pose proof (cs_bound _ HC) as Hbd. rewrite Eph in Hbd. cbn in Hbd. apply lookup_ge_None in Hf.
    assert (Ej : j = length fs) by lia. subst j. rewrite drop_all in Hr. subst b. injection Hs as <-.
    rewrite !(drop_ctx _ _ _ Hctx). cbn [fst snd].
    destruct (sum_list_with weight (gs G)) as [|c] eqn:Es.
    + eexists. eapply (sinv_caller G A _ p x _ (Setting p) (qt G) (who G)); try done; cbn.
      * apply (caller_consistent G (Setting p) p); try done; by rewrite Eph.
      * apply H.
      * left. by split.
      * unfold count. cbn. by rewrite Es.
    + eexists. eapply (sinv_caller G A _ p x _ (Awaiting p) (qt G) (who G)); try done; cbn.
      * apply (caller_consistent G (Awaiting p) p); try done; by rewrite Eph.
      * apply H.
      * left. by split.
      * unfold count. cbn. by rewrite Es.
      * unfold count. cbn. by rewrite Es.
Qed.

Lemma sinv_caller_step G A A' p w m x b :
  sinv G A -> procs A p = Some x -> who G p = Some TCaller -> rest x = Some b ->
  a_exec p w m x b A = Some A' -> exists G', sinv G' A'.
Proof.
  intros H Hp Hw Hb Hs. pose proof (si_consistent _ _ H) as HC.
  pose proof (si_procs _ _ H p) as Hok. rewrite Hp, Hw in Hok. destruct Hok as ((b' & Hb' & Hr) & Hc & Hj).
  assert (b' = b) as -> by congruence. clear Hb'.
  assert (Hat : caller_at (ph G) = Some p) by by apply (cs_caller _ HC).
  pose proof (si_ctx _ _ H) as Hctx. pose proof (si_fut _ _ H) as Hfut.
  destruct (ph G) as [|q|q j [|]|q|q|] eqn:Eph; try done; injection Hat as ->; cbn in Hr, Hfut.
  - subst b. injection Hs as <-.
    eexists. eapply (sinv_caller G A _ p x _ (Launching p 0 false) (qt G) (who G)); try done; cbn.
    + apply (caller_consistent G (Launching p 0 false) p); try done; by rewrite Eph.
    + apply H.
    + left. by split.
    + unfold count. cbn. rewrite unlaunched_sum, unlaunched_res by (try done; by rewrite Eph). done.
  - eapply sinv_launch_step; try done. by rewrite Eph.
  - eapply sinv_loop_step; try done. by rewrite Eph.
  - subst b. pose proof (cs_setting _ HC _ Eph) as Hz. cbn in Hs. rewrite Hfut in Hs. injection Hs as <-.
    assert (Hsum : sum_list_with weight (gs G) = 0%nat) by (unfold count in Hz; rewrite Eph in Hz; done).
    eexists. eapply (sinv_caller G A _ p x _ (Awaiting p) (qt G) (who G)); try done; cbn.
    + apply (caller_consistent G (Awaiting p) p); try done; by rewrite Eph.
    + apply H.
    + left. by split.
    + rewrite Hctx, Hz. unfold count. cbn. by rewrite Hsum.
    + unfold count. cbn. by rewrite Hsum, lookup_insert_eq.
  - subst b. cbn in Hs. destruct (a_futs A !! 0%nat) as [v|] eqn:Ev; cbn in Hs; [|done]. injection Hs as <-.
    case_bool_decide as Hz; [|done].
    assert (Hsum : sum_list_with weight (gs G) = 0%nat) by (unfold count in Hz; rewrite Eph in Hz; done).
    eexists. eapply (sinv_caller G A _ p x _ Returned (qt G) (<[p := Some TUser]> (who G))); try done; cbn.
    + apply consistent_phase; try done.
      * by rewrite Eph.
      * intros t. by rewrite (cs_caller_queue _ HC), Eph.
      * intros q i. rewrite fn_insert_case. case_decide; [subst; rewrite Hw|done]. split; congruence.
      * intros q. rewrite fn_insert_case. case_decide; [done|]. rewrite (cs_caller _ HC), Eph. cbn. split; congruence.
    + apply H.
    + intros q Hq. by rewrite fn_lookup_insert_ne.
    + right. rewrite fn_lookup_insert. split; [done|by eexists].
    + rewrite Hctx, Hz. unfold count. cbn. by rewrite Hsum.
    + unfold count. cbn. by rewrite Hsum, Ev, Hfut.
Qed.

Lemma sinv_step G A A' l :
  sinv G A -> a_step (external := collect_external) l A = Some A' -> exists G', sinv G' A'.
Proof.
  intros H Hs. destruct l as [t m|t|p w m|f v]; cbn in Hs.
  - destruct (pend A t) as [|g q] eqn:Hp; [done|]. destruct (closing A t) eqn:Hc; [done|].
    destruct (procs A m) eqn:Hm; [done|]. injection Hs as <-. by apply (sinv_start G).
  - destruct (closing A t) as [d|] eqn:Hc; cbn in Hs; [|done]. injection Hs as <-. by eapply sinv_close.
  - destruct (procs A p) as [x|] eqn:Hp; cbn in Hs; [|done].
    destruct (rest x) as [b|] eqn:Hb; [|injection Hs as <-; by eapply sinv_destroy].
    pose proof (si_procs _ _ H p) as Hok. rewrite Hp in Hok.
    destruct (who G p) as [[| |i]|] eqn:Hw; try done; [|by eapply sinv_caller_step|by eapply sinv_task].
    destruct Hok as ([?|[b0 Hb0]] & Hc & Hj); [congruence|]. assert (b = call b0 End) as -> by congruence.
    destruct (call_step _ _ _ _ _ _ _ _ Hs) as [[r ->]|(b' & _ & Hbn)].
    + cbn in Hs. injection Hs as <-. eapply (sinv_benign G A _ p TUser); [done|done| |constructor; cbn; auto; done].
      split; [by left|done].
    + eapply sinv_benign; [done|done| |done]. split; [right; by eexists|done].
  - destruct (a_futs A !! f) as [u|] eqn:Hf; [done|]. destruct (collect_external f) eqn:He; [|done].
    injection Hs as <-. eexists. eapply (sinv_quiet G A _ (qt G) (cw G) (who G)); try done; try apply H.
    cbn. apply lookup_insert_ne. by intros ->.
Qed.

Definition ghost_init : ghost :=
  Ghost (replicate (length fs) SNot) (replicate (length fs) dflt) InQueue
    (fun t => (if decide (t = t0) then [TCaller] else []) ++ replicate (length (queues t)) TUser)
    (fun _ => None) (fun _ => None).

Lemma occ_init x t : x <> TUser ->
  occ x (qt ghost_init t) = if decide (x = TCaller /\ t = t0) then 1%nat else 0%nat.
Proof.
  intros Hx. cbn. rewrite occ_app, (occ_other x TUser (replicate _ _)); [|done|by apply Forall_replicate].
  repeat case_decide; cbn; repeat case_decide; naive_solver lia.
Qed.

Lemma sinv_init : sinv ghost_init (a_init start_store collect_queue).
Proof.
  assert (Hst : forall i st, gs ghost_init !! i = Some st -> st = SNot /\ (i < length fs)%nat).
  { intros i st. cbn. by intros [-> ?]%lookup_replicate. }
  assert (Hnone : forall (B : Type) (f : status -> option B) i, f SNot = None -> gs ghost_init !! i ≫= f = None).
  { intros B f i Hf. destruct (gs ghost_init !! i) as [st|] eqn:E; [|done].
    by destruct (Hst _ _ E) as [-> _]. }
  assert (Hcount : count ghost_init = 0%nat).
  { unfold count. apply sum_all_zero. by intros st [-> _]%elem_of_replicate. }
  constructor; cbn [pend closing procs a_memory a_futs a_init]; rewrite ?Hcount; try done.
  - constructor; cbn [qt cw who ph gs res].
    + intros t i. rewrite occ_init, Hnone by done. rewrite !decide_False; [done|done|by intros [? _]].
    + intros t. rewrite occ_init by done. cbn. repeat case_decide; naive_solver.
    + intros p i. by rewrite Hnone.
    + done.
    + intros t i. by rewrite Hnone.
    + apply length_replicate.
    + apply length_replicate.
    + intros i st Hi. destruct (Hst i st Hi) as [-> _]. cbn. split; [lia|done].
    + cbn. lia.
    + intros i st Hi. destruct (Hst i st Hi) as [-> Hlt]. cbn. by apply lookup_replicate_2.
    + done.
  - intros t. unfold collect_queue. cbn [qt ghost_init]. apply Forall2_app.
    + case_decide; by constructor.
    + induction (queues t) as [|g q IH]; constructor; [|done].
      apply user_func_lift.
Qed.

Definition collect_lts {S} {switching : Switching (@code val store) S} : lts :=
  uthread_lts (external := collect_external) start_store collect_queue.

Lemma collect_invariant A :
  reachable (a_lts (external := collect_external) start_store collect_queue) A -> exists G, sinv G A.
Proof.
  apply (invariant_ind (a_lts (external := collect_external) start_store collect_queue) (fun A => exists G, sinv G A)).
  - intros A0 ->. exists ghost_init. apply sinv_init.
  - intros A0 A1 [G H] [l Hl]. by eapply sinv_step.
Qed.

(** ** What collectAll returns *)

Lemma published_results G A r :
  sinv G A -> a_futs A !! 0%nat = Some r ->
  r = TValue (pack (res G)) /\ ctx_ (a_memory A) = None /\ length (res G) = length fs /\
  forall i f, fs !! i = Some f -> exists t, leaf f t /\ res G !! i = Some (slot_value t).
Proof.
  intros H Hr. pose proof (si_fut _ _ H) as Hf. pose proof (si_consistent _ _ H) as HC. rewrite Hr in Hf.
  destruct (published (ph G)) eqn:Hp; [|done]. case_bool_decide as Hz; [|done]. injection Hf as ->.
  split; [done|]. split; [by rewrite (si_ctx _ _ H), Hz|]. split; [apply HC|]. intros i f Hi.
  destruct (gs G !! i) as [st|] eqn:Hst.
  2: { apply lookup_ge_None in Hst. rewrite (cs_gs _ HC) in Hst. apply lookup_lt_Some in Hi. lia. }
  assert (Hn : st <> SNot).
  { intros Hs. apply (cs_launched _ HC i st Hst) in Hs. apply lookup_lt_Some in Hi.
    destruct (ph G); try done; cbn in Hs; lia. }
  assert (Hw : weight st = 0%nat) by (eapply sum_zero; [|done]; unfold count in Hz; lia).
  pose proof (cs_slots _ HC i st Hst) as Hs. destruct st as [|t|[p|] cl]; try done.
  destruct Hs as (f' & t & Hf' & Hl & Ht). exists t. split; [congruence|done].
Qed.

(** No task is left then, and nothing that has a reference to the context. *)
Lemma published_free G A r :
  sinv G A -> a_futs A !! 0%nat = Some r ->
  (forall p x, procs A p = Some x -> harmless (captured x)) /\
  (forall t g, g ∈ pend A t -> harmless (drop (owns g))) /\
  (forall t d, closing A t = Some d -> harmless d).
Proof.
  intros H Hr. pose proof (si_fut _ _ H) as Hf. pose proof (si_consistent _ _ H) as HC. rewrite Hr in Hf.
  destruct (published (ph G)) eqn:Hp; [|done]. case_bool_decide as Hz; [|done].
  assert (Hw : forall i st, gs G !! i = Some st -> weight st = 0%nat).
  { intros i st Hst. eapply sum_zero; [|done]. unfold count in Hz. lia. }
  assert (Hno : forall (f : status -> option nat) i t, (forall st, weight st = 0%nat -> f st = None) ->
    gs G !! i ≫= f <> Some t).
  { intros f i t Hf0 (st & Hst & E)%bind_Some. by rewrite (Hf0 st (Hw i st Hst)) in E. }
  split_and!.
  - intros p x Hx. pose proof (si_procs _ _ H p) as Hok. rewrite Hx in Hok.
    destruct (who G p) as [[| |i]|] eqn:Ew; [apply Hok|apply Hok| |done].
    apply (cs_proc _ HC) in Ew. by destruct (Hno _ _ _ (fun st Hs => proj1 (proj2 (weight_zero st Hs))) Ew).
  - intros t g Hg. pose proof (si_funcs _ _ H t) as Hfn. apply list_elem_of_lookup in Hg as (k & Hk).
    pose proof (Forall2_lookup_r _ _ _ k g Hfn Hk) as (x & Hx & Hok). apply list_elem_of_lookup_2 in Hx.
    destruct x as [| |i]; cbn in Hok; [apply Hok|subst g; apply harmless_none|].
    apply occ_elem in Hx. rewrite (cs_queue _ HC) in Hx. case_decide as Hqt; [|lia].
    by destruct (Hno _ _ _ (fun st Hs => proj1 (weight_zero st Hs)) Hqt).
  - intros t d Hd. pose proof (si_close _ _ H t) as Hok. rewrite Hd in Hok.
    destruct (cw G t) as [[i|]|] eqn:Ew; [|done|done]. apply (cs_close _ HC) in Ew.
    by destruct (Hno _ _ _ (fun st Hs => proj2 (proj2 (weight_zero st Hs))) Ew).
Qed.

(** What is left when the promise has no result. *)
Lemma idle_phase G A :
  sinv G A -> a_futs A !! 0%nat = None ->
  (exists t, TCaller ∈ qt G t) \/
  (exists p x b, procs A p = Some x /\ rest x = Some b /\ forall f k, b <> Await f k) \/
  (exists i st, gs G !! i = Some st /\ weight st <> 0%nat).
Proof.
  intros H Hf. pose proof (si_consistent _ _ H) as HC. rewrite (si_fut _ _ H) in Hf.
  assert (Hcaller : forall p, caller_at (ph G) = Some p -> exists x b, procs A p = Some x /\ rest x = Some b /\
    caller_rest (ph G) (res G) b).
  { intros p Hp. apply (cs_caller _ HC) in Hp. pose proof (si_procs _ _ H p) as Hok. rewrite Hp in Hok.
    destruct (procs A p) as [x|]; [|done]. destruct Hok as ((b & Hb & Hr) & _). eauto. }
  assert (Hsum : published (ph G) = true -> exists i st, gs G !! i = Some st /\ weight st <> 0%nat).
  { intros Hp. rewrite Hp in Hf. case_bool_decide as Hz; [done|].
    destruct (decide (Exists (fun st => weight st <> 0%nat) (gs G))) as [He|Hn].
    - apply Exists_exists in He as (st & (i & Hi)%list_elem_of_lookup & Hw). eauto.
    - apply not_Exists_Forall in Hn; [|solve_decision]. destruct Hz. unfold count.
      rewrite sum_all_zero; [by destruct (ph G)|]. intros st Hst. rewrite Forall_forall in Hn.
      specialize (Hn st Hst). cbn in Hn. lia. }
  destruct (ph G) as [|p|p j c|p|p|] eqn:Eph; [|..|by eauto]; [..|by eauto].
  - left. exists t0. pose proof (cs_caller_queue _ HC t0) as Ho. rewrite Eph, decide_True in Ho by done.
    by apply occ_pos; rewrite Ho; lia.
  - right. left. destruct (Hcaller p) as (x & b & Hx & Hb & ->); [done|]. by exists p, x; eexists.
  - right. left. destruct (Hcaller p) as (x & b & Hx & Hb & Hr); [done|]. exists p, x, b. split_and!; try done.
    cbn in Hr. destruct c.
    + destruct Hr as (f & _ & ->). by destruct policy.
    + subst b. by destruct (List.skipn j fs).
  - right. left. destruct (Hcaller p) as (x & b & Hx & Hb & ->); [done|]. by exists p, x; eexists.
Qed.

(** A task waits for futures of the program's only. *)
Lemma task_awaits i slot f k : task_rest i slot (Some (Await f k)) -> exists f', f = S f'.
Proof.
  intros [(g & b0 & _ & _ & [= E] & _)|[_ [?|[v [= ?]]]]]; try done. unfold task_body in E.
  destruct b0 as [r| | | | |]; cbn in E; try done; [by destruct r|]. injection E as -> _. by eexists.
Qed.

End collect.

(** The machine of Uthread.v against the invariant. *)
Section theorems.
Context {val user : Type} (pack : list val -> val) (dflt : val).
Context (policy : Policy) (fs : list (@prog val user)) (after : Try val -> @prog val user) (t0 : nat)
  (queues : nat -> list (@func val user)) (m0 : user) (ext : nat -> bool).
Context {S : Type} {switching : Switching (@code val (shared (@cell val) user)) S}
  {laws : SwitchingLaws (@code val (shared (@cell val) user)) S}.

Lemma collect_refines s :
  reachable (collect_lts pack dflt policy fs after t0 queues m0 ext) s ->
  exists A G, refines s A /\ sinv pack dflt policy fs after t0 G A.
Proof.
  intros (A & HA & Hr)%reachable_refines. destruct (collect_invariant _ _ _ _ _ _ _ _ _ _ HA) as [G HG]. eauto.
Qed.


(** C10.  [collectAll] returns: when all threads are idle, its promise is set,
    unless some uthread of the program waits for a future of the program's own that
    nobody has set; so the counter of its [shared_ptr]s misses no task. *)
Theorem collectAll_returns s :
  reachable (collect_lts pack dflt policy fs after t0 queues m0 ext) s ->
  (forall t w, thread_step t w s = None) -> (forall n, forward n s = None) ->
  is_Some (futs s !! 0%nat) \/
  exists n x f w, ctxs s !! n = Some x /\ aw x = Some (Waiting (Datatypes.S f) w) /\ futs s !! Datatypes.S f = None.
Proof.
  intros (A & G & Hr & HG)%collect_refines Hidle Hfwd.
  destruct (idle_blocked (external := collect_external ext) s A Hr Hidle Hfwd) as (Hq & _ & Hb).
  destruct Hr as (a & home & ph & _ & Hm). rewrite <- (ma_futs _ _ _ _ _ Hm).
  destruct (a_futs A !! 0%nat) eqn:Hf; [by left; eexists|right].
  pose proof (si_consistent _ _ _ _ _ _ _ _ HG) as HC.
  assert (Hno : forall t x, x ∈ qt G t -> False).
  { intros t x Hx. pose proof (si_funcs _ _ _ _ _ _ _ _ HG t) as Hfn. destruct (Hq t) as [E _]. rewrite E in Hfn.
    apply Forall2_nil_inv_r in Hfn. rewrite Hfn in Hx. by apply elem_of_nil in Hx. }
  destruct (idle_phase _ _ _ _ _ _ _ _ HG) as [(t & Ht)|[(p & x & b & Hp & Hx & Hn)|(i & st & Hst & Hwt)]].
  - done.
  - by destruct (Hno t TCaller).
  - destruct (Hb p x Hp) as (f & k & _ & _ & E & _). rewrite Hx in E. injection E as ->. by destruct (Hn f k).
  - destruct st as [|t|[p|] cl]; [done| | |].
    + destruct (Hno t (TTask i)). apply occ_pos. rewrite (cs_queue _ _ _ _ HC), Hst, decide_True by done. lia.
    + assert (Hw : who G p = Some (TTask i)) by (apply (cs_proc _ _ _ _ HC); by rewrite Hst).
      pose proof (si_procs _ _ _ _ _ _ _ _ HG p) as Hok. rewrite Hw in Hok.
      destruct (procs A p) as [x|] eqn:Hp; [|done]. destruct (Hb p x Hp) as (f & k & c & w & Hx & Hff & Hcx & Haw).
      destruct Hok as (Hr & _). rewrite Hx in Hr.
      destruct (task_awaits _ _ _ _ _ _ Hr) as [f' ->].
      exists p, c, f', w. split; [done|]. split; [done|]. done.
    + destruct cl as [t|]; [|done].
      assert (Hw : cw G t = Some (Some i)) by (apply (cs_close _ _ _ _ HC); by rewrite Hst).
      pose proof (si_close _ _ _ _ _ _ _ _ HG t) as Hok. rewrite Hw in Hok. destruct (Hq t) as [_ E]. by rewrite E in Hok.
Qed.

(** A task of [collectAll] that throws: whatever happens, the caller gets a
    vector and no exception, and the task's slot has the value that it was
    constructed with ([ValueType()]); the exception is lost. *)
Theorem collectAll_drops_exceptions s r i f :
  reachable (collect_lts pack dflt policy fs after t0 queues m0 ext) s -> futs s !! 0%nat = Some r -> fs !! i = Some f ->
  (forall t, leaf f t -> exists e, t = TError e) ->
  exists vs, r = TValue (pack vs) /\ length vs = length fs /\ vs !! i = Some dflt.
Proof.
  intros (A & G & (a & home & ph & H & Hm) & HG)%collect_refines Hr Hi Hf.
  rewrite <- (ma_futs _ _ _ _ _ Hm) in Hr.
  destruct (published_results _ _ _ _ _ _ _ _ r HG Hr) as (-> & _ & Hl & Hv). exists (res G).
  destruct (Hv i f Hi) as (t & Ht & ->). by destruct (Hf t Ht) as [e ->].
Qed.
End theorems.

(** ** A run

    Three tasks on thread 1 for a caller on thread 0: the first one waits for the
    future that a uthread of thread 2 sets, the second one throws. *)

Definition join_tasks : list (@prog (list Z) (list Z)) :=
  [Await 0 (fun t => End t); Atomic (app [1]) (fun _ => End (TError (Some (UserError 1)))); End (TValue [9])].
Definition join_after (t : Try (list Z)) : @prog (list Z) (list Z) :=
  Atomic (fun m => match t with TValue v => v ++ m | _ => m end) (fun _ => End t).
Definition join_queues (t : nat) : list (@func (list Z) (list Z)) :=
  match t with
  | 2%nat => [Func (SetValue 0 (TValue [7; 8]) (fun _ => End (TValue []))) (Owned (fun m => m) no_callback) no_callback]
  | _ => []
  end.
Definition join_external (f : nat) : bool := false.

Definition join_store : Type := shared (@cell (list Z)) (list Z).
Definition join_ustate : Type := ustate (val := list Z) (mem := join_store) (S := @sw (@code (list Z) join_store)).
Definition join_lts : lts :=
  collect_lts (S := @sw (@code (list Z) join_store)) (@concat Z) [] Launch_Schedule join_tasks join_after 0
    join_queues [] join_external.
Definition join_step : @ulabel (list Z) -> join_ustate -> option join_ustate :=
  ustep (external := collect_external join_external).
Definition join_start : join_ustate :=
  uinit (start_store []) (collect_queue (@concat Z) [] Launch_Schedule join_tasks join_after 0 join_queues).

Definition join_schedule : list (@ulabel (list Z)) :=
  (* the caller launches its tasks and waits; the first task waits, the others end *)
  replicate 13 (LThread 0 1) ++ replicate 17 (LThread 1 1) ++
  (* the future is set; the first task ends, and the caller goes on *)
  replicate 6 (LThread 2 2) ++ [LForward 1] ++ replicate 6 (LThread 1 1) ++ [LForward 0] ++
  replicate 6 (LThread 0 1).

Definition join_end : join_ustate := run_end join_step join_schedule join_start.

Lemma join_end_reachable : reachable join_lts join_end.
Proof. apply run_end_reachable; [done|]. vm_compute. reflexivity. Qed.

Lemma join_end_promise : futs join_end !! 0%nat = Some (TValue [7; 8; 9]).
Proof. vm_compute. reflexivity. Qed.


Lemma join_end_idle t w : thread_step t w join_end = None.
Proof. destruct t as [|[|[|t]]]; vm_compute; reflexivity. Qed.

Lemma join_end_empty : ctxs join_end = ∅.
Proof. vm_compute. reflexivity. Qed.

Lemma join_end_forward n : forward n join_end = None.
Proof. unfold forward. by rewrite join_end_empty, lookup_empty. Qed.

Lemma collectAll_returns_witness : is_Some (futs join_end !! 0%nat).
Proof.
  destruct (collectAll_returns _ _ _ _ _ _ _ _ _ _ join_end_reachable join_end_idle join_end_forward)
    as [H|(n & x & f & w & Hx & _)]; [exact H|].
  change (ctxs join_end !! n = Some x) in Hx. rewrite join_end_empty, lookup_empty in Hx. discriminate.
Defined.

Lemma collectAll_drops_exceptions_witness :
  exists vs, TValue [7; 8; 9] = TValue (concat vs) /\ length vs = 3%nat /\ vs !! 1%nat = Some [].
Proof.
  apply (collectAll_drops_exceptions _ _ _ _ _ _ _ _ _ _ _ 1%nat _ join_end_reachable join_end_promise eq_refl).
  intros t Ht. inversion Ht; subst. match goal with H : leaf _ _ |- _ => inversion H; subst end.
  by eexists.
Defined.
