(* ===== verification/UthreadLatch.v ===== *)
(** * UthreadLatch: the latch of uthreads

    Models uthread/Latch.h on the machine of Uthread.v: [downCount] and [await] as
    programs, on a memory with the latch's counter, and any uthreads that use the
    latch. *)

From S2P Require Import Prelude Try Switch Uthread UthreadCall.

Section latch.
(** The values of the futures, with [true], and the rest of the memory; the count
    that the latch is made with. *)
Context {val user : Type} (vtrue : val) (N : Z).

(** [_count]; [calls] only counts the calls of [downCount] that have got to it. *)
Record latch_obj := LatchObj { cnt : Z; calls : Z }.

#[local] Abbreviation latch_mem := (shared latch_obj user).

Definition _count (m : latch_mem) : Z := cnt (object m).
Definition downs (m : latch_mem) : Z := calls (object m).

(** [_skip(!count)] *)
Definition _skip : bool := N =? 0.

(** [_count.fetch_sub(n)] *)
Definition fetch_sub (n : Z) (m : latch_mem) : latch_mem :=
  Shared (LatchObj (u64 (_count m - n)) (downs m + 1)) (user_mem m).

(** [downCount(n)], and then [k]; [_promise] is that of the future 0, whose
    [setValue] throws when it has a result. *)
Definition Latch_downCount (n : Z) (k : @prog val latch_mem) : @prog val latch_mem :=
  if _skip then k
  else
    Atomic (fetch_sub n) (fun m =>
      if _count m =? 1
      then SetValue 0 (TValue vtrue) (fun ok =>
             if ok then k else End (TError (Some (LogicError "Promise already has a result"))))
      else k).

(** [await]: the value of the future is not used, an exception is thrown. *)
Definition Latch_await (k : @prog val latch_mem) : @prog val latch_mem :=
  if _skip then k
  else Await 0 (fun t => match t with TValue _ => k | _ => End t end).

Definition currentCount (m : latch_mem) : Z := _count m.

(** Programs that use the latch through [downCount()] and [await] only. *)
Inductive uses : @prog val latch_mem -> Prop :=
  | uses_end r : uses (End r)
  | uses_fut f k : f <> 0%nat -> (forall t, uses (k t)) -> uses (Await f k)
  | uses_current b o k : uses b -> owned_ok o -> uses k -> uses (Current b o k)
  | uses_schedule b o cb k : uses b -> owned_ok o -> harmless cb -> uses k -> uses (Schedule b o cb k)
  | uses_set f v k : f <> 0%nat -> (forall x, uses (k x)) -> uses (SetValue f v k)
  | uses_atomic u k : (forall m, same_object m (u m)) -> (forall m, uses (k m)) -> uses (Atomic u k)
  | uses_down k : uses k -> uses (Latch_downCount 1 k)
  | uses_await k : uses k -> uses (Latch_await k).

Definition func_uses (g : @func val latch_mem) : Prop :=
  uses (body g) /\ owned_ok (owns g) /\ harmless (on_join g).

(** It has taken the last count, and is to set the promise. *)
Definition setting (b : @prog val latch_mem) : Prop :=
  exists k k', b = SetValue 0 (TValue vtrue) (fun ok : bool => if ok then k else End k') /\ uses k.

Record linv (A : @aspec val latch_mem) : Prop := {
  li_procs : forall p x, procs A p = Some x -> harmless (captured x) /\ harmless (joined x) /\
    forall b, rest x = Some b -> uses b \/ (setting b /\ N <= downs (a_memory A));
  li_pend : forall t, Forall func_uses (pend A t);
  li_close : forall t d, closing A t = Some d -> harmless d;
  li_count : _count (a_memory A) = u64 (N - downs (a_memory A));
  li_downs : 0 <= downs (a_memory A);
  li_fut : forall r, a_futs A !! 0%nat = Some r -> r = TValue vtrue /\ N <= downs (a_memory A);
  li_open : N <= downs (a_memory A) ->
    is_Some (a_futs A !! 0%nat) \/ exists p x b, procs A p = Some x /\ rest x = Some b /\ setting b;
}.

Context (N_range : 0 < N < 2 ^ 64) (ext : nat -> bool) (latch_not_ext : ext 0%nat = false).

(** A step that leaves the latch alone, and the processes that are to set it. *)
Lemma linv_quiet A A' :
  linv A -> same_object (a_memory A) (a_memory A') -> a_futs A' !! 0%nat = a_futs A !! 0%nat ->
  (forall p x, procs A' p = Some x -> procs A p = Some x \/
     (harmless (captured x) /\ harmless (joined x) /\ forall b, rest x = Some b -> uses b)) ->
  (forall p x b, procs A p = Some x -> rest x = Some b -> setting b -> procs A' p = Some x) ->
  (forall t, Forall func_uses (pend A' t)) -> (forall t d, closing A' t = Some d -> harmless d) -> linv A'.
Proof.
  intros [I1 I2 I3 I4 I5 I6 I7] Hm Hf Hp Hs Hq Hc.
  assert (M1 : _count (a_memory A') = _count (a_memory A)) by (unfold _count; by rewrite Hm).
  assert (M2 : downs (a_memory A') = downs (a_memory A)) by (unfold downs; by rewrite Hm).
  constructor; rewrite ?M1, ?M2, ?Hf; try done.
  - intros p x Hx. destruct (Hp p x Hx) as [?|(? & ? & Hu)]; [by eapply I1|]. split_and!; auto.
  - intros Hn. destruct (I7 Hn) as [?|(p & x & b & Hx & Hb & Hset)]; [by left|right]. exists p, x, b.
    split_and!; eauto.
Qed.

Lemma uses_not_setting b : uses b -> ~ setting b.
Proof.
  intros Hu (k & k' & -> & _). inversion Hu as [| | | | | |k1 Hk E|k1 Hk E]; subst; try done.
  - unfold Latch_downCount in E. destruct _skip eqn:Es; [|done]. unfold _skip in Es. lia.
  - unfold Latch_await in E. destruct _skip eqn:Es; [|done]. unfold _skip in Es. lia.
Qed.

(** A process goes on; the others stay. *)
Lemma linv_run A A' p x b r m' y :
  linv A -> procs A p = Some x -> rest x = Some b -> uses b ->
  let X := Some (AProcess r (captured x) (joined x)) in
  procs A' = <[p := X]> (procs A) \/
    (procs A m' = None /\ procs A' = <[m' := Some y]> (<[p := X]> (procs A)) /\
     harmless (captured y) /\ harmless (joined y) /\ forall c, rest y = Some c -> uses c) ->
  (forall c, r = Some c -> uses c) ->
  same_object (a_memory A) (a_memory A') -> a_futs A' !! 0%nat = a_futs A !! 0%nat ->
  (forall t, Forall func_uses (pend A' t)) -> closing A' = closing A -> linv A'.
Proof.
  intros H Hp Hb Hu X Hprocs Hc Hm Hf Hq Hcl.
  destruct (li_procs _ H p x Hp) as (Hh1 & Hh2 & _).
  apply (linv_quiet A); try done.
  - intros q z. destruct Hprocs as [->|(Hm' & -> & Hy)]; rewrite ?fn_insert_case; repeat case_decide; try tauto;
      intros [= <-]; right; try exact Hy; split_and!; cbn; auto.
  - intros q z c Hz Hzc Hset. destruct (decide (q = p)) as [->|Hqp].
    + exfalso. assert (c = b) as -> by congruence. by eapply uses_not_setting.
    + destruct Hprocs as [->|(Hm' & -> & _)]; rewrite ?fn_insert_case; repeat case_decide; try done; congruence.
  - rewrite Hcl. apply H.
Qed.

Lemma skip_false : _skip = false.
Proof. unfold _skip. lia. Qed.

(** [downCount] of a process. *)
Lemma linv_down A p x k :
  linv A -> procs A p = Some x -> uses k -> rest x = Some (Latch_downCount 1 k) ->
  linv (set_proc p (Some (AProcess
      (Some (if _count (a_memory A) =? 1
             then SetValue 0 (TValue vtrue) (fun ok =>
                    if ok then k else End (TError (Some (LogicError "Promise already has a result"))))
             else k)) (captured x) (joined x)))
    (ASpec (procs A) (pend A) (closing A) (a_futs A) (fetch_sub 1 (a_memory A)))).
Proof.
  intros H Hp Hk Hb. destruct (li_procs _ H p x Hp) as (Hh1 & Hh2 & _).
  pose proof (li_count _ H) as Hc. pose proof (li_downs _ H) as Hd.
  assert (Hc1 : downs (a_memory A) < N -> _count (a_memory A) = N - downs (a_memory A))
    by (intros Hlt; rewrite Hc; apply u64_small; lia).
  assert (Hset : forall k', setting (SetValue 0 (TValue vtrue) (fun ok : bool => if ok then k else End k'))).
  { intros k'. by exists k, k'. }
  assert (Hold : forall q z e, procs A q = Some z -> rest z = Some e -> setting e -> q <> p).
  { intros q z e Hq He Hse ->. assert (e = Latch_downCount 1 k) as -> by congruence.
    eapply uses_not_setting; [|done]. by constructor. }
  constructor; cbn.
  - intros q z. rewrite fn_insert_case. case_decide.
    + intros [= <-]. split; [done|]. split; [done|]. cbn. intros b [= <-].
      destruct (_count (a_memory A) =? 1) eqn:E; [right|by left].
      split; [apply Hset|]. destruct (Z.lt_ge_cases (downs (a_memory A)) N); [|lia]. specialize (Hc1 ltac:(done)). lia.
    + intros Hz. destruct (li_procs _ H q z Hz) as (? & ? & Hu). split_and!; try done. intros b Hzb.
      destruct (Hu b Hzb) as [?|[? ?]]; [by left|right]. split; [done|]. lia.
  - apply H.
  - apply H.
  - rewrite Hc. unfold u64. rewrite Zminus_mod_idemp_l. f_equal. lia.
  - lia.
  - intros r Hr. destruct (li_fut _ H r Hr) as [? ?]. split; [done|lia].
  - intros Hn. destruct (Z.lt_ge_cases (downs (a_memory A)) N) as [Hlt|Hge].
    + right. specialize (Hc1 Hlt). exists p. eexists _, _. rewrite fn_lookup_insert. split; [done|]. split; [done|].
      assert ((_count (a_memory A) =? 1) = true) as -> by lia. apply Hset.
    + destruct (li_open _ H Hge) as [?|(q & z & b & Hz & Hzb & Hs)]; [by left|right]. exists q, z, b.
      rewrite fn_lookup_insert_ne by (intros ->; by destruct (Hold _ _ _ Hz Hzb Hs)). done.
Qed.

(** The process that has taken the last count sets the promise. *)
Lemma linv_setting A A' p w m x b :
  linv A -> procs A p = Some x -> rest x = Some b -> setting b -> a_exec p w m x b A = Some A' -> linv A'.
Proof.
  intros H Hp Hb (k & k' & -> & Hk) Hs. destruct (li_procs _ H p x Hp) as (Hh1 & Hh2 & Hu).
  assert (Hn : N <= downs (a_memory A)).
  { destruct (Hu _ Hb) as [Hu'|[_ ?]]; [|done]. destruct (uses_not_setting _ Hu'). by exists k, k'. }
  assert (Hgen : forall fu c, is_Some (fu !! 0%nat) -> (forall r, fu !! 0%nat = Some r -> r = TValue vtrue) -> uses c ->
    linv (set_proc p (Some (AProcess (Some c) (captured x) (joined x)))
      (ASpec (procs A) (pend A) (closing A) fu (a_memory A)))).
  { intros fu c Hfu Hv Hc. destruct H as [I1 I2 I3 I4 I5 I6 I7]. constructor; cbn; try done; auto.
    intros q z. rewrite fn_insert_case. case_decide; [|apply I1]. intros [= <-]. split_and!; try done.
    cbn. intros b [= <-]. by left. }
  cbn in Hs. destruct (a_futs A !! 0%nat) as [r|] eqn:E; injection Hs as <-.
  - destruct A as [pr pd cl fu mm]. apply (Hgen fu); [by eexists| |constructor]. cbn in *. intros r' Hr'.
    by destruct (li_fut _ H r' Hr').
  - apply (Hgen (<[0%nat := TValue vtrue]> (a_futs A))); [rewrite lookup_insert_eq; by eexists| |done].
    rewrite lookup_insert_eq. by intros r [= <-].
Qed.

Lemma linv_exec A A' p w m x b :
  linv A -> procs A p = Some x -> rest x = Some b -> a_exec p w m x b A = Some A' -> linv A'.
Proof.
  intros H Hp Hb Hs. destruct (li_procs _ H p x Hp) as (Hh1 & Hh2 & Hu).
  destruct (Hu b Hb) as [Hub|[Hset _]]; [|by eapply linv_setting].
  pose proof (li_pend _ H) as Hq.
  inversion Hub as [r E|f k Hf Hk E|b1 o k Hb1 Ho Hk E|b1 o cb k Hb1 Ho Hcb Hk E|f v k Hf Hk E|u k Hsame Hk E|k Hk E|k Hk E];
    subst b; cbn in Hs.
  - injection Hs as <-. by eapply (linv_run A _ p x _ _ 0 x); [..|by left|done|done|done|done|].
  - destruct (a_futs A !! f) as [v|]; cbn in Hs; [|done]. injection Hs as <-.
    eapply (linv_run A _ p x _ _ 0 x); [done..|by left| |done|done|done|done]. intros c [= <-]. apply Hk.
  - destruct (procs A m) eqn:Hm; [done|]. injection Hs as <-.
    eapply (linv_run A _ p x _ _ m (AProcess (Some b1) (drop o) no_callback)); [done..|right| |done|done|done|done].
    + split; [done|]. split; [done|]. split; [apply Ho|]. split; [apply harmless_none|]. cbn. by intros c [= <-].
    + by intros c [= <-].
  - injection Hs as <-. eapply (linv_run A _ p x _ _ 0 x); [done..|by left| |done|done| |done].
    + by intros c [= <-].
    + intros t. cbn. rewrite fn_insert_case. case_decide; [|done]. apply Forall_app. split; [done|].
      constructor; [|done]. by split_and!.
  - destruct (a_futs A !! f); injection Hs as <-;
      (eapply (linv_run A _ p x _ _ 0 x); [done..|by left| |done| |done|done]; [intros c [= <-]; apply Hk|]).
    + done.
    + by apply lookup_insert_ne.
  - injection Hs as <-. eapply (linv_run A _ p x _ _ 0 x); [done..|by left| |apply Hsame|done|done|done].
    intros c [= <-]. apply Hk.
  - pose proof (linv_down A p x k H Hp Hk Hb) as Hd. unfold Latch_downCount in Hs. rewrite skip_false in Hs.
    injection Hs as <-. exact Hd.
  - unfold Latch_await in Hs. rewrite skip_false in Hs. cbn in Hs.
    destruct (a_futs A !! 0%nat) as [v|]; cbn in Hs; [|done]. injection Hs as <-.
    eapply (linv_run A _ p x _ _ 0 x); [done..|by left| |done|done|done|done]. intros c [= <-].
    destruct v; [constructor|done|constructor].
Qed.

Lemma linv_step A A' l : linv A -> a_step (external := ext) l A = Some A' -> linv A'.
Proof.
  intros H Hs. destruct l as [t m|t|p w m|f v]; cbn in Hs.
  - destruct (pend A t) as [|g q] eqn:Hp; [done|]. destruct (closing A t) eqn:Hc; [done|].
    destruct (procs A m) eqn:Hm; [done|]. injection Hs as <-.
    pose proof (li_pend _ H t) as Hq. rewrite Hp in Hq. apply Forall_cons in Hq as [(Hb & (Hcp & Hd) & Hj) Hq].
    apply (linv_quiet A); try done; cbn.
    + intros p x. rewrite fn_insert_case. case_decide; [|by left]. intros [= <-]. right. cbn. split_and!; try done.
      by intros b [= <-].
    + intros p x b Hx _ _. rewrite fn_lookup_insert_ne; [done|]. intros ->. congruence.
    + intros t'. rewrite fn_insert_case. case_decide; [done|apply H].
    + intros t' d. rewrite fn_insert_case. case_decide; [by intros [= <-]|apply H].
  - destruct (closing A t) as [d|] eqn:Hc; cbn in Hs; [|done]. injection Hs as <-. rewrite a_act_eq.
    pose proof (li_close _ H t d Hc) as Hd. apply (linv_quiet A); try done; cbn; auto.
    + apply Hd.
    + by apply settle_harmless.
    + apply H.
    + intros t' d'. rewrite fn_insert_case. case_decide; [done|apply H].
  - destruct (procs A p) as [x|] eqn:Hp; cbn in Hs; [|done].
    destruct (rest x) as [b|] eqn:Hb; [by eapply linv_exec|]. injection Hs as <-.
    destruct (li_procs _ H p x Hp) as (Hh1 & Hh2 & _). rewrite !a_act_eq.
    apply (linv_quiet A); try done; cbn.
    + by apply harmless_twice.
    + by rewrite !settle_harmless.
    + intros q z. rewrite fn_insert_case. case_decide; [done|by left].
    + intros q z b Hz Hzb _. rewrite fn_lookup_insert_ne; [done|]. intros ->. congruence.
    + apply H.
    + apply H.
  - destruct (a_futs A !! f) eqn:Hf; [done|]. destruct (ext f) eqn:He; [|done]. injection Hs as <-.
    apply (linv_quiet A); try done; cbn; auto; [|apply H|apply H].
    apply lookup_insert_ne. intros ->. congruence.
Qed.

Context {S : Type} {switching : Switching (@code val latch_mem) S} {laws : SwitchingLaws (@code val latch_mem) S}.

Definition latch_lts (m : user) (queues : nat -> list (@func val latch_mem)) : lts :=
  uthread_lts (external := ext) (Shared (LatchObj N 0) m) queues.

Lemma uthread_latch_invariant m queues A :
  (forall t, Forall func_uses (queues t)) -> reachable (a_lts (external := ext) (Shared (LatchObj N 0) m) queues) A -> linv A.
Proof.
  intros Hq. apply (invariant_ind (a_lts (external := ext) (Shared (LatchObj N 0) m) queues) linv).
  - intros A0 ->. constructor; cbn; try done; [|lia].
    rewrite Z.sub_0_r. symmetry. apply u64_small. lia.
  - intros A0 A1 H [l Hl]. by eapply linv_step.
Qed.

End latch.

(** ** Runs

    A latch of two, on which thread 0 has a uthread that waits, with two uthreads
    that count it down by one each, or one that counts it down by two. *)

#[local] Abbreviation latch_mem := (shared latch_obj (list Z)).

Definition no_owned : @owned Z (latch_mem) := Owned (fun m => m) no_callback.
Definition note (n : Z) (m : latch_mem) : latch_mem :=
  on_user (fun l => l ++ [n]) m.
Definition latch_waiter : @func Z (latch_mem) :=
  Func (Latch_await 2 (Atomic (note 7) (fun _ => End (TValue 0)))) no_owned no_callback.
Definition latch_counter (n : Z) : @func Z (latch_mem) :=
  Func (Atomic (note n) (fun _ => Latch_downCount 1 2 n (End (TValue 0)))) no_owned no_callback.
Definition latch_queues (t : nat) : list (@func Z (latch_mem)) :=
  match t with 0%nat => [latch_waiter] | 1%nat => [latch_counter 1; latch_counter 1] | _ => [] end.
Definition latch_external (f : nat) : bool := false.

Definition latch_ustate : Type :=
  ustate (val := Z) (mem := latch_mem) (S := @sw (@code Z (latch_mem))).
Definition latch_step : @ulabel Z -> latch_ustate -> option latch_ustate := ustep (external := latch_external).
Definition latch_start (q : nat -> list (@func Z (latch_mem))) : latch_ustate := uinit (Shared (LatchObj 2 0) []) q.
Definition latch_schedule : list (@ulabel Z) :=
  replicate 5 (LThread 0 0) ++ replicate 15 (LThread 1 0) ++ [LForward 0] ++ replicate 6 (LThread 0 0).
Definition latch_end : latch_ustate := run_end latch_step latch_schedule (latch_start latch_queues).

Lemma latch_queues_use t : Forall (func_uses 1 2) (latch_queues t).
Proof.
  assert (Hw : func_uses 1 2 latch_waiter).
  { split; [|done]. apply (uses_await 1 2). constructor; [done|]. intros _. constructor. }
  assert (Hc : func_uses 1 2 (latch_counter 1)).
  { split; [|done]. constructor; [done|]. intros _. apply (uses_down 1 2). constructor. }
  destruct t as [|[|t]]; repeat constructor; done.
Qed.

Lemma latch_range : 0 < 2 < 2 ^ 64.
Proof. lia. Qed.

Lemma latch_end_idle t w : thread_step t w latch_end = None.
Proof. destruct t as [|[|t]]; vm_compute; reflexivity. Qed.

Lemma latch_end_empty : ctxs latch_end = ∅.
Proof. vm_compute. reflexivity. Qed.

Lemma latch_end_forward n : forward n latch_end = None.
Proof. unfold forward. by rewrite latch_end_empty, lookup_empty. Qed.


(** [downCount(2)] takes the count from two to zero and does not set the promise:
    the waiter stays in [await]. *)
Definition latch_two : latch_ustate :=
  run_end latch_step (replicate 5 (LThread 0 0) ++ replicate 7 (LThread 1 0))
    (latch_start (fun t => match t with 0%nat => [latch_waiter] | 1%nat => [latch_counter 2] | _ => [] end)).

Lemma latch_two_at_once_blocks :
  _count (memory latch_two) = 0 /\ futs latch_two !! 0%nat = None /\
  (forall t w, thread_step t w latch_two = None) /\ (aw <$> ctxs latch_two !! 0%nat) = Some (Some (Waiting 0 0)).
Proof.
  split; [vm_compute; reflexivity|]. split; [vm_compute; reflexivity|].
  split; [|vm_compute; reflexivity]. intros [|[|t]] w; vm_compute; reflexivity.
Qed.
