(* ===== verification/UthreadAsync.v ===== *)
(** * UthreadAsync: the async that gives a future

    Models [async(Launch, Attribute, F)] of uthread/Async.h on the machine of
    Uthread.v: the function is called in a uthread that has the promise, the caller
    goes on and then awaits the future.  The promise is moved into the lambda; the
    executor's task copies the lambda, so there can be two promises, and the last
    one that is destroyed without a result breaks it. *)

From S2P Require Import Prelude Try Switch Uthread UthreadCall.

Section async.
Context {val user : Type}.

(** The state that the promises share: [_promiseRef]; [bad]: a promise was copied
    or destroyed after the last one. *)
Record promise_state := PromiseState { promiseRef : nat; bad : bool }.

#[local] Abbreviation store := (shared promise_state user).

Definition refs (m : store) : nat := promiseRef (object m).
Definition set_refs (n : nat) (m : store) : store := Shared (PromiseState n (bad (object m))) (user_mem m).
Definition misuse (m : store) : store := Shared (PromiseState (refs m) true) (user_mem m).

(** [Promise<R> p], [attachPromise] and [detachPromise], which breaks a promise
    that has no result. *)
Definition new_promise (m : store) : store := set_refs 1 m.
Definition attachPromise (m : store) : store :=
  match refs m with S n => set_refs (S (S n)) m | 0%nat => misuse m end.
Definition broken : Try val := TError (Some (RuntimeError "Promise is broken")).
Definition detachPromise : @action val store := fun m =>
  match refs m with
  | S n => (set_refs n m, match n with 0%nat => Some (0%nat, broken) | S _ => None end)
  | 0%nat => (misuse m, None)
  end.

(** [proc], the lambda, and what it has captured. *)
Definition proc_body (f : @prog val user) : @prog val store :=
  call f (fun r =>
    match r with
    | TValue v => SetValue 0 (TValue v) (fun ok =>
        End (if ok then TValue v else TError (Some (LogicError "Promise already has a result"))))
    | _ => End r
    end).
Definition proc_owned : @owned val store := Owned attachPromise detachPromise.

(** The caller goes on with [k]; its future is that of the promise. *)
Definition async_future (policy : Policy) (f : @prog val user) (k : @prog val store) : @prog val store :=
  Atomic new_promise (fun _ =>
    match policy with
    | Launch_Schedule => Schedule (proc_body f) proc_owned no_callback k
    | Launch_Current => Current (proc_body f) proc_owned k
    end).

(** The caller, on thread [t0], calls [meanwhile] before it awaits the future. *)
Context (policy : Policy) (f : @prog val user) (meanwhile : @prog val user) (after : Try val -> @prog val user)
  (t0 : nat) (queues : nat -> list (@func val user)) (m0 : user) (ext : nat -> bool).

Definition then_await (_ : Try val) : @prog val store := Await 0 (fun t => call (after t) End).

Definition caller : @func val store :=
  Func (async_future policy f (call meanwhile then_await)) (Owned (fun m => m) no_callback) no_callback.

Definition async_queue (t : nat) : list (@func val store) :=
  (if decide (t = t0) then [caller] else []) ++ (lift_func <$> queues t).

Definition async_start : store := Shared (PromiseState 0 false) m0.

Definition fails : Prop := exists t, leaf f t /\ forall v, t <> TValue v.

(** ** The invariant, on the specification *)

Inductive phase := InQueue | Called (p : nat) | Made (p : nat) | Going (p : nat) | Returned.

Definition caller_at (p : phase) : option nat :=
  match p with Called p | Made p | Going p => Some p | _ => None end.
Definition launched (p : phase) : bool := match p with Going _ | Returned => true | _ => false end.
Definition count (p : phase) (st : status) : nat := match p with Made _ => 1 | _ => weight st end.

Inductive tag := TUser | TCaller | TTask.

#[export] Instance tag_eq_dec : EqDecision tag.
Proof. solve_decision. Defined.

Record ghost := Ghost {
  st : status;
  ph : phase;
  qt : nat -> list tag;
  cw : nat -> option bool;
  who : nat -> option tag;
}.

Definition func_ok (x : tag) (g : @func val store) : Prop :=
  match x with
  | TUser => user_func g
  | TCaller => g = caller
  | TTask => g = Func (proc_body f) proc_owned no_callback
  end.

Definition close_ok (x : option bool) (d : option (@action val store)) : Prop :=
  match x, d with
  | None, None => True
  | Some false, Some d => harmless d
  | Some true, Some d => d = detachPromise
  | _, _ => False
  end.

Definition caller_rest (p : phase) (b : @prog val store) : Prop :=
  let k := call meanwhile then_await in
  match p with
  | Called _ => b = async_future policy f k
  | Made _ => b = match policy with
      | Launch_Schedule => Schedule (proc_body f) proc_owned no_callback k
      | Launch_Current => Current (proc_body f) proc_owned k
      end
  | Going _ => exists b0, b = call b0 then_await
  | _ => False
  end.

(** What the future may get. *)
Definition good (s : status) (r : Try val) : Prop :=
  (exists v, r = TValue v /\ leaf f (TValue v)) \/ (r = broken /\ fails /\ s = SLive None None).

(** The task has ended: the promise has its result, or will be broken. *)
Definition ended (fu : option (Try val)) : Prop := is_Some fu \/ fails.

Definition task_rest (fu : option (Try val)) (b : option (@prog val store)) : Prop :=
  (exists b0, (forall r, leaf b0 r -> leaf f r) /\ b = Some (proc_body b0) /\ fu = None) \/
  (ended fu /\ (b = None \/ exists r, b = Some (End r))).

Definition proc_ok (p : phase) (fu : option (Try val)) (w : option tag) (x : option (@aproc val store)) : Prop :=
  match w, x with
  | None, None => True
  | Some TUser, Some x => user_proc x
  | Some TCaller, Some x => (exists b, rest x = Some b /\ caller_rest p b) /\
      harmless (captured x) /\ harmless (joined x)
  | Some TTask, Some x => task_rest fu (rest x) /\ captured x = detachPromise /\ harmless (joined x)
  | _, _ => False
  end.

(** The future, when the task has no process. *)
Definition fut_ok (s : status) (fu : option (Try val)) : Prop :=
  match s with
  | SNot | SQueued _ => fu = None
  | SLive (Some _) _ => True
  | SLive None c => ended fu /\ (c = None -> is_Some fu)
  end.

Record ainv (G : ghost) (A : @aspec val store) : Prop := {
  ai_funcs : forall t, Forall2 func_ok (qt G t) (pend A t);
  ai_close : forall t, close_ok (cw G t) (closing A t);
  ai_procs : forall p, proc_ok (ph G) (a_futs A !! 0%nat) (who G p) (procs A p);
  ai_queue : forall t, occ TTask (qt G t) = if decide (queue_of (st G) = Some t) then 1%nat else 0%nat;
  ai_caller_queue : forall t, occ TCaller (qt G t) =
    match ph G with InQueue => if decide (t = t0) then 1%nat else 0%nat | _ => 0%nat end;
  ai_proc : forall p, who G p = Some TTask <-> proc_of (st G) = Some p;
  ai_caller : forall p, who G p = Some TCaller <-> caller_at (ph G) = Some p;
  ai_cw : forall t, cw G t = Some true <-> close_of (st G) = Some t;
  ai_launched : st G = SNot <-> launched (ph G) = false;
  ai_refs : refs (a_memory A) = count (ph G) (st G);
  ai_bad : bad (object (a_memory A)) = false;
  ai_good : forall r, a_futs A !! 0%nat = Some r -> good (st G) r;
  ai_fut : fut_ok (st G) (a_futs A !! 0%nat);
}.

(** ** The steps *)

(** The promise is left alone. *)
Lemma ainv_quiet G A A' qt' cw' who' :
  ainv G A -> same_object (a_memory A) (a_memory A') -> a_futs A' !! 0%nat = a_futs A !! 0%nat ->
  (forall t, Forall2 func_ok (qt' t) (pend A' t)) -> (forall t, close_ok (cw' t) (closing A' t)) ->
  (forall p, proc_ok (ph G) (a_futs A !! 0%nat) (who' p) (procs A' p)) ->
  (forall t x, x <> TUser -> occ x (qt' t) = occ x (qt G t)) ->
  (forall t, cw' t = Some true <-> cw G t = Some true) ->
  (forall p x, x <> TUser -> who' p = Some x <-> who G p = Some x) ->
  ainv (Ghost (st G) (ph G) qt' cw' who') A'.
Proof.
  intros [I1 I2 I3 I4 I5 I6 I7 I8 I9 I10 I11 I12 I13] Hm Hf Hq Hc Hp Eq Ec Ew.
  constructor; rewrite ?Hf; cbn; try done.
  - intros t. by rewrite Eq.
  - intros t. by rewrite Eq.
  - intros p. by rewrite Ew.
  - intros p. by rewrite Ew.
  - intros t. by rewrite Ec.
  - unfold refs. by rewrite Hm.
  - by rewrite Hm.
Qed.

Lemma async_who_fresh G A m : ainv G A -> procs A m = None -> who G m = None.
Proof.
  intros H Hm. pose proof (ai_procs _ _ H m) as Hok. rewrite Hm in Hok. by destruct (who G m) as [[]|].
Qed.

Lemma async_cw_fresh G A t : ainv G A -> closing A t = None -> cw G t = None.
Proof.
  intros H Ht. pose proof (ai_close _ _ H t) as Hok. rewrite Ht in Hok. by destruct (cw G t) as [[]|].
Qed.

Lemma ainv_benign G A A' p x X :
  ainv G A -> who G p = Some x -> proc_ok (ph G) (a_futs A !! 0%nat) (Some x) X -> benign p X A A' ->
  exists G', ainv G' A'.
Proof.
  intros H Hp HX [B1 B2 B3 B4].
  assert (Hpx : forall q, proc_ok (ph G) (a_futs A !! 0%nat) (who G q) (<[p := X]> (procs A) q)).
  { intros q. rewrite fn_insert_case. case_decide; [subst; by rewrite Hp|apply H]. }
  destruct B4 as [[E1 E2]|[(m & y & Hm & Hy & E1 & E2)|(w & g & Hg & E1 & E2)]].
  - eexists. eapply (ainv_quiet G A A' (qt G) (cw G) (who G)); try done.
    + rewrite E2. apply H.
    + rewrite B3. apply H.
    + by rewrite E1.
  - pose proof (async_who_fresh G A m H Hm) as Hw.
    eexists. eapply (ainv_quiet G A A' (qt G) (cw G) (<[m := Some TUser]> (who G))); try done.
    + rewrite E2. apply H.
    + rewrite B3. apply H.
    + intros q. rewrite E1, (fn_insert_case m q), (fn_insert_case m q). case_decide; [done|apply Hpx].
    + intros q z Hz. rewrite fn_insert_case. case_decide; [subst|done]. rewrite Hw. split; congruence.
  - eexists. eapply (ainv_quiet G A A' (<[w := qt G w ++ [TUser]]> (qt G)) (cw G) (who G)); try done.
    + intros t. rewrite E2, !fn_insert_case. case_decide; [subst|apply H].
      apply Forall2_app; [apply H|by constructor].
    + rewrite B3. apply H.
    + by rewrite E1.
    + intros t z Hz. rewrite fn_insert_case. case_decide; [subst|done].
      rewrite occ_app, (occ_other z TUser [TUser]); [lia|done|by constructor].
Qed.

(** The task goes to the status [st'], and its places with it. *)
Record places (G : ghost) (st' : status) (qt' : nat -> list tag) (cw' : nat -> option bool)
    (who' : nat -> option tag) : Prop := {
  pl_queue : forall t x, x <> TUser -> x <> TTask -> occ x (qt' t) = occ x (qt G t);
  pl_task_queue : forall t, occ TTask (qt' t) = if decide (queue_of st' = Some t) then 1%nat else 0%nat;
  pl_close : forall t, cw' t = Some true <-> close_of st' = Some t;
  pl_who : forall p x, x <> TUser -> x <> TTask -> who' p = Some x <-> who G p = Some x;
  pl_task : forall p, who' p = Some TTask <-> proc_of st' = Some p;
}.

(** A promise less. *)
Lemma ainv_drop G A A' m fu st' qt' cw' who' :
  ainv G A -> weight (st G) = S (weight st') -> queue_of st' = None -> st' <> SNot ->
  same_object (a_memory A) m -> fu !! 0%nat = a_futs A !! 0%nat ->
  a_memory A' = (detachPromise m).1 -> a_futs A' = settle (detachPromise m).2 fu ->
  (proc_of st' = None -> ended (a_futs A !! 0%nat)) ->
  places G st' qt' cw' who' ->
  (forall t, Forall2 func_ok (qt' t) (pend A' t)) -> (forall t, close_ok (cw' t) (closing A' t)) ->
  (forall p, proc_ok (ph G) (a_futs A !! 0%nat) (who' p) (procs A' p)) ->
  ainv (Ghost st' (ph G) qt' cw' who') A'.
Proof.
  intros [I1 I2 I3 I4 I5 I6 I7 I8 I9 I10 I11 I12 I13] Hw Hqn Hn Hm Hfu Em Ef Hend [P1 P2 P3 P4 P5] Hq Hc Hp.
  assert (Hl : launched (ph G) = true).
  { destruct (launched (ph G)) eqn:E; [done|]. by rewrite (proj2 I9 eq_refl) in Hw. }
  assert (Hcount : forall s, count (ph G) s = weight s) by (intros s; by destruct (ph G)).
  assert (Hr : refs m = S (weight st')) by (unfold refs in *; by rewrite Hm, I10, Hcount).
  assert (Ed : detachPromise m = (set_refs (weight st') m,
    match weight st' with 0%nat => Some (0%nat, broken) | S _ => None end)) by (unfold detachPromise; by rewrite Hr).
  rewrite Ed in Em, Ef. cbn in Em.
  assert (Hf' : (a_futs A' !! 0%nat = a_futs A !! 0%nat /\ (weight st' <> 0%nat \/ is_Some (a_futs A !! 0%nat))) \/
    (weight st' = 0%nat /\ a_futs A' !! 0%nat = Some broken /\ fails)).
  { rewrite Ef. cbn [snd]. destruct (weight st') as [|n] eqn:E; [|left; cbn; auto].
    cbn. rewrite Hfu. destruct (a_futs A !! 0%nat) as [r|] eqn:Er; [left; rewrite Hfu; split; [done|right; by eexists]|].
    right. rewrite lookup_insert_eq. split_and!; try done. destruct Hend as [[? ?]|?]; try done.
    unfold weight in E. by destruct (proc_of st'); cbn in E; [lia|]. }
  assert (Hnt : weight st' = 0%nat -> forall p, who' p <> Some TTask).
  { intros Hz p Hpt%P5. unfold weight in Hz. rewrite Hpt in Hz. cbn in Hz. lia. }
  constructor; cbn; try done.
  - intros p. specialize (Hp p). destruct Hf' as [[-> _]|(Hz & _)]; [done|].
    destruct (who' p) as [[]|] eqn:E; try done. by destruct (Hnt Hz p).
  - intros t. by rewrite P1.
  - intros p. by rewrite P4.
  - rewrite Hl. by split.
  - by rewrite Em, Hcount.
  - by rewrite Em, <- I11, <- Hm.
  - intros r. destruct Hf' as [[-> _]|(Hz & -> & Hfail)].
    + intros Hr'. destruct (I12 r Hr') as [?|(_ & _ & E)]; [by left|]. by rewrite E in Hw.
    + intros [= <-]. right. split; [done|]. split; [done|].
      destruct st' as [|t|[p|] [t|]]; done.
  - destruct st' as [| |[p|] cl]; try done. cbn in Hend |- *. destruct Hf' as [[-> Hs]|(_ & -> & _)].
    + split; [by apply Hend|]. intros ->. destruct Hs as [Hs|Hs]; [by destruct Hs|done].
    + split; [left; by eexists|]. intros _. by eexists.
Qed.

(** A process that has ended is destroyed. *)
Lemma ainv_destroy G A p x :
  ainv G A -> procs A p = Some x -> rest x = None ->
  exists G', ainv G' (a_act (captured x) (a_act (joined x) (set_proc p None A))).
Proof.
  intros H Hp Hx. pose proof (ai_procs _ _ H p) as Hok. rewrite Hp in Hok. rewrite a_act2.
  destruct (who G p) as [[| |]|] eqn:Ew; cbn in Hok; try done.
  - destruct Hok as (_ & Hc & Hj). eexists. eapply (ainv_quiet G A _ (qt G) (cw G) (<[p := None]> (who G)));
      try done; try apply H; cbn.
    + by apply harmless_twice.
    + by rewrite !settle_harmless.
    + intros q. rewrite !fn_insert_case. case_decide; [done|apply H].
    + intros q z Hz. rewrite fn_insert_case. case_decide; [subst|done]. rewrite Ew. split; congruence.
  - destruct Hok as ((b & Hb & _) & _). congruence.
  - destruct Hok as (Hr & Hc & Hj). rewrite Hc.
    assert (Hpt : proc_of (st G) = Some p) by by apply (ai_proc _ _ H).
    destruct (st G) as [|t|p' cl] eqn:Est; try done. cbn in Hpt. subst p'.
    eexists. eapply (ainv_drop G A _ (joined x (a_memory A)).1 (settle (joined x (a_memory A)).2 (a_futs A))
      (SLive None cl) (qt G) (cw G) (<[p := None]> (who G))); try done; try apply H; try apply Hj.
    + by rewrite Est.
    + by rewrite settle_harmless.
    + intros _. destruct Hr as [(b0 & _ & E & _)|[Hs _]]; [congruence|done].
    + constructor; try done; cbn.
      * intros t. by rewrite (ai_queue _ _ H), Est.
      * intros t. by rewrite (ai_cw _ _ H), Est.
      * intros q z Hz Hzi. rewrite fn_insert_case. case_decide; [subst|done]. rewrite Ew. split; congruence.
      * intros q. rewrite fn_insert_case. case_decide; [by split|]. rewrite (ai_proc _ _ H), Est. cbn.
        split; congruence.
    + intros q. cbn. rewrite !fn_insert_case. case_decide; [done|apply H].
Qed.

(** The worker destroys the lambda that it has run. *)
Lemma ainv_close G A t d :
  ainv G A -> closing A t = Some d ->
  exists G', ainv G' (a_act d (ASpec (procs A) (pend A) (<[t := None]> (closing A)) (a_futs A) (a_memory A))).
Proof.
  intros H Hd. pose proof (ai_close _ _ H t) as Hok. rewrite Hd in Hok. rewrite a_act_eq. cbn.
  destruct (cw G t) as [[|]|] eqn:Ew; cbn in Hok; try done.
  - subst d. assert (Hcl : close_of (st G) = Some t) by by apply (ai_cw _ _ H).
    destruct (st G) as [|w|p cl] eqn:Est; try done. cbn in Hcl. subst cl.
    eexists. eapply (ainv_drop G A _ (a_memory A) (a_futs A) (SLive p None) (qt G) (<[t := None]> (cw G)) (who G));
      try done; try apply H.
    + rewrite Est. unfold weight. cbn. lia.
    + cbn. intros ->. pose proof (ai_fut _ _ H) as Hf. rewrite Est in Hf. apply Hf.
    + constructor; try done; cbn.
      * intros w. by rewrite (ai_queue _ _ H), Est.
      * intros w. rewrite fn_insert_case. case_decide; [by split|]. rewrite (ai_cw _ _ H), Est. cbn.
        split; congruence.
      * intros q. by rewrite (ai_proc _ _ H), Est.
    + intros w. cbn. rewrite !fn_insert_case. case_decide; [done|apply H].
  - eexists. eapply (ainv_quiet G A _ (qt G) (<[t := None]> (cw G)) (who G)); try done; try apply H; cbn.
    + apply Hok.
    + by apply settle_harmless.
    + intros w. rewrite !fn_insert_case. case_decide; [done|apply H].
    + intros w. rewrite fn_insert_case. case_decide; [subst|done]. rewrite Ew. split; congruence.
Qed.

(** A worker takes a function from its queue: one of the program's, *)
Lemma ainv_start_user G A t m g q l :
  ainv G A -> qt G t = TUser :: l -> user_func g -> Forall2 func_ok l q -> closing A t = None -> procs A m = None ->
  exists G', ainv G' (started t m g q A).
Proof.
  intros H Eq ((b & Hb) & (Hcopy & Hd) & Hj) Hl Hcl Hm.
  pose proof (async_who_fresh G A m H Hm) as Hw. pose proof (async_cw_fresh G A t H Hcl) as Hc.
  destruct (occ_take _ t _ _ Eq) as (Hocc & _ & _). eexists.
  eapply (ainv_quiet G A _ (<[t := l]> (qt G)) (<[t := Some false]> (cw G)) (<[m := Some TUser]> (who G)));
    try done; cbn.
  - intros t'. by apply Forall2_take; [apply H|].
  - intros t'. rewrite !fn_insert_case. case_decide; [done|apply H].
  - intros p. rewrite !fn_insert_case. case_decide; [|apply H]. split; [|done]. right. exists b. by rewrite <- Hb.
  - intros t'. rewrite fn_insert_case. case_decide; [subst|done]. rewrite Hc. split; congruence.
  - intros p y Hy. rewrite fn_insert_case. case_decide; [subst|done]. rewrite Hw. split; congruence.
Qed.

(** the caller, *)
Lemma ainv_start_caller G A t m q l :
  ainv G A -> qt G t = TCaller :: l -> Forall2 func_ok l q -> closing A t = None -> procs A m = None ->
  exists G', ainv G' (started t m caller q A).
Proof.
  intros H Eq Hl Hcl Hm.
  pose proof (async_who_fresh G A m H Hm) as Hw. pose proof (async_cw_fresh G A t H Hcl) as Hc.
  destruct (occ_take _ t _ _ Eq) as (Hocc & Hocc' & Hpos). pose proof (ai_caller_queue _ _ H t) as Ho.
  destruct (ph G) as [| | | |] eqn:Eph; try lia. case_decide as Ht; [|lia].
  pose proof (ai_refs _ _ H) as Hr. pose proof (ai_launched _ _ H) as Hla. rewrite Eph in Hr, Hla.
  eexists (Ghost (st G) (Called m) (<[t := l]> (qt G)) (<[t := Some false]> (cw G)) (<[m := Some TCaller]> (who G))).
  constructor; try apply H; try done; cbn.
  - intros t'. by apply Forall2_take; [apply H|].
  - intros t'. rewrite !fn_insert_case. case_decide; [apply harmless_none|apply H].
  - intros p. rewrite !fn_insert_case. case_decide.
    + split; [by eexists|]. split; apply harmless_none.
    + pose proof (ai_procs _ _ H p) as Hok. rewrite Eph in Hok.
      destruct (who G p) as [[]|] eqn:Ep; [exact Hok| |exact Hok|exact Hok].
      rewrite (ai_caller _ _ H), Eph in Ep. done.
  - intros t'. rewrite Hocc by done. apply H.
  - intros t'. rewrite Hocc', (ai_caller_queue _ _ H), Eph. subst t. case_decide; lia.
  - intros p. rewrite fn_insert_case. case_decide; [subst|apply H]. rewrite <- (ai_proc _ _ H), Hw. split; congruence.
  - intros p. rewrite fn_insert_case. case_decide; [subst; done|].
    rewrite (ai_caller _ _ H), Eph. cbn. split; congruence.
  - intros t'. rewrite fn_insert_case. case_decide; [subst|apply H]. rewrite <- (ai_cw _ _ H), Hc. split; congruence.
Qed.

(** or the task, whose lambda is copied. *)
Lemma ainv_start_task G A t m q l :
  ainv G A -> qt G t = TTask :: l -> Forall2 func_ok l q -> closing A t = None -> procs A m = None ->
  exists G', ainv G' (started t m (Func (proc_body f) proc_owned no_callback) q A).
Proof.
  intros H Eq Hl Hcl Hm.
  pose proof (async_who_fresh G A m H Hm) as Hw. pose proof (async_cw_fresh G A t H Hcl) as Hc.
  destruct (occ_take _ t _ _ Eq) as (Hocc & Hocc' & Hpos).
  assert (Hst : st G = SQueued t).
  { pose proof (ai_queue _ _ H t) as Ho. case_decide as Hb; [|lia]. by destruct (st G); cbn in Hb; simplify_eq. }
  assert (Hla : launched (ph G) = true).
  { destruct (launched (ph G)) eqn:E; [done|]. apply (ai_launched _ _ H) in E. congruence. }
  assert (Hr : refs (a_memory A) = 1%nat) by (rewrite (ai_refs _ _ H), Hst; by destruct (ph G)).
  assert (Ea : attachPromise (a_memory A) = set_refs 2 (a_memory A)) by (unfold attachPromise; by rewrite Hr).
  pose proof (ai_fut _ _ H) as Hf. rewrite Hst in Hf. cbn in Hf.
  eexists (Ghost (SLive (Some m) (Some t)) (ph G) (<[t := l]> (qt G)) (<[t := Some true]> (cw G))
    (<[m := Some TTask]> (who G))).
  constructor; cbn; rewrite ?Ea; try done.
  - intros t'. by apply Forall2_take; [apply H|].
  - intros t'. rewrite !fn_insert_case. case_decide; [done|apply H].
  - intros p. rewrite !fn_insert_case. case_decide; [|apply H].
    split; [|split; [done|apply harmless_none]]. left. by exists f.
  - intros t'. rewrite Hocc', (ai_queue _ _ H), Hst. cbn. repeat case_decide; try lia; congruence.
  - intros t'. rewrite Hocc by done. apply H.
  - intros p. rewrite fn_insert_case. case_decide; [subst; done|].
    rewrite (ai_proc _ _ H), Hst. cbn. split; congruence.
  - intros p. rewrite fn_insert_case. case_decide; [subst|apply H]. rewrite <- (ai_caller _ _ H), Hw. split; congruence.
  - intros t'. rewrite fn_insert_case. case_decide; [subst; done|]. rewrite (ai_cw _ _ H), Hst. cbn. split; congruence.
  - rewrite Hla. by split.
  - by destruct (ph G).
  - apply H.
  - rewrite Hf. by intros r.
Qed.

Lemma ainv_start G A t m g q :
  ainv G A -> pend A t = g :: q -> closing A t = None -> procs A m = None -> exists G', ainv G' (started t m g q A).
Proof.
  intros H Hp Hcl Hm. pose proof (ai_funcs _ _ H t) as Hq. rewrite Hp in Hq.
  apply Forall2_cons_inv_r in Hq as (x & l & Hg & Hl & Eq). destruct x as [| |]; cbn in Hg.
  - by eapply ainv_start_user.
  - subst g. by eapply ainv_start_caller.
  - subst g. by eapply ainv_start_task.
Qed.

(** A step of the task. *)
Lemma ainv_task G A A' p w m x b :
  ainv G A -> procs A p = Some x -> who G p = Some TTask -> rest x = Some b ->
  a_exec p w m x b A = Some A' -> exists G', ainv G' A'.
Proof.
  intros H Hp Hw Hb Hs.
  pose proof (ai_procs _ _ H p) as Hok. rewrite Hp, Hw in Hok. destruct Hok as (Hr & Hc & Hj). rewrite Hb in Hr.
  assert (Hend : forall r, b = End r -> ended (a_futs A !! 0%nat) -> exists G', ainv G' A').
  { intros r -> Hd. cbn in Hs. injection Hs as <-.
    eapply (ainv_benign G A _ p TTask); [done|done| |constructor; cbn; auto; done].
    split; [|done]. right. split; [done|by left]. }
  destruct Hr as [(b0 & Hl & E & Hfu)|[Hd [Hn|[r Er]]]]; [|done|].
  2: { injection Er as ->. by eapply Hend. }
  injection E as ->. unfold proc_body in Hs.
  destruct (call_step _ _ _ _ _ _ _ _ Hs) as [[r ->]|(b' & Hl' & Hbn)].
  - assert (Hleaf : leaf f r) by (apply Hl; constructor).
    destruct r as [|v|e]; cbn in Hs;
      [eapply Hend; [done|right; by exists TNothing]| |eapply Hend; [done|right; by exists (TError e)]].
    rewrite Hfu in Hs. injection Hs as <-.
    assert (Hpt : proc_of (st G) = Some p) by by apply (ai_proc _ _ H).
    exists (Ghost (st G) (ph G) (qt G) (cw G) (who G)).
    constructor; try apply H; cbn; rewrite lookup_insert_eq.
    + intros q. rewrite fn_insert_case. case_decide.
      * subst q. rewrite Hw. split; [|done]. right. split; [left; by eexists|right; by eexists].
      * pose proof (ai_procs _ _ H q) as Hok. destruct (who G q) as [[]|] eqn:Eq; try exact Hok.
        apply (ai_proc _ _ H) in Eq. congruence.
    + intros r [= <-]. left. by exists v.
    + destruct (st G) as [| |[p'|] cl]; done.
  - eapply ainv_benign; [done|done| |done]. split; [|done]. left. exists b'.
    split; [auto|done].
Qed.

(** The caller goes on, with the promise made or with its result. *)
Lemma ainv_caller G A A' p x b ph' who' :
  ainv G A -> who G p = Some TCaller -> harmless (captured x) -> harmless (joined x) ->
  pend A' = pend A -> closing A' = closing A -> a_futs A' = a_futs A ->
  procs A' = <[p := Some (AProcess (Some b) (captured x) (joined x))]> (procs A) ->
  (forall q, q <> p -> who' q = who G q) ->
  (who' p = Some TCaller /\ caller_rest ph' b /\ caller_at ph' = Some p) \/
    (who' p = Some TUser /\ (exists b0, b = call b0 End) /\ caller_at ph' = None) ->
  ph' <> InQueue -> launched ph' = launched (ph G) -> refs (a_memory A') = count ph' (st G) ->
  bad (object (a_memory A')) = bad (object (a_memory A)) ->
  ainv (Ghost (st G) ph' (qt G) (cw G) who') A'.
Proof.
  intros H Hp Hc Hj Eq Ecl Ef Ep Hwho Hrest Hph Hl Hr Hb.
  assert (Hat : caller_at (ph G) = Some p) by by apply (ai_caller _ _ H).
  assert (Hne : who' p <> Some TTask) by (destruct Hrest as [(-> & _)|(-> & _)]; done).
  constructor; rewrite ?Ef, ?Eq, ?Ecl, ?Hb; cbn; try apply H.
  - intros q. rewrite Ep, fn_insert_case. destruct (decide (q = p)) as [->|Hqp].
    + destruct Hrest as [(-> & Hr' & _)|(-> & [b0 ->] & _)].
      * split; [by eexists|done].
      * split; [right; by eexists|done].
    + rewrite Hwho by done. pose proof (ai_procs _ _ H q) as Hok. destruct (who G q) as [[]|] eqn:Eq'; try exact Hok.
      rewrite (ai_caller _ _ H) in Eq'. congruence.
  - intros t. rewrite (ai_caller_queue _ _ H). destruct (ph G), ph'; done.
  - intros q. destruct (decide (q = p)) as [->|Hqp]; [|by rewrite Hwho, (ai_proc _ _ H)].
    rewrite <- (ai_proc _ _ H), Hp. split; [done|congruence].
  - intros q. destruct (decide (q = p)) as [->|Hqp].
    + destruct Hrest as [(-> & _ & ->)|(-> & _ & ->)]; by split.
    + rewrite Hwho, (ai_caller _ _ H), Hat by done. destruct Hrest as [(_ & _ & ->)|(_ & _ & ->)]; split; congruence.
  - rewrite Hl. apply H.
  - done.
Qed.

(** The caller launches the function. *)
Lemma ainv_launch G A p x s' procs' pend' qt' who' :
  ainv G A -> ph G = Made p -> who G p = Some TCaller -> harmless (captured x) -> harmless (joined x) ->
  weight s' = 1%nat -> close_of s' = None -> places G s' qt' (cw G) who' ->
  (forall t, Forall2 func_ok (qt' t) (pend' t)) ->
  (forall q, who' q = if decide (proc_of s' = Some q) then Some TTask else who G q) ->
  (forall q, proc_of s' = Some q -> procs A q = None) ->
  (forall q, procs' q = if decide (proc_of s' = Some q) then
       Some (AProcess (Some (proc_body f)) detachPromise no_callback)
     else if decide (q = p) then Some (AProcess (Some (call meanwhile then_await)) (captured x) (joined x))
     else procs A q) ->
  exists G', ainv G' (ASpec procs' pend' (closing A) (a_futs A) (a_memory A)).
Proof.
  intros H Eph Hp Hc Hj Hwt Hcl [P1 P2 P3 P4 P5] Hq Hwho Hfresh Hprocs.
  assert (Hst : st G = SNot) by (apply (ai_launched _ _ H); by rewrite Eph).
  pose proof (ai_fut _ _ H) as Hf. rewrite Hst in Hf. cbn in Hf.
  assert (Hnp : proc_of s' <> Some p).
  { intros E. pose proof (async_who_fresh G A p H (Hfresh p E)). congruence. }
  exists (Ghost s' (Going p) qt' (cw G) who'). constructor; cbn; try done; try apply H.
  - intros q. rewrite Hwho, Hprocs. case_decide as E; [|case_decide as E'].
    + split; [|split; [done|apply harmless_none]]. left. by exists f.
    + subst q. rewrite Hp. split; [|done]. eexists. split; [done|]. by exists meanwhile.
    + pose proof (ai_procs _ _ H q) as Hok. destruct (who G q) as [[]|] eqn:Eq; try exact Hok.
      rewrite (ai_caller _ _ H), Eph in Eq. injection Eq as ->. done.
  - intros t. rewrite P1 by done. by rewrite (ai_caller_queue _ _ H), Eph.
  - intros q. rewrite P4 by done. by rewrite (ai_caller _ _ H), Eph.
  - split; [intros ->; done|done].
  - by rewrite (ai_refs _ _ H), Eph, Hwt.
  - rewrite Hf. by intros r.
  - destruct s' as [| |[q|] cl]; try done. cbn in Hcl. by subst cl.
Qed.

Lemma ainv_caller_step G A A' p w m x b :
  ainv G A -> procs A p = Some x -> who G p = Some TCaller -> rest x = Some b ->
  a_exec p w m x b A = Some A' -> exists G', ainv G' A'.
Proof.
  intros H Hp Hw Hb Hs.
  pose proof (ai_procs _ _ H p) as Hok. rewrite Hp, Hw in Hok. destruct Hok as ((b' & Hb' & Hr) & Hc & Hj).
  assert (b' = b) as -> by congruence. clear Hb'.
  assert (Hat : caller_at (ph G) = Some p) by by apply (ai_caller _ _ H).
  pose proof (ai_refs _ _ H) as Href. pose proof (ai_launched _ _ H) as Hla.
  destruct (ph G) as [|q|q|q|] eqn:Eph; try done; injection Hat as ->; cbn in Hr, Href, Hla.
  - subst b. injection Hs as <-.
    eexists. eapply (ainv_caller G A _ p x _ (Made p) (who G)); try done; cbn; [|by rewrite Eph].
    left. by split_and!.
  - assert (Hst : st G = SNot) by by apply Hla.
    assert (Hpol : policy = Launch_Schedule \/ policy = Launch_Current) by (destruct policy; auto).
    destruct Hpol as [Epol|Epol]; rewrite Epol in Hr; subst b; cbn in Hs.
    + injection Hs as <-.
      eapply (ainv_launch G A p x (SQueued w) _ _ (<[w := qt G w ++ [TTask]]> (qt G)) (who G)); try done; cbn.
      * constructor; try done; cbn.
        -- intros t y Hy Hyt. rewrite fn_insert_case. case_decide; [subst|done]. rewrite occ_app. cbn.
           rewrite decide_False by done. lia.
        -- intros t. pose proof (ai_queue _ _ H t) as Ho. rewrite Hst in Ho. cbn in Ho. rewrite decide_False in Ho by done.
           rewrite fn_insert_case. destruct (decide (t = w)) as [->|Ht].
           ++ rewrite occ_app, Ho. cbn. by rewrite !decide_True.
           ++ rewrite Ho, decide_False; [done|congruence].
        -- intros t. by rewrite (ai_cw _ _ H), Hst.
        -- intros q. by rewrite (ai_proc _ _ H), Hst.
      * intros t. rewrite !fn_insert_case. case_decide; [subst|apply H].
        apply Forall2_app; [apply H|]. by constructor.
      * intros q. rewrite fn_insert_case. repeat case_decide; congruence.
    + destruct (procs A m) eqn:Hm; [done|]. injection Hs as <-. pose proof (async_who_fresh G A m H Hm) as Hwm.
      eapply (ainv_launch G A p x (SLive (Some m) None) _ _ (qt G) (<[m := Some TTask]> (who G))); try done; cbn.
      * constructor; try done; cbn.
        -- intros t. by rewrite (ai_queue _ _ H), Hst.
        -- intros t. by rewrite (ai_cw _ _ H), Hst.
        -- intros q y Hy Hyt. rewrite fn_insert_case. case_decide; [subst|done]. rewrite Hwm. split; congruence.
        -- intros q. rewrite fn_insert_case. case_decide; [by subst|]. rewrite (ai_proc _ _ H), Hst. cbn.
           split; congruence.
      * apply H.
      * intros q. rewrite fn_insert_case. repeat case_decide; congruence.
      * by intros q [= <-].
      * intros q. rewrite !fn_insert_case. repeat case_decide; congruence.
  - destruct Hr as [b0 ->]. destruct (call_step _ _ _ _ _ _ _ _ Hs) as [[r ->]|(b' & _ & Hbn)].
    + cbn in Hs. destruct (a_futs A !! 0%nat) as [v|] eqn:Ev; cbn in Hs; [|done]. injection Hs as <-.
      eexists. eapply (ainv_caller G A _ p x _ Returned (<[p := Some TUser]> (who G))); try done; cbn.
      * intros q Hq. by rewrite fn_lookup_insert_ne.
      * right. rewrite fn_lookup_insert. split; [done|]. split; [by eexists|done].
      * by rewrite Eph.
    + eapply ainv_benign; [done|done| |done]. rewrite Eph. split; [|done]. eexists. split; [done|]. by exists b'.
Qed.

Lemma ainv_step G A A' l :
  ainv G A -> a_step (external := lift_external ext) l A = Some A' -> exists G', ainv G' A'.
Proof.
  intros H Hs. destruct l as [t m|t|p w m|g v]; cbn in Hs.
  - destruct (pend A t) as [|g q] eqn:Hp; [done|]. destruct (closing A t) eqn:Hc; [done|].
    destruct (procs A m) eqn:Hm; [done|]. injection Hs as <-. by apply (ainv_start G).
  - destruct (closing A t) as [d|] eqn:Hc; cbn in Hs; [|done]. injection Hs as <-. by eapply ainv_close.
  - destruct (procs A p) as [x|] eqn:Hp; cbn in Hs; [|done].
    destruct (rest x) as [b|] eqn:Hb; [|injection Hs as <-; by eapply ainv_destroy].
    pose proof (ai_procs _ _ H p) as Hok. rewrite Hp in Hok.
    destruct (who G p) as [[| |]|] eqn:Hw; try done; [|by eapply ainv_caller_step|by eapply ainv_task].
    destruct Hok as ([?|[b0 Hb0]] & Hc & Hj); [congruence|]. assert (b = call b0 End) as -> by congruence.
    destruct (call_step _ _ _ _ _ _ _ _ Hs) as [[r ->]|(b' & _ & Hbn)].
    + cbn in Hs. injection Hs as <-. eapply (ainv_benign G A _ p TUser); [done|done| |constructor; cbn; auto; done].
      split; [by left|done].
    + eapply ainv_benign; [done|done| |done]. split; [right; by eexists|done].
  - destruct (a_futs A !! g) as [u|] eqn:Hf; [done|]. destruct (lift_external ext g) eqn:He; [|done].
    injection Hs as <-. eexists. eapply (ainv_quiet G A _ (qt G) (cw G) (who G)); try done; try apply H.
    cbn. apply lookup_insert_ne. by intros ->.
Qed.

Definition ghost_init : ghost :=
  Ghost SNot InQueue
    (fun t => (if decide (t = t0) then [TCaller] else []) ++ replicate (length (queues t)) TUser)
    (fun _ => None) (fun _ => None).

Lemma async_occ_init x t : x <> TUser ->
  occ x (qt ghost_init t) = if decide (x = TCaller /\ t = t0) then 1%nat else 0%nat.
Proof.
  intros Hx. cbn. rewrite occ_app, (occ_other x TUser (replicate _ _)); [|done|by apply Forall_replicate].
  repeat case_decide; cbn; repeat case_decide; naive_solver lia.
Qed.

Lemma ainv_init : ainv ghost_init (a_init async_start async_queue).
Proof.
  constructor; try done; cbn [st ph].
  - intros t. unfold async_queue. cbn [qt pend a_init ghost_init]. apply Forall2_app.
    + case_decide; by constructor.
    + induction (queues t) as [|g q IH]; constructor; [apply user_func_lift|done].
  - intros t. rewrite async_occ_init by done. rewrite !decide_False; [done|done|by intros [? _]].
  - intros t. rewrite async_occ_init by done. cbn. repeat case_decide; naive_solver.
Qed.

Definition async_lts {S} {switching : Switching (@code val store) S} : lts :=
  uthread_lts (external := lift_external ext) async_start async_queue.

Lemma async_invariant A :
  reachable (a_lts (external := lift_external ext) async_start async_queue) A -> exists G, ainv G A.
Proof.
  apply (invariant_ind (a_lts (external := lift_external ext) async_start async_queue) (fun A => exists G, ainv G A)).
  - intros A0 ->. exists ghost_init. apply ainv_init.
  - intros A0 A1 [G H] [l Hl]. by eapply ainv_step.
Qed.

(** Threads with nothing to do, and no process but those that wait: the task's waits
    for a future of the program's. *)
Lemma idle_task G A :
  ainv G A -> (forall t, pend A t = [] /\ closing A t = None) ->
  (forall n x, procs A n = Some x -> exists g k, rest x = Some (Await g k)) ->
  is_Some (a_futs A !! 0%nat) \/
  exists n x g k, procs A n = Some x /\ rest x = Some (Await (S g) k).
Proof.
  intros H Hq Hb.
  assert (Hno : forall t x, x ∈ qt G t -> False).
  { intros t x Hx. pose proof (ai_funcs _ _ H t) as Hfn. destruct (Hq t) as [E _]. rewrite E in Hfn.
    apply Forall2_nil_inv_r in Hfn. rewrite Hfn in Hx. by apply elem_of_nil in Hx. }
  assert (Hcaller : forall p, caller_at (ph G) = Some p -> exists x g k, procs A p = Some x /\
    rest x = Some (Await g k) /\ caller_rest (ph G) (Await g k)).
  { intros p Hp. apply (ai_caller _ _ H) in Hp. pose proof (ai_procs _ _ H p) as Hok. rewrite Hp in Hok.
    destruct (procs A p) as [x|] eqn:Ex; [|done]. destruct Hok as ((b & Hbx & Hr) & _).
    destruct (Hb p x Ex) as (g & k & E). assert (b = Await g k) as -> by congruence. eauto 6. }
  pose proof (ai_launched _ _ H) as Hl. pose proof (ai_fut _ _ H) as Hf.
  destruct (st G) as [|t|[p|] cl] eqn:Est.
  - exfalso. destruct (ph G) as [|p|p|p|] eqn:Eph; cbn in Hl.
    + apply (Hno t0 TCaller), occ_pos. rewrite (ai_caller_queue _ _ H), Eph, decide_True by done. lia.
    + by destruct (Hcaller p) as (x & g & k & _ & _ & Hr).
    + destruct (Hcaller p) as (x & g & k & _ & _ & Hr); [done|]. cbn in Hr. by destruct policy.
    + by destruct Hl as [Hl _]; specialize (Hl eq_refl).
    + by destruct Hl as [Hl _]; specialize (Hl eq_refl).
  - exfalso. apply (Hno t TTask), occ_pos. rewrite (ai_queue _ _ H), Est, decide_True by done. lia.
  - right. assert (Hw : who G p = Some TTask) by (apply (ai_proc _ _ H); by rewrite Est).
    pose proof (ai_procs _ _ H p) as Hok. rewrite Hw in Hok. destruct (procs A p) as [x|] eqn:Ex; [|done].
    destruct Hok as (Hr & _). destruct (Hb p x Ex) as (g & k & E). rewrite E in Hr.
    destruct Hr as [(b0 & _ & [= E'] & _)|[_ [?|[r [= ?]]]]]; try done. unfold proc_body in E'.
    destruct b0 as [r| | | | |]; cbn in E'; try done; [by destruct r|]. injection E' as -> _.
    by eexists p, x, _, k.
  - destruct cl as [t|]; [|left; by apply Hf].
    assert (Hw : cw G t = Some true) by (apply (ai_cw _ _ H); by rewrite Est).
    pose proof (ai_close _ _ H t) as Hok. rewrite Hw in Hok. destruct (Hq t) as [_ E]. by rewrite E in Hok.
Qed.
End async.

(** The machine of Uthread.v against the invariant. *)
Section theorems.
Context {val user : Type} (policy : Policy) (f meanwhile : @prog val user) (after : Try val -> @prog val user)
  (t0 : nat) (queues : nat -> list (@func val user)) (m0 : user) (ext : nat -> bool).
Context {S : Type} {switching : Switching (@code val (shared promise_state user)) S}
  {laws : SwitchingLaws (@code val (shared promise_state user)) S}.

End theorems.

(** ** Runs

    The caller is on thread 0, the function on thread 1: it waits for the future
    that a uthread of thread 2 sets, and returns its value, or throws. *)

Definition async_value : @prog Z (list Z) := Await 0 (fun t => End t).
Definition async_throw : @prog Z (list Z) := Await 0 (fun _ => End (TError (Some (UserError 1)))).
Definition async_after (t : Try Z) : @prog Z (list Z) :=
  Atomic (app [match t with TValue v => v | _ => -1 end]) (fun _ => End t).
Definition async_meanwhile : @prog Z (list Z) := Atomic (app [1]) (fun _ => End (TValue 0)).
Definition async_queues (t : nat) : list (@func Z (list Z)) :=
  match t with
  | 2%nat => [Func (SetValue 0 (TValue 7) (fun _ => End (TValue 0))) (Owned (fun m => m) no_callback) no_callback]
  | _ => []
  end.
Definition async_external (f : nat) : bool := false.

Definition async_ustate : Type :=
  ustate (val := Z) (mem := shared promise_state (list Z)) (S := @sw (@code Z (shared promise_state (list Z)))).
Definition async_step : @ulabel Z -> async_ustate -> option async_ustate :=
  ustep (external := lift_external async_external).
Definition async_init (f : @prog Z (list Z)) : async_ustate :=
  uinit (async_start []) (async_queue Launch_Schedule f async_meanwhile async_after 0 async_queues).

Definition throw_schedule : list (@ulabel Z) :=
  (* the caller launches the function and waits for the future, the function for the future 0 *)
  replicate 8 (LThread 0 1) ++ replicate 5 (LThread 1 1) ++
  (* it is set; the function throws, and the caller goes on *)
  replicate 6 (LThread 2 2) ++ [LForward 1] ++ replicate 5 (LThread 1 1) ++ [LForward 0] ++
  replicate 6 (LThread 0 1).
Definition throw_end : async_ustate := run_end async_step throw_schedule (async_init async_throw).

Lemma throw_end_reachable :
  reachable (async_lts Launch_Schedule async_throw async_meanwhile async_after 0 async_queues [] async_external)
    throw_end.
Proof. apply run_end_reachable; [done|]. vm_compute. reflexivity. Qed.

Lemma throw_end_idle t w : thread_step t w throw_end = None.
Proof. destruct t as [|[|[|t]]]; vm_compute; reflexivity. Qed.

Lemma throw_end_empty : ctxs throw_end = ∅.
Proof. vm_compute. reflexivity. Qed.

Lemma throw_end_forward n : forward n throw_end = None.
Proof. unfold forward. by rewrite throw_end_empty, lookup_empty. Qed.

