(* ===== verification/PromiseAllocator.v ===== *)
(** * PromiseAllocator: the frames of coroutines in memory

    Models coro/PromiseAllocator.h, [operator new] and [operator delete] of a
    coroutine promise.  The frame is at the start of the block that the allocator
    gives; the allocator itself, when it has a state, and a pointer to the function
    that gives the block back, when the type of the allocator is erased, are put
    behind the frame, where [operator delete] looks for them.

    Memory is a map from addresses to bytes, each the byte of an object; what is
    written outside a live block, what is read and not there, and a block given
    back with another size or to another allocator, are undefined.  The addresses
    that allocators and the global [operator new] give are parameters. *)

From S2P Require Import Prelude.

(** ** Memory *)

(** A type of allocators, rebound to [Aligned_block]; [stateless] is
    [default_initializable && is_always_equal]. *)
Record alloc_type := AllocType { alignof : Z; sizeof : Z; stateless : bool }.

(** An allocator, and the state that tells it from the others of its type. *)
Record alloc := Alloc { ty : alloc_type; resource : Z }.

#[export] Instance alloc_type_eq_dec : EqDecision alloc_type.
Proof. solve_decision. Defined.
#[export] Instance alloc_eq_dec : EqDecision alloc.
Proof. solve_decision. Defined.

(** The lambdas that [Allocate] and [operator new] store a pointer to. *)
Inductive DeallocFn :=
  | DeallocStateless (T : alloc_type)
  | DeallocStateful (T : alloc_type)
  | DeallocNew.

#[export] Instance DeallocFn_eq_dec : EqDecision DeallocFn.
Proof. solve_decision. Defined.

Inductive object := OAlloc (al : alloc) | OFn (d : DeallocFn) | OByte (b : Z).

#[export] Instance object_eq_dec : EqDecision object.
Proof. solve_decision. Defined.

(** A live block: from an allocator ([count] [Aligned_block]s), or from the global
    [operator new] ([size] bytes). *)
Inductive block := BAlloc (al : alloc) (count : Z) | BNew (size : Z).

Definition block_bytes (b : block) : Z :=
  match b with BAlloc _ count => 16 * count | BNew size => size end.

(** A cell is the byte [i] of an object. *)
Record heap := Heap { cells : gmap Z (object * Z); blocks : gmap Z block }.

Definition write_cells (a : Z) (o : object) (n : Z) (m : gmap Z (object * Z)) : gmap Z (object * Z) :=
  foldr (fun i m => <[a + i := (o, i)]> m) m (seqZ 0 n).

(** An object of [n] bytes is made at [a], in the block [p]. *)
Definition construct (p a : Z) (o : object) (n : Z) (h : heap) : outcome heap :=
  match blocks h !! p with
  | Some b =>
      if (p <=? a) && (a + n <=? p + block_bytes b)
      then Ret (Heap (write_cells a o n (cells h)) (blocks h))
      else Undef "write out of bounds"
  | None => Undef "write to freed memory"
  end.

(** The object of [n] bytes at [a]. *)
Definition load (a n : Z) (h : heap) : outcome object :=
  match cells h !! a with
  | Some (o, _) =>
      if forallb (fun i => bool_decide (cells h !! (a + i) = Some (o, i))) (seqZ 0 n)
      then Ret o else Undef "no such object"
  | None => Undef "no such object"
  end.

Section promise_allocator.

(** [al.allocate(count)] and [::operator new[](size)]: an address, or an exception;
    [::operator new] with [std::nothrow] gives a null pointer instead. *)
Context (allocate : alloc -> Z -> heap -> outcome Z) (operator_new_array : Z -> heap -> outcome Z).

Definition al_allocate (al : alloc) (count : Z) (h : heap) : outcome (Z * heap) :=
  p ← allocate al count h;
  Ret (p, Heap (cells h) (<[p := BAlloc al count]> (blocks h))).

Definition alloc_equal (a b : alloc) : bool :=
  bool_decide (ty a = ty b) && (stateless (ty a) || (resource a =? resource b)).

(** [al.deallocate(ptr, count)]: of a block that an equal allocator gave, of that
    size. *)
Definition al_deallocate (al : alloc) (p count : Z) (h : heap) : outcome heap :=
  match blocks h !! p with
  | Some (BAlloc al' n) =>
      if alloc_equal al al' && (n =? count) then Ret (Heap (cells h) (delete p (blocks h)))
      else Undef "deallocate"
  | _ => Undef "deallocate"
  end.

Definition sizeof_DeallocFn : Z := 8.
Definition Align (T : alloc_type) : Z := Z.max (alignof T) 16.

(** [Alloc{}] *)
Definition default_alloc (T : alloc_type) : alloc := Alloc T 0.

(** [(size + ... + sizeof(Aligned_block) - 1) / sizeof(Aligned_block)] *)
Definition count_stateless (extra size : Z) : Z := u64 (size + extra + 16 - 1) / 16.
Definition count_stateful (T : alloc_type) (extra size : Z) : Z :=
  u64 (size + extra + sizeof T + Align T - 1) / 16.

(** [(ptr + size + alignof(Alloc) - 1) & ~(alignof(Alloc) - 1)] *)
Definition al_address (T : alloc_type) (p size : Z) : Z :=
  Z.land (u64 (p + size + alignof T - 1)) (u64 (Z.lnot (alignof T - 1))).

(** *** An allocator of a known type *)

Definition Allocate (al : alloc) (size : Z) (h : heap) : outcome (Z * heap) :=
  if stateless (ty al) then al_allocate al (count_stateless 0 size) h
  else
    '(ptr, h) ← al_allocate al (count_stateful (ty al) 0 size) h;
    h ← construct ptr (al_address (ty al) ptr size) (OAlloc al) (sizeof (ty al)) h;
    Ret (ptr, h).

(** What the lambdas and [operator delete] do with an allocator of type [T] that
    is stored at [ptr + size], if it is. *)
Definition dealloc_stateless (T : alloc_type) (ptr count : Z) (h : heap) : outcome heap :=
  al_deallocate (default_alloc T) ptr count h.

Definition dealloc_stateful (T : alloc_type) (ptr size : Z) (h : heap) : outcome heap :=
  o ← load (al_address T ptr size) (sizeof T) h;
  match o with
  | OAlloc al =>
      if bool_decide (ty al = T) then al_deallocate al ptr (count_stateful T 0 size) h
      else Undef "an allocator of another type"
  | _ => Undef "no allocator"
  end.

Definition operator_delete_typed (T : alloc_type) (ptr size : Z) (h : heap) : outcome heap :=
  if stateless T then dealloc_stateless T ptr (count_stateless 0 size) h
  else dealloc_stateful T ptr size h.

(** *** An allocator of any type: [PromiseAllocator<void, no_except_new>] *)

(** [try { ptr = al.allocate(count); } catch (...) { return nullptr; }], and [m]
    with the block. *)
Definition allocating (no_except_new : bool) (al : alloc) (count : Z) (h : heap)
    (m : Z -> heap -> outcome heap) : outcome (option Z * heap) :=
  match al_allocate al count h with
  | Ret (ptr, h) => h ← m ptr h; Ret (Some ptr, h)
  | Throw e => if no_except_new then Ret (None, h) else Throw e
  | Undef w => Undef w
  end.

Definition Allocate_erased (no_except_new : bool) (al : alloc) (size : Z) (h : heap) :
    outcome (option Z * heap) :=
  if stateless (ty al) then
    allocating no_except_new al (count_stateless sizeof_DeallocFn size) h (fun ptr h =>
      construct ptr (ptr + size) (OFn (DeallocStateless (ty al))) sizeof_DeallocFn h)
  else
    allocating no_except_new al (count_stateful (ty al) sizeof_DeallocFn size) h (fun ptr h =>
      h ← construct ptr (ptr + size) (OFn (DeallocStateful (ty al))) sizeof_DeallocFn h;
      let size := u64 (size + sizeof_DeallocFn) in
      construct ptr (al_address (ty al) ptr size) (OAlloc al) (sizeof (ty al)) h).

(** [operator new(size)] without an allocator. *)
Definition operator_new_default (no_except_new : bool) (size : Z) (h : heap) : outcome (option Z * heap) :=
  match operator_new_array (u64 (size + sizeof_DeallocFn)) h with
  | Ret ptr =>
      h ← construct ptr (ptr + size) (OFn DeallocNew) sizeof_DeallocFn
            (Heap (cells h) (<[ptr := BNew (u64 (size + sizeof_DeallocFn))]> (blocks h)));
      Ret (Some ptr, h)
  | Throw e => if no_except_new then Ret (None, h) else Throw e
  | Undef w => Undef w
  end.

(** The call of the stored function. *)
Definition dealloc (d : DeallocFn) (ptr size : Z) (h : heap) : outcome heap :=
  match d with
  | DeallocStateless T => dealloc_stateless T ptr (count_stateless sizeof_DeallocFn size) h
  | DeallocStateful T => dealloc_stateful T ptr (u64 (size + sizeof_DeallocFn)) h
  | DeallocNew =>
      match blocks h !! ptr with
      | Some (BNew n) =>
          if n =? u64 (size + sizeof_DeallocFn) then Ret (Heap (cells h) (delete ptr (blocks h)))
          else Undef "delete"
      | _ => Undef "delete"
      end
  end.

Definition operator_delete_erased (ptr size : Z) (h : heap) : outcome heap :=
  o ← load (ptr + size) sizeof_DeallocFn h;
  match o with OFn d => dealloc d ptr size h | _ => Undef "no function" end.

(** *** The template *)

(** [PromiseAllocator<Allocator>] with the type of [Rebind<Allocator>], or one of
    the two [PromiseAllocator<void, no_except_new>]. *)
Inductive template := Typed (T : alloc_type) | Erased (no_except_new : bool).

(** [operator new], with the allocator that follows [std::allocator_arg] in the
    arguments of the coroutine or without. *)
Definition operator_new (v : template) (arg : option alloc) (size : Z) (h : heap) :
    outcome (option Z * heap) :=
  match v, arg with
  | Typed T, None => '(p, h) ← Allocate (default_alloc T) size h; Ret (Some p, h)
  | Typed T, Some al => '(p, h) ← Allocate (Alloc T (resource al)) size h; Ret (Some p, h)
  | Erased ne, None => operator_new_default ne size h
  | Erased ne, Some al => Allocate_erased ne al size h
  end.

Definition operator_delete (v : template) (ptr size : Z) (h : heap) : outcome heap :=
  match v with Typed T => operator_delete_typed T ptr size h | Erased _ => operator_delete_erased ptr size h end.
End promise_allocator.

(** ** Memory: what is written is read *)

Lemma lookup_write_cells a o n m x :
  write_cells a o n m !! x = if decide (a <= x < a + n) then Some (o, x - a) else m !! x.
Proof.
  unfold write_cells.
  assert (H : forall l, foldr (fun i m => <[a + i := (o, i)]> m) m l !! x =
    if decide (x - a ∈ l) then Some (o, x - a) else m !! x).
  { induction l as [|i l IH]; cbn; [done|]. destruct (decide (i = x - a)) as [->|Hne].
    - replace (a + (x - a)) with x by lia. rewrite lookup_insert_eq, decide_True; [done|left].
    - rewrite lookup_insert_ne by lia. rewrite IH. apply decide_ext. rewrite elem_of_cons.
      split; [by right|]. intros [?|?]; [congruence|done]. }
  rewrite H. apply decide_ext. rewrite elem_of_seqZ. lia.
Qed.

(** Bytes [lo, hi) are as they were. *)
Definition agree (lo hi : Z) (h h' : heap) : Prop :=
  forall x, lo <= x < hi -> cells h' !! x = cells h !! x.

Lemma load_agree a n o h h' lo hi :
  load a n h = Ret o -> 0 < n -> lo <= a -> a + n <= hi -> agree lo hi h h' -> load a n h' = Ret o.
Proof.
  unfold load. intros H Hn Hlo Hhi Ha. rewrite (Ha a) by lia.
  destruct (cells h !! a) as [[o' i]|]; [|done].
  replace (forallb _ _) with (forallb (fun i => bool_decide (cells h !! (a + i) = Some (o', i))) (seqZ 0 n));
    [done|].
  apply eq_true_iff_eq. rewrite !forallb_forall. split; intros Hf j Hj; specialize (Hf j Hj);
    apply list_elem_of_In, elem_of_seqZ in Hj; rewrite bool_decide_eq_true in *;
    [rewrite Ha by lia|rewrite <- Ha by lia]; done.
Qed.

Lemma load_write a o n h : 0 < n -> load a n (Heap (write_cells a o n (cells h)) (blocks h)) = Ret o.
Proof.
  intros Hn. unfold load. cbn. rewrite lookup_write_cells, decide_True by lia.
  rewrite (proj2 (forallb_forall _ _)); [done|]. intros i Hi. apply list_elem_of_In, elem_of_seqZ in Hi.
  rewrite bool_decide_eq_true, lookup_write_cells, decide_True by lia. do 2 f_equal. lia.
Qed.

Lemma construct_ok p a o n h b :
  blocks h !! p = Some b -> p <= a -> a + n <= p + block_bytes b ->
  construct p a o n h = Ret (Heap (write_cells a o n (cells h)) (blocks h)).
Proof. intros Hb H1 H2. unfold construct. rewrite Hb. by rewrite !(proj2 (Z.leb_le _ _)) by lia. Qed.

Lemma construct_agree lo hi p a o n h h' :
  construct p a o n h = Ret h' -> (hi <= a \/ a + n <= lo) -> agree lo hi h h' /\ blocks h' = blocks h.
Proof.
  unfold construct. destruct (blocks h !! p); [|done]. destruct (_ && _); [|done]. intros [= <-] Hd.
  split; [|done]. intros x Hx. cbn. rewrite lookup_write_cells, decide_False by lia. done.
Qed.

(** ** Addresses *)

(** What C++ says of a type: the alignment is a power of two and divides the
    size; and the size is one that an object can have. *)
Definition good_type (T : alloc_type) : Prop :=
  (exists k, 0 <= k /\ alignof T = 2 ^ k) /\ (exists j, 0 < j /\ sizeof T = j * alignof T) /\
  sizeof T <= 2 ^ 32.

Lemma good_alignof T : good_type T -> 0 < alignof T <= 2 ^ 32 /\ 0 < sizeof T <= 2 ^ 32.
Proof. intros ((k & Hk & Ha) & (j & Hj & Hs) & Hle). assert (0 < 2 ^ k) by lia. nia. Qed.

Lemma land_u64_lnot y k :
  0 <= k -> Z.land (u64 y) (u64 (Z.lnot (2 ^ k - 1))) = u64 y - u64 y mod 2 ^ k.
Proof.
  intros Hk. unfold u64 at 2. rewrite <- (Z.land_ones (Z.lnot _)) by lia.
  rewrite Z.land_comm, <- Z.land_assoc, Z.land_comm, (Z.land_comm (Z.ones 64)).
  assert (Z.land (u64 y) (Z.ones 64) = u64 y) as ->.
  { rewrite Z.land_ones by lia. unfold u64. by rewrite Z.mod_mod. }
  replace (2 ^ k - 1) with (Z.ones k) by (rewrite Z.ones_equiv; lia).
  rewrite <- Z.ldiff_land, Z.ldiff_ones_r, Z.shiftr_div_pow2, Z.shiftl_mul_pow2 by lia.
  pose proof (Z.div_mod (u64 y) (2 ^ k)). lia.
Qed.

(** The address of the stored allocator is the next aligned one. *)
Lemma al_address_spec T p s :
  good_type T -> 0 <= p -> 0 <= s -> p + s + alignof T <= 2 ^ 64 ->
  p + s <= al_address T p s < p + s + alignof T /\ exists q, al_address T p s = q * alignof T.
Proof.
  intros HT Hp Hs Hle. pose proof (good_alignof T HT) as [Ha _].
  destruct HT as ((k & Hk & E) & _). unfold al_address. rewrite E in *. rewrite land_u64_lnot by done.
  rewrite u64_small by lia. set (y := p + s + 2 ^ k - 1) in *.
  pose proof (Z.div_mod y (2 ^ k)). pose proof (Z.mod_pos_bound y (2 ^ k)).
  split; [lia|]. exists (y / 2 ^ k). lia.
Qed.

(** A multiple below a bound is below the multiple that the bound is rounded to. *)
Lemma multiple_le g x n : 0 < g -> (exists q, x = q * g) -> x <= n -> x <= g * (n / g).
Proof.
  intros Hg [q ->] Hle. pose proof (Z.div_mod n g). pose proof (Z.mod_pos_bound n g).
  assert (q <= n / g) by (apply Z.div_le_lower_bound; lia). nia.
Qed.

(** It is inside the block, behind what is stored before it, for alignments
    above that of the block too. *)
Lemma stored_fits T p s :
  good_type T -> 0 <= p -> 0 <= s -> p + s + alignof T <= 2 ^ 64 -> (exists q, p = q * 16) ->
  al_address T p s + sizeof T <= p + 16 * ((s + sizeof T + Align T - 1) / 16).
Proof.
  intros HT Hp Hs Hle [q Hq]. pose proof (good_alignof T HT) as [Ha _].
  destruct (al_address_spec T p s HT Hp Hs Hle) as [Hb [r Hr]].
  destruct HT as ((k & Hk & E) & (j & Hj & Es) & _). unfold Align.
  assert (Hx : al_address T p s - p + sizeof T <= 16 * ((s + sizeof T + Z.max (alignof T) 16 - 1) / 16)); [|lia].
  destruct (Z.le_gt_cases k 4) as [Hk4|Hk4].
  - (* the block is aligned for the allocator *)
    assert (E16 : 16 = alignof T * 2 ^ (4 - k)).
    { rewrite E, <- Z.pow_add_r by lia. by replace (k + (4 - k)) with 4 by lia. }
    rewrite Z.max_r by (assert (0 < 2 ^ (4 - k)) by lia; nia).
    set (n := s + sizeof T + 16 - 1). pose proof (Z.div_mod n 16). pose proof (Z.mod_pos_bound n 16).
    assert (Hm : exists q', al_address T p s - p + sizeof T = q' * alignof T).
    { exists (r - q * 2 ^ (4 - k) + j). rewrite Hr, Es, Hq.
      replace (q * 16) with (q * (alignof T * 2 ^ (4 - k))) by (by rewrite <- E16). ring. }
    pose proof (multiple_le (alignof T) (al_address T p s - p + sizeof T)
      (16 * (n / 16) + alignof T - 1) ltac:(lia) Hm ltac:(lia)) as Hmul.
    replace (16 * (n / 16) + alignof T - 1) with (alignof T - 1 + 2 ^ (4 - k) * (n / 16) * alignof T) in Hmul
      by (replace (16 * (n / 16)) with (alignof T * 2 ^ (4 - k) * (n / 16)) by (by rewrite <- E16); ring).
    rewrite Z.div_add, Z.div_small in Hmul by lia.
    replace (16 * (n / 16)) with (alignof T * (2 ^ (4 - k) * (n / 16))); [lia|].
    rewrite Z.mul_assoc. by rewrite <- E16.
  - (* the address is a multiple of the alignment, hence of that of the block *)
    assert (E16 : alignof T = 16 * 2 ^ (k - 4)).
    { rewrite E. change 16 with (2 ^ 4). rewrite <- Z.pow_add_r by lia. by replace (4 + (k - 4)) with k by lia. }
    rewrite Z.max_l by (assert (0 < 2 ^ (k - 4)) by lia; nia).
    apply multiple_le; [lia| |lia].
    exists (r * 2 ^ (k - 4) - q + j * 2 ^ (k - 4)). rewrite Hr, Hq, Es, E16. ring.
Qed.

(** ** Allocation and deallocation *)

Section theorems.
Context (allocate : alloc -> Z -> heap -> outcome Z) (operator_new_array : Z -> heap -> outcome Z).

(** What an allocator that gives an address promises: a block of [count]
    [Aligned_block]s, in the address space, aligned for them. *)
Hypothesis allocate_spec : forall al count h p,
  allocate al count h = Ret p -> 0 < p /\ (exists q, p = q * 16) /\ p + 16 * count <= 2 ^ 63.
Hypothesis allocate_defined : forall al count h w, allocate al count h <> Undef w.
Hypothesis operator_new_defined : forall n h w, operator_new_array n h <> Undef w.

(** A frame of [size] bytes at [p], and what [operator delete] finds behind it:
    whatever has been written to the frame and outside the block. *)
Definition framed (v : template) (size p : Z) (h : heap) : Prop :=
  exists b, blocks h !! p = Some b /\ p + size <= p + block_bytes b /\
    forall h', blocks h' !! p = Some b -> agree (p + size) (p + block_bytes b) h h' ->
      operator_delete v p size h' = Ret (Heap (cells h') (delete p (blocks h'))).

Lemma al_deallocate_ok al al' p n h :
  blocks h !! p = Some (BAlloc al' n) -> ty al = ty al' -> (stateless (ty al) = true \/ al = al') ->
  al_deallocate al p n h = Ret (Heap (cells h) (delete p (blocks h))).
Proof.
  intros Hb Ht He. unfold al_deallocate, alloc_equal. rewrite Hb, Z.eqb_refl, andb_true_r.
  rewrite bool_decide_eq_true_2 by done. destruct He as [->| ->]; [done|].
  rewrite Z.eqb_refl, orb_true_r. done.
Qed.

Lemma al_allocate_inv al count h p h' :
  al_allocate allocate al count h = Ret (p, h') ->
  allocate al count h = Ret p /\ h' = Heap (cells h) (<[p := BAlloc al count]> (blocks h)).
Proof. unfold al_allocate. intros H. inv_ret. done. Qed.

Lemma count_stateless_fits extra size :
  0 <= size -> 0 <= extra <= 8 -> size < 2 ^ 62 -> size + extra <= 16 * count_stateless extra size.
Proof.
  intros. unfold count_stateless. rewrite u64_small by lia.
  pose proof (Z.div_mod (size + extra + 16 - 1) 16). pose proof (Z.mod_pos_bound (size + extra + 16 - 1) 16). lia.
Qed.

(** An allocator is stored [extra] bytes behind the frame. *)
Lemma stored_alloc T extra size p al h :
  let c := count_stateful T extra size in
  let a := al_address T p (size + extra) in
  good_type T -> 0 <= size < 2 ^ 62 -> 0 <= extra <= 8 -> 0 < p -> (exists q, p = q * 16) ->
  p + 16 * c <= 2 ^ 63 -> blocks h !! p = Some (BAlloc al c) ->
  (exists h1, construct p a (OAlloc al) (sizeof T) h = Ret h1 /\ blocks h1 = blocks h /\
     agree (p + size) (p + size + extra) h h1 /\ load a (sizeof T) h1 = Ret (OAlloc al)) /\
  0 < sizeof T /\ p + size + extra <= a /\ a + sizeof T <= p + 16 * c /\
  count_stateful T 0 (size + extra) = c.
Proof.
  intros c a HT Hs He Hp Hq Hend Hb. pose proof (good_alignof T HT) as [Ha Hz].
  assert (HA : 16 <= Align T <= 2 ^ 32) by (unfold Align; lia).
  assert (Hc : c = (size + extra + sizeof T + Align T - 1) / 16).
  { subst c. unfold count_stateful. rewrite u64_small; [done|]. lia. }
  pose proof (Z.div_mod (size + extra + sizeof T + Align T - 1) 16) as Hd.
  pose proof (Z.mod_pos_bound (size + extra + sizeof T + Align T - 1) 16) as Hd'.
  rewrite <- Hc in Hd.
  assert (Hle : p + (size + extra) + alignof T <= 2 ^ 64) by lia.
  destruct (al_address_spec T p (size + extra)) as [[H1 H2] _]; [done|lia..|].
  pose proof (stored_fits T p (size + extra) HT ltac:(lia) ltac:(lia) Hle Hq) as H3.
  rewrite <- Hc in H3. fold a in H1, H2, H3.
  assert (Hok := construct_ok p a (OAlloc al) (sizeof T) h _ Hb ltac:(lia) ltac:(cbn; lia)).
  split; [|split_and!; try lia].
  - eexists. split; [exact Hok|]. split; [done|].
    split; [apply (construct_agree _ _ _ _ _ _ _ _ Hok); lia|]. apply load_write. lia.
  - subst c. unfold count_stateful. do 2 f_equal. lia.
Qed.

Lemma dealloc_stateful_ok T p size al h b :
  blocks h !! p = Some (BAlloc al (count_stateful T 0 size)) -> ty al = T -> b = blocks h ->
  load (al_address T p size) (sizeof T) h = Ret (OAlloc al) ->
  dealloc_stateful T p size h = Ret (Heap (cells h) (delete p b)).
Proof.
  intros Hb Ht -> Hl. unfold dealloc_stateful. rewrite Hl. cbn.
  rewrite bool_decide_eq_true_2 by done. apply al_deallocate_ok with al; auto.
Qed.

Lemma agree_sub lo hi lo' hi' h h' : agree lo hi h h' -> lo <= lo' -> hi' <= hi -> agree lo' hi' h h'.
Proof. intros H Hlo Hhi x Hx. apply H. lia. Qed.

Lemma Allocate_framed T al size h p h1 :
  good_type T -> 0 <= size < 2 ^ 62 -> ty al = T ->
  Allocate allocate al size h = Ret (p, h1) -> framed (Typed T) size p h1.
Proof.
  intros HT Hs <-. unfold Allocate, framed, operator_delete, operator_delete_typed.
  destruct (stateless (ty al)) eqn:E.
  - intros [Hal ->]%al_allocate_inv. destruct (allocate_spec _ _ _ _ Hal) as (Hp & Hq & Hend).
    pose proof (count_stateless_fits 0 size) as Hfit. cbn [blocks]. eexists.
    rewrite lookup_insert_eq. split; [done|]. cbn [block_bytes]. split; [lia|]. intros h' Hb Hag.
    apply al_deallocate_ok with al; cbn; auto.
  - intros ([p' h0] & H & H2)%bind_Ret. apply bind_Ret in H2 as (h2 & Hc' & [= -> ->]).
    apply al_allocate_inv in H as [Hal ->]. destruct (allocate_spec _ _ _ _ Hal) as (Hp & Hq & Hend).
    set (h0 := Heap _ _) in *.
    assert (Hb0 : blocks h0 !! p = Some (BAlloc al (count_stateful (ty al) 0 size)))
      by (cbn; by rewrite lookup_insert_eq).
    destruct (stored_alloc (ty al) 0 size p al h0) as ((h1' & Hc & Hbl & _ & Hl) & Hz & Ha & Hi & Hcnt);
      [done|lia..|done|done|done|].
    rewrite !Z.add_0_r in *. rewrite Hc in Hc'. injection Hc' as <-.
    eexists. rewrite Hbl, Hb0. split; [done|]. cbn [block_bytes].
    split; [lia|]. intros h' Hb Hag. apply dealloc_stateful_ok with al; try done.
    eapply load_agree; [exact Hl|lia| | |exact Hag]; lia.
Qed.
(** The function pointer behind the frame, and then what it does. *)
Lemma erased_framed ne size p h b d :
  blocks h !! p = Some b -> 0 <= size -> size + sizeof_DeallocFn <= block_bytes b ->
  load (p + size) sizeof_DeallocFn h = Ret (OFn d) ->
  (forall h', blocks h' !! p = Some b -> agree (p + size) (p + block_bytes b) h h' ->
     dealloc d p size h' = Ret (Heap (cells h') (delete p (blocks h')))) ->
  framed (Erased ne) size p h.
Proof.
  unfold sizeof_DeallocFn. intros Hb Hs Hle Hl Hd. exists b. split; [done|]. split; [lia|].
  intros h' Hb' Hag. cbn. unfold operator_delete_erased, sizeof_DeallocFn.
  rewrite (load_agree (p + size) 8 (OFn d) h h' (p + size) (p + block_bytes b)); try done; try lia.
  cbn. by apply Hd.
Qed.

(** A function pointer is put behind the frame of a new block. *)
Lemma construct_fn p size d h b :
  blocks h !! p = Some b -> 0 <= size -> size + sizeof_DeallocFn <= block_bytes b ->
  exists h1, construct p (p + size) (OFn d) sizeof_DeallocFn h = Ret h1 /\ blocks h1 = blocks h /\
    load (p + size) sizeof_DeallocFn h1 = Ret (OFn d).
Proof.
  intros Hb Hs Hle. eexists. split; [apply (construct_ok _ _ _ _ _ b); [done|lia..]|]. split; [done|].
  by apply load_write.
Qed.

Lemma Allocate_erased_framed ne al size h p h1 :
  good_type (ty al) -> 0 <= size < 2 ^ 62 ->
  Allocate_erased allocate ne al size h = Ret (Some p, h1) -> framed (Erased ne) size p h1.
Proof.
  intros HT Hs. unfold Allocate_erased, allocating. destruct (stateless (ty al)) eqn:E.
  - destruct (al_allocate _ _ _ _) as [[p' h0]|e|w] eqn:Hal; [|by destruct ne|done].
    intros (h2 & Hc & [= -> ->])%bind_Ret. apply al_allocate_inv in Hal as [Hal ->].
    set (h0 := Heap _ _) in *. pose proof (count_stateless_fits sizeof_DeallocFn size) as Hfit.
    assert (Hb0 : blocks h0 !! p = Some (BAlloc al (count_stateless sizeof_DeallocFn size)))
      by (cbn; by rewrite lookup_insert_eq).
    unfold sizeof_DeallocFn in Hfit.
    destruct (construct_fn p size (DeallocStateless (ty al)) h0 _ Hb0) as (h1' & Hc' & Hbl & Hl);
      [lia|cbn; unfold sizeof_DeallocFn; lia|]. rewrite Hc in Hc'. injection Hc' as <-.
    rewrite <- Hbl in Hb0. eapply erased_framed; [exact Hb0|lia|cbn; unfold sizeof_DeallocFn; lia|exact Hl|].
    intros h' Hb _. apply al_deallocate_ok with al; auto.
  - destruct (al_allocate _ _ _ _) as [[p' h0]|e|w] eqn:Hal; [|by destruct ne|done].
    intros (h2 & H2 & [= -> ->])%bind_Ret. apply bind_Ret in H2 as (h3 & Hc & Hc2).
    apply al_allocate_inv in Hal as [Hal ->]. destruct (allocate_spec _ _ _ _ Hal) as (Hp & Hq & Hend).
    set (h0 := Heap _ _) in *.
    assert (Hb0 : blocks h0 !! p = Some (BAlloc al (count_stateful (ty al) sizeof_DeallocFn size)))
      by (cbn; by rewrite lookup_insert_eq).
    unfold sizeof_DeallocFn in *. rewrite u64_small in Hc2 by lia.
    assert (Hb3 : blocks h3 = blocks h0).
    { revert Hc. unfold construct. destruct (blocks h0 !! p); [|done]. destruct (_ && _); [|done]. by intros [= <-]. }
    rewrite <- Hb3 in Hb0.
    destruct (stored_alloc (ty al) 8 size p al h3) as ((h1' & Hc' & Hbl & Hag & Hl) & Hz & Ha & Hi & Hcnt);
      [done|lia..|done|done|done|].
    rewrite Hc2 in Hc'. injection Hc' as <-. rewrite Hb3 in Hb0.
    destruct (construct_fn p size (DeallocStateful (ty al)) h0 _ Hb0) as (h3' & Hc' & _ & Hl3);
      [lia|cbn; unfold sizeof_DeallocFn; lia|]. unfold sizeof_DeallocFn in Hc', Hl3. rewrite Hc in Hc'.
    injection Hc' as <-. rewrite <- Hb3, <- Hbl in Hb0.
    eapply erased_framed; [exact Hb0|lia|cbn; unfold sizeof_DeallocFn; lia| |].
    + eapply load_agree; [exact Hl3| | | |exact Hag]; unfold sizeof_DeallocFn; lia.
    + intros h' Hb Hag'. cbn [block_bytes] in Hag'. cbn. unfold sizeof_DeallocFn. rewrite u64_small by lia.
      apply dealloc_stateful_ok with al; try done; [by rewrite Hcnt|].
      eapply load_agree; [exact Hl|lia| | |exact Hag']; lia.
Qed.

Lemma operator_new_default_framed ne size h p h1 :
  0 <= size < 2 ^ 62 -> operator_new_default operator_new_array ne size h = Ret (Some p, h1) ->
  framed (Erased ne) size p h1.
Proof.
  intros Hs. unfold operator_new_default. destruct (operator_new_array _ _) as [p'|e|w] eqn:Hal;
    [|by destruct ne|done].
  intros (h2 & Hc & [= -> ->])%bind_Ret. set (h0 := Heap _ _) in *.
  assert (Eu : u64 (size + sizeof_DeallocFn) = size + 8) by (apply u64_small; unfold sizeof_DeallocFn; lia).
  assert (Hb0 : blocks h0 !! p = Some (BNew (u64 (size + sizeof_DeallocFn)))) by (cbn; by rewrite lookup_insert_eq).
  destruct (construct_fn p size DeallocNew h0 _ Hb0) as (h1' & Hc' & Hbl & Hl);
    [lia|cbn; rewrite Eu; unfold sizeof_DeallocFn; lia|]. rewrite Hc in Hc'. injection Hc' as <-.
  rewrite <- Hbl in Hb0. eapply erased_framed; [exact Hb0|lia|cbn; rewrite Eu; unfold sizeof_DeallocFn; lia|exact Hl|].
  intros h' Hb _. cbn. by rewrite Hb, Z.eqb_refl.
Qed.

(** Nothing is written outside the block. *)
Lemma Allocate_defined al size h w :
  good_type (ty al) -> 0 <= size < 2 ^ 62 -> Allocate allocate al size h <> Undef w.
Proof.
  intros HT Hs. unfold Allocate, al_allocate. destruct (stateless (ty al)).
  - pose proof (allocate_defined al (count_stateless 0 size) h w) as Hd. revert Hd.
    destruct (allocate _ _ _); cbn; congruence.
  - pose proof (allocate_defined al (count_stateful (ty al) 0 size) h w) as Hd. revert Hd.
    destruct (allocate _ _ _) as [p|e|w'] eqn:Hal; cbn; [intros _|done|congruence].
    destruct (allocate_spec _ _ _ _ Hal) as (Hp & Hq & Hend). set (h0 := Heap _ _).
    destruct (stored_alloc (ty al) 0 size p al h0) as ((h1 & Hc & _) & _);
      [done|lia..|done|done|cbn; by rewrite lookup_insert_eq|].
    rewrite Z.add_0_r in Hc. by rewrite Hc.
Qed.

Lemma Allocate_erased_defined ne al size h :
  good_type (ty al) -> 0 <= size < 2 ^ 62 ->
  (forall w, Allocate_erased allocate ne al size h <> Undef w) /\
  (forall e, Allocate_erased allocate true al size h <> Throw e).
Proof.
  intros HT Hs. pose proof (count_stateless_fits 8 size ltac:(lia) ltac:(lia) ltac:(lia)) as Hfit.
  assert (E8 : u64 (size + 8) = size + 8) by (apply u64_small; lia).
  unfold Allocate_erased, allocating, al_allocate, sizeof_DeallocFn in *. rewrite E8.
  destruct (stateless (ty al)).
  - pose proof (allocate_defined al (count_stateless 8 size) h) as Hd.
    destruct (allocate _ _ _) as [p|e|w] eqn:Hal; cbn; [|by destruct ne|by destruct (Hd w)].
    set (h0 := Heap _ _). destruct (construct_fn p size (DeallocStateless (ty al)) h0
      (BAlloc al (count_stateless 8 size))) as (h1 & Hc & _);
      [cbn; by rewrite lookup_insert_eq|lia|cbn; unfold sizeof_DeallocFn; lia|].
    unfold sizeof_DeallocFn in Hc. by rewrite Hc.
  - pose proof (allocate_defined al (count_stateful (ty al) 8 size) h) as Hd.
    destruct (allocate _ _ _) as [p|e|w] eqn:Hal; cbn; [|by destruct ne|by destruct (Hd w)].
    destruct (allocate_spec _ _ _ _ Hal) as (Hp & Hq & Hend). set (h0 := Heap _ _).
    assert (Hb0 : blocks h0 !! p = Some (BAlloc al (count_stateful (ty al) 8 size)))
      by (cbn; by rewrite lookup_insert_eq).
    destruct (stored_alloc (ty al) 8 size p al h0) as (_ & Hz & Ha & Hi & _); [done|lia..|done|done|done|].
    destruct (construct_fn p size (DeallocStateful (ty al)) h0 _ Hb0) as (h1 & Hc & Hbl & _);
      [lia|cbn; unfold sizeof_DeallocFn; lia|]. rewrite <- Hbl in Hb0.
    unfold sizeof_DeallocFn in Hc. rewrite Hc. cbn.
    destruct (stored_alloc (ty al) 8 size p al h1) as ((h2 & Hc2 & _) & _); [done|lia..|done|done|done|].
    by rewrite Hc2.
Qed.

Lemma operator_new_default_defined ne size h :
  0 <= size < 2 ^ 62 ->
  (forall w, operator_new_default operator_new_array ne size h <> Undef w) /\
  (forall e, operator_new_default operator_new_array true size h <> Throw e).
Proof.
  intros Hs. unfold operator_new_default.
  assert (Eu : u64 (size + sizeof_DeallocFn) = size + 8) by (apply u64_small; unfold sizeof_DeallocFn; lia).
  pose proof (operator_new_defined (u64 (size + sizeof_DeallocFn)) h) as Hd.
  destruct (operator_new_array _ _) as [p|e|w] eqn:Hal; [|by destruct ne|by destruct (Hd w)].
  set (h0 := Heap _ _).
  destruct (construct_fn p size DeallocNew h0 (BNew (u64 (size + sizeof_DeallocFn)))) as (h1 & Hc & _);
    [cbn; by rewrite lookup_insert_eq|lia|cbn; rewrite Eu; unfold sizeof_DeallocFn; lia|].
  by rewrite Hc.
Qed.

(** The types of the allocators are types. *)
Definition arg_ok (v : template) (arg : option alloc) : Prop :=
  match v, arg with
  | Typed T, _ => good_type T
  | Erased _, Some al => good_type (ty al)
  | Erased _, None => True
  end.

(** C33.  [operator new] of a coroutine frame writes nothing outside the block
    that the allocator gave, and [operator delete] inverts it, for every kind of
    allocator: the frame is inside the block; what is stored behind it, the
    allocator at the alignment of its type (above that of the block too) and the
    function pointer, does not overlap it; and whatever the coroutine has written
    to its frame, [operator delete] gives the same block back, to an equal
    allocator and with the size that was asked for.  With [no_except_new] an
    exception of the allocator becomes a null pointer. *)
Theorem operator_delete_inverts_new v arg size h :
  0 <= size < 2 ^ 62 -> arg_ok v arg ->
  (forall w, operator_new allocate operator_new_array v arg size h <> Undef w) /\
  (v = Erased true -> forall e, operator_new allocate operator_new_array v arg size h <> Throw e) /\
  (forall p h1, operator_new allocate operator_new_array v arg size h = Ret (Some p, h1) ->
    exists b, blocks h1 !! p = Some b /\ p + size <= p + block_bytes b /\
      forall h', blocks h' !! p = Some b -> agree (p + size) (p + block_bytes b) h1 h' ->
        operator_delete v p size h' = Ret (Heap (cells h') (delete p (blocks h')))).
Proof.
  intros Hs Harg. destruct v as [T|ne], arg as [al|]; cbn in Harg; cbn [operator_new].
  - split_and!; [|done|].
    + intros w. pose proof (Allocate_defined (Alloc T (resource al)) size h w Harg Hs) as Hd.
      revert Hd. destruct (Allocate _ _ _ _) as [[? ?]| |]; cbn; congruence.
    + intros p h1 ([p' h2] & H & [= -> ->])%bind_Ret. by eapply (Allocate_framed T (Alloc T (resource al))).
  - split_and!; [|done|].
    + intros w. pose proof (Allocate_defined (default_alloc T) size h w Harg Hs) as Hd.
      revert Hd. destruct (Allocate _ _ _ _) as [[? ?]| |]; cbn; congruence.
    + intros p h1 ([p' h2] & H & [= -> ->])%bind_Ret. by eapply (Allocate_framed T (default_alloc T)).
  - destruct (Allocate_erased_defined ne al size h Harg Hs) as [Hd Hn]. split_and!; [done| |].
    + intros [= ->]. exact Hn.
    + intros p h1 H. by eapply Allocate_erased_framed.
  - destruct (operator_new_default_defined ne size h Hs) as [Hd Hn]. split_and!; [done| |].
    + intros [= ->]. exact Hn.
    + intros p h1 H. by eapply operator_new_default_framed.
Qed.
End theorems.

(** A stateful allocator that is aligned for 64 bytes, behind a frame of 40, in a
    block that is aligned for 16 only: the function pointer is at 1056, the
    allocator at 1088. *)
Definition sample_type : alloc_type := AllocType 64 128 false.
Definition sample_allocate (al : alloc) (count : Z) (h : heap) : outcome Z :=
  if count <=? 1000 then Ret 1008 else Throw (UserError 1).
Definition sample_new (n : Z) (h : heap) : outcome Z := Throw (UserError 2).
Definition sample_result : outcome (option Z * heap) :=
  operator_new sample_allocate sample_new (Erased true) (Some (Alloc sample_type 7)) 40 (Heap ∅ ∅).
Definition sample_heap : heap := match sample_result with Ret (_, h) => h | _ => Heap ∅ ∅ end.

Lemma sample_good : good_type sample_type.
Proof.
  split_and!; [exists 6|exists 2|]; cbn; lia.
Qed.

Lemma operator_delete_inverts_new_witness :
  operator_delete (Erased true) 1008 40
    (Heap (write_cells 1008 (OByte 99) 40 (cells sample_heap)) (blocks sample_heap)) =
  Ret (Heap (write_cells 1008 (OByte 99) 40 (cells sample_heap)) ∅).
Proof.
  destruct (operator_delete_inverts_new sample_allocate sample_new) with
    (v := Erased true) (arg := Some (Alloc sample_type 7)) (size := 40) (h := Heap (∅ : gmap Z (object * Z)) ∅)
    as (_ & _ & H).
  - intros al count h p. unfold sample_allocate. destruct (Z.leb_spec count 1000); [|discriminate].
    intros [= <-]. split_and!; [lia|by exists 63|lia].
  - intros al count h w. unfold sample_allocate. destruct (count <=? 1000); discriminate.
  - discriminate.
  - lia.
  - exact sample_good.
  - destruct (H 1008 sample_heap) as (b & Hb & _ & Hd); [vm_compute; reflexivity|].
    rewrite Hd; [vm_compute; reflexivity|exact Hb|].
    intros x Hx. cbn [cells]. rewrite lookup_write_cells, decide_False; [reflexivity|lia].
Defined.
