(* ===== verification/IOExecutor.v ===== *)
(** * IOExecutor: requests to the kernel and their callbacks

    Models IOExecutor.h and executors/SimpleIOExecutor.h.  Any thread submits
    requests; the kernel refuses a request at once or completes it later; the loop
    thread takes up to [kMaxAio] completed requests at a time, calls their
    callbacks and deletes their [Task]s.  A callback may submit requests itself:
    submissions are steps that can come between any two others.

    What the kernel answers is in the labels of the steps: a refusal is a negative
    result, an accepted request is in [pending] until [io_getevents] gives it. *)

From S2P Require Import Prelude.

(** Where the loop thread is: before the test of [_shutdown]; in [io_getevents];
    in the [for] with the events that are left, the [Task] of the first one not
    called or called and not deleted; after the loop. *)
Inductive loop_pc :=
  | Test
  | GetEvents
  | Process (events : list (nat * Z))
  | Delete (task : nat) (events : list (nat * Z))
  | LoopEnd.

(** A live [Task] is in [tasks]; a [Task] is named by the number of its
    submission, and so is its callback.  [called] are the calls of callbacks, with
    the [res] of the event; [answers] what the kernel has said of each request. *)
Record io := Io {
  tasks : gset nat;
  pending : list nat;
  pc : loop_pc;
  shutdown_ : bool;
  destroyed : bool;
  called : list (nat * Z);
  answers : gmap nat Z;
  next_task : nat;
  undefined : bool;
}.

Definition kMaxAio : nat := 8.

Definition set_pc (p : loop_pc) (s : io) : io :=
  Io (tasks s) (pending s) p (shutdown_ s) (destroyed s) (called s) (answers s) (next_task s) (undefined s).

(** [task->process(event)]: the callback of a live [Task]. *)
Definition process (task : nat) (res : Z) (s : io) : io :=
  Io (tasks s) (pending s) (pc s) (shutdown_ s) (destroyed s) (called s ++ [(task, res)]) (answers s)
    (next_task s) (undefined s || negb (bool_decide (task ∈ tasks s))).

(** [delete task] *)
Definition delete_task (task : nat) (s : io) : io :=
  Io (tasks s ∖ {[task]}) (pending s) (pc s) (shutdown_ s) (destroyed s) (called s) (answers s)
    (next_task s) (undefined s || negb (bool_decide (task ∈ tasks s))).

(** [submitIO] and [submitIOV]: [r] is what [io_submit] gives. *)
Definition submitIO (r : Z) (s : io) : io :=
  let task := next_task s in
  let s := Io ({[task]} ∪ tasks s) (pending s) (pc s) (shutdown_ s) (destroyed s) (called s) (answers s)
             (S task) (undefined s) in
  if r <? 0 then
    delete_task task (process task r
      (Io (tasks s) (pending s) (pc s) (shutdown_ s) (destroyed s) (called s) (<[task := r]> (answers s))
         (next_task s) (undefined s)))
  else Io (tasks s) (pending s ++ [task]) (pc s) (shutdown_ s) (destroyed s) (called s) (answers s)
         (next_task s) (undefined s).

(** The completed requests that [io_getevents] gives leave the kernel. *)
Fixpoint take_events (events : list (nat * Z)) (s : io) : option io :=
  match events with
  | [] => Some s
  | (task, res) :: events =>
      if bool_decide (task ∈ pending s)
      then take_events events
        (Io (tasks s) (filter (fun t => t <> task) (pending s)) (pc s) (shutdown_ s) (destroyed s) (called s)
           (<[task := res]> (answers s)) (next_task s) (undefined s))
      else None
  end.

(** A step of the loop thread; [got] is what [io_getevents] gives, [None] a
    negative number. *)
Definition loop_step (got : option (list (nat * Z))) (s : io) : option io :=
  match pc s with
  | Test => Some (set_pc (if shutdown_ s then LoopEnd else GetEvents) s)
  | GetEvents =>
      match got with
      | None => Some (set_pc Test s)
      | Some events =>
          if bool_decide (length events <= kMaxAio)%nat
          then set_pc (Process events) <$> take_events events s else None
      end
  | Process [] => Some (set_pc Test s)
  | Process ((task, res) :: events) => Some (set_pc (Delete task events) (process task res s))
  | Delete task events => Some (set_pc (Process events) (delete_task task s))
  | LoopEnd => None
  end.

(** [destroy]: [_shutdown], and then, when the loop thread has been joined,
    [io_destroy], after which the kernel completes nothing. *)
Definition shutdown_step (s : io) : io :=
  Io (tasks s) (pending s) (pc s) true (destroyed s) (called s) (answers s) (next_task s) (undefined s).
Definition io_destroy_step (s : io) : option io :=
  match pc s with
  | LoopEnd =>
      Some (Io (tasks s) (pending s) LoopEnd true true (called s) (answers s) (next_task s) (undefined s))
  | _ => None
  end.

Inductive iolabel := LSubmit (r : Z) | LLoop (got : option (list (nat * Z))) | LShutdown | LDestroy.

Definition io_step (l : iolabel) (s : io) : option io :=
  match l with
  | LSubmit r => if destroyed s then None else Some (submitIO r s)
  | LLoop got => loop_step got s
  | LShutdown => Some (shutdown_step s)
  | LDestroy => io_destroy_step s
  end.

(** After [init] has succeeded. *)
Definition io_init : io := Io ∅ [] Test false false [] ∅ 0 false.
Definition io_lts : lts := flts (fun s => s = io_init) io_step.

(** ** The invariant *)

(** The events that the loop has to go through. *)
Definition events_of (p : loop_pc) : list (nat * Z) :=
  match p with Process events | Delete _ events => events | _ => [] end.

(** The tasks that nobody has deleted. *)
Definition held (s : io) : list nat :=
  pending s ++ (events_of (pc s)).*1 ++ match pc s with Delete task _ => [task] | _ => [] end.

Record io_inv (s : io) : Prop := {
  ii_defined : undefined s = false;
  ii_perm : pending s ++ (events_of (pc s)).*1 ++ (called s).*1 ≡ₚ seq 0 (next_task s);
  ii_tasks : forall t, t ∈ tasks s <-> t ∈ held s;
  ii_delete : forall t es, pc s = Delete t es -> t ∈ (called s).*1;
  ii_answers : forall t r, (t, r) ∈ events_of (pc s) \/ (t, r) ∈ called s -> answers s !! t = Some r;
}.

Lemma ii_nodup s : io_inv s -> NoDup (pending s ++ (events_of (pc s)).*1 ++ (called s).*1).
Proof. intros H. rewrite (ii_perm _ H). apply NoDup_seq. Qed.

Lemma ii_fresh s t : io_inv s -> (next_task s <= t)%nat ->
  t ∉ pending s ++ (events_of (pc s)).*1 ++ (called s).*1.
Proof. intros H Ht Hin. rewrite (ii_perm _ H) in Hin. apply elem_of_seq in Hin. lia. Qed.

(** A deleted task had been called. *)
Lemma held_called s t : io_inv s -> t ∈ held s ->
  t ∈ pending s ++ (events_of (pc s)).*1 ++ (called s).*1.
Proof.
  intros H. unfold held. rewrite !elem_of_app. intros [?|[?|Hd]]; [tauto|tauto|].
  destruct (pc s) as [| | |t' es|] eqn:E; try by apply elem_of_nil in Hd.
  apply list_elem_of_singleton in Hd as ->. right. right. by eapply ii_delete.
Qed.

Lemma filter_out (t : nat) l : NoDup l -> t ∈ l -> t :: filter (fun x => x <> t) l ≡ₚ l.
Proof.
  intros Hn Ht. apply NoDup_Permutation; [|done|].
  - constructor; [|by apply NoDup_filter]. rewrite list_elem_of_filter. by intros [? _].
  - intros x. rewrite elem_of_cons, list_elem_of_filter. destruct (decide (x = t)); naive_solver.
Qed.

Lemma pair_fst {A} (t : nat) (r : A) l : (t, r) ∈ l -> t ∈ l.*1.
Proof. intros H. apply list_elem_of_fmap. by exists (t, r). Qed.

Lemma take_events_spec es s s' :
  take_events es s = Some s' -> NoDup (pending s) ->
  pending s' ++ es.*1 ≡ₚ pending s /\ tasks s' = tasks s /\ pc s' = pc s /\ shutdown_ s' = shutdown_ s /\
  called s' = called s /\ next_task s' = next_task s /\ undefined s' = undefined s /\
  (forall t r, (t, r) ∈ es -> answers s' !! t = Some r) /\
  (forall t, t ∉ pending s -> answers s' !! t = answers s !! t).
Proof.
  revert s. induction es as [|[t r] es IH]; intros s; cbn [take_events].
  - intros [= <-] _. rewrite app_nil_r. split_and!; try done. by intros ?? ?%elem_of_nil.
  - case_bool_decide as Ht; [|done]. intros H Hnd. apply IH in H; [|by apply NoDup_filter].
    cbn in H. destruct H as (H1 & -> & -> & -> & -> & -> & -> & H2 & H3).
    assert (Hout : t ∉ filter (fun x => x <> t) (pending s)) by (rewrite list_elem_of_filter; by intros [? _]).
    split_and!; try done.
    + cbn. rewrite <- Permutation_middle, H1. by apply filter_out.
    + intros t' r' [[= -> ->]|Hin]%elem_of_cons; [|by apply H2].
      rewrite H3 by done. by rewrite lookup_insert_eq.
    + intros t' Hn. rewrite H3, lookup_insert_ne; [done| |].
      * by intros ->.
      * rewrite list_elem_of_filter. naive_solver.
Qed.

Lemma io_inv_submit r s : io_inv s -> io_inv (submitIO r s).
Proof.
  intros H. pose proof (ii_fresh s (next_task s) H (Nat.le_refl _)) as Hf.
  assert (Hh : next_task s ∉ held s) by (intros Hh; by apply held_called in Hh).
  rewrite !elem_of_app in Hf. destruct H as [H1 H2 H3 H4 H5]. unfold submitIO.
  assert (Hseq : seq 0 (S (next_task s)) = seq 0 (next_task s) ++ [next_task s]).
  { by rewrite seq_S. }
  destruct (r <? 0); constructor; unfold held in *; cbn in *.
  - rewrite H1. rewrite !bool_decide_eq_true_2 by set_solver. done.
  - change (next_task s :: seq 1 (next_task s)) with (seq 0 (S (next_task s))). rewrite Hseq, <- H2.
    rewrite fmap_app. cbn. by rewrite !app_assoc.
  - intros t. rewrite elem_of_difference, elem_of_union, elem_of_singleton, H3. naive_solver.
  - intros t es E. rewrite fmap_app. apply elem_of_app. left. by eapply H4.
  - intros t r'. rewrite elem_of_app, list_elem_of_singleton. intros Hin.
    destruct (decide (t = next_task s)) as [->|Hne].
    + rewrite lookup_insert_eq. destruct Hin as [Hin|[Hin|[= ->]]]; [..|done]; apply pair_fst in Hin; tauto.
    + rewrite lookup_insert_ne by done. apply H5. destruct Hin as [?|[?|[=]]]; [tauto|tauto|done].
  - done.
  - change (next_task s :: seq 1 (next_task s)) with (seq 0 (S (next_task s))). rewrite Hseq, <- H2.
    rewrite <- !app_assoc. apply Permutation_app_head. rewrite (Permutation_app_comm [_]). by rewrite !app_assoc.
  - intros t. rewrite elem_of_union, elem_of_singleton, H3, !elem_of_app, list_elem_of_singleton. tauto.
  - done.
  - done.
Qed.

Lemma io_inv_loop got s s' : io_inv s -> loop_step got s = Some s' -> io_inv s'.
Proof.
  intros H. pose proof (ii_nodup s H) as Hnd. unfold loop_step.
  destruct (pc s) as [| |[|[t r] es]|t es|] eqn:Epc; [| | | | |done].
  - intros [= <-]. destruct H as [H1 H2 H3 H4 H5]. unfold held in *. rewrite Epc in *.
    destruct (shutdown_ s); by constructor.
  - destruct got as [es|]; [|intros [= <-]; destruct H as [H1 H2 H3 H4 H5]; unfold held in *; rewrite Epc in *;
      by constructor].
    case_bool_decide; [|done]. intros (s1 & Ht & ->)%fmap_Some. cbn [app] in Hnd.
    apply take_events_spec in Ht as (P & E1 & E2 & E3 & E4 & E5 & E6 & A1 & A2);
      [|by apply NoDup_app in Hnd as [? _]].
    destruct H as [H1 H2 H3 H4 H5]. unfold held in *. rewrite Epc in *. cbn in *.
    constructor; unfold held; cbn; rewrite ?E1, ?E4, ?E5, ?E6; try done.
    + by rewrite app_assoc, P.
    + intros t. rewrite H3, !app_nil_r. by rewrite P.
    + intros t r [Hin|Hin]; [by apply A1|]. rewrite A2; [by apply H5; right|].
      intros Hp. apply NoDup_app in Hnd as (_ & Hnd & _). apply (Hnd t Hp). by eapply pair_fst.
  - intros [= <-]. destruct H as [H1 H2 H3 H4 H5]. unfold held in *. rewrite Epc in *. by constructor.
  - intros [= <-]. destruct H as [H1 H2 H3 H4 H5]. unfold held in *. rewrite Epc in *. cbn in *.
    assert (t ∈ tasks s) by (apply H3; rewrite !elem_of_app; right; left; left).
    constructor; unfold held; cbn.
    + rewrite H1. by rewrite bool_decide_eq_true_2.
    + rewrite <- H2, fmap_app. cbn. apply Permutation_app_head.
      rewrite app_assoc, (Permutation_app_comm _ [t]). done.
    + intros t'. rewrite H3, app_nil_r, !elem_of_app, elem_of_cons, list_elem_of_singleton. tauto.
    + intros t' es' [= <- <-]. rewrite fmap_app. apply elem_of_app. right. left.
    + intros t' r'. rewrite elem_of_app, list_elem_of_singleton. intros [?|[?|[= -> ->]]]; apply H5;
        rewrite elem_of_cons; tauto.
  - intros [= <-]. destruct H as [H1 H2 H3 H4 H5]. unfold held in *. rewrite Epc in *. cbn in *.
    specialize (H4 t es eq_refl).
    assert (Hout : t ∉ pending s ++ es.*1).
    { rewrite elem_of_app. rewrite app_assoc in Hnd. apply NoDup_app in Hnd as (_ & Hnd & _).
      intros Hin. apply (Hnd t); [by rewrite elem_of_app|done]. }
    assert (t ∈ tasks s) by (apply H3; rewrite !elem_of_app; right; right; left).
    constructor; unfold held; cbn; try done.
    + rewrite H1. by rewrite bool_decide_eq_true_2.
    + intros t'. rewrite elem_of_difference, elem_of_singleton, H3, app_nil_r, !elem_of_app, list_elem_of_singleton.
      rewrite elem_of_app in Hout. naive_solver.
Qed.

Lemma io_inv_reachable s : reachable io_lts s -> io_inv s.
Proof.
  apply (invariant_ind io_lts).
  - intros ? ->. constructor; try done; set_solver.
  - intros s1 s2 H [l Hl]. destruct l as [r|got| |]; cbn in Hl.
    + destruct (destroyed s1); [done|]. injection Hl as <-. by apply io_inv_submit.
    + by eapply io_inv_loop.
    + injection Hl as <-. destruct H as [H1 H2 H3 H4 H5]. by constructor.
    + unfold io_destroy_step in Hl. destruct (pc s1) eqn:E; try done. injection Hl as <-.
      destruct H as [H1 H2 H3 H4 H5]. unfold held in *. rewrite E in *. by constructor.
Qed.

(** C40.  Each request's callback is called at most once, with the result that the
    kernel has given for it, and its [Task] is used while it lives and deleted
    once; a request that was submitted is waiting in the kernel or the loop, or
    its callback has been called, so when the kernel holds none and the loop is
    back at its head, every callback has been called and no [Task] is left. *)
Theorem io_callback_once s :
  reachable io_lts s ->
  undefined s = false /\ NoDup (called s).*1 /\
  (forall t r, (t, r) ∈ called s -> answers s !! t = Some r) /\
  (forall t, (t < next_task s)%nat <-> t ∈ pending s \/ t ∈ (events_of (pc s)).*1 \/ t ∈ (called s).*1) /\
  (pending s = [] -> pc s = Test -> tasks s = ∅ /\ (called s).*1 ≡ₚ seq 0 (next_task s)).
Proof.
  intros H%io_inv_reachable. pose proof (ii_nodup s H) as Hnd. destruct H as [H1 H2 H3 H4 H5]. split_and!.
  - done.
  - by apply NoDup_app in Hnd as (_ & _ & (_ & _ & ?)%NoDup_app).
  - auto.
  - intros t. pose proof (elem_of_seq 0 (next_task s) t) as Hs. rewrite <- H2, !elem_of_app in Hs. rewrite Hs. lia.
  - unfold held in H3. intros E1 E2. rewrite E1, E2 in *. cbn in *. split; [|done].
    apply set_eq. intros t. rewrite H3. set_solver.
Qed.

(** Requests that are in flight at [destroy] are not called back, and their
    [Task]s leak. *)
Lemma destroy_drops_requests :
  exists s, run_schedule io_step [LSubmit 1; LShutdown; LLoop None; LDestroy] io_init = Some s /\
    called s = [] /\ tasks s = {[0%nat]} /\ forall l s', io_step l s = Some s' -> called s' = [].
Proof.
  eexists. split; [reflexivity|]. split; [reflexivity|]. split; [vm_compute; reflexivity|].
  intros [r|got| |] s'; cbn; try done; by intros [= <-].
Qed.

(** Two requests, of which the kernel refuses one, and one more from a callback. *)
Definition sample_io : list iolabel :=
  [LLoop None; LSubmit 1; LSubmit (-11); LLoop (Some [(0%nat, 4096)]); LLoop None; LSubmit 1; LLoop None;
   LLoop None; LLoop None; LLoop (Some [(2%nat, -5)]); LLoop None; LLoop None; LLoop None].

Lemma io_callback_once_witness :
  exists s, run_schedule io_step sample_io io_init = Some s /\
    called s = [(1%nat, -11); (0%nat, 4096); (2%nat, -5)] /\ tasks s = ∅.
Proof.
  assert (Hr : reachable io_lts (run_end io_step sample_io io_init)).
  { apply run_end_reachable; [reflexivity|]. apply bool_decide_eq_true. vm_compute. by eexists. }
  exists (run_end io_step sample_io io_init). split; [vm_compute; reflexivity|].
  split; [vm_compute; reflexivity|].
  destruct (io_callback_once _ Hr) as (_ & _ & _ & _ & H). apply H; vm_compute; reflexivity.
Defined.
