(* ===== verification/ViaCoroutine.v ===== *)
(** * ViaCoroutine: awaiters that are not of the library

    Models coro/ViaCoroutine.h.  The awaiter gets the handle of a small coroutine
    in place of the continuation; when it resumes it, the coroutine ends at once
    and its [FinalAwaiter] brings the continuation back to the context of the
    suspension.  Three threads may be at it: the one that suspends, the one on
    which the awaiter resumes the handle, and the executor's, where the
    continuation goes on and destroys the [ViaAsyncAwaiter] with the coroutine. *)

From S2P Require Import Prelude.

(** The frame of the coroutine: suspended at its start, in its [FinalAwaiter]
    (suspended, and [await_suspend] has not read the promise yet), at its end. *)
Inductive frame := AtStart | InFinal | AtFinal | Destroyed.

#[export] Instance frame_eq_dec : EqDecision frame.
Proof. solve_decision. Defined.

(** The suspending thread: in [getWrappedContinuation]; in the [await_suspend] of
    the awaiter; before [checkin]; after [await_suspend]. *)
Inductive via_pc := Wrap | Suspending | Checkin | Suspended.

(** [handle]: what the awaiter holds.  [posted]: the continuations in the queue of
    the executor, with the context they were checked in with; [checkouts] and
    [checkins] the contexts of all calls; [resumed] how often the continuation has
    gone on; [live] whether the [ViaAsyncAwaiter] is. *)
Record via := Via {
  _continuation : bool;
  _ctx : option Z;
  fr : frame;
  pc : via_pc;
  handle : bool;
  posted : list (option Z);
  checkouts : list Z;
  checkins : list (option Z);
  resumed : nat;
  live : bool;
  undefined : bool;
}.

Section via.
(** Whether there is an executor; the context that [checkout] gives; whether the
    awaiter's [await_suspend] returns [false]. *)
Context (ex : bool) (ctx : Z) (refuses : bool).

(** [create], suspended at once; [Executor::NULLCTX]. *)
Definition create : via := Via false None AtStart Wrap false [] [] [] 0 true false.

(** [getWrappedContinuation], and the awaiter has the handle. *)
Definition getWrappedContinuation (s : via) : via :=
  Via true (if ex then Some ctx else _ctx s) (fr s) Suspending true (posted s)
    (if ex then checkouts s ++ [ctx] else checkouts s) (checkins s) (resumed s) (live s)
    (undefined s || bool_decide (fr s = Destroyed)).

(** The continuation goes on: it runs [await_resume], and destroys the awaiter and
    with it the coroutine, which must be suspended. *)
Definition continue (s : via) : via :=
  Via (_continuation s) (_ctx s) Destroyed (pc s) (handle s) (posted s) (checkouts s) (checkins s)
    (S (resumed s)) false
    (undefined s || negb (live s) || bool_decide (fr s = InFinal) || bool_decide (fr s = Destroyed)).

(** [ViaCoroutine::checkin]: the function that it checks in does nothing. *)
Definition checkin (s : via) : via :=
  Via (_continuation s) (_ctx s) (fr s) Suspended (handle s) (posted s) (checkouts s)
    (if ex then checkins s ++ [_ctx s] else checkins s) (resumed s) (live s)
    (undefined s || bool_decide (fr s = Destroyed)).

(** The awaiter's [await_suspend] returns; [false] continues at once. *)
Definition suspended (s : via) : via :=
  Via (_continuation s) (_ctx s) (fr s) (if refuses then Checkin else Suspended)
    (if refuses then false else handle s) (posted s) (checkouts s) (checkins s) (resumed s) (live s)
    (undefined s).

(** The awaiter resumes the handle: the coroutine ends, up to [FinalAwaiter]. *)
Definition resume_handle (s : via) : via :=
  Via (_continuation s) (_ctx s) InFinal (pc s) false (posted s) (checkouts s) (checkins s) (resumed s) (live s)
    (undefined s || negb (bool_decide (fr s = AtStart))).

(** [FinalAwaiter::await_suspend]. *)
Definition final_await_suspend (s : via) : via :=
  let s' := Via (_continuation s) (_ctx s) AtFinal (pc s) (handle s)
              (if ex then posted s ++ [_ctx s] else posted s) (checkouts s)
              (if ex then checkins s ++ [_ctx s] else checkins s) (resumed s) (live s)
              (undefined s || negb (_continuation s)) in
  if ex then s' else continue s'.

Inductive via_label := LSuspend | LAwaiter | LExecutor.

Definition via_step (l : via_label) (s : via) : option via :=
  match l with
  | LSuspend =>
      match pc s with
      | Wrap => Some (getWrappedContinuation s)
      | Suspending => Some (suspended s)
      | Checkin => Some (continue (checkin s))
      | Suspended => None
      end
  | LAwaiter =>
      match fr s with
      | InFinal => Some (final_await_suspend s)
      | _ => if handle s && negb refuses then Some (resume_handle s) else None
      end
  | LExecutor =>
      match posted s with
      | _ :: q =>
          Some (continue (Via (_continuation s) (_ctx s) (fr s) (pc s) (handle s) q (checkouts s) (checkins s)
                            (resumed s) (live s) (undefined s)))
      | [] => None
      end
  end.

Definition via_lts : lts := flts (fun s => s = create) via_step.

End via.

(** ** The invariant *)

(** The states of a run: how far the suspending thread is matters once the awaiter
    has the handle only for what it can do next. *)
Inductive via_ok (ex : bool) (ctx : Z) (refuses : bool) : via -> Prop :=
  | vo_create : via_ok ex ctx refuses create
  | vo_given p : p = Suspending \/ (refuses = false /\ p = Suspended) ->
      via_ok ex ctx refuses (Via true (if ex then Some ctx else None) AtStart p true []
        (if ex then [ctx] else []) [] 0 true false)
  | vo_refused : refuses = true ->
      via_ok ex ctx refuses (Via true (if ex then Some ctx else None) AtStart Checkin false []
        (if ex then [ctx] else []) [] 0 true false)
  | vo_resumed p : refuses = false -> p = Suspending \/ p = Suspended ->
      via_ok ex ctx refuses (Via true (if ex then Some ctx else None) InFinal p false []
        (if ex then [ctx] else []) [] 0 true false)
  | vo_posted p : refuses = false -> ex = true -> p = Suspending \/ p = Suspended ->
      via_ok ex ctx refuses (Via true (Some ctx) AtFinal p false [Some ctx] [ctx] [Some ctx] 0 true false)
  | vo_continued p : p = Suspended \/ (refuses = false /\ p = Suspending) ->
      via_ok ex ctx refuses (Via true (if ex then Some ctx else None) Destroyed p false []
        (if ex then [ctx] else []) (if ex then [Some ctx] else []) 1 false false).

Lemma via_ok_step ex ctx refuses l s s' :
  via_ok ex ctx refuses s -> via_step ex ctx refuses l s = Some s' -> via_ok ex ctx refuses s'.
Proof.
  intros H Hl. destruct H as [|p Hp|Hr|p Hr Hp|p Hr He Hp|p Hp];
    repeat match goal with
      | H : _ \/ _ |- _ => destruct H
      | H : _ /\ _ |- _ => destruct H
      end; subst; destruct l; cbn in Hl; try done;
    try destruct ex; try destruct refuses; cbn in Hl; try done; injection Hl as <-;
    first
      [ eapply (vo_given true); by eauto | eapply (vo_given false); by eauto
      | eapply (vo_refused true); by eauto | eapply (vo_refused false); by eauto
      | eapply (vo_resumed true); by eauto | eapply (vo_resumed false); by eauto
      | eapply (vo_posted true); by eauto
      | eapply (vo_continued true); by eauto | eapply (vo_continued false); by eauto ].
Qed.

Lemma via_ok_reachable ex ctx refuses s :
  reachable (via_lts ex ctx refuses) s -> via_ok ex ctx refuses s.
Proof.
  apply (invariant_ind (via_lts ex ctx refuses)); [intros ? ->; apply vo_create|].
  intros s1 s2 H [l Hl]. by eapply via_ok_step.
Qed.

(** C17.  In every interleaving the continuation goes on at most once, through the
    executor in the context of the suspension; the coroutine is not used or
    resumed after it has been destroyed, nor destroyed while it runs; and when
    nothing is left to do it has gone on, and every checkout had its checkin. *)
Theorem via_continues_once ex ctx refuses s :
  reachable (via_lts ex ctx refuses) s ->
  undefined s = false /\ (resumed s <= 1)%nat /\ (forall c, c ∈ posted s -> c = Some ctx) /\
  ((forall l, via_step ex ctx refuses l s = None) -> resumed s = 1%nat /\ Some <$> checkouts s = checkins s).
Proof.
  intros H%via_ok_reachable.
  assert (Hp : forall c, c ∈ posted s -> c = Some ctx).
  { destruct H; cbn; try by intros c ?%elem_of_nil. by intros c ->%list_elem_of_singleton. }
  split_and!; [by destruct H|destruct H; cbn; lia|exact Hp|]. intros Hn.
  pose proof (Hn LSuspend) as H1. pose proof (Hn LAwaiter) as H2. pose proof (Hn LExecutor) as H3.
  destruct H as [|p Hq|Hr|p Hr Hq|p Hr He Hq|p Hq]; cbn in *; try done.
  - destruct Hq as [->|[-> ->]]; done.
  - by destruct ex.
Qed.

Lemma via_continues_once_witness :
  exists s, run_schedule (via_step true 7 false) [LSuspend; LAwaiter; LAwaiter; LExecutor; LSuspend] create = Some s /\
    resumed s = 1%nat /\ checkins s = [Some 7].
Proof.
  set (sched := [LSuspend; LAwaiter; LAwaiter; LExecutor; LSuspend]).
  assert (Hr : reachable (via_lts true 7 false) (run_end (via_step true 7 false) sched create)).
  { apply run_end_reachable; reflexivity. }
  exists (run_end (via_step true 7 false) sched create). split; [reflexivity|].
  destruct (via_continues_once _ _ _ _ Hr) as (_ & _ & _ & H). destruct H as [H1 H2].
  - intros []; reflexivity.
  - split; [exact H1|]. rewrite <- H2. reflexivity.
Defined.
