(* ===== verification/Bytes.v ===== *)
(** * Bytes: the strings of the examples

    A [std::string] is a list of [ascii]; a [char] is signed and is promoted to
    [int].  The functions of [std::string] the examples call. *)

From Stdlib Require Import Ascii.
From S2P Require Import Prelude.

Abbreviation bytes := (list ascii).
Definition str (s : string) : bytes := String.list_ascii_of_string s.

(** A [char] as an [int]. *)
Definition char (c : ascii) : Z := s8 (Z.of_N (N_of_ascii c)).

Definition INT_MAX : Z := 2 ^ 31 - 1.

(** [std::to_string] of a number that is not negative. *)
Definition digit (d : Z) : ascii := ascii_of_N (Z.to_N (48 + d)).
Fixpoint dec_fuel (fuel : nat) (n : Z) : bytes :=
  match fuel with
  | O => []
  | S fuel => if n <? 10 then [digit n] else dec_fuel fuel (n / 10) ++ [digit (n mod 10)]
  end.
Definition dec (n : Z) : bytes := dec_fuel (S (Z.to_nat (Z.log2 n))) n.

Definition CR : ascii := ascii_of_N 13.
Definition LF : ascii := ascii_of_N 10.
Definition SP : ascii := ascii_of_N 32.
Definition HT : ascii := ascii_of_N 9.
Definition COLON : ascii := ascii_of_N 58.
Definition DOT : ascii := ascii_of_N 46.

Definition PERCENT : ascii := ascii_of_N 37.
Definition PLUS : ascii := ascii_of_N 43.
Definition SLASH : ascii := ascii_of_N 47.
Definition NUL : ascii := ascii_of_N 0.

Definition crlf : bytes := [CR; LF].

(** ** Searching *)

(** [s.find(pat)]. *)
Fixpoint find (pat s : bytes) : option nat :=
  if decide (pat `prefix_of` s) then Some 0%nat
  else match s with [] => None | _ :: t => S <$> find pat t end.

(** [s.find_last_of(c)], [c] one character. *)
Fixpoint find_last_of (c : ascii) (s : bytes) : option nat :=
  match s with
  | [] => None
  | a :: t =>
      match find_last_of c t with
      | Some n => Some (S n)
      | None => if decide (a = c) then Some 0%nat else None
      end
  end.

(** What [c_str()] shows of a string. *)
Fixpoint c_str (s : bytes) : bytes :=
  match s with
  | [] => []
  | c :: t => if decide (c = NUL) then [] else c :: c_str t
  end.

Lemma find_None pat s : find pat s = None <-> ~ exists a b, s = a ++ pat ++ b.
Proof.
  induction s as [|c s IH]; cbn.
  - destruct (decide _) as [[k E]|Hno]; split; try done.
    + intros H. destruct H. exists [], k. done.
    + intros _ (a & b & E). symmetry in E. apply app_nil in E as [_ [-> ->]%app_nil].
      apply Hno. by exists [].
  - destruct (decide _) as [[k E]|Hno]; split; try done.
    + intros H. destruct H. exists [], k. by rewrite E.
    + rewrite fmap_None, IH. intros Hs ([|d a] & b & E).
      * apply Hno. by exists b.
      * injection E as -> ->. eauto.
    + rewrite fmap_None, IH. intros Hs (a & b & ->). apply Hs. by exists (c :: a), b.
Qed.

Lemma c_str_prefix s : exists t, s = c_str s ++ t.
Proof.
  induction s as [|c s [t IH]]; [by exists []|]. cbn.
  case_decide; [by exists (c :: s)|]. exists t. cbn. by rewrite <- IH.
Qed.

Lemma c_str_no_nul s : NUL ∉ c_str s.
Proof.
  induction s as [|c s IH]; cbn; [set_solver|]. case_decide; set_solver.
Qed.

Lemma c_str_app s t : NUL ∉ s -> c_str (s ++ t) = s ++ c_str t.
Proof.
  induction s as [|c s IH]; intros H; [done|]. cbn -[NUL].
  rewrite decide_False by set_solver. rewrite IH by set_solver. done.
Qed.

(** ** Decimal numbers *)

Lemma char_digit d : 0 <= d < 10 -> char (digit d) = 48 + d.
Proof.
  intros. unfold char, digit. rewrite N_ascii_embedding by lia. unfold s8.
  rewrite Z2N.id, Z.mod_small by lia. lia.
Qed.

Lemma digit_not d a : 0 <= d < 10 -> char a < 48 -> digit d <> a.
Proof. intros ? Ha <-. rewrite char_digit in Ha by done. lia. Qed.

Lemma dec_fuel_enough n : 0 <= n -> n < 2 ^ Z.of_nat (S (Z.to_nat (Z.log2 n))).
Proof.
  intros Hn. rewrite Nat2Z.inj_succ, Z2Nat.id by apply Z.log2_nonneg.
  destruct (decide (n = 0)) as [->|]; [done|]. apply Z.log2_spec. lia.
Qed.

