(* ===== verification/Http.v ===== *)
(** * Http: the request parser and the server of the HTTP example

    Models demo_example/http/http_request.hpp and http_response.hpp.  The
    arithmetic of [int] is written out.  Strings are in Bytes.v. *)

From Stdlib Require Import Ascii.
From S2P Require Import Prelude Bytes.

(** ** Requests *)

Record header := Header { name : bytes; h_value : bytes }.

Record request := Request {
  r_method : bytes;
  r_uri : bytes;
  http_version_major_ : Z;
  http_version_minor_ : Z;
  headers : list header;
}.

Definition request_init : request := Request [] [] 0 0 [].

Inductive state :=
  | method_start | method | uri
  | http_version_h | http_version_t_1 | http_version_t_2 | http_version_p | http_version_slash
  | http_version_major_start | http_version_major | http_version_minor_start | http_version_minor
  | expecting_newline_1 | header_line_start | header_lws | header_name
  | space_before_header_value | header_value | expecting_newline_2 | expecting_newline_3.

Inductive result_type := good | bad | indeterminate.

Definition is_char (c : Z) : bool := (0 <=? c) && (c <=? 127).
Definition is_ctl (c : Z) : bool := ((0 <=? c) && (c <=? 31)) || (c =? 127).
Definition tspecials : bytes :=
  str "()<>@,;:\" ++ [ascii_of_N 34] ++ str "/[]?={} " ++ [ascii_of_N 9].
Definition is_tspecial (c : Z) : bool := existsb (fun t => c =? char t) tspecials.
Definition is_digit (c : Z) : bool := (48 <=? c) && (c <=? 57).

(** [v * 10 + input - '0'] on [int]s. *)
Definition next_number (v c : Z) : outcome Z :=
  if (v * 10 <=? INT_MAX) && (v * 10 + c <=? INT_MAX) then Ret (v * 10 + c - 48)
  else Undef "signed integer overflow".

(** [req.headers.back().f.push_back(c)]. *)
Fixpoint update_back (f : header -> header) (hs : list header) : outcome (list header) :=
  match hs with
  | [] => Undef "back() of an empty vector"
  | [h] => Ret [f h]
  | h :: hs => hs' ← update_back f hs; Ret (h :: hs')
  end.
Definition push_name (c : ascii) (h : header) : header := Header (name h ++ [c]) (h_value h).
Definition push_value (c : ascii) (h : header) : header := Header (name h) (h_value h ++ [c]).

Definition with_method m r :=
  Request m (r_uri r) (http_version_major_ r) (http_version_minor_ r) (headers r).
Definition with_uri u r :=
  Request (r_method r) u (http_version_major_ r) (http_version_minor_ r) (headers r).
Definition with_major v r :=
  Request (r_method r) (r_uri r) v (http_version_minor_ r) (headers r).
Definition with_minor v r :=
  Request (r_method r) (r_uri r) (http_version_major_ r) v (headers r).
Definition with_headers hs r :=
  Request (r_method r) (r_uri r) (http_version_major_ r) (http_version_minor_ r) hs.

Abbreviation consumed := (outcome (result_type * state * request)).

Definition not_token (c : Z) : bool := negb (is_char c) || is_ctl c || is_tspecial c.

Definition expect (e : ascii) (next st : state) (c : ascii) (req : request) : consumed :=
  if decide (c = e) then Ret (indeterminate, next, req) else Ret (bad, st, req).

(** [request_parser::consume]. *)
Definition consume (req : request) (state_ : state) (input : ascii) : consumed :=
  let c := char input in
  match state_ with
  | method_start =>
      if not_token c then Ret (bad, state_, req)
      else Ret (indeterminate, method, with_method (r_method req ++ [input]) req)
  | method =>
      if decide (input = SP) then Ret (indeterminate, uri, req)
      else if not_token c then Ret (bad, state_, req)
      else Ret (indeterminate, method, with_method (r_method req ++ [input]) req)
  | uri =>
      if decide (input = SP) then Ret (indeterminate, http_version_h, req)
      else if is_ctl c then Ret (bad, state_, req)
      else Ret (indeterminate, uri, with_uri (r_uri req ++ [input]) req)
  | http_version_h => expect (ascii_of_N 72) http_version_t_1 state_ input req
  | http_version_t_1 => expect (ascii_of_N 84) http_version_t_2 state_ input req
  | http_version_t_2 => expect (ascii_of_N 84) http_version_p state_ input req
  | http_version_p => expect (ascii_of_N 80) http_version_slash state_ input req
  | http_version_slash =>
      expect (ascii_of_N 47) http_version_major_start state_ input
        (if decide (input = ascii_of_N 47) then with_minor 0 (with_major 0 req) else req)
  | http_version_major_start =>
      if is_digit c then
        v ← next_number (http_version_major_ req) c;
        Ret (indeterminate, http_version_major, with_major v req)
      else Ret (bad, state_, req)
  | http_version_major =>
      if decide (input = DOT) then Ret (indeterminate, http_version_minor_start, req)
      else if is_digit c then
        v ← next_number (http_version_major_ req) c;
        Ret (indeterminate, http_version_major, with_major v req)
      else Ret (bad, state_, req)
  | http_version_minor_start =>
      if is_digit c then
        v ← next_number (http_version_minor_ req) c;
        Ret (indeterminate, http_version_minor, with_minor v req)
      else Ret (bad, state_, req)
  | http_version_minor =>
      if decide (input = CR) then Ret (indeterminate, expecting_newline_1, req)
      else if is_digit c then
        v ← next_number (http_version_minor_ req) c;
        Ret (indeterminate, http_version_minor, with_minor v req)
      else Ret (bad, state_, req)
  | expecting_newline_1 => expect LF header_line_start state_ input req
  | header_line_start =>
      if decide (input = CR) then Ret (indeterminate, expecting_newline_3, req)
      else if negb (bool_decide (headers req = [])) && bool_decide (input = SP \/ input = HT)
      then Ret (indeterminate, header_lws, req)
      else if not_token c then Ret (bad, state_, req)
      else Ret (indeterminate, header_name, with_headers (headers req ++ [Header [input] []]) req)
  | header_lws =>
      if decide (input = CR) then Ret (indeterminate, expecting_newline_2, req)
      else if decide (input = SP \/ input = HT) then Ret (indeterminate, header_lws, req)
      else if is_ctl c then Ret (bad, state_, req)
      else hs ← update_back (push_value input) (headers req);
           Ret (indeterminate, header_value, with_headers hs req)
  | header_name =>
      if decide (input = COLON) then Ret (indeterminate, space_before_header_value, req)
      else if not_token c then Ret (bad, state_, req)
      else hs ← update_back (push_name input) (headers req);
           Ret (indeterminate, header_name, with_headers hs req)
  | space_before_header_value => expect SP header_value state_ input req
  | header_value =>
      if decide (input = CR) then Ret (indeterminate, expecting_newline_2, req)
      else if is_ctl c then Ret (bad, state_, req)
      else hs ← update_back (push_value input) (headers req);
           Ret (indeterminate, header_value, with_headers hs req)
  | expecting_newline_2 => expect LF header_line_start state_ input req
  | expecting_newline_3 =>
      Ret (if decide (input = LF) then good else bad, state_, req)
  end.

(** [request_parser::parse]: the result and what has not been consumed. *)
Fixpoint parse (state_ : state) (req : request) (s : bytes)
    : outcome (result_type * bytes * state * request) :=
  match s with
  | [] => Ret (indeterminate, [], state_, req)
  | input :: s =>
      '(result, state_, req) ← consume req state_ input;
      match result with
      | indeterminate => parse state_ req s
      | _ => Ret (result, s, state_, req)
      end
  end.

(** ** Responses *)

Inductive status_type :=
  | ok | created | accepted | no_content | multiple_choices | moved_permanently
  | moved_temporarily | not_modified | bad_request | unauthorized | forbidden | not_found
  | internal_server_error | not_implemented | bad_gateway | service_unavailable.

Definition status_code (s : status_type) : Z :=
  match s with
  | ok => 200 | created => 201 | accepted => 202 | no_content => 204
  | multiple_choices => 300 | moved_permanently => 301 | moved_temporarily => 302
  | not_modified => 304 | bad_request => 400 | unauthorized => 401 | forbidden => 403
  | not_found => 404 | internal_server_error => 500 | not_implemented => 501
  | bad_gateway => 502 | service_unavailable => 503
  end.

Definition status_to_buffer (status : option status_type) : bytes :=
  str (match default internal_server_error status with
       | ok => "HTTP/1.1 200 OK"
       | created => "HTTP/1.1 201 Created"
       | accepted => "HTTP/1.1 202 Accepted"
       | no_content => "HTTP/1.1 204 No Content"
       | multiple_choices => "HTTP/1.1 300 Multiple Choices"
       | moved_permanently => "HTTP/1.1 301 Moved Permanently"
       | moved_temporarily => "HTTP/1.1 302 Moved Temporarily"
       | not_modified => "HTTP/1.1 304 Not Modified"
       | bad_request => "HTTP/1.1 400 Bad Request"
       | unauthorized => "HTTP/1.1 401 Unauthorized"
       | forbidden => "HTTP/1.1 403 Forbidden"
       | not_found => "HTTP/1.1 404 Not Found"
       | internal_server_error => "HTTP/1.1 500 Internal Server Error"
       | not_implemented => "HTTP/1.1 501 Not Implemented"
       | bad_gateway => "HTTP/1.1 502 Bad Gateway"
       | service_unavailable => "HTTP/1.1 503 Service Unavailable"
       end) ++ crlf.

Definition extension_to_type (extension : bytes) : bytes :=
  str (if decide (extension = str "gif") then "image/gif"
       else if decide (extension = str "htm") then "text/html"
       else if decide (extension = str "html") then "text/html"
       else if decide (extension = str "jpg") then "image/jpeg"
       else if decide (extension = str "png") then "image/png"
       else "text/plain").

(** A response that has just been made has the status 0, which is none of the
    enumerators: [None]. *)
Record response := Response {
  status : option status_type;
  rep_headers : list header;
  content : bytes;
}.

Definition response_init : response := Response None [] [].

(** The buffers of [to_buffers], one after the other. *)
Definition to_buffers (rep : response) : list bytes :=
  [status_to_buffer (status rep)] ++
  (rep_headers rep ≫= fun h => [name h; str ": "; h_value h; crlf]) ++
  [crlf; content rep].

Definition page (title body : string) : bytes :=
  str "<html><head><title>" ++ str title ++ str "</title></head><body><h1>" ++ str body ++
  str "</h1></body></html>".

Definition to_string (status : status_type) : bytes :=
  match status with
  | ok => page "Hello" "Hello async_simple"
  | created => page "Created" "201 Created"
  | accepted => page "Accepted" "202 Accepted"
  | no_content => page "No Content" "204 Content"
  | multiple_choices => page "Multiple Choices" "300 Multiple Choices"
  | moved_permanently => page "Moved Permanently" "301 Moved Permanently"
  | moved_temporarily => page "Moved Temporarily" "302 Moved Temporarily"
  | not_modified => page "Not Modified" "304 Not Modified"
  | bad_request => page "Bad Request" "400 Bad Request"
  | unauthorized => page "Unauthorized" "401 Unauthorized"
  | forbidden => page "Forbidden" "403 Forbidden"
  | not_found => page "Not Found" "404 Not Found"
  | internal_server_error => page "Internal Server Error" "500 Internal Server Error"
  | not_implemented => page "Not Implemented" "501 Not Implemented"
  | bad_gateway => page "Bad Gateway" "502 Bad Gateway"
  | service_unavailable => page "Service Unavailable" "503 Service Unavailable"
  end.

Definition content_headers (body type : bytes) : list header :=
  [Header (str "Content-Length") (dec (Z.of_nat (length body)));
   Header (str "Content-Type") type].

Definition build_response (status : status_type) : response :=
  Response (Some status) (content_headers (to_string status) (str "text/html")) (to_string status).

(** ** What the parser accepts *)

Definition token (c : ascii) : bool := negb (not_token (char c)).
Definition uri_char (c : ascii) : bool := negb (bool_decide (c = SP)) && negb (is_ctl (char c)).
Definition value_char (c : ascii) : bool := negb (is_ctl (char c)).
Definition token_string (s : bytes) : bool := negb (bool_decide (s = [])) && forallb token s.
Definition version_ok (v : Z) : bool := (0 <=? v) && (v <=? INT_MAX - 48).
Definition header_ok (h : header) : bool :=
  token_string (name h) && forallb value_char (h_value h).

(** The requests that the grammar of the parser describes. *)
Definition valid_request (r : request) : bool :=
  token_string (r_method r) && forallb uri_char (r_uri r) &&
  version_ok (http_version_major_ r) && version_ok (http_version_minor_ r) &&
  forallb header_ok (headers r).

(** How a client writes a request. *)
Definition print_header (h : header) : bytes := name h ++ [COLON; SP] ++ h_value h ++ crlf.
Definition print_request (r : request) : bytes :=
  r_method r ++ [SP] ++ r_uri r ++ [SP] ++ str "HTTP/" ++
  dec (http_version_major_ r) ++ [DOT] ++ dec (http_version_minor_ r) ++ crlf ++
  (headers r ≫= print_header) ++ crlf.

(** [parse] stops in the middle of a request, after all of [s]. *)
Definition eats (st : state) (req : request) (s : bytes) (st' : state) (req' : request) : Prop :=
  parse st req s = Ret (indeterminate, [], st', req').

Lemma parse_app st req a b :
  parse st req (a ++ b) =
  ('(result, rest, st', req') ← parse st req a;
   match result with
   | indeterminate => parse st' req' b
   | _ => Ret (result, rest ++ b, st', req')
   end).
Proof.
  revert st req. induction a as [|c a IH]; intros st req; [done|]. cbn.
  destruct (consume req st c) as [[[[| |] st'] req']| |]; cbn; auto.
Qed.

Lemma eats_nil st req : eats st req [] st req.
Proof. done. Qed.

Lemma eats_app st req a st1 req1 b st2 req2 :
  eats st req a st1 req1 -> eats st1 req1 b st2 req2 -> eats st req (a ++ b) st2 req2.
Proof. unfold eats. intros Ha Hb. rewrite parse_app, Ha. done. Qed.

Lemma eats_snoc st req a st1 req1 c st2 req2 :
  eats st req a st1 req1 -> consume req1 st1 c = Ret (indeterminate, st2, req2) ->
  eats st req (a ++ [c]) st2 req2.
Proof. unfold eats. intros Ha Hc. rewrite parse_app, Ha. cbn. by rewrite Hc. Qed.


Lemma eats_cons st req c st1 req1 b st2 req2 :
  consume req st c = Ret (indeterminate, st1, req1) -> eats st1 req1 b st2 req2 ->
  eats st req (c :: b) st2 req2.
Proof. unfold eats. cbn. intros ->. done. Qed.

Lemma eats_parse st req a st1 req1 b :
  eats st req a st1 req1 -> parse st req (a ++ b) = parse st1 req1 b.
Proof. unfold eats. intros Ha. rewrite parse_app, Ha. done. Qed.

(** A parser state that reads a run of characters of a class. *)
Lemma eats_run (st : state) (ok : ascii -> bool) (push : ascii -> request -> request) req s :
  (forall c r, ok c = true -> consume r st c = Ret (indeterminate, st, push c r)) ->
  forallb ok s = true ->
  eats st req s st (foldl (fun r c => push c r) req s).
Proof.
  intros Hc. revert req. induction s as [|c s IH]; intros req Hs; [apply eats_nil|].
  cbn in Hs. apply andb_true_iff in Hs as [Hok Hs].
  eapply eats_cons; [by apply Hc|]. cbn. auto.
Qed.

(** The characters the parser looks for are in none of the classes. *)
Ltac class_char :=
  repeat match goal with
  | |- context [decide (?c = ?d)] => destruct (decide (c = d)) as [->|]; [exfalso|]
  | |- context [decide (?c = ?d \/ ?c = ?e)] =>
      destruct (decide (c = d \/ c = e)) as [[->| ->]|]; [exfalso|exfalso|]
  end; try (match goal with H : _ _ = true |- False => vm_compute in H; discriminate H end).

Lemma token_spec c : token c = true -> not_token (char c) = false.
Proof. unfold token. apply negb_true_iff. Qed.

Lemma uri_char_spec c : uri_char c = true -> is_ctl (char c) = false.
Proof. unfold uri_char. rewrite andb_true_iff, (negb_true_iff (is_ctl _)). tauto. Qed.

Lemma value_char_spec c : value_char c = true -> is_ctl (char c) = false.
Proof. unfold value_char. apply negb_true_iff. Qed.

Lemma foldl_method s req :
  foldl (fun r c => with_method (r_method r ++ [c]) r) req s = with_method (r_method req ++ s) req.
Proof.
  revert req. induction s as [|c s IH]; intros req; cbn.
  - rewrite app_nil_r. by destruct req.
  - rewrite IH. cbn. by rewrite <- app_assoc.
Qed.

Lemma foldl_uri s req :
  foldl (fun r c => with_uri (r_uri r ++ [c]) r) req s = with_uri (r_uri req ++ s) req.
Proof.
  revert req. induction s as [|c s IH]; intros req; cbn.
  - rewrite app_nil_r. by destruct req.
  - rewrite IH. cbn. by rewrite <- app_assoc.
Qed.

Lemma token_string_inv s : token_string s = true ->
  exists c s', s = c :: s' /\ token c = true /\ forallb token s' = true.
Proof.
  unfold token_string. rewrite andb_true_iff, negb_true_iff, bool_decide_eq_false.
  destruct s as [|c s']; [by intros [[] _]|]. cbn. rewrite andb_true_iff.
  intros [_ [? ?]]. eauto.
Qed.

Lemma eats_method req s :
  token_string s = true -> r_method req = [] ->
  eats method_start req (s ++ [SP]) uri (with_method s req).
Proof.
  intros (c & s' & -> & Hc & Hs)%token_string_inv Hm.
  apply (eats_cons _ _ _ method (with_method [c] req)).
  { cbn. by rewrite (token_spec c), Hm. }
  apply (eats_snoc _ _ _ method (with_method (c :: s') req)); [|done].
  change (with_method (c :: s') req)
    with (with_method (r_method (with_method [c] req) ++ s') (with_method [c] req)).
  rewrite <- foldl_method.
  apply (eats_run _ token (fun c r => with_method (r_method r ++ [c]) r)); [|done].
  intros d r Hd. cbn. class_char. by rewrite token_spec.
Qed.

Lemma eats_uri req s :
  forallb uri_char s = true -> r_uri req = [] ->
  eats uri req (s ++ [SP]) http_version_h (with_uri s req).
Proof.
  intros Hs Hu. apply (eats_snoc _ _ _ uri (with_uri s req)); [|done].
  replace (with_uri s req) with (with_uri (r_uri req ++ s) req) by by rewrite Hu.
  rewrite <- foldl_uri.
  apply (eats_run _ uri_char (fun c r => with_uri (r_uri r ++ [c]) r)); [|done].
  intros d r Hd. cbn. class_char. by rewrite uri_char_spec.
Qed.

Lemma eats_http req :
  eats http_version_h req (str "HTTP/") http_version_major_start (with_minor 0 (with_major 0 req)).
Proof. done. Qed.

(** *** Numbers *)

Lemma next_digit v d : 0 <= d < 10 -> 0 <= v -> v * 10 + d <= INT_MAX - 48 ->
  next_number v (48 + d) = Ret (v * 10 + d).
Proof.
  intros. unfold next_number.
  rewrite (proj2 (Z.leb_le (v * 10) _)), (proj2 (Z.leb_le (v * 10 + _) _)) by lia.
  cbn. f_equal. lia.
Qed.

Lemma is_digit_digit d : 0 <= d < 10 -> is_digit (48 + d) = true.
Proof. intros. unfold is_digit. rewrite andb_true_iff, !Z.leb_le. lia. Qed.

(** A number is read from its decimal digits, from [v = 0]. *)
Lemma eats_dec_fuel (start st : state) (set : Z -> request -> request) (get : request -> Z) fuel n req :
  (forall v r, get (set v r) = v) -> (forall v w r, set v (set w r) = set v r) ->
  (forall d, 0 <= d < 10 -> consume req start (digit d) = Ret (indeterminate, st, set d req)) ->
  (forall d r, 0 <= d < 10 -> 0 <= get r -> get r * 10 + d <= INT_MAX - 48 ->
     consume r st (digit d) = Ret (indeterminate, st, set (get r * 10 + d) r)) ->
  0 <= n < 2 ^ Z.of_nat (S fuel) -> n <= INT_MAX - 48 ->
  eats start req (dec_fuel (S fuel) n) st (set n req).
Proof.
  intros Hget Hset Hstart Hst. revert n.
  induction fuel as [|fuel IH]; intros n Hn Hmax; cbn [dec_fuel].
  - assert ((n <? 10) = true) as -> by (apply Z.ltb_lt; cbn in Hn; lia).
    eapply eats_cons; [apply Hstart; cbn in Hn; lia|apply eats_nil].
  - destruct (n <? 10) eqn:E; [apply Z.ltb_lt in E|apply Z.ltb_ge in E].
    { eapply eats_cons; [apply Hstart; lia|apply eats_nil]. }
    pose proof (Z.div_mod n 10). pose proof (Z.mod_pos_bound n 10).
    rewrite (Nat2Z.inj_succ (S fuel)), Z.pow_succ_r in Hn by lia.
    eapply eats_app; [apply (IH (n / 10)); lia|].
    eapply eats_cons; [apply Hst; rewrite ?Hget; lia|].
    rewrite Hget, Hset. replace (n / 10 * 10 + n mod 10) with n by lia. apply eats_nil.
Qed.

Lemma eats_major req n :
  version_ok n = true -> http_version_major_ req = 0 ->
  eats http_version_major_start req (dec n ++ [DOT]) http_version_minor_start (with_major n req).
Proof.
  unfold version_ok. rewrite andb_true_iff, !Z.leb_le. intros Hn H0.
  apply (eats_snoc _ _ _ http_version_major (with_major n req)); [|done].
  apply (eats_dec_fuel _ _ with_major http_version_major_); try done.
  - intros d Hd. cbn. rewrite char_digit, is_digit_digit by done.
    rewrite H0, (next_digit 0 d) by (unfold INT_MAX; lia). done.
  - intros d r Hd Hg Hm. cbn.
    rewrite decide_False by (apply digit_not; done).
    rewrite char_digit, is_digit_digit by done. by rewrite next_digit.
  - split; [lia|]. apply dec_fuel_enough. lia.
  - lia.
Qed.

Lemma eats_minor req n :
  version_ok n = true -> http_version_minor_ req = 0 ->
  eats http_version_minor_start req (dec n ++ crlf) header_line_start (with_minor n req).
Proof.
  unfold version_ok. rewrite andb_true_iff, !Z.leb_le. intros Hn H0.
  apply (eats_app _ _ _ http_version_minor (with_minor n req)); [|done].
  apply (eats_dec_fuel _ _ with_minor http_version_minor_); try done.
  - intros d Hd. cbn. rewrite char_digit, is_digit_digit by done.
    rewrite H0, (next_digit 0 d) by (unfold INT_MAX; lia). done.
  - intros d r Hd Hg Hm. cbn.
    rewrite decide_False by (apply digit_not; done).
    rewrite char_digit, is_digit_digit by done. by rewrite next_digit.
  - split; [lia|]. apply dec_fuel_enough. lia.
  - lia.
Qed.

(** *** Headers *)

Lemma update_back_app f hs h : update_back f (hs ++ [h]) = Ret (hs ++ [f h]).
Proof.
  induction hs as [|k hs IH]; [done|]. cbn. rewrite IH. by destruct (hs ++ [h]) eqn:E; [destruct hs|].
Qed.

(** The request with [h] as its last header. *)
Definition add_header (h : header) (req : request) : request :=
  with_headers (headers req ++ [h]) req.

Lemma eats_name req n v s :
  forallb token s = true ->
  eats header_name (add_header (Header n v) req) s header_name (add_header (Header (n ++ s) v) req).
Proof.
  revert n. induction s as [|c s IH]; intros n Hs; cbn in Hs; [by rewrite app_nil_r|].
  apply andb_true_iff in Hs as [Hc Hs].
  rewrite (cons_middle c n s), app_assoc. eapply eats_cons; [|by apply IH].
  cbn. class_char. by rewrite (token_spec c), update_back_app.
Qed.

Lemma eats_value req n v s :
  forallb value_char s = true ->
  eats header_value (add_header (Header n v) req) s header_value (add_header (Header n (v ++ s)) req).
Proof.
  revert v. induction s as [|c s IH]; intros v Hs; cbn in Hs; [by rewrite app_nil_r|].
  apply andb_true_iff in Hs as [Hc Hs].
  rewrite (cons_middle c v s), app_assoc. eapply eats_cons; [|by apply IH].
  cbn. class_char. by rewrite (value_char_spec c), update_back_app.
Qed.

Lemma token_not_lws c : token c = true -> ~ (c = SP \/ c = HT).
Proof. intros H [-> | ->]; vm_compute in H; discriminate. Qed.

Lemma eats_header req h :
  header_ok h = true ->
  eats header_line_start req (print_header h) header_line_start (add_header h req).
Proof.
  unfold header_ok, print_header. destruct h as [n v]. cbn [name h_value].
  rewrite andb_true_iff. intros [(c & n' & -> & Hc & Hn)%token_string_inv Hv]. cbn [app].
  eapply (eats_cons _ _ _ header_name (add_header (Header [c] []) req)).
  { cbn. rewrite bool_decide_eq_false_2 with (P := c = SP \/ c = HT) by by apply token_not_lws.
    rewrite andb_false_r. class_char. by rewrite token_spec. }
  eapply eats_app; [by apply eats_name|].
  do 2 (eapply eats_cons; [done|]). cbn [app].
  eapply eats_app; [by apply eats_value|].
  do 2 (eapply eats_cons; [done|]). apply eats_nil.
Qed.

Lemma eats_headers req hs :
  forallb header_ok hs = true ->
  eats header_line_start req (hs ≫= print_header) header_line_start
    (with_headers (headers req ++ hs) req).
Proof.
  revert req. induction hs as [|h hs IH]; intros req Hs.
  - rewrite app_nil_r. by destruct req.
  - cbn in Hs. apply andb_true_iff in Hs as [Hh Hs]. rewrite bind_cons.
    eapply eats_app; [by apply eats_header|].
    specialize (IH (add_header h req) Hs). cbn in IH. by rewrite <- app_assoc in IH.
Qed.

Lemma valid_request_spec r : valid_request r = true ->
  token_string (r_method r) = true /\ forallb uri_char (r_uri r) = true /\
  version_ok (http_version_major_ r) = true /\ version_ok (http_version_minor_ r) = true /\
  forallb header_ok (headers r) = true.
Proof. unfold valid_request. rewrite !andb_true_iff. tauto. Qed.

(** All of a printed request but its last line feed. *)
Lemma eats_request r :
  valid_request r = true ->
  exists s, print_request r = s ++ [LF] /\ eats method_start request_init s expecting_newline_3 r.
Proof.
  intros (Hm & Hu & Hmaj & Hmin & Hh)%valid_request_spec. unfold print_request.
  exists (r_method r ++ [SP] ++ r_uri r ++ [SP] ++ str "HTTP/" ++
    dec (http_version_major_ r) ++ [DOT] ++ dec (http_version_minor_ r) ++ crlf ++
    (headers r ≫= print_header) ++ [CR]). split; [by rewrite <- !(assoc_L app)|].
  rewrite (app_assoc (r_method r)). eapply eats_app; [by apply eats_method|].
  rewrite (app_assoc (r_uri r)). eapply eats_app; [by apply eats_uri|].
  eapply eats_app; [apply eats_http|].
  rewrite (app_assoc (dec (http_version_major_ r))). eapply eats_app; [by apply eats_major|].
  rewrite (app_assoc (dec (http_version_minor_ r)) crlf). eapply eats_app; [by apply eats_minor|].
  eapply eats_app; [by apply eats_headers|].
  eapply eats_cons; [done|]. by destruct r.
Qed.

Lemma parse_rest st req s : match parse st req s with
  Ret (indeterminate, rest, _, _) => rest = [] | _ => True end.
Proof.
  revert st req. induction s as [|c s IH]; intros st req; [done|]. cbn.
  destruct (consume req st c) as [[[[| |] st'] req']| |]; cbn; [done|done|apply IH|done|done].
Qed.

Lemma eats_split st req a b st' req' :
  eats st req (a ++ b) st' req' ->
  exists st1 req1, eats st req a st1 req1 /\ eats st1 req1 b st' req'.
Proof.
  unfold eats. rewrite parse_app. pose proof (parse_rest st req a) as Hrest.
  destruct (parse st req a) as [[[[[| |] rest] st1] req1]| |]; cbn; try done.
  subst rest. eauto.
Qed.

(** C35. The parser reads every request a client can write down, byte for
    byte: parsing the printed form of a valid request, followed by anything,
    stops right after the request with the result [good], and what has been
    built is that request. *)
Theorem parse_print_request r rest :
  valid_request r = true ->
  parse method_start request_init (print_request r ++ rest) =
  Ret (good, rest, expecting_newline_3, r).
Proof.
  intros (s & -> & Hs)%eats_request. by rewrite <- app_assoc, (eats_parse _ _ _ _ _ _ Hs).
Qed.

Definition sample_request : request :=
  Request (str "GET") (str "/a%20b?x=1") 1 1
    [Header (str "Host") (str "localhost"); Header (str "Connection") (str "close")].

Lemma parse_print_request_witness :
  valid_request sample_request = true /\
  parse method_start request_init (print_request sample_request ++ str "GET") =
  Ret (good, str "GET", expecting_newline_3, sample_request).
Proof. split; [reflexivity|]. apply (parse_print_request sample_request (str "GET")). reflexivity. Defined.

(** *** Everything the parser accepts is valid *)

(** What is known of the request in a state of the parser. *)
Definition request_line_ok (r : request) : bool :=
  token_string (r_method r) && forallb uri_char (r_uri r).

Definition parsing_ok (st : state) (r : request) : bool :=
  match st with
  | method_start =>
      bool_decide (r_method r = []) && bool_decide (r_uri r = []) && bool_decide (headers r = [])
  | method =>
      token_string (r_method r) && bool_decide (r_uri r = []) && bool_decide (headers r = [])
  | uri | http_version_h | http_version_t_1 | http_version_t_2 | http_version_p
  | http_version_slash => request_line_ok r && bool_decide (headers r = [])
  | http_version_major_start | http_version_major | http_version_minor_start
  | http_version_minor | expecting_newline_1 =>
      request_line_ok r && version_ok (http_version_major_ r) &&
      version_ok (http_version_minor_ r) && bool_decide (headers r = [])
  | header_line_start | expecting_newline_3 => valid_request r
  | header_lws | header_name | space_before_header_value | header_value | expecting_newline_2 =>
      valid_request r && negb (bool_decide (headers r = []))
  end.

(** What one character does to a request that is being parsed. *)
Definition step_ok (m : consumed) : Prop :=
  match m with
  | Ret (indeterminate, st, r) => parsing_ok st r = true
  | Ret (good, _, r) => valid_request r = true
  | Ret (bad, _, _) => True
  | Throw _ => False
  | Undef why => why = "signed integer overflow"%string
  end.

Lemma update_back_ok f hs :
  hs <> [] -> (forall h, header_ok h = true -> header_ok (f h) = true) ->
  forallb header_ok hs = true ->
  exists hs', update_back f hs = Ret hs' /\ forallb header_ok hs' = true /\ hs' <> [].
Proof.
  intros Hne Hf. induction hs as [|h hs IH]; [done|]. intros Hs. cbn in Hs.
  apply andb_true_iff in Hs as [Hh Hs]. destruct hs as [|k hs].
  - exists [f h]. cbn. by rewrite Hf.
  - destruct IH as (hs' & E & Hok & Hne'); [done|done|]. exists (h :: hs').
    cbn [update_back] in *. rewrite E. cbn. by rewrite Hh, Hok.
Qed.

Lemma push_name_ok c h : token c = true -> header_ok h = true -> header_ok (push_name c h) = true.
Proof.
  unfold header_ok, token_string, push_name. cbn.
  rewrite !andb_true_iff, !negb_true_iff, !bool_decide_eq_false, forallb_app. cbn.
  intros -> ((Hne & ->) & ->). repeat split; try done. by destruct (name h).
Qed.

Lemma push_value_ok c h :
  value_char c = true -> header_ok h = true -> header_ok (push_value c h) = true.
Proof.
  unfold header_ok, push_value. cbn. rewrite !andb_true_iff, forallb_app. cbn.
  by intros -> (-> & ->).
Qed.

Lemma next_number_ok v c : is_digit c = true -> version_ok v = true ->
  match next_number v c with
  | Ret v' => version_ok v' = true
  | Throw _ => False
  | Undef why => why = "signed integer overflow"%string
  end.
Proof.
  unfold is_digit, version_ok, next_number. rewrite !andb_true_iff, !Z.leb_le. intros ? ?.
  destruct ((v * 10 <=? INT_MAX) && _) eqn:E; [|done].
  apply andb_true_iff in E as [? E]. apply Z.leb_le in E.
  rewrite andb_true_iff, !Z.leb_le. lia.
Qed.

(** A branch of [consume]: split the condition, close the branch. *)
Ltac step_branch :=
  repeat match goal with
  | |- context [if ?b then _ else _] => destruct b eqn:?; cbn
  end; try done.

Lemma token_intro c : not_token (char c) = false -> token c = true.
Proof. unfold token. by intros ->. Qed.

Lemma token_string_snoc s c :
  s = [] \/ token_string s = true -> token c = true -> token_string (s ++ [c]) = true.
Proof.
  intros Hs Hc. unfold token_string. rewrite forallb_app. cbn. rewrite Hc, !andb_true_r.
  apply andb_true_iff. split; [by destruct s|].
  destruct Hs as [-> | (d & s' & -> & Hd & Hs')%token_string_inv]; [done|]. cbn. by rewrite Hd.
Qed.

Lemma uri_snoc r c :
  c <> SP -> is_ctl (char c) = false -> request_line_ok r = true ->
  request_line_ok (with_uri (r_uri r ++ [c]) r) = true.
Proof.
  unfold request_line_ok. cbn. rewrite !andb_true_iff, forallb_app. intros Hc Hctl [-> ->].
  cbn. unfold uri_char. rewrite Hctl, bool_decide_eq_false_2 by done. done.
Qed.

Lemma valid_headers r hs :
  valid_request r = true -> forallb header_ok hs = true -> valid_request (with_headers hs r) = true.
Proof. unfold valid_request. cbn. rewrite !andb_true_iff. tauto. Qed.

Lemma valid_request_line r :
  request_line_ok r = true -> version_ok (http_version_major_ r) = true ->
  version_ok (http_version_minor_ r) = true -> headers r = [] -> valid_request r = true.
Proof.
  unfold request_line_ok, valid_request. rewrite !andb_true_iff. intros [-> ->] -> -> ->. done.
Qed.

(** Reading a digit of a version number. *)
Lemma step_ok_number st r v c (set : Z -> request -> request) :
  is_digit c = true -> version_ok v = true ->
  (forall v', version_ok v' = true -> parsing_ok st (set v' r) = true) ->
  step_ok (v' ← next_number v c; Ret (indeterminate, st, set v' r)).
Proof.
  intros Hc Hv Hset. pose proof (next_number_ok v c Hc Hv) as H.
  destruct (next_number v c); cbn; auto.
Qed.

(** Appending to the last header. *)
Lemma step_ok_header st r f :
  (forall hs, hs <> [] -> valid_request (with_headers hs r) = true ->
     parsing_ok st (with_headers hs r) = true) ->
  valid_request r = true -> headers r <> [] ->
  (forall h, header_ok h = true -> header_ok (f h) = true) ->
  step_ok (hs ← update_back f (headers r); Ret (indeterminate, st, with_headers hs r)).
Proof.
  intros Hst Hr Hne Hf. pose proof (valid_request_spec r Hr) as (_ & _ & _ & _ & Hh).
  destruct (update_back_ok f (headers r) Hne Hf Hh) as (hs & -> & Hok & Hne'). cbn.
  auto using valid_headers.
Qed.

Lemma parsing_ok_header r hs :
  hs <> [] -> valid_request (with_headers hs r) = true ->
  valid_request (with_headers hs r) && negb (bool_decide (headers (with_headers hs r) = [])) = true.
Proof. intros Hne ->. cbn. by rewrite bool_decide_eq_false_2. Qed.

Lemma value_intro c : is_ctl (char c) = false -> value_char c = true.
Proof. unfold value_char. by intros ->. Qed.

Lemma consume_ok st r c : parsing_ok st r = true -> step_ok (consume r st c).
Proof.
  unfold consume, expect. intros H. destruct st; cbn in *.
  all: step_branch.
  all: rewrite ?andb_true_iff, ?negb_true_iff, ?bool_decide_eq_true, ?bool_decide_eq_false in H.
  all: destruct_and?.
  all: try (rewrite ?andb_true_iff, ?negb_true_iff, ?bool_decide_eq_true, ?bool_decide_eq_false;
    naive_solver (auto using token_string_snoc, token_intro, uri_snoc, valid_request_line)).
  all: try (apply step_ok_number; [done..|]; intros v Hv; cbn; rewrite ?andb_true_iff,
    ?bool_decide_eq_true; auto).
  all: try (apply step_ok_header; [apply parsing_ok_header|done|done|];
    intros h; auto using push_name_ok, push_value_ok, token_intro, value_intro).
  - unfold request_line_ok. apply andb_true_iff. rewrite bool_decide_eq_true.
    split; [|done]. apply andb_true_iff. split; [done|]. by match goal with E : r_uri r = [] |- _ => rewrite E end.
  - match goal with E : negb _ && _ = true |- _ => apply andb_true_iff in E as [-> _] end.
    by apply andb_true_iff.
  - apply parsing_ok_header; [by destruct (headers r)|]. apply valid_headers; [done|].
    rewrite forallb_app. apply valid_request_spec in H as (_ & _ & _ & _ & ->). cbn.
    unfold header_ok. cbn. by rewrite token_intro.
Qed.

(** C36. Whatever bytes arrive, the parser never appends to a header that is
    not there and throws nothing: the only operation that can go wrong is the
    arithmetic on the version numbers, which overflows on long ones.  And what
    it accepts is a valid request: the method and the header names are
    nonempty tokens, the URI has no space or control character, no header
    value has a control character (so no line break), the version is in the
    range of [int]. *)
Theorem parse_accepts_valid s :
  match parse method_start request_init s with
  | Ret (result, rest, _, r) =>
      match result with
      | good => valid_request r = true /\ exists u, s = u ++ rest
      | bad => exists u, s = u ++ rest
      | indeterminate => rest = []
      end
  | Throw _ => False
  | Undef why => why = "signed integer overflow"%string
  end.
Proof.
  assert (H : parsing_ok method_start request_init = true) by done. revert H.
  generalize method_start, request_init. induction s as [|c s IH]; intros st r H; [done|].
  cbn [parse]. pose proof (consume_ok st r c H) as Hc.
  destruct (consume r st c) as [[[result st'] r']| |]; [|done|done]. cbn in *.
  destruct result; cbn.
  - split; [done|]. by exists [c].
  - by exists [c].
  - specialize (IH st' r' Hc). destruct (parse st' r' s) as [[[[[| |] rest] ?] ?]| |]; auto.
    + destruct IH as [? [u ->]]. split; [done|]. by exists (c :: u).
    + destruct IH as [u ->]. by exists (c :: u).
Qed.

(** The overflow does happen: a version of eleven digits. *)
Example parse_overflow :
  parse method_start request_init (str "GET / HTTP/21474836470") = Undef "signed integer overflow".
Proof. reflexivity. Qed.
