(* ===== verification/HttpServer.v ===== *)
(** * HttpServer: one connection of the HTTP example

    Models demo_example/http/coroutine_http/connection.hpp
    (block_http/block_connection.hpp has the same code without [co_await]).
    What the socket delivers is the list of the results of its reads; the
    files are a parameter, what reading from a path gives. *)

From Stdlib Require Import Ascii.
From S2P Require Import Prelude Bytes Http.

(** ** URLs *)

Definition isspace (c : ascii) : bool :=
  bool_decide (c = SP) || ((9 <=? char c) && (char c <=? 13)).

Definition hex_digit (c : ascii) : option Z :=
  let c := char c in
  if (48 <=? c) && (c <=? 57) then Some (c - 48)
  else if (65 <=? c) && (c <=? 70) then Some (c - 55)
  else if (97 <=? c) && (c <=? 102) then Some (c - 87)
  else None.

(** The longest run of hexadecimal digits. *)
Fixpoint hex_digits (v : Z) (s : bytes) : Z :=
  match s with
  | [] => v
  | c :: s => match hex_digit c with Some d => hex_digits (v * 16 + d) s | None => v end
  end.

Definition hex_number (s : bytes) : option Z :=
  match s with
  | c :: _ => _ ← hex_digit c; Some (hex_digits 0 s)
  | [] => None
  end.

(** The digits may follow [0x] or [0X], which is then not a number itself. *)
Definition hex_unsigned (s : bytes) : option Z :=
  match s with
  | a :: b :: t =>
      if bool_decide (a = ascii_of_N 48) && bool_decide (b = ascii_of_N 120 \/ b = ascii_of_N 88)
      then hex_number t else hex_number s
  | _ => hex_number s
  end.

(** [is >> std::hex >> value], [is] an [istringstream] over [s]: white space,
    a sign, a base prefix and the digits, of which there must be one; what
    follows them stays in the stream.  (No overflow: [s] has two characters.) *)
Fixpoint read_hex (s : bytes) : option Z :=
  match s with
  | c :: t =>
      if isspace c then read_hex t
      else if decide (c = ascii_of_N 45) then Z.opp <$> hex_unsigned t
      else if decide (c = ascii_of_N 43) then hex_unsigned t
      else hex_unsigned s
  | [] => None
  end.

(** [static_cast<char>(value)]. *)
Definition to_char (value : Z) : ascii := ascii_of_N (Z.to_N (u8 value)).

(** [url_decode]: [None] when it returns false. *)
Fixpoint url_decode (s : bytes) : option bytes :=
  match s with
  | [] => Some []
  | c :: t =>
      if decide (c = PERCENT) then
        match t with
        | a :: b :: u =>
            value ← read_hex [a; b];
            out ← url_decode u;
            Some (to_char value :: out)
        | _ => None
        end
      else if decide (c = PLUS) then cons SP <$> url_decode t
      else cons c <$> url_decode t
  end.

(** ** Paths *)

(** The extension; [npos] is larger than every position. *)
Definition path_extension (path : bytes) : bytes :=
  match find_last_of DOT path, find_last_of SLASH path with
  | Some dot, Some slash => if (slash <? dot)%nat then drop (S dot) path else []
  | _, _ => []
  end.

(** ** Files *)

(** The reads of 512 characters of a stream that has [left] left, until one of
    them reads nothing. *)
Fixpoint read_file (fuel : nat) (left content : bytes) : option bytes :=
  match fuel with
  | O => None
  | S fuel =>
      let buf := take 512 left in
      if decide (buf = []) then Some content
      else read_file fuel (drop 512 left) (content ++ buf)
  end.

(** A proper prefix is a prefix of all but the last element. *)
Lemma proper_prefix_snoc {A} (a b s e : list A) x :
  a ++ b = (s ++ [x]) ++ e -> (length a <= length s)%nat -> exists s', s = a ++ s' /\ b = s' ++ [x] ++ e.
Proof.
  rewrite <- app_assoc. intros H Hlen. apply app_eq_inv in H as [(k & -> & H)|(k & -> & H)].
  - rewrite length_app in Hlen. destruct k; [|cbn in Hlen; lia]. exists []. rewrite !app_nil_r. auto.
  - exists k. auto.
Qed.

Lemma read_file_content fuel left content :
  (length left < fuel)%nat -> read_file fuel left content = Some (content ++ left).
Proof.
  revert left content. induction fuel as [|fuel IH]; intros left content Hlen; [lia|].
  cbn [read_file]. destruct (decide (take 512 left = [])) as [E|E].
  - apply take_nil_inv in E as [E| ->]; [done|]. by rewrite app_nil_r.
  - rewrite IH; [|rewrite length_drop; destruct left; cbn in *; [done|lia]].
    by rewrite <- app_assoc, take_drop.
Qed.

(** The paths under the root: absolute, without [..], without a NUL. *)
Definition confined (p : bytes) : bool :=
  bool_decide (head p = Some SLASH) && bool_decide (find [DOT; DOT] p = None) &&
  bool_decide (NUL ∉ p).

Lemma c_str_confined p :
  head p = Some SLASH -> find [DOT; DOT] p = None -> confined (c_str p) = true.
Proof.
  intros Hh Hf. unfold confined. rewrite !andb_true_iff, !bool_decide_eq_true.
  repeat split; [|rewrite find_None in *|apply c_str_no_nul].
  - destruct p as [|c p]; [done|]. injection Hh as ->. done.
  - intros (a & b & E). apply Hf. destruct (c_str_prefix p) as [t Ht].
    exists a, (b ++ t). by rewrite Ht, E, <- !app_assoc.
Qed.

Section connection.
(** What opening a path for reading gives: nothing when it fails, what can be
    read otherwise. *)
Variable open_file : bytes -> option bytes.
Variable doc_root_ : bytes.

Definition handle_request (req : request) (rep : response) : response :=
  match url_decode (r_uri req) with
  | None => build_response bad_request
  | Some request_path =>
      if bool_decide (request_path = []) || negb (bool_decide (head request_path = Some SLASH)) ||
         bool_decide (is_Some (find [DOT; DOT] request_path))
      then build_response bad_request
      else if decide (last request_path = Some SLASH) then build_response ok
      else
        let extension := path_extension request_path in
        match open_file (c_str (doc_root_ ++ request_path)) with
        | None => build_response not_found
        | Some file =>
            let content := default [] (read_file (S (length file)) file (content rep)) in
            Response (Some ok) (content_headers content (extension_to_type extension)) content
        end
  end.

(** [is_keep_alive], on the request just handled. *)
Definition is_keep_alive (req : request) : bool :=
  forallb (fun h => negb (bool_decide (name h = str "Connection" /\ h_value h = str "close")))
    (headers req).

Record connection := Connection {
  parser_ : state;
  request_ : request;
  response_ : response;
}.

Definition connection_init : connection := Connection method_start request_init response_init.

(** What one round of [start] writes, and whether there is another one.  The
    read gives an error or some bytes; the result of the write is not looked
    at, nor is the position at which the parser stopped. *)
Definition on_read (c : connection) (read : option bytes)
    : outcome (list bytes * connection * bool) :=
  match read with
  | None => Ret ([], c, false)
  | Some bytes_read =>
      '(result, _, parser_, request_) ← parse (parser_ c) (request_ c) bytes_read;
      match result with
      | good =>
          let response_ := handle_request request_ (response_ c) in
          if is_keep_alive request_
          then Ret ([mjoin (to_buffers response_)], connection_init, true)
          else Ret ([mjoin (to_buffers response_)], Connection parser_ request_ response_, false)
      | bad =>
          let response_ := build_response bad_request in
          Ret ([mjoin (to_buffers response_)], Connection parser_ request_ response_, false)
      | indeterminate => Ret ([], Connection parser_ request_ (response_ c), true)
      end
  end.

(** [start]: what is written while the reads are as given, and whether it
    still waits for another. *)
Fixpoint start (c : connection) (reads : list (option bytes))
    : outcome (list bytes * connection * bool) :=
  match reads with
  | [] => Ret ([], c, true)
  | read :: reads =>
      '(written, c, again) ← on_read c read;
      if (again : bool)
      then '(written', c, again) ← start c reads; Ret (written ++ written', c, again)
      else Ret (written, c, false)
  end.

(** ** Requests that arrive in pieces *)

Lemma start_eats c pieces st req reads :
  eats (parser_ c) (request_ c) (mjoin pieces) st req ->
  start c ((Some <$> pieces) ++ reads) = start (Connection st req (response_ c)) reads.
Proof.
  revert c. induction pieces as [|p pieces IH]; intros [st0 r0 rep0] H; cbn in H.
  { unfold eats in H. cbn in H. by injection H as <- <-. }
  unfold eats in H. rewrite parse_app in H. cbn in H.
  cbn. destruct (parse st0 r0 p) as [[[[result rest] st1] r1]| |]; [|done|done].
  cbn in H. destruct result; [done|done|]. cbn.
  rewrite (IH (Connection st1 r1 rep0)) by exact H. cbn.
  by destruct (start (Connection st req rep0) reads) as [[[? ?] ?]| |].
Qed.

(** C37. A valid request is served the same however the network cuts it into
    reads: nothing is written before the read that completes it, then the
    response of [handle_request] to exactly that request, once, and the loop
    goes on from its initial state unless a header says [Connection: close].
    What the last read brings after the request, such as the start of a
    pipelined one, is not looked at. *)
Theorem served_in_pieces r pieces last extra more :
  valid_request r = true ->
  mjoin pieces ++ last = print_request r ++ extra ->
  (length (mjoin pieces) < length (print_request r))%nat ->
  let rep := handle_request r response_init in
  start connection_init ((Some <$> pieces) ++ Some last :: more) =
  if is_keep_alive r
  then '(written, c, again) ← start connection_init more;
       Ret (mjoin (to_buffers rep) :: written, c, again)
  else Ret ([mjoin (to_buffers rep)], Connection expecting_newline_3 r rep, false).
Proof.
  intros (s & Hp & Hs)%eats_request Hcut Hlen rep. rewrite Hp in Hcut, Hlen.
  rewrite length_app in Hlen. cbn in Hlen.
  destruct (proper_prefix_snoc _ _ _ _ _ Hcut) as (s' & -> & ->); [lia|].
  apply eats_split in Hs as (st1 & req1 & H1 & H2).
  rewrite (start_eats connection_init pieces st1 req1) by exact H1. cbn [start on_read parser_ request_].
  rewrite (eats_parse _ _ _ _ _ _ H2).
  change (parse expecting_newline_3 r ([LF] ++ extra)) with
    (@Ret (result_type * bytes * state * request) (good, extra, expecting_newline_3, r)).
  cbn -[mjoin to_buffers]. destruct (is_keep_alive r); [|done].
  cbn [mbind outcome_bind]. by destruct (start connection_init more) as [[[? ?] ?]| |].
Qed.

(** The answer is a page of the server, or a file of the root. *)
Lemma handle_request_file req rep :
  content rep = [] ->
  handle_request req rep = build_response ok \/ handle_request req rep = build_response bad_request \/
  handle_request req rep = build_response not_found \/
  exists p file, open_file (c_str (doc_root_ ++ p)) = Some file /\
    head p = Some SLASH /\ find [DOT; DOT] p = None /\
    handle_request req rep =
      Response (Some ok) (content_headers file (extension_to_type (path_extension p))) file.
Proof.
  intros Hrep. unfold handle_request. destruct (url_decode (r_uri req)) as [p|]; [|auto].
  destruct (_ || _) eqn:E; [auto|]. apply orb_false_iff in E as [E1 E2].
  apply orb_false_iff in E1 as [_ E1]. apply negb_false_iff, bool_decide_eq_true in E1.
  apply bool_decide_eq_false, eq_None_not_Some in E2.
  destruct (decide (last p = Some SLASH)); [auto|].
  destruct (open_file (c_str (doc_root_ ++ p))) as [file|] eqn:Hfile; [|auto].
  rewrite read_file_content by lia. rewrite Hrep. cbn [app default]. eauto 10.
Qed.

End connection.

(** C38. A request reads nothing outside the document root.  Two file systems
    with the same files at [doc_root] followed by an absolute path without
    [..] give the same response to every request, whatever escapes its URL
    has; and the response is either one of three fixed pages, or the whole
    content of such a file with a [Content-Length] that is the number of its
    bytes. *)
Theorem handle_request_confined open_file open_file' doc_root req rep :
  NUL ∉ doc_root -> content rep = [] ->
  (forall p, confined p = true -> open_file (doc_root ++ p) = open_file' (doc_root ++ p)) ->
  handle_request open_file doc_root req rep = handle_request open_file' doc_root req rep /\
  (handle_request open_file doc_root req rep ∈ build_response <$> [ok; bad_request; not_found] \/
   exists p file type, confined p = true /\ open_file (doc_root ++ p) = Some file /\
     handle_request open_file doc_root req rep =
       Response (Some ok)
         [Header (str "Content-Length") (dec (Z.of_nat (length file)));
          Header (str "Content-Type") type] file).
Proof.
  intros Hroot Hrep Hsame. split.
  - unfold handle_request. destruct (url_decode (r_uri req)) as [p|]; [|done].
    destruct (_ || _) eqn:E; [done|]. destruct (decide _); [done|].
    apply orb_false_iff in E as [E1 E2].
    apply orb_false_iff in E1 as [_ E1]. apply negb_false_iff, bool_decide_eq_true in E1.
    apply bool_decide_eq_false, eq_None_not_Some in E2.
    rewrite c_str_app by done. by rewrite Hsame by by apply c_str_confined.
  - destruct (handle_request_file open_file doc_root req rep Hrep)
      as [-> |[-> |[-> |(p & file & Hfile & Hh & Hf & ->)]]]; [set_solver..|].
    right. rewrite c_str_app in Hfile by done.
    eexists (c_str p), file, _. split; [by apply c_str_confined|]. split; [done|]. done.
Qed.

(** *** Examples *)

Definition sample_files (path : bytes) : option bytes :=
  if decide (path = str "./a b") then Some (str "hello") else None.

Definition sample_uri (s : string) : request := Request (str "GET") (str s) 1 1 [].

Lemma served_in_pieces_witness :
  valid_request (sample_uri "/a%20b") = true /\
  start sample_files (str ".") connection_init
    [Some (str "GET /a"); Some (str "%20b HT");
     Some (str "TP/1.1" ++ crlf ++ crlf ++ str "GET / HTTP"); None] =
  Ret ([str "HTTP/1.1 200 OK" ++ crlf ++ str "Content-Length: 5" ++ crlf ++
        str "Content-Type: text/plain" ++ crlf ++ crlf ++ str "hello"], connection_init, false).
Proof.
  split; [reflexivity|].
  apply (served_in_pieces sample_files (str ".") (sample_uri "/a%20b")
           [str "GET /a"; str "%20b HT"] (str "TP/1.1" ++ crlf ++ crlf ++ str "GET / HTTP")
           (str "GET / HTTP") [None]); [reflexivity|reflexivity|cbn; lia].
Defined.

Lemma handle_request_confined_witness :
  (NUL ∉ str ".") /\
  handle_request sample_files (str ".") (sample_uri "/a%20b") response_init =
  handle_request (fun p => if decide (p = str "/etc/passwd") then Some (str "root") else sample_files p)
    (str ".") (sample_uri "/a%20b") response_init.
Proof.
  assert (H : NUL ∉ str ".") by (by apply (bool_decide_unpack _)). split; [exact H|].
  apply (handle_request_confined _ _ (str ".")); [exact H|reflexivity|].
  intros p _. by rewrite decide_False.
Defined.

(** Escapes as [operator>>] reads them: [%2F%2E%2E] is refused by the path
    check and not by the decoder; a lone digit, a sign and a blank are taken. *)
Example url_decode_escapes :
  url_decode (str "%2F%2e%2E") = Some (str "/..") /\
  url_decode (str "%4g%+5% 6%-1") = Some (ascii_of_N <$> [4; 5; 6; 255]%N) /\
  url_decode (str "%0x") = None /\ url_decode (str "%g0") = None /\ url_decode (str "%4") = None /\
  url_decode (str "%zz") = None.
Proof. repeat split. Qed.
