(* ===== verification/Smtp.v ===== *)
(** * Smtp: the mail client example

    Models demo_example/smtp/smtp_client.cpp: Base64 on signed [char]s, the
    text of the session and of the attachment, and the wait for the answer.
    The files are a parameter; the socket is the list of what its reads give. *)

From Stdlib Require Import Ascii.
From S2P Require Import Prelude Bytes.

(** ** Base64 *)

Definition base64_chars : bytes :=
  str "ABCDEFGHIJKLMNOPQRSTUVWXYZabcdefghijklmnopqrstuvwxyz0123456789+/".

(** [base64_chars[i]], [i] a [char]: it is converted to [size_t]; at the size
    of the string the character is NUL, past it the index is out of range. *)
Definition base64_at (i : Z) : outcome ascii :=
  if (0 <=? i) && (i <? 64) then Ret (nth (Z.to_nat i) base64_chars NUL)
  else if i =? 64 then Ret NUL
  else Undef "index out of range".

(** The four sextets of the three [char]s [c0], [c1], [c2]. *)
Definition sextets (c0 c1 c2 : Z) : list Z :=
  [Z.shiftr (Z.land c0 252) 2;
   Z.shiftl (Z.land c0 3) 4 + Z.shiftr (Z.land c1 240) 4;
   Z.shiftl (Z.land c1 15) 2 + Z.shiftr (Z.land c2 192) 6;
   Z.land c2 63].

(** The loop: [char_array_3] holds the characters that wait, [ret] the text. *)
Fixpoint encode_loop (char_array_3 s ret : bytes) : outcome (bytes * bytes) :=
  match s with
  | [] => Ret (char_array_3, ret)
  | c :: s =>
      match char_array_3 ++ [c] with
      | [c0; c1; c2] =>
          four ← mapM (fun i => base64_at (s8 i)) (sextets (char c0) (char c1) (char c2));
          encode_loop [] s (ret ++ four)
      | char_array_3 => encode_loop char_array_3 s ret
      end
  end.

(** After the loop: the characters that are left, filled up with NUL. *)
Definition encode_rest (char_array_3 : bytes) : outcome bytes :=
  match char_array_3 with
  | [] => Ret []
  | _ =>
      let i := length char_array_3 in
      let c k := char (nth k char_array_3 NUL) in
      four ← mapM (fun i => base64_at (s8 i)) (take (S i) (sextets (c 0%nat) (c 1%nat) (c 2%nat)));
      Ret (four ++ replicate (3 - i) "="%char)
  end.

Definition base64_encode (s : bytes) : outcome bytes :=
  '(char_array_3, ret) ← encode_loop [] s [];
  rest ← encode_rest char_array_3;
  Ret (ret ++ rest).

(** [isalnum] takes a value of [unsigned char] or [EOF]. *)
Definition isalnum (c : Z) : outcome bool :=
  if (c <? -1) then Undef "isalnum of a negative character"
  else Ret (((48 <=? c) && (c <=? 57)) || ((65 <=? c) && (c <=? 90)) || ((97 <=? c) && (c <=? 122))).

Definition is_base64 (c : ascii) : outcome bool :=
  alnum ← isalnum (char c);
  Ret (alnum || bool_decide (c = "+"%char) || bool_decide (c = "/"%char)).

(** [char_array_4[j] = base64_chars.find(char_array_4[j])]; [npos] becomes -1. *)
Definition find_char (c : ascii) : Z :=
  match find [c] base64_chars with Some n => Z.of_nat n | None => -1 end.

(** The three bytes of four sextets. *)
Definition octets (c0 c1 c2 c3 : Z) : list Z :=
  [Z.shiftl c0 2 + Z.shiftr (Z.land c1 48) 4;
   Z.shiftl (Z.land c1 15) 4 + Z.shiftr (Z.land c2 60) 2;
   Z.shiftl (Z.land c2 3) 6 + c3].

Definition decode_four (four : bytes) : bytes :=
  let c k := find_char (nth k four NUL) in
  (fun b => ascii_of_N (Z.to_N (u8 b))) <$> octets (c 0%nat) (c 1%nat) (c 2%nat) (c 3%nat).

(** The loop at [s], what is left of the string: [in_len] counts down and [in_]
    up, both are [int]s. *)
Fixpoint decode_loop (in_len in_ : Z) (char_array_4 s ret : bytes) : outcome (bytes * bytes) :=
  if in_len =? 0 then Ret (char_array_4, ret)
  else if in_len =? - 2 ^ 31 then Undef "signed integer overflow"
  else match s with
  | [] => Ret (char_array_4, ret)
  | c :: s =>
      if decide (c = "="%char) then Ret (char_array_4, ret)
      else
        b ← is_base64 c;
        if negb b then Ret (char_array_4, ret)
        else if in_ =? INT_MAX then Undef "signed integer overflow"
        else match char_array_4 ++ [c] with
        | [_; _; _; _] as four =>
            decode_loop (in_len - 1) (in_ + 1) [] s (ret ++ decode_four four)
        | char_array_4 => decode_loop (in_len - 1) (in_ + 1) char_array_4 s ret
        end
  end.

(** After the loop: the characters that are left give one byte less. *)
Definition decode_rest (char_array_4 : bytes) : bytes :=
  match char_array_4 with
  | [] => []
  | _ => take (length char_array_4 - 1) (decode_four char_array_4)
  end.

Definition base64_decode (s : bytes) : outcome bytes :=
  '(char_array_4, ret) ← decode_loop (s32 (Z.of_nat (length s))) 0 [] s [];
  Ret (ret ++ decode_rest char_array_4).

(** ** The text of the mail *)

Record email_server := EmailServer {
  server : bytes; port : bytes; user : bytes; password : bytes;
}.
Record email_data := EmailData {
  from_email : bytes; to_email : list bytes; subject : bytes; text : bytes; filepath : bytes;
}.

Definition quote : bytes := [ascii_of_N 34].
Definition line (l : list bytes) : bytes := mjoin l ++ crlf.

Definition get_separator : ascii := SLASH.

Definition build_smtp_content (data_ : email_data) : bytes :=
  line [str "Content-Type: multipart/mixed; boundary="; quote; str "async_simple"; quote; crlf] ++
  line [str "--async_simple"; crlf; str "Content-Type: text/plain;"; crlf] ++
  line [text data_; crlf].

(** The rows of the attachment from row [i]: [substr] throws past the end of
    the string.  [fuel] bounds the rows that can be read. *)
Fixpoint rows (fuel : nat) (i no_of_rows : Z) (encoded : bytes) : outcome (list bytes) :=
  match fuel with
  | O => Undef "out of fuel"
  | S fuel =>
      if i =? no_of_rows then Ret []
      else if INT_MAX <? i * 1024 then Undef "signed integer overflow"
      else if Z.of_nat (length encoded) <? i * 1024 then Throw (LogicError "basic_string::substr")
      else
        rest ← rows fuel (i + 1) no_of_rows encoded;
        Ret (take 1024 (drop (Z.to_nat (i * 1024)) encoded) :: rest)
  end.

(** [int no_of_rows = (int)file_size / SEND_BUF_SIZE + 1]. *)
Definition row_count (file_size : Z) : Z := Z.quot (s32 file_size) 1024 + 1.

Definition attachment_rows (file_content : bytes) : outcome (list bytes) :=
  encoded ← base64_encode file_content;
  rows (S (S (length encoded))) 0 (row_count (Z.of_nat (length file_content))) encoded.

Section mail.
(** What reading the file of a path gives; nothing if it cannot be opened. *)
Variable read_path : bytes -> option bytes.

Definition load_file_contents (filepath : bytes) : outcome bytes :=
  match read_path (c_str filepath) with
  | None => Throw (LogicError (String.string_of_list_ascii (filepath ++ str " not exist")))
  | Some content => Ret content
  end.

Definition build_smtp_file (data_ : email_data) : outcome bytes :=
  match filepath data_ with
  | [] => Ret []
  | path =>
      let filename :=
        match find_last_of get_separator path with Some n => drop (S n) path | None => path end in
      file_content ← load_file_contents path;
      body ← attachment_rows file_content;
      Ret (
        line [str "--async_simple"; crlf; str "Content-Type: application/octet-stream; name=";
              quote; filename; quote] ++
        line [str "Content-Transfer-Encoding: base64"] ++
        line [str "Content-Disposition: attachment; filename="; quote; filename; quote] ++
        line [] ++
        (body ≫= fun sub_buf => line [sub_buf]))
  end.

Definition build_request (server_ : email_server) (data_ : email_data) : outcome bytes :=
  user64 ← base64_encode (user server_);
  password64 ← base64_encode (password server_);
  file ← build_smtp_file data_;
  Ret (
    line [str "EHLO "; server server_] ++
    line [str "AUTH LOGIN"] ++
    line [user64] ++
    line [password64] ++
    line [str "MAIL FROM:<"; from_email data_; str ">"] ++
    (to_email data_ ≫= fun to => line [str "RCPT TO:<"; to; str ">"]) ++
    line [str "DATA"] ++
    line [str "FROM: "; from_email data_] ++
    (to_email data_ ≫= fun to => line [str "TO: "; to]) ++
    line [str "SUBJECT: "; subject data_] ++
    build_smtp_content data_ ++
    file ++
    line [str "--async_simple--"] ++
    line [str "."]).
End mail.

(** [send_email]: the host of the server's URL. *)
Definition host_of (server_ : email_server) : bytes :=
  match find (str "://") (server server_) with
  | Some pos => drop (pos + 3) (server server_)
  | None => server server_
  end.

(** The loop that waits for the answer: the number of reads it takes, or the
    exception of a failed read ([None]).  [Undef] when the reads given end
    before. *)
Fixpoint await_mail_ok (reads : list (option bytes)) : outcome nat :=
  match reads with
  | [] => Undef "waiting"
  | None :: _ => Throw (RuntimeError "read failed")
  | Some content :: reads =>
      if decide (is_Some (find (str "250 Mail OK") content)) then Ret 1%nat
      else S <$> await_mail_ok reads
  end.

(** ** Base64 as RFC 4648 defines it *)

Definition byte (c : ascii) : Z := Z.of_N (N_of_ascii c).
Definition b64 (n : Z) : ascii := nth (Z.to_nat n) base64_chars NUL.

(** Three bytes are one number of 24 bits, cut into four sextets; a shorter
    end is filled up with zero bits and the text with [=]. *)
Fixpoint rfc4648 (s : bytes) : bytes :=
  match s with
  | a :: b :: c :: s =>
      let n := byte a * 65536 + byte b * 256 + byte c in
      [b64 (n / 262144); b64 (n / 4096 mod 64); b64 (n / 64 mod 64); b64 (n mod 64)] ++ rfc4648 s
  | [a; b] =>
      let n := (byte a * 256 + byte b) * 4 in
      [b64 (n / 4096); b64 (n / 64 mod 64); b64 (n mod 64); "="%char]
  | [a] =>
      let n := byte a * 16 in [b64 (n / 64); b64 (n mod 64); "="%char; "="%char]
  | [] => []
  end.

Lemma byte_range c : 0 <= byte c < 256.
Proof. unfold byte. pose proof (N_ascii_bounded c). lia. Qed.

Lemma char_byte c : char c = byte c \/ char c = byte c - 256.
Proof.
  pose proof (byte_range c). unfold char, s8. fold (byte c).
  destruct (decide (byte c < 128)); [left|right].
  - rewrite Z.mod_small by lia. lia.
  - replace (byte c + 2 ^ 7) with (byte c - 128 + 1 * 2 ^ 8) by lia.
    rewrite Z.mod_add, Z.mod_small by lia. lia.
Qed.

(** Bits [m] to [m + k - 1] of a number. *)
Lemma bit_field x k m mask :
  0 <= k -> 0 <= m -> mask = Z.shiftl (Z.ones k) m ->
  Z.shiftr (Z.land x mask) m = (x / 2 ^ m) mod 2 ^ k.
Proof.
  intros ? ? ->. rewrite Z.shiftr_land, Z.shiftr_shiftl_l, Z.sub_diag, Z.shiftl_0_r by lia.
  by rewrite Z.land_ones, Z.shiftr_div_pow2.
Qed.

Lemma low_bits x k mask : 0 <= k -> mask = Z.ones k -> Z.land x mask = x mod 2 ^ k.
Proof. intros ? ->. by apply Z.land_ones. Qed.

(** The bit operations of the code as quotients and remainders. *)
Ltac bits :=
  rewrite ?Z.shiftl_mul_pow2 by lia;
  repeat match goal with
  | |- context [Z.shiftr (Z.land ?x 252) 2] => rewrite (bit_field x 6 2 252) by done
  | |- context [Z.shiftr (Z.land ?x 240) 4] => rewrite (bit_field x 4 4 240) by done
  | |- context [Z.shiftr (Z.land ?x 192) 6] => rewrite (bit_field x 2 6 192) by done
  | |- context [Z.shiftr (Z.land ?x 48) 4] => rewrite (bit_field x 2 4 48) by done
  | |- context [Z.shiftr (Z.land ?x 60) 2] => rewrite (bit_field x 4 2 60) by done
  | |- context [Z.land ?x 3] => rewrite (low_bits x 2 3) by done
  | |- context [Z.land ?x 15] => rewrite (low_bits x 4 15) by done
  | |- context [Z.land ?x 63] => rewrite (low_bits x 6 63) by done
  end.

(** The sign of a [char] is above the bits that are used. *)
Lemma char_field c m k : 0 <= m -> 0 <= k -> m + k <= 8 ->
  (char c / 2 ^ m) mod 2 ^ k = (byte c / 2 ^ m) mod 2 ^ k.
Proof.
  intros. destruct (char_byte c) as [-> | ->]; [done|].
  replace 256 with (2 ^ (8 - m - k) * 2 ^ k * 2 ^ m) by (rewrite <- !Z.pow_add_r by lia; by replace (8 - m - k + k + m) with 8 by lia).
  replace (byte c - _) with (byte c + - (2 ^ (8 - m - k) * 2 ^ k) * 2 ^ m) by ring.
  rewrite Z.div_add by (apply Z.pow_nonzero; lia).
  rewrite <- Z.mul_opp_l. apply Z.mod_add, Z.pow_nonzero; lia.
Qed.

Lemma char_low c k : 0 <= k <= 8 -> char c mod 2 ^ k = byte c mod 2 ^ k.
Proof. intros Hk. pose proof (char_field c 0 k) as E. rewrite !Z.div_1_r in E. apply E; lia. Qed.

Lemma sextets_char a b c :
  let n := byte a * 65536 + byte b * 256 + byte c in
  sextets (char a) (char b) (char c) =
  [n / 262144; n / 4096 mod 64; n / 64 mod 64; n mod 64].
Proof.
  intros n. unfold sextets, n. bits.
  rewrite (char_field a 2 6), (char_field b 4 4), (char_field c 6 2), (char_low a 2), (char_low b 4),
    (char_low c 6) by lia.
  pose proof (byte_range a). pose proof (byte_range b). pose proof (byte_range c).
  f_equal; [|f_equal; [|f_equal; [|f_equal]]].
  all: Z.to_euclidean_division_equations; lia.
Qed.

Lemma base64_at_b64 i : 0 <= i < 64 -> base64_at (s8 i) = Ret (b64 i).
Proof.
  intros. unfold base64_at, s8. rewrite Z.mod_small by lia. rewrite Z.add_simpl_r.
  rewrite (proj2 (Z.leb_le 0 i)), (proj2 (Z.ltb_lt i 64)) by lia. done.
Qed.

Lemma mapM_b64 l : Forall (fun i => 0 <= i < 64) l ->
  mapM (fun i => base64_at (s8 i)) l = Ret (b64 <$> l).
Proof.
  induction 1 as [|i l Hi _ IH]; [done|]. cbn in *. by rewrite base64_at_b64, IH.
Qed.

Lemma sextets_range a b c : Forall (fun i => 0 <= i < 64) (sextets (char a) (char b) (char c)).
Proof.
  rewrite sextets_char. pose proof (byte_range a). pose proof (byte_range b). pose proof (byte_range c).
  cbv zeta. rewrite !Forall_cons, Forall_nil. repeat split;
    Z.to_euclidean_division_equations; lia.
Qed.

Lemma mapM_sextets k a b c :
  mapM (fun i => base64_at (s8 i)) (take k (sextets (char a) (char b) (char c))) =
  Ret (b64 <$> take k (sextets (char a) (char b) (char c))).
Proof. apply mapM_b64, Forall_take, sextets_range. Qed.

Lemma char_NUL : char NUL = 0 /\ byte NUL = 0.
Proof. done. Qed.

(** Induction on a string by groups of three. *)
Lemma bytes_ind3 (P : bytes -> Prop) :
  P [] -> (forall a, P [a]) -> (forall a b, P [a; b]) ->
  (forall a b c s, P s -> P (a :: b :: c :: s)) -> forall s, P s.
Proof.
  intros H0 H1 H2 H3. fix IH 1. intros [|a [|b [|c s]]]; [apply H0|apply H1|apply H2|apply H3, IH].
Qed.

Lemma encode_rest_1 a : encode_rest [a] = Ret (rfc4648 [a]).
Proof.
  change (encode_rest [a]) with
    (four ← mapM (fun i => base64_at (s8 i)) (take 2 (sextets (char a) (char NUL) (char NUL)));
     Ret (four ++ ["="%char; "="%char])).
  rewrite mapM_sextets, sextets_char, (proj2 char_NUL). pose proof (byte_range a).
  cbn -[b64 Z.add Z.mul Z.div Z.modulo]. do 2 f_equal; [|f_equal]; f_equal;
    Z.to_euclidean_division_equations; lia.
Qed.

Lemma encode_rest_2 a b : encode_rest [a; b] = Ret (rfc4648 [a; b]).
Proof.
  change (encode_rest [a; b]) with
    (four ← mapM (fun i => base64_at (s8 i)) (take 3 (sextets (char a) (char b) (char NUL)));
     Ret (four ++ ["="%char])).
  rewrite mapM_sextets, sextets_char, (proj2 char_NUL). pose proof (byte_range a). pose proof (byte_range b).
  cbn -[b64 Z.add Z.mul Z.div Z.modulo]. do 2 f_equal; [|f_equal; [|f_equal]]; f_equal;
    Z.to_euclidean_division_equations; lia.
Qed.

Lemma encode_loop_3 a b c s ret :
  encode_loop [] (a :: b :: c :: s) ret =
  encode_loop [] s (ret ++ (b64 <$> sextets (char a) (char b) (char c))).
Proof.
  change (encode_loop [] (a :: b :: c :: s) ret) with
    (four ← mapM (fun i => base64_at (s8 i)) (take 4 (sextets (char a) (char b) (char c)));
     encode_loop [] s (ret ++ four)).
  by rewrite mapM_sextets.
Qed.

Lemma encode_rfc s ret :
  ('(char_array_3, ret) ← encode_loop [] s ret;
   rest ← encode_rest char_array_3;
   Ret (ret ++ rest)) = Ret (ret ++ rfc4648 s).
Proof.
  revert ret. induction s as [|a|a b|a b c s IH] using bytes_ind3; intros ret.
  - done.
  - cbn [encode_loop app mbind outcome_bind]. by rewrite encode_rest_1.
  - cbn [encode_loop app mbind outcome_bind]. by rewrite encode_rest_2.
  - by rewrite encode_loop_3, IH, sextets_char, <- app_assoc.
Qed.

Lemma base64_encode_rfc s : base64_encode s = Ret (rfc4648 s).
Proof. apply encode_rfc. Qed.

(** ** Decoding *)

Definition sextet_char_ok (n : Z) : bool :=
  bool_decide (find_char (b64 n) = n) && bool_decide (is_base64 (b64 n) = Ret true) &&
  negb (bool_decide (b64 n = "="%char)).

Lemma sextet_chars n : 0 <= n < 64 ->
  find_char (b64 n) = n /\ is_base64 (b64 n) = Ret true /\ b64 n <> "="%char.
Proof.
  intros Hn.
  assert (H : forallb sextet_char_ok (seqZ 0 64) = true) by (vm_compute; reflexivity).
  rewrite forallb_forall in H. specialize (H n).
  rewrite <- list_elem_of_In, elem_of_seqZ in H. specialize (H ltac:(lia)).
  unfold sextet_char_ok in H. rewrite !andb_true_iff, negb_true_iff, !bool_decide_eq_true,
    bool_decide_eq_false in H. tauto.
Qed.

(** One sextet is read. *)
Lemma decode_loop_step in_len in_ arr n s ret :
  0 < in_len -> in_ < INT_MAX -> 0 <= n < 64 ->
  decode_loop in_len in_ arr (b64 n :: s) ret =
  match arr ++ [b64 n] with
  | [_; _; _; _] as four => decode_loop (in_len - 1) (in_ + 1) [] s (ret ++ decode_four four)
  | arr => decode_loop (in_len - 1) (in_ + 1) arr s ret
  end.
Proof.
  intros Hlen Hin Hn. destruct (sextet_chars n Hn) as (_ & Hb & He).
  cbn [decode_loop]. rewrite (proj2 (Z.eqb_neq in_len 0)), (proj2 (Z.eqb_neq in_len _)) by lia.
  rewrite decide_False by done. rewrite Hb. cbn [mbind outcome_bind negb].
  by rewrite (proj2 (Z.eqb_neq in_ INT_MAX)) by lia.
Qed.

Lemma decode_loop_stop in_len in_ arr s ret :
  0 < in_len -> decode_loop in_len in_ arr ("="%char :: s) ret = Ret (arr, ret).
Proof.
  intros. cbn [decode_loop].
  by rewrite (proj2 (Z.eqb_neq in_len 0)), (proj2 (Z.eqb_neq in_len _)) by lia.
Qed.

Lemma ascii_byte v c : u8 v = byte c -> ascii_of_N (Z.to_N (u8 v)) = c.
Proof. intros ->. unfold byte. by rewrite N2Z.id, ascii_N_embedding. Qed.

Lemma decode_four_sextets c0 c1 c2 c3 :
  0 <= c0 < 64 -> 0 <= c1 < 64 -> 0 <= c2 < 64 -> 0 <= c3 < 64 ->
  decode_four [b64 c0; b64 c1; b64 c2; b64 c3] =
  (fun b => ascii_of_N (Z.to_N (u8 b))) <$> octets c0 c1 c2 c3.
Proof.
  intros H0 H1 H2 H3. unfold decode_four. cbn [nth].
  by rewrite !(fun n H => proj1 (sextet_chars n H)) by done.
Qed.

Lemma octets_bytes a b c :
  let n := byte a * 65536 + byte b * 256 + byte c in
  (fun b => ascii_of_N (Z.to_N (u8 b))) <$>
    octets (n / 262144) (n / 4096 mod 64) (n / 64 mod 64) (n mod 64) = [a; b; c].
Proof.
  intros n. pose proof (byte_range a). pose proof (byte_range b). pose proof (byte_range c).
  unfold octets. bits. unfold n. cbn [fmap list_fmap].
  f_equal; [|f_equal; [|f_equal]]; apply ascii_byte; unfold u8;
    Z.to_euclidean_division_equations; lia.
Qed.

Lemma decode_rest_1 a :
  let n := byte a * 16 in decode_rest [b64 (n / 64); b64 (n mod 64)] = [a].
Proof.
  intros n. pose proof (byte_range a). unfold decode_rest, decode_four. cbn [length Nat.sub nth].
  rewrite !(fun n H => proj1 (sextet_chars n H)) by (unfold n; Z.to_euclidean_division_equations; lia).
  unfold octets. bits. cbn [fmap list_fmap take]. f_equal. apply ascii_byte. unfold u8, n.
  Z.to_euclidean_division_equations; lia.
Qed.

Lemma decode_rest_2 a b :
  let n := (byte a * 256 + byte b) * 4 in
  decode_rest [b64 (n / 4096); b64 (n / 64 mod 64); b64 (n mod 64)] = [a; b].
Proof.
  intros n. pose proof (byte_range a). pose proof (byte_range b).
  unfold decode_rest, decode_four. cbn [length Nat.sub nth].
  rewrite !(fun n H => proj1 (sextet_chars n H)) by (unfold n; Z.to_euclidean_division_equations; lia).
  unfold octets. bits. cbn [fmap list_fmap take].
  f_equal; [|f_equal]; apply ascii_byte; unfold u8, n; Z.to_euclidean_division_equations; lia.
Qed.

(** A whole group is read. *)
Lemma decode_loop_3 a b c in_len in_ s ret :
  4 <= in_len -> in_ + 4 <= INT_MAX ->
  decode_loop in_len in_ [] (rfc4648 (a :: b :: c :: s)) ret =
  decode_loop (in_len - 4) (in_ + 4) [] (rfc4648 s) (ret ++ [a; b; c]).
Proof.
  intros Hlen Hin. cbn [rfc4648 app]. set (n := byte a * 65536 + byte b * 256 + byte c).
  pose proof (byte_range a). pose proof (byte_range b). pose proof (byte_range c).
  assert (Hn : 0 <= n < 16777216) by lia.
  do 4 (rewrite decode_loop_step by (first [lia | Z.to_euclidean_division_equations; lia]); cbn [app]).
  rewrite decode_four_sextets by (Z.to_euclidean_division_equations; lia).
  unfold n at 1 2 3 4. rewrite octets_bytes.
  f_equal; lia.
Qed.

Lemma length_rfc s : length (rfc4648 s) = (4 * ((length s + 2) / 3))%nat.
Proof.
  induction s as [|a|a b|a b c s IH] using bytes_ind3; [done..|].
  cbn [rfc4648]. rewrite length_app, IH. cbn [length].
  replace (S (S (S (length s))) + 2)%nat with (length s + 2 + 1 * 3)%nat by lia.
  rewrite Nat.div_add by lia. lia.
Qed.

Lemma decode_rfc s in_ ret :
  0 <= in_ -> in_ + Z.of_nat (length (rfc4648 s)) <= INT_MAX ->
  ('(char_array_4, ret) ← decode_loop (Z.of_nat (length (rfc4648 s))) in_ [] (rfc4648 s) ret;
   Ret (ret ++ decode_rest char_array_4)) = Ret (ret ++ s).
Proof.
  revert in_ ret. induction s as [|a|a b|a b c s IH] using bytes_ind3; intros in_ ret Hin Hlen.
  - done.
  - pose proof (byte_range a). cbn [rfc4648 length] in *.
    do 2 (rewrite decode_loop_step by (first [lia | Z.to_euclidean_division_equations; lia]); cbn [app]).
    rewrite decode_loop_stop by lia. cbn [mbind outcome_bind].
    by rewrite decode_rest_1.
  - pose proof (byte_range a). pose proof (byte_range b). cbn [rfc4648 length] in *.
    do 3 (rewrite decode_loop_step by (first [lia | Z.to_euclidean_division_equations; lia]); cbn [app]).
    rewrite decode_loop_stop by lia. cbn [mbind outcome_bind].
    by rewrite decode_rest_2.
  - assert (E : length (rfc4648 (a :: b :: c :: s)) = (4 + length (rfc4648 s))%nat) by done.
    rewrite E in Hlen. rewrite E, decode_loop_3 by lia.
    replace (Z.of_nat (4 + length (rfc4648 s)) - 4) with (Z.of_nat (length (rfc4648 s))) by lia.
    rewrite IH by lia. by rewrite <- app_assoc.
Qed.

Lemma base64_decode_rfc s :
  Z.of_nat (length (rfc4648 s)) <= INT_MAX -> base64_decode (rfc4648 s) = Ret s.
Proof.
  intros Hlen. unfold base64_decode. rewrite s32_small by (unfold INT_MAX in Hlen; lia).
  by rewrite decode_rfc by lia.
Qed.

(** C39. Base64 does what RFC 4648 says.  [base64_encode] never indexes its
    alphabet out of range, although it computes on signed [char]s, and its
    text is that of the standard for every string of bytes; [base64_decode]
    gives the string back, as long as the text is no longer than an [int]
    counts. *)
Theorem base64_roundtrip s :
  Z.of_nat (length (rfc4648 s)) <= INT_MAX ->
  base64_encode s = Ret (rfc4648 s) /\ (base64_encode s ≫= base64_decode) = Ret s.
Proof.
  intros Hlen. rewrite base64_encode_rfc. split; [done|]. cbn. by apply base64_decode_rfc.
Qed.

Definition sample_bytes : bytes := ascii_of_N <$> [0; 255; 128; 77; 97; 110; 200]%N.

Lemma base64_roundtrip_witness :
  base64_encode sample_bytes = Ret (str "AP+ATWFuyA==") /\
  (base64_encode sample_bytes ≫= base64_decode) = Ret sample_bytes.
Proof. apply (base64_roundtrip sample_bytes). vm_compute. discriminate. Defined.

(** ** Attachments *)

Lemma take_rfc m s : take (4 * m) (rfc4648 s) = rfc4648 (take (3 * m) s).
Proof.
  revert m. induction s as [|a|a b|a b c s IH] using bytes_ind3; intros [|m]; try done;
    replace (4 * S m)%nat with (S (S (S (S (4 * m))))) by lia;
    replace (3 * S m)%nat with (S (S (S (3 * m)))) by lia; cbn [rfc4648 take].
  1-2: by rewrite ?take_nil.
  cbn [take app]. by rewrite IH.
Qed.

Lemma mjoin_cons {A} (x : list A) (l : list (list A)) : mjoin (x :: l) = x ++ mjoin l.
Proof. done. Qed.

(** The rows from [i] to the last one are in the text. *)
Lemma rows_join fuel i k encoded :
  0 <= i -> (k < fuel)%nat ->
  (0 < Z.of_nat k -> (i + Z.of_nat k - 1) * 1024 <= Z.min INT_MAX (Z.of_nat (length encoded))) ->
  exists body, rows fuel i (i + Z.of_nat k) encoded = Ret body /\
    length body = k /\ mjoin body = take (1024 * k) (drop (Z.to_nat (i * 1024)) encoded).
Proof.
  revert i k. induction fuel as [|fuel IH]; intros i k Hi Hk Hlen; [lia|].
  cbn [rows]. destruct k as [|k].
  { rewrite Z.add_0_r, Z.eqb_refl. exists []. by rewrite Nat.mul_0_r. }
  rewrite (proj2 (Z.eqb_neq i _)), (proj2 (Z.ltb_ge INT_MAX _)), (proj2 (Z.ltb_ge _ (i * 1024))) by lia.
  destruct (IH (i + 1) k) as (body & E & Hk' & Hbody); [lia..|].
  replace (i + Z.of_nat (S k)) with (i + 1 + Z.of_nat k) by lia. rewrite E.
  eexists. split; [done|]. split; [by cbn; rewrite Hk'|]. rewrite mjoin_cons, Hbody.
  replace (Z.to_nat ((i + 1) * 1024)) with (Z.to_nat (i * 1024) + 1024)%nat by lia.
  rewrite <- drop_drop. replace (1024 * S k)%nat with (1024 + 1024 * k)%nat by lia.
  by rewrite take_take_drop.
Qed.

(** The attachment loses the end of the file.  [build_smtp_file] counts
    the rows of 1024 characters from the size of the file, but writes them
    from its Base64 text, which is a third longer: nothing fails, and who
    decodes the rows gets only the first 768 bytes for every row, so the whole
    file exactly when it has no more than that. *)
Theorem attachment_truncated file :
  let n := Z.of_nat (length file) in
  let no_of_rows := n / 1024 + 1 in
  n < 2 ^ 30 ->
  exists body, attachment_rows file = Ret body /\ Z.of_nat (length body) = no_of_rows /\
    base64_decode (mjoin body) = Ret (take (Z.to_nat (768 * no_of_rows)) file) /\
    (base64_decode (mjoin body) = Ret file <-> n <= 768 * no_of_rows).
Proof.
  intros n no_of_rows Hn. unfold attachment_rows. rewrite base64_encode_rfc.
  cbn [mbind outcome_bind]. pose proof (length_rfc file) as Hrfc.
  assert (Hlen : (length file <= length (rfc4648 file))%nat).
  { rewrite Hrfc. pose proof (Nat.div_mod_eq (length file + 2) 3).
    pose proof (Nat.mod_upper_bound (length file + 2) 3). lia. }
  pose proof (Z.div_mod n 1024). pose proof (Z.mod_pos_bound n 1024).
  assert (0 <= n) by (unfold n; lia).
  destruct (rows_join (S (S (length (rfc4648 file)))) 0 (Z.to_nat no_of_rows) (rfc4648 file))
    as (body & E & Hk & Hbody); [done|unfold no_of_rows, n in *; lia|unfold no_of_rows, n, INT_MAX in *; lia|].
  rewrite Z2Nat.id, Z.add_0_l in E by (unfold no_of_rows; lia).
  exists body. split; [|split; [unfold no_of_rows in *; lia|]].
  { unfold row_count. fold n. rewrite s32_small, Z.quot_div_nonneg by lia. exact E. }
  assert (Hdec : base64_decode (mjoin body) = Ret (take (Z.to_nat (768 * no_of_rows)) file)).
  { rewrite Hbody. change (drop _ (rfc4648 file)) with (rfc4648 file).
    replace (1024 * Z.to_nat no_of_rows)%nat with (4 * (256 * Z.to_nat no_of_rows))%nat by lia.
    rewrite take_rfc, base64_decode_rfc; [f_equal; f_equal; unfold no_of_rows; lia|].
    rewrite <- take_rfc, length_take. unfold no_of_rows, INT_MAX. lia. }
  split; [exact Hdec|]. rewrite Hdec. split.
  - intros [= Htake]. apply (f_equal length) in Htake. rewrite length_take in Htake. unfold n in *. lia.
  - intros Hle. f_equal. apply take_ge. unfold n in *. lia.
Qed.

(** A file of 800 bytes: one row of 1024 characters, 768 bytes arrive. *)
Lemma attachment_truncated_witness :
  let file := replicate 800 "x"%char in
  exists body, attachment_rows file = Ret body /\ Z.of_nat (length body) = 1 /\
    base64_decode (mjoin body) = Ret (take 768 file) /\
    (base64_decode (mjoin body) = Ret file <-> 800 <= 768).
Proof. apply (attachment_truncated (replicate 800 "x"%char)). vm_compute. reflexivity. Defined.

(** The answer is looked for in each read alone: one that two reads bring
    halves of is not seen, and the wait goes on until the connection fails. *)
Example answer_in_two_reads :
  await_mail_ok [Some (str "250 Mail OK queued")] = Ret 1%nat /\
  await_mail_ok [Some (str "250 Mai"); Some (str "l OK queued"); None] =
    Throw (RuntimeError "read failed").
Proof. split; reflexivity. Qed.
